(* ===== verification/_CoqProject ===== *)
-Q . S2P
Prelude.v
GoStrings.v
GoNet.v
GoIPv6.v
Acl.v
AclYaml.v
AclSpec.v
Http.v
Config.v
Classify.v
Conntrack.v
Registry.v
Proxy.v
Serve.v
Logic.v
Effects.v
Trees.v
Safety.v
Handling.v
Concurrent.v
Upstream.v
GoProxy.v
Exchange.v
Owners.v
Tunnels.v
Relay.v
Shutdown.v
Tls.v
Loader.v
LoaderSpec.v
Services.v
Lifecycle.v
Finish.v
Exit.v
Graceful.v
Main.v
