(* ===== verification/Prelude.v ===== *)
(** * Smokescreen: a verification library

    Smokescreen is an HTTP proxy for outgoing traffic.  It accepts plain HTTP
    proxy requests and CONNECT requests, decides by an access control list
    (ACL) whether the client's role may talk to the requested host, resolves
    the host, refuses addresses that are not public or that the configuration
    denies, and connects to the address it has checked.  This library models
    the Go code under [src/] (package [smokescreen] with [acl/v1] and
    [conntrack], [cmd] and [main.go]) and proves what keeps it correct.

    ** Files

    - [Prelude]: errors and results, boolean reflection, loops that stop at the
      first element, map iteration in an arbitrary order ([MapRange]).
    - [GoStrings], [GoNet], [Http]: the functions of Go's standard library
      that the source uses, as executable definitions: [strings], [strconv],
      [net] (addresses, masks, CIDR, host:port) and the fields and header maps
      of [net/http].  They have specifications of their own (the parsers
      against the printers, [Contains_prefix] for networks).
    - [Acl]: [acl/v1/policy.go] and [acl/v1/acl.go].  State: the record [ACL].
      The abstract specification is the relation [verdict], one rule per line
      of the documented precedence; [acl_Decide] refines it.  [acl_wf] is the
      invariant that [New] establishes.
    - [AclYaml]: [acl/v1/yaml_loader.go]; what a file must look like to load
      ([YAMLConfig_Load_ok_iff]) and what the loaded ACL holds.
    - [AclSpec]: a reference reading of an ACL file ([file_decision]); an ACL
      that was loaded from the file decides the same.
    - [Config]: the data and setters of [config.go] and [constants.go];
      invariant [ranges_wf], every configured range denotes a prefix.
    - [GoIPv6]: printing and parsing of IPv6 addresses and networks, inverse
      to each other.
    - [Classify]: [classifyAddr] and its helpers in [smokescreen.go], with the
      sets of IPv4 and IPv6 addresses that are reachable by default.
    - [Conntrack]: [conntrack/].  State: [TrackState], the tracker, a heap of
      connection objects and what was logged and counted.  Operations are
      steps of [ct_step]; [ct_inv] is the invariant of every reachable state,
      and [ct_owed n] the same while [n] connections are stored but not yet
      counted by the wait group.
    - [Registry]: the abstract specification of [Conntrack], a map from open
      connections to what was counted for them; the tracker answers every call
      as the registry does.
    - [Proxy]: roles, ACL check, resolution, [dial], responses and decision
      logging of [smokescreen.go].  A computation of type [M] is a tree of
      atomic actions on the process state [World]; its outcome is a value or a
      Go panic.
    - [Serve]: the three functions that [BuildProxy] registers,
      [handleConnect], the health check, and the code of the vendored goproxy
      that calls them.
    - [Logic]: what a program logic for these computations has to offer
      ([Logic], [Actions], [LogsDecision]) and, against that interface, one
      lemma for each program from [getRole] to [handler].  Safety, the absence
      of log lines, the balance of the wait group and the absence of closes are
      instances.
    - [Effects]: what a single computation does to the outside and the log
      while others run in between ([effects], [texec], [finishes]).
    - [Trees]: when two computations are equivalent ([≡]): the same actions in
      the same order with the same outcome.  The laws of the monad up to it, and
      [Proper] instances for its operations.
    - [Safety]: the calls of one request: allowed addresses, permission of the
      ACL, one resolution only.
    - [Handling]: what requests and clients see: hosts, roles, headers,
      refusals, decision lines.
    - [Concurrent]: the process, goroutines of requests and tunnels over one
      state, interleaved action by action in any order ([p_step]).
    - [Upstream]: goproxy's transport ([transport/transport.go]) up to the
      sending of a request: the first hop, the pool of idle connections
      ([Pool]), the dial hook, the upstream proxy, TLS.  It is an instance of
      the class [Transport] that [Serve] assumes ([DetailedRoundTrip_refines]).
    - [GoProxy]: goproxy's registration and dispatch of handlers, and
      [BuildProxy]; equivalent to the composition in [Serve].
    - [Exchange]: the two goroutines of a [persistConn] ([x_move]) and all
      exchanges of a process over one tracker and one pool ([x_step]);
      invariant [x_inv].
    - [Owners], [Tunnels], [Relay]: what happens after a CONNECT was accepted.
      [Owners]: the connections that a goroutine stored are its own.  [Tunnels]:
      goproxy's two copiers with the loop of [io.Copy] ([move]), and the system
      of the process and its tunnels ([s_step]), which refines the process
      ([s_step_process]).  [Relay]: its invariant and the theorems.
    - [Shutdown]: the parts of [StartWithConfig] and [runServer]: the listener,
      the shutdown flag, the wait for idle connections, the final closing.
    - [Tls]: [SetupTls], [SetupCrls] and their helpers in [config.go].
    - [Loader], [LoaderSpec]: [config_loader.go], [cmd/smokescreen.go],
      [cmd/check_config/main.go]; what a configuration file must look like and
      what it makes of the configuration, and the type of every configuration.
    - [Services]: [stats_server.go], [listener.go], [logruswriter.go].
    - [Lifecycle]: [StartWithConfig] and [runServer] as one state machine
      ([l_step]) over the process: the main goroutine, the signal, the wait
      for the wait group and for idle connections, the statistics server.  It
      refines the process ([life_process]).  [Finish]: the way to the end that
      the goroutines of [runServer] can always take by themselves.  [Exit]: how
      its runs end.
    - [Graceful]: the program with its tunnels ([g_step]), whose runs are runs
      of [Lifecycle] and of [Tunnels], and what a shutdown does to tunnels.
    - [Main]: [main.go], from the options to the sockets.

    ** How the parts interact

    [Main.main] turns the options into a configuration ([Loader]) and serves it
    ([Lifecycle.StartWithConfig]).  A request enters [Serve.handler] as a
    goroutine of [Concurrent]; that this is what goproxy does with the handlers
    that [GoProxy.BuildProxy] registers is [BuildProxy_serves].  The handlers ask
    [Proxy.checkIfRequestShouldBeProxied], which asks the ACL through the
    [Decider] that the configuration holds, resolves through the class [Env]
    and classifies with [Classify.classifyAddr]; the decision, with the
    address that was checked, travels in the request context to
    [Proxy.dial], which connects and registers the connection with the tracker
    of [Conntrack].  A CONNECT that was accepted goes on as a tunnel of
    [Tunnels]; any other request goes on in [Upstream], which calls the same
    [dial], and its connection lives on in [Exchange].  [Lifecycle] waits for what the tracker holds and closes
    what is left, while the other goroutines go on.

    The outside is a parameter everywhere.  [Env] (DNS, dialling, clock) and
    [Outside] (the transport's own resolution, what a connection answers, the
    upstream proxy of the environment) answer from the whole history of calls, so the theorems hold for a resolver
    that changes its mind between two questions.  [Net] (listening sockets, the
    einhorn master), [Pki] (files, PEM, X.509), the YAML decoder, the statsd
    client and the ACL file are parameters of their components.  Every theorem
    about them has a witness with concrete functions.

    ** What the theorems show

    - Safety of connections, in every interleaving: [dials_authorised],
      [tunnel_pins_address], [http_pins_address], and for the whole program
      [command_line_to_socket]; [dialled_string].
    - The server that [BuildProxy] makes: [BuildProxy_serves],
      [no_connection_reuse].
    - HTTP requests on their connections: [exchange_outcomes],
      [leaked_for_ever].
    - Life of the program: [main_spec], [exit_closes_all], [death_causes],
      [shutdown_can_finish], [idle_wait_terminates], [idle_round_equiv],
      [shutdown_flag_never_seen].
    - Classification: [classifyAddr_spec], [classify_v4], [classify_v6].
    - Access control, from the file to the decision: [acl_file_decides];
      [Decide_refines_verdict], [ValidateDomains_accepts],
      [valid_glob_label_boundary], [trailing_dot_evades_deny_list], [Add_spec],
      [New_ok_iff], and loading: [YAMLConfig_Load_ok_iff],
      [YAMLConfig_Load_rules].
    - Connections: [tracker_refines_registry], [reachable_inv], [Close_once],
      [bytes_accounted], [MaybeIdleIn_wait], [waitgroup_balance].
    - Tunnels: [tunnels_relay], [tunnel_half_close], [tunnel_drains],
      [shutdown_spares_tunnels].
    - Handling: [decision_lines], [forwarded_headers],
      [error_header_only_on_connect], [rejectResponse_spec],
      [acl_check_panics_iff], [http_address], [logged_dest_ip].
    - Configuration: [parseRanges_cidr], [parseAddresses_host],
      [UnmarshalYAML_spec], [NewConfiguration_spec], [NewConfiguration_typed],
      [crls_in_force_are_trusted], [cli_crls_ignored], [file_mode_bound].

    Some of these describe what the code does where that is not what it means
    to do: the tracker never sees the shutdown flag, the wait group can go
    below zero and can be used again while a shutdown waits for it, which kills
    the process, a tunnel loses what the client sent behind its CONNECT and
    waits for ever for a peer that does nothing, stopping a statistics server that has not started panics, IPv6
    literals panic under an ACL, revocation lists of the command line are
    ignored, a host with a final dot gets past the deny list, a client that
    finishes sending loses the rest of the answer, a response that says that it
    ends its connection leaves it open for good, a server that is quick to speak
    makes its request wait for ever, the log names an address that nobody
    dialled, and others; their comments
    say so.

    ** Fuel and bounds

    [idle_wait] takes fuel: [idle_wait_terminates] shows that the exit timeout
    in nanoseconds plus two rounds are enough.  [populate_loop] takes the
    length of its input plus one: [populate_enough] shows that this is enough
    for a decoder that consumes input.  The printer [uitoa_aux] of numbers has
    20 digits, enough for 64 bits.  Byte counters wrap at 2^64, durations
    saturate at 64 bits, ports are bounded at the command line.  Exchanges need no
    fuel: [x_rank], at most 15, falls with every move but the reading of more
    body.  That [runServer] can end ([shutdown_can_finish]) needs a clock that
    goes on ([clock_runs]), and no fuel.

    Liveness is stated with what has to wait: [Relay.waits] and
    [Exchange.x_waits] name the moves that a peer can hold up for ever, reads
    and writes on open connections, since the code sets no deadline on any.

    ** What is not modelled

    A read or write that is interrupted in the middle by a close (each takes
    effect at once), an [Add] or a [Done] of the wait group that is interrupted
    in the middle by another (each takes effect at once, so of the checks of
    [sync.WaitGroup] the one of [Done] below zero, the one of [Wait] after it was
    released, and, by [l_misuse], the one between an [Add] and the [Done] that
    releases are there; what is left of the program when [net/http] recovers
    the two panics of the last is not), the contents of requests and
    bodies on an outgoing connection, TLS, goproxy's man-in-the-middle mode
    (which [BuildProxy_serves] shows to be out of reach), how the upstream proxy
    is read from the environment, the accept loop of [net/http] (it starts the
    goroutines of [Concurrent] in any order and at any time, also after the
    listener is closed, for connections that were accepted before), what
    [http.Server.Shutdown] waits for (its result is only logged, and the
    theorems hold whenever it returns), the JSON encoder, the declaration of the
    command line's flags, informational log lines of starting and stopping,
    messages to goproxy's own logger, and printing to standard output.  The
    fields of [Config] that hold TLS state are in [Tls.TlsState]; the tracker,
    the flag and the statistics server are in [Lifecycle.Life].

    [Exchange] runs over the tracker under any use and not over the goroutines
    of [Concurrent]: there the answer to a request is one step of its goroutine,
    and that of the goroutine that reads it is not seen.  The exchange of a
    request that the client gives up is not cut short, in the code either. *)

From Stdlib Require Export Ascii ZArith Lia Bool.
From stdpp Require Export base gmap strings list pretty.

#[global] Open Scope Z_scope.

(** ** Errors

    A Go [error] is a value of an interface.  The code distinguishes errors
    only by their dynamic type ([err.(denyError)], [err.(missingRoleError)])
    and by their text, so an error is its text under the wrappers that the
    source declares ([smokescreen.go], [config.go]). *)
Inductive error :=
| Err (msg : string)
| denyError (e : error)
| missingRoleError (e : error).

#[global] Instance error_eq_dec : EqDecision error.
Proof. solve_decision. Defined.

(** The wrappers embed [error], so the method [Error()] is promoted. *)
Fixpoint Error (e : error) : string :=
  match e with
  | Err msg => msg
  | denyError e => Error e
  | missingRoleError e => Error e
  end.

(** A function that returns [(T, error)] and is used as "a value or an
    error". *)
Inductive result (A : Type) :=
| Ok (a : A)
| Fail (e : error).
Arguments Ok {A} _.
Arguments Fail {A} _.

Declare Scope go_scope.
Delimit Scope go_scope with go.
#[global] Open Scope go_scope.

Definition result_bind {A B} (r : result A) (k : A → result B) : result B :=
  match r with Ok a => k a | Fail e => Fail e end.

Notation "'let?' x := r 'in' k" := (result_bind r (λ x, k))
  (at level 10, x pattern, r at level 100, k at level 200) : go_scope.

Definition is_ok {A} (r : result A) : bool :=
  match r with Ok _ => true | Fail _ => false end.

Lemma result_bind_ok {A B} (r : result A) (k : A → result B) b :
  result_bind r k = Ok b ↔ ∃ a, r = Ok a ∧ k a = Ok b.
Proof. destruct r; simpl; naive_solver. Qed.

(** ** Boolean reasoning *)
Create Rewrite HintDb go_bool.
#[export] Hint Rewrite andb_true_iff orb_true_iff negb_true_iff andb_false_iff
  orb_false_iff negb_false_iff Z.eqb_eq Z.eqb_neq Z.ltb_lt Z.ltb_ge Z.leb_le
  Z.leb_gt Nat.eqb_eq Nat.eqb_neq Nat.leb_le Nat.leb_gt Nat.ltb_lt Nat.ltb_ge
  bool_decide_eq_true bool_decide_eq_false String.eqb_eq String.eqb_neq : go_bool.

(** [to_prop] turns every boolean test of the context into the proposition
    it decides; [to_prop!] also finishes with linear arithmetic or
    congruence. *)
Ltac to_prop := autorewrite with go_bool in *.
Ltac go_case :=
  match goal with
  | |- context [if ?b then _ else _] => destruct b eqn:?
  | H : context [if ?b then _ else _] |- _ => destruct b eqn:?
  end.
Ltac finish := to_prop; try done; try lia; naive_solver.

(** ** Searching a list: a Go [for ... range] loop that returns at the first
    element that satisfies a test *)
Section first_match.
  Context {A : Type} (P : A → bool).

Lemma existsb_true_iff (l : list A) : existsb P l = true ↔ ∃ x, x ∈ l ∧ P x = true.
Proof. rewrite existsb_exists. setoid_rewrite list_elem_of_In. done. Qed.

Lemma existsb_false_iff (l : list A) : existsb P l = false ↔ ∀ x, x ∈ l → P x = false.
Proof.
  induction l as [|x l IH]; simpl.
  - split; [intros _ x Hx; by apply elem_of_nil in Hx | done].
  - rewrite orb_false_iff, IH. setoid_rewrite elem_of_cons. naive_solver.
Qed.

Lemma forallb_true_iff (l : list A) : forallb P l = true ↔ ∀ x, x ∈ l → P x = true.
Proof. rewrite forallb_forall. setoid_rewrite list_elem_of_In. done. Qed.
End first_match.

(** A loop that stops at the first error. *)
Fixpoint try_all {A} (f : A → option error) (l : list A) : option error :=
  match l with
  | [] => None
  | x :: l => match f x with Some e => Some e | None => try_all f l end
  end.

Lemma try_all_none {A} (f : A → option error) l :
  try_all f l = None ↔ ∀ x, x ∈ l → f x = None.
Proof.
  induction l as [|x l IH]; simpl.
  - split; [intros _ x Hx; by apply elem_of_nil in Hx | done].
  - setoid_rewrite elem_of_cons. destruct (f x) eqn:E; [naive_solver|].
    rewrite IH. naive_solver.
Qed.

Lemma try_all_some {A} (f : A → option error) l e :
  try_all f l = Some e → ∃ x, x ∈ l ∧ f x = Some e.
Proof.
  induction l as [|x l IH]; simpl; [done|].
  setoid_rewrite elem_of_cons. destruct (f x) eqn:E; naive_solver.
Qed.

(** ** Ranging over a map

    Go's [for k, v := range m] (and [sync.Map.Range]) visit the entries of a
    map in an order that is not specified.  The order is a parameter of the
    code that ranges; all that is promised is that every entry is visited
    once. *)
Class MapRange (K V : Type) `{Countable K} := {
  map_range : gmap K V → list (K * V);
  map_range_perm m : map_range m ≡ₚ map_to_list m
}.

(** One concrete order, for running the model. *)
Definition canonical_range (K V : Type) `{Countable K} : MapRange K V :=
  {| map_range := map_to_list; map_range_perm m := Permutation_refl _ |}.

Lemma elem_of_map_range `{MapRange K V} (m : gmap K V) k v :
  (k, v) ∈ map_range m ↔ m !! k = Some v.
Proof. by rewrite map_range_perm, elem_of_map_to_list. Qed.

(** ** Pairing two lists *)
Lemma zip_elem_l {A B} (l : list A) (k : list B) x :
  x ∈ l → length l = length k → ∃ y, (x, y) ∈ zip l k.
Proof.
  revert k. induction l as [|a l IH]; intros [|b k]; try done;
    [intros H; by apply elem_of_nil in H|].
  intros [->|Hx]%elem_of_cons Hl; simpl; [exists b; by left|].
  destruct (IH k Hx ltac:(simpl in Hl; lia)) as [y Hy]. exists y. by right.
Qed.

Lemma Forall2_zip {A B} (P : A → B → Prop) l k x y :
  Forall2 P l k → (x, y) ∈ zip l k → P x y.
Proof.
  induction 1 as [|a b l k H1 H2 IH]; simpl; [intros H; by apply elem_of_nil in H|].
  intros [[= -> ->]|H]%elem_of_cons; auto.
Qed.

Lemma zip_fmap_inv {A B C} (f : A → C) (l : list A) (k : list B) c y :
  (c, y) ∈ zip (f <$> l) k → ∃ x, c = f x ∧ (x, y) ∈ zip l k.
Proof.
  revert k. induction l as [|a l IH]; intros [|b k]; simpl;
    try (intros H; by apply elem_of_nil in H).
  intros [[= -> ->]|H]%elem_of_cons; [exists a; split; [done|by left]|].
  destruct (IH k H) as (x & -> & Hx). exists x. split; [done|by right].
Qed.
