(* ===== verification/GoStrings.v ===== *)
(** * Go strings and number parsing

    The parts of Go's [strings] and [strconv] packages that the source calls,
    on byte strings ([string] is a list of 8-bit characters), and the lemmas
    about them that the components share. *)

From S2P Require Import Prelude.

(** ** Slices *)
Fixpoint str_take (n : nat) (s : string) : string :=
  match n, s with
  | S n, String c s => String c (str_take n s)
  | _, _ => EmptyString
  end.

Fixpoint str_drop (n : nat) (s : string) : string :=
  match n, s with
  | O, s => s
  | S n, String _ s => str_drop n s
  | S _, EmptyString => EmptyString
  end.

(** Byte value of a character, as Go's [s[i]]. *)
Definition byte_of (c : ascii) : Z := Z.of_N (N_of_ascii c).

Fixpoint str_all (P : ascii → bool) (s : string) : bool :=
  match s with
  | EmptyString => true
  | String c s => P c && str_all P s
  end.

Definition has_byte (c : ascii) (s : string) : bool :=
  negb (str_all (λ d, negb (Ascii.eqb d c)) s).

(** ** [strings.HasPrefix], [HasSuffix], [Contains] *)
Definition HasPrefix (s prefix : string) : bool := String.prefix prefix s.

Definition HasSuffix (s suffix : string) : bool :=
  (String.length suffix <=? String.length s)%nat &&
  String.eqb (str_drop (String.length s - String.length suffix) s) suffix.

Fixpoint Contains (s sub : string) : bool :=
  HasPrefix s sub ||
  match s with
  | EmptyString => false
  | String _ s => Contains s sub
  end.

(** [strings.IndexByte]: the first position of a byte. *)
Fixpoint IndexByte (s : string) (c : ascii) : option nat :=
  match s with
  | EmptyString => None
  | String d s => if Ascii.eqb d c then Some 0%nat else S <$> IndexByte s c
  end.

(** [strings.LastIndex] of a one-byte string, [-1] when there is none. *)
Fixpoint LastIndex (s : string) (c : ascii) : Z :=
  match s with
  | EmptyString => -1
  | String d s =>
      let r := LastIndex s c in
      if 0 <=? r then r + 1 else if Ascii.eqb d c then 0 else -1
  end.

(** ** Lemmas on append, slices and membership *)
Lemma app_str_cons c (s t : string) : String c s +:+ t = String c (s +:+ t).
Proof. done. Qed.

Lemma app_str_assoc (s t u : string) : s +:+ (t +:+ u) = (s +:+ t) +:+ u.
Proof. induction s as [|c s IH]; [done|]. rewrite !app_str_cons. by rewrite IH. Qed.

Lemma app_str_nil_r (s : string) : s +:+ "" = s.
Proof. induction s as [|c s IH]; [done|]. rewrite app_str_cons. by rewrite IH. Qed.

Lemma app_str_nil_l (s : string) : "" +:+ s = s.
Proof. done. Qed.

Lemma length_app_str (s t : string) :
  String.length (s +:+ t) = (String.length s + String.length t)%nat.
Proof. induction s as [|c s IH]; [done|]. rewrite app_str_cons. simpl. by rewrite IH. Qed.

Lemma str_take_drop n s : str_take n s +:+ str_drop n s = s.
Proof.
  revert s. induction n as [|n IH]; intros [|c s]; [done..|].
  simpl. rewrite app_str_cons. by rewrite IH.
Qed.

Lemma str_drop_app (s t : string) : str_drop (String.length s) (s +:+ t) = t.
Proof. induction s as [|c s IH]; [done|]. rewrite app_str_cons. done. Qed.

Lemma str_take_app (s t : string) : str_take (String.length s) (s +:+ t) = s.
Proof. induction s as [|c s IH]; [done|]. rewrite app_str_cons. simpl. by f_equal. Qed.

Lemma length_str_drop n s : String.length (str_drop n s) = (String.length s - n)%nat.
Proof. revert s. induction n as [|n IH]; intros [|c s]; simpl; [done..|]. apply IH. Qed.

Lemma str_all_app P (s t : string) : str_all P (s +:+ t) = str_all P s && str_all P t.
Proof.
  induction s as [|c s IH]; [done|]. rewrite app_str_cons. simpl.
  by rewrite IH, andb_assoc.
Qed.

Lemma has_byte_app c (s t : string) : has_byte c (s +:+ t) = has_byte c s || has_byte c t.
Proof. unfold has_byte. by rewrite str_all_app, negb_andb. Qed.

Lemma has_byte_cons c d s : has_byte c (String d s) = Ascii.eqb d c || has_byte c s.
Proof. unfold has_byte. simpl. by rewrite negb_andb, negb_involutive. Qed.

Lemma app_str_inv_tail (s t u : string) : s +:+ u = t +:+ u → s = t.
Proof.
  revert t. induction s as [|c s IH]; intros [|d t]; [done| | |].
  - intros H%(f_equal String.length). rewrite !length_app_str in H. simpl in H. lia.
  - intros H%(f_equal String.length). rewrite !length_app_str in H. simpl in H. lia.
  - rewrite !app_str_cons. intros [= -> H]. f_equal. by apply IH.
Qed.

(** Two splittings of one string at suffixes of known length agree. *)
Lemma app_str_inv_length (s1 t1 s2 t2 : string) :
  s1 +:+ t1 = s2 +:+ t2 → String.length t1 = String.length t2 → s1 = s2 ∧ t1 = t2.
Proof.
  intros Heq Hl.
  assert (String.length s1 = String.length s2) as Hs.
  { apply (f_equal String.length) in Heq. rewrite !length_app_str in Heq. lia. }
  assert (t1 = t2) as ->.
  { rewrite <-(str_drop_app s1 t1), Hs, Heq. apply str_drop_app. }
  split; [|done]. by eapply app_str_inv_tail.
Qed.

(** ** Specifications of the search functions *)
Lemma HasPrefix_spec s p : HasPrefix s p = true ↔ ∃ t, s = p +:+ t.
Proof.
  unfold HasPrefix. revert s. induction p as [|c p IH]; intros s; simpl.
  - destruct s; split; try done; intros _; by eexists.
  - destruct s as [|d s]; [split; [done|]; intros [t Ht]; by rewrite app_str_cons in Ht|].
    simpl. destruct (ascii_dec c d) as [->|Hne].
    + rewrite IH. split; intros [t Ht]; exists t; rewrite app_str_cons in *; congruence.
    + split; [done|]. intros [t Ht]. rewrite app_str_cons in Ht. congruence.
Qed.

Lemma HasPrefix_byte c d s : HasPrefix (String d s) (String c "") = Ascii.eqb d c.
Proof.
  apply eq_true_iff_eq. rewrite HasPrefix_spec, Ascii.eqb_eq. split.
  - intros [t Ht]. rewrite app_str_cons in Ht. by simplify_eq.
  - intros ->. by exists s.
Qed.

Lemma HasSuffix_spec s p : HasSuffix s p = true ↔ ∃ t, s = t +:+ p.
Proof.
  unfold HasSuffix. rewrite andb_true_iff, Nat.leb_le, String.eqb_eq. split.
  - intros [_ H]. exists (str_take (String.length s - String.length p) s).
    rewrite <-H at 2. by rewrite str_take_drop.
  - intros [t ->]. rewrite length_app_str. split; [lia|].
    replace (_ + _ - _)%nat with (String.length t) by lia. apply str_drop_app.
Qed.

Lemma Contains_spec s p : Contains s p = true ↔ ∃ t u, s = t +:+ p +:+ u.
Proof.
  induction s as [|c s IH]; cbn [Contains];
    rewrite orb_true_iff, HasPrefix_spec.
  - split; [intros [[u Hu]|?]; [|done]; by exists "", u|].
    intros (t & u & H). left. exists u. by destruct t.
  - rewrite IH. split.
    + intros [[u Hu]|(t & u & ->)]; [by exists "", u|]. by exists (String c t), u.
    + intros ([|d t] & u & H); [left; by exists u|].
      right. rewrite app_str_cons in H. simplify_eq. by exists t, u.
Qed.

(** Containing a one-byte string is having that byte. *)
Lemma Contains_byte s c : Contains s (String c EmptyString) = has_byte c s.
Proof.
  induction s as [|d s IH]; [done|].
  cbn [Contains]. rewrite has_byte_cons, IH. f_equal.
  unfold HasPrefix. simpl. destruct (ascii_dec c d) as [->|Hne].
  - rewrite Ascii.eqb_refl. by destruct s.
  - symmetry. apply Ascii.eqb_neq. congruence.
Qed.

Lemma IndexByte_Some s c i :
  IndexByte s c = Some i →
  s = str_take i s +:+ String c (str_drop (S i) s) ∧ has_byte c (str_take i s) = false.
Proof.
  revert i. induction s as [|d s IH]; intros i; cbn [IndexByte]; [done|].
  destruct (Ascii.eqb d c) eqn:E.
  - intros [= <-]. apply Ascii.eqb_eq in E as ->. by simpl.
  - intros (j & Hj & ->)%fmap_Some_1. destruct (IH j) as [H1 H2]; [done|]. split.
    + simpl. rewrite app_str_cons. by rewrite H1 at 1.
    + simpl. by rewrite has_byte_cons, E.
Qed.

Lemma IndexByte_None s c : IndexByte s c = None ↔ has_byte c s = false.
Proof.
  induction s as [|d s IH]; [done|]. simpl. rewrite has_byte_cons.
  destruct (Ascii.eqb d c); [done|]. rewrite fmap_None. done.
Qed.

(** The position of the first [c] after a part without it. *)
Lemma IndexByte_app s t c :
  has_byte c s = false → IndexByte (s +:+ String c t) c = Some (String.length s).
Proof.
  induction s as [|d s IH].
  - intros _. rewrite app_str_nil_l. simpl. by rewrite Ascii.eqb_refl.
  - rewrite has_byte_cons, orb_false_iff. intros [Hd Hs].
    rewrite app_str_cons. simpl. by rewrite Hd, IH.
Qed.

Lemma LastIndex_ge s c : -1 ≤ LastIndex s c.
Proof. induction s as [|d s IH]; simpl; repeat go_case; finish. Qed.

Lemma LastIndex_none s c : LastIndex s c = -1 ↔ has_byte c s = false.
Proof.
  induction s as [|d s IH]; [done|]. cbn [LastIndex]. rewrite has_byte_cons.
  pose proof (LastIndex_ge s c).
  destruct (Z.leb_spec 0 (LastIndex s c)).
  - split; [lia|]. rewrite orb_false_iff. intros [_ H2]. apply IH in H2. lia.
  - destruct (Ascii.eqb d c); simpl; [split; lia||done|].
    split; [intros _|done]. apply IH. lia.
Qed.

Lemma LastIndex_app s t c :
  has_byte c t = false → LastIndex (s +:+ String c t) c = Z.of_nat (String.length s).
Proof.
  intros Ht. apply LastIndex_none in Ht.
  induction s as [|d s IH].
  - rewrite app_str_nil_l. cbn [LastIndex]. rewrite Ht, Ascii.eqb_refl. done.
  - rewrite app_str_cons. cbn [LastIndex String.length]. rewrite IH.
    destruct (Z.leb_spec 0 (Z.of_nat (String.length s))); lia.
Qed.

(** ** Decimal and hexadecimal numbers *)
Definition in_range (lo hi : ascii) (c : ascii) : bool :=
  (byte_of lo <=? byte_of c) && (byte_of c <=? byte_of hi).

Definition is_digit : ascii → bool := in_range "0"%char "9"%char.

(** The value of an alphanumeric digit ([strconv]'s switch), [None] for any
    other byte. *)
Definition digit_val (c : ascii) : option Z :=
  if is_digit c then Some (byte_of c - 48)
  else if in_range "a"%char "z"%char c then Some (byte_of c - 97 + 10)
  else if in_range "A"%char "Z"%char c then Some (byte_of c - 65 + 10)
  else None.

(** [net.big]: the bound at which [dtoi] and [xtoi] give up. *)
Definition big : Z := 0xFFFFFF.

(** [net.dtoi] and [net.xtoi]: the number at the front of the string and the
    unread rest; [None] when there is no digit or the number reaches [big]. *)
Fixpoint digits_loop (base : Z) (s : string) (n : Z) : option (Z * string) :=
  match s with
  | EmptyString => Some (n, EmptyString)
  | String c t =>
      match digit_val c with
      | Some d =>
          if d <? base then
            let n := n * base + d in
            if big <=? n then None else digits_loop base t n
          else Some (n, s)
      | None => Some (n, s)
      end
  end.

Definition starts_digit (base : Z) (s : string) : bool :=
  match s with
  | String c _ => match digit_val c with Some d => d <? base | None => false end
  | EmptyString => false
  end.

Definition number (base : Z) (s : string) : option (Z * string) :=
  if starts_digit base s then digits_loop base s 0 else None.

Definition dtoi : string → option (Z * string) := number 10.
Definition xtoi : string → option (Z * string) := number 16.

(** [net.itoa] of a non-negative number; 20 digits hold any 64-bit value. *)
Definition digit_char (d : Z) : ascii := ascii_of_N (Z.to_N (48 + d)).

Fixpoint uitoa_aux (fuel : nat) (n : Z) (acc : string) : string :=
  match fuel with
  | O => acc
  | S fuel =>
      let acc := String (digit_char (n mod 10)) acc in
      if n <? 10 then acc else uitoa_aux fuel (n / 10) acc
  end.

Definition itoa (n : Z) : string :=
  if n <? 0 then String "-"%char (uitoa_aux 20 (- n) EmptyString)
  else uitoa_aux 20 n EmptyString.

(** [strconv]: the two errors of a number conversion. *)
Inductive num_error := ErrSyntax | ErrRange.

Fixpoint parse_uint_loop (base maxVal : Z) (s : string) (n : Z) : Z + num_error :=
  match s with
  | EmptyString => inl n
  | String c s =>
      match digit_val c with
      | Some d =>
          if base <=? d then inr ErrSyntax
          else if maxVal <? n * base + d then inr ErrRange
          else parse_uint_loop base maxVal s (n * base + d)
      | None => inr ErrSyntax
      end
  end.

Definition ParseUint (s : string) (base bitSize : Z) : Z + num_error :=
  match s with
  | EmptyString => inr ErrSyntax
  | _ => parse_uint_loop base (2 ^ bitSize - 1) s 0
  end.

(** [strconv.ParseInt(s, base, bitSize)] for [2 <= base] and
    [1 <= bitSize <= 64]. *)
Definition ParseInt (s : string) (base bitSize : Z) : Z + num_error :=
  let '(neg, digits) :=
    match s with
    | String c t =>
        if Ascii.eqb c "+"%char then (false, t)
        else if Ascii.eqb c "-"%char then (true, t) else (false, s)
    | EmptyString => (false, s)
    end in
  let cutoff := 2 ^ (bitSize - 1) in
  match ParseUint digits base bitSize with
  | inr ErrSyntax => inr ErrSyntax
  | inr ErrRange => inr ErrRange
  | inl un =>
      if negb neg && (cutoff <=? un) then inr ErrRange
      else if neg && (cutoff <? un) then inr ErrRange
      else inl (if neg then - un else un)
  end.

(** [strconv.Atoi] on a 64-bit platform. *)
Definition Atoi (s : string) : Z + num_error := ParseInt s 10 64.

(** The double quote, for the texts that contain one. *)
Definition dquote : string := String (ascii_of_nat 34) "".

(** *** Reading back a printed number *)
Lemma byte_of_digit_char d : 0 ≤ d < 10 → byte_of (digit_char d) = 48 + d.
Proof.
  intros. unfold byte_of, digit_char. rewrite N_ascii_embedding by lia. lia.
Qed.

Lemma byte_of_range c : 0 ≤ byte_of c < 256.
Proof. unfold byte_of. pose proof (N_ascii_bounded c). lia. Qed.

(** *** What is parsed is in the range of its width *)
Lemma digit_val_nonneg c d : digit_val c = Some d → 0 ≤ d.
Proof.
  unfold digit_val, is_digit, in_range, byte_of. pose proof (N2Z.is_nonneg (N_of_ascii c)). simpl.
  intros H0. repeat case_match; simplify_eq; to_prop; lia.
Qed.

Lemma ParseUint_nonneg s base bits n : 0 ≤ base → ParseUint s base bits = inl n → 0 ≤ n.
Proof.
  intros Hb. destruct s as [|c s]; [done|]. unfold ParseUint. generalize (2 ^ bits - 1). intros m.
  assert (0 ≤ 0) as H0 by lia. revert H0. generalize (String c s). generalize 0 at 2 3. intros k t.
  revert k. induction t as [|c' t IH]; intros k Hk; simpl; [by intros [= <-]|].
  destruct (digit_val c') as [d|] eqn:Hd; [|done]. apply digit_val_nonneg in Hd.
  destruct (base <=? d); [done|]. destruct (m <? k * base + d); [done|]. apply IH. nia.
Qed.

Lemma ParseInt_bounds s base bits n :
  0 ≤ base → 1 ≤ bits → ParseInt s base bits = inl n → - 2 ^ (bits - 1) ≤ n < 2 ^ (bits - 1).
Proof.
  intros Hb Hbits. unfold ParseInt. destruct (match s with EmptyString => _ | _ => _ end) as [neg digits].
  destruct (ParseUint digits base bits) as [un|[]] eqn:Hu; [|done..].
  apply ParseUint_nonneg in Hu; [|done]. pose proof (Z.pow_pos_nonneg 2 (bits - 1) ltac:(lia) ltac:(lia)).
  destruct (Z.leb_spec (2 ^ (bits - 1)) un), (Z.ltb_spec (2 ^ (bits - 1)) un), neg;
    simpl; intros; simplify_eq; lia.
Qed.

Lemma digit_val_char d : 0 ≤ d < 10 → digit_val (digit_char d) = Some d.
Proof.
  intros. unfold digit_val, is_digit, in_range. rewrite byte_of_digit_char by done.
  change (byte_of "0") with 48. change (byte_of "9") with 57.
  destruct (Z.leb_spec 48 (48 + d)), (Z.leb_spec (48 + d) 57); simpl; try lia.
  f_equal. lia.
Qed.

Lemma digits_loop_uitoa fuel n acc :
  0 ≤ n < 10 ^ Z.of_nat fuel → n < big →
  digits_loop 10 (uitoa_aux fuel n acc) 0 = digits_loop 10 acc n.
Proof.
  revert n acc. induction fuel as [|fuel IH]; intros n acc Hn Hbig.
  { simpl in Hn. by assert (n = 0) as -> by lia. }
  rewrite Nat2Z.inj_succ, Z.pow_succ_r in Hn by lia.
  pose proof (Z.mod_pos_bound n 10). pose proof (Z.div_mod n 10).
  simpl. destruct (Z.ltb_spec n 10).
  - rewrite Z.mod_small by lia. simpl. rewrite digit_val_char by lia.
    change (0 * 10 + n) with n.
    destruct (Z.ltb_spec n 10), (Z.leb_spec big n); try lia. done.
  - rewrite IH; [|lia..]. simpl. rewrite digit_val_char by lia.
    destruct (Z.ltb_spec (n mod 10) 10); [|lia].
    replace (n / 10 * 10 + n mod 10) with n by lia.
    destruct (Z.leb_spec big n); [lia|done].
Qed.

Lemma uitoa_starts fuel n acc :
  0 ≤ n → starts_digit 10 acc = true ∨ fuel ≠ O → starts_digit 10 (uitoa_aux fuel n acc) = true.
Proof.
  revert n acc. induction fuel as [|fuel IH]; intros n acc Hn Hacc; [naive_solver|].
  pose proof (Z.mod_pos_bound n 10).
  assert (starts_digit 10 (String (digit_char (n mod 10)) acc) = true) as Hs.
  { simpl. rewrite digit_val_char by lia. apply Z.ltb_lt. lia. }
  simpl. destruct (n <? 10); [done|]. apply IH; [apply Z.div_pos; lia|by left].
Qed.

(** Printing accumulates in front of what follows. *)
Lemma uitoa_app fuel n acc rest :
  uitoa_aux fuel n acc +:+ rest = uitoa_aux fuel n (acc +:+ rest).
Proof.
  revert n acc. induction fuel as [|fuel IH]; intros n acc; [done|].
  simpl. destruct (n <? 10); [done|]. by rewrite IH.
Qed.

Lemma digits_loop_stop base s n :
  starts_digit base s = false → digits_loop base s n = Some (n, s).
Proof. destruct s as [|c s]; simpl; [done|]. destruct (digit_val c); [|done]. by intros ->. Qed.

(** [dtoi] reads back what [itoa] printed, up to the following non-digit. *)
Lemma dtoi_itoa n rest :
  0 ≤ n < big → starts_digit 10 rest = false →
  dtoi (itoa n +:+ rest) = Some (n, rest).
Proof.
  intros Hn Hrest. unfold dtoi, number, itoa.
  destruct (Z.ltb_spec n 0); [lia|].
  rewrite uitoa_app, app_str_nil_l.
  rewrite uitoa_starts by (auto; lia).
  rewrite digits_loop_uitoa; [by apply digits_loop_stop| |lia].
  assert (big < 10 ^ Z.of_nat 20) by (vm_compute; done). lia.
Qed.

(** The printed number holds decimal digits only. *)
Lemma uitoa_digits fuel n acc :
  0 ≤ n → str_all is_digit acc = true → str_all is_digit (uitoa_aux fuel n acc) = true.
Proof.
  revert n acc. induction fuel as [|fuel IH]; intros n acc Hn Hacc; [done|].
  pose proof (Z.mod_pos_bound n 10).
  assert (str_all is_digit (String (digit_char (n mod 10)) acc) = true) as Hs.
  { simpl. rewrite Hacc, andb_true_r. unfold is_digit, in_range.
    rewrite byte_of_digit_char by lia.
    change (byte_of "0") with 48. change (byte_of "9") with 57. finish. }
  simpl. destruct (n <? 10); [done|]. apply IH; [apply Z.div_pos; lia|done].
Qed.

Lemma itoa_digits n : 0 ≤ n → str_all is_digit (itoa n) = true.
Proof. intros. unfold itoa. destruct (Z.ltb_spec n 0); [lia|]. by apply uitoa_digits. Qed.

(** A string of digits has no other byte. *)
Lemma digits_no_byte c s :
  is_digit c = false → str_all is_digit s = true → has_byte c s = false.
Proof.
  intros Hc. induction s as [|d s IH]; [done|]. simpl. rewrite andb_true_iff, has_byte_cons.
  intros [Hd Hs]. rewrite IH, orb_false_r by done.
  apply Ascii.eqb_neq. intros ->. congruence.
Qed.

(** ** [strconv.Atoi] reads back a printed number *)
Lemma parse_uint_uitoa maxVal fuel n acc :
  0 ≤ n < 10 ^ Z.of_nat fuel → n ≤ maxVal →
  parse_uint_loop 10 maxVal (uitoa_aux fuel n acc) 0 = parse_uint_loop 10 maxVal acc n.
Proof.
  revert n acc. induction fuel as [|fuel IH]; intros n acc Hn Hmax.
  { simpl in Hn. by assert (n = 0) as -> by lia. }
  rewrite Nat2Z.inj_succ, Z.pow_succ_r in Hn by lia.
  pose proof (Z.mod_pos_bound n 10). pose proof (Z.div_mod n 10).
  assert (∀ m, 0 ≤ m → m * 10 + n mod 10 = n →
    parse_uint_loop 10 maxVal (String (digit_char (n mod 10)) acc) m =
    parse_uint_loop 10 maxVal acc n) as Hstep.
  { intros m Hm Heq. simpl. rewrite digit_val_char by lia. rewrite Heq.
    destruct (Z.leb_spec 10 (n mod 10)); [lia|]. destruct (Z.ltb_spec maxVal n); [lia|done]. }
  cbn [uitoa_aux]. destruct (Z.ltb_spec n 10).
  - apply Hstep; [lia|]. rewrite Z.mod_small; lia.
  - rewrite IH by lia. apply Hstep; lia.
Qed.

Lemma uitoa_shape fuel n acc :
  0 ≤ n → fuel ≠ O ∨ str_all is_digit acc = true ∧ acc ≠ "" →
  str_all is_digit acc = true →
  ∃ c t, uitoa_aux fuel n acc = String c t ∧ is_digit c = true.
Proof.
  intros Hn Hf Hacc. pose proof (uitoa_digits fuel n acc Hn Hacc) as Hd.
  assert (uitoa_aux fuel n acc ≠ "") as Hne.
  { destruct fuel as [|fuel]; [simpl; naive_solver|]. clear Hf Hd.
    assert (∀ f n s, s ≠ "" → uitoa_aux f n s ≠ "") as Haux.
    { induction f as [|f IH]; intros m s Hs; simpl; [done|].
      destruct (m <? 10); [done|]. by apply IH. }
    simpl. destruct (n <? 10); [done|]. by apply Haux. }
  destruct (uitoa_aux fuel n acc) as [|c t]; [done|]. exists c, t. split; [done|].
  simpl in Hd. by apply andb_true_iff in Hd as [? _].
Qed.

Lemma Atoi_itoa n : 0 ≤ n < 2 ^ 63 → Atoi (itoa n) = inl n.
Proof.
  intros Hn. unfold itoa, Atoi, ParseInt. destruct (Z.ltb_spec n 0); [lia|].
  destruct (uitoa_shape 20 n "") as (c & t & He & Hc); [lia|by left|done|].
  pose proof (parse_uint_uitoa (2 ^ 64 - 1) 20 n "") as Hp.
  rewrite He in Hp |- *.
  assert (Ascii.eqb c "+" = false) as ->.
  { apply Ascii.eqb_neq. by intros ->. }
  assert (Ascii.eqb c "-" = false) as ->.
  { apply Ascii.eqb_neq. by intros ->. }
  unfold ParseUint. rewrite Hp; [|change (10 ^ Z.of_nat 20) with 100000000000000000000; lia|lia].
  simpl parse_uint_loop. cbv iota beta. change (64 - 1) with 63.
  destruct (Z.leb_spec (2 ^ 63) n); [lia|]. done.
Qed.

(** A string splits in one way at the first occurrence of a byte. *)
Lemma first_byte_unique c s1 t1 s2 t2 :
  s1 +:+ String c t1 = s2 +:+ String c t2 →
  has_byte c s1 = false → has_byte c s2 = false → s1 = s2 ∧ t1 = t2.
Proof.
  revert s2. induction s1 as [|d s1 IH]; intros [|e s2].
  - rewrite !app_str_nil_l. by intros [= ->].
  - rewrite app_str_nil_l, app_str_cons, has_byte_cons. intros [= -> _] _.
    by rewrite Ascii.eqb_refl.
  - rewrite app_str_nil_l, app_str_cons, has_byte_cons. intros [= <- _].
    by rewrite Ascii.eqb_refl.
  - rewrite !app_str_cons, !has_byte_cons, !orb_false_iff. intros [= -> H] [_ H1] [_ H2].
    destruct (IH s2 H H1 H2) as [-> ->]. done.
Qed.

Lemma LastIndex_lt s c : LastIndex s c < Z.of_nat (String.length s).
Proof. induction s as [|d s IH]; cbn [LastIndex String.length]; [lia|]. repeat case_match; lia. Qed.
