(* ===== verification/GoNet.v ===== *)
(** * Go's [net] package: addresses, networks and host:port strings

    The functions of the Go standard library on which the source's address
    decisions rest: [net.IP], [net.IPNet], [ParseIP], [ParseCIDR],
    [CIDRMask], [SplitHostPort], [JoinHostPort] and [TCPAddr.String] (go1.10 to
    go1.12, the releases the project is built with).  A nil slice and an empty one are both []. *)

From S2P Require Import Prelude GoStrings.

Abbreviation IP := (list Z).
Abbreviation IPMask := (list Z).

Definition is_byte (b : Z) : Prop := 0 ≤ b < 256.

Record IPNet := mkIPNet { net_IP : IP; net_Mask : IPMask }.

#[global] Instance IPNet_eq_dec : EqDecision IPNet.
Proof. solve_decision. Defined.

Definition IPv4len : nat := 4.
Definition IPv6len : nat := 16.

Definition v4InV6Prefix : list Z := [0;0;0;0;0;0;0;0;0;0;255;255].
Definition IPv4 (a b c d : Z) : IP := v4InV6Prefix ++ [a;b;c;d].
Definition IPv4bcast : IP := IPv4 255 255 255 255.
Definition IPv4zero : IP := IPv4 0 0 0 0.
Definition IPv6unspecified : IP := replicate 16 0.
Definition IPv6loopback : IP := replicate 15 0 ++ [1].

(** ** Methods of [net.IP] *)
Definition To4 (ip : IP) : option IP :=
  if decide (length ip = IPv4len) then Some ip
  else if decide (length ip = IPv6len ∧ take 12 ip = v4InV6Prefix) then Some (drop 12 ip)
  else None.

Definition IP_Equal (ip x : IP) : bool :=
  if decide (length ip = length x) then bool_decide (ip = x)
  else if decide (length ip = IPv4len ∧ length x = IPv6len)
  then bool_decide (take 12 x = v4InV6Prefix) && bool_decide (ip = drop 12 x)
  else if decide (length ip = IPv6len ∧ length x = IPv4len)
  then bool_decide (take 12 ip = v4InV6Prefix) && bool_decide (drop 12 ip = x)
  else false.

Definition byte_at (ip : IP) (i : nat) : Z := nth i ip 0.

Definition IsUnspecified (ip : IP) : bool :=
  IP_Equal ip IPv4zero || IP_Equal ip IPv6unspecified.

Definition IsLoopback (ip : IP) : bool :=
  match To4 ip with
  | Some ip4 => byte_at ip4 0 =? 127
  | None => IP_Equal ip IPv6loopback
  end.

Definition IsMulticast (ip : IP) : bool :=
  match To4 ip with
  | Some ip4 => Z.land (byte_at ip4 0) 0xf0 =? 0xe0
  | None => bool_decide (length ip = IPv6len) && (byte_at ip 0 =? 0xff)
  end.

Definition IsLinkLocalUnicast (ip : IP) : bool :=
  match To4 ip with
  | Some ip4 => (byte_at ip4 0 =? 169) && (byte_at ip4 1 =? 254)
  | None =>
      bool_decide (length ip = IPv6len) && (byte_at ip 0 =? 0xfe) &&
      (Z.land (byte_at ip 1) 0xc0 =? 0x80)
  end.

Definition IsGlobalUnicast (ip : IP) : bool :=
  (bool_decide (length ip = IPv4len) || bool_decide (length ip = IPv6len)) &&
  negb (IP_Equal ip IPv4bcast) &&
  negb (IsUnspecified ip) &&
  negb (IsLoopback ip) &&
  negb (IsMulticast ip) &&
  negb (IsLinkLocalUnicast ip).

(** ** Masks and networks *)
Fixpoint mask_bytes (l : nat) (n : Z) : list Z :=
  match l with
  | O => []
  | S l =>
      if 8 <=? n then 0xff :: mask_bytes l (n - 8)
      else Z.lxor 0xff (Z.shiftr 0xff n) :: mask_bytes l 0
  end.

Definition CIDRMask (ones bits : Z) : IPMask :=
  if negb (bits =? 32) && negb (bits =? 128) then []
  else if (ones <? 0) || (bits <? ones) then []
  else mask_bytes (Z.to_nat (bits / 8)) ones.

(** [ip.Mask(m)], [None] for a nil result. *)
Definition IP_Mask (ip : IP) (mask : IPMask) : option IP :=
  let mask :=
    if decide (length mask = IPv6len ∧ length ip = IPv4len ∧ take 12 mask = replicate 12 255)
    then drop 12 mask else mask in
  let ip :=
    if decide (length mask = IPv4len ∧ length ip = IPv6len ∧ take 12 ip = v4InV6Prefix)
    then drop 12 ip else ip in
  if decide (length ip = length mask) then Some (zip_with Z.land ip mask) else None.

Definition networkNumberAndMask (n : IPNet) : IP * IPMask :=
  let ip := match To4 (net_IP n) with Some ip => ip | None => net_IP n end in
  if decide (length ip ≠ IPv4len ∧ length ip ≠ IPv6len) then ([], [])
  else
    let m := net_Mask n in
    if decide (length m = IPv4len) then
      if decide (length ip = IPv4len) then (ip, m) else ([], [])
    else if decide (length m = IPv6len) then
      if decide (length ip = IPv4len) then (ip, drop 12 m) else (ip, m)
    else ([], []).

Fixpoint masked_eq (nn m ip : list Z) : bool :=
  match nn, m, ip with
  | a :: nn, k :: m, b :: ip => (Z.land a k =? Z.land b k) && masked_eq nn m ip
  | _, _, _ => true
  end.

(** [(n *IPNet) Contains(ip)] *)
Definition Contains_IP (n : IPNet) (ip : IP) : bool :=
  let '(nn, m) := networkNumberAndMask n in
  let ip := match To4 ip with Some x => x | None => ip end in
  if decide (length ip = length nn) then masked_eq nn m ip else false.

(** ** Parsing addresses *)
Fixpoint parse_octets (k : nat) (first : bool) (s : string) : option (list Z * string) :=
  match k with
  | O => Some ([], s)
  | S k =>
      let after_dot :=
        if first then Some s
        else match s with
             | String c t => if Ascii.eqb c "."%char then Some t else None
             | EmptyString => None
             end in
      match after_dot with
      | None => None
      | Some s =>
          match dtoi s with
          | Some (n, rest) =>
              if 0xFF <? n then None
              else match parse_octets k false rest with
                   | Some (ns, rest) => Some (n :: ns, rest)
                   | None => None
                   end
          | None => None
          end
      end
  end.

Definition parseIPv4 (s : string) : option IP :=
  match parse_octets 4 true s with
  | Some (p, EmptyString) => Some (v4InV6Prefix ++ p)
  | _ => None
  end.

Fixpoint parse_groups (g : nat) (acc : list Z) (ellipsis : option nat) (s : string)
    : option (list Z * option nat * string) :=
  match g with
  | O => Some (acc, ellipsis, s)
  | S g =>
      match xtoi s with
      | None => None
      | Some (n, rest) =>
          if 0xFFFF <? n then None
          else
            let next := acc ++ [Z.shiftr n 8; Z.land n 0xff] in
            match rest with
            | EmptyString => Some (next, ellipsis, EmptyString)
            | String c t =>
                if Ascii.eqb c "."%char then
                  if bool_decide (ellipsis = None) && negb (length acc =? 12)%nat then None
                  else if (16 <? length acc + 4)%nat then None
                  else match parseIPv4 s with
                       | Some ip4 => Some (acc ++ drop 12 ip4, ellipsis, EmptyString)
                       | None => None
                       end
                else if negb (Ascii.eqb c ":"%char) then None
                else match t with
                     | EmptyString => None
                     | String c2 t2 =>
                         if Ascii.eqb c2 ":"%char then
                           match ellipsis with
                           | Some _ => None
                           | None =>
                               match t2 with
                               | EmptyString => Some (next, Some (length next), EmptyString)
                               | _ => parse_groups g next (Some (length next)) t2
                               end
                           end
                         else parse_groups g next ellipsis t
                     end
            end
      end
  end.

Definition expand (acc : list Z) (ellipsis : option nat) : option IP :=
  if (length acc <? 16)%nat then
    match ellipsis with
    | None => None
    | Some e => Some (take e acc ++ replicate (16 - length acc) 0 ++ drop e acc)
    end
  else match ellipsis with Some _ => None | None => Some acc end.

Definition parseIPv6 (s : string) : option IP :=
  let '(ellipsis, s') :=
    if HasPrefix s "::" then (Some 0%nat, str_drop 2 s) else (None, s) in
  match ellipsis, s' with
  | Some _, EmptyString => Some (replicate 16 0)
  | _, _ =>
      match parse_groups 8 [] ellipsis s' with
      | Some (acc, e, EmptyString) => expand acc e
      | _ => None
      end
  end.

(** [ParseIP]: the first of ['.'] and [':'] decides the family. *)
Fixpoint ip_family (s : string) : option bool :=
  match s with
  | EmptyString => None
  | String c s =>
      if Ascii.eqb c "."%char then Some true
      else if Ascii.eqb c ":"%char then Some false
      else ip_family s
  end.

Definition ParseIP (s : string) : option IP :=
  match ip_family s with
  | Some true => parseIPv4 s
  | Some false => parseIPv6 s
  | None => None
  end.

Definition cidr_error (s : string) : error := Err ("invalid CIDR address: " +:+ s).

(** [ParseCIDR]; of its three results the source uses the network. *)
Definition ParseCIDR (s : string) : result IPNet :=
  match IndexByte s "/"%char with
  | None => Fail (cidr_error s)
  | Some i =>
      let addr := str_take i s in
      let mask := str_drop (S i) s in
      let '(iplen, ip) :=
        match parseIPv4 addr with
        | Some ip => (4, Some ip)
        | None => (16, parseIPv6 addr)
        end in
      match ip, dtoi mask with
      | Some ip, Some (n, EmptyString) =>
          if (n <? 0) || (8 * iplen <? n) then Fail (cidr_error s)
          else
            let m := CIDRMask n (8 * iplen) in
            Ok (mkIPNet (default [] (IP_Mask ip m)) m)
      | _, _ => Fail (cidr_error s)
      end
  end.

(** ** Printing addresses *)
Definition hex_digit (v : Z) : ascii :=
  if v <? 10 then digit_char v else ascii_of_N (Z.to_N (87 + v)).

(** [appendHex] of a 16-bit value: no leading zeros. *)
Definition append_hex (n : Z) : string :=
  let d k := hex_digit (Z.land (Z.shiftr n (4 * k)) 15) in
  if n <? 16 then String (d 0) ""
  else if n <? 256 then String (d 1) (String (d 0) "")
  else if n <? 4096 then String (d 2) (String (d 1) (String (d 0) ""))
  else String (d 3) (String (d 2) (String (d 1) (String (d 0) ""))).

Fixpoint join (sep : string) (l : list string) : string :=
  match l with
  | [] => EmptyString
  | [x] => x
  | x :: l => x +:+ sep +:+ join sep l
  end.

Fixpoint to_groups (ip : list Z) : list Z :=
  match ip with
  | a :: b :: ip => Z.lor (Z.shiftl a 8) b :: to_groups ip
  | _ => []
  end.

Fixpoint zero_run (g : list Z) : nat :=
  match g with
  | x :: g => if x =? 0 then S (zero_run g) else O
  | [] => O
  end.

(** Leftmost longest run of zero groups: start and length. *)
Fixpoint longest_run (g : list Z) (i : nat) (best : nat * nat) : nat * nat :=
  match g with
  | [] => best
  | _ :: t =>
      let r := zero_run g in
      longest_run t (S i) (if (snd best <? r)%nat then (i, r) else best)
  end.

Definition ipv6_string (ip : IP) : string :=
  let g := to_groups ip in
  let '(e0, len) := longest_run g 0 (0%nat, 0%nat) in
  if (len <=? 1)%nat then join ":" (append_hex <$> g)
  else join ":" (append_hex <$> take e0 g) +:+ "::" +:+
       join ":" (append_hex <$> drop (e0 + len) g).

Definition hex_byte (b : Z) : string :=
  String (hex_digit (Z.shiftr b 4)) (String (hex_digit (Z.land b 15)) "").

Definition IP_String (ip : IP) : string :=
  match ip with
  | [] => "<nil>"
  | _ =>
      match To4 ip with
      | Some p4 => join "." (itoa <$> p4)
      | None =>
          if decide (length ip = IPv6len) then ipv6_string ip
          else "?" +:+ join "" (hex_byte <$> ip)
      end
  end.

(** ** host:port *)
Definition addr_error (why addr : string) : error :=
  Err (if String.eqb addr "" then why else "address " +:+ addr +:+ ": " +:+ why).

Definition missingPort : string := "missing port in address".
Definition tooManyColons : string := "too many colons in address".

Definition SplitHostPort (hostport : string) : result (string * string) :=
  let i := LastIndex hostport ":"%char in
  if i <? 0 then Fail (addr_error missingPort hostport)
  else
    let i := Z.to_nat i in
    let port := str_drop (S i) hostport in
    let finish host j k :=
      if has_byte "["%char (str_drop j hostport)
      then Fail (addr_error "unexpected '[' in address" hostport)
      else if has_byte "]"%char (str_drop k hostport)
      then Fail (addr_error "unexpected ']' in address" hostport)
      else Ok (host, port) in
    if HasPrefix hostport "[" then
      match IndexByte hostport "]"%char with
      | None => Fail (addr_error "missing ']' in address" hostport)
      | Some e =>
          if (S e =? String.length hostport)%nat
          then Fail (addr_error missingPort hostport)
          else if (S e =? i)%nat then
            finish (str_drop 1 (str_take e hostport)) 1%nat (S e)
          else if HasPrefix (str_drop (S e) hostport) ":"
          then Fail (addr_error tooManyColons hostport)
          else Fail (addr_error missingPort hostport)
      end
    else
      let host := str_take i hostport in
      if has_byte ":"%char host then Fail (addr_error tooManyColons hostport)
      else finish host 0%nat 0%nat.

Definition JoinHostPort (host port : string) : string :=
  if has_byte ":"%char host then "[" +:+ host +:+ "]:" +:+ port
  else host +:+ ":" +:+ port.

Record IPAddr := mkIPAddr { ipa_IP : IP; ipa_Zone : string }.

Record TCPAddr := mkTCPAddr { tcp_IP : IP; tcp_Port : Z; tcp_Zone : string }.

#[global] Instance TCPAddr_eq_dec : EqDecision TCPAddr.
Proof. solve_decision. Defined.

Definition TCPAddr_String (a : TCPAddr) : string :=
  let ip := match tcp_IP a with [] => EmptyString | ip => IP_String ip end in
  if String.eqb (tcp_Zone a) "" then JoinHostPort ip (itoa (tcp_Port a))
  else JoinHostPort (ip +:+ "%" +:+ tcp_Zone a) (itoa (tcp_Port a)).

(** ** Bytes *)
#[global] Instance is_byte_dec b : Decision (is_byte b).
Proof. unfold is_byte. apply _. Defined.

(** A boolean property of bytes is checked on the 256 values. *)
Lemma byte_ind (P : Z → bool) :
  forallb P (seqZ 0 256) = true → ∀ b, is_byte b → P b = true.
Proof.
  intros H b Hb. rewrite forallb_true_iff in H. apply H.
  apply elem_of_seqZ. unfold is_byte in Hb. lia.
Qed.

Definition bytes (l : list Z) : Prop := Forall is_byte l.

(** ** Canonical form: IPv4 in 4 bytes, whichever way it was written *)
Definition canon (ip : IP) : IP := default ip (To4 ip).

Lemma To4_length ip x : To4 ip = Some x → length x = 4%nat.
Proof.
  unfold To4. case_decide as H1; [naive_solver|]. case_decide as H2; [|done].
  intros [= <-]. rewrite length_drop. destruct H2. unfold IPv6len in *. lia.
Qed.

Lemma To4_len4 ip : length ip = 4%nat → To4 ip = Some ip.
Proof. intros H. unfold To4. by rewrite decide_True. Qed.

Lemma To4_IPv4 a b c d : To4 (IPv4 a b c d) = Some [a;b;c;d].
Proof. done. Qed.

Lemma To4_canon ip : To4 (canon ip) = To4 ip.
Proof.
  unfold canon. destruct (To4 ip) as [x|] eqn:E; simpl; [|done].
  apply To4_len4. by eapply To4_length.
Qed.

Lemma canon_canon ip : canon (canon ip) = canon ip.
Proof.
  unfold canon at 1. rewrite To4_canon. unfold canon. by destruct (To4 ip).
Qed.

Lemma canon_len4 ip : length ip = 4%nat → canon ip = ip.
Proof. intros. unfold canon. by rewrite To4_len4. Qed.

Lemma length_canon_16 ip : length (canon ip) = 16%nat → canon ip = ip.
Proof.
  unfold canon. destruct (To4 ip) eqn:E; [|done]. apply To4_length in E. simpl. lia.
Qed.

(** The three shapes of an address: 4 bytes, 4 bytes in 16, anything else. *)
Lemma canon_cases ip :
  (length ip = 4%nat ∧ canon ip = ip) ∨
  (length ip = 16%nat ∧ ∃ x, length x = 4%nat ∧ ip = v4InV6Prefix ++ x ∧ canon ip = x) ∨
  (length ip ≠ 4%nat ∧ (length ip = 16%nat → take 12 ip ≠ v4InV6Prefix) ∧ canon ip = ip).
Proof.
  destruct (decide (length ip = 4%nat)) as [H4|H4]; [left; auto using canon_len4|].
  destruct (decide (length ip = 16%nat ∧ take 12 ip = v4InV6Prefix)) as [[H16 Hp]|Hn].
  - right; left. split; [done|]. exists (drop 12 ip).
    rewrite length_drop. split; [lia|]. split; [by rewrite <-Hp, take_drop|].
    unfold canon, To4. rewrite decide_False by done. by rewrite decide_True.
  - right; right. split; [done|]. split; [naive_solver|].
    unfold canon, To4. rewrite decide_False by done. by rewrite decide_False.
Qed.

Lemma IP_Equal_canon a b : IP_Equal a b = true ↔ canon a = canon b.
Proof.
  unfold IP_Equal.
  destruct (canon_cases a) as [[La Ca]|[(La & x & Lx & Ea & Ca)|(La & Na & Ca)]],
    (canon_cases b) as [[Lb Cb]|[(Lb & y & Ly & Eb & Cb)|(Lb & Nb & Cb)]];
    rewrite Ca, Cb; unfold IPv4len, IPv6len.
  all: repeat case_decide; try lia; to_prop; subst; simpl in *; try lia.
  all: try tauto.
  all: split; intros Heq; destruct_and?; try discriminate.
  all: try (pose proof (f_equal length Heq); simpl in *; lia).
  all: subst; simpl in *; simplify_eq; try done; naive_solver lia.
Qed.

(** Two addresses are the same host when their canonical forms agree. *)
Definition same_ip (a b : IP) : Prop := canon a = canon b.
Infix "≈ip" := same_ip (at level 70) : go_scope.

#[global] Instance same_ip_equivalence : Equivalence same_ip.
Proof. split; unfold same_ip; [done|intros ???; congruence|intros ?????; congruence]. Qed.

Lemma same_ip_canon ip : ip ≈ip canon ip.
Proof. unfold same_ip. by rewrite canon_canon. Qed.

Lemma same_ip_To4 a b : a ≈ip b → To4 a = To4 b.
Proof. unfold same_ip. intros H. rewrite <-(To4_canon a), H. apply To4_canon. Qed.

(** Same host, and not an IPv4 address: same bytes. *)
Lemma same_ip_v6 a b : a ≈ip b → To4 a = None → a = b.
Proof.
  intros H Ha. pose proof (same_ip_To4 _ _ H) as H4.
  unfold same_ip, canon in H. rewrite <-H4, Ha in H. done.
Qed.

#[global] Instance IP_Equal_proper : Proper (same_ip ==> same_ip ==> eq) IP_Equal.
Proof.
  intros a a' Ha b b' Hb. apply eq_true_iff_eq. rewrite !IP_Equal_canon.
  unfold same_ip in *. by rewrite Ha, Hb.
Qed.

Ltac solve_family :=
  intros a b H; pose proof (same_ip_To4 a b H) as H4;
  destruct (To4 a) eqn:Ea; rewrite <-?H4; [done|];
  by rewrite (same_ip_v6 a b H Ea).

#[global] Instance IsLoopback_proper : Proper (same_ip ==> eq) IsLoopback.
Proof. unfold IsLoopback. solve_family. Qed.
#[global] Instance IsMulticast_proper : Proper (same_ip ==> eq) IsMulticast.
Proof. unfold IsMulticast. solve_family. Qed.
#[global] Instance IsLinkLocalUnicast_proper : Proper (same_ip ==> eq) IsLinkLocalUnicast.
Proof. unfold IsLinkLocalUnicast. solve_family. Qed.
#[global] Instance IsUnspecified_proper : Proper (same_ip ==> eq) IsUnspecified.
Proof. intros a b H. unfold IsUnspecified. by rewrite H. Qed.

Lemma same_ip_len a b :
  a ≈ip b → bool_decide (length a = 4%nat) || bool_decide (length a = 16%nat) =
            bool_decide (length b = 4%nat) || bool_decide (length b = 16%nat).
Proof.
  unfold same_ip. intros H.
  destruct (canon_cases a) as [[La Ca]|[(La & x & Lx & Ea & Ca)|(La & Na & Ca)]],
    (canon_cases b) as [[Lb Cb]|[(Lb & y & Ly & Eb & Cb)|(Lb & Nb & Cb)]];
    rewrite Ca, Cb in H; subst; try done; repeat case_bool_decide; done || lia.
Qed.

#[global] Instance IsGlobalUnicast_proper : Proper (same_ip ==> eq) IsGlobalUnicast.
Proof.
  intros a b H. unfold IsGlobalUnicast, IPv4len, IPv6len.
  rewrite (same_ip_len a b H). by rewrite H.
Qed.

#[global] Instance Contains_IP_proper n : Proper (same_ip ==> eq) (Contains_IP n).
Proof.
  intros a b H. unfold Contains_IP. destruct (networkNumberAndMask n) as [nn m].
  unfold same_ip, canon, default in H. unfold id in H. by rewrite H.
Qed.

(** ** Networks: a prefix length is a division of the address value *)
Fixpoint be (l : list Z) : Z :=
  match l with [] => 0 | b :: l => b * 256 ^ Z.of_nat (length l) + be l end.

Lemma be_bound l : bytes l → 0 ≤ be l < 256 ^ Z.of_nat (length l).
Proof.
  induction 1 as [|b l Hb Hl IH]; cbn [be length]; [lia|]. unfold is_byte in Hb.
  rewrite Nat2Z.inj_succ, Z.pow_succ_r by lia. nia.
Qed.

Lemma land_mask_byte n b :
  0 ≤ n < 8 → is_byte b →
  Z.land b (Z.lxor 0xff (Z.shiftr 0xff n)) = b / 2 ^ (8 - n) * 2 ^ (8 - n).
Proof.
  intros Hn Hb. apply Z.eqb_eq.
  revert b Hb. apply byte_ind.
  assert (n ∈ seqZ 0 8) as Hs by (apply elem_of_seqZ; lia). clear Hn. revert n Hs.
  apply forallb_true_iff. vm_compute. done.
Qed.

Lemma land_ff b : is_byte b → Z.land b 0xff = b.
Proof.
  intros Hb. apply Z.eqb_eq. revert b Hb. apply byte_ind. by vm_compute.
Qed.

Lemma masked_eq_zero l nn ip : masked_eq nn (mask_bytes l 0) ip = true.
Proof.
  revert nn ip. induction l as [|l IH]; intros [|a nn] [|b ip]; try done.
  cbn [mask_bytes]. change (8 <=? 0) with false. cbn iota. cbn [masked_eq].
  change (Z.lxor 255 (Z.shiftr 255 0)) with 0. rewrite !Z.land_0_r, IH. done.
Qed.

Lemma div_split a r l k :
  0 ≤ k ≤ 8 * l → 0 ≤ r < 256 ^ l →
  (a * 256 ^ l + r) / 2 ^ k = a * 2 ^ (8 * l - k) + r / 2 ^ k ∧ 0 ≤ r / 2 ^ k < 2 ^ (8 * l - k).
Proof.
  intros Hk Hr.
  assert (256 ^ l = 2 ^ (8 * l - k) * 2 ^ k) as Hp.
  { change 256 with (2 ^ 8). rewrite <-Z.pow_mul_r, <-Z.pow_add_r by lia. f_equal. lia. }
  assert (0 < 2 ^ k) by (apply Z.pow_pos_nonneg; lia).
  rewrite Hp in *. split.
  - rewrite Z.mul_assoc, Z.div_add_l by lia. done.
  - split; [apply Z.div_pos; lia|]. apply Z.div_lt_upper_bound; lia.
Qed.

Lemma div_high a r l j :
  0 ≤ l → 0 ≤ j → 0 ≤ r < 256 ^ l → (a * 256 ^ l + r) / 2 ^ (8 * l + j) = a / 2 ^ j.
Proof.
  intros Hl Hj Hr.
  assert (256 ^ l = 2 ^ (8 * l)) as Hp by (change 256 with (2 ^ 8); by rewrite <-Z.pow_mul_r by lia).
  rewrite Hp in *. rewrite Z.pow_add_r by lia.
  assert (0 < 2 ^ (8 * l) ∧ 0 < 2 ^ j) as [] by (split; apply Z.pow_pos_nonneg; lia).
  rewrite <-Z.div_div by lia. rewrite Z.div_add_l, (Z.div_small r) by lia.
  f_equal. lia.
Qed.

(** Masked comparison byte by byte is equality of the [n] leading bits. *)
Lemma masked_eq_prefix l nn ip n :
  length nn = l → length ip = l → bytes nn → bytes ip → 0 ≤ n ≤ 8 * Z.of_nat l →
  masked_eq nn (mask_bytes l n) ip = true ↔
  be nn / 2 ^ (8 * Z.of_nat l - n) = be ip / 2 ^ (8 * Z.of_nat l - n).
Proof.
  revert nn ip n. induction l as [|l IH]; intros [|a nn] [|b ip] n Hnn Hip Bnn Bip Hn;
    cbn [length be mask_bytes] in *; simplify_eq; [done|].
  apply Forall_cons in Bnn as [Ba Bnn], Bip as [Bb Bip].
  pose proof (be_bound nn Bnn) as Rn. pose proof (be_bound ip Bip) as Ri.
  rewrite Nat2Z.inj_succ in *. rewrite Hnn in *. set (L := Z.of_nat (length ip)) in *.
  destruct (Z.leb_spec 8 n).
  - cbn [masked_eq]. rewrite !land_ff, andb_true_iff, Z.eqb_eq by done.
    rewrite IH by (done || lia). fold L.
    replace (8 * Z.succ L - n) with (8 * L - (n - 8)) by lia.
    destruct (div_split a (be nn) L (8 * L - (n - 8))) as [-> ?]; [lia..|].
    destruct (div_split b (be ip) L (8 * L - (n - 8))) as [-> ?]; [lia..|].
    split; [intros [-> ->]; done|]. intros. assert (a = b) as -> by nia. split; [done|lia].
  - cbn [masked_eq]. rewrite masked_eq_zero, andb_true_r, Z.eqb_eq.
    rewrite !land_mask_byte by (done || lia).
    replace (8 * Z.succ L - n) with (8 * L + (8 - n)) by lia.
    rewrite !div_high by lia.
    assert (0 < 2 ^ (8 - n)) by (apply Z.pow_pos_nonneg; lia).
    split; [intros ?%Z.mul_cancel_r; lia|by intros ->].
Qed.

(** ** What the parsers return *)
Lemma digits_loop_bound base s n m rest :
  0 ≤ base → 0 ≤ n < big → digits_loop base s n = Some (m, rest) → 0 ≤ m < big.
Proof.
  intros Hb. revert n. induction s as [|c s IH]; intros n Hn; simpl; [naive_solver|].
  destruct (digit_val c) as [d|] eqn:E; [|naive_solver].
  apply digit_val_nonneg in E. destruct (d <? base); [|naive_solver].
  destruct (Z.leb_spec big (n * base + d)); [done|]. apply IH. nia.
Qed.

Lemma number_bound base s m rest :
  0 ≤ base → number base s = Some (m, rest) → 0 ≤ m < big.
Proof.
  unfold number. intros. destruct (starts_digit base s); [|done].
  eapply digits_loop_bound; [done| |done]. unfold big. lia.
Qed.

Lemma parse_octets_bytes k first s p rest :
  parse_octets k first s = Some (p, rest) → length p = k ∧ bytes p.
Proof.
  revert first s p rest. induction k as [|k IH]; intros first s p rest; cbn [parse_octets].
  { intros [= <- <-]. split; [done|constructor]. }
  destruct (if first then _ else _) as [s'|]; [|done].
  destruct (dtoi s') as [[n rest']|] eqn:E; [|done].
  apply number_bound in E; [|lia].
  destruct (Z.ltb_spec 255 n); [done|].
  destruct (parse_octets k false rest') as [[ns rest'']|] eqn:E'; [|done].
  intros [= <- <-]. apply IH in E' as [Hl Hb].
  split; [simpl; lia|]. constructor; [unfold is_byte; lia|done].
Qed.

Lemma list_4 {A} (l : list A) : length l = 4%nat → ∃ a b c d, l = [a;b;c;d].
Proof. destruct l as [|a [|b [|c [|d [|]]]]]; try done. naive_solver. Qed.

Lemma parseIPv4_bytes s ip :
  parseIPv4 s = Some ip → ∃ p, ip = v4InV6Prefix ++ p ∧ length p = 4%nat ∧ bytes p.
Proof.
  unfold parseIPv4. destruct (parse_octets 4 true s) as [[p [|]]|] eqn:E; try done.
  apply parse_octets_bytes in E as [? ?]. intros [= <-]. eauto.
Qed.

Lemma bytes_v4prefix p : bytes p → bytes (v4InV6Prefix ++ p).
Proof. intros. apply Forall_app; split; [|done]. repeat constructor; done. Qed.

Lemma group_bytes n : 0 ≤ n ≤ 0xFFFF → bytes [Z.shiftr n 8; Z.land n 0xff].
Proof.
  intros Hn. change 0xff with (Z.ones 8).
  rewrite Z.shiftr_div_pow2, Z.land_ones by lia.
  pose proof (Z.mod_pos_bound n (2 ^ 8)).
  repeat constructor; unfold is_byte; try lia.
  - apply Z.div_pos; lia.
  - apply Z.div_lt_upper_bound; lia.
Qed.

Lemma parse_groups_bytes g acc e s acc' e' rest :
  parse_groups g acc e s = Some (acc', e', rest) →
  (length acc + 2 * g = 16)%nat → bytes acc →
  (∀ i, e = Some i → i ≤ length acc)%nat →
  bytes acc' ∧ (length acc' ≤ 16)%nat ∧ (∀ i, e' = Some i → i ≤ length acc')%nat.
Proof.
  revert acc e s. induction g as [|g IH]; intros acc e s; cbn [parse_groups].
  { intros [= <- <- <-] Hl Hb He. split; [done|]. split; [lia|done]. }
  destruct (xtoi s) as [[n r]|] eqn:E; [|done]. apply number_bound in E; [|lia].
  destruct (Z.ltb_spec 0xFFFF n); [done|].
  remember (acc ++ _) as next eqn:Hdef. intros Hp Hl Hb He.
  assert (length next = length acc + 2)%nat as Hnext by (rewrite Hdef, length_app; done).
  assert (bytes next) as Hbn
    by (rewrite Hdef; apply Forall_app; split; [done|apply group_bytes; lia]).
  clear Hdef.
  destruct r as [|c t]; [simplify_eq; split; [done|]; split; [lia|]; intros i Hi%He; lia|].
  destruct (Ascii.eqb c "."); [|destruct (negb (Ascii.eqb c ":")); [done|]].
  - destruct (bool_decide (e = None) && _); [done|].
    destruct (Nat.ltb_spec 16 (length acc + 4)); [done|].
    destruct (parseIPv4 s) as [ip4|] eqn:E4; [|done].
    apply parseIPv4_bytes in E4 as (p & -> & Hlp & Hbp).
    change (drop 12 (v4InV6Prefix ++ p)) with p in Hp. simplify_eq.
    rewrite length_app. split; [by apply Forall_app|]. split; [lia|].
    intros i Hi%He. lia.
  - destruct t as [|c2 t2]; [done|]. destruct (Ascii.eqb c2 ":").
    + destruct e; [done|]. destruct t2 as [|c3 t3].
      * simplify_eq. split; [done|]. split; [lia|]. intros i [= <-]. lia.
      * eapply IH; [done|lia|done|]. intros i [= <-]. lia.
    + eapply IH; [done|lia|done|]. intros i Hi%He. lia.
Qed.

Lemma expand_bytes acc e ip :
  bytes acc → (length acc ≤ 16)%nat → (∀ i, e = Some i → i ≤ length acc)%nat →
  expand acc e = Some ip → bytes ip ∧ length ip = 16%nat.
Proof.
  intros Hb Hl He. unfold expand. destruct (Nat.ltb_spec (length acc) 16).
  - destruct e as [i|]; [|done]. intros [= <-]. specialize (He i eq_refl).
    rewrite !length_app, length_take, length_replicate, length_drop. split; [|lia].
    repeat apply Forall_app_2; [by apply Forall_take| |by apply Forall_drop].
    apply Forall_replicate. unfold is_byte. lia.
  - destruct e; [done|]. intros [= <-]. split; [done|lia].
Qed.

Lemma parseIPv6_bytes s ip : parseIPv6 s = Some ip → bytes ip ∧ length ip = 16%nat.
Proof.
  unfold parseIPv6. set (p := if HasPrefix s "::" then _ else _).
  assert (∀ i, p.1 = Some i → i = 0%nat) as Hi by (unfold p; destruct (HasPrefix _ _); naive_solver).
  destruct p as [e s']. simpl in Hi.
  assert (parse_groups 8 [] e s' ≫= (λ '(acc, e, r),
            match r with EmptyString => expand acc e | _ => None end) = Some ip →
          bytes ip ∧ length ip = 16%nat) as Hg.
  { destruct (parse_groups 8 [] e s') as [[[acc e'] [|]]|] eqn:E; simpl; try done.
    apply parse_groups_bytes in E as (? & ? & ?); [by apply expand_bytes|done|constructor|].
    intros i ->%Hi. simpl. lia. }
  destruct e as [i|].
  - destruct s'; [intros [= <-]; split; [|done]; repeat constructor; done|].
    intros H. apply Hg. by destruct (parse_groups _ _ _ _) as [[[]]|].
  - intros H. apply Hg. by destruct (parse_groups _ _ _ _) as [[[]]|].
Qed.

Lemma ParseIP_bytes s ip : ParseIP s = Some ip → bytes ip ∧ length ip = 16%nat.
Proof.
  unfold ParseIP. destruct (ip_family s) as [[]|]; [|by apply parseIPv6_bytes|done].
  intros (p & -> & Hl & Hb)%parseIPv4_bytes.
  split; [by apply bytes_v4prefix|]. rewrite length_app, Hl. done.
Qed.

(** ** Printing and reading back an IPv4 address *)
Definition dotted (p : list Z) : string := join "." (itoa <$> p).

Lemma parse_octets_dotted p first rest :
  bytes p → p ≠ [] → starts_digit 10 rest = false →
  parse_octets (length p) first ((if first then "" else ".") +:+ dotted p +:+ rest) =
    Some (p, rest).
Proof.
  intros Hb Hne Hrest. unfold dotted. revert first. induction Hb as [|b p Hb0 Hb IH]; [done|].
  intros first. destruct p as [|c p].
  - cbn [fmap list_fmap join length parse_octets].
    replace (if first then _ else _) with (Some (itoa b +:+ rest)) by by destruct first.
    unfold is_byte in Hb0. rewrite dtoi_itoa by (done || unfold big; lia).
    destruct (Z.ltb_spec 255 b); [lia|done].
  - cbn [fmap list_fmap join]. remember (c :: p) as q eqn:Hq.
    cbn [length parse_octets].
    replace (if first then _ else _) with
      (Some (itoa b +:+ "." +:+ join "." (itoa <$> q) +:+ rest)).
    2:{ subst q. cbn [fmap list_fmap join]. rewrite <-!app_str_assoc. by destruct first. }
    unfold is_byte in Hb0. rewrite dtoi_itoa by (done || unfold big; lia).
    destruct (Z.ltb_spec 255 b); [lia|].
    rewrite (IH ltac:(by subst q) false). done.
Qed.

Lemma parseIPv4_dotted p :
  bytes p → length p = 4%nat → parseIPv4 (dotted p) = Some (v4InV6Prefix ++ p).
Proof.
  intros Hb Hl. unfold parseIPv4.
  pose proof (parse_octets_dotted p true "" Hb) as H.
  rewrite Hl, app_str_nil_l, app_str_nil_r in H. rewrite H; [done| |done]. by destruct p.
Qed.

(** The bytes of a dotted quad: digits and dots. *)
Lemma has_byte_dotted c p :
  bytes p → is_digit c = false → c ≠ "."%char → has_byte c (dotted p) = false.
Proof.
  intros Hb Hd Hc. unfold dotted. induction Hb as [|b p Hb0 Hb IH]; [done|].
  assert (has_byte c (itoa b) = false) as Hi.
  { apply digits_no_byte; [done|]. apply itoa_digits. unfold is_byte in Hb0. lia. }
  destruct p as [|c' p]; [done|]. cbn [fmap list_fmap join] in *.
  rewrite !has_byte_app, Hi, IH. rewrite has_byte_cons, orb_false_r, orb_false_l.
  apply orb_false_iff. split; [|done]. apply Ascii.eqb_neq. congruence.
Qed.

Lemma ip_family_dotted_app p rest :
  bytes p → (2 ≤ length p)%nat → ip_family (dotted p +:+ rest) = Some true.
Proof.
  intros Hb Hl. destruct p as [|a [|b p]]; simpl in Hl; [lia..|].
  apply Forall_cons in Hb as [Ha Hb]. unfold dotted. cbn [fmap list_fmap join].
  assert (str_all is_digit (itoa a) = true) as Hd
    by (apply itoa_digits; unfold is_byte in Ha; lia).
  rewrite <-app_str_assoc.
  revert Hd. generalize (itoa a) as s. induction s as [|c s IH]; [done|].
  cbn [str_all]. rewrite andb_true_iff. intros [Hc Hs].
  rewrite app_str_cons. cbn [ip_family].
  destruct (Ascii.eqb c ".") eqn:E1; [by apply Ascii.eqb_eq in E1 as ->|].
  destruct (Ascii.eqb c ":") eqn:E2; [by apply Ascii.eqb_eq in E2 as ->|]. by apply IH.
Qed.

Lemma ip_family_dotted p : bytes p → (2 ≤ length p)%nat → ip_family (dotted p) = Some true.
Proof. intros. rewrite <-(app_str_nil_r (dotted p)). by apply ip_family_dotted_app. Qed.

Lemma ParseIP_dotted p :
  bytes p → length p = 4%nat → ParseIP (dotted p) = Some (v4InV6Prefix ++ p).
Proof.
  intros Hb Hl. unfold ParseIP. rewrite ip_family_dotted by (done || lia).
  by apply parseIPv4_dotted.
Qed.

Lemma IP_String_v4 ip p : To4 ip = Some p → IP_String ip = dotted p.
Proof.
  intros H. unfold IP_String. destruct ip as [|a ip]; [done|]. by rewrite H.
Qed.

(** ** Networks *)
Lemma bytes_canon ip : bytes ip → bytes (canon ip).
Proof.
  intros Hb. destruct (canon_cases ip) as [[_ ->]|[(_ & x & _ & -> & ->)|(_ & _ & ->)]];
    [done| |done]. by apply Forall_app in Hb as [_ ?].
Qed.

Lemma land_byte a b : is_byte a → is_byte (Z.land a b).
Proof.
  intros Ha. rewrite <-(land_ff a Ha), <-Z.land_assoc, (Z.land_comm 255), Z.land_assoc.
  change 255 with (Z.ones 8). rewrite Z.land_ones by lia.
  pose proof (Z.mod_pos_bound (Z.land a b) (2 ^ 8)). unfold is_byte. lia.
Qed.

Lemma bytes_zip_land ip m : bytes ip → bytes (zip_with Z.land ip m).
Proof.
  intros H. revert m. induction H as [|a ip Ha Hip IH]; intros [|k m]; constructor.
  - by apply land_byte.
  - apply IH.
Qed.

Lemma length_mask_bytes l n : length (mask_bytes l n) = l.
Proof. revert n. induction l as [|l IH]; intros n; simpl; [done|]. case_match; simpl; auto. Qed.

(** What a network denotes: the number [nn] and a prefix length [k]. *)
Definition net_prefix (n : IPNet) (nn : IP) (k : Z) : Prop :=
  (length nn = 4%nat ∨ length nn = 16%nat) ∧ bytes nn ∧
  0 ≤ k ≤ 8 * Z.of_nat (length nn) ∧
  networkNumberAndMask n = (nn, mask_bytes (length nn) k).

(** [ip] agrees with [nn] on the first [k] bits. *)
Definition agree (nn : IP) (k : Z) (ip : IP) : Prop :=
  length ip = length nn ∧
  be nn / 2 ^ (8 * Z.of_nat (length nn) - k) = be ip / 2 ^ (8 * Z.of_nat (length nn) - k).

Lemma Contains_prefix n nn k ip :
  net_prefix n nn k → bytes ip → Contains_IP n ip = true ↔ agree nn k (canon ip).
Proof.
  intros (Hl & Hb & Hk & Hn) Hip. unfold Contains_IP. rewrite Hn.
  fold (canon ip). unfold agree. case_decide as Hlen; [|naive_solver].
  rewrite masked_eq_prefix; [naive_solver|done..| |done]. by apply bytes_canon.
Qed.

Lemma agree_refl nn : agree nn (8 * Z.of_nat (length nn)) nn.
Proof. done. Qed.

Lemma be_inj l1 l2 : length l1 = length l2 → bytes l1 → bytes l2 → be l1 = be l2 → l1 = l2.
Proof.
  revert l2. induction l1 as [|a l1 IH]; intros [|b l2] Hl B1 B2; try done.
  apply Forall_cons in B1 as [Ha B1], B2 as [Hb B2]. simplify_eq/=.
  pose proof (be_bound l1 B1). pose proof (be_bound l2 B2). rewrite Hl in *. intros He.
  assert (a = b) as -> by nia. f_equal. apply IH; [done..|lia].
Qed.

(** A full-length prefix is the single address. *)
Lemma agree_full nn ip :
  bytes nn → bytes ip → agree nn (8 * Z.of_nat (length nn)) ip ↔ ip = nn.
Proof.
  intros Hn Hi. unfold agree. rewrite Z.sub_diag. change (2 ^ 0) with 1. rewrite !Z.div_1_r.
  split; [intros [Hl He]; symmetry; by apply be_inj|by intros ->].
Qed.

(** The network [p/k], as [ParseCIDR] builds it. *)
Definition cidr (p : IP) (k : Z) : IPNet :=
  mkIPNet (zip_with Z.land p (mask_bytes (length p) k)) (mask_bytes (length p) k).

Lemma IP_Mask_same ip m :
  length ip = length m → IP_Mask ip m = Some (zip_with Z.land ip m).
Proof.
  intros Hl. unfold IP_Mask, IPv4len, IPv6len. cbn zeta.
  destruct (decide (length m = 16%nat ∧ _)) as [(? & ? & ?)|_]; [lia|].
  destruct (decide (length m = 4%nat ∧ _)) as [(? & ? & ?)|_]; [lia|].
  by rewrite decide_True.
Qed.

Lemma IP_Mask_v4 p m :
  length p = 4%nat → length m = 4%nat →
  IP_Mask (v4InV6Prefix ++ p) m = Some (zip_with Z.land p m).
Proof.
  intros Hp Hm. unfold IP_Mask, IPv4len, IPv6len. cbn zeta.
  destruct (decide (length m = 16%nat ∧ _)) as [(? & ? & ?)|_]; [lia|].
  rewrite (decide_True (P := length m = 4%nat ∧ _))
    by (rewrite length_app, Hp; done).
  change (drop 12 (v4InV6Prefix ++ p)) with p. by rewrite decide_True by lia.
Qed.

Lemma CIDRMask_bytes l k :
  l = 4%nat ∨ l = 16%nat → 0 ≤ k ≤ 8 * Z.of_nat l →
  CIDRMask k (8 * Z.of_nat l) = mask_bytes l k.
Proof.
  intros Hl Hk. unfold CIDRMask.
  assert ((k <? 0) || (8 * Z.of_nat l <? k) = false) as -> by finish.
  by destruct Hl as [-> | ->].
Qed.

Lemma ParseCIDR_inv s net :
  ParseCIDR s = Ok net →
  ∃ p k, (length p = 4%nat ∨ length p = 16%nat) ∧ bytes p ∧
         0 ≤ k ≤ 8 * Z.of_nat (length p) ∧ net = cidr p k.
Proof.
  unfold ParseCIDR. destruct (IndexByte s "/") as [i|]; [|done].
  destruct (parseIPv4 (str_take i s)) as [ip|] eqn:E4;
    [|destruct (parseIPv6 (str_take i s)) as [ip|] eqn:E6; [|done]];
  destruct (dtoi (str_drop (S i) s)) as [[n [|]]|] eqn:En; try done;
  destruct ((n <? 0) || _) eqn:Er; try done; to_prop; intros [= <-].
  - apply parseIPv4_bytes in E4 as (p & -> & Hl & Hb). exists p, n.
    change (8 * 4) with (8 * Z.of_nat 4) in *. rewrite CIDRMask_bytes by (auto; lia).
    rewrite Hl, IP_Mask_v4 by (done || apply length_mask_bytes).
    unfold cidr. rewrite Hl. split_and!; [by left|done|lia..|done].
  - apply parseIPv6_bytes in E6 as [Hb Hl]. exists ip, n.
    change (8 * 16) with (8 * Z.of_nat 16) in *. rewrite CIDRMask_bytes by (auto; lia).
    rewrite IP_Mask_same by (rewrite length_mask_bytes; done).
    unfold cidr. rewrite Hl. split_and!; [by right|done|lia..|done].
Qed.

(** Mask bits 80 to 95 survive only in a prefix of 96 bits or more. *)
Lemma mask16_byte11 k :
  0 ≤ k < 96 → Z.testbit (nth 11 (mask_bytes 16 k) 0) 0 = false.
Proof.
  intros Hk. apply negb_true_iff.
  assert (k ∈ seqZ 0 96) as Hs by (apply elem_of_seqZ; lia). clear Hk. revert k Hs.
  apply (forallb_true_iff (λ k, negb (Z.testbit (nth 11 (mask_bytes 16 k) 0) 0))).
  vm_compute. done.
Qed.

Lemma mask16_drop k : 96 ≤ k ≤ 128 → drop 12 (mask_bytes 16 k) = mask_bytes 4 (k - 96).
Proof.
  intros Hk. apply (bool_decide_eq_true_1 _).
  assert (k ∈ seqZ 96 33) as Hs by (apply elem_of_seqZ; lia). clear Hk. revert k Hs.
  apply (forallb_true_iff (λ k, bool_decide (drop 12 (mask_bytes 16 k) = mask_bytes 4 (k - 96)))).
  vm_compute. done.
Qed.

Lemma masked_mapped_prefix p k :
  length p = 16%nat → 0 ≤ k ≤ 128 →
  take 12 (zip_with Z.land p (mask_bytes 16 k)) = v4InV6Prefix → 96 ≤ k.
Proof.
  intros Hl Hk Ht. destruct (Z.le_gt_cases 96 k) as [|Hlt]; [done|exfalso].
  pose proof (mask16_byte11 k ltac:(lia)) as Hbit.
  pose proof (length_mask_bytes 16 k) as Hm. revert Ht Hbit Hm.
  generalize (mask_bytes 16 k) as m. intros m Ht Hbit Hm.
  do 12 (destruct p as [|? p]; [done|]). do 12 (destruct m as [|? m]; [done|]).
  apply (f_equal (λ l, Z.testbit (nth 11 l 0) 0)) in Ht.
  cbn [zip_with take nth] in Ht, Hbit.
  rewrite Z.land_spec, Hbit, andb_false_r in Ht. done.
Qed.

(** Every network that [ParseCIDR] builds denotes a prefix. *)
Lemma cidr_prefix p k :
  (length p = 4%nat ∨ length p = 16%nat) → bytes p → 0 ≤ k ≤ 8 * Z.of_nat (length p) →
  ∃ nn k', net_prefix (cidr p k) nn k'.
Proof.
  intros Hl Hb Hk.
  pose proof (bytes_zip_land p (mask_bytes (length p) k) Hb) as Hz.
  assert (length (zip_with Z.land p (mask_bytes (length p) k)) = length p) as Hlz
    by (rewrite length_zip_with, length_mask_bytes; lia).
  unfold net_prefix, networkNumberAndMask, cidr, IPv4len, IPv6len; cbn [net_IP net_Mask].
  destruct Hl as [Hl|Hl]; rewrite Hl in *.
  - exists (zip_with Z.land p (mask_bytes 4 k)), k.
    rewrite To4_len4 by done. rewrite decide_False by lia.
    rewrite length_mask_bytes. rewrite !decide_True by lia. rewrite Hlz. eauto.
  - change (match To4 ?x with Some ip => ip | None => ?x end) with (canon x).
    destruct (canon_cases (zip_with Z.land p (mask_bytes 16 k)))
      as [[? _]|[(_ & x & Lx & Ex & ->)|(_ & _ & ->)]]; [lia| |].
    + assert (96 ≤ k) by (apply (masked_mapped_prefix p); [done|lia|by rewrite Ex]).
      exists x, (k - 96). rewrite decide_False by lia.
      rewrite length_mask_bytes. rewrite decide_False, !decide_True by lia.
      rewrite mask16_drop by lia. rewrite Lx. split_and!; [auto| |lia..|done].
      rewrite Ex in Hz. by apply Forall_app in Hz as [_ ?].
    + exists (zip_with Z.land p (mask_bytes 16 k)), k.
      rewrite decide_False by lia. rewrite length_mask_bytes.
      rewrite decide_False, decide_True, decide_False by lia. rewrite Hlz.
      split_and!; [auto|done|lia..|done].
Qed.

(** Masking the network number again changes nothing. *)
Lemma masked_eq_masked nn m ip :
  masked_eq (zip_with Z.land nn m) m ip = masked_eq nn m ip.
Proof.
  revert m ip. induction nn as [|a nn IH]; intros [|k m] [|b ip]; try done.
  cbn [zip_with masked_eq]. by rewrite IH, <-Z.land_assoc, Z.land_diag.
Qed.

(** Membership in an IPv4 network, from the address as written. *)
Lemma Contains_cidr4 p k ip :
  length p = 4%nat → bytes p → 0 ≤ k ≤ 32 → bytes ip →
  Contains_IP (cidr p k) ip = true ↔ agree p k (canon ip).
Proof.
  intros Hl Hb Hk Hip. unfold Contains_IP, networkNumberAndMask, cidr, IPv4len; cbn [net_IP net_Mask].
  assert (length (zip_with Z.land p (mask_bytes (length p) k)) = 4%nat) as Hlz
    by (rewrite length_zip_with, length_mask_bytes; lia).
  rewrite To4_len4 by done. rewrite decide_False by lia.
  rewrite length_mask_bytes, !decide_True by lia. rewrite Hlz.
  fold (canon ip). unfold agree. rewrite Hl. case_decide as Hlen; [|naive_solver].
  rewrite masked_eq_masked, masked_eq_prefix; [naive_solver|done..| |simpl; lia].
  by apply bytes_canon.
Qed.

(** The network written [a.b.c.d/k]. *)
Lemma ParseCIDR_print p k :
  length p = 4%nat → bytes p → 0 ≤ k ≤ 32 →
  ParseCIDR (dotted p +:+ "/" +:+ itoa k) = Ok (cidr p k).
Proof.
  intros Hl Hb Hk. unfold ParseCIDR.
  change ("/" +:+ itoa k) with (String "/" (itoa k)).
  rewrite IndexByte_app by (by apply has_byte_dotted).
  rewrite str_take_app, parseIPv4_dotted by done.
  assert (str_drop (S (String.length (dotted p))) (dotted p +:+ String "/" (itoa k)) = itoa k) as ->.
  { generalize (dotted p) as s. induction s as [|c s IH]; [done|]. apply IH. }
  rewrite <-(app_str_nil_r (itoa k)), dtoi_itoa by (done || unfold big; lia).
  assert ((k <? 0) || (8 * 4 <? k) = false) as -> by finish.
  change (8 * 4) with (8 * Z.of_nat 4) in *. rewrite CIDRMask_bytes by (auto; lia).
  rewrite IP_Mask_v4 by (done || apply length_mask_bytes).
  unfold cidr. by rewrite Hl.
Qed.

(** ** Joining and splitting host:port *)
Lemma HasPrefix_no_byte c s t :
  has_byte c s = false → (∀ t', t ≠ String c t') → HasPrefix (s +:+ t) (String c "") = false.
Proof.
  intros Hs Ht. apply not_true_iff_false. rewrite HasPrefix_spec. intros [u Hu].
  rewrite app_str_cons, app_str_nil_l in Hu. destruct s as [|d s].
  - rewrite app_str_nil_l in Hu. by eapply Ht.
  - rewrite app_str_cons in Hu. simplify_eq. rewrite has_byte_cons, Ascii.eqb_refl in Hs. done.
Qed.

Lemma Z_to_nat_ltb (n : nat) : (Z.of_nat n <? 0) = false.
Proof. apply Z.ltb_ge. lia. Qed.

Lemma str_drop_S_app s c t : str_drop (S (String.length s)) (s +:+ String c t) = t.
Proof. induction s as [|d s IH]; [done|]. apply IH. Qed.

Lemma SplitHostPort_JoinHostPort host port :
  has_byte "["%char host = false → has_byte "]"%char host = false →
  has_byte ":"%char port = false → has_byte "["%char port = false →
  has_byte "]"%char port = false →
  SplitHostPort (JoinHostPort host port) = Ok (host, port).
Proof.
  intros Ho Hc Pc Po Pcl. unfold JoinHostPort, SplitHostPort.
  destruct (has_byte ":" host) eqn:Hcol.
  - set (pre := "[" +:+ host +:+ "]").
    replace ("[" +:+ host +:+ "]:" +:+ port) with (pre +:+ String ":" port)
      by (unfold pre; by rewrite <-!app_str_assoc).
    rewrite LastIndex_app, Z_to_nat_ltb, Nat2Z.id by done.
    assert (HasPrefix (pre +:+ String ":" port) "[" = true) as ->
      by (apply HasPrefix_spec; unfold pre; rewrite <-!app_str_assoc; by eexists).
    assert (pre +:+ String ":" port =
            ("[" +:+ host) +:+ String "]" (String ":" port)) as Hs
      by (unfold pre; by rewrite <-!app_str_assoc).
    assert (S (String.length ("[" +:+ host)) = String.length pre) as He
      by (unfold pre; rewrite !length_app_str; simpl; lia).
    rewrite Hs. rewrite IndexByte_app by (by rewrite has_byte_app, Hc).
    rewrite He, <-Hs, str_drop_S_app. rewrite length_app_str.
    destruct (Nat.eqb_spec (String.length pre) (String.length pre + String.length (String ":" port)));
      [simpl in *; lia|].
    rewrite Nat.eqb_refl, str_drop_app.
    rewrite Hs, str_take_app. change ("[" +:+ host) with (String "[" host).
    rewrite app_str_cons. cbn [str_drop].
    rewrite !has_byte_app, !has_byte_cons, Ho, Po, Pcl. done.
  - change (host +:+ ":" +:+ port) with (host +:+ String ":" port).
    rewrite LastIndex_app, Z_to_nat_ltb, Nat2Z.id by done.
    rewrite HasPrefix_no_byte by done.
    rewrite str_drop_S_app, str_take_app, Hcol.
    cbn [str_drop]. rewrite !has_byte_app, !has_byte_cons, Ho, Hc, Po, Pcl. done.
Qed.

(** The string that is dialled for an IPv4 address carries its bytes and its
    port. *)
Lemma TCPAddr_String_v4 a p :
  To4 (tcp_IP a) = Some p → tcp_Zone a = "" →
  TCPAddr_String a = JoinHostPort (dotted p) (itoa (tcp_Port a)).
Proof.
  intros H Hz. unfold TCPAddr_String. rewrite Hz. cbn [String.eqb].
  rewrite <-(IP_String_v4 _ _ H). by destruct (tcp_IP a).
Qed.
