(* ===== verification/GoIPv6.v ===== *)
(** * Printing and reading back an IPv6 address

    [IP.String] compresses the leftmost longest run of zero groups to [::] and
    prints the other groups in hexadecimal without leading zeros; [ParseIP]
    reads that form back.  The round trip below covers every 16-byte address
    that is not an IPv4 address. *)

From S2P Require Import Prelude GoStrings GoNet.

(** ** Hexadecimal groups *)
Definition is_group (n : Z) : Prop := 0 ≤ n < 65536.

Lemma digit_val_hex v : 0 ≤ v < 16 → digit_val (hex_digit v) = Some v.
Proof.
  intros Hv.
  assert (forallb (λ v, bool_decide (digit_val (hex_digit v) = Some v)) (seqZ 0 16) = true) as H
    by (vm_compute; reflexivity).
  rewrite forallb_true_iff in H. specialize (H v).
  rewrite bool_decide_eq_true in H. apply H. apply elem_of_seqZ. lia.
Qed.

Lemma digits_loop_hex v t n :
  0 ≤ v < 16 → n * 16 + v < big →
  digits_loop 16 (String (hex_digit v) t) n = digits_loop 16 t (n * 16 + v).
Proof.
  intros Hv Hn. cbn [digits_loop]. rewrite digit_val_hex by done.
  destruct (Z.ltb_spec v 16); [|lia]. by destruct (Z.leb_spec big (n * 16 + v)); [lia|].
Qed.

Lemma nibble n k : 0 ≤ k → Z.land (Z.shiftr n (4 * k)) 15 = n / 16 ^ k mod 16.
Proof.
  intros Hk. change 15 with (Z.ones 4). rewrite Z.land_ones, Z.shiftr_div_pow2 by lia.
  by rewrite Z.pow_mul_r by lia.
Qed.

(** [xtoi] reads back what [appendHex] printed, up to what follows. *)
Lemma xtoi_append_hex n rest :
  is_group n → starts_digit 16 rest = false → xtoi (append_hex n +:+ rest) = Some (n, rest).
Proof.
  unfold is_group. intros Hn Hrest. unfold xtoi, number, append_hex.
  assert (∀ k, 0 ≤ k → 0 ≤ n / 16 ^ k mod 16 < 16) as Hd by (intros; apply Z.mod_pos_bound; lia).
  pose proof (Hd 0 ltac:(lia)). pose proof (Hd 1 ltac:(lia)).
  pose proof (Hd 2 ltac:(lia)). pose proof (Hd 3 ltac:(lia)).
  rewrite !nibble by lia.
  assert (n / 16 ^ 0 = n) as E0 by (change (16 ^ 0) with 1; apply Z.div_1_r).
  change (16 ^ 1) with 16 in *. change (16 ^ 2) with 256 in *. change (16 ^ 3) with 4096 in *.
  rewrite E0 in *.
  assert (∀ v t, 0 ≤ v < 16 → starts_digit 16 (String (hex_digit v) t) = true) as Hst.
  { intros v t Hv. simpl. rewrite digit_val_hex by done. apply Z.ltb_lt. lia. }
  assert (0 ≤ n mod 16 < 16 ∧ 0 ≤ n / 16 mod 16 < 16 ∧ 0 ≤ n / 256 mod 16 < 16 ∧
          0 ≤ n / 4096 mod 16 < 16) as (B0 & B1 & B2 & B3) by done.
  repeat match goal with |- context [if n <? ?b then _ else _] => destruct (Z.ltb_spec n b) end;
    rewrite !app_str_cons, app_str_nil_l, Hst by done;
    rewrite !digits_loop_hex by (done || unfold big; lia);
    rewrite digits_loop_stop by done; f_equal; f_equal;
    Z.to_euclidean_division_equations; lia.
Qed.

(** What follows a number is nothing or a colon. *)
Lemma append_hex_cons n : ∃ v t, append_hex n = String (hex_digit v) t ∧ 0 ≤ v < 16.
Proof.
  assert (∀ m, 0 ≤ Z.land m 15 < 16) as Hd
    by (intros m; change 15 with (Z.ones 4); rewrite Z.land_ones by lia; apply Z.mod_pos_bound; lia).
  unfold append_hex. repeat case_match; eexists _, _; (split; [reflexivity|apply Hd]).
Qed.

Lemma hex_not v c :
  0 ≤ v < 16 → c ∈ [":"%char; "."%char; "["%char; "]"%char; "/"%char] →
  Ascii.eqb (hex_digit v) c = false.
Proof.
  intros Hv Hc.
  assert (forallb (λ v, forallb (λ c, negb (Ascii.eqb (hex_digit v) c))
    [":"%char; "."%char; "["%char; "]"%char; "/"%char]) (seqZ 0 16) = true) as H by (vm_compute; reflexivity).
  rewrite forallb_true_iff in H. specialize (H v ltac:(apply elem_of_seqZ; lia)).
  rewrite forallb_true_iff in H. by apply negb_true_iff, H.
Qed.

Lemma has_byte_append_hex n c :
  c ∈ [":"%char; "."%char; "["%char; "]"%char; "/"%char] →
  has_byte c (append_hex n) = false.
Proof.
  intros Hc.
  assert (∀ m, 0 ≤ Z.land m 15 < 16) as Hd
    by (intros m; change 15 with (Z.ones 4); rewrite Z.land_ones by lia; apply Z.mod_pos_bound; lia).
  unfold append_hex. repeat case_match; rewrite ?has_byte_cons, ?hex_not by (done || apply Hd); done.
Qed.

(** ** Joined groups *)
Definition hexes (g : list Z) : string := join ":" (append_hex <$> g).

Lemma hexes_cons n m g : hexes (n :: m :: g) = append_hex n +:+ String ":" (hexes (m :: g)).
Proof. done. Qed.

Lemma hexes_single n : hexes [n] = append_hex n.
Proof. done. Qed.

Lemma hexes_head n g : ∃ v t, hexes (n :: g) = String (hex_digit v) t ∧ 0 ≤ v < 16.
Proof.
  destruct (append_hex_cons n) as (v & t & Hn & Hv). destruct g as [|m g].
  - rewrite hexes_single. eauto.
  - rewrite hexes_cons, Hn, app_str_cons. eauto.
Qed.

Lemma has_byte_hexes c g :
  c ∈ ["."%char; "["%char; "]"%char; "/"%char] → has_byte c (hexes g) = false.
Proof.
  intros Hc. assert (c ∈ [":"%char; "."%char; "["%char; "]"%char; "/"%char]) as Hc' by by right.
  induction g as [|n [|m g] IH]; [done|by apply has_byte_append_hex|].
  rewrite hexes_cons, has_byte_app, has_byte_cons, IH, has_byte_append_hex by done.
  rewrite orb_false_r, orb_false_l. apply Ascii.eqb_neq. intros <-. set_solver.
Qed.

(** The bytes of a list of groups. *)
Fixpoint ungroup (g : list Z) : list Z :=
  match g with
  | [] => []
  | n :: g => Z.shiftr n 8 :: Z.land n 0xff :: ungroup g
  end.

Lemma ungroup_app g1 g2 : ungroup (g1 ++ g2) = ungroup g1 ++ ungroup g2.
Proof. induction g1 as [|n g IH]; [done|]. simpl. by rewrite IH. Qed.

Lemma length_ungroup g : length (ungroup g) = (2 * length g)%nat.
Proof. induction g as [|n g IH]; [done|]. simpl. lia. Qed.

Lemma ungroup_zeros k : ungroup (replicate k 0) = replicate (2 * k) 0.
Proof.
  induction k as [|k IH]; [done|]. replace (2 * S k)%nat with (S (S (2 * k))) by lia.
  simpl in *. by rewrite IH.
Qed.

Lemma group_split a b :
  is_byte a → is_byte b →
  let n := Z.lor (Z.shiftl a 8) b in is_group n ∧ Z.shiftr n 8 = a ∧ Z.land n 0xff = b.
Proof.
  intros Ha Hb n.
  assert (n = a * 256 + b) as ->.
  { unfold n, is_byte in *. rewrite Z.shiftl_mul_pow2 by lia. change (2 ^ 8) with 256.
    rewrite <-Z.add_lor_land.
    assert (Z.land (a * 256) b = 0) as ->; [|lia].
    apply Z.bits_inj'. intros k Hk. rewrite Z.land_spec, Z.bits_0.
    destruct (Z.lt_ge_cases k 8).
    - change 256 with (2 ^ 8). by rewrite Z.mul_pow2_bits_low.
    - rewrite (Z.bits_above_log2 b), andb_false_r; [done|lia|].
      destruct (Z.eq_dec b 0) as [->|]; [simpl; lia|].
      assert (Z.log2 b < 8) by (apply Z.log2_lt_pow2; lia). lia. }
  unfold is_group, is_byte in *. change 0xff with (Z.ones 8).
  rewrite Z.land_ones, Z.shiftr_div_pow2 by lia. change (2 ^ 8) with 256.
  rewrite Z.div_add_l, Z.div_small, Z.add_comm, Z.mod_add, Z.mod_small by lia. lia.
Qed.

Lemma ungroup_to_groups l k :
  length l = (2 * k)%nat → bytes l → ungroup (to_groups l) = l ∧ Forall is_group (to_groups l) ∧
  length (to_groups l) = k.
Proof.
  revert l. induction k as [|k IH]; intros l Hl Hb; [by destruct l|].
  destruct l as [|a [|b l]]; simpl in Hl; [lia..|].
  apply Forall_cons in Hb as [Ha Hb]. apply Forall_cons in Hb as [Hb0 Hb].
  destruct (IH l ltac:(lia) Hb) as (H1 & H2 & H3).
  destruct (group_split a b Ha Hb0) as (Hg & Hs & Hd).
  split_and!; [|by constructor|simpl; lia]. cbn [to_groups ungroup]. by rewrite Hs, Hd, H1.
Qed.

(** ** Reading groups *)
Lemma parse_groups_end gs g acc e :
  gs ≠ [] → (length gs ≤ g)%nat → Forall is_group gs →
  parse_groups g acc e (hexes gs) = Some (acc ++ ungroup gs, e, "").
Proof.
  intros Hne Hl Hg. revert g acc Hne Hl. induction Hg as [|n gs Hn Hg IH]; [done|].
  intros [|g] acc _ Hl; simpl in Hl; [lia|]. cbn [parse_groups].
  destruct gs as [|m gs].
  - rewrite hexes_single, <-(app_str_nil_r (append_hex n)), xtoi_append_hex by done.
    destruct (Z.ltb_spec 0xFFFF n); [unfold is_group in *; lia|done].
  - rewrite hexes_cons, xtoi_append_hex by done.
    destruct (Z.ltb_spec 0xFFFF n); [unfold is_group in *; lia|].
    destruct (hexes_head m gs) as (v & t & Hh & Hv).
    assert (IHs := IH g (acc ++ [Z.shiftr n 8; Z.land n 0xff]) ltac:(done) ltac:(simpl in *; lia)).
    rewrite Hh in *. simpl Ascii.eqb. cbn [negb]. rewrite hex_not by (done || set_solver).
    rewrite IHs, <-app_assoc. done.
Qed.

Lemma parse_groups_ellipsis gs gs2 g acc :
  gs ≠ [] → (length gs + length gs2 ≤ g)%nat → Forall is_group gs → Forall is_group gs2 →
  parse_groups g acc None (hexes gs +:+ "::" +:+ hexes gs2) =
  Some (acc ++ ungroup gs ++ ungroup gs2, Some (length (acc ++ ungroup gs)), "").
Proof.
  intros Hne Hl Hg Hg2. revert g acc Hne Hl. induction Hg as [|n gs Hn Hg IH]; [done|].
  intros [|g] acc _ Hl; simpl in Hl; [lia|]. cbn [parse_groups].
  assert ((0xFFFF <? n) = false) as Hlt by (unfold is_group in *; apply Z.ltb_ge; lia).
  destruct gs as [|m gs].
  - rewrite hexes_single, xtoi_append_hex, Hlt by done.
    rewrite !app_str_cons, app_str_nil_l. simpl Ascii.eqb. cbn [negb].
    set (next := acc ++ _). destruct gs2 as [|m2 gs2].
    + done.
    + assert (IHs := parse_groups_end (m2 :: gs2) g next (Some (length next)) ltac:(done)
        ltac:(simpl in *; lia) Hg2).
      destruct (hexes_head m2 gs2) as (v & t & Hh & _). rewrite Hh in *.
      rewrite IHs. unfold next. by rewrite <-app_assoc.
  - rewrite hexes_cons, <-app_str_assoc, app_str_cons, xtoi_append_hex, Hlt by done.
    assert (IHs := IH g (acc ++ [Z.shiftr n 8; Z.land n 0xff]) ltac:(done) ltac:(simpl in *; lia)).
    destruct (hexes_head m gs) as (v & t & Hh & Hv). rewrite Hh, app_str_cons in *.
    simpl Ascii.eqb. cbn [negb]. rewrite hex_not by (done || set_solver). rewrite IHs, <-!app_assoc. done.
Qed.

(** ** The longest run of zero groups *)
Lemma zero_run_spec g : take (zero_run g) g = replicate (zero_run g) 0 ∧ (zero_run g ≤ length g)%nat.
Proof.
  induction g as [|x g [IH Hl]]; [done|]. simpl. destruct (Z.eqb_spec x 0) as [->|]; simpl; [|split; [done|lia]].
  split; [by f_equal|lia].
Qed.

Lemma longest_run_spec g i best e len :
  longest_run g i best = (e, len) →
  (e, len) = best ∨ ∃ j, (j < length g)%nat ∧ e = (i + j)%nat ∧ len = zero_run (drop j g).
Proof.
  revert i best. induction g as [|x g IH]; intros i best; [by left|].
  cbn [longest_run]. intros [Hb|(j & Hj & -> & ->)]%IH.
  - destruct (snd best <? zero_run (x :: g))%nat; [|by left].
    right. exists 0%nat. injection Hb as -> ->. simpl. split; [lia|]. by rewrite Nat.add_0_r.
  - right. exists (S j). simpl. split; [lia|]. split; [lia|done].
Qed.

Lemma longest_run_split g e len :
  longest_run g 0 (0%nat, 0%nat) = (e, len) →
  g = take e g ++ replicate len 0 ++ drop (e + len) g ∧ (e + len ≤ length g)%nat.
Proof.
  intros [Hb|(j & Hj & -> & ->)]%longest_run_spec.
  - injection Hb as -> ->. simpl. split; [done|lia].
  - simpl. destruct (zero_run_spec (drop j g)) as [Hz Hl]. rewrite length_drop in Hl.
    split; [|lia]. rewrite <-Hz, <-drop_drop, take_drop. by rewrite take_drop.
Qed.

(** ** The round trip *)
Lemma ip_family_v6 s :
  has_byte "."%char s = false → has_byte ":"%char s = true → ip_family s = Some false.
Proof.
  induction s as [|c s IH]; [done|]. rewrite !has_byte_cons. cbn [ip_family].
  destruct (Ascii.eqb c "."); [done|]. destruct (Ascii.eqb c ":"); [done|]. apply IH.
Qed.

Lemma HasPrefix_hexes n g t : HasPrefix (hexes (n :: g) +:+ t) "::" = false.
Proof.
  apply not_true_iff_false. rewrite HasPrefix_spec. intros [u Hu].
  destruct (hexes_head n g) as (v & t' & Hh & Hv). rewrite Hh, !app_str_cons in Hu.
  injection Hu as Hc _. pose proof (hex_not v ":" Hv ltac:(set_solver)) as Hn.
  by rewrite Hc, Ascii.eqb_refl in Hn.
Qed.

(** An address whose groups split around a run of zeros is read back from its
    two halves. *)
Lemma parseIPv6_split g1 g2 len :
  (length g1 + len + length g2 = 8)%nat → (1 < len)%nat →
  Forall is_group g1 → Forall is_group g2 →
  parseIPv6 (hexes g1 +:+ "::" +:+ hexes g2) =
  Some (ungroup g1 ++ replicate (2 * len) 0 ++ ungroup g2).
Proof.
  intros Hl Hlen Hg1 Hg2. unfold parseIPv6.
  destruct g1 as [|n g1].
  - change (hexes [] +:+ "::" +:+ hexes g2) with ("::" +:+ hexes g2).
    assert (HasPrefix ("::" +:+ hexes g2) "::" = true) as ->
      by (apply HasPrefix_spec; by eexists).
    change (str_drop 2 ("::" +:+ hexes g2)) with (hexes g2).
    destruct g2 as [|m g2].
    + simpl in Hl. assert (len = 8%nat) as -> by lia. done.
    + assert (Hp := parse_groups_end (m :: g2) 8 [] (Some 0%nat) ltac:(done)
        ltac:(simpl in *; lia) Hg2).
      destruct (hexes_head m g2) as (v & t & Hh & _). rewrite Hh in *. rewrite Hp.
      unfold expand. rewrite app_nil_l, length_ungroup.
      destruct (Nat.ltb_spec (2 * length (m :: g2)) 16); [|simpl in *; lia].
      simpl length in Hl. cbn [take drop]. rewrite app_nil_l.
      by replace (16 - 2 * length (m :: g2))%nat with (2 * len)%nat by (simpl; lia).
  - rewrite HasPrefix_hexes, parse_groups_ellipsis; [|done|simpl in *; lia|done|done].
    rewrite app_nil_l. unfold expand. rewrite length_app, !length_ungroup.
    destruct (Nat.ltb_spec (2 * length (n :: g1) + 2 * length g2) 16); [|simpl in *; lia].
    rewrite take_app_length', drop_app_length' by done.
    by replace (16 - (2 * length (n :: g1) + 2 * length g2))%nat with (2 * len)%nat
      by (simpl in *; lia).
Qed.

Lemma parseIPv6_whole g :
  length g = 8%nat → Forall is_group g → parseIPv6 (hexes g) = Some (ungroup g).
Proof.
  intros Hl Hg. unfold parseIPv6. destruct g as [|n g]; [done|].
  rewrite <-(app_str_nil_r (hexes (n :: g))), HasPrefix_hexes, app_str_nil_r.
  rewrite parse_groups_end by (done || lia). unfold expand.
  rewrite app_nil_l, length_ungroup, Hl. done.
Qed.

Lemma parseIPv6_string ip :
  bytes ip → length ip = 16%nat → parseIPv6 (ipv6_string ip) = Some ip.
Proof.
  intros Hb Hl. destruct (ungroup_to_groups ip 8 Hl Hb) as (Hu & Hg & H8).
  unfold ipv6_string. destruct (longest_run (to_groups ip) 0 (0%nat, 0%nat)) as [e len] eqn:Hr.
  apply longest_run_split in Hr as [Hs He].
  destruct (Nat.leb_spec len 1).
  - fold (hexes (to_groups ip)). by rewrite parseIPv6_whole, Hu.
  - fold (hexes (take e (to_groups ip))) (hexes (drop (e + len) (to_groups ip))).
    rewrite (parseIPv6_split _ _ len);
      [|rewrite length_take, length_drop; lia|done|by apply Forall_take|by apply Forall_drop].
    rewrite <-ungroup_zeros, <-!ungroup_app, <-Hs, Hu. done.
Qed.

Lemma has_byte_ipv6_string c ip :
  c ∈ ["."%char; "["%char; "]"%char; "/"%char] → has_byte c (ipv6_string ip) = false.
Proof.
  intros Hc. assert (Hh := λ g, has_byte_hexes c g Hc). unfold hexes in Hh.
  unfold ipv6_string. destruct (longest_run _ _ _) as [e len]. destruct (len <=? 1)%nat; [done|].
  rewrite !has_byte_app, !Hh. rewrite orb_false_r, orb_false_l.
  rewrite !has_byte_cons. destruct (Ascii.eqb_spec ":" c) as [<-|]; [set_solver|done].
Qed.

Lemma ipv6_string_colon ip : length ip = 16%nat → has_byte ":" (ipv6_string ip) = true.
Proof.
  intros Hl. unfold ipv6_string. destruct (longest_run _ _ _) as [e len]. destruct (len <=? 1)%nat.
  - do 4 (destruct ip as [|? ip]; [done|]). cbn [to_groups].
    match goal with |- has_byte _ (join _ (_ <$> ?g)) = _ => fold (hexes g) end.
    rewrite hexes_cons, has_byte_app, has_byte_cons. by rewrite orb_true_r.
  - rewrite !has_byte_app. change (has_byte ":" "::") with true. by rewrite orb_true_r.
Qed.

Lemma IP_String_v6 ip : length ip = 16%nat → To4 ip = None → IP_String ip = ipv6_string ip.
Proof.
  intros Hl H4. unfold IP_String. rewrite H4. destruct ip as [|b ip]; [done|].
  by rewrite decide_True.
Qed.

(** Every 16-byte address that is not an IPv4 address is read back. *)
Lemma ParseIP_String_v6 ip :
  bytes ip → length ip = 16%nat → To4 ip = None → ParseIP (IP_String ip) = Some ip.
Proof.
  intros Hb Hl H4. rewrite IP_String_v6 by done. unfold ParseIP.
  rewrite ip_family_v6; [by apply parseIPv6_string|by apply has_byte_ipv6_string; set_solver|].
  by apply ipv6_string_colon.
Qed.

(** Every address of 4 or 16 bytes is read back as an equal one. *)
Lemma ParseIP_String ip :
  bytes ip → length ip = 4%nat ∨ length ip = 16%nat →
  ∃ ip', ParseIP (IP_String ip) = Some ip' ∧ ip' ≈ip ip.
Proof.
  intros Hb Hl. destruct (To4 ip) as [p|] eqn:H4.
  - exists (v4InV6Prefix ++ p). pose proof (To4_length _ _ H4) as Hp.
    assert (bytes p) as Hbp by (pose proof (bytes_canon ip Hb) as Hc; unfold canon in Hc; by rewrite H4 in Hc).
    rewrite (IP_String_v4 _ _ H4), ParseIP_dotted by done. split; [done|].
    unfold same_ip, canon. rewrite H4. unfold To4. simpl. by rewrite Hp.
  - exists ip. split; [|done]. destruct Hl as [Hl|Hl]; [by rewrite To4_len4 in H4|].
    by apply ParseIP_String_v6.
Qed.

Lemma has_byte_IP_String c ip :
  bytes ip → length ip = 4%nat ∨ length ip = 16%nat →
  c = "["%char ∨ c = "]"%char → has_byte c (IP_String ip) = false.
Proof.
  intros Hb Hl Hc. destruct (To4 ip) as [p|] eqn:H4.
  - rewrite (IP_String_v4 _ _ H4). apply has_byte_dotted.
    + pose proof (bytes_canon ip Hb) as Hcn. unfold canon in Hcn. by rewrite H4 in Hcn.
    + by destruct Hc as [->| ->].
    + by destruct Hc as [->| ->].
  - destruct Hl as [Hl|Hl]; [by rewrite To4_len4 in H4|].
    rewrite IP_String_v6 by done. apply has_byte_ipv6_string. set_solver.
Qed.

(** ** An address with a port is not an address *)
Lemma ParseIP_with_port ip port :
  bytes ip → length ip = 4%nat ∨ length ip = 16%nat →
  ParseIP (JoinHostPort (IP_String ip) port) = None.
Proof.
  intros Hb Hl. unfold JoinHostPort. destruct (To4 ip) as [p|] eqn:H4.
  - pose proof (To4_length _ _ H4) as Hp.
    assert (bytes p) as Hbp by (pose proof (bytes_canon ip Hb) as Hc; unfold canon in Hc; by rewrite H4 in Hc).
    rewrite (IP_String_v4 _ _ H4), has_byte_dotted by done.
    unfold ParseIP. rewrite ip_family_dotted_app by (done || lia). unfold parseIPv4.
    pose proof (parse_octets_dotted p true (":" +:+ port) Hbp) as Ho.
    rewrite Hp, app_str_nil_l in Ho. rewrite Ho; [done|by destruct p|done].
  - destruct Hl as [Hl|Hl]; [by rewrite To4_len4 in H4|].
    rewrite IP_String_v6 by done.
    rewrite ipv6_string_colon by done. generalize ("]:" +:+ port) as t. intros t.
    rewrite app_str_cons, app_str_nil_l.
    unfold ParseIP. assert (ip_family (String "[" (ipv6_string ip +:+ t)) = Some false) as ->.
    { cbn [ip_family]. simpl Ascii.eqb. cbn [orb].
      assert (has_byte "." (ipv6_string ip) = false) as Hd by (apply has_byte_ipv6_string; set_solver).
      pose proof (ipv6_string_colon ip Hl) as Hcol. revert Hd Hcol.
      generalize (ipv6_string ip) as s. induction s as [|c s IH]; [done|].
      rewrite !has_byte_cons, app_str_cons. cbn [ip_family].
      destruct (Ascii.eqb c "."); [done|]. destruct (Ascii.eqb c ":"); [done|]. apply IH. }
    unfold parseIPv6.
    assert (HasPrefix (String "[" (ipv6_string ip +:+ t)) "::" = false) as ->; [|done].
    apply not_true_iff_false. rewrite HasPrefix_spec. intros [u Hu]. by rewrite !app_str_cons in Hu.
Qed.

(** ** Networks of IPv6 addresses *)
Lemma digits_loop_suffix base s n m rest :
  digits_loop base s n = Some (m, rest) → ∃ pre, s = pre +:+ rest.
Proof.
  revert n. induction s as [|c s IH]; intros n; simpl.
  - intros [= <- <-]. by exists "".
  - destruct (digit_val c) as [d|]; [|intros [= <- <-]; by exists ""].
    destruct (d <? base); [|intros [= <- <-]; by exists ""].
    destruct (big <=? _); [done|]. intros [pre ->]%IH. by exists (String c pre).
Qed.

Lemma parse_octets_no_dot k s : has_byte "." s = false → parse_octets (S (S k)) true s = None.
Proof.
  intros Hs. cbn [parse_octets]. destruct (dtoi s) as [[n rest]|] eqn:Hd; [|done].
  destruct (0xFF <? n); [done|]. unfold dtoi, number in Hd.
  destruct (starts_digit 10 s); [|done]. apply digits_loop_suffix in Hd as [pre ->].
  rewrite has_byte_app in Hs. apply orb_false_iff in Hs as [_ Hs].
  destruct rest as [|c rest]; [done|]. rewrite has_byte_cons in Hs.
  apply orb_false_iff in Hs as [-> _]. done.
Qed.

Lemma mask16_take k : 96 ≤ k ≤ 128 → take 12 (mask_bytes 16 k) = replicate 12 255.
Proof.
  intros Hk. apply (bool_decide_eq_true_1 _).
  assert (k ∈ seqZ 96 33) as Hs by (apply elem_of_seqZ; lia). clear Hk. revert k Hs.
  apply (forallb_true_iff (λ k, bool_decide (take 12 (mask_bytes 16 k) = replicate 12 255))).
  vm_compute. done.
Qed.

Lemma take_zip_with {A B C} (f : A → B → C) n l k :
  take n (zip_with f l k) = zip_with f (take n l) (take n k).
Proof.
  revert l k. induction n as [|n IH]; intros [|a l] [|b k]; simpl; try done. by rewrite IH.
Qed.

Lemma zip_land_ff l n : length l = n → bytes l → zip_with Z.land l (replicate n 255) = l.
Proof.
  intros <- Hb. induction Hb as [|b l Hb _ IH]; [done|]. simpl. rewrite IH. f_equal.
  by apply land_ff.
Qed.

Lemma To4_none_16 ip : length ip = 16%nat → To4 ip = None ↔ take 12 ip ≠ v4InV6Prefix.
Proof.
  intros Hl. unfold To4, IPv4len, IPv6len. rewrite decide_False by lia. case_decide; naive_solver.
Qed.

(** Masking never makes an IPv4 address of another one. *)
Lemma To4_masked p k :
  length p = 16%nat → bytes p → 0 ≤ k ≤ 128 → To4 p = None →
  To4 (zip_with Z.land p (mask_bytes 16 k)) = None.
Proof.
  intros Hl Hb Hk H4.
  assert (length (zip_with Z.land p (mask_bytes 16 k)) = 16%nat) as Hlz
    by (rewrite length_zip_with, length_mask_bytes; lia).
  apply To4_none_16; [done|]. intros Ht.
  pose proof (masked_mapped_prefix p k Hl Hk Ht) as Hk'.
  apply To4_none_16 in H4; [|done]. apply H4.
  rewrite take_zip_with, mask16_take in Ht by lia.
  rewrite zip_land_ff in Ht; [done|rewrite length_take; lia|by apply Forall_take].
Qed.

(** Membership in an IPv6 network, from the address as written. *)
Lemma Contains_cidr16 p k ip :
  length p = 16%nat → bytes p → To4 p = None → 0 ≤ k ≤ 128 → bytes ip →
  Contains_IP (cidr p k) ip = true ↔ agree p k (canon ip).
Proof.
  intros Hl Hb H4 Hk Hip.
  unfold Contains_IP, networkNumberAndMask, cidr, IPv4len, IPv6len; cbn [net_IP net_Mask].
  rewrite Hl, To4_masked by done.
  assert (length (zip_with Z.land p (mask_bytes 16 k)) = 16%nat) as Hlz
    by (rewrite length_zip_with, length_mask_bytes; lia).
  rewrite decide_False by lia. rewrite length_mask_bytes.
  rewrite decide_False, decide_True, decide_False by lia.
  rewrite Hlz. fold (canon ip). unfold agree. rewrite Hl. clear Hlz. case_decide as Hlen; [|split; [done|by intros [? _]]].
  rewrite masked_eq_masked, masked_eq_prefix by (done || (simpl; lia) || by apply bytes_canon).
  split; [done|by intros [_ ?]].
Qed.

Lemma ParseCIDR_print6 p k :
  length p = 16%nat → bytes p → To4 p = None → 0 ≤ k ≤ 128 →
  ParseCIDR (IP_String p +:+ "/" +:+ itoa k) = Ok (cidr p k).
Proof.
  intros Hl Hb H4 Hk. rewrite IP_String_v6 by done. unfold ParseCIDR.
  change ("/" +:+ itoa k) with (String "/" (itoa k)).
  pose proof (has_byte_ipv6_string "/" p ltac:(do 3 right; left)) as Hslash.
  rewrite IndexByte_app by done.
  rewrite str_take_app, str_drop_S_app.
  assert (parseIPv4 (ipv6_string p) = None) as ->.
  { unfold parseIPv4. rewrite (parse_octets_no_dot 2); [done|].
    apply has_byte_ipv6_string. set_solver. }
  rewrite parseIPv6_string by done.
  rewrite <-(app_str_nil_r (itoa k)), dtoi_itoa by (done || unfold big; lia).
  assert ((k <? 0) || (8 * 16 <? k) = false) as -> by finish.
  change (8 * 16) with (8 * Z.of_nat 16) in *. rewrite CIDRMask_bytes by (auto; lia).
  rewrite IP_Mask_same by (rewrite length_mask_bytes; done). unfold cidr. by rewrite Hl.
Qed.

(** Every network written as an address and a prefix length is read as that
    network. *)
Lemma ParseCIDR_String a k ip :
  bytes a → length a = 4%nat ∨ length a = 16%nat → bytes ip →
  0 ≤ k ≤ 8 * Z.of_nat (length (canon a)) →
  ∃ net, ParseCIDR (IP_String a +:+ "/" +:+ itoa k) = Ok net ∧
    (Contains_IP net ip = true ↔ agree (canon a) k (canon ip)).
Proof.
  intros Hb Hl Hip Hk. exists (cidr (canon a) k). pose proof (bytes_canon a Hb) as Hc.
  unfold canon in *. destruct (To4 a) as [p|] eqn:H4; simpl in *.
  - pose proof (To4_length _ _ H4) as Hp. rewrite Hp in *. change (8 * Z.of_nat 4) with 32 in *.
    rewrite (IP_String_v4 _ _ H4). split; [by apply ParseCIDR_print|by apply Contains_cidr4].
  - destruct Hl as [Hl|Hl]; [by rewrite To4_len4 in H4|]. rewrite Hl in *.
    change (8 * Z.of_nat 16) with 128 in *.
    split; [by apply ParseCIDR_print6|by apply Contains_cidr16].
Qed.
