(* ===== verification/Acl.v ===== *)
(** * The egress ACL: policies, rules and decisions

    [src/pkg/smokescreen/acl/v1/policy.go] and [acl.go].  The ACL holds one
    rule per service, an optional default rule and two global lists; [Decide]
    answers whether a service may talk to a host. *)

From S2P Require Import Prelude GoStrings.

(** ** policy.go

    Both types are Go integers; the named constants are their [iota] values,
    and any other integer is representable. *)
Abbreviation DecisionResult := Z.
Definition Allow : DecisionResult := 0.
Definition AllowAndReport : DecisionResult := 1.
Definition Deny : DecisionResult := 2.

Abbreviation EnforcementPolicy := Z.
Definition Unknown : EnforcementPolicy := 0.
Definition Open : EnforcementPolicy := 1.
Definition Report : EnforcementPolicy := 2.
Definition Enforce : EnforcementPolicy := 3.

(** Indexing an array with an integer out of range panics: [None]. *)
Definition array_index (a : list string) (i : Z) : option string :=
  if i <? 0 then None else a !! Z.to_nat i.

Definition DecisionResult_String (d : DecisionResult) : option string :=
  array_index ["Allow"; "AllowAndReport"; "Deny"] d.

Definition EnforcementPolicy_String (p : EnforcementPolicy) : option string :=
  array_index ["Unknown"; "Open"; "Report"; "Enforce"] p.

Definition EnforcementPolicies : gmap string EnforcementPolicy :=
  <["open" := Open]> (<["report" := Report]> (<["enforce" := Enforce]> ∅)).

Definition PolicyFromAction (action : string) : result EnforcementPolicy :=
  match EnforcementPolicies !! action with
  | Some v => Ok v
  | None => Fail (Err ("unknown action " +:+ action))
  end.

(** ** acl.go *)
Record Rule := mkRule {
  Project : string;
  Policy : EnforcementPolicy;
  DomainGlobs : list string
}.

#[global] Instance Rule_eq_dec : EqDecision Rule.
Proof. solve_decision. Defined.

Record ACL := mkACL {
  Rules : gmap string Rule;
  DefaultRule : option Rule;
  GlobalDenyList : list string;
  GlobalAllowList : list string;
  DisabledPolicies : list EnforcementPolicy
}.

Record Decision := mkDecision {
  Reason : string;
  Default : bool;
  Result : DecisionResult;
  Decision_Project : string
}.

(** [interface Decider]: what a configuration asks of an ACL. *)
Class Decider (T : Type) := Decide : T → string → string → Decision * option error.

(** A [*Rule]: either the address of a fresh copy of a map entry or the
    pointer stored in [acl.DefaultRule]; [Decide] compares pointers. *)
Inductive RulePtr :=
| CopyOf (r : Rule)
| DefaultPtr (r : Rule).

Definition deref (p : RulePtr) : Rule :=
  match p with CopyOf r => r | DefaultPtr r => r end.

Definition is_default (p : RulePtr) : bool :=
  match p with CopyOf _ => false | DefaultPtr _ => true end.

Definition hostMatchesGlob (host domainGlob : string) : bool :=
  match domainGlob with
  | String c suffix =>
      if Ascii.eqb c "*"%char then HasSuffix host suffix
      else String.eqb domainGlob host
  | EmptyString => String.eqb domainGlob host
  end.

Definition acl_Rule (acl : ACL) (service : string) : option RulePtr :=
  match Rules acl !! service with
  | Some r => Some (CopyOf r)
  | None => DefaultPtr <$> DefaultRule acl
  end.

Definition acl_Project (acl : ACL) (service : string) : result string :=
  match acl_Rule acl service with
  | None => Fail (Err ("no rule for service: " +:+ service))
  | Some p => Ok (Project (deref p))
  end.

(** [fmt]'s [%v] of a policy calls [String], whose panic [fmt] catches. *)
Definition policy_v (p : EnforcementPolicy) : string :=
  default "%!v(PANIC=runtime error: index out of range)" (EnforcementPolicy_String p).

Definition PolicyDisabled (acl : ACL) (svc : string) (p : EnforcementPolicy) : option error :=
  if existsb (λ dp, dp =? p) (DisabledPolicies acl)
  then Some (Err ("rule for svc:" +:+ svc +:+ " utilizes a disabled policy:" +:+ policy_v p))
  else None.

(** One iteration of the loop of [ValidateDomains]. *)
Definition validate_domain (d : string) : option error :=
  if String.eqb d "" then Some (Err "glob cannot be empty")
  else if negb (HasPrefix d "*.") && HasPrefix d "*"
  then Some (Err (d +:+ ": domain glob must represent a full prefix (sub)domain"))
  else
    let domainToCheck := if HasPrefix d "*" then str_drop 1 d else d in
    if Contains domainToCheck "*"
    then Some (Err (d +:+ ": domain globs are only supported as prefix"))
    else None.

Definition ValidateDomains (domains : list string) : option error :=
  try_all validate_domain domains.

Definition set_Rules (acl : ACL) (m : gmap string Rule) : ACL :=
  mkACL m (DefaultRule acl) (GlobalDenyList acl) (GlobalAllowList acl) (DisabledPolicies acl).

Definition set_DisabledPolicies (acl : ACL) (l : list EnforcementPolicy) : ACL :=
  mkACL (Rules acl) (DefaultRule acl) (GlobalDenyList acl) (GlobalAllowList acl) l.

(** [Add] mutates the ACL only when it returns nil. *)
Definition Add (acl : ACL) (svc : string) (r : Rule) : ACL * option error :=
  match PolicyDisabled acl svc (Policy r) with
  | Some err => (acl, Some err)
  | None =>
      match ValidateDomains (DomainGlobs r) with
      | Some err => (acl, Some err)
      | None =>
          match Rules acl !! svc with
          | Some _ => (acl, Some (Err ("rule already exists for service " +:+ svc)))
          | None => (set_Rules acl (<[svc := r]> (Rules acl)), None)
          end
      end
  end.

Definition any_glob (host : string) (globs : list string) : bool :=
  existsb (hostMatchesGlob host) globs.

Definition acl_Decide (acl : ACL) (service host : string) : Decision * option error :=
  match acl_Rule acl service with
  | None => (mkDecision "no rule matched" false Deny "", None)
  | Some rule =>
      let project := Project (deref rule) in
      let dflt := is_default rule in
      let ret reason res := mkDecision reason dflt res project in
      if any_glob host (DomainGlobs (deref rule)) then
        (ret "host matched allowed domain in rule" Allow, None)
      else if any_glob host (GlobalDenyList acl) then
        (ret "host matched rule in global deny list" Deny, None)
      else if any_glob host (GlobalAllowList acl) then
        (ret "host matched rule in global allow list" Allow, None)
      else
        let p := Policy (deref rule) in
        let '(res, reason, err) :=
          if p =? Report then (AllowAndReport, "rule has allow and report policy", None)
          else if p =? Enforce then (Deny, "rule has enforce policy", None)
          else if p =? Open then (Allow, "rule has open enforcement policy", None)
          else (Deny, "unexpected policy value",
                Some (Err ("unexpected policy value for (" +:+ service +:+ " -> " +:+ host
                           +:+ "): " +:+ pretty p))) in
        (ret (if dflt then "default rule policy used" else reason) res, err)
  end.

#[global] Instance ACL_Decider : Decider ACL := acl_Decide.

(** The loop stops at the first unknown action and keeps what it appended. *)
Fixpoint DisablePolicies (acl : ACL) (actions : list string) : ACL * option error :=
  match actions with
  | [] => (acl, None)
  | a :: actions =>
      match PolicyFromAction a with
      | Fail err => (acl, Some err)
      | Ok p => DisablePolicies (set_DisabledPolicies acl (DisabledPolicies acl ++ [p])) actions
      end
  end.

Definition validate_rule (acl : ACL) (entry : string * Rule) : option error :=
  match ValidateDomains (DomainGlobs entry.2) with
  | Some err => Some err
  | None => PolicyDisabled acl entry.1 (Policy entry.2)
  end.

Definition Validate `{MR : !MapRange string Rule} (acl : ACL) : option error :=
  try_all (validate_rule acl) (map_range (Rules acl)).

Definition no_default_warning : string :=
  "no default rule set. any services without a rule will be denied.".

(** [New]: the loader's ACL or an error, and the warnings logged.  The error
    of [DisablePolicies] is dropped. *)
Definition New `{MR : !MapRange string Rule} (loaded : result ACL) (disabledActions : list string)
    : result (ACL * list string) :=
  let? acl := loaded in
  let acl := (DisablePolicies acl disabledActions).1 in
  match Validate acl with
  | Some err => Fail err
  | None => Ok (acl, match DefaultRule acl with None => [no_default_warning] | Some _ => [] end)
  end.

(** ** Globs *)

(** A host is listed when a glob of the list covers it: equal to it, or, for
    a glob ["*" s], ending in [s]. *)
Definition covers (g host : string) : Prop :=
  (∃ suffix p, g = "*" +:+ suffix ∧ host = p +:+ suffix) ∨
  (HasPrefix g "*" = false ∧ host = g).

Definition listed (host : string) (globs : list string) : Prop :=
  ∃ g, g ∈ globs ∧ covers g host.

Lemma star_cons s : "*" +:+ s = String "*" s.
Proof. done. Qed.

Lemma HasPrefix_star c s : HasPrefix (String c s) "*" = Ascii.eqb c "*".
Proof. apply HasPrefix_byte. Qed.

Lemma hostMatchesGlob_covers host g : hostMatchesGlob host g = true ↔ covers g host.
Proof.
  unfold covers. setoid_rewrite star_cons. destruct g as [|c s]; cbn [hostMatchesGlob].
  - rewrite String.eqb_eq. naive_solver.
  - rewrite HasPrefix_star. destruct (Ascii.eqb c "*") eqn:E.
    + apply Ascii.eqb_eq in E as ->. rewrite HasSuffix_spec. naive_solver.
    + apply Ascii.eqb_neq in E. rewrite String.eqb_eq. naive_solver.
Qed.

Lemma any_glob_listed host globs : any_glob host globs = true ↔ listed host globs.
Proof.
  unfold any_glob, listed. rewrite existsb_true_iff. by setoid_rewrite hostMatchesGlob_covers.
Qed.

Lemma any_glob_not_listed host globs : any_glob host globs = false ↔ ¬ listed host globs.
Proof. rewrite <-any_glob_listed. by destruct (any_glob host globs). Qed.

(** The globs that the documentation calls valid: a plain name, or ["*."]
    followed by a plain name. *)
Definition plain (s : string) : Prop := has_byte "*" s = false.
Definition valid_glob (d : string) : Prop :=
  d ≠ "" ∧ (plain d ∨ ∃ r, d = "*." +:+ r ∧ plain r).

Lemma plain_no_star d : plain d → HasPrefix d "*" = false.
Proof.
  unfold plain. destruct d as [|c s]; [done|]. rewrite HasPrefix_star, has_byte_cons.
  rewrite orb_false_iff. by intros [? _].
Qed.

Lemma star_dot_cons r : "*." +:+ r = String "*" (String "." r).
Proof. done. Qed.

Lemma HasPrefix_star_dot d : HasPrefix (String "*" d) "*." = true ↔ ∃ r, d = String "." r.
Proof.
  rewrite HasPrefix_spec. setoid_rewrite star_dot_cons. split; intros [r Hr]; exists r; congruence.
Qed.

Lemma validate_domain_None d : validate_domain d = None ↔ valid_glob d.
Proof.
  unfold validate_domain, valid_glob, plain. setoid_rewrite star_dot_cons.
  change (Contains ?s "*") with (Contains s (String "*" "")). rewrite Contains_byte.
  destruct (String.eqb_spec d "") as [->|Hne]; [naive_solver|].
  destruct d as [|c d]; [done|]. rewrite HasPrefix_star.
  destruct (Ascii.eqb c "*") eqn:Hc.
  - apply Ascii.eqb_eq in Hc as ->. rewrite andb_true_r, has_byte_cons. cbn [str_drop].
    destruct (HasPrefix (String "*" d) "*.") eqn:Hdot; cbn [negb].
    + apply HasPrefix_star_dot in Hdot as [r ->]. rewrite has_byte_cons. simpl.
      destruct (has_byte "*" r) eqn:E.
      * split; [done|]. intros [_ [?|(r' & [= <-] & ?)]]; congruence.
      * split; [|done]. eauto.
    + split; [done|]. intros [_ [Hp|(r & [= ->] & _)]]; [done|].
      apply not_true_iff_false in Hdot. destruct Hdot. apply HasPrefix_star_dot. by exists r.
  - apply Ascii.eqb_neq in Hc. rewrite andb_false_r.
    destruct (has_byte "*" (String c d)) eqn:E; [|naive_solver].
    split; [done|]. intros [_ [?|(r & [= -> _] & _)]]; congruence.
Qed.

Lemma ValidateDomains_None ds : ValidateDomains ds = None ↔ ∀ d, d ∈ ds → valid_glob d.
Proof. unfold ValidateDomains. rewrite try_all_none. by setoid_rewrite validate_domain_None. Qed.

(** ** The rule in force for a service *)
Definition rule_of (acl : ACL) (service : string) : option Rule :=
  deref <$> acl_Rule acl service.

Lemma rule_of_lookup acl service :
  rule_of acl service =
  match Rules acl !! service with Some r => Some r | None => DefaultRule acl end.
Proof.
  unfold rule_of, acl_Rule. destruct (Rules acl !! service); [done|].
  by destruct (DefaultRule acl).
Qed.

(** ** Abstract specification of a decision

    The precedence that the README documents, as rules over propositions:
    the rule's own domains, then the global deny list, then the global allow
    list, then the rule's policy. *)
Definition policy_table : list (EnforcementPolicy * DecisionResult) :=
  [(Open, Allow); (Report, AllowAndReport); (Enforce, Deny)].

Inductive verdict (acl : ACL) (service host : string) : DecisionResult → Prop :=
| verdict_no_rule :
    rule_of acl service = None → verdict acl service host Deny
| verdict_rule_domain r :
    rule_of acl service = Some r → listed host (DomainGlobs r) →
    verdict acl service host Allow
| verdict_global_deny r :
    rule_of acl service = Some r → ¬ listed host (DomainGlobs r) →
    listed host (GlobalDenyList acl) → verdict acl service host Deny
| verdict_global_allow r :
    rule_of acl service = Some r → ¬ listed host (DomainGlobs r) →
    ¬ listed host (GlobalDenyList acl) → listed host (GlobalAllowList acl) →
    verdict acl service host Allow
| verdict_policy r p res :
    rule_of acl service = Some r → ¬ listed host (DomainGlobs r) →
    ¬ listed host (GlobalDenyList acl) → ¬ listed host (GlobalAllowList acl) →
    Policy r = p →
    (p, res) ∈ policy_table →
    verdict acl service host res
| verdict_bad_policy r :
    rule_of acl service = Some r → ¬ listed host (DomainGlobs r) →
    ¬ listed host (GlobalDenyList acl) → ¬ listed host (GlobalAllowList acl) →
    Policy r ∉ [Open; Report; Enforce] →
    verdict acl service host Deny.

Lemma policy_table_spec p res :
  (p, res) ∈ policy_table ↔
  (p = Open ∧ res = Allow) ∨ (p = Report ∧ res = AllowAndReport) ∨ (p = Enforce ∧ res = Deny).
Proof.
  unfold policy_table. rewrite !elem_of_cons, elem_of_nil. split.
  - intros [[= -> ->]|[[= -> ->]|[[= -> ->]|[]]]]; auto.
  - intros [[-> ->]|[[-> ->]|[-> ->]]]; auto.
Qed.

Lemma known_policy p : p ∈ [Open; Report; Enforce] ↔ ∃ res, (p, res) ∈ policy_table.
Proof.
  setoid_rewrite policy_table_spec. rewrite !elem_of_cons, elem_of_nil. split.
  - intros [->|[->|[->|[]]]]; eauto 10.
  - intros (res & [[-> _]|[[-> _]|[-> _]]]); auto.
Qed.

Lemma policy_table_det p r1 r2 :
  (p, r1) ∈ policy_table → (p, r2) ∈ policy_table → r1 = r2.
Proof.
  rewrite !policy_table_spec.
  intros [[-> ->]|[[-> ->]|[-> ->]]] [[? ->]|[[? ->]|[? ->]]]; done.
Qed.

Lemma verdict_det acl service host r1 r2 :
  verdict acl service host r1 → verdict acl service host r2 → r1 = r2.
Proof.
  intros H1 H2; destruct H1; inversion H2; simplify_eq; try done.
  - by eapply policy_table_det.
  - rewrite known_policy in *. exfalso. eauto.
  - rewrite known_policy in *. exfalso. eauto.
Qed.

(** The decision has the shape of the branch that was taken. *)
Lemma acl_Decide_verdict acl service host :
  verdict acl service host (Result (acl_Decide acl service host).1).
Proof.
  unfold acl_Decide. destruct (acl_Rule acl service) as [rp|] eqn:Hr.
  2:{ apply verdict_no_rule. unfold rule_of. by rewrite Hr. }
  assert (rule_of acl service = Some (deref rp)) as Hrule by (unfold rule_of; by rewrite Hr).
  destruct (any_glob host (DomainGlobs _)) eqn:E1.
  { apply any_glob_listed in E1. by eapply verdict_rule_domain. }
  apply any_glob_not_listed in E1.
  destruct (any_glob host (GlobalDenyList acl)) eqn:E2.
  { apply any_glob_listed in E2. by eapply verdict_global_deny. }
  apply any_glob_not_listed in E2.
  destruct (any_glob host (GlobalAllowList acl)) eqn:E3.
  { apply any_glob_listed in E3. by eapply verdict_global_allow. }
  apply any_glob_not_listed in E3.
  destruct (Z.eqb_spec (Policy (deref rp)) Report) as [Hp|HR];
    [|destruct (Z.eqb_spec (Policy (deref rp)) Enforce) as [Hp|HE];
      [|destruct (Z.eqb_spec (Policy (deref rp)) Open) as [Hp|HO]]];
    [eapply verdict_policy; [done..|exact Hp|]; apply policy_table_spec; auto ..|].
  eapply verdict_bad_policy; [done..|]. rewrite !elem_of_cons, elem_of_nil. tauto.
Qed.

(** ** Theorems: decisions *)

(** C19: [Decide] implements the documented precedence: its result is exactly
    the verdict of the abstract specification (the rule's own domains, then
    the global deny list, then the global allow list, then the policy). *)
Theorem Decide_refines_verdict acl service host res :
  Result (acl_Decide acl service host).1 = res ↔ verdict acl service host res.
Proof.
  split; [intros <-; apply acl_Decide_verdict|].
  intros H. eapply verdict_det; [apply acl_Decide_verdict|done].
Qed.

(** The branches of [Decide] below the lists. *)
Lemma acl_Decide_fallthrough acl service host rp :
  acl_Rule acl service = Some rp →
  ¬ listed host (DomainGlobs (deref rp)) → ¬ listed host (GlobalDenyList acl) →
  ¬ listed host (GlobalAllowList acl) →
  is_Some (acl_Decide acl service host).2 ↔ Policy (deref rp) ∉ [Open; Report; Enforce].
Proof.
  intros Hr H1%any_glob_not_listed H2%any_glob_not_listed H3%any_glob_not_listed.
  unfold acl_Decide. rewrite Hr, H1, H2, H3. rewrite !elem_of_cons, elem_of_nil.
  destruct (Z.eqb_spec (Policy (deref rp)) Report);
    [|destruct (Z.eqb_spec (Policy (deref rp)) Enforce);
      [|destruct (Z.eqb_spec (Policy (deref rp)) Open)]]; simpl;
    [split; [by intros []|tauto]..|split; [tauto|eauto]].
Qed.

Lemma acl_Decide_listed_no_error acl service host rp :
  acl_Rule acl service = Some rp →
  listed host (DomainGlobs (deref rp)) ∨ listed host (GlobalDenyList acl) ∨
  listed host (GlobalAllowList acl) →
  (acl_Decide acl service host).2 = None.
Proof.
  intros Hr Hl. unfold acl_Decide. rewrite Hr. rewrite <-!any_glob_listed in Hl.
  repeat case_match; naive_solver.
Qed.

(** [Decide] fails closed: it returns an error exactly when the rule in
    force has a policy outside open, report and enforce and no list mentions
    the host, and then the result is Deny. *)
Theorem Decide_error_fails_closed acl service host :
  (is_Some (acl_Decide acl service host).2 ↔
   ∃ r, rule_of acl service = Some r ∧ Policy r ∉ [Open; Report; Enforce] ∧
        ¬ listed host (DomainGlobs r) ∧ ¬ listed host (GlobalDenyList acl) ∧
        ¬ listed host (GlobalAllowList acl)) ∧
  (is_Some (acl_Decide acl service host).2 →
   Result (acl_Decide acl service host).1 = Deny).
Proof.
  assert (is_Some (acl_Decide acl service host).2 ↔
    ∃ r, rule_of acl service = Some r ∧ Policy r ∉ [Open; Report; Enforce] ∧
        ¬ listed host (DomainGlobs r) ∧ ¬ listed host (GlobalDenyList acl) ∧
        ¬ listed host (GlobalAllowList acl)) as Hiff.
  { unfold rule_of. destruct (acl_Rule acl service) as [rp|] eqn:Hr.
    2:{ unfold acl_Decide. rewrite Hr. split; [by intros []|intros (? & ? & _); done]. }
    simpl. split.
    - intros He. exists (deref rp). split; [done|].
      assert (¬ (listed host (DomainGlobs (deref rp)) ∨ listed host (GlobalDenyList acl) ∨
                 listed host (GlobalAllowList acl))) as Hn.
      { intros Hl. rewrite (acl_Decide_listed_no_error _ _ _ _ Hr Hl) in He. by destruct He. }
      split; [|tauto]. apply (acl_Decide_fallthrough acl service host rp); tauto.
    - intros (r & [= <-] & Hp & H1 & H2 & H3). by apply (acl_Decide_fallthrough _ _ _ rp). }
  split; [done|]. rewrite Hiff. intros (r & Hr & Hp & H1 & H2 & H3).
  eapply verdict_det; [apply acl_Decide_verdict|]. by eapply verdict_bad_policy.
Qed.

(** Under the enforce policy traffic passes only to listed hosts: the
    result is not Deny exactly when the rule lists the host, or the host is on
    the global allow list and not on the global deny list. *)
Theorem Decide_enforce acl service host r :
  rule_of acl service = Some r → Policy r = Enforce →
  Result (acl_Decide acl service host).1 ≠ Deny ↔
  listed host (DomainGlobs r) ∨
  (¬ listed host (GlobalDenyList acl) ∧ listed host (GlobalAllowList acl)).
Proof.
  intros Hr Hp. pose proof (acl_Decide_verdict acl service host) as Hv. split.
  - intros Hne. inversion Hv; simplify_eq; try (exfalso; congruence); auto.
    rewrite Hp in *.
    match goal with H : (Enforce, _) ∈ _ |- _ => apply policy_table_spec in H end.
    destruct_or?; destruct_and?; done.
  - assert (Allow ≠ Deny) as Hne by done.
    intros [H|[H1 H2]]; intros He; apply Hne; rewrite <-He.
    + eapply verdict_det; [|done]. by eapply verdict_rule_domain.
    + destruct (any_glob host (DomainGlobs r)) eqn:E.
      * apply any_glob_listed in E. eapply verdict_det; [|done]. by eapply verdict_rule_domain.
      * apply any_glob_not_listed in E. eapply verdict_det; [|done].
        by eapply verdict_global_allow.
Qed.

Definition sample_rule : Rule := mkRule "phony" Enforce ["*.example.com"].
Definition sample_acl : ACL :=
  mkACL (<["dummy-glob" := sample_rule]> ∅) None ["bad.com"] ["good.com"] [].

Lemma Decide_enforce_witness :
  Result (acl_Decide sample_acl "dummy-glob" "shouldbreak.com").1 = Deny ∧
  (Result (acl_Decide sample_acl "dummy-glob" "api.example.com").1 ≠ Deny ↔
   listed "api.example.com" (DomainGlobs sample_rule) ∨
   (¬ listed "api.example.com" (GlobalDenyList sample_acl) ∧
    listed "api.example.com" (GlobalAllowList sample_acl))).
Proof.
  split; [by vm_compute|].
  apply (Decide_enforce sample_acl "dummy-glob" "api.example.com" sample_rule);
    by vm_compute.
Defined.

(** What the decision records: the project is the one of the rule in
    force; the default flag is set exactly when the service has no rule of its
    own and a default rule exists; and a decision by policy alone under the
    default rule is reported as such. *)
Theorem Decide_metadata acl service host :
  Decision_Project (acl_Decide acl service host).1 =
    default "" (Project <$> rule_of acl service) ∧
  (Default (acl_Decide acl service host).1 = true ↔
   Rules acl !! service = None ∧ is_Some (DefaultRule acl)) ∧
  (Reason (acl_Decide acl service host).1 = "default rule policy used" ↔
   Rules acl !! service = None ∧
   ∃ r, DefaultRule acl = Some r ∧ ¬ listed host (DomainGlobs r) ∧
        ¬ listed host (GlobalDenyList acl) ∧ ¬ listed host (GlobalAllowList acl)).
Proof.
  rewrite rule_of_lookup. unfold acl_Decide, acl_Rule.
  setoid_rewrite <-any_glob_not_listed.
  destruct (Rules acl !! service) as [r|] eqn:Hr; simpl.
  - split_and!; [repeat case_match; by simplify_eq/=| |].
    + split; [repeat case_match; by simplify_eq/=|intros [? _]; done].
    + split; [repeat case_match; by simplify_eq/=|intros [? _]; done].
  - destruct (DefaultRule acl) as [r|] eqn:Hd; simpl.
    + split_and!; [repeat case_match; by simplify_eq/=| |].
      * split; [eauto|repeat case_match; by simplify_eq/=].
      * split; [repeat case_match; intros; simplify_eq/=; eauto 10|].
        intros (_ & r' & [= <-] & -> & -> & ->). repeat case_match; by simplify_eq/=.
    + split_and!; [done|split; [done|intros [_ []]; done]|].
      split; [done|]. intros (_ & r' & ? & _). done.
Qed.

(** ** Theorems: globs *)

(** [ValidateDomains] accepts exactly the lists of valid globs: non-empty,
    without a wildcard or with one ["*."] prefix and none after it. *)
Theorem ValidateDomains_accepts acl_domains :
  ValidateDomains acl_domains = None ↔ ∀ d, d ∈ acl_domains → valid_glob d.
Proof. apply ValidateDomains_None. Qed.

(** A validated glob matches at a label boundary only: the host is the
    glob itself, or the glob is ["*." r] and the host ends in ["." r] (so
    neither [r] itself nor a longer name that merely ends in the letters of
    [r] matches). *)
Theorem valid_glob_label_boundary g host :
  valid_glob g →
  hostMatchesGlob host g = true ↔
  (plain g ∧ host = g) ∨ ∃ r p, g = "*." +:+ r ∧ host = p +:+ "." +:+ r.
Proof.
  intros [Hne Hg]. rewrite hostMatchesGlob_covers. unfold covers.
  setoid_rewrite star_dot_cons. setoid_rewrite star_cons. split.
  - intros [(s & p & -> & ->)|[Hp ->]].
    + right. destruct Hg as [Hg|(r & [= ->] & _)]; [by apply plain_no_star in Hg; rewrite HasPrefix_star in Hg|].
      by exists r, p.
    + left. split; [|done]. destruct Hg as [Hg|(r & -> & _)]; [done|].
      by rewrite star_dot_cons, HasPrefix_star in Hp.
  - intros [[Hp ->]|(r & p & -> & ->)]; [right; auto using plain_no_star|].
    left. by eexists _, p.
Qed.

Lemma valid_glob_label_boundary_witness :
  valid_glob "*.example.com" ∧
  (hostMatchesGlob "evil-example.com" "*.example.com" = true ↔
   (plain "*.example.com" ∧ "evil-example.com" = "*.example.com") ∨
   ∃ r p, "*.example.com" = "*." +:+ r ∧ "evil-example.com" = p +:+ "." +:+ r).
Proof.
  assert (valid_glob "*.example.com") as H by (by apply validate_domain_None).
  split; [exact H|]. apply (valid_glob_label_boundary "*.example.com" "evil-example.com" H).
Defined.

(** ** Theorems: building an ACL *)

Definition valid_rule (disabled : list EnforcementPolicy) (r : Rule) : Prop :=
  (∀ d, d ∈ DomainGlobs r → valid_glob d) ∧ Policy r ∉ disabled.

(** The invariant of an ACL: every service rule is valid for the policies
    that are disabled. *)
Definition acl_wf (acl : ACL) : Prop :=
  ∀ svc r, Rules acl !! svc = Some r → valid_rule (DisabledPolicies acl) r.

Lemma PolicyDisabled_None acl svc p :
  PolicyDisabled acl svc p = None ↔ p ∉ DisabledPolicies acl.
Proof.
  unfold PolicyDisabled. destruct (existsb _ _) eqn:E.
  - apply existsb_true_iff in E as (x & Hx & ->%Z.eqb_eq). split; [done|]. intros H. by destruct H.
  - split; [|done]. intros _ Hp. rewrite existsb_false_iff in E.
    specialize (E p Hp). by rewrite Z.eqb_refl in E.
Qed.

Lemma validate_rule_None acl svc r :
  validate_rule acl (svc, r) = None ↔ valid_rule (DisabledPolicies acl) r.
Proof.
  unfold validate_rule, valid_rule. simpl.
  rewrite <-ValidateDomains_None, <-(PolicyDisabled_None acl svc).
  destruct (ValidateDomains _); naive_solver.
Qed.

(** [Validate] succeeds on exactly the well-formed ACLs, in whatever order the
    map is visited. *)
Lemma Validate_None `{MR : !MapRange string Rule} acl : Validate acl = None ↔ acl_wf acl.
Proof.
  unfold Validate, acl_wf. rewrite try_all_none. split.
  - intros H svc r Hr%elem_of_map_range. by apply (validate_rule_None acl svc), H.
  - intros H [svc r] Hr%elem_of_map_range. apply validate_rule_None. eauto.
Qed.

(** [Add] inserts the rule, and nothing else, exactly when its policy is
    enabled, its globs are valid and the service has no rule yet; otherwise it
    returns an error and leaves the ACL unchanged.  So the invariant of the
    ACL is preserved and no rule is ever overwritten. *)
Theorem Add_spec acl svc r :
  (valid_rule (DisabledPolicies acl) r ∧ Rules acl !! svc = None →
   Add acl svc r = (set_Rules acl (<[svc := r]> (Rules acl)), None)) ∧
  (¬ (valid_rule (DisabledPolicies acl) r ∧ Rules acl !! svc = None) →
   ∃ err, Add acl svc r = (acl, Some err)) ∧
  (acl_wf acl → acl_wf (Add acl svc r).1).
Proof.
  unfold Add, valid_rule.
  rewrite <-ValidateDomains_None, <-(PolicyDisabled_None acl svc).
  destruct (PolicyDisabled acl svc (Policy r)) as [e|] eqn:E1; [naive_solver|].
  destruct (ValidateDomains (DomainGlobs r)) as [e|] eqn:E2; [naive_solver|].
  destruct (Rules acl !! svc) eqn:E3; [naive_solver|].
  split_and!; [done|naive_solver|].
  intros Hwf svc' r'. cbn [fst set_Rules Rules DisabledPolicies].
  rewrite lookup_insert. case_decide as Hs; [|apply Hwf]. intros [= <-].
  split; [by apply ValidateDomains_None|by apply (PolicyDisabled_None acl svc)].
Qed.

Lemma Add_spec_witness :
  valid_rule (DisabledPolicies sample_acl) (mkRule "p" Open ["*.stripe.com"]) ∧
  Add sample_acl "stripe" (mkRule "p" Open ["*.stripe.com"]) =
    (set_Rules sample_acl (<["stripe" := mkRule "p" Open ["*.stripe.com"]]> (Rules sample_acl)), None).
Proof.
  assert (valid_rule (DisabledPolicies sample_acl) (mkRule "p" Open ["*.stripe.com"])) as H
    by (apply (validate_rule_None sample_acl ""); by vm_compute).
  split; [exact H|].
  apply (proj1 (Add_spec sample_acl "stripe" (mkRule "p" Open ["*.stripe.com"]))).
  split; [exact H|by vm_compute].
Defined.

(** The policies named by the actions up to the first unknown one. *)
Fixpoint known_prefix (actions : list string) : list EnforcementPolicy :=
  match actions with
  | [] => []
  | a :: actions =>
      match PolicyFromAction a with Ok p => p :: known_prefix actions | Fail _ => [] end
  end.

Lemma DisablePolicies_fst acl actions :
  (DisablePolicies acl actions).1 =
  set_DisabledPolicies acl (DisabledPolicies acl ++ known_prefix actions).
Proof.
  revert acl. induction actions as [|a actions IH]; intros acl; simpl.
  - rewrite app_nil_r. by destruct acl.
  - destruct (PolicyFromAction a) as [p|e]; simpl.
    + rewrite IH. unfold set_DisabledPolicies; simpl. by rewrite <-app_assoc.
    + rewrite app_nil_r. by destruct acl.
Qed.

Definition New_acl (acl : ACL) (actions : list string) : ACL :=
  set_DisabledPolicies acl (DisabledPolicies acl ++ known_prefix actions).

Lemma New_eq `{MR : !MapRange string Rule} acl actions :
  New (Ok acl) actions =
  match Validate (New_acl acl actions) with
  | Some err => Fail err
  | None => Ok (New_acl acl actions,
                match DefaultRule acl with None => [no_default_warning] | Some _ => [] end)
  end.
Proof. unfold New. cbn [result_bind]. by rewrite DisablePolicies_fst. Qed.

(** C39: [New] returns an ACL exactly when the loader did and every service
    rule has valid globs and an enabled policy; the ACL is the loaded one with
    the disabled policies added, and a missing default rule is the only
    warning.  The order in which the rules are visited does not matter. *)
Theorem New_ok_iff `{MR : !MapRange string Rule} loaded actions acl' warnings :
  New loaded actions = Ok (acl', warnings) ↔
  ∃ acl, loaded = Ok acl ∧ acl' = New_acl acl actions ∧ acl_wf acl' ∧
         warnings = match DefaultRule acl with None => [no_default_warning] | Some _ => [] end.
Proof.
  destruct loaded as [acl|e]; [|split; [done|intros (? & ? & _); done]].
  rewrite New_eq. destruct (Validate (New_acl acl actions)) as [e|] eqn:E.
  - split; [done|]. intros (acl0 & [= <-] & -> & Hwf & _).
    apply Validate_None in Hwf. congruence.
  - split.
    + intros [= <- <-]. exists acl. split_and!; try done. by apply Validate_None in E.
    + intros (acl0 & [= <-] & -> & _ & ->). done.
Qed.

Lemma known_prefix_app l1 a l2 :
  is_ok (PolicyFromAction a) = false → known_prefix (l1 ++ a :: l2) = known_prefix l1.
Proof.
  intros Ha. induction l1 as [|b l1 IH]; simpl.
  - by destruct (PolicyFromAction a).
  - destruct (PolicyFromAction b); [by rewrite IH|done].
Qed.

(** An unknown action in the list of policies to disable is not reported
    and stops the processing: [New] behaves as if that action and all the
    later ones had not been given. *)
Theorem New_drops_actions_after_unknown `{MR : !MapRange string Rule} loaded before a after :
  is_ok (PolicyFromAction a) = false →
  New loaded (before ++ a :: after) = New loaded before.
Proof.
  intros Ha. destruct loaded as [acl|e]; [|done]. rewrite !New_eq. unfold New_acl.
  by rewrite known_prefix_app.
Qed.

Definition open_acl : ACL :=
  mkACL (<["svc" := mkRule "p" Open []]> ∅) (Some (mkRule "d" Open ["*"])) [] [] [].

Lemma New_drops_actions_after_unknown_witness :
  is_ok (New (MR := canonical_range string Rule) (Ok open_acl) ["open"]) = false ∧
  New (MR := canonical_range string Rule) (Ok open_acl) ([] ++ "opne" :: ["open"]) =
  New (MR := canonical_range string Rule) (Ok open_acl) [] ∧
  is_ok (New (MR := canonical_range string Rule) (Ok open_acl) []) = true.
Proof.
  split; [by vm_compute|]. split; [|by vm_compute].
  apply (New_drops_actions_after_unknown (MR := canonical_range string Rule)
           (Ok open_acl) [] "opne" ["open"]). by vm_compute.
Defined.

Definition set_DefaultRule (acl : ACL) (d : option Rule) : ACL :=
  mkACL (Rules acl) d (GlobalDenyList acl) (GlobalAllowList acl) (DisabledPolicies acl).

(** The default rule is outside validation: whether [New] accepts an ACL
    does not depend on its default rule, whose globs and policy may be
    anything, a disabled policy included. *)
Theorem New_ignores_default_rule `{MR : !MapRange string Rule} acl d actions :
  is_ok (New (Ok (set_DefaultRule acl d)) actions) = is_ok (New (Ok acl) actions).
Proof.
  rewrite !New_eq.
  assert (Validate (New_acl (set_DefaultRule acl d) actions) = Validate (New_acl acl actions)) as ->
    by done.
  by destruct (Validate _).
Qed.
