(* ===== verification/AclYaml.v ===== *)
(** * Loading an ACL from YAML

    [src/pkg/smokescreen/acl/v1/yaml_loader.go] and [loader.go]: the shape of
    the file, its translation to an ACL, and what a successful load
    guarantees.  Reading the file and decoding YAML are parameters. *)

From S2P Require Import Prelude GoStrings Acl.

(** ** Data: a nil slice or pointer is [None] *)
Record YAMLRule := mkYAMLRule {
  yr_Name : string;
  yr_Project : string;
  yr_Action : string;
  yr_AllowedHosts : list string
}.

Record YAMLConfig := mkYAMLConfig {
  yc_Services : option (list YAMLRule);
  yc_Default : option YAMLRule;
  yc_Version : string;
  yc_GlobalDenyList : option (list string);
  yc_GlobalAllowList : option (list string)
}.

Definition empty_ACL : ACL := mkACL ∅ None [] [] [].

Definition yaml_rule (v : YAMLRule) (p : EnforcementPolicy) : Rule :=
  mkRule (yr_Project v) p (yr_AllowedHosts v).

(** The loop over [cfg.Services]. *)
Fixpoint load_services (acl : ACL) (vs : list YAMLRule) : result ACL :=
  match vs with
  | [] => Ok acl
  | v :: vs =>
      let? p := PolicyFromAction (yr_Action v) in
      match Add acl (yr_Name v) (yaml_rule v p) with
      | (_, Some err) => Fail err
      | (acl, None) => load_services acl vs
      end
  end.

Definition load_default (d : option YAMLRule) : result (option Rule) :=
  match d with
  | None => Ok None
  | Some v => let? p := PolicyFromAction (yr_Action v) in Ok (Some (yaml_rule v p))
  end.

Definition YAMLConfig_Load (cfg : YAMLConfig) : result ACL :=
  match yc_Services cfg with
  | None => Fail (Err "Top level list 'services' is missing")
  | Some services =>
      let? acl := load_services empty_ACL services in
      let? d := load_default (yc_Default cfg) in
      Ok (mkACL (Rules acl) d
            (default [] (yc_GlobalDenyList cfg)) (default [] (yc_GlobalAllowList cfg))
            (DisabledPolicies acl))
  end.

Definition ValidateConfig (cfg : YAMLConfig) : option error :=
  match YAMLConfig_Load cfg with Ok _ => None | Fail err => Some err end.

(** [YAMLLoader.Load]: the file system, the YAML decoder and Go's quoting of
    a string in an error text are outside the program. *)
Section yaml_loader.
  Context {File : Type}.
  Variable os_Open : string → result File.
  Variable ReadAll : File → result string.
  Variable yaml_Unmarshal : string → result YAMLConfig.
  Variable sharp_v : string → string.

Definition YAMLLoader_Load (path : string) : result ACL :=
  let? f := os_Open path in
  match ReadAll f with
  | Fail _ => Fail (Err "could not load acl configuration")
  | Ok yamlFile =>
      let? yamlConfig := yaml_Unmarshal yamlFile in
      if negb (String.eqb (yc_Version yamlConfig) "v1")
      then Fail (Err ("expected version " +:+ dquote +:+ "v1" +:+ dquote +:+ " got "
                      +:+ sharp_v (yc_Version yamlConfig)))
      else YAMLConfig_Load yamlConfig
  end.

End yaml_loader.

(** ** What the loop over the services computes *)

(** The rule that a service entry stands for, when the entry is acceptable. *)
Definition entry_rule (v : YAMLRule) (r : Rule) : Prop :=
  PolicyFromAction (yr_Action v) = Ok (Policy r) ∧
  r = yaml_rule v (Policy r) ∧ valid_rule [] r.

Lemma Add_None_iff acl svc r acl' :
  Add acl svc r = (acl', None) ↔
  valid_rule (DisabledPolicies acl) r ∧ Rules acl !! svc = None ∧
  acl' = set_Rules acl (<[svc := r]> (Rules acl)).
Proof.
  unfold Add, valid_rule.
  rewrite <-ValidateDomains_None, <-(PolicyDisabled_None acl svc).
  destruct (PolicyDisabled acl svc (Policy r)); [naive_solver|].
  destruct (ValidateDomains (DomainGlobs r)); [naive_solver|].
  destruct (Rules acl !! svc); naive_solver.
Qed.

Lemma insert_zip_union (n : string) (r : Rule) ns rs (m : gmap string Rule) :
  n ∉ ns →
  list_to_map (zip ns rs) ∪ <[n := r]> m = list_to_map (zip (n :: ns) (r :: rs)) ∪ m.
Proof.
  intros Hn. simpl. rewrite <-insert_union_l, insert_union_r; [done|].
  apply not_elem_of_list_to_map_1. intros ([k r'] & -> & Hin)%list_elem_of_fmap.
  apply Hn. by apply elem_of_zip_l in Hin.
Qed.

Lemma load_services_ok acl vs acl' :
  DisabledPolicies acl = [] →
  load_services acl vs = Ok acl' ↔
  ∃ rs, Forall2 entry_rule vs rs ∧ NoDup (yr_Name <$> vs) ∧
        (∀ v, v ∈ vs → Rules acl !! yr_Name v = None) ∧
        acl' = set_Rules acl (list_to_map (zip (yr_Name <$> vs) rs) ∪ Rules acl).
Proof.
  revert acl. induction vs as [|v vs IH]; intros acl Hd; simpl.
  { split.
    - intros [= <-]. exists []. split_and!; [done|constructor|by intros v ?%elem_of_nil|].
      simpl. rewrite map_empty_union. by destruct acl.
    - intros (rs & ->%Forall2_nil_inv_l & _ & _ & ->). simpl. rewrite map_empty_union.
      by destruct acl. }
  rewrite result_bind_ok. split.
  - intros (p & Hp & H). destruct (Add _ _ _) as [acl1 [e|]] eqn:HA; [done|].
    apply Add_None_iff in HA as (Hv & Hn & ->). rewrite Hd in Hv.
    apply IH in H as (rs & HF & Hnd & Hfresh & ->); [|done]. cbn [set_Rules Rules] in Hfresh.
    assert (yr_Name v ∉ yr_Name <$> vs) as Hnot.
    { intros (w & Hw & Hin)%list_elem_of_fmap. specialize (Hfresh w Hin).
      by rewrite <-Hw, lookup_insert_eq in Hfresh. }
    exists (yaml_rule v p :: rs). split_and!.
    + constructor; [split_and!; done|done].
    + by constructor.
    + intros w [->|Hw]%elem_of_cons; [done|]. specialize (Hfresh w Hw).
      apply lookup_insert_None in Hfresh as [? _]. done.
    + unfold set_Rules. f_equal. by apply insert_zip_union.
  - intros (rs & HF & Hnd & Hfresh & ->).
    apply Forall2_cons_inv_l in HF as (r & rs' & (Hp & Hr & Hv) & HF & ->).
    apply NoDup_cons in Hnd as [Hnot Hnd].
    exists (Policy r). split; [done|]. rewrite <-Hr.
    assert (Add acl (yr_Name v) r = (set_Rules acl (<[yr_Name v := r]> (Rules acl)), None)) as ->.
    { apply Add_None_iff. rewrite Hd. split_and!; [done| |done]. apply Hfresh. by left. }
    apply IH; [done|]. exists rs'. split_and!; [done..| |].
    + intros w Hw. simpl. rewrite lookup_insert_ne.
      * apply Hfresh. by right.
      * intros Heq. apply Hnot. rewrite Heq. by apply list_elem_of_fmap_2.
    + unfold set_Rules. f_equal. symmetry. by apply insert_zip_union.
Qed.

Lemma load_services_empty vs acl' :
  load_services empty_ACL vs = Ok acl' ↔
  ∃ rs, Forall2 entry_rule vs rs ∧ NoDup (yr_Name <$> vs) ∧
        acl' = set_Rules empty_ACL (list_to_map (zip (yr_Name <$> vs) rs)).
Proof.
  rewrite load_services_ok by done. split.
  - intros (rs & ? & ? & _ & ->). exists rs. split_and!; [done..|].
    f_equal. apply map_union_empty.
  - intros (rs & ? & ? & ->). exists rs. split_and!; [done..|].
    f_equal. symmetry. apply map_union_empty.
Qed.

(** ** Theorems *)

(** The default rule of a file: no entry, or an entry with a known action
    (its domains are not checked). *)
Definition default_rule (d : option YAMLRule) (r : option Rule) : Prop :=
  match d with
  | None => r = None
  | Some v => ∃ p, PolicyFromAction (yr_Action v) = Ok p ∧ r = Some (yaml_rule v p)
  end.

Lemma load_default_ok d r : load_default d = Ok r ↔ default_rule d r.
Proof.
  destruct d as [v|]; simpl; [|naive_solver]. rewrite result_bind_ok. naive_solver.
Qed.

(** What an accepted configuration [cfg] loads to. *)
Definition loads_to (cfg : YAMLConfig) (services : list YAMLRule) (rs : list Rule)
    (d : option Rule) (acl : ACL) : Prop :=
  yc_Services cfg = Some services ∧ Forall2 entry_rule services rs ∧
  NoDup (yr_Name <$> services) ∧ default_rule (yc_Default cfg) d ∧
  acl = mkACL (list_to_map (zip (yr_Name <$> services) rs)) d
          (default [] (yc_GlobalDenyList cfg)) (default [] (yc_GlobalAllowList cfg)) [].

Lemma YAMLConfig_Load_loads_to cfg acl :
  YAMLConfig_Load cfg = Ok acl ↔ ∃ services rs d, loads_to cfg services rs d acl.
Proof.
  unfold YAMLConfig_Load, loads_to. destruct (yc_Services cfg) as [services|]; [|naive_solver].
  rewrite result_bind_ok. setoid_rewrite result_bind_ok.
  setoid_rewrite load_services_empty. setoid_rewrite load_default_ok. split.
  - intros (acl0 & (rs & HF & Hnd & ->) & d & Hd & [= <-]). by exists services, rs, d.
  - intros (s & rs & d & [= <-] & HF & Hnd & Hd & ->).
    eexists. split; [by exists rs|]. by exists d.
Qed.

(** A YAML configuration loads exactly when it has a list of services
    with distinct names, known actions and valid globs and the default's action
    is known; the ACL then holds one rule per entry, the default and the two
    global lists of the file, and disables nothing. *)
Theorem YAMLConfig_Load_ok_iff cfg acl :
  YAMLConfig_Load cfg = Ok acl ↔
  ∃ services rs d,
    yc_Services cfg = Some services ∧ Forall2 entry_rule services rs ∧
    NoDup (yr_Name <$> services) ∧ default_rule (yc_Default cfg) d ∧
    acl = mkACL (list_to_map (zip (yr_Name <$> services) rs)) d
            (default [] (yc_GlobalDenyList cfg)) (default [] (yc_GlobalAllowList cfg)) [].
Proof. apply YAMLConfig_Load_loads_to. Qed.

Lemma load_lookup services rs v r :
  Forall2 entry_rule services rs → NoDup (yr_Name <$> services) →
  (v, r) ∈ zip services rs →
  (list_to_map (zip (yr_Name <$> services) rs) : gmap string Rule) !! yr_Name v = Some r.
Proof.
  intros HF Hnd Hin. apply elem_of_list_to_map_1.
  - rewrite fst_zip; [done|]. rewrite length_fmap. by rewrite (Forall2_length _ _ _ HF).
  - clear Hnd. induction HF as [|v' r' vs rs' H1 HF IH]; simpl in *; [by apply elem_of_nil in Hin|].
    apply elem_of_cons in Hin as [[= -> ->]|Hin]; [by left|right; auto].
Qed.

(** What the file says is what [Decide] uses: every entry's rule is in
    force for the service it names, and every service the file does not name
    falls back to the default. *)
Theorem YAMLConfig_Load_rules cfg acl services :
  YAMLConfig_Load cfg = Ok acl → yc_Services cfg = Some services →
  (∀ v, v ∈ services → ∃ p, PolicyFromAction (yr_Action v) = Ok p ∧
     rule_of acl (yr_Name v) = Some (yaml_rule v p)) ∧
  (∀ name, name ∉ yr_Name <$> services → rule_of acl name = DefaultRule acl) ∧
  acl_wf acl.
Proof.
  intros (services' & rs & d & Hs & HF & Hnd & _ & ->)%YAMLConfig_Load_loads_to Hs'.
  rewrite Hs in Hs'. simplify_eq. split_and!.
  - intros v Hv. destruct (zip_elem_l services rs v) as (r & Hin);
      [done|by eapply Forall2_length|].
    pose proof (Forall2_zip _ _ _ _ _ HF Hin) as (Hp & Hr' & _).
    exists (Policy r). split; [done|]. rewrite rule_of_lookup; simpl.
    by rewrite (load_lookup services rs v r), <-Hr'.
  - intros name Hname. rewrite rule_of_lookup; simpl.
    rewrite not_elem_of_list_to_map_1; [done|].
    intros ([k r] & -> & Hin)%list_elem_of_fmap. by apply elem_of_zip_l in Hin.
  - intros svc r Hr. simpl in *. apply elem_of_list_to_map_2 in Hr.
    destruct (zip_fmap_inv _ _ _ _ _ Hr) as (v & -> & Hin).
    by pose proof (Forall2_zip _ _ _ _ _ HF Hin) as (_ & _ & ?).
Qed.

(** [testdata/sample_config_with_global.yaml], decoded. *)
Definition sample_config : YAMLConfig :=
  mkYAMLConfig
    (Some [mkYAMLRule "enforce-dummy-srv" "usersec" "enforce"
             ["example1.com"; "example2.com"; "badexample1.com"];
           mkYAMLRule "report-dummy-srv" "security" "report" ["example3.com"];
           mkYAMLRule "open-dummy-srv" "automation" "open" [];
           mkYAMLRule "dummy-glob" "phony" "enforce" ["*.example.com"]])
    (Some (mkYAMLRule "" "other" "report" ["default.example.com"])) "v1"
    (Some ["badexample1.com"; "badexample2.com"; "conflictingexample.com"])
    (Some ["goodexample1.com"; "goodexample2.com"; "goodexample3.com"; "conflictingexample.com"]).

Definition sample_loaded : ACL :=
  match YAMLConfig_Load sample_config with Ok acl => acl | Fail _ => empty_ACL end.

(** The repository's own table of expected decisions for that file. *)
Definition decision_of (service host : string) : DecisionResult * string * string :=
  let d := (acl_Decide sample_loaded service host).1 in
  (Result d, Reason d, Decision_Project d).

Example sample_decisions :
  decision_of "enforce-dummy-srv" "goodexample1.com" =
    (Allow, "host matched rule in global allow list", "usersec") ∧
  decision_of "enforce-dummy-srv" "badexample1.com" =
    (Allow, "host matched allowed domain in rule", "usersec") ∧
  decision_of "report-dummy-srv" "badexample1.com" =
    (Deny, "host matched rule in global deny list", "security") ∧
  decision_of "open-dummy-srv" "conflictingexample.com" =
    (Deny, "host matched rule in global deny list", "automation") ∧
  decision_of "dummy-glob" "example.com" = (Deny, "rule has enforce policy", "phony") ∧
  decision_of "dummy-glob" "api.example.com" =
    (Allow, "host matched allowed domain in rule", "phony") ∧
  decision_of "unknown-service" "nope.example.com" =
    (AllowAndReport, "default rule policy used", "other").
Proof. vm_compute. split_and!; reflexivity. Qed.

Lemma YAMLConfig_Load_rules_witness :
  YAMLConfig_Load sample_config = Ok sample_loaded ∧
  rule_of sample_loaded "unlisted" = DefaultRule sample_loaded.
Proof.
  assert (YAMLConfig_Load sample_config = Ok sample_loaded) as H by (by vm_compute).
  split; [exact H|].
  eapply (proj1 (proj2 (YAMLConfig_Load_rules sample_config sample_loaded _ H eq_refl))).
  vm_compute. intros Hin. repeat (apply elem_of_cons in Hin as [Hin|Hin]; [done|]).
  by apply elem_of_nil in Hin.
Defined.

(** The file loader returns an ACL only from a readable file whose decoded
    version is v1, and then it is the ACL of the decoded configuration; every
    other outcome is an error. *)
Theorem YAMLLoader_Load_ok_iff {File} (os_Open : string → result File)
    (ReadAll : File → result string) (yaml_Unmarshal : string → result YAMLConfig)
    (sharp_v : string → string) path acl :
  YAMLLoader_Load os_Open ReadAll yaml_Unmarshal sharp_v path = Ok acl ↔
  ∃ f text cfg, os_Open path = Ok f ∧ ReadAll f = Ok text ∧ yaml_Unmarshal text = Ok cfg ∧
    yc_Version cfg = "v1" ∧ YAMLConfig_Load cfg = Ok acl.
Proof.
  unfold YAMLLoader_Load. rewrite result_bind_ok. split.
  - intros (f & Hf & H). destruct (ReadAll f) as [text|] eqn:Hr; [|done].
    apply result_bind_ok in H as (cfg & Hc & H).
    destruct (String.eqb_spec (yc_Version cfg) "v1"); [|done]. by exists f, text, cfg.
  - intros (f & text & cfg & Hf & Hr & Hc & Hv & Hl). exists f. split; [done|].
    rewrite Hr. apply result_bind_ok. exists cfg. split; [done|].
    by rewrite Hv, String.eqb_refl.
Qed.
