(* ===== verification/AclSpec.v ===== *)
(** * What an ACL file means

    The loader, [New] and [Decide] together, against a reference that reads the
    decisions off the file: the entry of a service, or the default entry, then
    the two global lists, then the action.  [src/pkg/smokescreen/acl/v1]. *)

From S2P Require Import Prelude GoStrings Acl AclYaml.

(** ** The reference *)

(** The entry in force for a service: the one that names it, or the default. *)
Definition file_entry (cfg : YAMLConfig) (service : string) : option YAMLRule :=
  match List.find (λ v, String.eqb (yr_Name v) service) (default [] (yc_Services cfg)) with
  | Some v => Some v
  | None => yc_Default cfg
  end.

Definition action_result (action : string) : DecisionResult :=
  if String.eqb action "open" then Allow
  else if String.eqb action "report" then AllowAndReport
  else Deny.

Definition file_decision (cfg : YAMLConfig) (service host : string) : DecisionResult :=
  match file_entry cfg service with
  | None => Deny
  | Some v =>
      if any_glob host (yr_AllowedHosts v) then Allow
      else if any_glob host (default [] (yc_GlobalDenyList cfg)) then Deny
      else if any_glob host (default [] (yc_GlobalAllowList cfg)) then Allow
      else action_result (yr_Action v)
  end.

(** ** Actions *)
Lemma PolicyFromAction_Ok a p :
  PolicyFromAction a = Ok p ↔
  (a = "open" ∧ p = Open) ∨ (a = "report" ∧ p = Report) ∨ (a = "enforce" ∧ p = Enforce).
Proof.
  unfold PolicyFromAction, EnforcementPolicies. split.
  - destruct (_ !! a) as [q|] eqn:Hq; [|done]. intros [= ->].
    rewrite !lookup_insert_Some, lookup_empty in Hq. naive_solver.
  - by intros [[-> ->]|[[-> ->]|[-> ->]]].
Qed.

Lemma action_policy a p : PolicyFromAction a = Ok p → (p, action_result a) ∈ policy_table.
Proof.
  intros [[-> ->]|[[-> ->]|[-> ->]]]%PolicyFromAction_Ok; apply policy_table_spec; auto.
Qed.

(** [Decide] on a rule whose policy the table knows. *)
Lemma Decide_known acl service host r res :
  rule_of acl service = Some r → (Policy r, res) ∈ policy_table →
  (acl_Decide acl service host).2 = None ∧
  Result (acl_Decide acl service host).1 =
    (if any_glob host (DomainGlobs r) then Allow
     else if any_glob host (GlobalDenyList acl) then Deny
     else if any_glob host (GlobalAllowList acl) then Allow else res).
Proof.
  unfold rule_of, acl_Decide. destruct (acl_Rule acl service) as [rp|]; [|done].
  intros [= <-] Hp%policy_table_spec. destruct (any_glob host (DomainGlobs _)); [done|].
  destruct (any_glob host (GlobalDenyList acl)); [done|].
  destruct (any_glob host (GlobalAllowList acl)); [done|].
  by destruct Hp as [[-> ->]|[[-> ->]|[-> ->]]].
Qed.

(** ** The rule that the entry in force becomes *)
Lemma find_service vs service v :
  NoDup (yr_Name <$> vs) → v ∈ vs → yr_Name v = service →
  List.find (λ v, String.eqb (yr_Name v) service) vs = Some v.
Proof.
  induction vs as [|w vs IH]; simpl; [intros _ H; by apply elem_of_nil in H|].
  intros [Hn Hnd]%NoDup_cons [->|Hin]%elem_of_cons Hv.
  - by rewrite Hv, String.eqb_refl.
  - destruct (String.eqb_spec (yr_Name w) service) as [Hw|]; [|by apply IH].
    destruct Hn. rewrite Hw, <-Hv. by apply list_elem_of_fmap_2.
Qed.

Lemma find_service_none vs service :
  List.find (λ v, String.eqb (yr_Name v) service) vs = None ↔ service ∉ yr_Name <$> vs.
Proof.
  induction vs as [|w vs IH]; simpl; [split; [intros _ H; by apply elem_of_nil in H|done]|].
  rewrite not_elem_of_cons, <-IH. destruct (String.eqb_spec (yr_Name w) service); naive_solver.
Qed.

Lemma loaded_rule cfg services rs d acl service :
  loads_to cfg services rs d acl →
  match file_entry cfg service with
  | None => rule_of acl service = None
  | Some v => ∃ p, PolicyFromAction (yr_Action v) = Ok p ∧ rule_of acl service = Some (yaml_rule v p)
  end.
Proof.
  intros (Hs & HF & Hnd & Hd & ->). unfold file_entry. rewrite Hs. simpl.
  rewrite rule_of_lookup. simpl.
  destruct (List.find _ services) as [v|] eqn:Hf.
  - apply find_some in Hf as [Hin%list_elem_of_In <-%String.eqb_eq].
    destruct (zip_elem_l services rs v) as (r & Hz); [done|by eapply Forall2_length|].
    pose proof (Forall2_zip _ _ _ _ _ HF Hz) as (Hp & Hr & _).
    exists (Policy r). split; [done|]. by rewrite (load_lookup services rs v r), <-Hr.
  - apply find_service_none in Hf.
    rewrite not_elem_of_list_to_map_1.
    + destruct (yc_Default cfg) as [v|]; simpl in Hd; [|done].
      destruct Hd as (p & Hp & ->). by exists p.
    + intros ([k r] & -> & Hin)%list_elem_of_fmap. by apply elem_of_zip_l in Hin.
Qed.

(** Disabling policies changes no decision. *)
Lemma Decide_New_acl acl actions service host :
  acl_Decide (New_acl acl actions) service host = acl_Decide acl service host.
Proof. done. Qed.

Lemma loaded_decides cfg services rs d acl service host :
  loads_to cfg services rs d acl →
  (acl_Decide acl service host).2 = None ∧
  Result (acl_Decide acl service host).1 = file_decision cfg service host.
Proof.
  intros Hl. pose proof (loaded_rule _ _ _ _ _ service Hl) as Hr. unfold file_decision.
  assert (GlobalDenyList acl = default [] (yc_GlobalDenyList cfg) ∧
          GlobalAllowList acl = default [] (yc_GlobalAllowList cfg)) as [<- <-]
    by (by destruct Hl as (_ & _ & _ & _ & ->)).
  destruct (file_entry cfg service) as [v|].
  - destruct Hr as (p & Hp & Hr). by apply (Decide_known _ _ _ (yaml_rule v p)), action_policy.
  - unfold rule_of in Hr. unfold acl_Decide. by destruct (acl_Rule acl service).
Qed.

(** ** Theorems *)

(** What an ACL that [New] returns for a file holds. *)
Lemma file_ACL `{MR : !MapRange string Rule} cfg disabled acl w :
  New (YAMLConfig_Load cfg) disabled = Ok (acl, w) →
  (∀ service host, (acl_Decide acl service host).2 = None ∧
     Result (acl_Decide acl service host).1 = file_decision cfg service host) ∧
  acl_wf acl.
Proof.
  destruct (YAMLConfig_Load cfg) as [acl0|] eqn:Hl; [|done].
  rewrite New_eq. destruct (Validate _) eqn:Hv; [done|]. intros [= <- _].
  apply YAMLConfig_Load_loads_to in Hl as (services & rs & d & Hl). split.
  - intros service host. rewrite Decide_New_acl. by eapply loaded_decides.
  - by apply Validate_None.
Qed.

(** C5: the ACL of a file decides as the file says. When [New] returns an ACL for
    a file, the file could be read and decoded, is of version v1, and for every
    service and host [Decide] returns without error exactly the decision that
    one reads off the file: the entry that names the service, or else the
    default entry, or else denial; a host of the entry is allowed; otherwise
    one of the global deny list is denied, one of the global allow list is
    allowed, and for any other host the action of the entry decides.  No entry
    for a service has one of the disabled actions that come before the first
    which is no action; what comes after that one is not disabled, and nothing
    is asked of the default entry. *)
Theorem acl_file_decides `{MR : !MapRange string Rule} {File} (os_Open : string → result File)
    (ReadAll : File → result string) (yaml_Unmarshal : string → result YAMLConfig)
    (sharp_v : string → string) path disabled acl w :
  New (YAMLLoader_Load os_Open ReadAll yaml_Unmarshal sharp_v path) disabled = Ok (acl, w) →
  ∃ f text cfg, os_Open path = Ok f ∧ ReadAll f = Ok text ∧ yaml_Unmarshal text = Ok cfg ∧
    yc_Version cfg = "v1" ∧
    (∀ service host, (acl_Decide acl service host).2 = None ∧
       Result (acl_Decide acl service host).1 = file_decision cfg service host) ∧
    ∀ v p, v ∈ default [] (yc_Services cfg) → PolicyFromAction (yr_Action v) = Ok p →
      p ∉ known_prefix disabled.
Proof.
  intros H. destruct (YAMLLoader_Load _ _ _ _ _) as [acl0|] eqn:Hl; [|done].
  apply YAMLLoader_Load_ok_iff in Hl as (f & text & cfg & Hf & Hr & Hc & Hv & Hl).
  rewrite <-Hl in H. destruct (file_ACL _ _ _ _ H) as [Hd Hwf].
  exists f, text, cfg. split_and!; [done..|]. intros v p Hin Hp.
  rewrite Hl, New_eq in H. destruct (Validate _); [done|]. injection H as <- _.
  apply YAMLConfig_Load_loads_to in Hl as (services & rs & d & Hs & HF & Hnd & _ & ->).
  rewrite Hs in Hin. simpl in Hin.
  destruct (zip_elem_l services rs v) as (r & Hz); [done|by eapply Forall2_length|].
  pose proof (Forall2_zip _ _ _ _ _ HF Hz) as (Hp' & _ & _). rewrite Hp in Hp'.
  destruct (Hwf (yr_Name v) r) as [_ Hw]; [simpl; by apply (load_lookup services rs v r)|].
  injection Hp' as ->. exact Hw.
Qed.

Definition one_file (path : string) : result string :=
  if String.eqb path "acl.yaml" then Ok "text" else Fail (Err "no such file").
Definition decode_sample (text : string) : result YAMLConfig := Ok sample_config.

Lemma acl_file_decides_witness :
  ∃ acl w, New (MR := canonical_range string Rule)
      (YAMLLoader_Load one_file Ok decode_sample (λ s, s) "acl.yaml") [] = Ok (acl, w) ∧
    Result (acl_Decide acl "open-dummy-srv" "badexample2.com").1 = Deny ∧
    ∃ cfg, decode_sample "text" = Ok cfg ∧ ∀ service host,
      Result (acl_Decide acl service host).1 = file_decision cfg service host.
Proof.
  destruct (New (MR := canonical_range string Rule)
      (YAMLLoader_Load one_file Ok decode_sample (λ s, s) "acl.yaml") []) as [[acl w]|] eqn:H;
    [|vm_compute in H; discriminate H].
  exists acl, w. split; [reflexivity|].
  destruct (@acl_file_decides (canonical_range string Rule) string one_file Ok decode_sample
    (λ s, s) "acl.yaml" [] acl w H) as (f & text & cfg & _ & _ & Hc & _ & Hd & _).
  injection Hc as <-. split.
  - rewrite (proj2 (Hd "open-dummy-srv" "badexample2.com")). vm_compute. reflexivity.
  - exists sample_config. split; [reflexivity|]. intros service host. apply Hd.
Defined.

(** ** Spellings of a host *)

Lemma covers_dot g host : covers g (host +:+ ".") → g = "*" ∨ HasSuffix g "." = true.
Proof.
  rewrite HasSuffix_spec. intros [(suffix & p & -> & Hs)|[_ <-]]; [|right; by exists host].
  destruct (decide (suffix = "")) as [->|Hne]; [by left|right].
  set (n := (String.length suffix - 1)%nat).
  rewrite <-(str_take_drop n suffix), app_str_assoc in Hs.
  apply app_str_inv_length in Hs as [_ Hd].
  - exists ("*" +:+ str_take n suffix). by rewrite <-app_str_assoc, Hd, str_take_drop.
  - rewrite length_str_drop. unfold n. destruct suffix; [done|]. simpl. lia.
Qed.

(** C38: the global deny list compares spellings, not names. A name with a final
    dot denotes the same host in the DNS, but no entry of a deny list covers it
    unless the entry itself ends in a dot (or is the bare wildcard): under an
    open or a report policy, adding a dot to a denied host gets past the list. *)
Theorem trailing_dot_evades_deny_list acl service host r :
  rule_of acl service = Some r → Policy r = Open ∨ Policy r = Report →
  (∀ g, g ∈ GlobalDenyList acl → g ≠ "*" ∧ HasSuffix g "." = false) →
  Result (acl_Decide acl service (host +:+ ".")).1 ≠ Deny.
Proof.
  intros Hr Hp Hg.
  assert (∃ res, (Policy r, res) ∈ policy_table ∧ res ≠ Deny) as (res & Ht & Hne).
  { setoid_rewrite policy_table_spec. destruct Hp as [->| ->]; eauto 10. }
  destruct (Decide_known acl service (host +:+ ".") r res Hr Ht) as [_ ->].
  assert (any_glob (host +:+ ".") (GlobalDenyList acl) = false) as ->.
  { apply any_glob_not_listed. intros (g & Hin & Hd%covers_dot). destruct (Hg g Hin), Hd; congruence. }
  by repeat destruct (any_glob _ _).
Qed.

Lemma trailing_dot_evades_deny_list_witness :
  Result (acl_Decide sample_loaded "open-dummy-srv" "badexample2.com").1 = Deny ∧
  Result (acl_Decide sample_loaded "open-dummy-srv" ("badexample2.com" +:+ ".")).1 ≠ Deny.
Proof.
  split; [by vm_compute|].
  apply (trailing_dot_evades_deny_list sample_loaded "open-dummy-srv" "badexample2.com"
    (mkRule "automation" Open [])); [by vm_compute|by left|].
  change (GlobalDenyList sample_loaded)
    with ["badexample1.com"; "badexample2.com"; "conflictingexample.com"].
  intros g Hin. repeat (apply elem_of_cons in Hin as [->|Hin]; [by vm_compute|]).
  by apply elem_of_nil in Hin.
Defined.
