(* ===== verification/Http.v ===== *)
(** * Requests, responses and headers of [net/http]

    The fields that the source reads or writes.  Header maps are keyed by
    canonical names; [Get], [Set] and [Del] canonicalise the name they are
    given, as Go's do. *)

From S2P Require Import Prelude GoStrings.

Definition is_lower : ascii → bool := in_range "a"%char "z"%char.
Definition is_upper : ascii → bool := in_range "A"%char "Z"%char.
Definition to_upper (c : ascii) : ascii :=
  if is_lower c then ascii_of_N (N_of_ascii c - 32) else c.
Definition to_lower (c : ascii) : ascii :=
  if is_upper c then ascii_of_N (N_of_ascii c + 32) else c.

(** Token bytes of RFC 7230. *)
Definition is_token (c : ascii) : bool :=
  is_lower c || is_upper c || is_digit c ||
  existsb (Ascii.eqb c) ["!"; "#"; "$"; "%"; "&"; "'"; "*"; "+"; "-"; "."; "^"; "_"; "`"; "|"; "~"]%char.

Fixpoint canonical_go (upper : bool) (s : string) : string :=
  match s with
  | EmptyString => EmptyString
  | String c s =>
      String (if upper then to_upper c else to_lower c)
        (canonical_go (Ascii.eqb c "-"%char) s)
  end.

(** [textproto.CanonicalMIMEHeaderKey] *)
Definition CanonicalHeaderKey (s : string) : string :=
  if str_all is_token s then canonical_go true s else s.

Abbreviation Header := (gmap string (list string)).

Definition Header_Get (h : Header) (key : string) : string :=
  match h !! CanonicalHeaderKey key with
  | Some (v :: _) => v
  | _ => EmptyString
  end.
Definition Header_Set (h : Header) (key value : string) : Header :=
  <[CanonicalHeaderKey key := [value]]> h.
Definition Header_Del (h : Header) (key : string) : Header :=
  delete (CanonicalHeaderKey key) h.

(** The parts of a peer certificate that identify a client. *)
Record Certificate := mkCertificate {
  CommonName : string;
  OrganizationalUnit : list string
}.

Record Request := mkRequest {
  Method : string;
  Host : string;
  Scheme : string;           (* req.URL.Scheme *)
  URL_Host : string;         (* req.URL.Host *)
  Path : string;             (* req.URL.Path *)
  RequestURI : string;
  RemoteAddr : string;
  ProtoMajor : Z;
  ProtoMinor : Z;
  ReqHeader : Header;
  PeerCertificates : option (list Certificate)  (* None when req.TLS is nil *)
}.

Definition set_ReqHeader (r : Request) (h : Header) : Request :=
  mkRequest (Method r) (Host r) (Scheme r) (URL_Host r) (Path r) (RequestURI r)
    (RemoteAddr r) (ProtoMajor r) (ProtoMinor r) h (PeerCertificates r).

Record Response := mkResponse {
  Status : string;
  StatusCode : Z;
  RespProtoMajor : Z;
  RespProtoMinor : Z;
  RespHeader : Header;
  Body : string;
  ContentLength : Z
}.

Definition set_RespHeader (r : Response) (h : Header) : Response :=
  mkResponse (Status r) (StatusCode r) (RespProtoMajor r) (RespProtoMinor r) h
    (Body r) (ContentLength r).

(** ** Header lemmas *)
Lemma Header_Get_Del h k : Header_Get (Header_Del h k) k = "".
Proof. unfold Header_Get, Header_Del. by rewrite lookup_delete_eq. Qed.

Lemma Header_Get_Set h k v : Header_Get (Header_Set h k v) k = v.
Proof. unfold Header_Get, Header_Set. by rewrite lookup_insert_eq. Qed.

Lemma Header_Get_Del_ne h k k' :
  CanonicalHeaderKey k ≠ CanonicalHeaderKey k' →
  Header_Get (Header_Del h k) k' = Header_Get h k'.
Proof. intros. unfold Header_Get, Header_Del. by rewrite lookup_delete_ne. Qed.
