(* ===== verification/Config.v ===== *)
(** * Configuration: address ranges and the setters that fill them

    [src/pkg/smokescreen/config.go] (data, ranges, resolver, statsd, ACL) and
    [constants.go]. *)

From S2P Require Import Prelude GoStrings GoNet GoIPv6 Acl Http.

(** ** Data *)
Record RuleRange := mkRuleRange { rr_Net : IPNet; rr_Port : Z }.

#[global] Instance RuleRange_eq_dec : EqDecision RuleRange.
Proof. solve_decision. Defined.

(** [*net.Resolver]: nil is the system resolver, otherwise DNS over UDP to one
    address. *)
Inductive ResolverRef :=
| SystemResolver
| UDPResolver (addr : string).

Record StatsdRef := mkStatsdRef { statsd_addr : string; statsd_Namespace : string }.

(** The fields of [Config]; those with TLS state are in [Tls.v], the tracker and
    the shutdown flag in [Shutdown.v], the statistics server in [Services.v],
    and the logger is part of the process state.  A nil interface or function
    is [None].  [FileMode] is a 32-bit unsigned integer, durations are
    nanoseconds. *)
Record Config := mkConfig {
  Ip : string;
  Port : Z;
  DenyRanges : list RuleRange;
  AllowRanges : list RuleRange;
  Resolver : ResolverRef;
  ConnectTimeout : Z;
  ExitTimeout : Z;
  StatsdClient : option StatsdRef;
  EgressACL : option (string → string → Decision * option error);
  SupportProxyProtocol : bool;
  RoleFromRequest : option (Request → string * option error);
  AdditionalErrorMessageOnDeny : string;
  DisabledAclPolicyActions : list string;
  AllowMissingRole : bool;
  StatsSocketDir : string;
  StatsSocketFileMode : Z;
  IdleThreshold : Z
}.

Definition second : Z := 1000000000.
Definition minute : Z := 60 * second.

Definition NewConfig : Config :=
  mkConfig "" 4750 [] [] SystemResolver 0 (500 * minute) None None false None "" [] false ""
    448 (* 0700 *) (10 * second).

(** ** Setters used by the operations below *)
Definition with_DenyRanges (c : Config) (r : list RuleRange) : Config :=
  mkConfig (Ip c) (Port c) r (AllowRanges c) (Resolver c) (ConnectTimeout c) (ExitTimeout c)
    (StatsdClient c) (EgressACL c) (SupportProxyProtocol c) (RoleFromRequest c)
    (AdditionalErrorMessageOnDeny c) (DisabledAclPolicyActions c) (AllowMissingRole c)
    (StatsSocketDir c) (StatsSocketFileMode c) (IdleThreshold c).
Definition with_AllowRanges (c : Config) (r : list RuleRange) : Config :=
  mkConfig (Ip c) (Port c) (DenyRanges c) r (Resolver c) (ConnectTimeout c) (ExitTimeout c)
    (StatsdClient c) (EgressACL c) (SupportProxyProtocol c) (RoleFromRequest c)
    (AdditionalErrorMessageOnDeny c) (DisabledAclPolicyActions c) (AllowMissingRole c)
    (StatsSocketDir c) (StatsSocketFileMode c) (IdleThreshold c).
Definition with_Resolver (c : Config) (r : ResolverRef) : Config :=
  mkConfig (Ip c) (Port c) (DenyRanges c) (AllowRanges c) r (ConnectTimeout c) (ExitTimeout c)
    (StatsdClient c) (EgressACL c) (SupportProxyProtocol c) (RoleFromRequest c)
    (AdditionalErrorMessageOnDeny c) (DisabledAclPolicyActions c) (AllowMissingRole c)
    (StatsSocketDir c) (StatsSocketFileMode c) (IdleThreshold c).
Definition with_StatsdClient (c : Config) (s : option StatsdRef) : Config :=
  mkConfig (Ip c) (Port c) (DenyRanges c) (AllowRanges c) (Resolver c) (ConnectTimeout c)
    (ExitTimeout c) s (EgressACL c) (SupportProxyProtocol c) (RoleFromRequest c)
    (AdditionalErrorMessageOnDeny c) (DisabledAclPolicyActions c) (AllowMissingRole c)
    (StatsSocketDir c) (StatsSocketFileMode c) (IdleThreshold c).
Definition with_EgressACL (c : Config) (a : option (string → string → Decision * option error)) : Config :=
  mkConfig (Ip c) (Port c) (DenyRanges c) (AllowRanges c) (Resolver c) (ConnectTimeout c)
    (ExitTimeout c) (StatsdClient c) a (SupportProxyProtocol c) (RoleFromRequest c)
    (AdditionalErrorMessageOnDeny c) (DisabledAclPolicyActions c) (AllowMissingRole c)
    (StatsSocketDir c) (StatsSocketFileMode c) (IdleThreshold c).

Definition with_Ip (c : Config) (x : string) : Config :=
  mkConfig x (Port c) (DenyRanges c) (AllowRanges c) (Resolver c) (ConnectTimeout c)
    (ExitTimeout c) (StatsdClient c) (EgressACL c) (SupportProxyProtocol c) (RoleFromRequest c)
    (AdditionalErrorMessageOnDeny c) (DisabledAclPolicyActions c) (AllowMissingRole c)
    (StatsSocketDir c) (StatsSocketFileMode c) (IdleThreshold c).
Definition with_Port (c : Config) (x : Z) : Config :=
  mkConfig (Ip c) x (DenyRanges c) (AllowRanges c) (Resolver c) (ConnectTimeout c)
    (ExitTimeout c) (StatsdClient c) (EgressACL c) (SupportProxyProtocol c) (RoleFromRequest c)
    (AdditionalErrorMessageOnDeny c) (DisabledAclPolicyActions c) (AllowMissingRole c)
    (StatsSocketDir c) (StatsSocketFileMode c) (IdleThreshold c).
Definition with_ConnectTimeout (c : Config) (x : Z) : Config :=
  mkConfig (Ip c) (Port c) (DenyRanges c) (AllowRanges c) (Resolver c) x (ExitTimeout c)
    (StatsdClient c) (EgressACL c) (SupportProxyProtocol c) (RoleFromRequest c)
    (AdditionalErrorMessageOnDeny c) (DisabledAclPolicyActions c) (AllowMissingRole c)
    (StatsSocketDir c) (StatsSocketFileMode c) (IdleThreshold c).
Definition with_ExitTimeout (c : Config) (x : Z) : Config :=
  mkConfig (Ip c) (Port c) (DenyRanges c) (AllowRanges c) (Resolver c) (ConnectTimeout c) x
    (StatsdClient c) (EgressACL c) (SupportProxyProtocol c) (RoleFromRequest c)
    (AdditionalErrorMessageOnDeny c) (DisabledAclPolicyActions c) (AllowMissingRole c)
    (StatsSocketDir c) (StatsSocketFileMode c) (IdleThreshold c).
Definition with_SupportProxyProtocol (c : Config) (x : bool) : Config :=
  mkConfig (Ip c) (Port c) (DenyRanges c) (AllowRanges c) (Resolver c) (ConnectTimeout c)
    (ExitTimeout c) (StatsdClient c) (EgressACL c) x (RoleFromRequest c)
    (AdditionalErrorMessageOnDeny c) (DisabledAclPolicyActions c) (AllowMissingRole c)
    (StatsSocketDir c) (StatsSocketFileMode c) (IdleThreshold c).
Definition with_AdditionalErrorMessageOnDeny (c : Config) (x : string) : Config :=
  mkConfig (Ip c) (Port c) (DenyRanges c) (AllowRanges c) (Resolver c) (ConnectTimeout c)
    (ExitTimeout c) (StatsdClient c) (EgressACL c) (SupportProxyProtocol c) (RoleFromRequest c)
    x (DisabledAclPolicyActions c) (AllowMissingRole c) (StatsSocketDir c)
    (StatsSocketFileMode c) (IdleThreshold c).
Definition with_DisabledAclPolicyActions (c : Config) (x : list string) : Config :=
  mkConfig (Ip c) (Port c) (DenyRanges c) (AllowRanges c) (Resolver c) (ConnectTimeout c)
    (ExitTimeout c) (StatsdClient c) (EgressACL c) (SupportProxyProtocol c) (RoleFromRequest c)
    (AdditionalErrorMessageOnDeny c) x (AllowMissingRole c) (StatsSocketDir c)
    (StatsSocketFileMode c) (IdleThreshold c).
Definition with_AllowMissingRole (c : Config) (x : bool) : Config :=
  mkConfig (Ip c) (Port c) (DenyRanges c) (AllowRanges c) (Resolver c) (ConnectTimeout c)
    (ExitTimeout c) (StatsdClient c) (EgressACL c) (SupportProxyProtocol c) (RoleFromRequest c)
    (AdditionalErrorMessageOnDeny c) (DisabledAclPolicyActions c) x (StatsSocketDir c)
    (StatsSocketFileMode c) (IdleThreshold c).
Definition with_StatsSocketDir (c : Config) (x : string) : Config :=
  mkConfig (Ip c) (Port c) (DenyRanges c) (AllowRanges c) (Resolver c) (ConnectTimeout c)
    (ExitTimeout c) (StatsdClient c) (EgressACL c) (SupportProxyProtocol c) (RoleFromRequest c)
    (AdditionalErrorMessageOnDeny c) (DisabledAclPolicyActions c) (AllowMissingRole c) x
    (StatsSocketFileMode c) (IdleThreshold c).
Definition with_StatsSocketFileMode (c : Config) (x : Z) : Config :=
  mkConfig (Ip c) (Port c) (DenyRanges c) (AllowRanges c) (Resolver c) (ConnectTimeout c)
    (ExitTimeout c) (StatsdClient c) (EgressACL c) (SupportProxyProtocol c) (RoleFromRequest c)
    (AdditionalErrorMessageOnDeny c) (DisabledAclPolicyActions c) (AllowMissingRole c)
    (StatsSocketDir c) x (IdleThreshold c).
Definition with_RoleFromRequest (c : Config) (x : option (Request → string * option error)) : Config :=
  mkConfig (Ip c) (Port c) (DenyRanges c) (AllowRanges c) (Resolver c) (ConnectTimeout c)
    (ExitTimeout c) (StatsdClient c) (EgressACL c) (SupportProxyProtocol c) x
    (AdditionalErrorMessageOnDeny c) (DisabledAclPolicyActions c) (AllowMissingRole c)
    (StatsSocketDir c) (StatsSocketFileMode c) (IdleThreshold c).

(** ** Ranges *)
Fixpoint parseRanges (rangeStrings : list string) : result (list RuleRange) :=
  match rangeStrings with
  | [] => Ok []
  | str :: rest =>
      let? ipnet := ParseCIDR str in
      let? ranges := parseRanges rest in
      Ok (mkRuleRange ipnet 0 :: ranges)
  end.

(** The network of one address: a full-length mask of its family. *)
Definition host_net (ip : IP) : IPNet :=
  mkIPNet ip (match To4 ip with
              | Some _ => CIDRMask 32 32
              | None => CIDRMask 128 128
              end).

(** One iteration of the loop of [parseAddresses]. *)
Definition parse_address (str : string) : result RuleRange :=
  match ParseIP str with
  | Some ip => Ok (mkRuleRange (host_net ip) 0)
  | None =>
      match SplitHostPort str with
      | Fail _ => Fail (Err ("address must be in the form ip[:port], got " +:+ str))
      | Ok (ipStr, portStr) =>
          match ParseIP ipStr with
          | None => Fail (Err ("invalid IP address '" +:+ ipStr +:+ "'"))
          | Some ip =>
              match Atoi portStr with
              | inr _ => Fail (Err ("invalid port number '" +:+ portStr +:+ "'"))
              | inl port => Ok (mkRuleRange (host_net ip) port)
              end
          end
      end
  end.

Fixpoint parseAddresses (addressStrings : list string) : result (list RuleRange) :=
  match addressStrings with
  | [] => Ok []
  | str :: rest =>
      let? r := parse_address str in
      let? ranges := parseAddresses rest in
      Ok (r :: ranges)
  end.

(** A setter returns the configuration after the call and the error. *)
Definition SetDenyRanges (c : Config) (rangeStrings : list string) : Config * option error :=
  match parseRanges rangeStrings with
  | Fail err => (c, Some err)
  | Ok ranges => (with_DenyRanges c (DenyRanges c ++ ranges), None)
  end.

Definition SetAllowRanges (c : Config) (rangeStrings : list string) : Config * option error :=
  match parseRanges rangeStrings with
  | Fail err => (c, Some err)
  | Ok ranges => (with_AllowRanges c (AllowRanges c ++ ranges), None)
  end.

Definition SetDenyAddresses (c : Config) (addressStrings : list string) : Config * option error :=
  match parseAddresses addressStrings with
  | Fail err => (c, Some err)
  | Ok ranges => (with_DenyRanges c (DenyRanges c ++ ranges), None)
  end.

Definition SetAllowAddresses (c : Config) (addressStrings : list string) : Config * option error :=
  match parseAddresses addressStrings with
  | Fail err => (c, Some err)
  | Ok ranges => (with_AllowRanges c (AllowRanges c ++ ranges), None)
  end.

Definition SetResolverAddresses (c : Config) (resolverAddresses : list string)
    : Config * option error :=
  match resolverAddresses with
  | [] => (c, None)
  | [addr] =>
      match SplitHostPort addr with
      | Fail err => (c, Some err)
      | Ok _ => (with_Resolver c (UDPResolver addr), None)
      end
  | _ => (c, Some (Err ("only one resolver address allowed, "
                        +:+ itoa (Z.of_nat (length resolverAddresses)) +:+ " provided")))
  end.

(** ** constants.go *)
Definition versionSemantic : string := "0.0.1".
Definition versionHash : string := "$Id: f220e479c5d8d85c7b753e95dc5fe0b67bbfbd38 $".
Definition Version : string :=
  versionSemantic +:+ "-" +:+ str_take 8 (str_drop 5 versionHash).

Definition DefaultStatsdNamespace : string := "smokescreen.".

Definition privateNetworkStrings : list string :=
  ["10.0.0.0/8"; "172.16.0.0/12"; "192.168.0.0/16"; "fc00::/7"].

(** The package's [init]: [None] is the panic of an unparsable constant. *)
Definition init_PrivateRuleRanges : option (list RuleRange) :=
  match parseRanges privateNetworkStrings with Ok r => Some r | Fail _ => None end.

Definition PrivateRuleRanges : list RuleRange := default [] init_PrivateRuleRanges.

(** ** Statsd and ACL setup; the statsd client and the ACL loader are
    parameters *)
Section setup.
  Variable statsd_New : string → result unit.
  Context `{MR : !MapRange string Rule}.
  Variable load_acl : string → result ACL.

Definition SetupStatsdWithNamespace (c : Config) (addr namespace : string)
    : Config * option error :=
  if String.eqb addr "" then (with_StatsdClient c None, None)
  else match statsd_New addr with
       | Fail err => (c, Some err)
       | Ok _ => (with_StatsdClient c (Some (mkStatsdRef addr namespace)), None)
       end.

Definition SetupStatsd (c : Config) (addr : string) : Config * option error :=
  SetupStatsdWithNamespace c addr DefaultStatsdNamespace.

Definition SetupEgressAcl (c : Config) (aclFile : string) : Config * option error :=
  if String.eqb aclFile "" then (with_EgressACL c None, None)
  else match New (load_acl aclFile) (DisabledAclPolicyActions c) with
       | Fail err => (c, Some err)
       | Ok (acl, _) => (with_EgressACL c (Some (Decide acl)), None)
       end.

End setup.

(** ** Ranges denote prefixes *)
Definition range_wf (r : RuleRange) : Prop := ∃ nn k, net_prefix (rr_Net r) nn k.

Definition ranges_wf (c : Config) : Prop :=
  Forall range_wf (DenyRanges c) ∧ Forall range_wf (AllowRanges c).

Lemma parseRanges_wf strs rs : parseRanges strs = Ok rs → Forall range_wf rs.
Proof.
  revert rs. induction strs as [|s strs IH]; intros rs; simpl; [intros [= <-]; constructor|].
  rewrite result_bind_ok. setoid_rewrite result_bind_ok.
  intros (net & (p & k & Hl & Hb & Hk & ->)%ParseCIDR_inv & rest & Hrest%IH & [= <-]).
  constructor; [|done]. by apply cidr_prefix.
Qed.

(** A single-address network denotes that address. *)
Lemma host_net_prefix ip :
  bytes ip → length ip = 4%nat ∨ length ip = 16%nat →
  net_prefix (host_net ip) (canon ip) (8 * Z.of_nat (length (canon ip))).
Proof.
  intros Hb Hl. unfold host_net, net_prefix, networkNumberAndMask.
  cbn [net_IP net_Mask]. change (match To4 ip with Some x => x | None => ip end) with (canon ip).
  assert (bytes (canon ip)) as Hbc by by apply bytes_canon.
  destruct (canon_cases ip) as [[L C]|[(L & x & Lx & E & C)|(L & N & C)]].
  - rewrite To4_len4, C, L by done. split_and!; try done; [by left].
  - rewrite C in *. assert (To4 ip = Some x) as -> by (rewrite E; unfold To4, canon in *; simpl; rewrite Lx; done).
    rewrite Lx. split_and!; try done; [by left].
  - assert (To4 ip = None) as ->.
    { unfold To4. rewrite !decide_False; unfold IPv4len, IPv6len; [done|naive_solver|lia]. }
    rewrite C. destruct Hl as [Hl|Hl]; [done|]. rewrite Hl. split_and!; try done; [by right].
Qed.

Lemma Contains_host_net ip x :
  bytes ip → length ip = 4%nat ∨ length ip = 16%nat → bytes x →
  Contains_IP (host_net ip) x = true ↔ x ≈ip ip.
Proof.
  intros Hb Hl Hx. rewrite Contains_prefix by (done || by apply host_net_prefix).
  apply agree_full; by apply bytes_canon.
Qed.

Lemma parse_address_shape str r :
  parse_address str = Ok r → ∃ ip port, bytes ip ∧ length ip = 16%nat ∧ r = mkRuleRange (host_net ip) port.
Proof.
  unfold parse_address. destruct (ParseIP str) as [ip|] eqn:E.
  { apply ParseIP_bytes in E as []. intros [= <-]. by exists ip, 0. }
  destruct (SplitHostPort str) as [[ipStr portStr]|]; [|done].
  destruct (ParseIP ipStr) as [ip|] eqn:E'; [|done]. apply ParseIP_bytes in E' as [].
  destruct (Atoi portStr) as [port|]; [|done]. intros [= <-]. by exists ip, port.
Qed.

Lemma parseAddresses_wf strs rs : parseAddresses strs = Ok rs → Forall range_wf rs.
Proof.
  revert rs. induction strs as [|s strs IH]; intros rs; simpl; [intros [= <-]; constructor|].
  rewrite result_bind_ok. setoid_rewrite result_bind_ok.
  intros (r & (ip & port & Hb & Hl & ->)%parse_address_shape & rest & Hrest%IH & [= <-]).
  constructor; [|done]. eexists _, _. apply host_net_prefix; auto.
Qed.

(** ** Operations on the address part of a configuration *)
Inductive RangeOp :=
| OpDenyRanges (l : list string)
| OpAllowRanges (l : list string)
| OpDenyAddresses (l : list string)
| OpAllowAddresses (l : list string)
| OpResolver (l : list string).

Definition run_op (c : Config) (op : RangeOp) : Config * option error :=
  match op with
  | OpDenyRanges l => SetDenyRanges c l
  | OpAllowRanges l => SetAllowRanges c l
  | OpDenyAddresses l => SetDenyAddresses c l
  | OpAllowAddresses l => SetAllowAddresses c l
  | OpResolver l => SetResolverAddresses c l
  end.

Lemma run_op_wf c op : ranges_wf c → ranges_wf (run_op c op).1.
Proof.
  intros [Hd Ha].
  destruct op as [l|l|l|l|l]; simpl;
    unfold SetDenyRanges, SetAllowRanges, SetDenyAddresses, SetAllowAddresses.
  1,2: destruct (parseRanges l) eqn:E; [apply parseRanges_wf in E|done].
  3,4: destruct (parseAddresses l) eqn:E; [apply parseAddresses_wf in E|done].
  1-4: split; simpl; try done; by apply Forall_app.
  destruct l as [|a [|b l]]; [done| |done]. simpl. by destruct (SplitHostPort a).
Qed.

(** Whatever address setters are called, in whatever order and with
    whatever strings, every configured range denotes a network prefix; and a
    setter that returns an error leaves the configuration as it was. *)
Theorem setters_keep_ranges_wf ops op :
  ranges_wf (foldl (λ c op, (run_op c op).1) NewConfig ops) ∧
  (∀ c err, (run_op c op).2 = Some err → (run_op c op).1 = c).
Proof.
  split.
  - assert (ranges_wf NewConfig) as Hwf by (split; constructor).
    revert Hwf. generalize NewConfig as c. induction ops as [|o ops IH]; intros c Hc; [done|].
    apply IH. by apply run_op_wf.
  - intros c err. destruct op as [l|l|l|l|l]; simpl;
      unfold SetDenyRanges, SetAllowRanges, SetDenyAddresses, SetAllowAddresses, SetResolverAddresses.
    1-4: by repeat case_match.
    destruct l as [|a [|b l]]; [done| |done]. by destruct (SplitHostPort a).
Qed.

Lemma setters_keep_ranges_wf_witness :
  (run_op NewConfig (OpDenyRanges ["10.0.0.0"])).2 ≠ None ∧
  (run_op NewConfig (OpDenyRanges ["10.0.0.0"])).1 = NewConfig.
Proof.
  split; [by vm_compute|].
  apply (proj2 (setters_keep_ranges_wf [] (OpDenyRanges ["10.0.0.0"]))
           NewConfig (cidr_error "10.0.0.0")). by vm_compute.
Defined.

(** C37: a range written as an address and a prefix length, IPv4 or IPv6, is
    accepted and matches, on every port, exactly the addresses of the same
    family whose first [k] bits are those of the address written, in either
    spelling of an IPv4 address (4 bytes or IPv4-in-IPv6). *)
Theorem parseRanges_cidr a k ip :
  bytes a → length a = 4%nat ∨ length a = 16%nat → bytes ip →
  0 ≤ k ≤ 8 * Z.of_nat (length (canon a)) →
  ∃ r, parseRanges [IP_String a +:+ "/" +:+ itoa k] = Ok [r] ∧ rr_Port r = 0 ∧
  (Contains_IP (rr_Net r) ip = true ↔ agree (canon a) k (canon ip)).
Proof.
  intros Hb Hl Hip Hk. destruct (ParseCIDR_String a k ip Hb Hl Hip Hk) as (net & Hn & Hc).
  exists (mkRuleRange net 0). cbn [parseRanges]. by rewrite Hn.
Qed.

Lemma parseRanges_cidr_witness :
  (∃ r, parseRanges ["172.16.0.0/12"] = Ok [r] ∧ rr_Port r = 0 ∧
   (Contains_IP (rr_Net r) (IPv4 172 31 255 255) = true ↔
    agree [172; 16; 0; 0] 12 [172; 31; 255; 255])) ∧
  ∃ r, parseRanges ["fc00::/7"] = Ok [r] ∧ rr_Port r = 0 ∧
   (Contains_IP (rr_Net r) (replicate 16 253) = true ↔
    agree (252 :: replicate 15 0) 7 (replicate 16 253)).
Proof.
  split.
  - apply (parseRanges_cidr [172; 16; 0; 0] 12 (IPv4 172 31 255 255));
      [repeat constructor; by vm_compute|by left|repeat constructor; by vm_compute|by vm_compute].
  - apply (parseRanges_cidr (252 :: replicate 15 0) 7 (replicate 16 253));
      [repeat constructor; by vm_compute|by right|repeat constructor; by vm_compute|by vm_compute].
Defined.

(** An address written alone or with a port ([a.b.c.d], [a.b.c.d:port],
    an IPv6 address, or one in brackets with a port) is accepted and its range
    matches that one host (an IPv4 host in either spelling) and, when a port is
    written, carries that port. *)
Theorem parseAddresses_host a port ip :
  bytes a → length a = 4%nat ∨ length a = 16%nat → 0 ≤ port < 65536 → bytes ip →
  ∃ net, parseAddresses [IP_String a; JoinHostPort (IP_String a) (itoa port)] =
           Ok [mkRuleRange net 0; mkRuleRange net port] ∧
  (Contains_IP net ip = true ↔ ip ≈ip a).
Proof.
  intros Hb Hl Hport Hip. destruct (ParseIP_String a Hb Hl) as (a' & Ha & Hs).
  exists (host_net a'). split.
  - cbn [parseAddresses]. unfold parse_address. rewrite Ha, ParseIP_with_port by done.
    cbn [result_bind].
    rewrite SplitHostPort_JoinHostPort; try (apply has_byte_IP_String; tauto);
      try (apply digits_no_byte; [done|apply itoa_digits; lia]).
    by rewrite Ha, Atoi_itoa by lia.
  - apply ParseIP_bytes in Ha as [Hb' Hl'].
    rewrite Contains_host_net by auto. unfold same_ip in *. by rewrite Hs.
Qed.

Lemma parseAddresses_host_witness :
  (∃ net, parseAddresses ["10.1.2.3"; "10.1.2.3:8080"] =
           Ok [mkRuleRange net 0; mkRuleRange net 8080] ∧
   (Contains_IP net (IPv4 10 1 2 3) = true ↔ IPv4 10 1 2 3 ≈ip [10; 1; 2; 3])) ∧
  ∃ net, parseAddresses ["::1"; "[::1]:8080"] =
           Ok [mkRuleRange net 0; mkRuleRange net 8080] ∧
   (Contains_IP net IPv6loopback = true ↔ IPv6loopback ≈ip IPv6loopback).
Proof.
  split.
  - apply (parseAddresses_host [10; 1; 2; 3] 8080 (IPv4 10 1 2 3));
      [repeat constructor; by vm_compute|by left|lia|repeat constructor; by vm_compute].
  - apply (parseAddresses_host IPv6loopback 8080 IPv6loopback);
      [repeat constructor; by vm_compute|by right|lia|repeat constructor; by vm_compute].
Defined.
