(* ===== verification/Classify.v ===== *)
(** * Classification of destination addresses

    [src/pkg/smokescreen/smokescreen.go], from [ipType] to [classifyAddr]: the
    check that keeps the proxy out of internal networks. *)

From S2P Require Import Prelude GoStrings GoNet Acl Http Config.

Inductive ipType :=
| ipAllowDefault
| ipAllowUserConfigured
| ipDenyNotGlobalUnicast
| ipDenyPrivateRange
| ipDenyUserConfigured.

#[global] Instance ipType_eq_dec : EqDecision ipType.
Proof. solve_decision. Defined.

Definition IsAllowed (t : ipType) : bool :=
  match t with
  | ipAllowDefault | ipAllowUserConfigured => true
  | _ => false
  end.

Definition ipType_String (t : ipType) : string :=
  match t with
  | ipAllowDefault => "Allow: Default"
  | ipAllowUserConfigured => "Allow: User Configured"
  | ipDenyNotGlobalUnicast => "Deny: Not Global Unicast"
  | ipDenyPrivateRange => "Deny: Private Range"
  | ipDenyUserConfigured => "Deny: User Configured"
  end.

Definition statsdString (t : ipType) : string :=
  match t with
  | ipAllowDefault => "resolver.allow.default"
  | ipAllowUserConfigured => "resolver.allow.user_configured"
  | ipDenyNotGlobalUnicast => "resolver.deny.not_global_unicast"
  | ipDenyPrivateRange => "resolver.deny.private_range"
  | ipDenyUserConfigured => "resolver.deny.user_configured"
  end.

(** One range against an address: a port of 0 stands for any port. *)
Definition range_matches (addr : TCPAddr) (rng : RuleRange) : bool :=
  if negb (rr_Port rng =? 0) && negb (tcp_Port addr =? rr_Port rng) then false
  else Contains_IP (rr_Net rng) (tcp_IP addr).

Definition addrIsInRuleRange (ranges : list RuleRange) (addr : TCPAddr) : bool :=
  existsb (range_matches addr) ranges.

Definition classifyAddr (config : Config) (addr : TCPAddr) : ipType :=
  if negb (IsGlobalUnicast (tcp_IP addr)) || IsLoopback (tcp_IP addr) then
    if addrIsInRuleRange (AllowRanges config) addr
    then ipAllowUserConfigured else ipDenyNotGlobalUnicast
  else if addrIsInRuleRange (AllowRanges config) addr then ipAllowUserConfigured
  else if addrIsInRuleRange (DenyRanges config) addr then ipDenyUserConfigured
  else if addrIsInRuleRange PrivateRuleRanges addr then ipDenyPrivateRange
  else ipAllowDefault.

(** The repository's own table ([TestClassifyAddr]). *)
Definition test_config : Config :=
  let c := (SetDenyRanges NewConfig ["1.1.1.1/32"]).1 in
  let c := (SetDenyAddresses c ["8.8.8.8:321"]).1 in
  let c := (SetAllowRanges c ["8.8.9.0/24"; "10.0.1.0/24"; "172.16.1.0/24";
                              "192.168.1.0/24"; "127.0.1.0/24"]).1 in
  (SetAllowAddresses c ["10.0.0.1:321"]).1.

Definition classify_string (ip : string) (port : Z) : ipType :=
  classifyAddr test_config (mkTCPAddr (default [] (ParseIP ip)) port "").

Example test_classify :
  classify_string "8.8.8.8" 1 = ipAllowDefault ∧
  classify_string "8.8.9.8" 1 = ipAllowUserConfigured ∧
  classify_string "10.0.0.1" 1 = ipDenyPrivateRange ∧
  classify_string "10.0.0.1" 321 = ipAllowUserConfigured ∧
  classify_string "172.16.0.1" 1 = ipDenyPrivateRange ∧
  classify_string "8.8.8.8" 321 = ipDenyUserConfigured ∧
  classify_string "1.1.1.1" 1 = ipDenyUserConfigured ∧
  classify_string "127.255.255.255" 1 = ipDenyNotGlobalUnicast ∧
  classify_string "::1" 1 = ipDenyNotGlobalUnicast ∧
  classify_string "127.0.1.1" 1 = ipAllowUserConfigured ∧
  classify_string "169.254.169.254" 1 = ipDenyNotGlobalUnicast ∧
  classify_string "ff02:0:0:0:0:0:0:2" 1 = ipDenyNotGlobalUnicast.
Proof. vm_compute. split_and!; reflexivity. Qed.

(** ** Membership *)
Definition in_range_of (addr : TCPAddr) (r : RuleRange) : Prop :=
  (rr_Port r = 0 ∨ tcp_Port addr = rr_Port r) ∧ Contains_IP (rr_Net r) (tcp_IP addr) = true.

Definition in_ranges (addr : TCPAddr) (ranges : list RuleRange) : Prop :=
  ∃ r, r ∈ ranges ∧ in_range_of addr r.

Lemma range_matches_iff addr r : range_matches addr r = true ↔ in_range_of addr r.
Proof.
  unfold range_matches, in_range_of.
  destruct (Z.eqb_spec (rr_Port r) 0), (Z.eqb_spec (tcp_Port addr) (rr_Port r)); simpl; naive_solver.
Qed.

Lemma addrIsInRuleRange_iff ranges addr :
  addrIsInRuleRange ranges addr = true ↔ in_ranges addr ranges.
Proof.
  unfold addrIsInRuleRange, in_ranges. rewrite existsb_true_iff.
  by setoid_rewrite range_matches_iff.
Qed.

Lemma addrIsInRuleRange_spec ranges addr :
  BoolSpec (in_ranges addr ranges) (¬ in_ranges addr ranges) (addrIsInRuleRange ranges addr).
Proof.
  pose proof (addrIsInRuleRange_iff ranges addr) as H.
  destruct (addrIsInRuleRange ranges addr); constructor; [by apply H|].
  intros ?%H. done.
Qed.

Lemma IsGlobalUnicast_not_loopback ip : IsGlobalUnicast ip = true → IsLoopback ip = false.
Proof. unfold IsGlobalUnicast. to_prop. tauto. Qed.

(** ** Which bytes the classes are *)
Lemma To4_same ip x : To4 ip = Some x → ip ≈ip x.
Proof.
  intros H. unfold same_ip. rewrite (canon_len4 x) by (by eapply To4_length).
  unfold canon. by rewrite H.
Qed.

Lemma land_f0_multicast a : is_byte a → (Z.land a 0xf0 =? 0xe0) = (224 <=? a) && (a <=? 239).
Proof.
  intros Ha. apply eqb_prop. revert a Ha.
  apply (byte_ind (λ a, eqb (Z.land a 0xf0 =? 0xe0) ((224 <=? a) && (a <=? 239)))).
  by vm_compute.
Qed.

(** The IPv4 addresses that are not global unicast in Go's sense. *)
Definition v4_special (a b c d : Z) : Prop :=
  a = 127 ∨ (a = 169 ∧ b = 254) ∨ 224 ≤ a ≤ 239 ∨
  [a;b;c;d] = [255;255;255;255] ∨ [a;b;c;d] = [0;0;0;0].

Definition v4_private (a b : Z) : Prop :=
  a = 10 ∨ (a = 172 ∧ 16 ≤ b ≤ 31) ∨ (a = 192 ∧ b = 168).

Lemma IP_Equal_true a b : IP_Equal a b = bool_decide (canon a = canon b).
Proof. apply eq_true_iff_eq. rewrite IP_Equal_canon, bool_decide_eq_true. done. Qed.

Lemma IsGlobalUnicast_v4 a b c d :
  is_byte a → IsGlobalUnicast [a;b;c;d] = true ↔ ¬ v4_special a b c d.
Proof.
  intros Ha. unfold IsGlobalUnicast, IsUnspecified, IsLoopback, IsMulticast, IsLinkLocalUnicast.
  rewrite !IP_Equal_true. rewrite To4_len4 by done.
  change (canon [a;b;c;d]) with [a;b;c;d]. change (canon IPv4bcast) with [255;255;255;255].
  change (canon IPv4zero) with [0;0;0;0]. change (canon IPv6unspecified) with (replicate 16 0).
  cbn [byte_at nth]. rewrite land_f0_multicast by done. unfold v4_special.
  to_prop. split.
  - intros (((((_ & H1) & H2 & _) & H3) & H4) & H5). intuition lia.
  - intros H. split_and!; try tauto; try lia; try done.
Qed.

(** Evaluating the parsed constants. *)
Lemma private_ranges_eq :
  PrivateRuleRanges =
  [mkRuleRange (cidr [10;0;0;0] 8) 0; mkRuleRange (cidr [172;16;0;0] 12) 0;
   mkRuleRange (cidr [192;168;0;0] 16) 0;
   mkRuleRange (cidr ([0xfc] ++ replicate 15 0) 7) 0].
Proof. by vm_compute. Qed.

Lemma in_ranges_cons addr r rs :
  in_ranges addr (r :: rs) ↔ in_range_of addr r ∨ in_ranges addr rs.
Proof. unfold in_ranges. setoid_rewrite elem_of_cons. naive_solver. Qed.

Lemma in_ranges_nil addr : ¬ in_ranges addr [].
Proof. intros (r & Hr%elem_of_nil & _). done. Qed.

Lemma land_f0_16 b : is_byte b → (16 =? Z.land b 240) = (16 <=? b) && (b <=? 31).
Proof.
  intros Hb. apply eqb_prop. revert b Hb.
  apply (byte_ind (λ b, eqb (16 =? Z.land b 240) ((16 <=? b) && (b <=? 31)))). by vm_compute.
Qed.

Lemma land_fe_fc b : is_byte b → (252 =? Z.land b 254) = (252 <=? b) && (b <=? 253).
Proof.
  intros Hb. apply eqb_prop. revert b Hb.
  apply (byte_ind (λ b, eqb (252 =? Z.land b 254) ((252 <=? b) && (b <=? 253)))). by vm_compute.
Qed.

Lemma private_v4 a b c d port zone :
  is_byte a → is_byte b →
  in_ranges (mkTCPAddr [a;b;c;d] port zone) PrivateRuleRanges ↔ v4_private a b.
Proof.
  intros Ha Hb. rewrite private_ranges_eq, !in_ranges_cons. unfold in_range_of; cbn [rr_Net rr_Port tcp_IP].
  assert (∀ l k, Contains_IP (cidr l k) [a;b;c;d] =
    let '(nn, m) := networkNumberAndMask (cidr l k) in
    if decide (4%nat = length nn) then masked_eq nn m [a;b;c;d] else false) as HC by done.
  rewrite !HC.
  change (networkNumberAndMask (cidr [10;0;0;0] 8)) with ([10;0;0;0], [255;0;0;0]).
  change (networkNumberAndMask (cidr [172;16;0;0] 12)) with ([172;16;0;0], [255;240;0;0]).
  change (networkNumberAndMask (cidr [192;168;0;0] 16)) with ([192;168;0;0], [255;255;0;0]).
  replace (networkNumberAndMask (cidr ([252] ++ replicate 15 0) 7)) with
    ([252] ++ replicate 15 0, [254] ++ replicate 15 0) by (by vm_compute).
  cbn [length decide]. cbn [masked_eq]. rewrite !Z.land_0_r, !(land_ff a), !(land_ff b) by done.
  change (Z.land 10 255) with 10. change (Z.land 172 255) with 172.
  change (Z.land 192 255) with 192. change (Z.land 168 255) with 168.
  change (Z.land 16 240) with 16. rewrite land_f0_16 by done.
  with_strategy opaque [Z.eqb Z.leb] simpl. unfold v4_private. pose proof (in_ranges_nil (mkTCPAddr [a;b;c;d] port zone)).
  to_prop. intuition lia.
Qed.

Lemma private_v6 ip port zone :
  length ip = 16%nat → To4 ip = None → bytes ip →
  in_ranges (mkTCPAddr ip port zone) PrivateRuleRanges ↔ 252 ≤ byte_at ip 0 ≤ 253.
Proof.
  intros Hl H4 Hb. rewrite private_ranges_eq, !in_ranges_cons.
  unfold in_range_of; cbn [rr_Net rr_Port tcp_IP]. unfold Contains_IP. rewrite H4, Hl.
  change (networkNumberAndMask (cidr [10;0;0;0] 8)) with ([10;0;0;0], [255;0;0;0]).
  change (networkNumberAndMask (cidr [172;16;0;0] 12)) with ([172;16;0;0], [255;240;0;0]).
  change (networkNumberAndMask (cidr [192;168;0;0] 16)) with ([192;168;0;0], [255;255;0;0]).
  replace (networkNumberAndMask (cidr ([252] ++ replicate 15 0) 7)) with
    ([252] ++ replicate 15 0, [254] ++ replicate 15 0) by (by vm_compute).
  cbn [length decide]. destruct ip as [|a ip]; [done|].
  apply Forall_cons in Hb as [Ha Hb]. cbn [byte_at nth].
  assert (masked_eq ([252] ++ replicate 15 0) ([254] ++ replicate 15 0) (a :: ip) =
          (252 <=? a) && (a <=? 253)) as HM.
  { cbn [app masked_eq]. change (Z.land 252 254) with 252. rewrite land_fe_fc by done.
    assert (masked_eq (replicate 15 0) (replicate 15 0) ip = true) as ->; [|by rewrite andb_true_r].
    clear. generalize 15%nat as n. induction ip as [|b ip IH]; intros [|n]; try done.
    cbn [replicate masked_eq]. by rewrite !Z.land_0_r, IH. }
  destruct (decide (16%nat = length ([252] ++ replicate 15 0))) as [_|n]; [|by destruct n].
  rewrite HM. with_strategy opaque [Z.eqb Z.leb] simpl.
  pose proof (in_ranges_nil (mkTCPAddr (a :: ip) port zone)).
  to_prop. intuition lia.
Qed.

(** The IPv6 addresses that are not global unicast in Go's sense. *)
Definition v6_special (ip : IP) : Prop :=
  ip = IPv6unspecified ∨ ip = IPv6loopback ∨ byte_at ip 0 = 0xff ∨
  (byte_at ip 0 = 0xfe ∧ 128 ≤ byte_at ip 1 ≤ 191).

Lemma land_c0_80 b : is_byte b → (Z.land b 0xc0 =? 0x80) = (128 <=? b) && (b <=? 191).
Proof.
  intros Hb. apply eqb_prop. revert b Hb.
  apply (byte_ind (λ b, eqb (Z.land b 0xc0 =? 0x80) ((128 <=? b) && (b <=? 191)))).
  by vm_compute.
Qed.

Lemma IsGlobalUnicast_v6 ip :
  length ip = 16%nat → To4 ip = None → bytes ip →
  IsGlobalUnicast ip = true ↔ ¬ v6_special ip.
Proof.
  intros Hl H4 Hb. unfold IsGlobalUnicast, IsUnspecified, IsLoopback, IsMulticast, IsLinkLocalUnicast.
  rewrite !IP_Equal_true, H4, Hl.
  assert (canon ip = ip) as -> by (unfold canon; by rewrite H4).
  assert (ip ≠ canon IPv4bcast ∧ ip ≠ canon IPv4zero) as [Hbc Hz]
    by (split; intros ->; done).
  change (canon IPv6unspecified) with IPv6unspecified. change (canon IPv6loopback) with IPv6loopback.
  assert (is_byte (byte_at ip 1)) as Hb1.
  { destruct ip as [|a [|b ip]]; try done. apply Forall_cons in Hb as [_ Hb].
    by apply Forall_cons in Hb as [? _]. }
  rewrite land_c0_80 by done. unfold v6_special, IPv4len, IPv6len.
  to_prop. split.
  - intros H. intuition (subst; try done; lia).
  - intros H. split_and!; try tauto; try done. lia.
Qed.

(** ** Theorems *)

(** C20: the five outcomes of [classifyAddr], each characterised: a configured
    allow range wins over everything; otherwise an address that is not global
    unicast, in a configured deny range or in a private range is denied with
    that reason, and only the rest is allowed by default. *)
Theorem classifyAddr_spec config addr t :
  classifyAddr config addr = t ↔
  match t with
  | ipAllowUserConfigured => in_ranges addr (AllowRanges config)
  | ipDenyNotGlobalUnicast =>
      ¬ in_ranges addr (AllowRanges config) ∧ IsGlobalUnicast (tcp_IP addr) = false
  | ipDenyUserConfigured =>
      ¬ in_ranges addr (AllowRanges config) ∧ IsGlobalUnicast (tcp_IP addr) = true ∧
      in_ranges addr (DenyRanges config)
  | ipDenyPrivateRange =>
      ¬ in_ranges addr (AllowRanges config) ∧ IsGlobalUnicast (tcp_IP addr) = true ∧
      ¬ in_ranges addr (DenyRanges config) ∧ in_ranges addr PrivateRuleRanges
  | ipAllowDefault =>
      ¬ in_ranges addr (AllowRanges config) ∧ IsGlobalUnicast (tcp_IP addr) = true ∧
      ¬ in_ranges addr (DenyRanges config) ∧ ¬ in_ranges addr PrivateRuleRanges
  end.
Proof.
  unfold classifyAddr.
  destruct (IsGlobalUnicast (tcp_IP addr)) eqn:EG; cbn [negb orb];
    [rewrite (IsGlobalUnicast_not_loopback _ EG)|];
    destruct (addrIsInRuleRange_spec (AllowRanges config) addr),
      (addrIsInRuleRange_spec (DenyRanges config) addr),
      (addrIsInRuleRange_spec PrivateRuleRanges addr);
    destruct t; split; intros Ht; try discriminate Ht; destruct_and?; try congruence;
    split_and?; done.
Qed.

(** The shared form of the characterisation: allowed or not. *)
Lemma classifyAddr_allowed config addr :
  IsAllowed (classifyAddr config addr) = true ↔
  in_ranges addr (AllowRanges config) ∨
  (IsGlobalUnicast (tcp_IP addr) = true ∧ ¬ in_ranges addr (DenyRanges config) ∧
   ¬ in_ranges addr PrivateRuleRanges).
Proof.
  unfold classifyAddr.
  destruct (IsGlobalUnicast (tcp_IP addr)) eqn:EG; cbn [negb orb];
    [rewrite (IsGlobalUnicast_not_loopback _ EG)|];
    destruct (addrIsInRuleRange_spec (AllowRanges config) addr),
      (addrIsInRuleRange_spec (DenyRanges config) addr),
      (addrIsInRuleRange_spec PrivateRuleRanges addr);
    cbn [IsAllowed]; intuition congruence.
Qed.

Lemma in_ranges_same ip ip' port zone zone' ranges :
  ip ≈ip ip' →
  in_ranges (mkTCPAddr ip port zone) ranges ↔ in_ranges (mkTCPAddr ip' port zone') ranges.
Proof.
  intros H. unfold in_ranges, in_range_of; cbn [tcp_IP tcp_Port].
  by setoid_rewrite H.
Qed.

Lemma classifyAddr_same config ip ip' port zone zone' :
  ip ≈ip ip' →
  classifyAddr config (mkTCPAddr ip port zone) = classifyAddr config (mkTCPAddr ip' port zone').
Proof.
  intros H. unfold classifyAddr; cbn [tcp_IP]. rewrite H.
  assert (∀ rs, addrIsInRuleRange rs (mkTCPAddr ip port zone) =
                addrIsInRuleRange rs (mkTCPAddr ip' port zone')) as HR; [|by rewrite !HR].
  intros rs. apply eq_true_iff_eq. rewrite !addrIsInRuleRange_iff. by apply in_ranges_same.
Qed.

(** The classification does not depend on how an address is spelled: the
    4-byte form and the IPv4-in-IPv6 form of one host get the same class, so
    neither spelling evades a range. *)
Theorem classifyAddr_spelling config ip ip' port zone zone' :
  ip ≈ip ip' →
  classifyAddr config (mkTCPAddr ip port zone) = classifyAddr config (mkTCPAddr ip' port zone').
Proof. apply classifyAddr_same. Qed.

Lemma classifyAddr_spelling_witness :
  IPv4 10 0 0 1 ≈ip [10; 0; 0; 1] ∧
  classifyAddr NewConfig (mkTCPAddr (IPv4 10 0 0 1) 80 "") =
  classifyAddr NewConfig (mkTCPAddr [10; 0; 0; 1] 80 "").
Proof.
  assert (IPv4 10 0 0 1 ≈ip [10; 0; 0; 1]) as H by reflexivity.
  split; [exact H|]. apply (classifyAddr_spelling NewConfig _ _ 80 "" "" H).
Defined.

(** C21: the SSRF guarantee for IPv4: without an allow range that covers it, an
    address is allowed exactly when it is in none of 10/8, 172.16/12,
    192.168/16, 127/8, 169.254/16, 224/4 (multicast), is neither 0.0.0.0 nor
    255.255.255.255, and is in no configured deny range. *)
Theorem classify_v4 config ip port zone a b c d :
  To4 ip = Some [a; b; c; d] → bytes [a; b; c; d] →
  ¬ in_ranges (mkTCPAddr ip port zone) (AllowRanges config) →
  IsAllowed (classifyAddr config (mkTCPAddr ip port zone)) = true ↔
  ¬ v4_special a b c d ∧ ¬ v4_private a b ∧
  ¬ in_ranges (mkTCPAddr ip port zone) (DenyRanges config).
Proof.
  intros H4 Hb Hallow. rewrite classifyAddr_allowed. cbn [tcp_IP].
  apply Forall_cons in Hb as [Ha [Hb _]%Forall_cons].
  rewrite (in_ranges_same ip [a;b;c;d] port zone zone PrivateRuleRanges) by by apply To4_same.
  rewrite private_v4 by done.
  rewrite (IsGlobalUnicast_proper ip [a;b;c;d]) by by apply To4_same.
  rewrite IsGlobalUnicast_v4 by done.
  tauto.
Qed.

Lemma classify_v4_witness :
  IsAllowed (classifyAddr NewConfig (mkTCPAddr [169; 254; 169; 254] 80 "")) = true ↔
  ¬ v4_special 169 254 169 254 ∧ ¬ v4_private 169 254 ∧
  ¬ in_ranges (mkTCPAddr [169; 254; 169; 254] 80 "") (DenyRanges NewConfig).
Proof.
  apply (classify_v4 NewConfig [169; 254; 169; 254] 80 "" 169 254 169 254).
  - reflexivity.
  - repeat constructor; by vm_compute.
  - apply in_ranges_nil.
Defined.

(** C22: the SSRF guarantee for IPv6: without an allow range that covers it, an
    address that is not an IPv4 one is allowed exactly when it is neither ::
    nor ::1, nor in ff00::/8, fe80::/10 or fc00::/7, nor in a configured deny
    range. *)
Theorem classify_v6 config ip port zone :
  length ip = 16%nat → To4 ip = None → bytes ip →
  ¬ in_ranges (mkTCPAddr ip port zone) (AllowRanges config) →
  IsAllowed (classifyAddr config (mkTCPAddr ip port zone)) = true ↔
  ¬ v6_special ip ∧ ¬ (252 ≤ byte_at ip 0 ≤ 253) ∧
  ¬ in_ranges (mkTCPAddr ip port zone) (DenyRanges config).
Proof.
  intros Hl H4 Hb Hallow. rewrite classifyAddr_allowed. cbn [tcp_IP].
  rewrite private_v6, IsGlobalUnicast_v6 by done. tauto.
Qed.

Lemma classify_v6_witness :
  IsAllowed (classifyAddr NewConfig (mkTCPAddr IPv6loopback 80 "")) = true ↔
  ¬ v6_special IPv6loopback ∧ ¬ (252 ≤ byte_at IPv6loopback 0 ≤ 253) ∧
  ¬ in_ranges (mkTCPAddr IPv6loopback 80 "") (DenyRanges NewConfig).
Proof.
  apply (classify_v6 NewConfig IPv6loopback 80 "").
  - reflexivity.
  - reflexivity.
  - repeat constructor; by vm_compute.
  - apply in_ranges_nil.
Defined.
