(* ===== verification/Conntrack.v ===== *)
(** * Connection tracking

    [src/pkg/smokescreen/conntrack]: [conn_tracker.go], [instrumented_conn.go]
    and [stats.go].  A tracker holds the set of open connections, a wait group
    and the idle threshold; an instrumented connection counts bytes and
    remembers its last activity.

    Connections are references: the heap maps a reference to the connection
    object, the tracker's [sync.Map] is a set of references.  The clock, the
    underlying socket and the results of its system calls are arguments of the
    operations.  Times are nanoseconds since the epoch; [int64] durations
    saturate in [Time.Sub] and [uint64] counters wrap around. *)

From S2P Require Import Prelude GoStrings.

Definition min_int64 : Z := - 2 ^ 63.
Definition max_int64 : Z := 2 ^ 63 - 1.
Definition uint64_max : Z := 2 ^ 64 - 1.

(** [t.Sub(u)]: the difference, saturated to a [Duration]. *)
Definition Sub (t u : Z) : Z := Z.max min_int64 (Z.min max_int64 (t - u)).

Definition add_uint64 (x n : Z) : Z := (x + n) mod 2 ^ 64.

(** ** Data *)
Record InstrumentedConn := mkInstrumentedConn {
  ic_Conn : nat;             (* the wrapped net.Conn *)
  ic_Role : string;
  ic_OutboundHost : string;
  ic_Start : Z;
  ic_LastActivity : Z;
  ic_BytesIn : Z;
  ic_BytesOut : Z;
  ic_closed : bool;
  ic_CloseError : option error
}.

Inductive HistValue :=
| Seconds (ns : Z)
| Count (n : Z).

Inductive Metric :=
| Incr (name : string) (tags : list string)
| Histogram (name : string) (value : HistValue) (tags : list string).

(** The log line of a closed connection.  The code passes the pointers to the two
    counters; the JSON formatter that [main.go] sets prints what they point to. *)
Record CloseLog := mkCloseLog {
  cl_idle : bool;
  cl_bytes_in : Z;
  cl_bytes_out : Z;
  cl_role : string;
  cl_req_host : string;
  cl_remote : nat;           (* the socket whose remote address is logged *)
  cl_start_time : Z;
  cl_end_time : Z;
  cl_duration : Z            (* nanoseconds, before the conversion to seconds *)
}.

(** [ShuttingDown] is an [atomic.Value]: [None] until something is stored. *)
Record Tracker := mkTracker {
  tr_Map : gset nat;
  tr_ShuttingDown : option bool;
  tr_Wg : Z;
  tr_IdleThreshold : Z
}.

(** The tracker, the connection objects, and what was sent to statsd and to
    the log. *)
Record TrackState := mkTrackState {
  ts_tracker : Tracker;
  ts_heap : gmap nat InstrumentedConn;
  ts_metrics : list Metric;
  ts_logs : list CloseLog
}.

Definition NewTracker (idle : Z) (sd : option bool) : Tracker := mkTracker ∅ sd 0 idle.

Definition init_state (idle : Z) (sd : option bool) : TrackState :=
  mkTrackState (NewTracker idle sd) ∅ [] [].

Definition set_Map (t : Tracker) (m : gset nat) : Tracker :=
  mkTracker m (tr_ShuttingDown t) (tr_Wg t) (tr_IdleThreshold t).
Definition set_Wg (t : Tracker) (n : Z) : Tracker :=
  mkTracker (tr_Map t) (tr_ShuttingDown t) n (tr_IdleThreshold t).

Definition set_tracker (s : TrackState) (t : Tracker) : TrackState :=
  mkTrackState t (ts_heap s) (ts_metrics s) (ts_logs s).
Definition set_conn (s : TrackState) (id : nat) (ic : InstrumentedConn) : TrackState :=
  mkTrackState (ts_tracker s) (<[id := ic]> (ts_heap s)) (ts_metrics s) (ts_logs s).
Definition emit (s : TrackState) (ms : list Metric) : TrackState :=
  mkTrackState (ts_tracker s) (ts_heap s) (ts_metrics s ++ ms) (ts_logs s).
Definition log_close (s : TrackState) (l : CloseLog) : TrackState :=
  mkTrackState (ts_tracker s) (ts_heap s) (ts_metrics s) (ts_logs s ++ [l]).

(** ** Operations *)

(** [NewInstrumentedConn]: [now] and [start] are the two readings of the clock,
    [id] the address of the new object.  The parameter [outboundHost] is not
    used.  The object is first stored in the map, where others can find it,
    and then counted by the wait group. *)
Definition store_conn (s : TrackState) (id conn : nat) (role outboundHost : string)
    (now start : Z) : TrackState :=
  let ic := mkInstrumentedConn conn role "" start now 0 0 false None in
  let s := set_conn s id ic in
  let t := ts_tracker s in
  set_tracker s (set_Map t ({[id]} ∪ tr_Map t)).

(** [Wg.Add(1)]: the counter of the [sync.WaitGroup].  Like [Done] in [Close] it
    takes effect at once; that [Done] panics below zero is in [Proxy.v], and what
    the two do to a goroutine in [Wait], its panics included, in
    [Lifecycle.v]. *)
Definition wg_add (s : TrackState) : TrackState :=
  set_tracker s (set_Wg (ts_tracker s) (tr_Wg (ts_tracker s) + 1)).

Definition NewInstrumentedConn (s : TrackState) (id conn : nat) (role outboundHost : string)
    (now start : Z) : TrackState :=
  wg_add (store_conn s id conn role outboundHost now start).

Definition Idle (t : Tracker) (ic : InstrumentedConn) (now : Z) : bool :=
  tr_IdleThreshold t <? Sub now (ic_LastActivity ic).

Definition set_closed (ic : InstrumentedConn) (err : option error) : InstrumentedConn :=
  mkInstrumentedConn (ic_Conn ic) (ic_Role ic) (ic_OutboundHost ic) (ic_Start ic)
    (ic_LastActivity ic) (ic_BytesIn ic) (ic_BytesOut ic) true err.

(** [Close], under the connection's lock: [end_] and [idle_now] are the clock
    at the two places where it is read, [closeErr] what closing the socket
    returns.  The result is the error that the caller gets. *)
Definition Close (s : TrackState) (id : nat) (end_ idle_now : Z) (closeErr : option error)
    : TrackState * option error :=
  match ts_heap s !! id with
  | None => (s, None)
  | Some ic =>
      if ic_closed ic then (s, ic_CloseError ic)
      else
        let t := ts_tracker s in
        let t := set_Map t (tr_Map t ∖ {[id]}) in
        let duration := Sub end_ (ic_Start ic) in
        let tags := ["role:" +:+ ic_Role ic] in
        let s := emit (set_tracker s t)
          [Incr "cn.close" tags;
           Histogram "cn.duration" (Seconds duration) tags;
           Histogram "cn.bytes_in" (Count (ic_BytesIn ic)) tags;
           Histogram "cn.bytes_out" (Count (ic_BytesOut ic)) tags] in
        let '(idle, s) :=
          match tr_ShuttingDown t with
          | Some true =>
              let idle := Idle t ic idle_now in
              (idle, if idle then s else emit s [Incr "cn.active_at_termination" tags])
          | _ => (true, s)
          end in
        let s := log_close s
          (mkCloseLog idle (ic_BytesIn ic) (ic_BytesOut ic) (ic_Role ic) (ic_OutboundHost ic)
             (ic_Conn ic) (ic_Start ic) end_ duration) in
        let s := set_tracker s (set_Wg (ts_tracker s) (tr_Wg (ts_tracker s) - 1)) in
        (set_conn s id (set_closed ic closeErr), closeErr)
  end.

(** [Read] and [Write]: [n] and [err] are what the socket returned; a call on
    the socket does not change the tracker. *)
Definition set_activity (ic : InstrumentedConn) (now bin bout : Z) : InstrumentedConn :=
  mkInstrumentedConn (ic_Conn ic) (ic_Role ic) (ic_OutboundHost ic) (ic_Start ic)
    now bin bout (ic_closed ic) (ic_CloseError ic).

Definition Read (s : TrackState) (id : nat) (now n : Z) (err : option error)
    : TrackState * (Z * option error) :=
  match ts_heap s !! id with
  | None => (s, (n, err))
  | Some ic =>
      (set_conn s id (set_activity ic now (add_uint64 (ic_BytesIn ic) n) (ic_BytesOut ic)),
       (n, err))
  end.

Definition Write (s : TrackState) (id : nat) (now n : Z) (err : option error)
    : TrackState * (Z * option error) :=
  match ts_heap s !! id with
  | None => (s, (n, err))
  | Some ic =>
      (set_conn s id (set_activity ic now (ic_BytesIn ic) (add_uint64 (ic_BytesOut ic) n)),
       (n, err))
  end.

(** [Stats]; the identifier is the address of a local variable and says nothing
    about the connection. *)
Record InstrumentedConnStats := mkStats {
  st_Id : string;
  st_Role : string;
  st_Rhost : string;
  st_Created : Z;
  st_BytesIn : Z;
  st_BytesOut : Z;
  st_SinceLastActivity : Z  (* nanoseconds, before the conversion to seconds *)
}.

Definition Stats (ic : InstrumentedConn) (local_addr : Z) (now : Z) : InstrumentedConnStats :=
  mkStats (pretty local_addr) (ic_Role ic) (ic_OutboundHost ic) (ic_Start ic)
    (ic_BytesIn ic) (ic_BytesOut ic) (Sub now (ic_LastActivity ic)).

(** [MaybeIdleIn]: [visit] is the order in which the map is ranged over and
    [clock i] the time at the [i]-th visit. *)
Definition idle_in (t : Tracker) (ic : InstrumentedConn) (now : Z) : Z :=
  Sub (ic_LastActivity ic + tr_IdleThreshold t) now.

Fixpoint idle_loop (t : Tracker) (visit : list InstrumentedConn) (clock : nat → Z)
    (i : nat) (longest : Z) : Z :=
  match visit with
  | [] => longest
  | ic :: visit =>
      let d := idle_in t ic (clock i) in
      idle_loop t visit clock (S i) (if longest <? d then d else longest)
  end.

Definition tracked (s : TrackState) : list InstrumentedConn :=
  omap (λ id, ts_heap s !! id) (elements (tr_Map (ts_tracker s))).

Definition MaybeIdleIn (t : Tracker) (visit : list InstrumentedConn) (clock : nat → Z) : Z :=
  idle_loop t visit clock 0 0.

(** ** Every run of a tracker

    A step is one call on the tracker or on one of its connections.  A new
    object has a fresh address, and a socket returns a byte count that is not
    negative. *)
Inductive ct_step (s : TrackState) : TrackState → Prop :=
| step_new id conn role host now start :
    ts_heap s !! id = None →
    ct_step s (NewInstrumentedConn s id conn role host now start)
| step_close id end_ idle_now err :
    ct_step s (Close s id end_ idle_now err).1
| step_read id now n err :
    0 ≤ n → ct_step s (Read s id now n err).1
| step_write id now n err :
    0 ≤ n → ct_step s (Write s id now n err).1.

Definition ct_reachable (idle : Z) (sd : option bool) : TrackState → Prop :=
  rtc ct_step (init_state idle sd).

Definition open_conn (s : TrackState) (id : nat) : Prop :=
  ∃ ic, ts_heap s !! id = Some ic ∧ ic_closed ic = false.

Definition counters_ok (ic : InstrumentedConn) : Prop :=
  0 ≤ ic_BytesIn ic ≤ uint64_max ∧ 0 ≤ ic_BytesOut ic ≤ uint64_max.

(** The closed connections, as a set of references. *)
Definition closed_ids (s : TrackState) : gset nat := dom (ts_heap s) ∖ tr_Map (ts_tracker s).

(** The invariant, while [n] connections are stored and not yet counted: the map
    holds exactly the open connections, the wait group counts all of them but
    [n], every closed connection was logged once, counters fit in 64 bits, and
    no connection records a host. *)
Record ct_owed (n : Z) (s : TrackState) : Prop := mkInv {
  inv_map id : id ∈ tr_Map (ts_tracker s) ↔ open_conn s id;
  inv_wg : tr_Wg (ts_tracker s) = Z.of_nat (size (tr_Map (ts_tracker s))) - n;
  inv_logs : length (ts_logs s) = size (closed_ids s);
  inv_counters id ic : ts_heap s !! id = Some ic → counters_ok ic;
  inv_host id ic : ts_heap s !! id = Some ic → ic_OutboundHost ic = "";
  inv_log_host l : l ∈ ts_logs s → cl_req_host l = ""
}.
Arguments inv_map {n} s _.
Arguments inv_wg {n} s _.
Arguments inv_logs {n} s _.
Arguments inv_counters {n} s _.
Arguments inv_host {n} s _.
Arguments inv_log_host {n} s _.

(** Between two calls nothing is owed. *)
Definition ct_inv : TrackState → Prop := ct_owed 0.

Lemma add_uint64_range x n : 0 ≤ add_uint64 x n ≤ uint64_max.
Proof.
  unfold add_uint64, uint64_max. pose proof (Z.mod_pos_bound (x + n) (2 ^ 64)). lia.
Qed.

Lemma inv_dom n s id : ct_owed n s → id ∈ tr_Map (ts_tracker s) → id ∈ dom (ts_heap s).
Proof. intros H (ic & Hi & _)%(inv_map s H). apply elem_of_dom. by exists ic. Qed.

Lemma ct_inv_init idle sd : ct_inv (init_state idle sd).
Proof.
  split; simpl.
  - intros id. split; [intros H; by apply not_elem_of_empty in H|].
    intros (ic & H & _). simpl in H. by apply lookup_empty_Some in H.
  - done.
  - done.
  - intros id ic H. by apply lookup_empty_Some in H.
  - intros id ic H. by apply lookup_empty_Some in H.
  - intros l H. by apply elem_of_nil in H.
Qed.

Lemma ct_owed_store n s id conn role host now start :
  ts_heap s !! id = None → ct_owed n s →
  ct_owed (n + 1) (store_conn s id conn role host now start).
Proof.
  intros Hid H.
  assert (id ∉ tr_Map (ts_tracker s)) as Hnot.
  { intros (ic & Hi & _)%(inv_map s H). congruence. }
  split; simpl.
  - intros id'. rewrite elem_of_union, elem_of_singleton, (inv_map s H).
    unfold open_conn; simpl. setoid_rewrite lookup_insert. case_decide as Heq; subst.
    + split; [|by left]. intros _. eauto.
    + naive_solver.
  - rewrite size_union by set_solver. rewrite size_singleton, (inv_wg s H). lia.
  - unfold closed_ids; simpl. rewrite (inv_logs s H). unfold closed_ids. f_equal.
    rewrite dom_insert_L. apply not_elem_of_dom in Hid. set_solver.
  - intros id' ic. rewrite lookup_insert. case_decide; [|apply (inv_counters s H)].
    intros [= <-]. split; simpl; unfold uint64_max; lia.
  - intros id' ic. rewrite lookup_insert. case_decide; [|apply (inv_host s H)].
    by intros [= <-].
  - apply (inv_log_host s H).
Qed.

Lemma ct_owed_add n s : ct_owed n s → ct_owed (n - 1) (wg_add s).
Proof. intros H. split; simpl; try apply H. rewrite (inv_wg s H). lia. Qed.

Lemma ct_inv_new s id conn role host now start :
  ts_heap s !! id = None → ct_inv s → ct_inv (NewInstrumentedConn s id conn role host now start).
Proof. intros Hid H. by apply (ct_owed_add 1), (ct_owed_store 0). Qed.

Lemma ct_owed_emit n s ms : ct_owed n s → ct_owed n (emit s ms).
Proof. intros []. by split. Qed.

(** Replacing a connection by one with the same flags. *)
Lemma ct_owed_update n s id ic ic' :
  ts_heap s !! id = Some ic → ct_owed n s →
  ic_closed ic' = ic_closed ic → ic_OutboundHost ic' = ic_OutboundHost ic → counters_ok ic' →
  ct_owed n (set_conn s id ic').
Proof.
  intros Hid H Hc Hh Hok. split; simpl.
  - intros id'. rewrite (inv_map s H). unfold open_conn; simpl.
    setoid_rewrite lookup_insert. case_decide as Heq; [subst|done].
    split; intros (ic0 & Hi & Hcl); eexists; simplify_eq; split; try done; congruence.
  - apply (inv_wg s H).
  - rewrite (inv_logs s H). unfold closed_ids; simpl. f_equal.
    rewrite dom_insert_lookup_L by eauto. done.
  - intros id' ic0. rewrite lookup_insert. case_decide; [by intros [= <-]|apply (inv_counters s H)].
  - intros id' ic0. rewrite lookup_insert. case_decide; [|apply (inv_host s H)].
    intros [= <-]. rewrite Hh. by eapply inv_host.
  - apply (inv_log_host s H).
Qed.

(** What [Close] does to an open connection, whatever the shutdown flag. *)
Lemma Close_open s id ic end_ idle_now err :
  ts_heap s !! id = Some ic → ic_closed ic = false →
  ∃ ms l, Close s id end_ idle_now err =
    (mkTrackState
       (set_Wg (set_Map (ts_tracker s) (tr_Map (ts_tracker s) ∖ {[id]}))
          (tr_Wg (ts_tracker s) - 1))
       (<[id := set_closed ic err]> (ts_heap s)) (ts_metrics s ++ ms) (ts_logs s ++ [l]), err) ∧
    (l = mkCloseLog (cl_idle l) (ic_BytesIn ic) (ic_BytesOut ic) (ic_Role ic)
           (ic_OutboundHost ic) (ic_Conn ic) (ic_Start ic) end_ (Sub end_ (ic_Start ic)) ∧
     cl_idle l = match tr_ShuttingDown (ts_tracker s) with
                 | Some true => Idle (ts_tracker s) ic idle_now
                 | _ => true
                 end ∧
     ms = [Incr "cn.close" ["role:" +:+ ic_Role ic];
           Histogram "cn.duration" (Seconds (Sub end_ (ic_Start ic))) ["role:" +:+ ic_Role ic];
           Histogram "cn.bytes_in" (Count (ic_BytesIn ic)) ["role:" +:+ ic_Role ic];
           Histogram "cn.bytes_out" (Count (ic_BytesOut ic)) ["role:" +:+ ic_Role ic]] ++
          (if cl_idle l then [] else [Incr "cn.active_at_termination" ["role:" +:+ ic_Role ic]])).
Proof.
  intros Hid Hcl. unfold Close. rewrite Hid, Hcl. cbn [set_tracker set_Map tr_ShuttingDown].
  change (Idle (mkTracker ?m ?a ?b ?c)) with (Idle (mkTracker m a b c)).
  assert (∀ m, Idle (set_Map (ts_tracker s) m) ic idle_now = Idle (ts_tracker s) ic idle_now)
    as HI by done.
  unfold set_Map in *. rewrite HI.
  destruct (tr_ShuttingDown (ts_tracker s)) as [[]|];
    [destruct (Idle (ts_tracker s) ic idle_now)| |];
    (eexists _, _; split; [unfold emit, log_close, set_conn, set_tracker; simpl;
       rewrite <-?app_assoc; reflexivity|]; simpl; done).
Qed.

Lemma Close_closed s id ic end_ idle_now err :
  ts_heap s !! id = Some ic → ic_closed ic = true →
  Close s id end_ idle_now err = (s, ic_CloseError ic).
Proof. intros Hid Hcl. unfold Close. by rewrite Hid, Hcl. Qed.

Lemma Close_is_closed s id e i err ic :
  ts_heap s !! id = Some ic →
  ∃ ic', ts_heap (Close s id e i err).1 !! id = Some ic' ∧ ic_closed ic' = true.
Proof.
  intros Hid. destruct (ic_closed ic) eqn:Hcl; [erewrite Close_closed by eauto; by exists ic|].
  destruct (Close_open s id ic e i err Hid Hcl) as (? & ? & -> & _). simpl.
  exists (set_closed ic err). by rewrite lookup_insert_eq.
Qed.

Lemma Close_threshold s id end_ idle_now err :
  tr_IdleThreshold (ts_tracker (Close s id end_ idle_now err).1) = tr_IdleThreshold (ts_tracker s).
Proof.
  destruct (ts_heap s !! id) as [ic|] eqn:Hid; [|unfold Close; by rewrite Hid].
  destruct (ic_closed ic) eqn:Hcl; [by rewrite (Close_closed s id ic)|].
  by destruct (Close_open s id ic end_ idle_now err Hid Hcl) as (ms & l & -> & _).
Qed.

(** The set of closed connections grows by the one that is closed. *)
Lemma closed_ids_close n s id ic :
  ct_owed n s → id ∈ tr_Map (ts_tracker s) →
  size (dom (<[id := ic]> (ts_heap s)) ∖ (tr_Map (ts_tracker s) ∖ {[id]}))
  = S (size (closed_ids s)).
Proof.
  intros H Hin. eapply inv_dom in Hin as Hd; [|done]. apply elem_of_dom in Hd as Hl.
  rewrite dom_insert_lookup_L by done.
  assert (dom (ts_heap s) ∖ (tr_Map (ts_tracker s) ∖ {[id]}) = {[id]} ∪ closed_ids s) as ->.
  { unfold closed_ids. apply set_eq. intros x. destruct (decide (x = id)); set_solver. }
  rewrite size_union by (unfold closed_ids; set_solver). by rewrite size_singleton.
Qed.

Lemma ct_owed_close n s id end_ idle_now err :
  ct_owed n s → ct_owed n (Close s id end_ idle_now err).1.
Proof.
  intros H. destruct (ts_heap s !! id) as [ic|] eqn:Hid;
    [|unfold Close; by rewrite Hid].
  destruct (ic_closed ic) eqn:Hcl; [by erewrite Close_closed by eauto|].
  destruct (Close_open s id ic end_ idle_now err Hid Hcl) as (ms & l & -> & Hl & _). simpl.
  assert (id ∈ tr_Map (ts_tracker s)) as Hin by (apply (inv_map s H); by exists ic).
  split; simpl.
  - intros id'. rewrite elem_of_difference, elem_of_singleton, (inv_map s H).
    unfold open_conn; simpl. setoid_rewrite lookup_insert. case_decide as Heq; [subst|].
    + split; [tauto|]. by intros (? & [= <-] & ?).
    + split; [tauto|]. intros. split; [done|congruence].
  - rewrite size_difference by set_solver. rewrite size_singleton, (inv_wg s H).
    assert (size (tr_Map (ts_tracker s)) ≠ 0%nat); [|lia].
    rewrite size_non_empty_iff. set_solver.
  - rewrite length_app, (inv_logs s H), Nat.add_1_r. symmetry.
    by apply (closed_ids_close n s id (set_closed ic err)).
  - intros id' ic0. rewrite lookup_insert. case_decide; [|apply (inv_counters s H)].
    intros [= <-]. apply (inv_counters s H _ _ Hid).
  - intros id' ic0. rewrite lookup_insert. case_decide; [|apply (inv_host s H)].
    intros [= <-]. apply (inv_host s H _ _ Hid).
  - intros l' [Hi| ->%list_elem_of_singleton]%elem_of_app; [by apply (inv_log_host s H)|].
    rewrite Hl. simpl. apply (inv_host s H _ _ Hid).
Qed.

Lemma ct_owed_read m s id now n err : ct_owed m s → ct_owed m (Read s id now n err).1.
Proof.
  intros H. unfold Read. destruct (ts_heap s !! id) as [ic|] eqn:Hid; [|done]. simpl.
  eapply ct_owed_update; eauto. split; [apply add_uint64_range|].
  apply (inv_counters s H _ _ Hid).
Qed.

Lemma ct_owed_write m s id now n err : ct_owed m s → ct_owed m (Write s id now n err).1.
Proof.
  intros H. unfold Write. destruct (ts_heap s !! id) as [ic|] eqn:Hid; [|done]. simpl.
  eapply ct_owed_update; eauto. split; [|apply add_uint64_range].
  apply (inv_counters s H _ _ Hid).
Qed.

Create HintDb conntrack.
#[export] Hint Resolve ct_inv_init ct_inv_new ct_owed_emit ct_owed_close ct_owed_read
  ct_owed_write : conntrack.
#[export] Hint Unfold ct_inv : conntrack.

Lemma ct_inv_step s s' : ct_step s s' → ct_inv s → ct_inv s'.
Proof. destruct 1; auto with conntrack. Qed.

Lemma ct_inv_rtc s s' : rtc ct_step s s' → ct_inv s → ct_inv s'.
Proof. induction 1; eauto using ct_inv_step. Qed.

(** In every run of a tracker, whatever the order of creations, closes,
    reads and writes on its connections, the tracker's map holds exactly the
    open connections, its wait group counts them, each closed connection was
    logged exactly once, byte counters stay within 64 bits, and the recorded
    host of every connection is empty: the argument [outboundHost] of the
    constructor is never stored, so every log line has an empty [req_host]. *)
Theorem reachable_inv idle sd s : ct_reachable idle sd s → ct_inv s.
Proof. intros H. eapply ct_inv_rtc; eauto with conntrack. Qed.

(** A tracker with one closed and one open connection. *)
Definition sample_run : TrackState :=
  let s := NewInstrumentedConn (init_state 1000 None) 1 7 "svc" "example.com" 10 11 in
  let s := NewInstrumentedConn s 2 8 "svc" "example.com" 12 13 in
  let s := (Read s 1 20 100 None).1 in
  (Close s 1 30 31 None).1.

Lemma sample_run_reachable : ct_reachable 1000 None sample_run.
Proof.
  eapply rtc_l; [by apply (step_new _ 1 7 "svc" "example.com" 10 11)|].
  eapply rtc_l; [by apply (step_new _ 2 8 "svc" "example.com" 12 13)|].
  eapply rtc_l; [by apply (step_read _ 1 20 100 None)|].
  eapply rtc_l; [by apply (step_close _ 1 30 31 None)|]. apply rtc_refl.
Defined.

Lemma reachable_inv_witness :
  ct_inv sample_run ∧ tr_Wg (ts_tracker sample_run) = 1 ∧ length (ts_logs sample_run) = 1%nat.
Proof.
  split; [apply (reachable_inv 1000 None sample_run), sample_run_reachable|].
  by vm_compute.
Defined.

(** ** Closing a connection *)

(** Nothing reopens a closed connection or changes the error of its close. *)
Lemma closed_stays s s' id ic :
  rtc ct_step s s' → ts_heap s !! id = Some ic → ic_closed ic = true →
  ∃ ic', ts_heap s' !! id = Some ic' ∧ ic_closed ic' = true ∧ ic_CloseError ic' = ic_CloseError ic.
Proof.
  intros Hr. revert ic. induction Hr as [s|s1 s2 s3 Hs _ IH]; intros ic Hid Hcl; [by eauto|].
  assert (∃ ic', ts_heap s2 !! id = Some ic' ∧ ic_closed ic' = true
                 ∧ ic_CloseError ic' = ic_CloseError ic) as (ic' & ? & ? & <-); [|eauto].
  destruct Hs as [id' conn role host now start Hf|id' e i err|id' now n err _|id' now n err _].
  - simpl. rewrite lookup_insert_ne by congruence. eauto.
  - destruct (ts_heap s1 !! id') as [ic'|] eqn:Hid'; [|unfold Close; rewrite Hid'; simpl; eauto].
    destruct (ic_closed ic') eqn:Hcl'; [erewrite Close_closed by eauto; simpl; eauto|].
    destruct (Close_open s1 id' ic' e i err Hid' Hcl') as (? & ? & -> & _). simpl.
    rewrite lookup_insert_ne by congruence. eauto.
  - unfold Read. destruct (ts_heap s1 !! id') as [ic'|] eqn:Hid'; simpl; [|eauto].
    rewrite lookup_insert. case_decide; [|eauto]. simplify_eq. eexists; split; eauto.
  - unfold Write. destruct (ts_heap s1 !! id') as [ic'|] eqn:Hid'; simpl; [|eauto].
    rewrite lookup_insert. case_decide; [|eauto]. simplify_eq. eexists; split; eauto.
Qed.

(** Closing an open connection returns the socket's error, takes the
    connection out of the tracker, and after any further run of the tracker a
    second close returns that same error and changes nothing: no second log
    line, no second metric, no second [Done] on the wait group. *)
Theorem Close_once s id ic end_ idle_now err s' r :
  ts_heap s !! id = Some ic → ic_closed ic = false →
  Close s id end_ idle_now err = (s', r) →
  r = err ∧ id ∉ tr_Map (ts_tracker s') ∧ tr_Wg (ts_tracker s') = tr_Wg (ts_tracker s) - 1 ∧
  length (ts_logs s') = S (length (ts_logs s)) ∧
  ∀ s'' end2 idle2 err2, rtc ct_step s' s'' → Close s'' id end2 idle2 err2 = (s'', err).
Proof.
  intros Hid Hcl Hc.
  destruct (Close_open s id ic end_ idle_now err Hid Hcl) as (ms & l & Hc' & _).
  rewrite Hc' in Hc. simplify_eq. simpl. repeat split.
  - set_solver.
  - rewrite length_app. simpl. lia.
  - intros s'' e2 i2 err2 Hr.
    destruct (closed_stays _ s'' id (set_closed ic r) Hr) as (ic' & Hid' & Hcl' & He);
      [by apply lookup_insert_eq|done|].
    rewrite (Close_closed s'' id ic') by done. by rewrite He.
Qed.

Lemma Close_once_witness :
  let s := (Close sample_run 2 40 41 (Some (Err "reset"))).1 in
  Close s 2 50 51 None = (s, Some (Err "reset")).
Proof.
  refine (proj2 (proj2 (proj2 (proj2
    (Close_once sample_run 2 (mkInstrumentedConn 8 "svc" "" 13 12 0 0 false None) 40 41
       (Some (Err "reset")) _ _ _ _ eq_refl)))) _ 50 51 None _);
    [by vm_compute|by vm_compute|apply rtc_refl].
Defined.

(** ** Byte accounting *)

(** Calls on the sockets of a tracker, in the order in which their counter
    updates take effect. *)
Inductive io_op :=
| IoRead (id : nat) (now n : Z) (err : option error)
| IoWrite (id : nat) (now n : Z) (err : option error).

Definition io_step (s : TrackState) (op : io_op) : TrackState :=
  match op with
  | IoRead id now n err => (Read s id now n err).1
  | IoWrite id now n err => (Write s id now n err).1
  end.

Definition io_run (s : TrackState) (ops : list io_op) : TrackState := foldl io_step s ops.

Definition bytes_read (id : nat) (op : io_op) : Z :=
  match op with IoRead id' _ n _ => if decide (id' = id) then n else 0 | _ => 0 end.
Definition bytes_written (id : nat) (op : io_op) : Z :=
  match op with IoWrite id' _ n _ => if decide (id' = id) then n else 0 | _ => 0 end.

Definition total (f : io_op → Z) (ops : list io_op) : Z := foldr (λ op acc, f op + acc) 0 ops.

Lemma add_uint64_assoc x n m : add_uint64 (add_uint64 x n) m = add_uint64 x (n + m).
Proof. unfold add_uint64. rewrite Zplus_mod_idemp_l. f_equal. lia. Qed.

Lemma add_uint64_0 x : 0 ≤ x ≤ uint64_max → add_uint64 x 0 = x.
Proof. intros ?. unfold add_uint64, uint64_max in *. rewrite Z.add_0_r, Z.mod_small; lia. Qed.

(** One call moves the counters of the connection it is on, and no others. *)
Lemma io_step_counters s op id ic :
  ts_heap s !! id = Some ic → counters_ok ic →
  ∃ ic', ts_heap (io_step s op) !! id = Some ic' ∧ counters_ok ic' ∧
    ic_BytesIn ic' = add_uint64 (ic_BytesIn ic) (bytes_read id op) ∧
    ic_BytesOut ic' = add_uint64 (ic_BytesOut ic) (bytes_written id op).
Proof.
  intros Hid [Hi Ho].
  destruct op as [id' now n err|id' now n err]; simpl; unfold Read, Write;
    destruct (decide (id' = id)) as [->|Hne].
  - rewrite Hid. simpl. eexists. rewrite lookup_insert_eq. split; [done|]. simpl.
    rewrite (add_uint64_0 (ic_BytesOut ic)) by done. split; [|done].
    split; [apply add_uint64_range|done].
  - rewrite !add_uint64_0 by done. exists ic. split; [|done].
    destruct (ts_heap s !! id') eqn:Hid'; simpl; by rewrite ?lookup_insert_ne.
  - rewrite Hid. simpl. eexists. rewrite lookup_insert_eq. split; [done|]. simpl.
    rewrite (add_uint64_0 (ic_BytesIn ic)) by done. split; [|done].
    split; [done|apply add_uint64_range].
  - rewrite !add_uint64_0 by done. exists ic. split; [|done].
    destruct (ts_heap s !! id') eqn:Hid'; simpl; by rewrite ?lookup_insert_ne.
Qed.

(** Byte accounting. After any interleaving of reads and writes on the
    connections of a tracker, the counters of each connection are its previous
    counters plus the bytes its own socket reported, modulo 2^64; the tracker,
    its log and its metrics do not change. *)
Theorem bytes_accounted s ops id ic :
  ts_heap s !! id = Some ic → counters_ok ic →
  (∃ ic', ts_heap (io_run s ops) !! id = Some ic' ∧
    ic_BytesIn ic' = add_uint64 (ic_BytesIn ic) (total (bytes_read id) ops) ∧
    ic_BytesOut ic' = add_uint64 (ic_BytesOut ic) (total (bytes_written id) ops)) ∧
  ts_tracker (io_run s ops) = ts_tracker s ∧ ts_logs (io_run s ops) = ts_logs s ∧
  ts_metrics (io_run s ops) = ts_metrics s.
Proof.
  intros Hid Hok. split.
  - revert s ic Hid Hok. induction ops as [|op ops IH]; intros s ic Hid Hok; simpl.
    + exists ic. destruct Hok. by rewrite !add_uint64_0.
    + destruct (io_step_counters s op id ic Hid Hok) as (ic1 & Hid1 & Hok1 & Hi & Ho).
      destruct (IH _ ic1 Hid1 Hok1) as (ic2 & Hid2 & Hi2 & Ho2).
      exists ic2. split; [done|]. by rewrite Hi2, Ho2, Hi, Ho, !add_uint64_assoc.
  - clear. revert s. induction ops as [|op ops IH]; intros s; [done|]. simpl.
    destruct (IH (io_step s op)) as (-> & -> & ->).
    destruct op; simpl; unfold Read, Write; by destruct (ts_heap s !! id).
Qed.

Lemma bytes_accounted_witness :
  option_map ic_BytesIn
    (ts_heap (io_run sample_run [IoRead 2 50 uint64_max None; IoWrite 1 51 9 None;
                                 IoRead 2 52 6 None]) !! 2%nat) = Some 5.
Proof.
  destruct (bytes_accounted sample_run
    [IoRead 2 50 uint64_max None; IoWrite 1 51 9 None; IoRead 2 52 6 None] 2
    (mkInstrumentedConn 8 "svc" "" 13 12 0 0 false None)) as [(ic' & H & Hi & _) _];
    [by vm_compute|by split|].
  rewrite H. simpl. rewrite Hi. by vm_compute.
Defined.

(** ** Idleness *)

Lemma idle_loop_ge t visit clock i longest : longest ≤ idle_loop t visit clock i longest.
Proof.
  revert i longest. induction visit as [|ic visit IH]; intros i longest; simpl; [lia|].
  etrans; [|apply IH]. case_match eqn:E; [apply Z.ltb_lt in E; lia|lia].
Qed.

Lemma idle_loop_bound t visit clock i longest j ic :
  visit !! j = Some ic → idle_in t ic (clock (i + j)%nat) ≤ idle_loop t visit clock i longest.
Proof.
  revert i j longest. induction visit as [|ic0 visit IH]; intros i [|j] longest Hj;
    [done|done| |]; simpl in *; simplify_eq.
  - rewrite Nat.add_0_r. etrans; [|apply idle_loop_ge]. case_match eqn:E; [lia|].
    apply Z.ltb_ge in E. lia.
  - replace (i + S j)%nat with (S i + j)%nat by lia. by apply IH.
Qed.

Lemma idle_loop_attained t visit clock i longest :
  idle_loop t visit clock i longest = longest ∨
  ∃ j ic, visit !! j = Some ic ∧ idle_loop t visit clock i longest = idle_in t ic (clock (i + j)%nat).
Proof.
  revert i longest. induction visit as [|ic0 visit IH]; intros i longest; simpl; [by left|].
  destruct (IH (S i) (if longest <? idle_in t ic0 (clock i) then idle_in t ic0 (clock i)
                      else longest)) as [->|(j & ic & Hj & ->)].
  - case_match; [|by left]. right. exists 0%nat, ic0. by rewrite Nat.add_0_r.
  - right. exists (S j), ic. by replace (i + S j)%nat with (S i + j)%nat by lia.
Qed.

(** The readings of the clock are within the range of an [int64] of the
    activity they are compared with. *)
Definition in_duration (d : Z) : Prop := min_int64 ≤ d ≤ max_int64.

Lemma Sub_exact t u : in_duration (t - u) → Sub t u = t - u.
Proof. unfold in_duration, Sub. lia. Qed.

Lemma Sub_pos t u : 0 < Sub t u ↔ u < t.
Proof. unfold Sub, min_int64, max_int64. lia. Qed.

Lemma idle_in_pos t ic now :
  0 < idle_in t ic now ↔ now - ic_LastActivity ic < tr_IdleThreshold t.
Proof. unfold idle_in. rewrite Sub_pos. lia. Qed.

(** [MaybeIdleIn] is never negative, is zero exactly when every connection
    had been inactive for at least the threshold when it was visited, and is
    otherwise the largest remaining time of a visited connection. *)
Theorem MaybeIdleIn_spec t visit clock :
  0 ≤ MaybeIdleIn t visit clock ∧
  (∀ j ic, visit !! j = Some ic → idle_in t ic (clock j) ≤ MaybeIdleIn t visit clock) ∧
  (MaybeIdleIn t visit clock = 0 ↔
     ∀ j ic, visit !! j = Some ic → tr_IdleThreshold t ≤ clock j - ic_LastActivity ic) ∧
  (MaybeIdleIn t visit clock ≠ 0 →
     ∃ j ic, visit !! j = Some ic ∧ MaybeIdleIn t visit clock = idle_in t ic (clock j)).
Proof.
  unfold MaybeIdleIn.
  pose proof (idle_loop_ge t visit clock 0 0) as H0.
  assert (∀ j ic, visit !! j = Some ic → idle_in t ic (clock j) ≤ idle_loop t visit clock 0 0)
    as Hb by (intros j ic; apply (idle_loop_bound t visit clock 0 0 j ic)).
  pose proof (idle_loop_attained t visit clock 0 0) as Ha. simpl in Ha.
  split_and!; [done|done| |tauto]. split.
  - intros Hz j ic Hj. specialize (Hb j ic Hj). pose proof (idle_in_pos t ic (clock j)). lia.
  - intros Hall. destruct Ha as [|(j & ic & Hj & Hr)]; [done|].
    specialize (Hall j ic Hj). pose proof (idle_in_pos t ic (clock j)). lia.
Qed.

Lemma MaybeIdleIn_spec_witness :
  MaybeIdleIn (NewTracker 1000 None)
    [mkInstrumentedConn 8 "svc" "" 0 100 0 0 false None] (λ _, 600) = 500 ∧
  ∃ j ic, [mkInstrumentedConn 8 "svc" "" 0 100 0 0 false None] !! j = Some ic ∧
    500 = idle_in (NewTracker 1000 None) ic 600.
Proof.
  split; [by vm_compute|].
  destruct (MaybeIdleIn_spec (NewTracker 1000 None)
    [mkInstrumentedConn 8 "svc" "" 0 100 0 0 false None] (λ _, 600)) as (_ & _ & _ & H).
  apply H. by vm_compute.
Defined.

(** C40: the time that [MaybeIdleIn] returns is enough. If the clock stood at
    [now] during the call, no connection has activity later than [now], and
    nothing happens on the connections, then the wait is at most the threshold
    and every call made once it has passed returns zero, in whatever order it
    visits the connections.  The wait is not enough for [Idle] to hold: at
    exactly the threshold a connection counts as idle here and as active
    there. *)
Theorem MaybeIdleIn_wait t visit now :
  0 ≤ tr_IdleThreshold t ≤ max_int64 →
  Forall (λ ic, ic_LastActivity ic ≤ now) visit →
  let r := MaybeIdleIn t visit (λ _, now) in
  0 ≤ r ≤ tr_IdleThreshold t ∧
  (∀ visit' clock, visit' ≡ₚ visit → (∀ i, now + r ≤ clock i) → MaybeIdleIn t visit' clock = 0) ∧
  (∀ ic, ic_LastActivity ic = now - tr_IdleThreshold t →
     Idle t ic now = false ∧ MaybeIdleIn t [ic] (λ _, now) = 0).
Proof.
  intros Ht Hp r.
  assert (∀ ic, ic ∈ visit → idle_in t ic now = Z.max min_int64
            (ic_LastActivity ic + tr_IdleThreshold t - now)
          ∧ ic_LastActivity ic ≤ now) as Hex.
  { intros ic Hin. rewrite Forall_forall in Hp. specialize (Hp ic Hin).
    unfold idle_in, Sub. lia. }
  split_and!.
  - apply idle_loop_ge.
  - subst r. unfold MaybeIdleIn.
    destruct (idle_loop_attained t visit (λ _, now) 0 0) as [->|(j & ic & Hj & ->)]; [lia|].
    destruct (Hex ic) as [-> ?]; [by eapply list_elem_of_lookup_2|].
    unfold min_int64. lia.
  - intros visit' clock Hperm Hclock. unfold MaybeIdleIn.
    destruct (idle_loop_attained t visit' clock 0 0) as [->|(j & ic & Hj & Hr)]; [done|].
    pose proof (idle_loop_ge t visit' clock 0 0) as H0.
    assert (ic ∈ visit) as Hin.
    { rewrite <-Hperm. by eapply list_elem_of_lookup_2. }
    destruct (proj1 (list_elem_of_lookup _ _) Hin) as [k Hk].
    pose proof (idle_loop_bound t visit (λ _, now) 0 0 k ic Hk) as Hb.
    fold (MaybeIdleIn t visit (λ _, now)) in Hb. fold r in Hb.
    destruct (Hex ic Hin) as [He ?]. simpl in *. specialize (Hclock j).
    pose proof (idle_in_pos t ic (clock j)). lia.
  - intros ic Hic. split.
    + unfold Idle. rewrite Sub_exact; [apply Z.ltb_ge; lia|]. unfold in_duration, min_int64. lia.
    + unfold MaybeIdleIn. simpl. unfold idle_in, Sub, min_int64, max_int64 in *.
      case_match eqn:E; [|done]. apply Z.ltb_lt in E. lia.
Qed.

Lemma MaybeIdleIn_wait_witness :
  MaybeIdleIn (NewTracker 1000 None)
    [mkInstrumentedConn 8 "svc" "" 0 100 0 0 false None] (λ i, 1100 + Z.of_nat i) = 0.
Proof.
  apply (MaybeIdleIn_wait (NewTracker 1000 None)
    [mkInstrumentedConn 8 "svc" "" 0 100 0 0 false None] 600).
  - by vm_compute.
  - repeat constructor. by vm_compute.
  - done.
  - intros i. change (MaybeIdleIn _ _ _) with 500. lia.
Defined.
