(* ===== verification/Registry.v ===== *)
(** * What the connection tracker promises

    An abstract registry of connections, and a proof that the tracker of
    [Conntrack.v] implements it.  The registry knows nothing of references,
    flags, the wait group or the order of a range: it maps the connections
    that are open to what was counted for them, remembers what closing the
    others returned, and keeps one report for each of those. *)

From S2P Require Import Prelude GoStrings Conntrack.

(** ** The registry *)
Record Entry := mkEntry {
  en_socket : nat;
  en_role : string;
  en_start : Z;
  en_last : Z;
  en_in : Z;
  en_out : Z
}.

Record Report := mkReport { rp_entry : string * nat * Z; rp_in : Z; rp_out : Z; rp_end : Z }.

Record Registry := mkRegistry {
  rg_open : gmap nat Entry;
  rg_results : gmap nat (option error);
  rg_reports : list Report
}.

Definition empty_registry : Registry := mkRegistry ∅ ∅ [].

(** The calls and what they return. *)
Inductive Op :=
| OpNew (socket : nat) (role outboundHost : string) (now start : Z)
| OpRead (id : nat) (now n : Z) (err : option error)
| OpWrite (id : nat) (now n : Z) (err : option error)
| OpClose (id : nat) (end_ idle_now : Z) (err : option error)
| OpIdle (now : Z).

Inductive Answer :=
| NewConn (id : nat)
| Transferred (n : Z) (err : option error)
| Closed (err : option error)
| IdleIn (d : Z).

Definition count_in (now n : Z) (e : Entry) : Entry :=
  mkEntry (en_socket e) (en_role e) (en_start e) now (add_uint64 (en_in e) n) (en_out e).
Definition count_out (now n : Z) (e : Entry) : Entry :=
  mkEntry (en_socket e) (en_role e) (en_start e) now (en_in e) (add_uint64 (en_out e) n).
Definition report (e : Entry) (end_ : Z) : Report :=
  mkReport (en_role e, en_socket e, en_start e) (en_in e) (en_out e) end_.

(** The longest time that an open connection needs to be idle. *)
Definition longest_idle (threshold now : Z) (m : gmap nat Entry) : Z :=
  map_fold (λ _ e acc, Z.max (Sub (en_last e + threshold) now) acc) 0 m.

Definition rg_step (threshold : Z) (op : Op) (r : Registry) : Answer * Registry :=
  match op with
  | OpNew socket role _ now start =>
      let id := fresh (dom (rg_open r) ∪ dom (rg_results r)) in
      (NewConn id,
       mkRegistry (<[id := mkEntry socket role start now 0 0]> (rg_open r)) (rg_results r) (rg_reports r))
  | OpRead id now n err =>
      (Transferred n err,
       mkRegistry (alter (count_in now n) id (rg_open r)) (rg_results r) (rg_reports r))
  | OpWrite id now n err =>
      (Transferred n err,
       mkRegistry (alter (count_out now n) id (rg_open r)) (rg_results r) (rg_reports r))
  | OpClose id end_ _ err =>
      match rg_open r !! id with
      | Some e =>
          (Closed err, mkRegistry (delete id (rg_open r)) (<[id := err]> (rg_results r))
                         (rg_reports r ++ [report e end_]))
      | None => (Closed (default None (rg_results r !! id)), r)
      end
  | OpIdle now => (IdleIn (longest_idle threshold now (rg_open r)), r)
  end.

(** ** The tracker, call by call *)
Definition ct_call (op : Op) (s : TrackState) : Answer * TrackState :=
  match op with
  | OpNew socket role host now start =>
      let id := fresh (dom (ts_heap s)) in
      (NewConn id, NewInstrumentedConn s id socket role host now start)
  | OpRead id now n err => let '(s, (n, err)) := Read s id now n err in (Transferred n err, s)
  | OpWrite id now n err => let '(s, (n, err)) := Write s id now n err in (Transferred n err, s)
  | OpClose id end_ idle_now err => let '(s, r) := Close s id end_ idle_now err in (Closed r, s)
  | OpIdle now => (IdleIn (MaybeIdleIn (ts_tracker s) (tracked s) (λ _, now)), s)
  end.

(** Sequences of calls, with their answers. *)
Fixpoint calls {S} (step : Op → S → Answer * S) (ops : list Op) (s : S) : list Answer * S :=
  match ops with
  | [] => ([], s)
  | op :: ops => let '(a, s) := step op s in let '(l, s) := calls step ops s in (a :: l, s)
  end.

(** ** The registry that a tracker stands for *)
Definition entry_of (ic : InstrumentedConn) : Entry :=
  mkEntry (ic_Conn ic) (ic_Role ic) (ic_Start ic) (ic_LastActivity ic) (ic_BytesIn ic) (ic_BytesOut ic).
Definition open_of (ic : InstrumentedConn) : option Entry :=
  if ic_closed ic then None else Some (entry_of ic).
Definition result_of (ic : InstrumentedConn) : option (option error) :=
  if ic_closed ic then Some (ic_CloseError ic) else None.
Definition report_of (l : CloseLog) : Report :=
  mkReport (cl_role l, cl_remote l, cl_start_time l) (cl_bytes_in l) (cl_bytes_out l) (cl_end_time l).

Definition registry_of (s : TrackState) : Registry :=
  mkRegistry (omap open_of (ts_heap s)) (omap result_of (ts_heap s)) (report_of <$> ts_logs s).

Lemma registry_dom s :
  dom (rg_open (registry_of s)) ∪ dom (rg_results (registry_of s)) = dom (ts_heap s).
Proof.
  apply set_eq. intros id. rewrite elem_of_union, !elem_of_dom. simpl. rewrite !lookup_omap.
  unfold open_of, result_of. destruct (ts_heap s !! id) as [ic|]; simpl; [|naive_solver].
  destruct (ic_closed ic); naive_solver.
Qed.

(** Replacing an open connection by an open one. *)
Lemma registry_update s id ic ic' :
  ts_heap s !! id = Some ic → ic_closed ic' = ic_closed ic → ic_CloseError ic' = ic_CloseError ic →
  registry_of (set_conn s id ic') =
  mkRegistry (alter (λ _, entry_of ic') id (rg_open (registry_of s)))
    (rg_results (registry_of s)) (rg_reports (registry_of s)).
Proof.
  intros Hid Hc He. unfold registry_of. simpl. f_equal; apply map_eq; intros j.
  - destruct (decide (id = j)) as [<-|Hne].
    + rewrite lookup_omap, lookup_insert_eq, lookup_alter_eq, lookup_omap, Hid. simpl.
      unfold open_of. rewrite Hc. by destruct (ic_closed ic).
    + by rewrite lookup_omap, lookup_insert_ne, lookup_alter_ne, lookup_omap by done.
  - destruct (decide (id = j)) as [<-|Hne].
    + rewrite !lookup_omap, lookup_insert_eq, Hid. simpl. unfold result_of. by rewrite Hc, He.
    + by rewrite !lookup_omap, lookup_insert_ne by done.
Qed.

(** ** Each call is the registry's *)
Lemma registry_new s id socket role host now start :
  ts_heap s !! id = None →
  registry_of (NewInstrumentedConn s id socket role host now start) =
  mkRegistry (<[id := mkEntry socket role start now 0 0]> (rg_open (registry_of s)))
    (rg_results (registry_of s)) (rg_reports (registry_of s)).
Proof.
  intros Hid. unfold registry_of. simpl. f_equal; apply map_eq; intros j;
    (destruct (decide (id = j)) as [<-|Hne];
      [rewrite lookup_omap, lookup_insert_eq|rewrite lookup_omap, lookup_insert_ne by done]).
  - by rewrite lookup_insert_eq.
  - by rewrite lookup_insert_ne, lookup_omap by done.
  - by rewrite lookup_omap, Hid.
  - by rewrite lookup_omap.
Qed.

Lemma alter_entry s id ic (f : Entry → Entry) e :
  ts_heap s !! id = Some ic → f (entry_of ic) = e →
  alter (λ _, e) id (rg_open (registry_of s)) = alter f id (rg_open (registry_of s)).
Proof.
  intros Hid Hf. apply map_eq. intros j. destruct (decide (id = j)) as [<-|Hne].
  - rewrite !lookup_alter_eq. simpl. rewrite lookup_omap, Hid. simpl. unfold open_of.
    destruct (ic_closed ic); simpl; [done|]. by rewrite Hf.
  - by rewrite !lookup_alter_ne.
Qed.

Lemma alter_absent s id (f : Entry → Entry) :
  ts_heap s !! id = None → alter f id (rg_open (registry_of s)) = rg_open (registry_of s).
Proof.
  intros Hid. apply map_eq. intros j. destruct (decide (id = j)) as [<-|Hne].
  - rewrite lookup_alter_eq. simpl. by rewrite lookup_omap, Hid.
  - by rewrite lookup_alter_ne.
Qed.

Lemma registry_read s id now n err :
  registry_of (Read s id now n err).1 =
  mkRegistry (alter (count_in now n) id (rg_open (registry_of s)))
    (rg_results (registry_of s)) (rg_reports (registry_of s)).
Proof.
  unfold Read. destruct (ts_heap s !! id) as [ic|] eqn:Hid; simpl fst.
  - erewrite registry_update by done. f_equal. by apply alter_entry with ic.
  - by rewrite alter_absent.
Qed.

Lemma registry_write s id now n err :
  registry_of (Write s id now n err).1 =
  mkRegistry (alter (count_out now n) id (rg_open (registry_of s)))
    (rg_results (registry_of s)) (rg_reports (registry_of s)).
Proof.
  unfold Write. destruct (ts_heap s !! id) as [ic|] eqn:Hid; simpl fst.
  - erewrite registry_update by done. f_equal. by apply alter_entry with ic.
  - by rewrite alter_absent.
Qed.

Lemma registry_close s id end_ idle_now err threshold a r :
  rg_step threshold (OpClose id end_ idle_now err) (registry_of s) = (a, r) →
  a = Closed (Close s id end_ idle_now err).2 ∧
  r = registry_of (Close s id end_ idle_now err).1.
Proof.
  unfold rg_step. simpl rg_open. simpl rg_results. rewrite !lookup_omap.
  destruct (ts_heap s !! id) as [ic|] eqn:Hid; simpl.
  2: { unfold Close. rewrite Hid. by intros [= <- <-]. }
  unfold open_of, result_of. destruct (ic_closed ic) eqn:Hcl; simpl.
  - rewrite (Close_closed s id ic) by done. by intros [= <- <-].
  - destruct (Close_open s id ic end_ idle_now err Hid Hcl) as (ms & l & -> & Hl & _).
    intros [= <- <-]. split; [done|]. unfold registry_of. simpl. f_equal.
    + apply map_eq. intros j. destruct (decide (id = j)) as [<-|Hne].
      * by rewrite lookup_delete_eq, lookup_omap, lookup_insert_eq.
      * by rewrite lookup_delete_ne, !lookup_omap, lookup_insert_ne by done.
    + apply map_eq. intros j. destruct (decide (id = j)) as [<-|Hne].
      * by rewrite lookup_insert_eq, lookup_omap, lookup_insert_eq.
      * by rewrite lookup_insert_ne, !lookup_omap, lookup_insert_ne by done.
    + rewrite fmap_app. rewrite Hl. done.
Qed.

(** ** The idle query *)
Lemma longest_idle_spec threshold now m :
  0 ≤ longest_idle threshold now m ∧
  (∀ id e, m !! id = Some e → Sub (en_last e + threshold) now ≤ longest_idle threshold now m) ∧
  (longest_idle threshold now m = 0 ∨
   ∃ id e, m !! id = Some e ∧ longest_idle threshold now m = Sub (en_last e + threshold) now).
Proof.
  unfold longest_idle. induction m as [|id e m Hid Hfold IH] using map_first_key_ind.
  { rewrite map_fold_empty. split_and!; [done| |by left]. by intros id e ?%lookup_empty_Some. }
  rewrite map_fold_insert_first_key by done. destruct IH as (H0 & Hb & Ha). split_and!.
  - lia.
  - intros j e' [[<- <-]|[Hne Hj]]%lookup_insert_Some; [lia|]. specialize (Hb _ _ Hj). lia.
  - destruct (Z.max_spec (Sub (en_last e + threshold) now)
      (map_fold (λ _ e acc, Z.max (Sub (en_last e + threshold) now) acc) 0 m)) as [[_ ->]|[_ ->]].
    + destruct Ha as [->|(j & e' & Hj & ->)]; [by left|]. right. exists j, e'. split; [|done].
      rewrite lookup_insert_ne; [done|]. congruence.
    + right. exists id, e. by rewrite lookup_insert_eq.
Qed.

(** The connections in the tracker's map are those open in the registry. *)
Lemma tracked_open s e :
  ct_inv s →
  (∃ id, rg_open (registry_of s) !! id = Some e) ↔ ∃ ic, ic ∈ tracked s ∧ entry_of ic = e.
Proof.
  intros H. unfold tracked. simpl. setoid_rewrite list_elem_of_omap. setoid_rewrite elem_of_elements.
  setoid_rewrite (inv_map s H). unfold open_conn. setoid_rewrite lookup_omap.
  unfold open_of. split.
  - intros [id Hid]. destruct (ts_heap s !! id) as [ic|] eqn:Hic; [|done]. simpl in Hid.
    destruct (ic_closed ic) eqn:Hcl; [done|]. naive_solver.
  - intros (ic & (id & (ic' & Hic & Hcl) & Hic') & <-). simplify_eq. exists id.
    rewrite Hic. simpl. by rewrite Hcl.
Qed.

Lemma idle_query s visit now :
  ct_inv s → visit ≡ₚ tracked s →
  MaybeIdleIn (ts_tracker s) visit (λ _, now) =
  longest_idle (tr_IdleThreshold (ts_tracker s)) now (rg_open (registry_of s)).
Proof.
  intros H Hp. set (t := tr_IdleThreshold (ts_tracker s)).
  destruct (longest_idle_spec t now (rg_open (registry_of s))) as (H0 & Hb & Ha).
  apply Z.le_antisymm; unfold MaybeIdleIn.
  - destruct (idle_loop_attained (ts_tracker s) visit (λ _, now) 0 0)
      as [->|(j & ic & Hj & ->)]; [done|].
    assert (ic ∈ tracked s) as Hin by (rewrite <-Hp; by eapply list_elem_of_lookup_2).
    destruct (proj2 (tracked_open s (entry_of ic) H)) as [id Hid]; [by eauto|]. apply (Hb id _ Hid).
  - destruct Ha as [->|(id & e & Hid & ->)]; [apply idle_loop_ge|].
    destruct (proj1 (tracked_open s e H)) as (ic & Hin & <-); [by eauto|].
    rewrite <-Hp in Hin. apply list_elem_of_lookup in Hin as [j Hj].
    apply (idle_loop_bound (ts_tracker s) visit (λ _, now) 0 0 j ic Hj).
Qed.

(** ** Refinement *)
Definition implements (threshold : Z) (s : TrackState) (r : Registry) : Prop :=
  ct_inv s ∧ tr_IdleThreshold (ts_tracker s) = threshold ∧ registry_of s = r.

Lemma call_simulates threshold op s r :
  implements threshold s r →
  (ct_call op s).1 = (rg_step threshold op r).1 ∧
  implements threshold (ct_call op s).2 (rg_step threshold op r).2.
Proof.
  intros (H & Ht & <-).
  destruct op as [socket role host now start|id now n err|id now n err|id e i err|now]; simpl.
  - assert (ts_heap s !! fresh (dom (ts_heap s)) = None) as Hf.
    { apply not_elem_of_dom. apply is_fresh. }
    pose proof (registry_dom s) as Hd. simpl in Hd. rewrite Hd. split; [done|].
    split_and!; [by apply ct_inv_new|done|by apply (registry_new s _ socket role host)].
  - pose proof (registry_read s id now n err) as Hr.
    pose proof (ct_owed_read 0 s id now n err H) as Hi.
    revert Hr Hi. unfold Read. destruct (ts_heap s !! id); simpl; intros <- Hi; done.
  - pose proof (registry_write s id now n err) as Hr.
    pose proof (ct_owed_write 0 s id now n err H) as Hi.
    revert Hr Hi. unfold Write. destruct (ts_heap s !! id); simpl; intros <- Hi; done.
  - destruct (rg_step threshold (OpClose id e i err) (registry_of s)) as [a r] eqn:Hr.
    pose proof (registry_close s id e i err threshold a r Hr) as [Ha Hr'].
    simpl in Hr. rewrite Hr. subst a r. pose proof (Close_threshold s id e i err) as Ht'.
    pose proof (ct_owed_close 0 s id e i err H) as Hi.
    destruct (Close s id e i err) as [s' res]. simpl in *. split; [done|]. split_and!; [done| |done].
    congruence.
  - rewrite (idle_query s (tracked s) now H) by done. by rewrite Ht.
Qed.

Lemma calls_simulate threshold ops s r :
  implements threshold s r →
  (calls ct_call ops s).1 = (calls (rg_step threshold) ops r).1 ∧
  implements threshold (calls ct_call ops s).2 (calls (rg_step threshold) ops r).2.
Proof.
  revert s r. induction ops as [|op ops IH]; intros s r H; [done|]. simpl.
  destruct (call_simulates threshold op s r H) as [Ha Hs].
  destruct (ct_call op s) as [a s'], (rg_step threshold op r) as [a' r']. simpl in *.
  destruct (IH s' r' Hs) as [Hl Hs'].
  destruct (calls ct_call ops s') as [l s2], (calls (rg_step threshold) ops r') as [l' r2].
  simpl in *. by subst.
Qed.

(** C12: the tracker implements the registry. Whatever sequence of creations,
    reads, writes, closes and idle queries is made on a tracker, each call
    returns what the registry of connections returns for it: a new connection,
    the result of the socket, the error of the first close, the longest time
    that an open connection needs to be idle, in whatever order the tracker
    ranges over its map. And whenever the calls stop, the connections that the
    registry holds as open are exactly those in the tracker's map, with the
    bytes, the times and the role of each; the wait group is at their number;
    and the log lines are the registry's reports, one for each connection that
    was closed, in the order of closing. *)
Theorem tracker_refines_registry ops idle sd :
  let '(answers, s) := calls ct_call ops (init_state idle sd) in
  let '(answers', r) := calls (rg_step idle) ops empty_registry in
  answers = answers' ∧ registry_of s = r ∧
  tr_Map (ts_tracker s) = dom (rg_open r) ∧
  tr_Wg (ts_tracker s) = Z.of_nat (size (rg_open r)) ∧
  length (ts_logs s) = length (rg_reports r) ∧
  ∀ visit now, visit ≡ₚ tracked s →
    MaybeIdleIn (ts_tracker s) visit (λ _, now) = longest_idle idle now (rg_open r).
Proof.
  destruct (calls_simulate idle ops (init_state idle sd) empty_registry) as [Ha Hs].
  { split_and!; [apply ct_inv_init|done|done]. }
  destruct (calls ct_call ops (init_state idle sd)) as [l s].
  destruct (calls (rg_step idle) ops empty_registry) as [l' r]. simpl in *. subst l'.
  destruct Hs as (H & <- & <-).
  assert (tr_Map (ts_tracker s) = dom (rg_open (registry_of s))) as Hm.
  { apply set_eq. intros id. rewrite (inv_map s H), elem_of_dom. simpl. rewrite lookup_omap.
    unfold open_conn, open_of. split.
    - intros (ic & -> & Hcl). simpl. rewrite Hcl. by eexists.
    - intros [e He]. destruct (ts_heap s !! id) as [ic|]; [|done]. simpl in He. exists ic.
      by destruct (ic_closed ic). }
  split_and!; [done|done|done| | |intros visit now Hp; by apply idle_query].
  - rewrite (inv_wg s H), Hm, size_dom. lia.
  - simpl. by rewrite length_fmap.
Qed.

(** Two connections, one of them closed twice. *)
Definition sample_ops : list Op :=
  [OpNew 7 "svc" "example.com" 10 11; OpNew 8 "svc" "example.com" 12 13; OpRead 0 20 100 None;
   OpClose 0 30 31 (Some (Err "reset")); OpClose 0 40 41 None; OpIdle 500].

Example sample_calls :
  (calls ct_call sample_ops (init_state 1000 None)).1 =
  [NewConn 0; NewConn 1; Transferred 100 None; Closed (Some (Err "reset"));
   Closed (Some (Err "reset")); IdleIn 512].
Proof. by vm_compute. Qed.
