(* ===== verification/Proxy.v ===== *)
(** * The proxy: role, ACL, resolution, dialling and responses

    [src/pkg/smokescreen/smokescreen.go] without its server loop, the role
    errors of [config.go], [hostExtractRE] of [constants.go] and the default
    role function of [src/main.go].

    The outside world (DNS, sockets, the clock) is a parameter [Env] whose
    answers may depend on everything the proxy did before, so a resolver may
    answer the same question differently twice.  A computation is a tree of
    atomic actions on the process state, which keeps the trace of calls to the
    outside, the log and the connection tracker; a Go panic is an outcome.
    [run] executes a computation on its own, [Concurrent.v] interleaves many. *)

From S2P Require Import Prelude GoStrings GoNet Acl Http Config Classify Conntrack.

(** ** Calls to the outside and the process state *)
Inductive Event :=
| EvLookupPort (network port : string)
| EvLookupIPAddr (r : ResolverRef) (host : string)
| EvDial (network addr : string) (timeout : Z)
| EvClose
| EvNow.

Class Env := {
  env_LookupPort : list Event → string → string → result Z;
  env_LookupIPAddr : list Event → ResolverRef → string → result (list IPAddr);
  env_DialTimeout : list Event → string → string → Z → result nat;
  env_Close : list Event → option error;
  env_Now : list Event → Z;
  env_quote : string → string        (* the verb %q *)
}.

Inductive LogValue :=
| LString (s : string)
| LInt (n : Z)
| LBool (b : bool)
| LError (e : error).

Inductive Level := LDebug | LInfo | LWarn | LErr.

Record LogEntry := mkLogEntry {
  le_level : Level;
  le_message : string;
  le_fields : gmap string LogValue
}.

Record World := mkWorld {
  w_trace : list Event;
  w_logs : list LogEntry;
  w_track : TrackState
}.

Inductive outcome (A : Type) :=
| Ret (a : A)
| Panic (what : string).
Arguments Ret {A} _.
Arguments Panic {A} _.

(** ** Computations

    What one goroutine does between two points at which another may run: an
    action on the process state that happens at once.  [AHistory] reads the
    calls made so far (the parameters of the model that stand for the outside
    depend on them); [AStore] and [AWgAdd] are the two updates of
    [NewInstrumentedConn]; [AClose] is [Close], which holds the lock of its
    connection throughout. *)
Inductive Act : Type → Type :=
| AIncr (name : string) (tags : list string) : Act unit
| ALog (entry : LogEntry) : Act unit
| ACall {A} (ev : Event) (answer : list Event → A) : Act A
| AHistory : Act (list Event)
| AStore (conn : nat) (role outboundHost : string) (now start : Z) : Act nat
| AWgAdd : Act unit
| AClose (id : nat) (now : list Event → Z) (close : list Event → option error)
    : Act (outcome (option error)).

(** [Close] of a tracked connection, with the calls it makes: the clock, once
    more when the tracker sees a shutdown, then, unless the wait group panics,
    the socket. *)
Definition close_step (id : nat) (now : list Event → Z) (close : list Event → option error)
    (w : World) : outcome (option error) * World :=
  let s := w_track w in
  match ts_heap s !! id with
  | None => (Ret None, w)
  | Some ic =>
      if ic_closed ic then (Ret (ic_CloseError ic), w)
      else
        let h := w_trace w in
        let end_ := now h in
        let h := h ++ [EvNow] in
        let '(idle_now, h) :=
          match tr_ShuttingDown (ts_tracker s) with
          | Some true => (now h, h ++ [EvNow])
          | _ => (0, h)
          end in
        if tr_Wg (ts_tracker s) - 1 <? 0 then
          (Panic "sync: negative WaitGroup counter",
           mkWorld h (w_logs w) (Close s id end_ idle_now None).1)
        else
          let err := close h in
          (Ret err, mkWorld (h ++ [EvClose]) (w_logs w) (Close s id end_ idle_now err).1)
  end.

Definition perform {X} (a : Act X) : World → X * World :=
  match a in Act X return World → X * World with
  | AIncr name tags => λ w,
      (tt, mkWorld (w_trace w) (w_logs w) (emit (w_track w) [Incr name tags]))
  | ALog entry => λ w, (tt, mkWorld (w_trace w) (w_logs w ++ [entry]) (w_track w))
  | ACall ev answer => λ w,
      (answer (w_trace w), mkWorld (w_trace w ++ [ev]) (w_logs w) (w_track w))
  | AHistory => λ w, (w_trace w, w)
  | AStore conn role outboundHost now start => λ w,
      let id := fresh (dom (ts_heap (w_track w))) in
      (id, mkWorld (w_trace w) (w_logs w)
             (store_conn (w_track w) id conn role outboundHost now start))
  | AWgAdd => λ w, (tt, mkWorld (w_trace w) (w_logs w) (wg_add (w_track w)))
  | AClose id now close => close_step id now close
  end.

(** A computation is finished or stands before an action. *)
Inductive M (A : Type) : Type :=
| Done (o : outcome A)
| Step {X : Type} (a : Act X) (k : X → M A).
Arguments Done {A} _.
Arguments Step {A X} _ _.

Definition ret {A} (a : A) : M A := Done (Ret a).
Definition panic {A} (what : string) : M A := Done (Panic what).
Definition act {X} (a : Act X) : M X := Step a ret.

Fixpoint bind {A B} (m : M A) (k : A → M B) : M B :=
  match m with
  | Done (Ret a) => k a
  | Done (Panic s) => Done (Panic s)
  | Step a f => Step a (λ x, bind (f x) k)
  end.

(** Running a computation with nothing in between. *)
Fixpoint run {A} (m : M A) (w : World) : outcome A * World :=
  match m with
  | Done o => (o, w)
  | Step a k => let '(x, w) := perform a w in run (k x) w
  end.
Coercion run : M >-> Funclass.

Lemma run_bind {A B} (m : M A) (k : A → M B) w :
  run (bind m k) w =
  match run m w with
  | (Ret a, w) => run (k a) w
  | (Panic s, w) => (Panic s, w)
  end.
Proof.
  revert w. induction m as [[a|s]|X a f IH]; intros w; simpl; [done|done|].
  destruct (perform a w) as [x w']. apply IH.
Qed.

#[global] Arguments ret : simpl never.
#[global] Arguments panic : simpl never.
#[global] Arguments act : simpl never.
#[global] Arguments bind : simpl never.
#[global] Arguments run : simpl never.

Notation "'let!' x := m 'in' k" := (bind m (λ x, k))
  (at level 10, x pattern, m at level 100, k at level 200) : go_scope.
Notation "m ;;; k" := (bind m (λ _, k)) (at level 60, right associativity) : go_scope.

Lemma run_step {A X} (a : Act X) (k : X → M A) w :
  run (Step a k) w = let '(x, w) := perform a w in run (k x) w.
Proof. done. Qed.

Lemma run_act {X} (a : Act X) w : run (act a) w = let '(x, w) := perform a w in (Ret x, w).
Proof. done. Qed.

(** Statsd counters and log lines. *)
Definition Incr1 (name : string) (tags : list string) : M unit := act (AIncr name tags).

Definition WithFields (fields : list (string * LogValue)) (l : Level) (msg : string) : M unit :=
  act (ALog (mkLogEntry l msg (list_to_map fields))).

(** A call to the outside: recorded, and answered from the history. *)
Definition call {A} (ev : Event) (answer : list Event → A) : M A := act (ACall ev answer).
Definition history : M (list Event) := act AHistory.

Definition errorHeader : string := "X-Smokescreen-Error".
Definition roleHeader : string := "X-Smokescreen-Role".
Definition traceHeader : string := "X-Smokescreen-Trace-ID".
Definition LOGLINE_CANONICAL_PROXY_DECISION : string := "CANONICAL-PROXY-DECISION".
Definition newline : string := String (ascii_of_nat 10) "".

Record aclDecision := mkAclDecision {
  d_reason : string;
  d_role : string;
  d_project : string;
  d_outboundHost : string;
  d_resolvedAddr : option TCPAddr;
  d_allow : bool;
  d_enforceWouldDeny : bool
}.

Record ctxUserData := mkCtxUserData {
  ud_start : Z;
  ud_decision : option aclDecision;
  ud_traceId : string
}.

(** ** Role of a request *)
Definition MissingRoleError (s : string) : error := missingRoleError (Err s).

Definition IsMissingRoleError (err : error) : bool :=
  match err with missingRoleError _ => true | _ => false end.

Definition is_denyError (err : error) : bool :=
  match err with denyError _ => true | _ => false end.

(** [main.go] *)
Definition defaultRoleFromRequest (req : Request) : string * option error :=
  match PeerCertificates req with
  | None => ("", Some (MissingRoleError "defaultRoleFromRequest requires TLS"))
  | Some [] => ("", Some (MissingRoleError "client did not provide certificate"))
  | Some (cert :: _) => (CommonName cert, None)
  end.

Definition getRole (config : Config) (req : Request) : M (string * option error) :=
  let '(role, err) :=
    match RoleFromRequest config with
    | Some f => f req
    | None => ("", Some (MissingRoleError "RoleFromRequest is not configured"))
    end in
  match err with
  | None => ret (role, None)
  | Some err =>
      if IsMissingRoleError err && AllowMissingRole config then ret ("", None)
      else
        WithFields [("error", LError err); ("is_missing_role", LBool (IsMissingRoleError err));
                    ("allow_missing_role", LBool (AllowMissingRole config))]
          LErr "Unable to get role for request" ;;;
        ret ("", Some err)
  end.

(** [hostExtractRE.FindStringSubmatch(s)]: the pattern, anchored at both ends,
    is a group of bytes other than a colon and an optional group of a colon
    and digits.  The result is the first group, or [None] when there is no
    match (the slice is nil and indexing it panics). *)
Definition hostExtract (s : string) : option string :=
  match IndexByte s ":" with
  | None => Some s
  | Some i =>
      let port := str_drop (S i) s in
      if negb (String.eqb port "") && str_all is_digit port then Some (str_take i s) else None
  end.

Section proxy.
Context `{E : Env}.

(** ** Resolution *)
Definition LookupPort (network port : string) : M (result Z) :=
  call (EvLookupPort network port) (λ h, env_LookupPort h network port).
Definition LookupIPAddr (r : ResolverRef) (host : string) : M (result (list IPAddr)) :=
  call (EvLookupIPAddr r host) (λ h, env_LookupIPAddr h r host).
Definition DialTimeout (network addr : string) (timeout : Z) : M (result nat) :=
  call (EvDial network addr timeout) (λ h, env_DialTimeout h network addr timeout).
Definition Now : M Z := call EvNow env_Now.

Definition resolveTCPAddr (config : Config) (network addr : string) : M (result TCPAddr) :=
  if negb (String.eqb network "tcp") then
    ret (Fail (Err ("unknown network type " +:+ env_quote network)))
  else
    match SplitHostPort addr with
    | Fail err => ret (Fail err)
    | Ok (host, port) =>
        let! resolvedPort := LookupPort network port in
        match resolvedPort with
        | Fail err => ret (Fail err)
        | Ok resolvedPort =>
            let! ips := LookupIPAddr (Resolver config) host in
            match ips with
            | Fail err => ret (Fail err)
            | Ok [] => ret (Fail (Err "no IPs resolved"))
            | Ok (ip :: _) => ret (Ok (mkTCPAddr (ipa_IP ip) resolvedPort (ipa_Zone ip)))
            end
        end
    end.

(** The address or the error, and the reason string that is returned in
    either case. *)
Definition safeResolve (config : Config) (network addr : string)
    : M (result TCPAddr * string) :=
  Incr1 "resolver.attempts_total" [] ;;;
  let! resolved := resolveTCPAddr config network addr in
  match resolved with
  | Fail err => Incr1 "resolver.errors_total" [] ;;; ret (Fail err, "")
  | Ok resolved =>
      let classification := classifyAddr config resolved in
      Incr1 (statsdString classification) [] ;;;
      if IsAllowed classification then ret (Ok resolved, ipType_String classification)
      else ret (Fail (denyError (Err ("The destination address (" +:+ IP_String (tcp_IP resolved)
                  +:+ ") was denied by rule '" +:+ ipType_String classification +:+ "'"))),
                "destination address was denied by rule, see error")
  end.

(** ** Dialling

    [userdata] is an [interface{}]: [None] when its dynamic type is not
    [*ctxUserData].  The decision it points to is shared with the request
    context and [dial] writes to it, so the user data is returned. *)
Definition set_reason (d : aclDecision) (reason : string) : aclDecision :=
  mkAclDecision reason (d_role d) (d_project d) (d_outboundHost d) (d_resolvedAddr d)
    (d_allow d) (d_enforceWouldDeny d).

Definition set_decision (u : ctxUserData) (d : option aclDecision) : ctxUserData :=
  mkCtxUserData (ud_start u) d (ud_traceId u).

(** [config.ConnTracker.NewInstrumentedConn(conn, role, outboundHost)]: the new
    object is the first address that is not in use. *)
Definition track_conn (conn : nat) (role outboundHost : string) : M nat :=
  let! now := Now in
  let! start := Now in
  let! id := act (AStore conn role outboundHost now start) in
  act AWgAdd ;;;
  ret id.

(** [Close] of a tracked connection. *)
Definition close_conn (id : nat) : M (option error) :=
  let! r := act (AClose id env_Now env_Close) in
  match r with Ret err => ret err | Panic s => panic s end.

Definition connect (config : Config) (network : string) (resolved : TCPAddr)
    (role outboundHost : string) : M (result nat) :=
  Incr1 "cn.atpt.total" [] ;;;
  let! conn := DialTimeout network (TCPAddr_String resolved) (ConnectTimeout config) in
  match conn with
  | Fail err => Incr1 "cn.atpt.fail.total" [] ;;; ret (Fail err)
  | Ok conn =>
      Incr1 "cn.atpt.success.total" [] ;;;
      let! ic := track_conn conn role outboundHost in ret (Ok ic)
  end.

(** The branch of [dial] that resolves: the result of [safeResolve] and the
    user data with the reason written to its decision. *)
Definition dial_resolve (config : Config) (network addr : string) (userdata : option ctxUserData)
    : M (result TCPAddr * option ctxUserData) :=
  let! (r, reason) := safeResolve config network addr in
  match userdata with
  | None => panic "interface conversion"
  | Some v =>
      match ud_decision v with
      | None => panic "invalid memory address or nil pointer dereference"
      | Some d =>
          match r with
          | Fail err =>
              if is_denyError err
              then WithFields [("address", LString addr); ("error", LError err)]
                     LErr "unexpected illegal address in dialer"
              else ret tt
          | Ok _ => ret tt
          end ;;;
          ret (r, Some (set_decision v (Some (set_reason d reason))))
      end
  end.

Definition dial (config : Config) (network addr : string) (userdata : option ctxUserData)
    : M (result nat * option ctxUserData) :=
  let! (role, outboundHost, resolved) :=
    match userdata with
    | Some v =>
        match ud_decision v with
        | Some d => ret (d_role d, d_outboundHost d, d_resolvedAddr d)
        | None => panic "invalid memory address or nil pointer dereference"
        end
    | None => ret ("", "", None)
    end in
  let! (r, userdata) :=
    match resolved with
    | None => dial_resolve config network addr userdata
    | Some a =>
        if negb (String.eqb addr outboundHost) || negb (String.eqb network "tcp")
        then dial_resolve config network addr userdata else ret (Ok a, userdata)
    end in
  match r with
  | Fail err => ret (Fail err, userdata)
  | Ok resolved =>
      let! c := connect config network resolved role outboundHost in
      ret (c, userdata)
  end.

(** ** Responses *)

(** [goproxy.NewResponse] *)
Definition NewResponse (contentType : string) (status : Z) (body : string) : Response :=
  mkResponse "" status 0 0 (Header_Set ∅ "Content-Type" contentType) body
    (Z.of_nat (String.length body)).

Definition rejectResponse (req : Request) (config : Config) (err : error) : M Response :=
  let! msg :=
    match err with
    | denyError _ =>
        ret ("Egress proxying is denied to host '" +:+ Host req +:+ "': " +:+ Error err +:+ ".")
    | _ =>
        WithFields [("error", LError err)] LWarn "rejectResponse called with unexpected error" ;;;
        ret "An unexpected error occurred."
    end in
  let msg :=
    if negb (String.eqb (AdditionalErrorMessageOnDeny config) "")
    then msg +:+ newline +:+ newline +:+ AdditionalErrorMessageOnDeny config +:+ newline
    else msg in
  let resp := NewResponse "text/plain" 407 (msg +:+ newline) in
  ret (mkResponse "Request Rejected by Proxy" (StatusCode resp) (ProtoMajor req) (ProtoMinor req)
         (Header_Set (RespHeader resp) errorHeader msg) (Body resp) (ContentLength resp)).

(** ** ACL and address checks of a request *)
Definition new_decision (outboundHost : string) : aclDecision :=
  mkAclDecision "" "" "" outboundHost None false false.

Definition set_role (d : aclDecision) (role : string) : aclDecision :=
  mkAclDecision (d_reason d) role (d_project d) (d_outboundHost d) (d_resolvedAddr d)
    (d_allow d) (d_enforceWouldDeny d).
Definition set_allow (d : aclDecision) (allow enforceWouldDeny : bool) : aclDecision :=
  mkAclDecision (d_reason d) (d_role d) (d_project d) (d_outboundHost d) (d_resolvedAddr d)
    allow enforceWouldDeny.
Definition set_resolved (d : aclDecision) (a : TCPAddr) : aclDecision :=
  mkAclDecision (d_reason d) (d_role d) (d_project d) (d_outboundHost d) (Some a)
    (d_allow d) (d_enforceWouldDeny d).

Definition bool_string (b : bool) : string := if b then "true" else "false".

Definition checkACLsForRequest (config : Config) (req : Request) (outboundHost : string)
    : M aclDecision :=
  let decision := new_decision outboundHost in
  match EgressACL config with
  | None => ret (set_allow (set_reason decision "Egress ACL is not configured") true false)
  | Some decide =>
      let! (role, roleErr) := getRole config req in
      match roleErr with
      | Some _ =>
          Incr1 "acl.role_not_determined" [] ;;;
          ret (set_reason decision "Client role cannot be determined")
      | None =>
          let decision := set_role decision role in
          match hostExtract outboundHost with
          | None => panic "index out of range"
          | Some destination =>
              match decide role destination with
              | (aclD, Some err) =>
                  WithFields [("error", LError err); ("role", LString role)]
                    LWarn "EgressAcl.Decide returned an error." ;;;
                  Incr1 "acl.decide_error" [] ;;;
                  ret (set_reason decision (Reason aclD))
              | (aclD, None) =>
                  let tags := ["role:" +:+ d_role decision;
                               "def_rule:" +:+ bool_string (Default aclD);
                               "project:" +:+ Decision_Project aclD] in
                  let decision := set_reason decision (Reason aclD) in
                  if Result aclD =? Deny then
                    Incr1 "acl.deny" tags ;;; ret (set_allow decision false true)
                  else if Result aclD =? AllowAndReport then
                    Incr1 "acl.report" tags ;;; ret (set_allow decision true true)
                  else if Result aclD =? Allow then
                    Incr1 "acl.allow" tags ;;; ret (set_allow decision true false)
                  else
                    match DecisionResult_String (Result aclD) with
                    | None => panic "index out of range"
                    | Some action =>
                        WithFields [("role", LString role); ("destination", LString destination);
                                    ("action", LString action)] LWarn "Unknown ACL action" ;;;
                        Incr1 "acl.unknown_error" tags ;;;
                        ret (set_reason decision "Internal error")
                    end
              end
          end
      end
  end.

(** The decision and the error: both are returned in every case. *)
Definition checkIfRequestShouldBeProxied (config : Config) (req : Request) (outboundHost : string)
    : M (aclDecision * option error) :=
  let! decision := checkACLsForRequest config req outboundHost in
  if d_allow decision then
    let! (resolved, reason) := safeResolve config "tcp" outboundHost in
    match resolved with
    | Fail err =>
        if negb (is_denyError err) then ret (decision, Some err)
        else ret (set_allow (set_reason decision (Error err +:+ ". " +:+ reason)) false true, None)
    | Ok resolved => ret (set_resolved decision resolved, None)
    end
  else ret (decision, None).

(** ** Logging a decision *)

(** [goproxy.ProxyCtx]; [RoundTrip] is nil until the request was sent. *)
Record ProxyCtx := mkProxyCtx {
  ctx_Req : Request;
  ctx_Resp : option Response;
  ctx_RoundTrip : option (option TCPAddr);
  ctx_Error : option error;
  ctx_UserData : option ctxUserData
}.

Definition log_fields (ctx : ProxyCtx) (proxyType : string) (toAddress : option TCPAddr)
    (decision : option aclDecision) (traceID : string) (start : Z) (err : option error)
    : gmap string LogValue :=
  let req := ctx_Req ctx in
  let contentLength := match ctx_Resp ctx with Some r => ContentLength r | None => 0 end in
  let '(fromHost, fromPort) :=
    match SplitHostPort (RemoteAddr req) with Ok hp => hp | Fail _ => ("", "") end in
  let fields : gmap string LogValue :=
    list_to_map [("proxy_type", LString proxyType); ("src_host", LString fromHost);
      ("src_port", LString fromPort); ("requested_host", LString (Host req));
      ("start_time", LInt (start / second)); ("content_length", LInt contentLength);
      ("trace_id", LString traceID)] in
  let fields :=
    match toAddress with
    | Some a => <["dest_port" := LInt (tcp_Port a)]>
                  (<["dest_ip" := LString (IP_String (tcp_IP a))]> fields)
    | None => fields
    end in
  let fields := <["src_host_common_name" := LString "unknown"]> fields in
  let fields := <["src_host_organization_unit" := LString "unknown"]> fields in
  let fields :=
    match PeerCertificates req with
    | Some (cert :: _) =>
        let fields := <["src_host_common_name" := LString (CommonName cert)]> fields in
        match OrganizationalUnit cert with
        | ou :: _ => <["src_host_organization_unit" := LString ou]> fields
        | [] => fields
        end
    | _ => fields
    end in
  let fields :=
    match decision with
    | Some d =>
        <["allow" := LBool (d_allow d)]>
          (<["enforce_would_deny" := LBool (d_enforceWouldDeny d)]>
             (<["decision_reason" := LString (d_reason d)]>
                (<["project" := LString (d_project d)]>
                   (<["role" := LString (d_role d)]> fields))))
    | None => fields
    end in
  match err with
  | Some e => <["error" := LString (Error e)]> fields
  | None => fields
  end.

Definition log_level (decision : option aclDecision) (err : option error) : Level :=
  let is_error := match err with Some e => negb (is_denyError e) | None => false end in
  if is_error then LErr
  else match decision with
       | Some d => if d_allow d then LInfo else LWarn
       | None => LWarn
       end.

Definition logProxy (ctx : ProxyCtx) (proxyType : string) (toAddress : option TCPAddr)
    (decision : option aclDecision) (traceID : string) (start : Z) (err : option error) : M unit :=
  act (ALog (mkLogEntry (log_level decision err) LOGLINE_CANONICAL_PROXY_DECISION
               (log_fields ctx proxyType toAddress decision traceID start err))).

Definition logHTTP (ctx : ProxyCtx) : M unit :=
  let toAddr := match ctx_RoundTrip ctx with Some a => a | None => None end in
  match ctx_UserData ctx with
  | None => panic "interface conversion"
  | Some u =>
      logProxy ctx "http" toAddr (ud_decision u) (ud_traceId u) (ud_start u) (ctx_Error ctx)
  end.
End proxy.
