(* ===== verification/Serve.v ===== *)
(** * The handlers of the proxy and the server around them

    The three functions that [BuildProxy] registers and [handleConnect]
    ([src/pkg/smokescreen/smokescreen.go]), the health check
    ([healthcheck.go]), and the way [goproxy] calls them
    ([src/vendor/github.com/elazarl/goproxy], [proxy.go], [https.go] and
    [transport/transport.go]).

    The handlers share the request context and the decision it points to;
    each takes the context and returns it as it is afterwards.  What the
    transport does besides dialling (target address, its own resolution, setting
    the connection up, the answer) is the class [Transport]; [Upstream.v] gives
    goproxy's own transport as an instance. *)

From S2P Require Import Prelude GoStrings GoNet Acl Http Config Classify Conntrack Proxy.

Definition set_Resp (ctx : ProxyCtx) (r : option Response) : ProxyCtx :=
  mkProxyCtx (ctx_Req ctx) r (ctx_RoundTrip ctx) (ctx_Error ctx) (ctx_UserData ctx).
Definition set_Req (ctx : ProxyCtx) (r : Request) : ProxyCtx :=
  mkProxyCtx r (ctx_Resp ctx) (ctx_RoundTrip ctx) (ctx_Error ctx) (ctx_UserData ctx).
Definition set_Error (ctx : ProxyCtx) (e : option error) : ProxyCtx :=
  mkProxyCtx (ctx_Req ctx) (ctx_Resp ctx) (ctx_RoundTrip ctx) e (ctx_UserData ctx).
Definition set_UserData (ctx : ProxyCtx) (u : option ctxUserData) : ProxyCtx :=
  mkProxyCtx (ctx_Req ctx) (ctx_Resp ctx) (ctx_RoundTrip ctx) (ctx_Error ctx) u.
Definition set_RoundTrip (ctx : ProxyCtx) (d : option (option TCPAddr)) : ProxyCtx :=
  mkProxyCtx (ctx_Req ctx) (ctx_Resp ctx) d (ctx_Error ctx) (ctx_UserData ctx).

Definition del_header (ctx : ProxyCtx) (key : string) : ProxyCtx :=
  set_Req ctx (set_ReqHeader (ctx_Req ctx) (Header_Del (ReqHeader (ctx_Req ctx)) key)).

(** The address that the HTTP handler asks about. *)
Definition remote_host (req : Request) : string :=
  if LastIndex (Host req) ":" <=? LastIndex (Host req) "]" then
    if String.eqb (Scheme req) "http" then JoinHostPort (Host req) "80"
    else if String.eqb (Scheme req) "https" then JoinHostPort (Host req) "443"
    else JoinHostPort (Host req) "0"
  else Host req.

Inductive ConnectAction := OkConnect | RejectConnect.

Section handlers.
Context `{E : Env}.
Variable config : Config.

(** [proxy.OnRequest().DoFunc(...)] *)
Definition on_request (ctx : ProxyCtx) : M (ProxyCtx * option Response) :=
  let! start := Now in
  let req := ctx_Req ctx in
  let remoteHost := remote_host req in
  WithFields [("source_ip", LString (RemoteAddr req)); ("requested_host", LString (Host req));
              ("url", LString (RequestURI req));
              ("trace_id", LString (Header_Get (ReqHeader req) traceHeader))]
    LDebug "received HTTP proxy request" ;;;
  let! (decision, err) := checkIfRequestShouldBeProxied config req remoteHost in
  let userData := mkCtxUserData start (Some decision) (Header_Get (ReqHeader req) traceHeader) in
  let ctx := set_UserData ctx (Some userData) in
  let ctx := del_header (del_header ctx roleHeader) traceHeader in
  match err with
  | Some err =>
      let! resp := rejectResponse (ctx_Req ctx) config err in
      ret (set_Error ctx (Some err), Some resp)
  | None =>
      if negb (d_allow decision) then
        let! resp := rejectResponse (ctx_Req ctx) config (denyError (Err (d_reason decision))) in
        ret (ctx, Some resp)
      else ret (ctx, None)
  end.

(** [handleConnect]: the context afterwards and the error. *)
Definition handleConnect (ctx : ProxyCtx) : M (ProxyCtx * option error) :=
  let req := ctx_Req ctx in
  let traceId := Header_Get (ReqHeader req) traceHeader in
  WithFields [("remote", LString (RemoteAddr req)); ("requested_host", LString (Host req));
              ("trace_id", LString traceId)] LDebug "received CONNECT proxy request" ;;;
  let! start := Now in
  let! (decision, err) := checkIfRequestShouldBeProxied config req (Host req) in
  match ctx_UserData ctx with
  | None => panic "interface conversion"
  | Some u =>
      let ctx := set_UserData ctx (Some (mkCtxUserData (ud_start u) (Some decision) traceId)) in
      logProxy ctx "connect" (d_resolvedAddr decision) (Some decision) traceId start err ;;;
      match err with
      | Some err => ret (ctx, Some err)
      | None =>
          if negb (d_allow decision) then ret (ctx, Some (denyError (Err (d_reason decision))))
          else ret (ctx, None)
      end
  end.

(** [proxy.OnRequest().HandleConnectFunc(...)] *)
Definition on_connect (host : string) (ctx : ProxyCtx)
    : M (ProxyCtx * (ConnectAction * string)) :=
  let! start := Now in
  let ctx := set_UserData ctx (Some (mkCtxUserData start None "")) in
  let! (ctx, err) := handleConnect ctx in
  match err with
  | Some err =>
      let! resp := rejectResponse (ctx_Req ctx) config err in
      ret (del_header (set_Resp ctx (Some resp)) traceHeader, (RejectConnect, ""))
  | None => ret (del_header ctx traceHeader, (OkConnect, host))
  end.

(** [proxy.OnResponse().DoFunc(...)]; the warning goes to the standard logger
    with the error formatted into the message. *)
Definition on_response (resp : option Response) (ctx : ProxyCtx) : M (option Response) :=
  let resp :=
    match resp with
    | Some r => Some (set_RespHeader r (Header_Del (RespHeader r) errorHeader))
    | None => None
    end in
  match resp, ctx_Error ctx with
  | None, Some err =>
      WithFields [("error", LError err)] LWarn "rejecting with" ;;;
      let! r := rejectResponse (ctx_Req ctx) config err in ret (Some r)
  | _, _ => logHTTP ctx ;;; ret resp
  end.

(** ** goproxy *)

(** What the transport does on its own: the address to dial for a request (of
    the target or of an upstream proxy from the environment), a resolution of
    its own before the dial hook runs, the error it makes of a failed dial, what
    it does on the new connection before the request is sent (an upstream proxy,
    TLS: if this fails, whether the connection is closed, and the error), and
    sending the request.  [Upstream.v] gives an instance. *)
Class Transport := {
  tr_addr : Request → result string;
  tr_ResolveTCPAddr : list Event → string → result TCPAddr;
  tr_dial_error : Request → error → error;
  tr_setup : list Event → Request → nat → option (bool * outcome error);
  tr_roundTrip : list Event → Request → nat → outcome (result Response);
  tr_https_proxy : Request → string;   (* from the environment; empty when none *)
  tr_upstream : list Event → string → nat → bool;   (* CONNECT through it succeeded *)
  tr_url_Parse : string → result (string * string * string)
}.
Context `{T : Transport}.

Definition removeProxyHeaders (r : Request) : Request :=
  let h := Header_Del (Header_Del (Header_Del (ReqHeader r) "Accept-Encoding") "Proxy-Connection")
             "Connection" in
  mkRequest (Method r) (Host r) (Scheme r) (URL_Host r) (Path r) "" (RemoteAddr r)
    (ProtoMajor r) (ProtoMinor r) h (PeerCertificates r).

(** [DetailedRoundTrip]: the details, the response or error, and the user data
    that the dial hook may have written to. *)
Definition DetailedRoundTrip (req : Request) (userdata : option ctxUserData)
    : M (option (option TCPAddr) * result Response * option ctxUserData) :=
  match tr_addr req with
  | Fail err => ret (None, Fail err, userdata)
  | Ok addr =>
      let! h := history in
      match tr_ResolveTCPAddr h addr with
      | Fail err => ret (None, Fail (tr_dial_error req err), userdata)
      | Ok ip =>
          let! (conn, userdata) := dial config "tcp" addr userdata in
          match conn with
          | Fail err => ret (None, Fail (tr_dial_error req err), userdata)
          | Ok conn =>
              let! h := history in
              match tr_setup h req conn with
              | Some (closed, err) =>
                  (if closed then close_conn conn else ret None) ;;;
                  match err with
                  | Ret err => ret (None, Fail err, userdata)
                  | Panic what => panic what
                  end
              | None =>
                  let! h := history in
                  match tr_roundTrip h req conn with
                  | Ret resp => ret (Some (Some ip), resp, userdata)
                  | Panic what => panic what
                  end
              end
          end
      end
  end.

(** What the client gets.  [Health] is the answer of the health check. *)
Inductive Reply :=
| Answer (resp : Response)
| HttpError (msg : string)
| Rejected (resp : option Response)
| BadGateway
| UpstreamFailed
| Tunnel (conn : nat)
| Health.

Definition filterResponse (resp : option Response) (ctx : ProxyCtx)
    : M (option Response * ProxyCtx) :=
  let ctx := set_Resp ctx resp in
  let! resp := on_response resp ctx in
  ret (resp, ctx).

(** Sending the request when no handler answered it. *)
Definition send_request (ctx : ProxyCtx) : M (option Response * ProxyCtx) :=
  let ctx := set_Req ctx (removeProxyHeaders (ctx_Req ctx)) in
  let! (details, resp, userdata) := DetailedRoundTrip (ctx_Req ctx) (ctx_UserData ctx) in
  let ctx := set_RoundTrip (set_UserData ctx userdata) details in
  match resp with
  | Ok resp => ret (Some resp, ctx)
  | Fail err => filterResponse None (set_Error ctx (Some err))
  end.

(** The branch of [ServeHTTP] for everything but CONNECT, once the URL is
    absolute. *)
Definition serve_absolute (ctx : ProxyCtx) : M Reply :=
  let! (ctx, resp) := on_request ctx in
  let! (resp, ctx) :=
    match resp with
    | Some resp => ret (Some resp, ctx)
    | None => send_request ctx
    end in
  match resp with
  | None => ret (HttpError (match ctx_Error ctx with Some e => Error e | None => "" end))
  | Some resp =>
      let! (resp, _) := filterResponse (Some resp) ctx in
      match resp with
      | Some resp => ret (Answer resp)
      | None => panic "invalid memory address or nil pointer dereference"
      end
  end.

Definition new_ctx (req : Request) : ProxyCtx := mkProxyCtx req None None None None.

Definition serve_http (req : Request) : M Reply :=
  if negb (String.eqb (Scheme req) "") then serve_absolute (new_ctx req)
  else if String.eqb (Host req) "" then panic "invalid memory address or nil pointer dereference"
  else match tr_url_Parse ("http://" +:+ Host req +:+ Path req) with
       | Fail err => ret (HttpError (Error err))
       | Ok (scheme, host, path) =>
           serve_absolute (new_ctx (mkRequest (Method req) (Host req) scheme host path
             (RequestURI req) (RemoteAddr req) (ProtoMajor req) (ProtoMinor req)
             (ReqHeader req) (PeerCertificates req)))
       end.

(** The expression [:\d+] at the end of a string. *)
Definition hasPort (s : string) : bool :=
  let i := LastIndex s ":" in
  if i <? 0 then false
  else let port := str_drop (S (Z.to_nat i)) s in
       negb (String.eqb port "") && str_all is_digit port.

(** [handleHttps] *)
Definition serve_connect (req : Request) : M Reply :=
  let! (ctx, (todo, host)) := on_connect (URL_Host req) (new_ctx req) in
  match todo with
  | RejectConnect => ret (Rejected (ctx_Resp ctx))
  | OkConnect =>
      let host := if hasPort host then host else host +:+ ":80" in
      let https_proxy := tr_https_proxy (ctx_Req ctx) in
      let! (conn, _) :=
        dial config "tcp" (if negb (String.eqb https_proxy "") then https_proxy else host)
          (ctx_UserData ctx) in
      match conn with
      | Fail _ => ret BadGateway
      | Ok conn =>
          let! h := history in
          if negb (String.eqb https_proxy "") && negb (tr_upstream h host conn)
          then close_conn conn ;;; ret UpstreamFailed
          else ret (Tunnel conn)
      end
  end.

(** [ServeHTTP] *)
Definition proxy_ServeHTTP (req : Request) : M Reply :=
  if String.eqb (Method req) "CONNECT" then serve_connect req else serve_http req.

(** [HealthcheckMiddleware.ServeHTTP], and how [StartWithConfig] picks the
    handler; [healthcheck] says whether one is configured. *)
Definition HealthcheckMiddleware_ServeHTTP (req : Request) : M Reply :=
  if String.eqb (Path req) "/healthcheck" then ret Health else proxy_ServeHTTP req.

Definition handler (healthcheck : bool) (req : Request) : M Reply :=
  if healthcheck then HealthcheckMiddleware_ServeHTTP req else proxy_ServeHTTP req.

(** Requests one after another: the HTTP server recovers a panic, drops the
    connection and goes on with the next request. *)
Fixpoint serve_all (healthcheck : bool) (reqs : list Request) (w : World)
    : list (outcome Reply) * World :=
  match reqs with
  | [] => ([], w)
  | req :: reqs =>
      let '(r, w) := handler healthcheck req w in
      let '(rs, w) := serve_all healthcheck reqs w in (r :: rs, w)
  end.
End handlers.
