(* ===== verification/Logic.v ===== *)
(** * A program logic for the handlers

    What a computation of [Proxy.v] and [Serve.v] does is proved once, against
    an interface: a [Logic] has the rules for returning, panicking and
    sequencing, [Actions] and [Closes] say that it accepts the primitives.  The
    logics that implement it: [steps_in R] here (every atomic action moves the
    process along [R], whatever other goroutines did before it), the log lines
    of one goroutine ([Handling.v]), the balance of the wait group
    ([Concurrent.v]) and the absence of an action ([only], [Owners.v]). *)

From S2P Require Import Prelude GoStrings GoNet Acl Http Config Classify Conntrack Proxy Serve.

(** ** The interface *)
Definition Judgement := ∀ A, M A → (A → Prop) → Prop.

Definition holds (L : Judgement) {A} (m : M A) (Q : A → Prop) : Prop := L A m Q.

#[global] Arguments holds : simpl never.

Class Logic (L : Judgement) := {
  spec_ret {A} (a : A) (Q : A → Prop) : Q a → holds L (ret a) Q;
  spec_panic {A} s (Q : A → Prop) : holds L (panic s) Q;
  spec_bind {A B} (m : M A) (k : A → M B) Q Q' :
    holds L m Q → (∀ a, Q a → holds L (k a) Q') → holds L (bind m k) Q';
  spec_weaken {A} (m : M A) (Q Q' : A → Prop) :
    holds L m Q → (∀ a, Q a → Q' a) → holds L m Q'
}.

Definition not_dial (ev : Event) : Prop := match ev with EvDial _ _ _ => False | _ => True end.

(** What a logic accepts: counters and log lines other than the decision line,
    and every other primitive but dialling. *)
Class Quiet (L : Judgement) := {
  spec_Incr1 name tags : holds L (Incr1 name tags) (λ _, True);
  spec_WithFields fields l msg :
    msg ≠ LOGLINE_CANONICAL_PROXY_DECISION → holds L (WithFields fields l msg) (λ _, True)
}.
Class Actions `{E : Env} (L : Judgement) := {
  actions_quiet :: Quiet L;
  spec_history : holds L history (λ _, True);
  spec_call {A} ev (f : list Event → A) : not_dial ev → holds L (call ev f) (λ _, True);
  spec_track_conn conn role host : holds L (track_conn conn role host) (λ _, True)
}.

(** Only setting up a connection through an upstream proxy closes one. *)
Class Closes `{E : Env} (L : Judgement) :=
  spec_close_conn id : holds L (close_conn id) (λ _, True).

Class LogsDecision (L : Judgement) :=
  spec_logProxy ctx ty a d t s e : holds L (logProxy ctx ty a d t s e) (λ _, True).

(** ** What the ACL permits *)

(** The role that a request acts in, when it can be determined. *)
Definition role_of (config : Config) (req : Request) : option string :=
  match RoleFromRequest config with
  | None => if AllowMissingRole config then Some "" else None
  | Some f =>
      match f req with
      | (role, None) => Some role
      | (_, Some err) => if IsMissingRoleError err && AllowMissingRole config then Some "" else None
      end
  end.

(** A request to a host is permitted when no ACL is configured, or when its
    role is known, the host part of the address can be extracted and the ACL
    answers "allow" or "allow and report". *)
Definition acl_permits (config : Config) (req : Request) (outboundHost : string) : Prop :=
  match EgressACL config with
  | None => True
  | Some decide =>
      ∃ role dest d, role_of config req = Some role ∧ hostExtract outboundHost = Some dest ∧
        decide role dest = (d, None) ∧ (Result d = Allow ∨ Result d = AllowAndReport)
  end.

#[global] Instance acl_permits_dec config req host : base.Decision (acl_permits config req host).
Proof.
  unfold acl_permits. destruct (EgressACL config) as [decide|]; [|by left].
  destruct (role_of config req) as [role|]; [|right; naive_solver].
  destruct (hostExtract host) as [dest|]; [|right; naive_solver].
  destruct (decide role dest) as [d [err|]] eqn:Hd.
  - right. intros (? & ? & ? & [= <-] & [= <-] & He & _). rewrite Hd in He. by simplify_eq.
  - destruct (decide_rel (=) (Result d) Allow) as [H|H]; [left; by exists role, dest, d; auto|].
    destruct (decide_rel (=) (Result d) AllowAndReport) as [H'|H'];
      [left; by exists role, dest, d; auto|].
    right. intros (? & ? & ? & [= <-] & [= <-] & He & Hr). rewrite Hd in He. simplify_eq. tauto.
Defined.

(** An address that may be connected to, and user data that holds no other. *)
Definition allowed (config : Config) (a : TCPAddr) : Prop :=
  IsAllowed (classifyAddr config a) = true.

Definition decision_ok (config : Config) (d : aclDecision) : Prop :=
  ∀ a, d_resolvedAddr d = Some a → allowed config a.

Definition userdata_ok (config : Config) (u : option ctxUserData) : Prop :=
  ∀ v d, u = Some v → ud_decision v = Some d → decision_ok config d.

(** Dials of allowed addresses are within the logic. *)
Definition dial_ok (L : Judgement) (config : Config) : Prop :=
  ∀ A (f : list Event → A) a t, allowed config a →
    holds L (call (EvDial "tcp" (TCPAddr_String a) t) f) (λ _, True).

Create HintDb spec.

(** One step of a proof about a program: split a bind, a match or a
    conditional, or use a lemma about the program that is called. *)
Ltac spec_step :=
  match goal with
  | |- holds _ (let '(_, _) := ?x in _) _ => destruct x as [??] eqn:?
  | |- holds _ (match ?x with _ => _ end) _ => destruct x eqn:?
  | |- holds _ (ret _) _ => apply spec_ret
  | |- holds _ (panic _) _ => apply spec_panic
  | |- holds _ (bind _ _) _ =>
      first [ eapply spec_bind; [by eauto with spec|intros ? ?]
            | eapply (spec_bind _ _ (λ _, True)); [|intros ? _] ]
  end.
Ltac spec_auto := repeat (simpl in *; spec_step); simpl in *; eauto with spec.

Section programs.
Context (L : Judgement) `{!Logic L}.

Section quiet.
Context `{!Quiet L}.

#[local] Hint Resolve spec_Incr1 : spec.
#[local] Hint Extern 1 (holds _ (WithFields _ _ _) _) =>
  (apply spec_WithFields; discriminate) : spec.

Lemma spec_getRole config req :
  holds L (getRole config req)
    (λ r, role_of config req = match r.2 with None => Some r.1 | Some _ => None end).
Proof.
  unfold getRole, role_of. destruct (RoleFromRequest config) as [f|]; simpl.
  - destruct (f req) as [role [err|]]; spec_auto.
  - destruct (AllowMissingRole config); spec_auto.
Qed.
#[local] Hint Resolve spec_getRole : spec.

Lemma spec_rejectResponse req config err : holds L (rejectResponse req config err) (λ _, True).
Proof. unfold rejectResponse. spec_auto. Qed.

(** The decision on the ACL: it allows exactly what is permitted. *)
Lemma spec_checkACLs config req host :
  holds L (checkACLsForRequest config req host)
    (λ d, d_outboundHost d = host ∧ d_project d = "" ∧ d_resolvedAddr d = None ∧
          (d_allow d = true ↔ acl_permits config req host)).
Proof.
  unfold checkACLsForRequest, acl_permits.
  destruct (EgressACL config) as [decide|]; [|spec_auto; done].
  spec_step. destruct a as [role [err|]]; simpl in *.
  { spec_auto. split_and!; try done. split; [done|]. intros (? & ? & ? & ? & ?). congruence. }
  destruct (hostExtract host) as [dest|] eqn:Hd; [|spec_auto].
  destruct (decide role dest) as [aclD [err|]] eqn:Hdec.
  { spec_auto. split_and!; try done. split; [done|].
    intros (? & ? & ? & ? & ? & ? & ?). simplify_eq. congruence. }
  assert (∀ b : bool, (b = true ↔ Result aclD = Allow ∨ Result aclD = AllowAndReport) →
    (b = true ↔ ∃ role dest0 d, role_of config req = Some role ∧ Some dest = Some dest0 ∧
      decide role dest0 = (d, None) ∧ (Result d = Allow ∨ Result d = AllowAndReport))) as Hb.
  { intros b ->. split.
    - intros ?. by exists role, dest, aclD.
    - intros (? & ? & d & ? & ? & ? & ?). simplify_eq. congruence. }
  unfold Deny, AllowAndReport, Allow in *.
  spec_auto; to_prop; (split_and!; try done); apply Hb; intuition (congruence || lia).
Qed.
#[local] Hint Resolve spec_checkACLs : spec.

End quiet.

Context `{E : Env} `{!Actions L}.
#[local] Hint Extern 0 (Quiet _) => apply _ : spec.
#[local] Hint Resolve spec_Incr1 spec_getRole spec_checkACLs spec_rejectResponse spec_history
  spec_track_conn : spec.
#[local] Hint Extern 1 (holds _ (WithFields _ _ _) _) =>
  (apply spec_WithFields; discriminate) : spec.

Lemma spec_Now : holds L Now (λ _, True).
Proof. by apply spec_call. Qed.
Lemma spec_LookupPort n p : holds L (LookupPort n p) (λ _, True).
Proof. by apply spec_call. Qed.
Lemma spec_LookupIPAddr r h : holds L (LookupIPAddr r h) (λ _, True).
Proof. by apply spec_call. Qed.

#[local] Hint Resolve spec_Now spec_LookupPort spec_LookupIPAddr : spec.

Lemma spec_resolveTCPAddr config network addr :
  holds L (resolveTCPAddr config network addr)
    (λ r, ∀ a, r = Ok a → network = "tcp").
Proof.
  unfold resolveTCPAddr. destruct (String.eqb network "tcp") eqn:E'; simpl; spec_auto; try done.
  all: apply String.eqb_eq in E'; done.
Qed.
#[local] Hint Resolve spec_resolveTCPAddr : spec.

(** What [safeResolve] returns as resolved is allowed. *)
Lemma spec_safeResolve config network addr :
  holds L (safeResolve config network addr)
    (λ r, ∀ a, r.1 = Ok a → network = "tcp" ∧ allowed config a).
Proof.
  unfold safeResolve. spec_auto; [|done|done]. intros ? [= <-]. eauto.
Qed.

#[local] Hint Resolve spec_safeResolve : spec.

(** The decision on a request: an address that it carries is allowed, it
    allows only what is permitted and then carries an address, and a request
    that is not permitted is denied without an error. *)
Lemma spec_check config req host :
  holds L (checkIfRequestShouldBeProxied config req host)
    (λ r, d_outboundHost r.1 = host ∧ d_project r.1 = "" ∧ decision_ok config r.1 ∧
          (r.2 = None → d_allow r.1 = true →
             acl_permits config req host ∧ is_Some (d_resolvedAddr r.1)) ∧
          (¬ acl_permits config req host → d_allow r.1 = false ∧ r.2 = None)).
Proof.
  unfold checkIfRequestShouldBeProxied. spec_step.
  destruct H as (Hh & Hp & Hr & Ha).
  destruct (d_allow a) eqn:Hal.
  - eapply spec_bind; [by eauto with spec|]. intros [r reason] Hres. simpl in *.
    assert (decision_ok config a) as Hok by (intros ?; congruence).
    assert (acl_permits config req host) as Hperm by tauto.
    destruct r as [addr|err]; [|destruct (negb (is_denyError err))];
      apply spec_ret; simpl; split_and!; try done.
    intros b [= <-]. by apply Hres.
  - apply spec_ret. simpl. split_and!; try done; [intros ?; congruence|].
    intros _ ?. congruence.
Qed.
#[local] Hint Resolve spec_check : spec.

(** ** Dialling *)
Lemma spec_connect config resolved role host :
  dial_ok L config → allowed config resolved →
  holds L (connect config "tcp" resolved role host) (λ _, True).
Proof.
  intros HD Ha. unfold connect. spec_step. eapply (spec_bind _ _ (λ _, True)).
  - by apply HD.
  - intros c _. spec_auto.
Qed.

(** What resolving in the dialler yields. *)
Definition resolved_ok (config : Config) (network : string)
    (r : result TCPAddr * option ctxUserData) : Prop :=
  (∀ a, r.1 = Ok a → network = "tcp" ∧ allowed config a) ∧ userdata_ok config r.2.

Lemma spec_dial_resolve config network addr u :
  userdata_ok config u →
  holds L (dial_resolve config network addr u) (resolved_ok config network).
Proof.
  intros Hu. unfold dial_resolve.
  eapply spec_bind; [by eauto with spec|]. intros [r reason] Hr. simpl in Hr.
  destruct u as [v|]; [|spec_auto]. destruct (ud_decision v) as [d|] eqn:Hd; [|spec_auto].
  eapply (spec_bind _ _ (λ _, True)); [spec_auto|intros _ _].
  apply spec_ret. split; [done|]. simpl. intros v' d' [= <-] [= <-] a Ha.
  by apply (Hu v d).
Qed.

Lemma spec_dial config network addr u :
  dial_ok L config → userdata_ok config u →
  holds L (dial config network addr u) (λ r, userdata_ok config r.2).
Proof.
  intros HD Hu. pose proof (spec_dial_resolve config network addr u Hu) as HR. unfold dial.
  eapply (spec_bind _ _ (λ r, ∀ a, r.2 = Some a → allowed config a)).
  { destruct u as [v|]; [|spec_auto; done].
    destruct (ud_decision v) as [d|] eqn:Hd; spec_auto. by apply (Hu v d). }
  intros [[role host] resolved] Hres. simpl in Hres.
  eapply (spec_bind _ _ (resolved_ok config network)).
  - destruct resolved as [a|]; [|done].
    destruct (negb (String.eqb addr host) || negb (String.eqb network "tcp")) eqn:Hc; [done|].
    to_prop. destruct Hc as [_ ->].
    apply spec_ret. split; [|done]. intros b [= <-]. by auto.
  - intros [[a|err] u'] [Hr Hu']; simpl in *; [|spec_auto].
    destruct (Hr a eq_refl) as [-> Hal].
    eapply spec_bind; [apply spec_connect; auto|]. intros c _. spec_auto.
Qed.
(** ** The handlers and the server *)
Context `{!LogsDecision L} `{T : Transport} (config : Config).

#[local] Hint Resolve spec_logProxy : spec.

Lemma spec_logHTTP ctx : holds L (logHTTP ctx) (λ _, True).
Proof. unfold logHTTP. spec_auto. Qed.

#[local] Hint Resolve spec_logHTTP : spec.

(** A request that the handler lets through is permitted, and the decision of
    its context is in order. *)
Lemma spec_on_request ctx :
  holds L (on_request config ctx)
    (λ r, userdata_ok config (ctx_UserData r.1) ∧
          (r.2 = None → acl_permits config (ctx_Req ctx) (remote_host (ctx_Req ctx)))).
Proof.
  unfold on_request. spec_step. spec_step. spec_step.
  destruct a1 as [d err]. destruct H1 as (Hh & Hp & Hok & Hal & Hden). simpl in *.
  assert (userdata_ok config (Some (mkCtxUserData a (Some d)
    (Header_Get (ReqHeader (ctx_Req ctx)) traceHeader)))) as Hu.
  { intros v d' [= <-] [= <-]. done. }
  destruct err as [err|]; [spec_auto; by split|].
  destruct (d_allow d) eqn:Hd; simpl; [|spec_auto; by split].
  apply spec_ret. split; [done|]. intros _. by apply Hal.
Qed.

Lemma spec_handleConnect ctx :
  holds L (handleConnect config ctx)
    (λ r, userdata_ok config (ctx_UserData r.1) ∧
          (r.2 = None → acl_permits config (ctx_Req ctx) (Host (ctx_Req ctx)))).
Proof.
  unfold handleConnect. spec_step. spec_step. spec_step.
  destruct a1 as [d err]. destruct H1 as (Hh & Hp & Hok & Hal & Hden). simpl in *.
  destruct (ctx_UserData ctx) as [u|]; [|spec_auto]. spec_step.
  assert (∀ s t, userdata_ok config (Some (mkCtxUserData s (Some d) t))) as Hu.
  { intros s t v d' [= <-] [= <-]. done. }
  destruct err as [err|]; [spec_auto; by split|].
  destruct (d_allow d) eqn:Hd; simpl; [|spec_auto; by split].
  apply spec_ret. split; [apply Hu|]. intros _. by apply Hal.
Qed.
#[local] Hint Resolve spec_on_request spec_handleConnect : spec.

Lemma spec_on_connect host ctx :
  holds L (on_connect config host ctx)
    (λ r, userdata_ok config (ctx_UserData r.1) ∧
          (r.2.1 = OkConnect → acl_permits config (ctx_Req ctx) (Host (ctx_Req ctx)))).
Proof.
  unfold on_connect. spec_step. spec_step. destruct a0 as [c [err|]]; simpl in *.
  - spec_auto. destruct H0 as [Hu _]. split; [exact Hu|done].
  - apply spec_ret. simpl. split; [tauto|]. intros _. by apply H0.
Qed.

Lemma spec_on_response resp ctx : holds L (on_response config resp ctx) (λ _, True).
Proof. unfold on_response. spec_auto. Qed.
#[local] Hint Resolve spec_on_connect spec_on_response : spec.

Lemma spec_filterResponse resp ctx :
  holds L (filterResponse config resp ctx) (λ _, True).
Proof. unfold filterResponse. spec_auto. Qed.
#[local] Hint Resolve spec_filterResponse : spec.

Section permitted.
Context `{!Closes L}.
Hypothesis HD : dial_ok L config.

Lemma spec_DetailedRoundTrip req u :
  userdata_ok config u → holds L (DetailedRoundTrip config req u) (λ _, True).
Proof.
  intros Hu. unfold DetailedRoundTrip. destruct (tr_addr req) as [addr|]; [|spec_auto].
  spec_step. rename a into h.
  destruct (tr_ResolveTCPAddr h addr) as [ip|]; [|spec_auto].
  eapply spec_bind; [by apply spec_dial|]. intros [[c|] u'] _; [|spec_auto].
  spec_step. destruct (tr_setup a req c) as [[closed err]|].
  - eapply (spec_bind _ _ (λ _, True)); [destruct closed; spec_auto|intros _ _].
    destruct err; spec_auto.
  - spec_step. destruct (tr_roundTrip a0 req c); spec_auto.
Qed.

Lemma spec_send_request ctx :
  userdata_ok config (ctx_UserData ctx) → holds L (send_request config ctx) (λ _, True).
Proof.
  intros Hu. unfold send_request.
  eapply spec_bind; [by apply spec_DetailedRoundTrip|]. intros [[d [r|e]] u'] _; spec_auto.
Qed.
End permitted.

(** A request that is not permitted reaches no dialler; one that is permitted
    dials allowed addresses only. *)
Definition may_dial (perm : Prop) : Prop := perm → dial_ok L config.

Lemma spec_serve_absolute `{!Closes L} req :
  may_dial (acl_permits config req (remote_host req)) →
  holds L (serve_absolute config (new_ctx req)) (λ _, True).
Proof.
  intros HD. unfold serve_absolute. spec_step. destruct a as [ctx resp].
  destruct H as [Hu Hperm]. simpl in *.
  eapply (spec_bind _ _ (λ _, True)).
  - destruct resp as [resp|]; [spec_auto|]. by apply spec_send_request; [apply HD, Hperm|].
  - intros [[resp'|] c] _; spec_auto.
Qed.

Lemma spec_serve_connect `{!Closes L} req :
  may_dial (acl_permits config req (Host req)) →
  holds L (serve_connect config req) (λ _, True).
Proof.
  intros HD. unfold serve_connect. spec_step. destruct a as [ctx [todo host]].
  destruct H as [Hu Hperm]. simpl in *. destruct todo; [|spec_auto].
  eapply spec_bind; [by apply spec_dial; [apply HD, Hperm|]|].
  intros [[c|] u'] _; [|spec_auto].
  spec_step. spec_auto.
Qed.
End programs.

(** The lemmas about the programs, for use at any relation that has the
    classes. *)
Ltac use_spec lem := eapply lem; first [apply _ | done | idtac].
#[export] Hint Extern 2 (holds _ (Incr1 _ _) _) => use_spec spec_Incr1 : spec.
#[export] Hint Extern 2 (holds _ (WithFields _ _ _) _) => use_spec spec_WithFields : spec.
#[export] Hint Extern 2 (holds _ Now _) => use_spec spec_Now : spec.
#[export] Hint Extern 2 (holds _ (close_conn _) _) => use_spec spec_close_conn : spec.
#[export] Hint Extern 2 (holds _ (rejectResponse _ _ _) _) => use_spec spec_rejectResponse : spec.
#[export] Hint Extern 2 (holds _ (getRole _ _) _) => use_spec spec_getRole : spec.
#[export] Hint Extern 2 (holds _ (safeResolve _ _ _) _) => use_spec spec_safeResolve : spec.
#[export] Hint Extern 2 (holds _ (checkIfRequestShouldBeProxied _ _ _) _) =>
  use_spec spec_check : spec.
#[export] Hint Extern 2 (holds _ (on_request _ _) _) => use_spec spec_on_request : spec.

(** The request as the handlers see it: a request that is not in proxy form
    gets the URL that its host and path make. *)
Definition effective `{T : Transport} (req : Request) : Request :=
  if negb (String.eqb (Method req) "CONNECT") && String.eqb (Scheme req) "" then
    match tr_url_Parse ("http://" +:+ Host req +:+ Path req) with
    | Ok (scheme, host, path) =>
        mkRequest (Method req) (Host req) scheme host path (RequestURI req) (RemoteAddr req)
          (ProtoMajor req) (ProtoMinor req) (ReqHeader req) (PeerCertificates req)
    | Fail _ => req
    end
  else req.

(** The address that is checked for a request. *)
Definition checked_host `{T : Transport} (req : Request) : string :=
  if String.eqb (Method req) "CONNECT" then Host req else remote_host (effective req).

Lemma spec_handler `{E : Env} `{T : Transport} L `{!Logic L} `{!Actions L} `{!Closes L} `{!LogsDecision L}
    config hc req :
  may_dial L config (acl_permits config (effective req) (checked_host req)) →
  holds L (handler config hc req) (λ _, True).
Proof.
  intros HD.
  assert (holds L (proxy_ServeHTTP config req) (λ _, True)) as Hs.
  { unfold proxy_ServeHTTP, checked_host, effective in *.
    destruct (String.eqb (Method req) "CONNECT") eqn:Hm; simpl in *;
      [by apply spec_serve_connect|]. unfold serve_http.
    destruct (String.eqb (Scheme req) "") eqn:Hs; simpl in *; [|by apply spec_serve_absolute].
    destruct (String.eqb (Host req) "") eqn:Hh; [by apply spec_panic|].
    destruct (tr_url_Parse _) as [[[scheme host] path]|]; [|by apply spec_ret].
    by apply spec_serve_absolute. }
  unfold handler, HealthcheckMiddleware_ServeHTTP. destruct hc; [|done].
  destruct (String.eqb (Path req) "/healthcheck"); [by apply spec_ret|done].
Qed.


(** ** Every action moves along a relation

    [steps_in R m Q]: whatever the process state is when an action of [m] runs,
    the action moves the state along [R]; a value that [m] returns satisfies
    [Q].  Nothing is assumed about what happens between two actions. *)
Fixpoint steps_in (R : relation World) (A : Type) (m : M A) (Q : A → Prop) : Prop :=
  match m with
  | Done (Ret a) => Q a
  | Done (Panic _) => True
  | Step a k => ∀ w, R w (perform a w).2 ∧ steps_in R A (k (perform a w).1) Q
  end.

#[global] Instance steps_in_logic R : Logic (steps_in R).
Proof.
  split.
  - done.
  - done.
  - intros A B m k Q Q' Hm Hk. unfold holds in *.
    induction m as [[a|s]|X a f IH]; simpl in *; [by apply Hk|done|].
    intros w. destruct (Hm w) as [HR Hf]. split; [done|]. by apply IH.
  - intros A m Q Q' Hm HQ. unfold holds in *.
    induction m as [[a|s]|X a f IH]; simpl in *; [by apply HQ|done|].
    intros w. destruct (Hm w) as [HR Hf]. split; [done|]. by apply IH.
Qed.

(** The actions that [Actions] is about. *)
Definition harmless {X} (a : Act X) : Prop :=
  match a with
  | ACall ev _ => not_dial ev
  | ALog e => le_message e ≠ LOGLINE_CANONICAL_PROXY_DECISION
  | _ => True
  end.

Class Moves (R : relation World) :=
  moves X (a : Act X) w : harmless a → R w (perform a w).2.
Class MovesDecision (R : relation World) :=
  moves_decision e w : le_message e = LOGLINE_CANONICAL_PROXY_DECISION → R w (perform (ALog e) w).2.

Lemma steps_in_act (R : relation World) {X} (a : Act X) (Q : X → Prop) :
  (∀ w, R w (perform a w).2) → (∀ x, Q x) → holds (steps_in R) (act a) Q.
Proof. intros HR HQ w. split; [done|]. apply HQ. Qed.

#[global] Instance steps_in_actions `{E : Env} R `{!Moves R} : Actions (steps_in R).
Proof.
  assert (∀ X (a : Act X), harmless a → holds (steps_in R) (act a) (λ _, True)) as Ha.
  { intros X a Hh. apply steps_in_act; [|done]. intros w. by apply moves. }
  split; [split|..]; intros; try (by apply Ha).
  unfold track_conn. repeat (eapply spec_bind; [by apply Ha|intros ? _]). by apply spec_ret.
Qed.

#[global] Instance steps_in_closes `{E : Env} R `{!Moves R} : Closes (steps_in R).
Proof.
  intros id. unfold close_conn. eapply spec_bind.
  - apply (steps_in_act R _ (λ _, True)); [|done]. intros w. by apply moves.
  - intros [r|s] _; [by apply spec_ret|apply spec_panic].
Qed.

#[global] Instance steps_in_decision R `{!MovesDecision R} : LogsDecision (steps_in R).
Proof. intros ctx ty a d t s e. apply steps_in_act; [|done]. intros w. by apply moves_decision. Qed.

Lemma steps_in_dial R config :
  (∀ A (f : list Event → A) a t w, allowed config a →
     R w (perform (ACall (EvDial "tcp" (TCPAddr_String a) t) f) w).2) →
  dial_ok (steps_in R) config.
Proof. intros HD A f a t Ha. apply steps_in_act; [|done]. intros w. by apply HD. Qed.

(** Running on its own: the whole run moves along [R]. *)
Lemma steps_in_run R `{!PreOrder R} {A} (m : M A) Q w :
  holds (steps_in R) m Q → R w (m w).2 ∧ ∀ a, (m w).1 = Ret a → Q a.
Proof.
  unfold holds. revert w. induction m as [[a|s]|X a f IH]; intros w H.
  - split; [done|]. by intros ? [= <-].
  - by split.
  - rewrite run_step. destruct (H w) as [HR Hf]. destruct (perform a w) as [x w'].
    destruct (IH x w' Hf) as [HR' HQ]. split; [by etrans|done].
Qed.
