(* ===== verification/Effects.v ===== *)
(** * What one goroutine does of its own

    The state that a goroutine's actions find is also changed by others.  An
    execution of a computation is therefore a sequence of its own actions, each
    performed in an arbitrary state; what is recorded are its effects: the
    calls to the outside, each with the history it was answered from, and the
    log lines.  [texec] is an execution up to some point, [finishes] one to the
    end.  Running a computation alone ([run]) is the execution in which each
    action finds the state that the previous one left ([run_finishes]). *)

From S2P Require Import Prelude GoStrings GoNet Acl Http Config Classify Conntrack Proxy Serve Logic.

Inductive Eff :=
| ECall (h : list Event) (ev : Event)
| ELine (e : LogEntry).

Fixpoint calls_from (h evs : list Event) : list Eff :=
  match evs with
  | [] => []
  | ev :: evs => ECall h ev :: calls_from (h ++ [ev]) evs
  end.

Definition effects {X} (a : Act X) (w : World) : list Eff :=
  match a with
  | ACall ev _ => [ECall (w_trace w) ev]
  | ALog e => [ELine e]
  | AClose id now close =>
      calls_from (w_trace w) (drop (length (w_trace w)) (w_trace (close_step id now close w).2))
  | _ => []
  end.

Definition eff_call (x : Eff) : option Event :=
  match x with ECall _ ev => Some ev | ELine _ => None end.
Definition eff_line (x : Eff) : option LogEntry :=
  match x with ELine e => Some e | ECall _ _ => None end.

Definition eff_ask (x : Eff) : option (list Event * Event) :=
  match x with ECall h ev => Some (h, ev) | ELine _ => None end.

(** The calls, with the histories they were answered from, the calls alone and
    the log lines. *)
Definition asks (l : list Eff) : list (list Event * Event) := omap eff_ask l.
Definition calls (l : list Eff) : list Event := omap eff_call l.
Definition entries (l : list Eff) : list LogEntry := omap eff_line l.

(** Each call of [l] was answered from [h] and the calls of [l] before it. *)
Fixpoint chained (h : list Event) (l : list Eff) : Prop :=
  match l with
  | [] => True
  | ECall h' ev :: l => h' = h ∧ chained (h ++ [ev]) l
  | ELine _ :: l => chained h l
  end.

Lemma calls_calls_from h evs : calls (calls_from h evs) = evs.
Proof. revert h. induction evs as [|ev evs IH]; intros h; [done|]. simpl. f_equal. apply IH. Qed.

Lemma entries_calls_from h evs : entries (calls_from h evs) = [].
Proof. revert h. induction evs as [|ev evs IH]; intros h; [done|]. apply IH. Qed.

Lemma chained_calls_from h evs : chained h (calls_from h evs).
Proof. revert h. induction evs as [|ev evs IH]; intros h; [done|]. split; [done|apply IH]. Qed.

Lemma calls_app l1 l2 : calls (l1 ++ l2) = calls l1 ++ calls l2.
Proof. apply omap_app. Qed.

Lemma asks_app l1 l2 : asks (l1 ++ l2) = asks l1 ++ asks l2.
Proof. apply omap_app. Qed.

Lemma calls_asks l : calls l = (asks l).*2.
Proof. induction l as [|[h ev|e] l IH]; [done| |done]. simpl. f_equal. apply IH. Qed.

Lemma chained_asks h l i h' ev :
  chained h l → asks l !! i = Some (h', ev) → h' = h ++ take i (calls l).
Proof.
  revert h i. induction l as [|[h0 ev0|e] l IH]; intros h i; simpl; [done| |by apply IH].
  intros [-> Hc]. destruct i as [|i]; simpl.
  - intros [= <- <-]. by rewrite app_nil_r.
  - intros Hi. rewrite (IH _ _ Hc Hi), <-app_assoc. done.
Qed.

Lemma entries_app l1 l2 : entries (l1 ++ l2) = entries l1 ++ entries l2.
Proof. apply omap_app. Qed.

Lemma chained_app h l1 l2 : chained h (l1 ++ l2) ↔ chained h l1 ∧ chained (h ++ calls l1) l2.
Proof.
  revert h. induction l1 as [|[h' ev|e] l1 IH]; intros h; simpl.
  - rewrite app_nil_r. tauto.
  - rewrite IH, <-app_assoc. simpl. tauto.
  - apply IH.
Qed.

(** Closing calls the clock and the socket, and writes no line of the proxy. *)
Lemma close_step_trace id now close w :
  let w' := (close_step id now close w).2 in
  (∃ evs, w_trace w' = w_trace w ++ evs ∧ Forall not_dial evs) ∧ w_logs w' = w_logs w.
Proof.
  unfold close_step. destruct (ts_heap (w_track w) !! id) as [ic|];
    [|split; [exists []; by rewrite app_nil_r|done]].
  destruct (ic_closed ic); [split; [exists []; by rewrite app_nil_r|done]|].
  destruct (tr_ShuttingDown _) as [[]|]; destruct (_ <? 0); simpl;
    (split; [rewrite <-?app_assoc; eexists; split; [done|by repeat constructor]|done]).
Qed.

(** The effects are what an action changes. *)
Lemma perform_effects {X} (a : Act X) w :
  let w' := (perform a w).2 in
  w_trace w' = w_trace w ++ calls (effects a w) ∧ w_logs w' = w_logs w ++ entries (effects a w) ∧
  chained (w_trace w) (effects a w).
Proof.
  destruct a; simpl; rewrite ?app_nil_r; try done.
  destruct (close_step_trace id now close w) as [(evs & Ht & _) Hl].
  rewrite Ht, Hl, drop_app_length, calls_calls_from, entries_calls_from, app_nil_r.
  split_and!; [done|done|apply chained_calls_from].
Qed.

(** ** Executions *)
Fixpoint texec {A} (m : M A) (l : list Eff) (m' : M A) : Prop :=
  (l = [] ∧ m' = m) ∨
  match m with
  | Done _ => False
  | Step a k => ∃ w l', l = effects a w ++ l' ∧ texec (k (perform a w).1) l' m'
  end.

Fixpoint finishes {A} (m : M A) (l : list Eff) (o : outcome A) : Prop :=
  match m with
  | Done o' => o' = o ∧ l = []
  | Step a k => ∃ w l', l = effects a w ++ l' ∧ finishes (k (perform a w).1) l' o
  end.

Lemma texec_done {A} (m : M A) l o : texec m l (Done o) ↔ finishes m l o.
Proof.
  revert l. induction m as [o'|X a k IH]; intros l; simpl.
  - naive_solver.
  - setoid_rewrite IH. naive_solver.
Qed.

Lemma texec_refl {A} (m : M A) : texec m [] m.
Proof. destruct m; by left. Qed.

(** One action of a goroutine. *)
Definition next_effects {A} (m : M A) (w : World) : list Eff :=
  match m with Done _ => [] | Step a _ => effects a w end.
Definition next {A} (m : M A) (w : World) : M A * World :=
  match m with
  | Done o => (Done o, w)
  | Step a k => let '(x, w') := perform a w in (k x, w')
  end.

Lemma texec_next {A} (m m' : M A) l w :
  texec m l m' → texec m (l ++ next_effects m' w) (next m' w).1.
Proof.
  revert l. induction m as [o|X a f IH]; intros l; simpl.
  - intros [[-> ->]|[]]. by left.
  - intros [[-> ->]|(w0 & l' & -> & Hm)]; right.
    + exists w, []. simpl. rewrite app_nil_r. split; [done|].
      destruct (perform a w). apply texec_refl.
    + exists w0, (l' ++ next_effects m' w). rewrite app_assoc. split; [done|]. by apply IH.
Qed.

Lemma finishes_bind {A B} (m : M A) (k : A → M B) l b :
  finishes (bind m k) l (Ret b) ↔
  ∃ a l1 l2, finishes m l1 (Ret a) ∧ finishes (k a) l2 (Ret b) ∧ l = l1 ++ l2.
Proof.
  revert l. induction m as [[a|s]|X a f IH]; intros l.
  - change (bind (Done (Ret a)) k) with (k a). simpl. split.
    + intros H. by exists a, [], l.
    + intros (a' & l1 & l2 & [[= <-] ->] & Hk & ->). done.
  - change (bind (Done (Panic s)) k) with (@Done B (Panic s)). simpl. split; [by intros [[=] _]|].
    intros (a' & l1 & l2 & [[=] _] & _).
  - change (bind (Step a f) k) with (Step a (λ x, bind (f x) k)). simpl. setoid_rewrite IH. split.
    + intros (w & l' & -> & a' & l1 & l2 & Hm & Hk & ->).
      exists a', (effects a w ++ l1), l2. rewrite <-app_assoc. eauto 10.
    + intros (a' & l1 & l2 & (w & l' & -> & Hm) & Hk & ->).
      exists w, (l' ++ l2). rewrite <-app_assoc. eauto 10.
Qed.

(** An execution of a sequence ends in its first part or in its second. *)
Lemma texec_bind {A B} (m : M A) (k : A → M B) l n :
  texec (bind m k) l n →
  (∃ n', texec m l n' ∧ n = bind n' k) ∨
  ∃ a l1 l2, finishes m l1 (Ret a) ∧ texec (k a) l2 n ∧ l = l1 ++ l2.
Proof.
  revert l. induction m as [[a|s]|X a f IH]; intros l.
  - intros H. right. by exists a, [], l.
  - intros [[-> ->]|[]]. left. exists (Done (Panic s)). split; [by left|done].
  - intros [[-> ->]|(w & l' & -> & H)].
    + left. exists (Step a f). split; [by left|done].
    + destruct (IH _ _ H) as [(n' & Hn & ->)|(b & l1 & l2 & Hf & Hn & ->)].
      * left. exists n'. split; [right; by exists w, l'|done].
      * right. exists b, (effects a w ++ l1), l2. rewrite <-app_assoc.
        split_and!; [by exists w, l1|done|done].
Qed.

(** Running alone is an execution whose calls are chained. *)
Lemma run_finishes {A} (m : M A) w o w' :
  run m w = (o, w') →
  ∃ l, finishes m l o ∧ chained (w_trace w) l ∧
    w_trace w' = w_trace w ++ calls l ∧ w_logs w' = w_logs w ++ entries l.
Proof.
  revert w. induction m as [o'|X a f IH]; intros w.
  - intros [= -> ->]. exists []. simpl. by rewrite !app_nil_r.
  - rewrite run_step. destruct (perform_effects a w) as (Ht & Hl & Hc).
    destruct (perform a w) as [x w1] eqn:Ha. intros (l & Hf & Hch & Ht' & Hl')%IH.
    simpl in *. exists (effects a w ++ l).
    rewrite calls_app, entries_app, chained_app, Ht', Hl', Ht, Hl, <-!app_assoc.
    split_and!; try done.
    + exists w, l. by rewrite Ha.
    + by rewrite <-Ht.
Qed.

(** ** Calls to the outside that an action adds *)
Definition adds (P : Event → Prop) (w w' : World) : Prop :=
  ∃ l, w_trace w' = w_trace w ++ l ∧ Forall P l.

#[global] Instance adds_preorder P : PreOrder (adds P).
Proof.
  split.
  - intros w. exists []. by rewrite app_nil_r.
  - intros w1 w2 w3 (l1 & H1 & F1) (l2 & H2 & F2). exists (l1 ++ l2).
    rewrite H2, H1, <-app_assoc. split; [done|by apply Forall_app].
Qed.

Lemma adds_effects P {X} (a : Act X) w :
  adds P w (perform a w).2 ↔ Forall P (calls (effects a w)).
Proof.
  destruct (perform_effects a w) as (Ht & _). unfold adds. rewrite Ht. split.
  - intros (l & Hl%app_inv_head & HP). by rewrite Hl.
  - eauto.
Qed.

Lemma adds_moves P : (∀ ev, not_dial ev → P ev) → Moves (adds P).
Proof.
  intros HP X a w Ha. apply adds_effects. destruct a; simpl in *; auto.
  destruct (close_step_trace id now close w) as [(evs & Ht & Hn) _].
  rewrite Ht, drop_app_length, calls_calls_from. eapply Forall_impl; eauto.
Qed.

#[global] Instance adds_quiet P : Quiet (steps_in (adds P)).
Proof.
  split; intros; (apply steps_in_act; [|done]); intros w; exists []; by rewrite app_nil_r.
Qed.

#[global] Instance adds_decision P : MovesDecision (adds P).
Proof. intros e w _. exists []. simpl. by rewrite app_nil_r. Qed.

#[global] Instance not_dial_moves : Moves (adds not_dial).
Proof. by apply adds_moves. Qed.

(** What every action adds, an execution has as effects. *)
Lemma texec_adds P {A} (m m' : M A) Q l :
  holds (steps_in (adds P)) m Q → texec m l m' →
  Forall P (calls l) ∧ holds (steps_in (adds P)) m' Q.
Proof.
  unfold holds. revert l. induction m as [o|X a f IH]; intros l Hm.
  - intros [[-> ->]|[]]. done.
  - intros [[-> ->]|(w & l' & -> & Ht)]; [done|]. destruct (Hm w) as [HR Hf].
    destruct (IH _ l' Hf Ht) as [Hl Hm']. split; [|done].
    rewrite calls_app. apply Forall_app. split; [by apply adds_effects|done].
Qed.

Lemma finishes_adds P {A} (m : M A) Q l a :
  holds (steps_in (adds P)) m Q → finishes m l (Ret a) → Forall P (calls l) ∧ Q a.
Proof. intros Hm Hf%texec_done. by apply (texec_adds P m (Done (Ret a))). Qed.

(** ** The calls of an execution, in order

    [follows c m Q]: whatever states its actions find, the calls of [m] are the
    first ones of [c]; when it returns [a], the rest of [c] satisfies [Q a]. *)
Fixpoint follows {A} (c : list Event) (m : M A) (Q : A → list Event → Prop) : Prop :=
  match m with
  | Done (Ret a) => Q a c
  | Done (Panic _) => True
  | Step a k => ∀ w, ∃ c', c = calls (effects a w) ++ c' ∧ follows c' (k (perform a w).1) Q
  end.

Lemma follows_texec {A} c (m n : M A) Q l :
  follows c m Q → texec m l n → calls l `prefix_of` c.
Proof.
  revert c l. induction m as [o|X a k IH]; intros c l Hm.
  - intros [[-> ->]|[]]. apply prefix_nil.
  - intros [[-> ->]|(w & l' & -> & Ht)]; [apply prefix_nil|].
    destruct (Hm w) as (c' & -> & Hk). rewrite calls_app. apply prefix_app. by eapply IH.
Qed.

Lemma follows_bind {A B} c (m : M A) (k : A → M B) Q Q' :
  follows c m Q → (∀ a c', Q a c' → follows c' (k a) Q') → follows c (bind m k) Q'.
Proof.
  revert c. induction m as [[a|s]|X a f IH]; intros c Hm Hk; [by apply Hk|done|].
  intros w. destruct (Hm w) as (c' & -> & Hf). exists c'. split; [done|]. by apply IH.
Qed.

Lemma follows_weaken {A} c (m : M A) (Q Q' : A → list Event → Prop) :
  follows c m Q → (∀ a c', Q a c' → Q' a c') → follows c m Q'.
Proof.
  revert c. induction m as [[a|s]|X a f IH]; intros c Hm HQ; [by apply HQ|done|].
  intros w. destruct (Hm w) as (c' & -> & Hf). exists c'. split; [done|]. by apply IH.
Qed.

Lemma follows_ret {A} c (a : A) Q : Q a c → follows c (ret a) Q.
Proof. done. Qed.

Lemma follows_panic {A} c s (Q : A → list Event → Prop) : follows c (panic s) Q.
Proof. done. Qed.

Lemma follows_call {A} ev c (f : list Event → A) :
  follows (ev :: c) (call ev f) (λ _ c', c' = c).
Proof. intros w. by exists c. Qed.

Lemma follows_act {X} c (a : Act X) :
  (∀ w, calls (effects a w) = []) → follows c (act a) (λ _ c', c' = c).
Proof. intros Ha w. exists c. by rewrite Ha. Qed.

(** A computation that makes no calls. *)
Lemma follows_silent {A} c (m : M A) Q :
  holds (steps_in (adds (λ _, False))) m Q → follows c m (λ a c', Q a ∧ c' = c).
Proof.
  unfold holds. revert c. induction m as [[a|s]|X a k IH]; intros c; [done|done|].
  intros Hm w. destruct (Hm w) as [HR Hk]. apply adds_effects in HR.
  exists c. split; [|by apply IH].
  destruct (calls (effects a w)) as [|ev l]; [done|]. by inversion HR.
Qed.

(** ** Inverting executions to the end *)
Lemma finishes_act {X} (a : Act X) l x :
  finishes (act a) l (Ret x) ↔ ∃ w, l = effects a w ∧ x = (perform a w).1.
Proof.
  simpl. split.
  - intros (w & l' & -> & [= Hx] & ->). exists w. by rewrite app_nil_r.
  - intros (w & -> & Hx). exists w, []. by rewrite Hx, app_nil_r.
Qed.

Lemma finishes_ret {A} (a b : A) l : finishes (ret a) l (Ret b) → b = a ∧ l = [].
Proof. by intros [[= ->] ->]. Qed.

Lemma finishes_panic {A} s l (b : A) : ¬ finishes (panic s) l (Ret b).
Proof. by intros [[=] _]. Qed.

Lemma finishes_Incr1 name tags l u : finishes (Incr1 name tags) l (Ret u) → l = [].
Proof. by intros (w & -> & _)%finishes_act. Qed.

Lemma finishes_WithFields fields lv msg l u :
  finishes (WithFields fields lv msg) l (Ret u) → l = [ELine (mkLogEntry lv msg (list_to_map fields))].
Proof. by intros (w & -> & _)%finishes_act. Qed.

Lemma finishes_logProxy ctx ty a d t s e l u :
  finishes (logProxy ctx ty a d t s e) l (Ret u) →
  l = [ELine (mkLogEntry (log_level d e) LOGLINE_CANONICAL_PROXY_DECISION
                (log_fields ctx ty a d t s e))].
Proof. by intros (w & -> & _)%finishes_act. Qed.

Lemma finishes_call {A} ev (f : list Event → A) l x :
  finishes (call ev f) l (Ret x) → ∃ h, l = [ECall h ev] ∧ x = f h.
Proof. intros (w & -> & ->)%finishes_act. by exists (w_trace w). Qed.

Lemma finishes_history l x : finishes history l (Ret x) → l = [].
Proof. by intros (w & -> & _)%finishes_act. Qed.

#[global] Arguments finishes : simpl never.

(** Take an execution apart as far as the program is known. *)
Ltac fin_inv :=
  repeat match goal with
  | H : finishes (bind _ _) _ (Ret _) |- _ =>
      let a := fresh "a" in let l1 := fresh "l" in let l2 := fresh "l" in
      let H1 := fresh "Hr" in
      apply finishes_bind in H as (a & l1 & l2 & H1 & H & ->)
  | H : finishes (match _ with _ => _ end) _ (Ret _) |- _ => progress cbv beta iota in H
  | H : finishes (ret _) _ (Ret _) |- _ => apply finishes_ret in H as [? ->]; simplify_eq
  | H : finishes (panic _) _ (Ret _) |- _ => by apply finishes_panic in H
  | H : finishes (Incr1 _ _) _ (Ret _) |- _ => apply finishes_Incr1 in H as ->
  | H : finishes (WithFields _ _ _) _ (Ret _) |- _ => apply finishes_WithFields in H as ->
  | H : finishes (logProxy _ _ _ _ _ _ _) _ (Ret _) |- _ => apply finishes_logProxy in H as ->
  | H : finishes history _ (Ret _) |- _ => apply finishes_history in H as ->
  | H : finishes (call _ _) _ (Ret _) |- _ =>
      let h := fresh "h" in apply finishes_call in H as (h & -> & ->)
  | H : finishes (act _) _ (Ret _) |- _ =>
      let w := fresh "w" in apply finishes_act in H as (w & -> & ->)
  end.
