(* ===== verification/Trees.v ===== *)
(** * Computations that do the same

    Two computations of [Proxy.v] are equivalent, [m ≡ m'], when they take the
    same actions and do the same after every answer: equality of trees up to
    the continuations' values.  Sequencing respects it and satisfies the monad
    laws, and everything that is said of executions does not tell equivalent
    computations apart. *)

From S2P Require Import Prelude Proxy Effects.

(** The same tree. *)
Fixpoint M_equiv_def {A} (m m' : M A) : Prop :=
  match m with
  | Done o => m' = Done o
  | Step a k => ∃ k', m' = Step a k' ∧ ∀ x, M_equiv_def (k x) (k' x)
  end.

#[global] Instance M_equiv A : Equiv (M A) := M_equiv_def.

Lemma equiv_done {A} (o : outcome A) : Done o ≡ Done o.
Proof. done. Qed.

Lemma equiv_done_inv {A} (o : outcome A) m : Done o ≡ m → m = Done o.
Proof. done. Qed.

Lemma equiv_step {A X} (a : Act X) (k k' : X → M A) : (∀ x, k x ≡ k' x) → Step a k ≡ Step a k'.
Proof. intros H. by exists k'. Qed.

#[global] Instance M_equivalence A : Equivalence (≡@{M A}).
Proof.
  split.
  - intros m. induction m as [o|X a k IH]; [done|]. by apply equiv_step.
  - intros m. induction m as [o|X a k IH]; intros m' H;
      [apply equiv_done_inv in H as ->; apply equiv_done|].
    destruct H as (k' & -> & H). apply equiv_step. intros x. apply IH, H.
  - intros m. induction m as [o|X a k IH]; intros m1 m2 H H1; [by apply equiv_done_inv in H as ->|].
    destruct H as (k' & -> & H). destruct H1 as (k'' & -> & H1).
    apply equiv_step. intros x. eapply IH; [apply H|apply H1].
Qed.

(** ** Sequencing *)
Lemma bind_equiv {A B} (m m' : M A) (k k' : A → M B) :
  m ≡ m' → (∀ a, k a ≡ k' a) → bind m k ≡ bind m' k'.
Proof.
  intros Hm Hk. revert m' Hm. induction m as [[a|s]|X a f IH]; intros m' Hm.
  - apply equiv_done_inv in Hm as ->. apply Hk.
  - by apply equiv_done_inv in Hm as ->.
  - destruct Hm as (f' & -> & Hf). apply equiv_step. intros x. apply IH, Hf.
Qed.

#[global] Instance bind_proper A B :
  Proper ((≡) ==> pointwise_relation _ (≡) ==> (≡)) (@bind A B).
Proof. intros m m' Hm k k' Hk. by apply bind_equiv. Qed.

Lemma bind_ret_l {A B} (a : A) (k : A → M B) : bind (ret a) k = k a.
Proof. done. Qed.

Lemma bind_panic {A B} s (k : A → M B) : bind (panic s) k = panic s.
Proof. done. Qed.

Lemma bind_ret_r {A} (m : M A) : bind m ret ≡ m.
Proof. induction m as [[a|s]|X a k IH]; [done|done|]. by apply equiv_step. Qed.

Lemma bind_assoc {A B C} (m : M A) (k : A → M B) (l : B → M C) :
  bind (bind m k) l ≡ bind m (λ a, bind (k a) l).
Proof.
  induction m as [[a|s]|X a f IH]; [done|done|]. apply equiv_step. intros x. apply IH.
Qed.

(** ** Executions *)
#[global] Instance run_proper A : Proper ((≡) ==> eq ==> eq) (@run A).
Proof.
  intros m. induction m as [o|X a k IH]; intros m' H w ? <-;
    [by apply equiv_done_inv in H as ->|].
  destruct H as (k' & -> & H). rewrite !run_step. destruct (perform a w) as [x w'].
  apply IH; [apply H|done].
Qed.

Lemma finishes_equiv {A} (m m' : M A) l o : m ≡ m' → finishes m l o → finishes m' l o.
Proof.
  revert m' l. induction m as [o'|X a k IH]; intros m' l H;
    [by apply equiv_done_inv in H as ->|].
  destruct H as (k' & -> & H). simpl. intros (w & l' & -> & Hf). exists w, l'. split; [done|].
  eapply IH; [apply H|done].
Qed.

#[global] Instance finishes_proper A : Proper ((≡) ==> eq ==> eq ==> iff) (@finishes A).
Proof.
  intros m m' H l ? <- o ? <-. split; apply finishes_equiv; [done|by symmetry].
Qed.

(** Part of an execution of one is part of an execution of the other, up to an
    equivalent rest. *)
Lemma texec_equiv {A} (m m' n : M A) l : m ≡ m' → texec m l n → ∃ n', n ≡ n' ∧ texec m' l n'.
Proof.
  revert m' l. induction m as [o|X a k IH]; intros m' l H.
  - apply equiv_done_inv in H as ->. intros [[-> ->]|[]]. exists (Done o). split; [done|apply texec_refl].
  - destruct H as (k' & -> & H). intros [[-> ->]|(w & l' & -> & Hf)].
    + exists (Step a k'). split; [by apply equiv_step|apply texec_refl].
    + destruct (IH (perform a w).1 (k' (perform a w).1) l' (H _) Hf) as (n' & Hn & He).
      exists n'. split; [done|]. right. by exists w, l'.
Qed.

(** The head of the goal is a sequence: go on with what follows it. *)
Ltac equiv_bind := apply bind_equiv; [reflexivity|intros].
Ltac equiv_norm := rewrite ?bind_ret_l, ?bind_panic, ?bind_assoc.
