(* ===== verification/Safety.v ===== *)
(** * What the proxy guarantees about outgoing connections

    The safety theorems for requests that are served one after another and for
    one goroutine among others: every connection that the proxy opens goes to
    an address that the classifier allows, on behalf of a request that the ACL
    permits, and without a second resolution between the check and the
    connection.  [Concurrent.v] lifts them to the whole process. *)

From S2P Require Import Prelude GoStrings GoNet Acl Http Config Classify Conntrack Proxy Serve Logic Effects.

(** The calls that a run may make: a dial is over TCP to the printed form of an
    address that the configuration allows. *)
Definition safe_event (config : Config) (ev : Event) : Prop :=
  match ev with
  | EvDial network addr _ =>
      network = "tcp" ∧ ∃ a, addr = TCPAddr_String a ∧ allowed config a
  | _ => True
  end.

#[global] Instance safe_event_moves config : Moves (adds (safe_event config)).
Proof. apply adds_moves. by intros []. Qed.

Lemma safe_event_dial config : dial_ok (steps_in (adds (safe_event config))) config.
Proof. apply steps_in_dial. intros A f a t w Ha. eexists [_]. split; [done|]. constructor; simpl; eauto. Qed.

(** Every handler makes such calls only. *)
Lemma handler_safe `{E : Env} `{T : Transport} config hc req :
  holds (steps_in (adds (safe_event config))) (handler config hc req) (λ _, True).
Proof. apply spec_handler; try apply _. intros _. apply safe_event_dial. Qed.

(** The handler of a request that is not permitted makes no dial. *)
Lemma handler_no_dial `{E : Env} `{T : Transport} config hc req :
  ¬ acl_permits config (effective req) (checked_host req) →
  holds (steps_in (adds not_dial)) (handler config hc req) (λ _, True).
Proof. intros Hn. apply spec_handler; try apply _. by intros ?. Qed.

(** ** Theorems *)

(** Whatever requests arrive, and whatever the resolver, the transport and
    the upstream-proxy environment answer (also a different answer each time
    they are asked), every connection that the proxy tries to open is over TCP
    to an address that the classifier allows; this holds across denied
    requests, errors and panics. *)
Theorem every_dial_is_allowed `{E : Env} `{T : Transport} config hc reqs w :
  adds (safe_event config) w (serve_all config hc reqs w).2.
Proof.
  revert w. induction reqs as [|req reqs IH]; intros w; [exists []; by rewrite app_nil_r|].
  simpl. destruct (steps_in_run _ _ _ w (handler_safe config hc req)) as [Hs _].
  destruct (handler config hc req w) as [r w'].
  specialize (IH w'). destruct (serve_all config hc reqs w') as [rs w'']. by etrans.
Qed.

(** A request opens a connection only when the ACL permits its host: if
    the client's role is unknown, the host cannot be extracted, or the ACL
    answers anything but "allow" or "allow and report", no connection is tried
    at all. *)
Theorem dial_requires_acl `{E : Env} `{T : Transport} config hc req w network addr timeout :
  ¬ acl_permits config (effective req) (checked_host req) →
  ∃ l, w_trace (handler config hc req w).2 = w_trace w ++ l ∧ EvDial network addr timeout ∉ l.
Proof.
  intros Hn. destruct (steps_in_run _ _ _ w (handler_no_dial config hc req Hn)) as [(l & Hl & Hf) _].
  exists l. split; [done|]. intros Hin. rewrite Forall_forall in Hf. by apply (Hf _ Hin).
Qed.

(** ** Exact executions *)
Section runs.
Context `{E : Env} `{T : Transport} (config : Config).

(** The two calls that resolve [addr], in whatever states they are made, and
    the address that their answers yield. *)
Definition resolves (addr : string) (l : list (list Event * Event)) (a : TCPAddr) : Prop :=
  ∃ host port p ip rest hp hi,
    SplitHostPort addr = Ok (host, port) ∧
    l = [(hp, EvLookupPort "tcp" port); (hi, EvLookupIPAddr (Resolver config) host)] ∧
    env_LookupPort hp "tcp" port = Ok p ∧
    env_LookupIPAddr hi (Resolver config) host = Ok (ip :: rest) ∧
    a = mkTCPAddr (ipa_IP ip) p (ipa_Zone ip).

Lemma fin_resolve addr a l :
  finishes (resolveTCPAddr config "tcp" addr) l (Ret (Ok a)) → resolves addr (asks l) a.
Proof.
  unfold resolveTCPAddr. simpl. destruct (SplitHostPort addr) as [[host port]|] eqn:Hs;
    [|by intros H; fin_inv].
  unfold LookupPort, LookupIPAddr. intros H. fin_inv.
  destruct (env_LookupPort h "tcp" port) as [p|] eqn:Hp; [|by fin_inv]. fin_inv.
  destruct (env_LookupIPAddr h0 _ _) as [[|ip rest]|] eqn:Hip; try by fin_inv. fin_inv.
  by exists host, port, p, ip, rest, h, h0.
Qed.

Lemma fin_safeResolve addr a reason l :
  finishes (safeResolve config "tcp" addr) l (Ret (Ok a, reason)) →
  allowed config a ∧ resolves addr (asks l) a.
Proof.
  unfold safeResolve. intros H. fin_inv. destruct a1 as [b|]; [|by fin_inv]; fin_inv.
  apply fin_resolve in Hr0. destruct (IsAllowed (classifyAddr config b)) eqn:Ha; [|by fin_inv].
  fin_inv. split; [done|]. simpl. by rewrite app_nil_r.
Qed.

Lemma fin_silent {A} (m : M A) Q l a :
  holds (steps_in (adds (λ _, False))) m Q → finishes m l (Ret a) → Q a ∧ asks l = [].
Proof.
  intros Hm Hf. destruct (finishes_adds _ _ _ _ _ Hm Hf) as [Hl HQ]. split; [done|].
  rewrite calls_asks in Hl. destruct (asks l) as [|x l']; [done|]. by inversion Hl.
Qed.

Lemma fin_check req host d l :
  finishes (checkIfRequestShouldBeProxied config req host) l (Ret (d, None)) → d_allow d = true →
  ∃ a, d_resolvedAddr d = Some a ∧ d_outboundHost d = host ∧ allowed config a ∧
    resolves host (asks l) a.
Proof.
  unfold checkIfRequestShouldBeProxied. intros H Hal. fin_inv.
  apply (fin_silent _ _ _ _ (spec_checkACLs _ config req host)) in Hr as [(Hh & _) Hl0].
  destruct (d_allow a) eqn:Ha; [|fin_inv; congruence]. fin_inv.
  destruct a0 as [[b|err] reason]; [|destruct (negb (is_denyError err)); by fin_inv].
  apply fin_safeResolve in Hr as (Hb & Hres). fin_inv.
  exists b. by rewrite !asks_app, Hl0, app_nil_r.
Qed.

(** The calls of an execution, without the histories. *)
Lemma fin_track_conn s role host c l :
  finishes (track_conn s role host) l (Ret c) → calls l = [EvNow; EvNow].
Proof.
  unfold track_conn, Now. intros H. by fin_inv.
Qed.

(** Connecting makes one dial, then reads the clock. *)
Lemma fin_connect a role host c l :
  finishes (connect config "tcp" a role host) l (Ret (Ok c)) →
  calls l = [EvDial "tcp" (TCPAddr_String a) (ConnectTimeout config); EvNow; EvNow].
Proof.
  unfold connect, DialTimeout. intros H. fin_inv.
  destruct (env_DialTimeout _ _ _ _) as [s|]; [|by fin_inv]. fin_inv.
  match goal with H : finishes (track_conn _ _ _) _ _ |- _ => apply fin_track_conn in H end.
  rewrite app_nil_r. simpl. by f_equal.
Qed.

(** With a resolved address for the same host, dialling asks no resolver. *)
Lemma fin_dial_pinned v d a host c u l :
  ud_decision v = Some d → d_resolvedAddr d = Some a → d_outboundHost d = host →
  finishes (dial config "tcp" host (Some v)) l (Ret (Ok c, u)) →
  calls l = [EvDial "tcp" (TCPAddr_String a) (ConnectTimeout config); EvNow; EvNow].
Proof.
  intros Hd Ha Hh. unfold dial. rewrite Hd. intros H. fin_inv.
  rewrite Ha, !String.eqb_refl in Hr. simpl in Hr. fin_inv.
  match goal with H : finishes (connect _ _ _ _ _) _ _ |- _ => apply fin_connect in H end.
  by rewrite !app_nil_r.
Qed.

(** An accepted CONNECT leaves a decision that pins the address that was
    resolved and checked. *)
Lemma fin_on_connect host ctx ctx' host' l :
  finishes (on_connect config host ctx) l (Ret (ctx', (OkConnect, host'))) →
  host' = host ∧ ∃ v d a h1 h2 lookups,
    ctx_UserData ctx' = Some v ∧ ud_decision v = Some d ∧ d_resolvedAddr d = Some a ∧
    d_outboundHost d = Host (ctx_Req ctx) ∧ allowed config a ∧
    resolves (Host (ctx_Req ctx)) lookups a ∧
    asks l = [(h1, EvNow); (h2, EvNow)] ++ lookups.
Proof.
  unfold on_connect, Now. intros H. fin_inv. destruct a0 as [c [err|]]; [by fin_inv|].
  fin_inv. split; [done|]. unfold handleConnect, Now in Hr0. simpl in Hr0. fin_inv.
  destruct a1 as [d err]. fin_inv. simpl in *.
  destruct err as [err|]; [by fin_inv|].
  destruct (d_allow d) eqn:Hal; simpl in *; [|by fin_inv]. fin_inv.
  match goal with H : finishes (checkIfRequestShouldBeProxied _ _ _) _ _ |- _ => rename H into Hc end.
  apply fin_check in Hc as (addr & Ha & Hh & Hok & Hl); [|done].
  eexists _, d, addr, _, _, _. split_and!; try done. rewrite !asks_app. simpl. by rewrite !app_nil_r.
Qed.

(** The calls of a CONNECT that is tunnelled directly. *)
Lemma fin_serve_connect req c l :
  (∀ r, tr_https_proxy r = "") → URL_Host req = Host req → hasPort (Host req) = true →
  finishes (serve_connect config req) l (Ret (Tunnel c)) →
  ∃ a h1 h2 lookups dialled, allowed config a ∧ resolves (Host req) lookups a ∧
    asks l = [(h1, EvNow); (h2, EvNow)] ++ lookups ++ dialled ∧
    dialled.*2 = [EvDial "tcp" (TCPAddr_String a) (ConnectTimeout config); EvNow; EvNow].
Proof.
  intros Hproxy Hhost Hport. unfold serve_connect. intros H. fin_inv.
  destruct a as [ctx [[] host]]; [|by fin_inv].
  apply fin_on_connect in Hr
    as (-> & v & d & a & h1 & h2 & lookups & Hv & Hd & Ha & Hh & Hok & Hl & Ht).
  rewrite !Hproxy, Hhost, Hport, Hv in H. simpl in *. fin_inv.
  destruct a0 as [[conn|] u]; [|by fin_inv]. fin_inv.
  eapply fin_dial_pinned in Hr; [|done..]. rewrite calls_asks in Hr.
  eexists a, h1, h2, lookups, _. split_and!; [done|done| |exact Hr].
  rewrite !asks_app, Ht, app_nil_r. done.
Qed.
End runs.

(** No second resolution, for one goroutine among others. When a CONNECT
    request is tunnelled directly (no upstream proxy in the environment, and
    the host of the URL is the host of the request, with a port), then,
    whatever other goroutines do between its actions, its own calls are: the
    clock, one question for the port, one for the host, one dial, the clock;
    the first address of that one answer is allowed by the classifier and is
    what was dialled.  A resolver that changes its answer between check and
    use has no second chance. *)
Theorem connect_pins_address `{E : Env} `{T : Transport} config req c l :
  (∀ r, tr_https_proxy r = "") → URL_Host req = Host req → hasPort (Host req) = true →
  finishes (serve_connect config req) l (Ret (Tunnel c)) →
  ∃ a h1 h2 lookups dialled, allowed config a ∧ resolves config (Host req) lookups a ∧
    asks l = [(h1, EvNow); (h2, EvNow)] ++ lookups ++ dialled ∧
    dialled.*2 = [EvDial "tcp" (TCPAddr_String a) (ConnectTimeout config); EvNow; EvNow].
Proof. apply fin_serve_connect. Qed.

(** The address that a lookup of [addr] after the history [h] yields. *)
Definition lookup_first `{E : Env} (config : Config) (h : list Event) (addr : string)
    (lookups : list Event) (a : TCPAddr) : Prop :=
  ∃ host port p ip rest,
    SplitHostPort addr = Ok (host, port) ∧
    lookups = [EvLookupPort "tcp" port; EvLookupIPAddr (Resolver config) host] ∧
    env_LookupPort h "tcp" port = Ok p ∧
    env_LookupIPAddr (h ++ [EvLookupPort "tcp" port]) (Resolver config) host = Ok (ip :: rest) ∧
    a = mkTCPAddr (ipa_IP ip) p (ipa_Zone ip).

(** No second resolution. When a CONNECT request is tunnelled directly
    (no upstream proxy in the environment, and the host of the URL is the host
    of the request, with a port), the process asked the resolver once for the
    port and once for the host, the first address of that answer is allowed by
    the classifier, and that very address is what was dialled: a resolver that
    changes its answer between check and use has no second chance. *)
Theorem connect_no_rebinding `{E : Env} `{T : Transport} config req c w w' :
  (∀ r, tr_https_proxy r = "") → URL_Host req = Host req → hasPort (Host req) = true →
  serve_connect config req w = (Ret (Tunnel c), w') →
  ∃ a lookups, allowed config a ∧
    lookup_first config (w_trace w ++ [EvNow; EvNow]) (Host req) lookups a ∧
    w_trace w' = w_trace w ++ [EvNow; EvNow] ++ lookups ++
      [EvDial "tcp" (TCPAddr_String a) (ConnectTimeout config); EvNow; EvNow].
Proof.
  intros Hproxy Hhost Hport (l & Hf & Hc & -> & _)%run_finishes.
  apply fin_serve_connect in Hf
    as (a & h1 & h2 & lookups & dialled & Ha & Hl & Hasks & Hd); [|done..].
  destruct Hl as (host & port & p & ip & rest & hp & hi & Hs & -> & Hp & Hi & ->).
  assert (calls l = [EvNow; EvNow; EvLookupPort "tcp" port; EvLookupIPAddr (Resolver config) host]
            ++ dialled.*2) as Hcalls by by rewrite calls_asks, Hasks.
  assert (hp = w_trace w ++ [EvNow; EvNow]) as ->.
  { rewrite (chained_asks _ l 2 hp (EvLookupPort "tcp" port) Hc) by by rewrite Hasks.
    by rewrite Hcalls. }
  assert (hi = (w_trace w ++ [EvNow; EvNow]) ++ [EvLookupPort "tcp" port]) as ->.
  { rewrite (chained_asks _ l 3 hi (EvLookupIPAddr (Resolver config) host) Hc) by by rewrite Hasks.
    by rewrite Hcalls, <-app_assoc. }
  eexists _, [_; _]. split; [done|]. split; [by exists host, port, p, ip, rest|].
  by rewrite Hcalls, Hd.
Qed.

(** ** A concrete world

    A resolver that answers a public address the first time it is asked for a
    host and the loopback address from then on. *)
Definition asked (h : list Event) : bool :=
  existsb (λ ev, match ev with EvLookupIPAddr _ _ => true | _ => false end) h.

Definition rebinding_env : Env := {|
  env_LookupPort _ _ port :=
    match Atoi port with inl p => Ok p | inr _ => Fail (Err "unknown port") end;
  env_LookupIPAddr h _ _ :=
    Ok [mkIPAddr (if asked h then IPv4 127 0 0 1 else IPv4 93 184 216 34) ""];
  env_DialTimeout _ _ _ _ := Ok 7%nat;
  env_Close _ := None;
  env_Now h := 1000 + Z.of_nat (length h);
  env_quote s := s
|}.

Definition direct_transport : Transport := {|
  tr_addr req := Ok (URL_Host req);
  tr_ResolveTCPAddr _ _ := Ok (mkTCPAddr (IPv4 93 184 216 34) 80 "");
  tr_dial_error _ e := e;
  tr_setup _ _ _ := None;
  tr_roundTrip _ _ _ := Ret (Ok (mkResponse "200 OK" 200 1 1 ∅ "hello" 5));
  tr_https_proxy _ := "";
  tr_upstream _ _ _ := true;
  tr_url_Parse _ := Fail (Err "not used")
|}.

Definition acl_config (acl : ACL) : Config :=
  mkConfig "" 4750 [] [] SystemResolver 10 (500 * minute) None (Some (acl_Decide acl)) false
    (Some defaultRoleFromRequest) "" [] false "" 448 (10 * second).

Definition client_request (method scheme host role : string) : Request :=
  mkRequest method host scheme host "/" ("http://" +:+ host +:+ "/") "10.1.2.3:5555" 1 1
    (Header_Set ∅ roleHeader "spoofed") (Some [mkCertificate role ["team"]]).

Definition init_world : World := mkWorld [] [] (init_state (10 * second) None).

Lemma dial_requires_acl_witness :
  let req := client_request "CONNECT" "" "denied.test:443" "dummy-glob" in
  ∃ l, w_trace (@handler rebinding_env (acl_config sample_acl) direct_transport false req init_world).2
       = [] ++ l ∧ EvDial "tcp" "93.184.216.34:443" 10 ∉ l.
Proof.
  apply (@dial_requires_acl rebinding_env direct_transport (acl_config sample_acl) false
    (client_request "CONNECT" "" "denied.test:443" "dummy-glob") init_world).
  vm_compute. intros (role & dest & d & [= <-] & [= <-] & [= <-] & [H|H]); discriminate H.
Defined.

Lemma connect_no_rebinding_witness :
  let req := client_request "CONNECT" "" "api.example.com:443" "dummy-glob" in
  ∃ a lookups, allowed (acl_config sample_acl) a ∧
    @lookup_first rebinding_env (acl_config sample_acl) ([] ++ [EvNow; EvNow]) (Host req) lookups a ∧
    w_trace (@serve_connect rebinding_env (acl_config sample_acl) direct_transport req init_world).2
    = [] ++ [EvNow; EvNow] ++ lookups ++ [EvDial "tcp" (TCPAddr_String a) 10; EvNow; EvNow].
Proof.
  apply (@connect_no_rebinding rebinding_env direct_transport (acl_config sample_acl)
    (client_request "CONNECT" "" "api.example.com:443" "dummy-glob") 0 init_world); by vm_compute.
Defined.
