(* ===== verification/Handling.v ===== *)
(** * How a request is handled: hosts, roles, headers, responses, log lines

    Theorems about the functional behaviour of the operations of [Proxy.v] and
    [Serve.v] on every branch, errors and panics included. *)

From S2P Require Import Prelude GoStrings GoNet GoIPv6 Acl Http Config Classify Conntrack Proxy Serve Logic Effects Safety.

(** ** Extracting the host of an address *)

(** The language of [hostExtractRE], with its first group. *)
Definition host_split (s h : string) : Prop :=
  ∃ p, s = h +:+ p ∧ has_byte ":" h = false ∧
    (p = "" ∨ ∃ ds, p = String ":" ds ∧ ds ≠ "" ∧ str_all is_digit ds = true).

Lemma hostExtract_spec s h : hostExtract s = Some h ↔ host_split s h.
Proof.
  unfold hostExtract, host_split. destruct (IndexByte s ":") as [i|] eqn:Hi.
  - apply IndexByte_Some in Hi as [Hs Hh]. remember (str_drop (S i) s) as port eqn:Hport.
    clear Hport. split.
    + destruct (negb _ && _) eqn:Hc; [|done]. intros [= <-]. to_prop. destruct Hc as [Hne Hd].
      exists (String ":" port). split; [done|]. split; [done|]. right. eauto.
    + intros (p & Hp & Hn & Hpp).
      assert (str_take i s = h ∧ String ":" port = p) as [-> <-].
      { destruct Hpp as [->|(ds & -> & _)].
        - rewrite app_str_nil_r in Hp. subst s. exfalso. rewrite Hs in Hn.
          rewrite has_byte_app, has_byte_cons in Hn. simpl in Hn. by rewrite orb_true_r in Hn.
        - rewrite Hs in Hp at 1. by apply first_byte_unique in Hp as [-> ->]. }
      destruct Hpp as [|(ds & [= <-] & Hne & Hd)]; [done|].
      apply String.eqb_neq in Hne. by rewrite Hne, Hd.
  - apply IndexByte_None in Hi. split.
    + intros [= <-]. exists "". rewrite app_str_nil_r. eauto.
    + intros (p & -> & Hn & [->|(ds & -> & _)]); [by rewrite app_str_nil_r|].
      rewrite has_byte_app, has_byte_cons in Hi. simpl in Hi. by rewrite orb_true_r in Hi.
Qed.

(** Two colons are more than the expression takes. *)
Lemma hostExtract_brackets v6 port :
  has_byte ":" v6 = true → hostExtract ("[" +:+ v6 +:+ "]:" +:+ port) = None.
Proof.
  intros Hv. destruct (hostExtract _) as [h|] eqn:He; [|done]. exfalso.
  apply hostExtract_spec in He as (p & Hp & Hn & Hpp).
  destruct (IndexByte v6 ":") as [i|] eqn:Hi; [|apply IndexByte_None in Hi; congruence].
  apply IndexByte_Some in Hi as [Hs Hh].
  remember (str_take i v6) as x eqn:Hx. remember (str_drop (S i) v6) as y eqn:Hy. clear Hx Hy.
  assert ("[" +:+ v6 +:+ "]:" +:+ port = ("[" +:+ x) +:+ String ":" (y +:+ "]:" +:+ port)) as Heq
    by by rewrite Hs, <-!app_str_assoc.
  rewrite Heq in Hp. destruct Hpp as [->|(ds & -> & _ & Hd)].
  - rewrite app_str_nil_r in Hp. rewrite <-Hp in Hn.
    rewrite !has_byte_app, has_byte_cons in Hn. simpl in Hn. by rewrite orb_true_r in Hn.
  - apply first_byte_unique in Hp as [_ Hp]; [|by rewrite has_byte_app, Hh|done].
    assert (has_byte ":" ds = false) as Hc by (apply digits_no_byte; done).
    rewrite <-Hp, !has_byte_app in Hc. simpl in Hc. by rewrite orb_true_r in Hc.
Qed.

(** Results of an ACL are the three constants, so the branch for an unknown
    action is not taken. *)
Lemma acl_Decide_result acl service host :
  let r := Result (acl_Decide acl service host).1 in r = Allow ∨ r = AllowAndReport ∨ r = Deny.
Proof.
  destruct (acl_Decide_verdict acl service host); auto.
  match goal with H : (_, _) ∈ policy_table |- _ => apply policy_table_spec in H end. naive_solver.
Qed.

Lemma getRole_ret config req w :
  ∃ role err w', getRole config req w = (Ret (role, err), w') ∧
    role_of config req = match err with None => Some role | Some _ => None end.
Proof.
  destruct (steps_in_run _ _ _ w (spec_getRole (steps_in (adds (λ _, False))) config req)) as [_ HQ].
  assert (∃ r w', getRole config req w = (Ret r, w')) as ([role err] & w' & Hr).
  { unfold getRole. destruct (match RoleFromRequest config with Some f => f req | None => _ end)
      as [role [err|]]; [|by eexists _, _]. destruct (IsMissingRoleError err && _); by eexists _, _. }
  exists role, err, w'. split; [done|]. rewrite Hr in HQ. apply (HQ _ eq_refl).
Qed.

(** C34: with an ACL loaded from a file, checking a request panics exactly when
    the client's role is known and the address is not a host without colons,
    optionally followed by a port.  An IPv6 literal in brackets always has two
    colons, so every request to one panics, whatever the ACL says about it. *)
Theorem acl_check_panics_iff config acl req host w :
  EgressACL config = Some (acl_Decide acl) →
  (∃ what w', checkACLsForRequest config req host w = (Panic what, w')) ↔
  is_Some (role_of config req) ∧ ¬ ∃ h, host_split host h.
Proof.
  intros HA. unfold checkACLsForRequest. rewrite HA.
  destruct (getRole_ret config req w) as (role & err & w1 & Hg & Hrole).
  rewrite run_bind, Hg, Hrole. destruct err as [err|].
  { split; [intros (? & ? & [=])|intros [[? [=]] _]]. }
  setoid_rewrite <-hostExtract_spec. destruct (hostExtract host) as [dest|].
  - split; [|intros [_ Hn]; exfalso; apply Hn; eauto]. intros (what & w' & Hp). exfalso.
    destruct (acl_Decide acl role dest) as [d [e|]] eqn:Hdec; [by simpl in Hp|].
    pose proof (acl_Decide_result acl role dest) as Hres. rewrite Hdec in Hres. simpl in Hres.
    unfold Deny, AllowAndReport, Allow in *.
    destruct Hres as [Hr|[Hr|Hr]]; rewrite Hr in Hp; by simpl in Hp.
  - split; [intros _; split; [eauto|by intros (? & [=])]|]. intros _. by eexists _, _.
Qed.

Lemma acl_check_panics_iff_witness :
  ∃ what w', checkACLsForRequest (acl_config sample_acl)
    (client_request "CONNECT" "" "[2606:2800:220:1::1]:443" "dummy-glob")
    "[2606:2800:220:1::1]:443" init_world = (Panic what, w').
Proof.
  apply (acl_check_panics_iff (acl_config sample_acl) sample_acl
    (client_request "CONNECT" "" "[2606:2800:220:1::1]:443" "dummy-glob")
    "[2606:2800:220:1::1]:443" init_world eq_refl).
  split; [by eexists|]. intros (h & Hh%hostExtract_spec). by vm_compute in Hh.
Defined.

(** ** The address of an HTTP request *)
Definition default_port (scheme : string) : string :=
  if String.eqb scheme "http" then "80" else if String.eqb scheme "https" then "443" else "0".

Lemma default_port_digits scheme : str_all is_digit (default_port scheme) = true.
Proof. unfold default_port. by repeat case_match. Qed.

Lemma remote_host_default req :
  LastIndex (Host req) ":" ≤ LastIndex (Host req) "]" →
  remote_host req = JoinHostPort (Host req) (default_port (Scheme req)).
Proof.
  intros H. unfold remote_host, default_port. apply Z.leb_le in H. rewrite H.
  by repeat case_match.
Qed.

Lemma remote_host_v6 req v6 :
  Host req = "[" +:+ v6 +:+ "]" → has_byte ":" v6 = true →
  remote_host req = "[[" +:+ v6 +:+ "]]:" +:+ default_port (Scheme req).
Proof.
  intros Hh Hv. rewrite remote_host_default.
  - unfold JoinHostPort. rewrite Hh, !has_byte_app, Hv. simpl.
    change ("[[" +:+ v6 +:+ "]]:" +:+ default_port (Scheme req))
      with ("[" +:+ "[" +:+ v6 +:+ "]]:" +:+ default_port (Scheme req)).
    by rewrite <-!app_str_assoc.
  - rewrite Hh, app_str_assoc.
    assert (LastIndex (("[" +:+ v6) +:+ "]") "]" = Z.of_nat (String.length ("[" +:+ v6))) as ->
      by by apply LastIndex_app.
    pose proof (LastIndex_lt (("[" +:+ v6) +:+ "]") ":") as Hl.
    rewrite length_app_str in Hl. change (String.length "]") with 1%nat in Hl. lia.
Qed.

(** C35: the address that is checked for an HTTP request. A host with a port is
    taken as it is; a name or IPv4 address without one gets the port of the
    scheme, and splits back into that host and port.  A bracketed IPv6 literal
    without a port is bracketed a second time and no longer parses, so it is
    never proxied. *)
Theorem http_address req :
  (LastIndex (Host req) "]" < LastIndex (Host req) ":" → remote_host req = Host req) ∧
  (has_byte ":" (Host req) = false → has_byte "[" (Host req) = false →
   has_byte "]" (Host req) = false →
   SplitHostPort (remote_host req) = Ok (Host req, default_port (Scheme req))) ∧
  (∀ v6, Host req = "[" +:+ v6 +:+ "]" → has_byte ":" v6 = true → has_byte "]" v6 = false →
   SplitHostPort (remote_host req) = Fail (addr_error missingPort (remote_host req))).
Proof.
  pose proof (default_port_digits (Scheme req)) as Hd.
  split_and!.
  - intros H. unfold remote_host. apply Z.leb_gt in H. by rewrite H.
  - intros H1 H2 H3. rewrite remote_host_default.
    + apply SplitHostPort_JoinHostPort; try done; by apply digits_no_byte.
    + apply LastIndex_none in H1, H3. lia.
  - intros v6 Hh Hv Hb. rewrite (remote_host_v6 req v6 Hh Hv).
    generalize dependent (default_port (Scheme req)). intros port Hd. unfold SplitHostPort.
    set (pre := "[[" +:+ v6).
    assert ("[[" +:+ v6 +:+ "]]:" +:+ port = (pre +:+ "]]") +:+ String ":" port) as -> by
      (unfold pre; by rewrite <-!app_str_assoc).
    rewrite LastIndex_app, Z_to_nat_ltb, Nat2Z.id by by apply digits_no_byte.
    assert (HasPrefix ((pre +:+ "]]") +:+ String ":" port) "[" = true) as ->
      by (apply HasPrefix_spec; unfold pre; rewrite <-!app_str_assoc; by eexists).
    assert ((pre +:+ "]]") +:+ String ":" port = pre +:+ String "]" ("]:" +:+ port)) as Hs
      by by rewrite <-!app_str_assoc.
    rewrite Hs, IndexByte_app by (unfold pre; by rewrite has_byte_app, Hb).
    rewrite str_drop_S_app.
    rewrite !(proj2 (Nat.eqb_neq _ _)); [reflexivity| |];
      do 2 (rewrite ?length_app_str; cbn [String.length]); lia.
Qed.

Lemma http_address_witness :
  SplitHostPort (remote_host (client_request "GET" "http" "[2606:2800::1]" "svc"))
  = Fail (addr_error missingPort "[[2606:2800::1]]:80").
Proof.
  apply (proj2 (proj2 (http_address (client_request "GET" "http" "[2606:2800::1]" "svc")))
           "2606:2800::1"); by vm_compute.
Defined.

(** ** Roles *)

(** The role of a request. A role is used only when the role function
    returned it without an error; an error that says the role is missing gives
    the empty role when [AllowMissingRole] is set; every other error is
    returned, with one log line and no role.  With the default role function
    the role is the common name of the client's first certificate, so a
    request header cannot choose it. *)
Theorem getRole_spec config req w :
  match role_of config req with
  | Some role => getRole config req w = (Ret (role, None), w)
  | None => ∃ err entry, getRole config req w =
      (Ret ("", Some err), mkWorld (w_trace w) (w_logs w ++ [entry]) (w_track w)) ∧
      le_level entry = LErr ∧ (IsMissingRoleError err && AllowMissingRole config = false)
  end ∧
  (RoleFromRequest config = Some defaultRoleFromRequest →
   role_of config req = match PeerCertificates req with
                        | Some (cert :: _) => Some (CommonName cert)
                        | _ => if AllowMissingRole config then Some "" else None
                        end).
Proof.
  split.
  - unfold role_of, getRole. destruct (RoleFromRequest config) as [f|].
    + destruct (f req) as [role [err|]]; [|done].
      destruct (IsMissingRoleError err && AllowMissingRole config) eqn:Hm; [done|].
      eexists err, _. by split_and!.
    + simpl. destruct (AllowMissingRole config) eqn:Ha; [done|]. eexists _, _. by split_and!.
  - intros Hf. unfold role_of. rewrite Hf. unfold defaultRoleFromRequest.
    by destruct (PeerCertificates req) as [[|cert certs]|].
Qed.

Lemma getRole_spec_witness :
  role_of (acl_config sample_acl) (client_request "CONNECT" "" "api.example.com:443" "svc")
  = Some "svc".
Proof.
  apply (getRole_spec (acl_config sample_acl)
    (client_request "CONNECT" "" "api.example.com:443" "svc") init_world). reflexivity.
Defined.

(** ** Headers of the forwarded request *)
Definition smokescreen_headers : gset string :=
  {[CanonicalHeaderKey roleHeader; CanonicalHeaderKey traceHeader]}.
Definition hop_headers : gset string :=
  {["Accept-Encoding"; "Proxy-Connection"; "Connection"]}.

Lemma lookup_del_header ctx key k :
  ReqHeader (ctx_Req (del_header ctx key)) !! k =
  if decide (k = CanonicalHeaderKey key) then None else ReqHeader (ctx_Req ctx) !! k.
Proof.
  simpl. unfold Header_Del. rewrite lookup_delete. by repeat case_decide; subst.
Qed.

Lemma fin_on_request `{E : Env} config ctx l ctx' resp :
  finishes (on_request config ctx) l (Ret (ctx', resp)) →
  ctx_Req ctx' = ctx_Req (del_header (del_header ctx roleHeader) traceHeader).
Proof.
  unfold on_request, Now. intros H. fin_inv. destruct a1 as [d [err|]]; simpl in *.
  - by fin_inv.
  - destruct (d_allow d); simpl in *; by fin_inv.
Qed.

(** C32: what reaches the destination. When the HTTP handler has run, the
    request that is sent has neither the role header nor the trace header of
    the client, nor the headers of the hop; every other header is unchanged,
    and so are the method and the URL. *)
Theorem forwarded_headers `{E : Env} config ctx l ctx' resp :
  finishes (on_request config ctx) l (Ret (ctx', resp)) →
  let sent := removeProxyHeaders (ctx_Req ctx') in
  (∀ k, ReqHeader sent !! k =
        if decide (k ∈ smokescreen_headers ∪ hop_headers) then None
        else ReqHeader (ctx_Req ctx) !! k) ∧
  Header_Get (ReqHeader sent) roleHeader = "" ∧ Header_Get (ReqHeader sent) traceHeader = "" ∧
  Method sent = Method (ctx_Req ctx) ∧ Host sent = Host (ctx_Req ctx) ∧
  Scheme sent = Scheme (ctx_Req ctx) ∧ URL_Host sent = URL_Host (ctx_Req ctx) ∧
  Path sent = Path (ctx_Req ctx).
Proof.
  intros Hr sent. apply fin_on_request in Hr.
  assert (∀ k, ReqHeader sent !! k =
        if decide (k ∈ smokescreen_headers ∪ hop_headers) then None
        else ReqHeader (ctx_Req ctx) !! k) as Hk.
  { intros k. unfold sent, removeProxyHeaders. cbn [ReqHeader]. unfold Header_Del. rewrite Hr.
    rewrite !lookup_delete, !lookup_del_header. unfold smokescreen_headers, hop_headers.
    change (CanonicalHeaderKey "Connection") with "Connection".
    change (CanonicalHeaderKey "Proxy-Connection") with "Proxy-Connection".
    change (CanonicalHeaderKey "Accept-Encoding") with "Accept-Encoding".
    repeat case_decide; subst; try done; set_solver. }
  assert (∀ key, CanonicalHeaderKey key ∈ smokescreen_headers →
                 Header_Get (ReqHeader sent) key = "") as Hg.
  { intros key Hin. unfold Header_Get. rewrite Hk, decide_True by set_solver. done. }
  split_and!; [done|apply Hg; unfold smokescreen_headers; set_solver..| | | | |];
    unfold sent; simpl; by rewrite Hr.
Qed.

Lemma forwarded_headers_witness :
  let ctx := new_ctx (client_request "GET" "http" "api.example.com" "dummy-glob") in
  Header_Get (ReqHeader (ctx_Req ctx)) roleHeader = "spoofed" ∧
  match (@on_request rebinding_env (acl_config sample_acl) ctx init_world).1 with
  | Ret (ctx', _) => Header_Get (ReqHeader (removeProxyHeaders (ctx_Req ctx'))) roleHeader = ""
  | Panic _ => False
  end.
Proof.
  split; [by vm_compute|].
  destruct (@on_request rebinding_env (acl_config sample_acl)
    (new_ctx (client_request "GET" "http" "api.example.com" "dummy-glob")) init_world)
    as [[[ctx' resp]|s] w'] eqn:H; [|by vm_compute in H].
  apply run_finishes in H as (l & H & _).
  apply (@forwarded_headers rebinding_env _ _ _ _ _ H).
Defined.

(** ** Responses *)

(** The text shown to the client. *)
Definition deny_text (config : Config) (req : Request) (err : error) : string :=
  let msg :=
    if is_denyError err
    then "Egress proxying is denied to host '" +:+ Host req +:+ "': " +:+ Error err +:+ "."
    else "An unexpected error occurred." in
  if String.eqb (AdditionalErrorMessageOnDeny config) "" then msg
  else msg +:+ newline +:+ newline +:+ AdditionalErrorMessageOnDeny config +:+ newline.

Definition reject_of (config : Config) (req : Request) (err : error) : Response :=
  let msg := deny_text config req err in
  mkResponse "Request Rejected by Proxy" 407 (ProtoMajor req) (ProtoMinor req)
    (Header_Set (Header_Set ∅ "Content-Type" "text/plain") errorHeader msg)
    (msg +:+ newline) (Z.of_nat (String.length (msg +:+ newline))).

Lemma run_rejectResponse req config err w :
  rejectResponse req config err w =
  (Ret (reject_of config req err),
   if is_denyError err then w
   else (WithFields [("error", LError err)] LWarn "rejectResponse called with unexpected error" w).2).
Proof.
  unfold rejectResponse, reject_of, deny_text.
  destruct err; by destruct (String.eqb (AdditionalErrorMessageOnDeny config) "").
Qed.

(** Refusing a request. The refusal is a 407 with a plain-text body that
    repeats the message of the error header, of the right length; it explains
    the reason for a denial and nothing of any other error, which is only
    logged: the responses to two errors that are not denials are the same. *)
Theorem rejectResponse_spec req config err w :
  ∃ resp w', rejectResponse req config err w = (Ret resp, w') ∧
  StatusCode resp = 407 ∧ Status resp = "Request Rejected by Proxy" ∧
  Body resp = Header_Get (RespHeader resp) errorHeader +:+ newline ∧
  Header_Get (RespHeader resp) "content-type" = "text/plain" ∧
  ContentLength resp = Z.of_nat (String.length (Body resp)) ∧
  (is_denyError err = true → w' = w ∧
     Contains (Body resp) (Host req) = true ∧ Contains (Body resp) (Error err) = true) ∧
  (is_denyError err = false → length (w_logs w') = S (length (w_logs w)) ∧
     ∀ err2 w2, is_denyError err2 = false →
       (rejectResponse req config err2 w2).1 = Ret resp).
Proof.
  eexists _, _. split; [apply run_rejectResponse|].
  set (msg := deny_text config req err).
  assert (Header_Get (RespHeader (reject_of config req err)) errorHeader = msg) as Hh
    by apply Header_Get_Set.
  rewrite Hh. split_and!; try done.
  - intros Hd. rewrite Hd. split; [done|]. simpl. fold msg.
    assert (∃ post, msg = "Egress proxying is denied to host '" +:+ Host req +:+ "': "
              +:+ Error err +:+ "." +:+ post) as [post ->].
    { unfold msg, deny_text. rewrite Hd.
      destruct (String.eqb (AdditionalErrorMessageOnDeny config) "").
      - exists "". by rewrite app_str_nil_r.
      - eexists. by rewrite <-!app_str_assoc. }
    split; apply Contains_spec.
    + exists "Egress proxying is denied to host '". eexists. by rewrite <-!app_str_assoc.
    + exists ("Egress proxying is denied to host '" +:+ Host req +:+ "': "). eexists.
      by rewrite <-!app_str_assoc.
  - intros Hd. rewrite Hd. simpl. split; [rewrite length_app; simpl; lia|].
    intros err2 w2 Hd2. rewrite run_rejectResponse. simpl. unfold reject_of, deny_text.
    by rewrite Hd, Hd2.
Qed.

Lemma rejectResponse_spec_witness :
  let req := client_request "GET" "http" "example.com" "svc" in
  ∃ resp w', rejectResponse req NewConfig (Err "dial tcp: secret") init_world = (Ret resp, w') ∧
    (rejectResponse req NewConfig (Err "another") init_world).1 = Ret resp.
Proof.
  destruct (rejectResponse_spec (client_request "GET" "http" "example.com" "svc") NewConfig
    (Err "dial tcp: secret") init_world) as (resp & w' & H & _ & _ & _ & _ & _ & _ & Hh).
  exists resp, w'. split; [exact H|]. apply (proj2 (Hh eq_refl)). reflexivity.
Defined.

Lemma fin_rejectResponse req config err l r :
  finishes (rejectResponse req config err) l (Ret r) → r = reject_of config req err.
Proof.
  unfold rejectResponse, reject_of, deny_text. intros H. fin_inv.
  destruct err; simpl in *; fin_inv; by destruct (String.eqb (AdditionalErrorMessageOnDeny config) "").
Qed.

Lemma fin_handleConnect_req `{E : Env} config ctx l ctx' err :
  finishes (handleConnect config ctx) l (Ret (ctx', err)) → ctx_Req ctx' = ctx_Req ctx.
Proof.
  unfold handleConnect, Now. intros H. fin_inv. destruct a1 as [d e].
  destruct (ctx_UserData ctx) as [u|]; [|by fin_inv]. fin_inv.
  destruct e; [by fin_inv|]. destruct (d_allow d); simpl in *; by fin_inv.
Qed.

Lemma fin_on_connect_reject `{E : Env} config host ctx l ctx' host' :
  finishes (on_connect config host ctx) l (Ret (ctx', (RejectConnect, host'))) →
  ∃ err, ctx_Resp ctx' = Some (reject_of config (ctx_Req ctx) err).
Proof.
  unfold on_connect, Now. intros H. fin_inv. destruct a0 as [c [err|]]; [|by fin_inv]. fin_inv.
  match goal with H : finishes (handleConnect _ _) _ _ |- _ =>
    apply fin_handleConnect_req in H; simpl in H end.
  match goal with H : finishes (rejectResponse _ _ _) _ _ |- _ =>
    apply fin_rejectResponse in H as -> end.
  exists err. simpl. congruence.
Qed.

(** C33: who sees the error header. An answer to a CONNECT that is refused is
    the refusal itself, with its error header.  An answer to any other request
    never has an error header, not even a refusal: the response filter deletes
    the header from refusals as well as from responses of the destination. *)
Theorem error_header_only_on_connect `{E : Env} `{T : Transport} config req l :
  (∀ r, finishes (serve_connect config req) l (Ret (Rejected r)) →
     ∃ err, r = Some (reject_of config (ctx_Req (new_ctx req)) err)) ∧
  (∀ resp, finishes (serve_http config req) l (Ret (Answer resp)) →
     Header_Get (RespHeader resp) errorHeader = "").
Proof.
  split.
  - intros r. unfold serve_connect. intros H. fin_inv. destruct a as [ctx [[] host]].
    { fin_inv. destruct a as [[c|] u]; [|by fin_inv]. fin_inv.
      destruct (_ && _); by fin_inv. }
    fin_inv. eapply fin_on_connect_reject. done.
  - intros resp H.
    assert (∃ ctx l', finishes (serve_absolute config ctx) l' (Ret (Answer resp))) as (ctx & l' & Ha).
    { unfold serve_http in H. repeat case_match; fin_inv; try done; eauto. }
    unfold serve_absolute in Ha. fin_inv. destruct a as [c1 r1]. fin_inv.
    destruct a as [[r2|] c2]; [|by fin_inv]. fin_inv. destruct a as [[r3|] c3]; [|by fin_inv].
    fin_inv. unfold filterResponse in *. fin_inv. unfold on_response in *. fin_inv.
    apply Header_Get_Del.
Qed.

(** ** One decision line per request *)
Definition is_decision (l : LogEntry) : bool :=
  String.eqb (le_message l) LOGLINE_CANONICAL_PROXY_DECISION.

(** The decision lines among the effects of an execution. *)
Definition nlines (l : list Eff) : nat := length (List.filter is_decision (entries l)).

Lemma nlines_app l1 l2 : nlines (l1 ++ l2) = (nlines l1 + nlines l2)%nat.
Proof. unfold nlines. by rewrite entries_app, List.filter_app, length_app. Qed.

(** [logs n m]: an execution of [m] that returns writes [n] decision lines. *)
Definition logs {A} (n : A → nat) (m : M A) : Prop :=
  ∀ l a, finishes m l (Ret a) → nlines l = n a.

(** The logic of computations that write none. *)
Definition no_lines (A : Type) (m : M A) (Q : A → Prop) : Prop :=
  ∀ l a, finishes m l (Ret a) → nlines l = 0%nat ∧ Q a.

#[global] Instance no_lines_logic : Logic no_lines.
Proof.
  split.
  - by intros A a Q HQ l b [-> ->]%finishes_ret.
  - by intros A s Q l b ?%finishes_panic.
  - intros A B m k Q Q' Hm Hk l b (a & l1 & l2 & H1 & H2 & ->)%finishes_bind.
    destruct (Hm _ _ H1) as [Hl HQ]. destruct (Hk a HQ _ _ H2) as [Hl' HQ'].
    rewrite nlines_app, Hl, Hl'. done.
  - intros A m Q Q' Hm HQ l a Hf. destruct (Hm l a Hf). auto.
Qed.

Lemma no_lines_act {X} (a : Act X) :
  (∀ w, nlines (effects a w) = 0%nat) → holds no_lines (act a) (λ _, True).
Proof. intros Ha l x (w & -> & ->)%finishes_act. by rewrite Ha. Qed.

Lemma no_lines_calls h evs : nlines (calls_from h evs) = 0%nat.
Proof. unfold nlines. by rewrite entries_calls_from. Qed.

#[global] Instance no_lines_quiet : Quiet no_lines.
Proof.
  split; intros; apply no_lines_act; intros w; [done|]. unfold nlines, is_decision. simpl.
  by rewrite (proj2 (String.eqb_neq _ _)).
Qed.

#[global] Instance no_lines_actions `{E : Env} : Actions no_lines.
Proof.
  split; intros; try apply _; try (by apply no_lines_act).
  unfold track_conn, Now.
  repeat (eapply spec_bind; [by apply no_lines_act|intros ? _]). by apply spec_ret.
Qed.

#[global] Instance no_lines_closes `{E : Env} : Closes no_lines.
Proof.
  intros id. unfold close_conn. eapply spec_bind.
  - apply no_lines_act. intros w. apply no_lines_calls.
  - intros [r|s] _; [by apply spec_ret|apply spec_panic].
Qed.

Lemma no_lines_dial config : dial_ok no_lines config.
Proof. intros A f a t _. by apply no_lines_act. Qed.

Lemma logs_silent {A B} (m : M A) (k : A → M B) Q n :
  holds no_lines m Q → (∀ a, Q a → logs n (k a)) → logs n (bind m k).
Proof.
  intros Hm Hk l b (a & l1 & l2 & H1 & H2 & ->)%finishes_bind.
  destruct (Hm _ _ H1) as [Hl HQ]. by rewrite nlines_app, Hl, (Hk a HQ _ _ H2).
Qed.

Lemma logs_then {A B} (m : M A) (k : A → M B) Q n :
  logs (λ _, n) m → holds (steps_in (adds not_dial)) m Q →
  (∀ a, Q a → holds no_lines (k a) (λ _, True)) → logs (λ _, n) (bind m k).
Proof.
  intros Hm Hs Hk l b (a & l1 & l2 & H1 & H2 & ->)%finishes_bind.
  destruct (finishes_adds _ _ _ _ _ Hs H1) as [_ HQ]. destruct (Hk a HQ _ _ H2) as [Hl _].
  by rewrite nlines_app, (Hm _ _ H1), Hl.
Qed.

Lemma logs_ret {A} (n : A → nat) a : n a = 0%nat → logs n (ret a).
Proof. by intros Hn l b [-> ->]%finishes_ret. Qed.

Lemma logs_panic {A} (n : A → nat) what : logs n (panic what).
Proof. by intros l b ?%finishes_panic. Qed.

Lemma logs_logProxy ctx ty a d t s e : logs (λ _, 1%nat) (logProxy ctx ty a d t s e).
Proof. by intros l b ->%finishes_logProxy. Qed.

Section lines.
Context `{E : Env} `{T : Transport} (config : Config).

(** Filtering a response writes one line; answering with an error, the first of
    two calls of the filter, writes none. *)
Lemma filter_error_lines ctx err :
  holds no_lines (filterResponse config None (set_Error ctx (Some err))) (λ _, True).
Proof. unfold filterResponse, on_response. simpl. spec_auto. Qed.

Lemma logs_on_response resp ctx : logs (λ _, 1%nat) (on_response config (Some resp) ctx).
Proof.
  unfold on_response, logHTTP. eapply (logs_then _ _ (λ _, True)).
  - destruct (ctx_UserData ctx); [apply logs_logProxy|apply logs_panic].
  - eapply spec_logHTTP; apply _.
  - intros _ _. spec_auto.
Qed.

Lemma logs_filter_resp resp ctx : logs (λ _, 1%nat) (filterResponse config (Some resp) ctx).
Proof.
  unfold filterResponse. eapply (logs_then _ _ (λ _, True)).
  - apply logs_on_response.
  - eapply spec_on_response; apply _.
  - intros r _. spec_auto.
Qed.

Lemma send_request_lines ctx :
  userdata_ok config (ctx_UserData ctx) →
  holds no_lines (send_request config ctx) (λ _, True).
Proof.
  intros Hu. unfold send_request. eapply spec_bind.
  - by apply (spec_DetailedRoundTrip _ _ (no_lines_dial config)).
  - intros [[d [r|e]] u] _; [spec_auto|]. apply filter_error_lines.
Qed.

Lemma logs_serve_absolute ctx :
  logs (λ r, match r with HttpError _ => 0 | _ => 1 end)%nat (serve_absolute config ctx).
Proof.
  unfold serve_absolute. eapply logs_silent; [by eauto with spec|]. intros [c1 r1] [Hu _].
  eapply (logs_silent _ _ (λ _, True)).
  { destruct r1; [spec_auto|]. by apply send_request_lines. }
  intros [[r2|] c2] _; [|by apply logs_ret].
  intros l r (p & l1 & l2 & Hf & H & ->)%finishes_bind. destruct p as [[r3|] c3]; [|by fin_inv].
  apply finishes_ret in H as [-> ->]. rewrite app_nil_r. by apply logs_filter_resp in Hf.
Qed.

Lemma logs_handleConnect ctx : logs (λ _, 1%nat) (handleConnect config ctx).
Proof.
  unfold handleConnect. do 3 (eapply logs_silent; [by eauto with spec|]; intros ? _).
  destruct a1 as [d e]. destruct (ctx_UserData ctx); [|apply logs_panic].
  eapply (logs_then _ _ (λ _, True)).
  - apply logs_logProxy.
  - eapply spec_logProxy; apply _.
  - intros _ _. spec_auto.
Qed.

Lemma logs_serve_connect req : logs (λ _, 1%nat) (serve_connect config req).
Proof.
  unfold serve_connect. eapply logs_then.
  - unfold on_connect. eapply logs_silent; [by eauto with spec|]. intros start _.
    eapply logs_then; [apply logs_handleConnect| |].
    + eapply spec_handleConnect; apply _.
    + intros [c [e|]] _; spec_auto.
  - eapply spec_on_connect; apply _.
  - intros [ctx [[] host]] [Hu _]; [|spec_auto]. eapply spec_bind.
    + eapply spec_dial; [apply _..|apply no_lines_dial|exact Hu].
    + intros [[c|] u] _; [|spec_auto]. eapply spec_bind; [apply spec_history|].
      intros h _. spec_auto.
Qed.
End lines.

(** The replies that the two branches of [ServeHTTP] give. *)
Lemma serve_connect_reply `{E : Env} `{T : Transport} config req l r :
  finishes (serve_connect config req) l (Ret r) →
  match r with Answer _ | HttpError _ | Health => False | _ => True end.
Proof.
  unfold serve_connect. intros H. fin_inv. destruct a as [ctx [[] host]]; [|by fin_inv].
  fin_inv. destruct a as [[c|] u]; [|by fin_inv]. fin_inv. destruct (_ && _); by fin_inv.
Qed.

(** An error of the transport is turned into a response. *)
Lemma send_request_answers `{E : Env} `{T : Transport} config ctx l r ctx' :
  finishes (send_request config ctx) l (Ret (r, ctx')) → is_Some r.
Proof.
  unfold send_request. intros H. fin_inv. destruct a as [[d [resp|err]] u]; [by fin_inv; eauto|].
  unfold filterResponse, on_response in H. simpl in H. fin_inv; by eauto.
Qed.

Lemma serve_absolute_reply `{E : Env} `{T : Transport} config ctx l r :
  finishes (serve_absolute config ctx) l (Ret r) →
  match r with Answer _ => True | _ => False end.
Proof.
  unfold serve_absolute. intros H. fin_inv. destruct a as [c1 r1]. fin_inv.
  destruct a as [[r2|] c2].
  - fin_inv. destruct a as [[r3|] c3]; by fin_inv.
  - exfalso. destruct r1 as [r1|]; [by fin_inv|].
    match goal with Hs : finishes (send_request _ _) _ _ |- _ =>
      by destruct (send_request_answers _ _ _ _ _ Hs) end.
Qed.

Definition reply_lines (r : Reply) : nat := match r with HttpError _ | Health => 0 | _ => 1 end.

Lemma logs_ServeHTTP `{E : Env} `{T : Transport} config req :
  logs reply_lines (proxy_ServeHTTP config req).
Proof.
  unfold proxy_ServeHTTP. intros l r. destruct (String.eqb (Method req) "CONNECT").
  - intros H. rewrite (logs_serve_connect config req l r H).
    apply serve_connect_reply in H. by destruct r.
  - unfold serve_http. intros H. repeat case_match; try by fin_inv.
    all: rewrite (logs_serve_absolute config _ l r H); apply serve_absolute_reply in H;
      by destruct r.
Qed.

(** With the health check. *)
Lemma logs_handler `{E : Env} `{T : Transport} config hc req :
  logs reply_lines (handler config hc req).
Proof.
  pose proof (logs_ServeHTTP config req) as Hs.
  unfold handler, HealthcheckMiddleware_ServeHTTP. destruct hc; [|done].
  destruct (String.eqb (Path req) "/healthcheck"); [by apply logs_ret|done].
Qed.

(** The replies that are not logged: the health check, and the refusal of a
    request without a scheme whose URL cannot be parsed. *)
Definition unlogged_reply `{T : Transport} (hc : bool) (req : Request) (r : Reply) : Prop :=
  match r with
  | Health => hc = true ∧ Path req = "/healthcheck"
  | HttpError msg => Method req ≠ "CONNECT" ∧ Scheme req = "" ∧
      ∃ err, tr_url_Parse ("http://" +:+ Host req +:+ Path req) = Fail err ∧ msg = Error err
  | _ => False
  end.

Lemma handler_reply `{E : Env} `{T : Transport} config hc req l r :
  finishes (handler config hc req) l (Ret r) → reply_lines r = 0%nat → unlogged_reply hc req r.
Proof.
  unfold handler, HealthcheckMiddleware_ServeHTTP, proxy_ServeHTTP. intros H Hr.
  assert (finishes (if String.eqb (Method req) "CONNECT" then serve_connect config req
    else serve_http config req) l (Ret r) → unlogged_reply hc req r) as Hserve.
  { clear H. destruct (String.eqb_spec (Method req) "CONNECT").
    - intros H%serve_connect_reply. by destruct r.
    - unfold serve_http. destruct (String.eqb_spec (Scheme req) "") as [Hs|Hs]; simpl.
      + destruct (String.eqb (Host req) ""); [intros H; by fin_inv|].
        destruct (tr_url_Parse _) as [[[sch h] p]|err] eqn:Hu; intros H.
        * apply serve_absolute_reply in H. by destruct r.
        * apply finishes_ret in H as [-> _]. simpl. eauto.
      + intros H%serve_absolute_reply. by destruct r. }
  destruct hc; [|by apply Hserve].
  destruct (String.eqb_spec (Path req) "/healthcheck") as [Hp|]; [|by apply Hserve].
  apply finishes_ret in H as [-> _]. by split.
Qed.

(** Exactly one canonical log line per request: whatever other goroutines
    do meanwhile, a request for which the proxy returns a reply, be it an
    answer, a refusal, a tunnel or a failed connection, writes exactly one
    "CANONICAL-PROXY-DECISION" line; only a request whose URL cannot be built
    is not logged. *)
Theorem one_decision_line `{E : Env} `{T : Transport} config req l r :
  finishes (proxy_ServeHTTP config req) l (Ret r) → nlines l = reply_lines r.
Proof. apply logs_ServeHTTP. Qed.

Definition lines (w : World) : nat := length (List.filter is_decision (w_logs w)).

Lemma one_decision_line_witness :
  let req := client_request "CONNECT" "" "denied.test:443" "dummy-glob" in
  lines (@proxy_ServeHTTP rebinding_env (acl_config sample_acl) direct_transport req init_world).2
  = 1%nat.
Proof.
  destruct (@proxy_ServeHTTP rebinding_env (acl_config sample_acl) direct_transport
    (client_request "CONNECT" "" "denied.test:443" "dummy-glob") init_world)
    as [[r|s] w'] eqn:H; [|by vm_compute in H].
  cbn zeta. rewrite H.
  assert (match r with Rejected _ => True | _ => False end) as Hr.
  { revert H. vm_compute. by intros [= <- _]. }
  apply run_finishes in H as (l & Hf & _ & _ & Hl). unfold lines. simpl. rewrite Hl.
  apply (@one_decision_line rebinding_env direct_transport) in Hf.
  unfold nlines in Hf. simpl. rewrite Hf. by destruct r.
Defined.

(** ** The dialled string *)

(** The string handed to the dialler for an IPv4 destination denotes the
    address that was classified: it splits into a dotted quad and a port, and
    parsing the two gives back the same host, the same port and the same
    classification. *)
Theorem dialled_string_v4 config a p :
  To4 (tcp_IP a) = Some p → bytes p → tcp_Zone a = "" → 0 ≤ tcp_Port a < 65536 →
  ∃ host port ip, SplitHostPort (TCPAddr_String a) = Ok (host, port) ∧
    ParseIP host = Some ip ∧ Atoi port = inl (tcp_Port a) ∧
    ip ≈ip tcp_IP a ∧
    classifyAddr config (mkTCPAddr ip (tcp_Port a) "") = classifyAddr config a.
Proof.
  intros H4 Hb Hz Hp. pose proof (To4_length _ _ H4) as Hl.
  exists (dotted p), (itoa (tcp_Port a)), (v4InV6Prefix ++ p).
  assert (v4InV6Prefix ++ p ≈ip tcp_IP a) as Hs.
  { etrans; [|symmetry; by apply To4_same].
    apply To4_same. unfold To4. simpl. by rewrite Hl. }
  split_and!.
  - rewrite (TCPAddr_String_v4 a p H4 Hz). pose proof (itoa_digits (tcp_Port a)) as Hd.
    apply SplitHostPort_JoinHostPort; try (by apply has_byte_dotted);
      (apply digits_no_byte; [done|apply Hd; lia]).
  - by apply ParseIP_dotted.
  - apply Atoi_itoa. lia.
  - done.
  - destruct a as [ip port zone]. simpl in *. by apply classifyAddr_same.
Qed.

Lemma dialled_string_v4_witness :
  ∃ host port ip, SplitHostPort "93.184.216.34:443" = Ok (host, port) ∧
    ParseIP host = Some ip ∧ Atoi port = inl 443 ∧ ip ≈ip [93; 184; 216; 34] ∧
    classifyAddr NewConfig (mkTCPAddr ip 443 "") =
    classifyAddr NewConfig (mkTCPAddr [93; 184; 216; 34] 443 "").
Proof.
  apply (dialled_string_v4 NewConfig (mkTCPAddr [93; 184; 216; 34] 443 "") [93; 184; 216; 34]);
    try reflexivity; [repeat constructor; by vm_compute|by vm_compute].
Defined.

(** The string handed to the dialler denotes the address that was
    classified, for every IPv4 and IPv6 address: it splits into a host and a
    port, and parsing the two gives back the same address, the same port and
    the same classification. *)
Theorem dialled_string config a :
  bytes (tcp_IP a) → length (tcp_IP a) = 4%nat ∨ length (tcp_IP a) = 16%nat →
  tcp_Zone a = "" → 0 ≤ tcp_Port a < 65536 →
  ∃ host port ip, SplitHostPort (TCPAddr_String a) = Ok (host, port) ∧
    ParseIP host = Some ip ∧ Atoi port = inl (tcp_Port a) ∧ ip ≈ip tcp_IP a ∧
    classifyAddr config (mkTCPAddr ip (tcp_Port a) "") = classifyAddr config a.
Proof.
  intros Hb Hl Hz Hp. destruct (ParseIP_String (tcp_IP a) Hb Hl) as (ip & Hip & Hs).
  exists (IP_String (tcp_IP a)), (itoa (tcp_Port a)), ip.
  assert (TCPAddr_String a = JoinHostPort (IP_String (tcp_IP a)) (itoa (tcp_Port a))) as ->.
  { unfold TCPAddr_String. rewrite Hz. cbn [String.eqb].
    destruct (tcp_IP a); [by destruct Hl|done]. }
  pose proof (itoa_digits (tcp_Port a)) as Hd.
  split_and!; [|done|by apply Atoi_itoa; lia|done|].
  - apply SplitHostPort_JoinHostPort; try (by apply has_byte_IP_String; tauto);
      (apply digits_no_byte; [done|apply Hd; lia]).
  - destruct a as [ip' port zone]. simpl in *. by apply classifyAddr_same.
Qed.

Lemma dialled_string_witness :
  ∃ host port ip, SplitHostPort "[2606:2800:220:1::1946]:443" = Ok (host, port) ∧
    ParseIP host = Some ip ∧ Atoi port = inl 443 ∧
    ip ≈ip [38;6;40;0;2;32;0;1;0;0;0;0;0;0;25;70] ∧
    classifyAddr NewConfig (mkTCPAddr ip 443 "") =
    classifyAddr NewConfig (mkTCPAddr [38;6;40;0;2;32;0;1;0;0;0;0;0;0;25;70] 443 "").
Proof.
  apply (dialled_string NewConfig (mkTCPAddr [38;6;40;0;2;32;0;1;0;0;0;0;0;0;25;70] 443 ""));
    [repeat constructor; by vm_compute|by right|done|by vm_compute].
Defined.

(** ** What is logged about a decision *)

(** The log line never names a project. Whatever project the ACL reported
    for the request, the decision that is logged has an empty one: the field
    is declared and logged but never set (the project only reaches the tags of
    the ACL counters). *)
Theorem logged_project_is_empty `{E : Env} config req host w d e w' ctx ty a t s err :
  checkIfRequestShouldBeProxied config req host w = (Ret (d, e), w') →
  log_fields ctx ty a (Some d) t s err !! "project" = Some (LString "").
Proof.
  intros H. destruct (steps_in_run _ _ _ w (spec_check (steps_in (adds not_dial)) config req host))
    as [_ HQ].
  rewrite H in HQ. destruct (HQ _ eq_refl) as (_ & Hp & _). simpl in Hp.
  unfold log_fields. destruct (match SplitHostPort _ with Ok _ => _ | Fail _ => _ end) as [fh fp].
  destruct err; rewrite ?lookup_insert_ne by done; rewrite Hp; by rewrite lookup_insert_eq.
Qed.

Lemma logged_project_is_empty_witness :
  let req := client_request "CONNECT" "" "api.example.com:443" "dummy-glob" in
  Decision_Project (acl_Decide sample_acl "dummy-glob" "api.example.com").1 = "phony" ∧
  ∃ d e w', @checkIfRequestShouldBeProxied rebinding_env (acl_config sample_acl) req
              "api.example.com:443" init_world = (Ret (d, e), w') ∧
  log_fields (new_ctx req) "connect" None (Some d) "" 0 None !! "project" = Some (LString "").
Proof.
  split; [by vm_compute|].
  destruct (@checkIfRequestShouldBeProxied rebinding_env (acl_config sample_acl)
    (client_request "CONNECT" "" "api.example.com:443" "dummy-glob") "api.example.com:443" init_world)
    as [[[d e]|s] w'] eqn:H; [|by vm_compute in H].
  exists d, e, w'. split; [reflexivity|].
  apply (@logged_project_is_empty rebinding_env _ _ _ _ _ _ _ _ _ _ _ _ _ H).
Defined.
