(* ===== verification/Concurrent.v ===== *)
(** * The process: many goroutines over one state

    The HTTP server runs a goroutine for each request; a tunnel copies bytes in
    goroutines of its own and closes its connection when it ends; at the end
    [runServer] closes what is still open.  All of them share the process
    state.  A step of the process is one action of one of them, in any order.

    A goroutine of a request is one of the computations of [Serve.v], with a
    record of the request it serves and of its own effects so far; the record
    does not influence what it does. *)

From S2P Require Import Prelude GoStrings GoNet Acl Http Config Classify Conntrack Proxy Serve Logic Effects Safety Handling.

Record Thread := mkThread {
  t_req : Request;
  t_prog : M Reply;
  t_effects : list Eff
}.

(** [p_crashed]: a goroutine that does not recover panicked. *)
Record Process := mkProcess {
  p_world : World;
  p_threads : list Thread;
  p_crashed : bool
}.

Definition start (w : World) : Process := mkProcess w [] false.

(** One action of a goroutine. *)
Definition advance (t : Thread) (w : World) : Thread * World :=
  let '(m, w') := next (t_prog t) w in
  (mkThread (t_req t) m (t_effects t ++ next_effects (t_prog t) w), w').

(** ** Between storing a connection and counting it *)

(** A computation owes the wait group a unit when counting is what it does
    next. *)
Definition counts {X} (a : Act X) : Z := match a with AWgAdd => 1 | _ => 0 end.
Definition stores {X} (a : Act X) : Z := match a with AStore _ _ _ _ _ => 1 | _ => 0 end.
Definition owes {A} (m : M A) : Z := match m with Done _ => 0 | Step a _ => counts a end.

(** Counting follows storing, and only storing. *)
Fixpoint balanced_from {A} (m : M A) (Q : A → Prop) : Prop :=
  match m with
  | Done (Ret a) => Q a
  | Done (Panic _) => True
  | Step a k => ∀ w, owes (k (perform a w).1) = stores a ∧ balanced_from (k (perform a w).1) Q
  end.
Definition balanced (A : Type) (m : M A) (Q : A → Prop) : Prop := owes m = 0 ∧ balanced_from m Q.

Lemma balanced_from_bind {A B} (m : M A) (k : A → M B) Q Q' :
  balanced_from m Q → (∀ a, Q a → balanced B (k a) Q') →
  owes (bind m k) = owes m ∧ balanced_from (bind m k) Q'.
Proof.
  intros Hm Hk. induction m as [[a|s]|X a f IH]; [by apply Hk|done|].
  split; [done|]. intros w. simpl. destruct (Hm w) as [Ho Hf].
  destruct (IH _ Hf) as [Ho' Hb]. split; [|exact Hb]. by rewrite <-Ho.
Qed.

#[global] Instance balanced_logic : Logic balanced.
Proof.
  split.
  - by intros.
  - by intros.
  - intros A B m k Q Q' [Ho Hm] Hk. destruct (balanced_from_bind m k Q Q' Hm Hk) as [Ho' Hb].
    split; [by rewrite Ho'|done].
  - intros A m Q Q' [Ho Hm] HQ. split; [done|]. clear Ho.
    induction m as [[a|s]|X a f IH]; simpl in *; auto.
    intros w. destruct (Hm w). auto.
Qed.

Lemma balanced_act {X} (a : Act X) :
  counts a = 0 → stores a = 0 → holds balanced (act a) (λ _, True).
Proof. intros Hc Hs. split; [done|]. intros w. by rewrite Hs. Qed.

#[global] Instance balanced_actions `{E : Env} : Actions balanced.
Proof.
  split; [split|..]; intros; try by apply balanced_act.
  unfold track_conn, Now. do 2 (eapply spec_bind; [by apply balanced_act|intros ? _]).
  split; [done|]. repeat (intros ?; split; [done|]). done.
Qed.

#[global] Instance balanced_closes `{E : Env} : Closes balanced.
Proof.
  intros id. unfold close_conn. eapply spec_bind; [by apply balanced_act|].
  intros [r|s] _; [by apply spec_ret|apply spec_panic].
Qed.

#[global] Instance balanced_decision : LogsDecision balanced.
Proof. intros ctx ty a d t s e. by apply balanced_act. Qed.

Lemma balanced_dial config : dial_ok balanced config.
Proof. intros A f a t _. by apply balanced_act. Qed.

Lemma handler_balanced `{E : Env} `{T : Transport} config hc req :
  holds balanced (handler config hc req) (λ _, True).
Proof. apply spec_handler; try apply _. intros _. apply balanced_dial. Qed.

(** What an action does to the invariant of the tracker. *)
Lemma close_step_owed n id now close w :
  ct_owed n (w_track w) → ct_owed n (w_track (close_step id now close w).2).
Proof.
  intros H. unfold close_step. destruct (ts_heap (w_track w) !! id) as [ic|]; [|done].
  destruct (ic_closed ic); [done|].
  destruct (tr_ShuttingDown _) as [[]|]; destruct (_ <? 0); simpl; auto with conntrack.
Qed.

Lemma perform_owed n {X} (a : Act X) w :
  ct_owed n (w_track w) → ct_owed (n - counts a + stores a) (w_track (perform a w).2).
Proof.
  intros H. destruct a; simpl; rewrite ?Z.add_0_r, ?Z.sub_0_r; auto with conntrack.
  - apply ct_owed_store; [|done]. apply not_elem_of_dom, is_fresh.
  - by apply ct_owed_add.
  - by apply close_step_owed.
Qed.

Lemma next_owed n {A} (m : M A) Q w :
  balanced_from m Q → ct_owed (n + owes m) (w_track w) →
  balanced_from (next m w).1 Q ∧ ct_owed (n + owes (next m w).1) (w_track (next m w).2).
Proof.
  destruct m as [o|X a k]; [done|]. simpl. intros Hm H. destruct (Hm w) as [Ho Hk].
  apply (perform_owed _ a) in H. destruct (perform a w) as [x w']. simpl in *. split; [done|].
  rewrite Ho. by replace (n + stores a) with (n + counts a - counts a + stores a) by lia.
Qed.

Lemma run_owed {A} (m : M A) Q w :
  balanced_from m Q → ct_owed (owes m) (w_track w) → ct_inv (w_track (m w).2).
Proof.
  revert w. induction m as [o|X a k IH]; intros w Hm H; [done|].
  destruct (next_owed 0 (Step a k) Q w Hm H) as [Hk H']. rewrite run_step.
  simpl in *. destruct (perform a w) as [x w']. simpl in *. by apply IH.
Qed.

Section process.
Context `{E : Env} `{T : Transport} (config : Config) (hc : bool).

Definition accept (req : Request) : Thread := mkThread req (handler config hc req) [].

Inductive p_step (s : Process) : Process → Prop :=
| p_accept req :
    p_crashed s = false →
    p_step s (mkProcess (p_world s) (p_threads s ++ [accept req]) false)
| p_thread i t :
    p_crashed s = false → p_threads s !! i = Some t →
    p_step s (let '(t', w') := advance t (p_world s) in
              mkProcess w' (<[i := t']> (p_threads s)) false)
| p_io op :   (* a read or a write of a connection *)
    p_crashed s = false →
    p_step s (mkProcess (mkWorld (w_trace (p_world s)) (w_logs (p_world s))
                           (io_step (w_track (p_world s)) op)) (p_threads s) false)
| p_close id :   (* the end of a tunnel or an exchange, or the final visit of the tracker *)
    p_crashed s = false →
    p_step s (let '(r, w') := close_step id env_Now env_Close (p_world s) in
              mkProcess w' (p_threads s) (match r with Ret _ => false | Panic _ => true end))
| p_clock :   (* a goroutine that is not of a request reads the clock *)
    p_crashed s = false →
    p_step s (mkProcess (perform (ACall EvNow env_Now) (p_world s)).2 (p_threads s) false).

(** ** What every run keeps *)

(** The effects of a thread are those of its request's handler. *)
Definition thread_ok (w : World) (t : Thread) : Prop :=
  texec (handler config hc (t_req t)) (t_effects t) (t_prog t) ∧
  ∀ h ev, (h, ev) ∈ asks (t_effects t) → (h ++ [ev]) `prefix_of` w_trace w.

(** Threads are never dropped and keep their request; their effects grow. *)
Definition threads_grow (ts ts' : list Thread) : Prop :=
  ∀ i t, ts !! i = Some t → ∃ t' l, ts' !! i = Some t' ∧ t_req t' = t_req t ∧
    t_effects t' = t_effects t ++ l.

(** The calls since [w0], of which every dial was made by a thread, and the
    threads. *)
Record p_inv (w0 : World) (s : Process) : Prop := mkPInv {
  pi_trace : ∃ l, w_trace (p_world s) = w_trace w0 ++ l ∧
    ∀ ev, ev ∈ l → ¬ not_dial ev →
      ∃ i t, p_threads s !! i = Some t ∧ ev ∈ calls (t_effects t);
  pi_threads i t : p_threads s !! i = Some t → thread_ok (p_world s) t
}.

Lemma asks_trace {X} (a : Act X) w h ev :
  (h, ev) ∈ asks (effects a w) → (h ++ [ev]) `prefix_of` w_trace (perform a w).2.
Proof.
  destruct (perform_effects a w) as (Ht & _ & Hc). intros Hin. rewrite Ht.
  apply list_elem_of_lookup in Hin as [i Hi].
  rewrite (chained_asks _ _ _ _ _ Hc Hi), <-app_assoc. apply prefix_app.
  exists (drop (S i) (calls (effects a w))).
  rewrite calls_asks, <-app_assoc. simpl.
  rewrite <-(take_drop_middle (asks (effects a w)).*2 i ev) at 1; [done|].
  by rewrite list_lookup_fmap, Hi.
Qed.

Lemma next_trace {A} (m : M A) w :
  w_trace (next m w).2 = w_trace w ++ calls (next_effects m w) ∧
  ∀ h ev, (h, ev) ∈ asks (next_effects m w) → (h ++ [ev]) `prefix_of` w_trace (next m w).2.
Proof.
  destruct m as [o|X a k]; simpl.
  - rewrite app_nil_r. split; [done|]. intros h ev H. by apply elem_of_nil in H.
  - pose proof (asks_trace a w) as Ha. destruct (perform_effects a w) as (Ht & _).
    by destruct (perform a w).
Qed.

Lemma thread_ok_mono w w' l t :
  w_trace w' = w_trace w ++ l → thread_ok w t → thread_ok w' t.
Proof.
  intros Hw [Ht Hp]. split; [done|]. intros h ev Hin. rewrite Hw.
  etrans; [by apply Hp|]. by eexists.
Qed.

Lemma thread_ok_advance w t :
  thread_ok w t → thread_ok (advance t w).2 (advance t w).1.
Proof.
  intros [Ht Hp]. pose proof (texec_next _ _ _ w Ht) as Hn.
  destruct (next_trace (t_prog t) w) as [Htr Ha].
  unfold advance. destruct (next (t_prog t) w) as [m w'] eqn:Hm. simpl in *. split; [done|].
  simpl. intros h ev. rewrite asks_app. intros [Hin|Hin]%elem_of_app; [|by apply Ha].
  rewrite Htr. etrans; [by apply Hp|]. by eexists.
Qed.

(** A step that adds the calls [l] to the trace keeps the invariant when the
    dials among them are owned and the threads stay in order. *)
Lemma p_inv_grow w0 s s' l :
  p_inv w0 s → w_trace (p_world s') = w_trace (p_world s) ++ l →
  threads_grow (p_threads s) (p_threads s') →
  (∀ ev, ev ∈ l → ¬ not_dial ev →
     ∃ i t, p_threads s' !! i = Some t ∧ ev ∈ calls (t_effects t)) →
  (∀ i t, p_threads s' !! i = Some t → p_threads s !! i = Some t ∨ thread_ok (p_world s') t) →
  p_inv w0 s'.
Proof.
  intros [(l0 & Ht & Hd) Hth] Hw Hg Hl Hts. split.
  - exists (l0 ++ l). rewrite Hw, Ht, app_assoc. split; [done|].
    intros ev [Hin|Hin]%elem_of_app Hdial; [|by apply Hl].
    destruct (Hd ev Hin Hdial) as (i & t & Hi & He).
    destruct (Hg i t Hi) as (t' & l' & Hi' & _ & Heff). exists i, t'. split; [done|].
    rewrite Heff, calls_app. apply elem_of_app. by left.
  - intros i t Hi. destruct (Hts i t Hi) as [Ho|]; [|done].
    eapply thread_ok_mono; [done|by eapply Hth].
Qed.

Lemma threads_grow_refl ts : threads_grow ts ts.
Proof. intros i t Hi. exists t, []. by rewrite app_nil_r. Qed.

Lemma threads_grow_app ts t : threads_grow ts (ts ++ [t]).
Proof.
  intros i t' Hi. exists t', []. rewrite app_nil_r. split; [|done].
  by apply lookup_app_l_Some.
Qed.

Lemma threads_grow_advance ts i t w :
  ts !! i = Some t → threads_grow ts (<[i := (advance t w).1]> ts).
Proof.
  intros Hi j u Hj. destruct (decide (i = j)) as [->|Hne].
  - simplify_eq. eexists _, _. split; [apply list_lookup_insert_eq; by eapply lookup_lt_Some|].
    unfold advance. by destruct (next (t_prog t) w).
  - exists u, []. rewrite list_lookup_insert_ne by done. by rewrite app_nil_r.
Qed.

Lemma p_inv_step w0 s s' : p_step s s' → p_inv w0 s → p_inv w0 s'.
Proof.
  intros Hs Hi. destruct Hs as [req _|i t _ Ht|op _|id _|_].
  - apply (p_inv_grow w0 s _ []); simpl; rewrite ?app_nil_r; try done.
    + apply threads_grow_app.
    + intros ev H. by apply elem_of_nil in H.
    + intros i t [?|[_ Hl]]%lookup_app_Some; [by left|right].
      apply list_lookup_singleton_Some in Hl as [_ <-].
      split; [apply texec_refl|]. intros h ev H. by apply elem_of_nil in H.
  - pose proof (threads_grow_advance _ i t (p_world s) Ht) as Hg.
    pose proof (thread_ok_advance _ _ (pi_threads _ _ Hi i t Ht)) as Hok.
    destruct (next_trace (t_prog t) (p_world s)) as [Htr _].
    assert ((advance t (p_world s)).2 = (next (t_prog t) (p_world s)).2 ∧
            t_effects (advance t (p_world s)).1 = t_effects t ++ next_effects (t_prog t) (p_world s))
      as [Hw He] by (unfold advance; by destruct (next (t_prog t) (p_world s))).
    destruct (advance t (p_world s)) as [t' w']. simpl in *. subst w'.
    assert (<[i:=t']> (p_threads s) !! i = Some t') as Hi'
      by (apply list_lookup_insert_eq; by eapply lookup_lt_Some).
    apply (p_inv_grow w0 s _ (calls (next_effects (t_prog t) (p_world s)))); simpl; try done.
    + intros ev Hin _. exists i, t'. split; [done|]. rewrite He, calls_app.
      apply elem_of_app. by right.
    + intros j u Hj. destruct (decide (i = j)) as [<-|Hne].
      * right. rewrite Hi' in Hj. by simplify_eq.
      * left. by rewrite list_lookup_insert_ne in Hj.
  - apply (p_inv_grow w0 s _ []); simpl; rewrite ?app_nil_r; try done.
    + apply threads_grow_refl.
    + intros ev H. by apply elem_of_nil in H.
    + by left.
  - destruct (close_step_trace id env_Now env_Close (p_world s)) as [(evs & Htr & Hn) _].
    destruct (close_step id env_Now env_Close (p_world s)) as [r w']. simpl in *.
    apply (p_inv_grow w0 s _ evs); simpl; try done.
    + apply threads_grow_refl.
    + intros ev Hin Hd. rewrite Forall_forall in Hn. by destruct (Hd (Hn ev Hin)).
    + by left.
  - apply (p_inv_grow w0 s _ [EvNow]); simpl; try done.
    + apply threads_grow_refl.
    + intros ev ->%list_elem_of_singleton Hd. by destruct Hd.
    + by left.
Qed.

Lemma p_inv_reachable w s : rtc p_step (start w) s → p_inv w s.
Proof.
  assert (∀ s1 s2, rtc p_step s1 s2 → p_inv w s1 → p_inv w s2) as H.
  { induction 1; eauto using p_inv_step. }
  intros Hr. apply (H _ _ Hr). split; simpl.
  - exists []. rewrite app_nil_r. split; [done|]. intros ev Hin. by apply elem_of_nil in Hin.
  - intros i t Hi. by rewrite lookup_nil in Hi.
Qed.

(** ** Sums over the threads *)
Definition sum_threads (f : Thread → Z) (ts : list Thread) : Z := foldr (λ t acc, f t + acc) 0 ts.

Lemma sum_threads_app f ts ts' : sum_threads f (ts ++ ts') = sum_threads f ts + sum_threads f ts'.
Proof. induction ts as [|t ts IH]; simpl; [done|]. rewrite IH. lia. Qed.

Lemma sum_threads_insert f ts i t t' :
  ts !! i = Some t → sum_threads f (<[i := t']> ts) = sum_threads f ts - f t + f t'.
Proof.
  revert i. induction ts as [|u ts IH]; intros [|i] Hi; simplify_eq/=; [lia|].
  rewrite (IH i Hi). lia.
Qed.

Lemma sum_threads_const f ts n : (∀ t, t ∈ ts → f t = n) → sum_threads f ts = n * Z.of_nat (length ts).
Proof.
  induction ts as [|t ts IH]; intros H; simpl; [lia|].
  rewrite (H t) by by left. rewrite IH; [lia|]. intros u Hu. apply H. by right.
Qed.

(** ** Decision lines *)
Definition thread_lines (t : Thread) : Z := Z.of_nat (nlines (t_effects t)).

Lemma step_lines s s' :
  p_step s s' →
  Z.of_nat (lines (p_world s')) - sum_threads thread_lines (p_threads s') =
  Z.of_nat (lines (p_world s)) - sum_threads thread_lines (p_threads s).
Proof.
  destruct 1 as [req _|i t _ Ht|op _|id _|_]; simpl.
  - rewrite sum_threads_app. simpl. change (thread_lines (accept req)) with 0. lia.
  - unfold advance. destruct (next (t_prog t) (p_world s)) as [m w'] eqn:Hn. simpl.
    rewrite (sum_threads_insert _ _ _ t) by done. unfold thread_lines. simpl. rewrite nlines_app.
    assert (lines w' = (lines (p_world s) + nlines (next_effects (t_prog t) (p_world s)))%nat) as ->;
      [|lia].
    destruct (t_prog t) as [o|X a k]; simpl in *.
    + injection Hn as _ <-. unfold nlines. simpl. lia.
    + destruct (perform_effects a (p_world s)) as (_ & Hl & _).
      destruct (perform a (p_world s)) as [x w1]. injection Hn as _ <-. simpl in *.
      unfold lines, nlines. by rewrite Hl, List.filter_app, length_app.
  - done.
  - destruct (close_step_trace id env_Now env_Close (p_world s)) as [_ Hl].
    destruct (close_step id env_Now env_Close (p_world s)) as [r w']. simpl in *.
    unfold lines. by rewrite Hl.
  - done.
Qed.

Lemma reachable_lines w s :
  rtc p_step (start w) s →
  Z.of_nat (lines (p_world s)) = Z.of_nat (lines w) + sum_threads thread_lines (p_threads s).
Proof.
  assert (∀ s1 s2, rtc p_step s1 s2 →
    Z.of_nat (lines (p_world s2)) - sum_threads thread_lines (p_threads s2) =
    Z.of_nat (lines (p_world s1)) - sum_threads thread_lines (p_threads s1)) as H.
  { induction 1 as [|s1 s2 s3 Hs _ IH]; [done|]. rewrite IH. by apply step_lines. }
  intros Hr. specialize (H _ _ Hr). simpl in H. lia.
Qed.

(** ** The tracker *)
Definition thread_owes (t : Thread) : Z := owes (t_prog t).
Definition pending (s : Process) : Z := sum_threads thread_owes (p_threads s).

Record tracker_inv (s : Process) : Prop := mkTrackerInv {
  ti_owed : ct_owed (pending s) (w_track (p_world s));
  ti_balanced i t : p_threads s !! i = Some t → balanced_from (t_prog t) (λ _, True)
}.

Lemma tracker_inv_step s s' : p_step s s' → tracker_inv s → tracker_inv s'.
Proof.
  unfold pending. intros Hs [H Hb].
  destruct Hs as [req _|i t _ Ht|op _|id _|_]; simpl.
  - destruct (handler_balanced config hc req) as [Ho Hr]. split; simpl.
    + unfold pending. simpl. rewrite sum_threads_app. simpl.
      change (thread_owes (accept req)) with (owes (handler config hc req)). rewrite Ho.
      by rewrite !Z.add_0_r.
    + intros i t [?|[_ Hl]]%lookup_app_Some; [by eapply Hb|].
      by apply list_lookup_singleton_Some in Hl as [_ <-].
  - destruct (next_owed (sum_threads thread_owes (p_threads s) - thread_owes t) (t_prog t) (λ _, True)
      (p_world s)) as [Hb' H']; [by eapply Hb| |].
    { unfold thread_owes at 2. by rewrite Z.sub_add. }
    unfold advance. destruct (next (t_prog t) (p_world s)) as [m w']. simpl in *. split; simpl.
    + unfold pending. simpl. by rewrite (sum_threads_insert _ _ _ t).
    + intros j u Hj. destruct (decide (i = j)) as [<-|Hne].
      * rewrite list_lookup_insert_eq in Hj by by eapply lookup_lt_Some. by simplify_eq.
      * rewrite list_lookup_insert_ne in Hj by done. by eapply Hb.
  - split; [|exact Hb]. simpl. destruct op; simpl; auto with conntrack.
  - pose proof (close_step_owed _ id env_Now env_Close _ H) as H'.
    destruct (close_step id env_Now env_Close (p_world s)) as [r w']. by split.
  - by split.
Qed.

Lemma tracker_inv_reachable w s :
  ct_inv (w_track w) → rtc p_step (start w) s → tracker_inv s.
Proof.
  intros Hw Hr.
  assert (tracker_inv (start w)) as H0
    by (split; [done|]; intros i t Hi; done).
  revert H0. induction Hr; eauto using tracker_inv_step.
Qed.

(** A close panics only when the wait group is below the number of open
    connections, that is while a goroutine owes it a unit. *)
Lemma close_step_panic n id now close w what :
  ct_owed n (w_track w) → (close_step id now close w).1 = Panic what → 0 < n.
Proof.
  intros H. unfold close_step. destruct (ts_heap (w_track w) !! id) as [ic|] eqn:Hid; [|done].
  destruct (ic_closed ic) eqn:Hcl; [done|].
  assert (id ∈ tr_Map (ts_tracker (w_track w))) as Hin by (apply (inv_map _ H); by exists ic).
  assert (size (tr_Map (ts_tracker (w_track w))) ≠ 0%nat) as Hs
    by (rewrite size_non_empty_iff; set_solver).
  pose proof (inv_wg _ H) as Hwg.
  destruct (tr_ShuttingDown _) as [[]|];
    (destruct (Z.ltb_spec (tr_Wg (ts_tracker (w_track w)) - 1) 0); [intros _; lia|done]).
Qed.

Lemma crashed_step s s' :
  p_step s s' → tracker_inv s → p_crashed s' = true → 0 < pending s'.
Proof.
  intros Hs [H _]. destruct Hs as [req _|i t _ Ht|op _|id _|_]; simpl; try done.
  - by destruct (advance t (p_world s)).
  - pose proof (λ what, close_step_panic _ id env_Now env_Close (p_world s) what H) as Hp.
    destruct (close_step id env_Now env_Close (p_world s)) as [[r|what] w']; [done|].
    intros _. by apply (Hp what).
Qed.

Lemma crashed_reachable w s :
  ct_inv (w_track w) → rtc p_step (start w) s → p_crashed s = true → 0 < pending s.
Proof.
  intros Hw Hr Hc. apply rtc_inv_r in Hr as [<-|(s' & Hr & Hs)]; [done|].
  eapply crashed_step; [exact Hs|by eapply tracker_inv_reachable|done].
Qed.

(** ** Executing a schedule *)
Inductive Choice :=
| Arrive (req : Request)
| Go (i : nat)
| Io (op : io_op)
| CloseConn (id : nat).

Definition choose (c : Choice) (s : Process) : Process :=
  if p_crashed s then s
  else
    match c with
    | Arrive req => mkProcess (p_world s) (p_threads s ++ [accept req]) false
    | Go i =>
        match p_threads s !! i with
        | None => s
        | Some t => let '(t', w') := advance t (p_world s) in
                    mkProcess w' (<[i := t']> (p_threads s)) false
        end
    | Io op =>
        mkProcess (mkWorld (w_trace (p_world s)) (w_logs (p_world s))
                     (io_step (w_track (p_world s)) op)) (p_threads s) false
    | CloseConn id =>
        let '(r, w') := close_step id env_Now env_Close (p_world s) in
        mkProcess w' (p_threads s) (match r with Ret _ => false | Panic _ => true end)
    end.

Definition execute (cs : list Choice) (s : Process) : Process := foldl (λ s c, choose c s) s cs.

Lemma choose_step c s : choose c s = s ∨ p_step s (choose c s).
Proof.
  unfold choose. destruct (p_crashed s) eqn:Hc; [by left|].
  destruct c as [req|i|op|id]; [right; by apply p_accept| |right; by apply p_io|right; by apply p_close].
  destruct (p_threads s !! i) as [t|] eqn:Ht; [right; by apply p_thread|by left].
Qed.

Lemma choose_steps c s : rtc p_step s (choose c s).
Proof. destruct (choose_step c s) as [->|H]; [apply rtc_refl|by apply rtc_once]. Qed.

Lemma execute_steps cs s : rtc p_step s (execute cs s).
Proof.
  revert s. induction cs as [|c cs IH]; intros s; [apply rtc_refl|].
  etrans; [apply choose_steps|apply IH].
Qed.

(** What every run says about its dials. *)
Lemma process_dials w s :
  rtc p_step (start w) s →
  ∃ l, w_trace (p_world s) = w_trace w ++ l ∧
  ∀ network addr timeout, EvDial network addr timeout ∈ l →
    network = "tcp" ∧ (∃ a, addr = TCPAddr_String a ∧ allowed config a) ∧
    ∃ i t, p_threads s !! i = Some t ∧ EvDial network addr timeout ∈ calls (t_effects t) ∧
      acl_permits config (effective (t_req t)) (checked_host (t_req t)).
Proof.
  intros Hr%p_inv_reachable. destruct Hr as [(l & Hl & Hd) Hth].
  exists l. split; [done|]. intros network addr timeout Hin.
  destruct (Hd _ Hin) as (i & t & Hi & He); [by intros []|].
  destruct (Hth i t Hi) as [Ht _].
  destruct (texec_adds _ _ _ _ _ (handler_safe config hc (t_req t)) Ht) as [Hs _].
  rewrite Forall_forall in Hs. destruct (Hs _ He) as [-> Ha].
  split_and!; [done|done|]. exists i, t. split_and!; [done|done|].
  destruct (decide (acl_permits config (effective (t_req t)) (checked_host (t_req t)))) as [|Hn];
    [done|exfalso].
  destruct (texec_adds _ _ _ _ _ (handler_no_dial config hc (t_req t) Hn) Ht) as [Hs' _].
  rewrite Forall_forall in Hs'. by apply (Hs' _ He).
Qed.

(** ** Theorems *)

(** C1: in any interleaving of any requests, with tunnels that come and go and
    a shutdown at any time, and whatever DNS, the transport and the environment
    answer (also a different answer each time they are asked), every connection
    that the process tries to open is over TCP to an address that the
    classifier allows, and is made by the handler of a request that the ACL
    permits. *)
Theorem dials_authorised w s :
  rtc p_step (start w) s →
  ∃ l, w_trace (p_world s) = w_trace w ++ l ∧
  ∀ network addr timeout, EvDial network addr timeout ∈ l →
    network = "tcp" ∧ (∃ a, addr = TCPAddr_String a ∧ allowed config a) ∧
    ∃ i t, p_threads s !! i = Some t ∧ EvDial network addr timeout ∈ calls (t_effects t) ∧
      acl_permits config (effective (t_req t)) (checked_host (t_req t)).
Proof. apply process_dials. Qed.

(** C2: no second resolution, in any interleaving, without an upstream proxy in
    the environment (with one, that proxy is dialled). When a goroutine of the
    process has answered a CONNECT request with a tunnel, and the host of the
    URL is the host of the request, with a port, its calls were: the clock, one question for the
    port, one for the host, one dial, the clock; each was answered from the
    history of the whole process at that point, the first address of the one
    answer is allowed by the classifier, and that address is what was dialled.
    A resolver that changes its answer between check and use has no second
    chance, whatever other requests ask it in between. *)
Theorem tunnel_pins_address w s i t c :
  (∀ r, tr_https_proxy r = "") → rtc p_step (start w) s →
  p_threads s !! i = Some t → t_prog t = Done (Ret (Tunnel c)) →
  Method (t_req t) = "CONNECT" → URL_Host (t_req t) = Host (t_req t) →
  hasPort (Host (t_req t)) = true →
  (∀ h ev, (h, ev) ∈ asks (t_effects t) → (h ++ [ev]) `prefix_of` w_trace (p_world s)) ∧
  ∃ a h1 h2 lookups dialled, allowed config a ∧ resolves config (Host (t_req t)) lookups a ∧
    asks (t_effects t) = [(h1, EvNow); (h2, EvNow)] ++ lookups ++ dialled ∧
    dialled.*2 = [EvDial "tcp" (TCPAddr_String a) (ConnectTimeout config); EvNow; EvNow].
Proof.
  intros Hproxy Hr%p_inv_reachable Hi Ht Hm Hh Hp. destruct Hr as [_ Hth].
  destruct (Hth i t Hi) as [Hex Hpre]. split; [exact Hpre|].
  rewrite Ht, texec_done in Hex. apply (fin_serve_connect config _ c); [done..|].
  unfold handler, HealthcheckMiddleware_ServeHTTP, proxy_ServeHTTP in Hex. rewrite Hm in Hex.
  simpl in Hex. destruct hc; [|done]. destruct (String.eqb (Path (t_req t)) "/healthcheck"); [|done].
  by apply finishes_ret in Hex as [? _].
Qed.

(** C31: the decision log of the process. In any interleaving, a goroutine that
    has replied wrote exactly one "CANONICAL-PROXY-DECISION" line, whether the
    reply is an answer, a refusal, a tunnel or a failed connection, and none in
    two cases alone: the reply is that of the health check, or the request was
    refused because it has no scheme and its host and path make no URL.  The
    lines of the log are those of the goroutines and no others: connections that
    close and tunnels write none. *)
Theorem decision_lines w s :
  rtc p_step (start w) s →
  (∀ i t r, p_threads s !! i = Some t → t_prog t = Done (Ret r) →
     nlines (t_effects t) = reply_lines r ∧
     (reply_lines r = 1%nat ∨ unlogged_reply hc (t_req t) r)) ∧
  Z.of_nat (lines (p_world s)) = Z.of_nat (lines w) + sum_threads thread_lines (p_threads s).
Proof.
  intros Hr. split; [|by apply reachable_lines]. intros i t r Hi Ht.
  destruct (pi_threads _ _ (p_inv_reachable _ _ Hr) i t Hi) as [Hex _].
  rewrite Ht, texec_done in Hex. split; [by apply (logs_handler config hc (t_req t))|].
  assert (reply_lines r = 1%nat ∨ reply_lines r = 0%nat) as [Hl|Hl] by (destruct r; auto); [by left|].
  right. by eapply handler_reply.
Qed.
End process.

(** Serving requests one after another keeps the connection tracker
    consistent: from a consistent state, after any requests, answered, refused
    or aborted by a panic, the map of the tracker still holds exactly the open
    connections and its wait group still counts them. *)
Theorem serve_keeps_tracker `{E : Env} `{T : Transport} config hc reqs w :
  ct_inv (w_track w) → ct_inv (w_track (serve_all config hc reqs w).2).
Proof.
  revert w. induction reqs as [|req reqs IH]; intros w Hw; [done|]. simpl.
  destruct (handler_balanced config hc req) as [Ho Hb].
  assert (ct_inv (w_track (handler config hc req w).2)) as Hk
    by (apply (run_owed _ (λ _, True)); [done|by rewrite Ho]).
  destruct (handler config hc req w) as [r w1]. simpl in Hk.
  specialize (IH w1 Hk). by destruct (serve_all config hc reqs w1).
Qed.

Lemma serve_keeps_tracker_witness :
  let w := (@serve_all rebinding_env (acl_config sample_acl) direct_transport false
    [client_request "CONNECT" "" "api.example.com:443" "dummy-glob"] init_world).2 in
  ct_inv (w_track w) ∧ tr_Wg (ts_tracker (w_track w)) = 1.
Proof.
  split; [|by vm_compute].
  apply (@serve_keeps_tracker rebinding_env direct_transport (acl_config sample_acl) false
    [client_request "CONNECT" "" "api.example.com:443" "dummy-glob"] init_world), ct_inv_init.
Defined.

(** ** Sample runs *)
Definition sample_process (cs : list Choice) : Process :=
  @execute rebinding_env direct_transport (acl_config sample_acl) false cs (start init_world).

Definition connect_request : Request :=
  client_request "CONNECT" "" "api.example.com:443" "dummy-glob".

(** Two requests to the same host, interleaved action by action. *)
Definition two_requests : list Choice :=
  [Arrive connect_request; Arrive (client_request "CONNECT" "" "denied.test:443" "dummy-glob")] ++
  concat (replicate 30 [Go 0; Go 1]).

Lemma dials_authorised_witness :
  ∃ l, w_trace (p_world (sample_process two_requests)) = [] ++ l ∧
  ∀ network addr timeout, EvDial network addr timeout ∈ l →
    network = "tcp" ∧ (∃ a, addr = TCPAddr_String a ∧ allowed (acl_config sample_acl) a) ∧
    ∃ i t, p_threads (sample_process two_requests) !! i = Some t ∧
      EvDial network addr timeout ∈ calls (t_effects t) ∧
      acl_permits (acl_config sample_acl) (@effective direct_transport (t_req t))
        (@checked_host direct_transport (t_req t)).
Proof.
  apply (@dials_authorised rebinding_env direct_transport (acl_config sample_acl) false init_world
    (sample_process two_requests)), execute_steps.
Defined.

Lemma tunnel_pins_address_witness :
  ∃ t, p_threads (sample_process two_requests) !! 0%nat = Some t ∧
  ∃ a h1 h2 lookups dialled, allowed (acl_config sample_acl) a ∧
    @resolves rebinding_env (acl_config sample_acl) (Host (t_req t)) lookups a ∧
    asks (t_effects t) = [(h1, EvNow); (h2, EvNow)] ++ lookups ++ dialled ∧
    dialled.*2 = [EvDial "tcp" (TCPAddr_String a) 10; EvNow; EvNow].
Proof.
  destruct (p_threads (sample_process two_requests) !! 0%nat) as [t|] eqn:Ht; [|by vm_compute in Ht].
  exists t. split; [reflexivity|].
  assert (t_req t = connect_request ∧ t_prog t = Done (Ret (Tunnel 0))) as [Hreq Hprog].
  { assert (t_req <$> p_threads (sample_process two_requests) !! 0%nat = Some connect_request)
      as H1 by (vm_compute; reflexivity).
    assert (t_prog <$> p_threads (sample_process two_requests) !! 0%nat
            = Some (Done (Ret (Tunnel 0)))) as H2 by (vm_compute; reflexivity).
    rewrite Ht in H1, H2. split; [by injection H1|by injection H2]. }
  apply (@tunnel_pins_address rebinding_env direct_transport (acl_config sample_acl) false init_world
    (sample_process two_requests) 0 t 0); [done|apply execute_steps|done|done|..];
    rewrite Hreq; vm_compute; reflexivity.
Defined.

Lemma decision_lines_witness :
  Z.of_nat (lines (p_world (sample_process two_requests))) =
  Z.of_nat (lines init_world) + sum_threads thread_lines (p_threads (sample_process two_requests)) ∧
  lines (p_world (sample_process two_requests)) = 2%nat.
Proof.
  split; [|by vm_compute].
  apply (@decision_lines rebinding_env direct_transport (acl_config sample_acl) false init_world
    (sample_process two_requests)), execute_steps.
Defined.

(** A connection that is closed right after it was stored. *)
Definition early_close : list Choice :=
  [Arrive connect_request] ++ replicate 15 (Go 0) ++ [CloseConn 0].

(** C24: the wait group under interleaving. In every run of the process the
    tracker's map holds exactly the open connections, and the wait group counts
    them except those of goroutines that have stored their connection and not
    yet called [Add].  So it is right whenever no goroutine stands there, and
    closing a connection can only panic while one does; but it can: a tunnel's
    connection that is closed between the two calls (the final visit of
    [runServer] finds it in the map) takes the counter below zero and the
    process dies. *)
Theorem waitgroup_balance :
  (∀ E T config hc w s, ct_inv (w_track w) → rtc (@p_step E T config hc) (start w) s →
     let k := w_track (p_world s) in
     (∀ id, id ∈ tr_Map (ts_tracker k) ↔ open_conn k id) ∧
     tr_Wg (ts_tracker k) = Z.of_nat (size (tr_Map (ts_tracker k))) - pending s ∧
     (p_crashed s = true → 0 < pending s)) ∧
  ∃ s, rtc (@p_step rebinding_env direct_transport (acl_config sample_acl) false)
         (start init_world) s ∧ p_crashed s = true.
Proof.
  split.
  - intros E T config hc w s Hw Hr k.
    destruct (tracker_inv_reachable config hc w s Hw Hr) as [H _].
    split_and!; [apply H|apply H|]. by apply (crashed_reachable config hc w).
  - exists (sample_process early_close). split; [apply execute_steps|by vm_compute].
Qed.

Lemma waitgroup_balance_witness :
  let k := w_track (p_world (sample_process two_requests)) in
  tr_Wg (ts_tracker k) = Z.of_nat (size (tr_Map (ts_tracker k))) - 0 ∧
  size (tr_Map (ts_tracker k)) = 1%nat.
Proof.
  split; [|by vm_compute].
  apply (proj1 waitgroup_balance rebinding_env direct_transport (acl_config sample_acl) false
    init_world (sample_process two_requests)); [apply ct_inv_init|apply execute_steps].
Defined.
