(* ===== verification/Upstream.v ===== *)
(** * The transport: which connection a request goes out on

    [src/vendor/github.com/elazarl/goproxy/transport/transport.go] up to the
    sending of a request: the first hop of a request, the pool of idle
    connections, the dial hook, the upstream proxy and TLS.  The environment's
    proxy setting, the answers on a connection and the transport's own
    resolution are parameters ([Outside]).

    With the hook and the settings of [BuildProxy] this is the transport that
    [Serve.v] assumes ([DetailedRoundTrip_refines]), and an HTTP request, like a
    CONNECT, goes to the address that was checked ([http_pins_address]). *)

From S2P Require Import Prelude GoStrings GoNet Acl Http Config Classify Conntrack Proxy Serve Logic Effects Trees Safety Handling Concurrent.

(** ** Addresses *)
Record URL := mkURL {
  u_Scheme : string;
  u_Host : string;
  u_User : option string;     (* nil or the user information *)
  u_String : string
}.

(** [hasPort] of [util.go]. *)
Definition util_hasPort (s : string) : bool := LastIndex s "]" <? LastIndex s ":".

Definition portMap (scheme : string) : string :=
  if String.eqb scheme "http" then "80" else if String.eqb scheme "https" then "443" else "".

Definition canonicalAddr (scheme host : string) : string :=
  if negb (util_hasPort host) then host +:+ ":" +:+ portMap scheme else host.

Record connectMethod := mkConnectMethod {
  proxyURL : option URL;
  targetScheme : string;
  targetAddr : string
}.

Definition connectMethod_String (ck : connectMethod) : string :=
  join "|" [match proxyURL ck with Some u => u_String u | None => "" end;
            targetScheme ck; targetAddr ck].

Definition connectMethod_addr (cm : connectMethod) : string :=
  match proxyURL cm with
  | Some u => canonicalAddr (u_Scheme u) (u_Host u)
  | None => targetAddr cm
  end.

(** Whether there is a value for the header Proxy-Authorization. *)
Definition has_proxyAuth (cm : connectMethod) : bool :=
  match proxyURL cm with Some u => bool_decide (is_Some (u_User u)) | None => false end.

(** ** The pool of idle connections

    The two settings of [Transport] that concern it, and the map from keys to
    connections. *)
Record Pool := mkPool {
  DisableKeepAlives : bool;
  MaxIdleConnsPerHost : Z;
  idleConn : gmap string (list nat)
}.

Definition DefaultMaxIdleConnsPerHost : Z := 2.

Definition set_idle (t : Pool) (m : gmap string (list nat)) : Pool :=
  mkPool (DisableKeepAlives t) (MaxIdleConnsPerHost t) m.

(** [putIdleConn]: the pool, the result, and whether it closes the
    connection. *)
Definition putIdleConn (t : Pool) (key : string) (pconn : nat) (broken : bool)
    : Pool * (bool * bool) :=
  if DisableKeepAlives t || (MaxIdleConnsPerHost t <? 0) then (t, (false, true))
  else if broken then (t, (false, false))
  else
    let max := if MaxIdleConnsPerHost t =? 0 then DefaultMaxIdleConnsPerHost
               else MaxIdleConnsPerHost t in
    let conns := default [] (idleConn t !! key) in
    if max <=? Z.of_nat (length conns) then (t, (false, true))
    else (set_idle t (<[key := conns ++ [pconn]]> (idleConn t)), (true, false)).

(** The loop of [getIdleConn]: the connections of a key, last first, until one
    is not broken, and what stays. *)
Fixpoint pop_idle (broken : nat → bool) (pconns : list nat) : option nat * list nat :=
  match pconns with
  | [] => (None, [])
  | pconn :: pconns => if broken pconn then pop_idle broken pconns else (Some pconn, pconns)
  end.

Definition getIdleConn (t : Pool) (key : string) (broken : nat → bool) : Pool * option nat :=
  match idleConn t !! key with
  | None => (t, None)
  | Some pconns =>
      let '(pconn, rest) := pop_idle broken (reverse pconns) in
      (set_idle t (match rest with
                   | [] => delete key (idleConn t)
                   | _ => <[key := reverse rest]> (idleConn t)
                   end), pconn)
  end.

Lemma putIdleConn_disabled t key pconn broken :
  DisableKeepAlives t = true → putIdleConn t key pconn broken = (t, (false, true)).
Proof. intros H. unfold putIdleConn. by rewrite H. Qed.

Lemma getIdleConn_empty t key broken :
  idleConn t = ∅ → getIdleConn t key broken = (t, None).
Proof. intros H. unfold getIdleConn. by rewrite H, lookup_empty. Qed.

(** ** A request on its way *)

(** What the transport asks of its surroundings: its [Proxy] function, its own
    resolution, the answer to a CONNECT sent to an upstream proxy (status code
    and status), the TLS handshake, and what a request that was sent gets; and
    the last three fields of [Serve.Transport], which are not the transport's
    but goproxy's own. *)
Class Outside := {
  out_Proxy : Request → result (option URL);
  out_ResolveTCPAddr : list Event → string → result TCPAddr;
  out_connect : list Event → string → nat → result (Z * string);
  out_Handshake : list Event → nat → option error;
  out_roundTrip : list Event → bool → Request → nat → result Response;
  out_https_proxy : Request → string;
  out_upstream : list Event → string → nat → bool;
  out_url_Parse : string → result (string * string * string)
}.

(** The dial hook, [Transport.Dial]. *)
Definition DialHook := string → string → option ctxUserData → M (result nat * option ctxUserData).

Record persistConn := mkPersistConn {
  pc_conn : nat;
  pc_ip : TCPAddr;
  pc_isProxy : bool;
  pc_mutateHeaderFunc : bool     (* not nil *)
}.

Section transport.
Context `{E : Env} `{O : Outside}.
Variable Dial : DialHook.

Definition connectMethodForRequest (req : Request) : result connectMethod :=
  match out_Proxy req with
  | Fail err => Fail err
  | Ok p => Ok (mkConnectMethod p (Scheme req) (canonicalAddr (Scheme req) (URL_Host req)))
  end.

(** [Transport.dial] with a hook. *)
Definition Transport_dial (network addr : string) (userdata : option ctxUserData)
    : M (result (nat * TCPAddr) * option ctxUserData) :=
  let! h := history in
  match out_ResolveTCPAddr h addr with
  | Fail err => ret (Fail err, userdata)
  | Ok ip =>
      let! (c, userdata) := Dial network addr userdata in
      ret (match c with Ok c => Ok (c, ip) | Fail err => Fail err end, userdata)
  end.

Definition connect_error (cm : connectMethod) (err : error) : error :=
  match proxyURL cm with
  | Some u => Err ("http: error connecting to proxy " +:+ u_String u +:+ ": " +:+ Error err)
  | None => err
  end.

(** The text after the first space, [strings.SplitN(s, " ", 2)[1]]. *)
Definition after_space (s : string) : outcome string :=
  match IndexByte s " " with
  | Some i => Ret (str_drop (S i) s)
  | None => Panic "index out of range"
  end.

Definition is_proxied (cm : connectMethod) (scheme : string) : bool :=
  match proxyURL cm with Some _ => String.eqb (targetScheme cm) scheme | None => false end.

Definition new_persistConn (cm : connectMethod) (conn : nat) (ip : TCPAddr) : persistConn :=
  mkPersistConn conn ip (is_proxied cm "http") (is_proxied cm "http" && has_proxyAuth cm).

(** The part of [getConn] on the new connection: whether it was closed, and
    the error or panic; [None] when all went well. *)
Definition set_up_conn (h : list Event) (cm : connectMethod) (conn : nat)
    : option (bool * outcome error) :=
  let failed :=
    if is_proxied cm "https" then
      match out_connect h (targetAddr cm) conn with
      | Fail err => Some (true, Ret err)
      | Ok (code, status) =>
          if negb (code =? 200)
          then Some (true, match after_space status with
                           | Ret f => Ret (Err f)
                           | Panic s => Panic s
                           end)
          else None
      end
    else None in
  match failed with
  | Some f => Some f
  | None =>
      if String.eqb (targetScheme cm) "https" then
        match out_Handshake h conn with Some err => Some (false, Ret err) | None => None end
      else None
  end.

(** [getConn] with no idle connection in the pool. *)
Definition getConn (cm : connectMethod) (userdata : option ctxUserData)
    : M (result persistConn * option ctxUserData) :=
  let! (r, userdata) := Transport_dial "tcp" (connectMethod_addr cm) userdata in
  match r with
  | Fail err => ret (Fail (connect_error cm err), userdata)
  | Ok (conn, ip) =>
      let! h := history in
      match set_up_conn h cm conn with
      | Some (closed, err) =>
          (if closed then close_conn conn else ret None) ;;;
          match err with
          | Ret err => ret (Fail err, userdata)
          | Panic what => panic what
          end
      | None => ret (Ok (new_persistConn cm conn ip), userdata)
      end
  end.

(** [roundTrip], as far as the caller sees. *)
Definition roundTrip (h : list Event) (pc : persistConn) (req : Request)
    : outcome (result Response) :=
  if pc_mutateHeaderFunc pc then Panic "mutateHeaderFunc not supported in modified Transport"
  else Ret (out_roundTrip h (pc_isProxy pc) req (pc_conn pc)).

Definition unsupported (req : Request) : error :=
  Err ("unsupported protocol scheme " +:+ env_quote (Scheme req)).

Definition is_supported (req : Request) : bool :=
  String.eqb (Scheme req) "http" || String.eqb (Scheme req) "https".

Definition Transport_DetailedRoundTrip (req : Request) (userdata : option ctxUserData)
    : M (option (option TCPAddr) * result Response * option ctxUserData) :=
  if negb (is_supported req) then ret (None, Fail (unsupported req), userdata)
  else
    match connectMethodForRequest req with
    | Fail err => ret (None, Fail err, userdata)
    | Ok cm =>
        let! (pc, userdata) := getConn cm userdata in
        match pc with
        | Fail err => ret (None, Fail err, userdata)
        | Ok pc =>
            let! h := history in
            match roundTrip h pc req with
            | Ret resp => ret (Some (Some (pc_ip pc)), resp, userdata)
            | Panic what => panic what
            end
        end
    end.
End transport.

(** ** The transport that the handlers assume *)
Section refinement.
Context `{E : Env} `{O : Outside}.

#[global] Instance upstream_transport : Transport := {|
  tr_addr req :=
    if negb (is_supported req) then Fail (unsupported req)
    else let? cm := connectMethodForRequest req in Ok (connectMethod_addr cm);
  tr_ResolveTCPAddr := out_ResolveTCPAddr;
  tr_dial_error req err :=
    match connectMethodForRequest req with Ok cm => connect_error cm err | Fail _ => err end;
  tr_setup h req conn :=
    match connectMethodForRequest req with Ok cm => set_up_conn h cm conn | Fail _ => None end;
  tr_roundTrip h req conn :=
    match connectMethodForRequest req with
    | Ok cm => roundTrip h (new_persistConn cm conn (mkTCPAddr [] 0 "")) req
    | Fail err => Ret (Fail err)
    end;
  tr_https_proxy := out_https_proxy;
  tr_upstream := out_upstream;
  tr_url_Parse := out_url_Parse
|}.

Lemma DetailedRoundTrip_refines config req userdata :
  Transport_DetailedRoundTrip (dial config) req userdata ≡ DetailedRoundTrip config req userdata.
Proof.
  unfold Transport_DetailedRoundTrip, DetailedRoundTrip. simpl.
  destruct (negb (is_supported req)); [done|]. simpl.
  destruct (connectMethodForRequest req) as [cm|err] eqn:Hcm; [|done]. simpl.
  unfold getConn, Transport_dial. equiv_norm. equiv_bind. rename a into h.
  destruct (out_ResolveTCPAddr h _) as [ip|err]; [|done]. equiv_norm. equiv_bind.
  destruct a as [[c|err] u]; [|done]. equiv_norm. equiv_bind. rename a into h'.
  destruct (set_up_conn h' cm c) as [[closed err]|].
  - equiv_norm. equiv_bind. by destruct err.
  - equiv_norm. equiv_bind. by destruct (roundTrip _ _ _).
Qed.
End refinement.

(** ** What an HTTP request dials *)

(** An address without a port after its last bracket, joined with a port in
    brackets, does not split. *)
Lemma SplitHostPort_rebracketed host port :
  LastIndex host ":" ≤ LastIndex host "]" → has_byte ":" host = true →
  str_all is_digit port = true →
  is_ok (SplitHostPort ("[" +:+ host +:+ "]:" +:+ port)) = false.
Proof.
  intros Hl Hc Hd.
  assert (has_byte "]" host = true) as Hb.
  { destruct (has_byte "]" host) eqn:Hb; [done|]. apply LastIndex_none in Hb.
    pose proof (LastIndex_ge host ":").
    assert (LastIndex host ":" = -1) as Hn by lia. apply LastIndex_none in Hn. congruence. }
  destruct (IndexByte host "]") as [e|] eqn:He; [|apply IndexByte_None in He; congruence].
  destruct (IndexByte_Some _ _ _ He) as [Hs Hnb].
  set (h1 := str_take e host) in *. set (h2 := str_drop (S e) host) in *.
  unfold SplitHostPort. rewrite Hs.
  set (pre := "[" +:+ h1). set (t := h2 +:+ "]").
  assert ("[" +:+ (h1 +:+ String "]" h2) +:+ "]:" +:+ port =
          (pre +:+ String "]" t) +:+ String ":" port) as ->.
  { unfold pre, t. rewrite <-!app_str_assoc, !app_str_cons, <-!app_str_assoc. done. }
  rewrite LastIndex_app, Z_to_nat_ltb, Nat2Z.id by by apply digits_no_byte.
  assert (HasPrefix ((pre +:+ String "]" t) +:+ String ":" port) "[" = true) as ->
    by (apply HasPrefix_spec; unfold pre; rewrite <-!app_str_assoc; by eexists).
  rewrite <-app_str_assoc, app_str_cons, IndexByte_app
    by (unfold pre; by rewrite has_byte_app, Hnb).
  rewrite !(proj2 (Nat.eqb_neq _ _)).
  - by destruct (HasPrefix _ ":").
  - unfold t. rewrite !length_app_str. cbn [String.length]. rewrite length_app_str. simpl. lia.
  - rewrite length_app_str. cbn [String.length]. rewrite length_app_str. simpl. lia.
Qed.

(** When the address that is asked about for a request splits into host and
    port, it is the one that the transport dials for it. *)
Lemma canonicalAddr_remote_host req :
  URL_Host req = Host req → is_supported req = true → is_ok (SplitHostPort (remote_host req)) = true →
  canonicalAddr (Scheme req) (URL_Host req) = remote_host req.
Proof.
  intros -> Hs. unfold canonicalAddr, util_hasPort.
  destruct (Z.ltb_spec (LastIndex (Host req) "]") (LastIndex (Host req) ":")) as [Hlt|Hle]; simpl.
  - unfold remote_host. apply Z.leb_gt in Hlt. by rewrite Hlt.
  - rewrite remote_host_default by done.
    assert (default_port (Scheme req) = portMap (Scheme req)) as ->.
    { unfold is_supported, default_port, portMap in *. repeat case_match; done. }
    unfold JoinHostPort. destruct (has_byte ":" (Host req)) eqn:Hc; [|done].
    rewrite SplitHostPort_rebracketed; [done|done|done|]. unfold portMap. by repeat case_match.
Qed.

Ltac follow :=
  eapply follows_bind;
    [first [apply follows_call | by apply follows_act]|intros ? ? ->].

Section pinned.
Context `{E : Env} `{T : Transport} (config : Config).

Definition one_dial (a : TCPAddr) : list Event :=
  [EvDial "tcp" (TCPAddr_String a) (ConnectTimeout config); EvNow; EvNow].

Lemma follows_connect a role host :
  follows (one_dial a) (connect config "tcp" a role host) (λ _ _, True).
Proof.
  unfold connect, DialTimeout, Incr1. follow. follow. destruct a1 as [c|e]; follow; [|done].
  apply (follows_bind _ _ _ (λ _ _, True)); [|by intros]. unfold track_conn, Now. by repeat follow.
Qed.

(** The user data of a request that was let through: the address is pinned for
    [host]. *)
Definition pinned (host : string) (a : TCPAddr) (u : option ctxUserData) : Prop :=
  ∃ v d, u = Some v ∧ ud_decision v = Some d ∧ d_resolvedAddr d = Some a ∧ d_outboundHost d = host.

Lemma follows_dial host a u :
  pinned host a u → follows (one_dial a) (dial config "tcp" host u) (λ _ _, True).
Proof.
  intros (v & d & -> & Hd & Ha & Hh). unfold dial.
  rewrite Hd, Ha, Hh, bind_ret_l, !String.eqb_refl. cbn [negb orb]. rewrite bind_ret_l.
  eapply follows_bind; [apply follows_connect|]. by intros.
Qed.

(** The transport dials [host] for the request, and does not close the
    connection before the request was sent. *)
Definition direct (req : Request) (host : string) : Prop :=
  (∀ addr, tr_addr req = Ok addr → addr = host) ∧
  ∀ h conn closed err, tr_setup h req conn = Some (closed, err) → closed = false.

Lemma follows_DetailedRoundTrip req host a u :
  direct req host → pinned host a u →
  follows (one_dial a) (DetailedRoundTrip config req u) (λ _ _, True).
Proof.
  intros [Haddr Hset] Hu. unfold DetailedRoundTrip. destruct (tr_addr req) as [addr|]; [|done].
  rewrite (Haddr addr) by done. unfold history. follow.
  destruct (tr_ResolveTCPAddr a0 host) as [ip|]; [|done].
  eapply follows_bind; [by apply follows_dial|]. intros [[c|e] u'] c' _; [|done]. follow.
  destruct (tr_setup a1 req c) as [[closed err]|] eqn:Hs.
  - apply Hset in Hs as ->. by destruct err.
  - follow. by destruct (tr_roundTrip _ req c).
Qed.

Lemma follows_filterResponse c resp ctx : follows c (filterResponse config resp ctx) (λ _ _, True).
Proof.
  assert (holds (steps_in (adds (λ _, False))) (filterResponse config resp ctx) (λ _, True)) as H.
  { unfold filterResponse, on_response, logHTTP.
    destruct resp as [r|]; simpl; [|destruct (ctx_Error ctx)]; spec_auto;
      apply spec_logProxy. }
  by eapply follows_weaken; [by apply follows_silent|].
Qed.

Lemma follows_send_request ctx host a :
  direct (removeProxyHeaders (ctx_Req ctx)) host → pinned host a (ctx_UserData ctx) →
  follows (one_dial a) (send_request config ctx) (λ _ _, True).
Proof.
  intros Hd Hu. unfold send_request.
  eapply follows_bind; [by eapply follows_DetailedRoundTrip|]. intros [[d [r|e]] u] c _; [done|].
  apply follows_filterResponse.
Qed.

(** A request that is let through was resolved once, and the answer is pinned
    in its context. *)
Lemma fin_on_request_pinned ctx ctx' l :
  finishes (on_request config ctx) l (Ret (ctx', None)) →
  let host := remote_host (ctx_Req ctx) in
  ∃ a h lookups, allowed config a ∧ resolves config host lookups a ∧
    pinned host a (ctx_UserData ctx') ∧ asks l = (h, EvNow) :: lookups.
Proof.
  unfold on_request, Now. intros H. fin_inv. destruct a1 as [d [err|]]; [by fin_inv|].
  destruct (d_allow d) eqn:Hal; simpl in *; [|by fin_inv]. fin_inv.
  match goal with H : finishes (checkIfRequestShouldBeProxied _ _ _) _ _ |- _ => rename H into Hc end.
  apply fin_check in Hc as (a & Ha & Hh & Hok & Hl); [|done].
  eexists a, _, _. split_and!; [done|exact Hl| |].
  - by eexists _, d.
  - rewrite !asks_app. simpl. by rewrite !app_nil_r.
Qed.
(** What an execution of the handler, finished or not, has called when it has
    dialled. *)
Definition pinned_calls (host : string) (l : list (list Event * Event)) : Prop :=
  ∃ a h lookups dialled rest, allowed config a ∧ resolves config host lookups a ∧
    l = (h, EvNow) :: lookups ++ dialled ∧
    dialled.*2 = EvDial "tcp" (TCPAddr_String a) (ConnectTimeout config) :: rest ∧
    rest `prefix_of` [EvNow; EvNow].

Lemma no_dials l ev : Forall not_dial (calls l) → ¬ not_dial ev → ev ∈ calls l → False.
Proof. rewrite Forall_forall. auto. Qed.

(** What follows the request calls nothing. *)
Lemma follows_answer c (m : M (option Response * ProxyCtx)) :
  follows c m (λ _ _, True) →
  follows c (let! (resp, ctx) := m in
    match resp with
    | None => ret (HttpError (match ctx_Error ctx with Some e => Error e | None => "" end))
    | Some resp =>
        let! (resp, _) := filterResponse config (Some resp) ctx in
        match resp with
        | Some resp => ret (Answer resp)
        | None => panic "invalid memory address or nil pointer dereference"
        end
    end) (λ _ _, True).
Proof.
  intros Hm. eapply follows_bind; [exact Hm|]. intros [[r|] ctx] c' _; [|by apply follows_ret].
  eapply follows_bind; [apply follows_filterResponse|]. by intros [[] ?] ? _.
Qed.

Lemma texec_serve_absolute req l n ev :
  (∀ r, is_ok (SplitHostPort (remote_host req)) = true →
     Scheme r = Scheme req → URL_Host r = URL_Host req → direct r (remote_host req)) →
  texec (serve_absolute config (new_ctx req)) l n → ev ∈ calls l → ¬ not_dial ev →
  pinned_calls (remote_host req) (asks l).
Proof.
  intros Hdir Hx Hin Hev. unfold serve_absolute in Hx.
  pose proof (spec_on_request (steps_in (adds not_dial)) config (new_ctx req)) as Hs.
  apply texec_bind in Hx as [(n' & Hx & _)|([ctx [resp|]] & l1 & l2 & Hf & Hx & ->)].
  - destruct (texec_adds _ _ _ _ _ Hs Hx) as [Hl _]. by destruct (no_dials l ev).
  - destruct (finishes_adds _ _ _ _ _ Hs Hf) as [Hl _]. rewrite calls_app in Hin.
    pose proof (follows_answer [] (ret (Some resp, ctx)) I) as Hr.
    apply (follows_texec _ _ _ _ _ Hr) in Hx. apply prefix_nil_inv in Hx.
    rewrite Hx, app_nil_r in Hin. by destruct (no_dials l1 ev).
  - destruct (finishes_adds _ _ _ _ _ Hs Hf) as [Hl _].
    pose proof (fin_on_request config _ _ _ _ Hf) as Hreq.
    apply fin_on_request_pinned in Hf as (a & h & lookups & Hok & Hres & Hp & Hasks). simpl in *.
    assert (direct (removeProxyHeaders (ctx_Req ctx)) (remote_host req)) as Hd.
    { destruct Hres as (host & port & p & ip & rest & hp & hi & Hsp & _).
      apply Hdir; [by rewrite Hsp|by rewrite Hreq..]. }
    pose proof (follows_answer _ _ (follows_send_request _ _ _ Hd Hp)) as Hr.
    apply (follows_texec _ _ _ _ _ Hr) in Hx.
    rewrite calls_app, elem_of_app in Hin.
    assert (ev ∈ calls l2) as Hin2 by (destruct Hin as [Hin|]; [by destruct (no_dials l1 ev)|done]).
    exists a, h, lookups, (asks l2). rewrite asks_app, Hasks, <-calls_asks.
    destruct (calls l2) as [|e l2']; [by apply elem_of_nil in Hin2|].
    apply prefix_cons_inv_1 in Hx as He. apply prefix_cons_inv_2 in Hx as Hx.
    exists l2'. by subst e.
Qed.
End pinned.

(** ** No second resolution for HTTP requests *)
Section http.
Context `{E : Env} `{O : Outside} (config : Config) (hc : bool).

Lemma set_up_direct h cm conn closed err :
  proxyURL cm = None → set_up_conn h cm conn = Some (closed, err) → closed = false.
Proof.
  unfold set_up_conn, is_proxied. intros ->. destruct (String.eqb _ _); [|done].
  destruct (out_Handshake h conn); [|done]. by intros [= <- _].
Qed.

Lemma direct_upstream req r :
  (∀ r, out_Proxy r = Ok None) → URL_Host req = Host req →
  is_ok (SplitHostPort (remote_host req)) = true →
  Scheme r = Scheme req → URL_Host r = URL_Host req → direct r (remote_host req).
Proof.
  intros Hp Hh Hok Hs Hu. split; simpl; unfold connectMethodForRequest; rewrite Hp.
  - intros addr. destruct (is_supported r) eqn:Hsup; [|done]. simpl. intros [= <-].
    rewrite Hs, Hu. apply canonicalAddr_remote_host; [done| |done].
    unfold is_supported in *. by rewrite <-Hs.
  - intros h conn closed err. by apply set_up_direct.
Qed.

End http.

(** ** The address in the log *)
Section logged.
Context `{E : Env} `{T : Transport} (config : Config).

(** The address of the round trip is what the transport's own resolution of the
    first hop answered. *)
Definition own_resolution (req : Request) (d : option (option TCPAddr)) : Prop :=
  match d with
  | Some (Some ip) => ∃ h addr, tr_addr req = Ok addr ∧ tr_ResolveTCPAddr h addr = Ok ip
  | Some None => False
  | None => True
  end.

Lemma fin_DetailedRoundTrip_ip req u l d r u' :
  finishes (DetailedRoundTrip config req u) l (Ret (d, r, u')) → own_resolution req d.
Proof.
  unfold DetailedRoundTrip. destruct (tr_addr req) as [addr|] eqn:Ha; intros H; [|by fin_inv].
  fin_inv. destruct (tr_ResolveTCPAddr _ addr) as [ip|] eqn:Hip; [|by fin_inv]. fin_inv.
  match goal with Hd : finishes (dial _ _ _ _) _ (Ret ?p) |- _ => destruct p as [[c|] u1] end;
    [|by fin_inv]. fin_inv.
  destruct (tr_setup _ _ _) as [[closed err]|]; fin_inv.
  - destruct err; by fin_inv.
  - destruct (tr_roundTrip _ _ _); fin_inv. simpl. eauto.
Qed.

Lemma log_fields_dest_ip ctx ty to d t s e :
  log_fields ctx ty to d t s e !! "dest_ip" = (λ a, LString (IP_String (tcp_IP a))) <$> to.
Proof.
  unfold log_fields. destruct (match SplitHostPort _ with Ok hp => hp | Fail _ => ("", "") end).
  destruct e, d, (PeerCertificates (ctx_Req ctx)) as [[|cert certs]|]; try destruct (OrganizationalUnit cert);
    destruct to; simplify_map_eq; done.
Qed.

Lemma fin_filterResponse_ctx resp ctx l r ctx' :
  finishes (filterResponse config resp ctx) l (Ret (r, ctx')) → ctx' = set_Resp ctx resp.
Proof. unfold filterResponse. intros H. by fin_inv. Qed.

Lemma fin_send_request_ip ctx l r ctx' :
  finishes (send_request config ctx) l (Ret (r, ctx')) →
  own_resolution (removeProxyHeaders (ctx_Req ctx)) (ctx_RoundTrip ctx').
Proof.
  unfold send_request. intros H. fin_inv. destruct a as [[d [resp|err]] u].
  - fin_inv. by eapply fin_DetailedRoundTrip_ip.
  - apply fin_filterResponse_ctx in H as ->. by eapply fin_DetailedRoundTrip_ip.
Qed.

(** The decision line of a response that is passed on. *)
Lemma fin_filterResponse_line resp ctx l r ctx' e :
  finishes (filterResponse config (Some resp) ctx) l (Ret (r, ctx')) → e ∈ entries l →
  le_fields e !! "dest_ip" =
    (λ a, LString (IP_String (tcp_IP a))) <$> (match ctx_RoundTrip ctx with Some a => a | None => None end).
Proof.
  unfold filterResponse, on_response, logHTTP. intros H. fin_inv. simpl in *.
  destruct (ctx_UserData ctx); fin_inv. simpl.
  intros ->%list_elem_of_singleton. simpl. apply log_fields_dest_ip.
Qed.

Lemma nlines_none l e : nlines l = 0%nat → e ∈ entries l → is_decision e = true → False.
Proof.
  unfold nlines. intros Hl%nil_length_inv He%list_elem_of_In Hd.
  assert (In e (List.filter is_decision (entries l))) as Hin by (by apply filter_In).
  by rewrite Hl in Hin.
Qed.

Lemma fin_on_request_trip ctx l ctx' resp :
  finishes (on_request config ctx) l (Ret (ctx', resp)) → ctx_RoundTrip ctx' = ctx_RoundTrip ctx.
Proof.
  unfold on_request, Now. intros H. fin_inv. destruct a1 as [d [err|]]; simpl in *; [by fin_inv|].
  destruct (d_allow d); simpl in *; by fin_inv.
Qed.

Lemma fin_serve_absolute_line req l r e :
  finishes (serve_absolute config (new_ctx req)) l (Ret r) → e ∈ entries l → is_decision e = true →
  ∃ d r', le_fields e !! "dest_ip" = (λ a, LString (IP_String (tcp_IP a))) <$>
            (match d with Some a => a | None => None end) ∧
    own_resolution r' d ∧ Scheme r' = Scheme req ∧ URL_Host r' = URL_Host req.
Proof.
  unfold serve_absolute. intros (a & l1 & l' & Hon & H & ->)%finishes_bind. destruct a as [ctx resp].
  apply finishes_bind in H as ([resp' ctx'] & l2 & l3 & Hsend & H & ->).
  rewrite !entries_app, !elem_of_app. intros He Hd.
  pose proof (spec_on_request no_lines config (new_ctx req)) as Hs. pose proof (fin_on_request _ _ _ _ _ Hon) as Hreq.
  destruct (Hs _ _ Hon) as [Hl1 [Hu _]]. destruct He as [He|[He|He]].
  - by destruct (nlines_none l1 e).
  - destruct resp as [resp|]; [by fin_inv; apply elem_of_nil in He|].
    destruct (send_request_lines config ctx Hu _ _ Hsend) as [Hl2 _]. by destruct (nlines_none l2 e).
  - destruct resp' as [resp'|]; [|by fin_inv; apply elem_of_nil in He].
    apply finishes_bind in H as ([r3 c3] & l4 & l5 & Hf & H & ->).
    assert (l5 = []) as -> by (destruct r3; by fin_inv). rewrite app_nil_r in He.
    apply (fin_filterResponse_line _ _ _ _ _ _ Hf) in He. destruct resp as [resp|].
    + apply finishes_ret in Hsend as [[= -> ->] _].
      exists (ctx_RoundTrip ctx), req. rewrite (fin_on_request_trip _ _ _ _ Hon) in *. by split_and!.
    + apply fin_send_request_ip in Hsend.
      eexists _, _. split_and!; [exact He|exact Hsend|by rewrite Hreq..].
Qed.
End logged.

(** *** The theorem *)
Section dest_ip.
Context `{E : Env} `{O : Outside} (config : Config) (hc : bool).

(** The address in the decision line of an HTTP request. *)
Lemma dest_ip_resolved w s i t r e v :
  (∀ r, out_Proxy r = Ok None) → rtc (p_step config hc) (start w) s →
  p_threads s !! i = Some t → t_prog t = Done (Ret r) → Method (t_req t) ≠ "CONNECT" →
  e ∈ entries (t_effects t) → is_decision e = true → le_fields e !! "dest_ip" = Some v →
  let req := effective (t_req t) in
  ∃ h ip, out_ResolveTCPAddr h (canonicalAddr (Scheme req) (URL_Host req)) = Ok ip ∧
    v = LString (IP_String (tcp_IP ip)).
Proof.
  intros Hproxy Hr%p_inv_reachable Hi Ht Hm He Hd Hv req. destruct Hr as [_ Hth].
  destruct (Hth i t Hi) as [Hex _]. rewrite Ht, texec_done in Hex.
  assert (∀ r', finishes (serve_absolute config (new_ctx r')) (t_effects t) (Ret r) →
    ∃ h ip, out_ResolveTCPAddr h (canonicalAddr (Scheme r') (URL_Host r')) = Ok ip ∧
      v = LString (IP_String (tcp_IP ip))) as Habs.
  { intros r' Hf. destruct (fin_serve_absolute_line _ _ _ _ _ Hf He Hd) as (d & r2 & Hl & Ho & Hs & Hu).
    rewrite Hl in Hv. destruct d as [[ip|]|]; simplify_eq/=. destruct Ho as (h & addr & Ha & Hip).
    exists h, ip. split; [|done]. unfold connectMethodForRequest in Ha. rewrite Hproxy in Ha.
    destruct (is_supported r2); simplify_eq/=. by rewrite <-Hs, <-Hu. }
  unfold handler, HealthcheckMiddleware_ServeHTTP, proxy_ServeHTTP, serve_http, req, effective in *.
  apply String.eqb_neq in Hm. rewrite Hm in *. simpl in *.
  assert (t_effects t = [] → False) as Hne.
  { intros H0. rewrite H0 in He. by apply elem_of_nil in He. }
  destruct hc; repeat case_match; simplify_eq/=; try (by apply Habs in Hex);
    first [by apply finishes_ret in Hex as [_ ?]|by apply finishes_panic in Hex].
Qed.
End dest_ip.

(** ** A sample run *)
Definition plain_outside : Outside := {|
  out_Proxy _ := Ok None;
  out_ResolveTCPAddr _ _ := Ok (mkTCPAddr (IPv4 10 0 0 1) 80 "");
  out_connect _ _ _ := Fail (Err "not used");
  out_Handshake _ _ := None;
  out_roundTrip _ _ _ _ := Ok (mkResponse "200 OK" 200 1 1 ∅ "hello" 5);
  out_https_proxy _ := "";
  out_upstream _ _ _ := true;
  out_url_Parse _ := Fail (Err "not used")
|}.

Definition http_process : Process :=
  @execute rebinding_env (@upstream_transport rebinding_env plain_outside) (acl_config sample_acl)
    false ([Arrive (client_request "GET" "http" "api.example.com" "dummy-glob")] ++
           replicate 30 (Go 0)) (start init_world).


(** C36: the address in the decision line of an HTTP request is not the one that
    was checked. In any interleaving, when no upstream proxy is configured, the
    field "dest_ip" of the line, if there is one, is what the transport's own
    resolution answered for the host and port of the URL; that resolution is
    made besides the one that is checked and dialled, by another resolver.  It
    does happen that the line names another address than the one that was
    dialled, one that the classifier refuses. *)
Theorem logged_dest_ip :
  (∀ (E : Env) (O : Outside) config hc w s i t r e v,
     (∀ r, out_Proxy r = Ok None) → rtc (p_step config hc) (start w) s →
     p_threads s !! i = Some t → t_prog t = Done (Ret r) → Method (t_req t) ≠ "CONNECT" →
     e ∈ entries (t_effects t) → is_decision e = true → le_fields e !! "dest_ip" = Some v →
     let req := effective (t_req t) in
     ∃ h ip, out_ResolveTCPAddr h (canonicalAddr (Scheme req) (URL_Host req)) = Ok ip ∧
       v = LString (IP_String (tcp_IP ip))) ∧
  ∃ t e, p_threads http_process !! 0%nat = Some t ∧ e ∈ entries (t_effects t) ∧
    is_decision e = true ∧ le_fields e !! "dest_ip" = Some (LString "10.0.0.1") ∧
    EvDial "tcp" "93.184.216.34:80" 10 ∈ calls (t_effects t) ∧
    ¬ allowed (acl_config sample_acl) (mkTCPAddr (IPv4 10 0 0 1) 80 "").
Proof.
  split; [intros E O; apply dest_ip_resolved|].
  destruct (p_threads http_process !! 0%nat) as [t|] eqn:Ht; [|by vm_compute in Ht].
  assert ((λ t, (λ e, (is_decision e, le_fields e !! "dest_ip")) <$> entries (t_effects t) !! 1%nat) <$>
    p_threads http_process !! 0%nat = Some (Some (true, Some (LString "10.0.0.1")))) as H1
    by (vm_compute; reflexivity).
  assert ((λ t, calls (t_effects t) !! 3%nat) <$> p_threads http_process !! 0%nat =
    Some (Some (EvDial "tcp" "93.184.216.34:80" 10))) as H2 by (vm_compute; reflexivity).
  rewrite Ht in H1, H2. injection H1 as H1. injection H2 as H2.
  destruct (entries (t_effects t) !! 1%nat) as [e|] eqn:He; [|done]. injection H1 as Hd Hv.
  exists t, e. split_and!; [done|by eapply list_elem_of_lookup_2|done|done|
    by eapply list_elem_of_lookup_2|by vm_compute].
Qed.

Lemma logged_dest_ip_witness :
  ∃ t h ip, p_threads http_process !! 0%nat = Some t ∧
    @out_ResolveTCPAddr plain_outside h "api.example.com:80" = Ok ip ∧
    IP_String (tcp_IP ip) = "10.0.0.1".
Proof.
  destruct (p_threads http_process !! 0%nat) as [t|] eqn:Ht; [|by vm_compute in Ht].
  assert ((λ t, (λ e, (is_decision e, le_fields e !! "dest_ip")) <$> entries (t_effects t) !! 1%nat) <$>
    p_threads http_process !! 0%nat = Some (Some (true, Some (LString "10.0.0.1")))) as H1
    by (vm_compute; reflexivity).
  assert (t_req <$> p_threads http_process !! 0%nat =
    Some (client_request "GET" "http" "api.example.com" "dummy-glob")) as H2
    by (vm_compute; reflexivity).
  assert ((λ t, match t_prog t with Done (Ret r) => Some r | _ => None end) <$>
    p_threads http_process !! 0%nat =
    Some (Some (Answer (mkResponse "200 OK" 200 1 1 ∅ "hello" 5)))) as H3 by (vm_compute; reflexivity).
  rewrite Ht in H1, H2, H3. injection H1 as H1. injection H2 as H2. injection H3 as H3.
  destruct (entries (t_effects t) !! 1%nat) as [e|] eqn:He; [|done]. injection H1 as Hd Hv.
  destruct (t_prog t) as [[r|]|] eqn:Hp; [|done..].
  destruct (proj1 logged_dest_ip rebinding_env plain_outside (acl_config sample_acl) false init_world
    http_process 0%nat t r e (LString "10.0.0.1")) as (h & ip & Hr & Hip);
    [done|apply execute_steps|done|done|by rewrite H2|by eapply list_elem_of_lookup_2|done|done|].
  exists t, h, ip. rewrite H2 in Hr. split_and!; [done|exact Hr|]. by injection Hip.
Defined.
