(* ===== verification/GoProxy.v ===== *)
(** * goproxy's dispatch and [BuildProxy]

    [src/vendor/github.com/elazarl/goproxy] ([dispatcher.go], [actions.go],
    [proxy.go], [https.go]): a server with lists of handlers, the conditions
    they are registered under, and the loops that run them; and the server that
    [BuildProxy] of [src/pkg/smokescreen/smokescreen.go] makes.  [Serve.v]
    composes the handlers directly; [BuildProxy_serves] shows that goproxy's
    dispatch over the handlers that [BuildProxy] registers is that composition.

    A request or response is passed by pointer.  A handler gets the request that
    the context holds and says with which request to go on: with that one, as
    it is then, with another, or with none; so for responses.  No handler of the
    program replaces the request of the context.  Conditions look and change
    nothing.  Messages to goproxy's own logger are left out. *)

From S2P Require Import Prelude GoStrings GoNet Acl Http Config Classify Conntrack Proxy Serve Effects Trees Upstream.

(** ** Handlers *)
Inductive ReqPtr := SameReq | OtherReq (r : Request) | NilReq.
Inductive RespPtr := SameResp (r : Response) | OtherResp (r : Response) | NilResp.

Inductive ConnectActionLiteral := ConnectAccept | ConnectReject | ConnectMitm.

Definition ReqHandler := ProxyCtx → M (ProxyCtx * ReqPtr * option Response).
Definition RespHandler := option Response → ProxyCtx → M (ProxyCtx * RespPtr).
Definition HttpsHandler := string → ProxyCtx → M (ProxyCtx * option (ConnectActionLiteral * string)).

Definition ReqCondition := Request → ProxyCtx → bool.
Definition RespCondition := option Response → ProxyCtx → bool.

(** [ProxyHttpServer], with the fields of its transport that are set. *)
Record ProxyHttpServer := mkProxyHttpServer {
  Verbose : bool;
  reqHandlers : list ReqHandler;
  respHandlers : list RespHandler;
  httpsHandlers : list HttpsHandler;
  Tr_Dial : option DialHook;
  Tr_DisableKeepAlives : bool
}.

Definition NewProxyHttpServer : ProxyHttpServer := mkProxyHttpServer false [] [] [] None false.

Definition set_Verbose (p : ProxyHttpServer) (b : bool) : ProxyHttpServer :=
  mkProxyHttpServer b (reqHandlers p) (respHandlers p) (httpsHandlers p) (Tr_Dial p)
    (Tr_DisableKeepAlives p).
Definition set_Tr_Dial (p : ProxyHttpServer) (d : option DialHook) : ProxyHttpServer :=
  mkProxyHttpServer (Verbose p) (reqHandlers p) (respHandlers p) (httpsHandlers p) d
    (Tr_DisableKeepAlives p).
Definition set_Tr_DisableKeepAlives (p : ProxyHttpServer) (b : bool) : ProxyHttpServer :=
  mkProxyHttpServer (Verbose p) (reqHandlers p) (respHandlers p) (httpsHandlers p) (Tr_Dial p) b.

(** ** Registration *)
Record ReqProxyConds := mkReqProxyConds { rc_proxy : ProxyHttpServer; rc_conds : list ReqCondition }.
Record ProxyConds := mkProxyConds {
  pc_proxy : ProxyHttpServer;
  pc_reqConds : list ReqCondition;
  pc_respCond : list RespCondition
}.

Definition OnRequest (proxy : ProxyHttpServer) (conds : list ReqCondition) : ReqProxyConds :=
  mkReqProxyConds proxy conds.
Definition OnResponse (proxy : ProxyHttpServer) (conds : list RespCondition) : ProxyConds :=
  mkProxyConds proxy [] conds.

Definition all_hold (conds : list ReqCondition) (ctx : ProxyCtx) : bool :=
  forallb (λ cond, cond (ctx_Req ctx) ctx) conds.

(** [ReqProxyConds.Do], and [DoFunc], which calls it. *)
Definition OnRequest_Do (pcond : ReqProxyConds) (h : ReqHandler) : ProxyHttpServer :=
  let p := rc_proxy pcond in
  let h' ctx := if all_hold (rc_conds pcond) ctx then h ctx else ret (ctx, SameReq, None) in
  mkProxyHttpServer (Verbose p) (reqHandlers p ++ [h']) (respHandlers p) (httpsHandlers p)
    (Tr_Dial p) (Tr_DisableKeepAlives p).

(** [ReqProxyConds.HandleConnect], and [HandleConnectFunc], which calls it. *)
Definition OnRequest_HandleConnect (pcond : ReqProxyConds) (h : HttpsHandler) : ProxyHttpServer :=
  let p := rc_proxy pcond in
  let h' host ctx := if all_hold (rc_conds pcond) ctx then h host ctx else ret (ctx, None) in
  mkProxyHttpServer (Verbose p) (reqHandlers p) (respHandlers p) (httpsHandlers p ++ [h'])
    (Tr_Dial p) (Tr_DisableKeepAlives p).

Definition resp_ptr (resp : option Response) : RespPtr :=
  match resp with Some r => SameResp r | None => NilResp end.

(** [ProxyConds.Do], and [DoFunc], which calls it. *)
Definition OnResponse_Do (pcond : ProxyConds) (h : RespHandler) : ProxyHttpServer :=
  let p := pc_proxy pcond in
  let h' resp ctx :=
    if all_hold (pc_reqConds pcond) ctx && forallb (λ cond, cond resp ctx) (pc_respCond pcond)
    then h resp ctx else ret (ctx, resp_ptr resp) in
  mkProxyHttpServer (Verbose p) (reqHandlers p) (respHandlers p ++ [h']) (httpsHandlers p)
    (Tr_Dial p) (Tr_DisableKeepAlives p).

(** ** Dispatch *)
Fixpoint filterRequest (hs : list ReqHandler) (req : ReqPtr) (ctx : ProxyCtx)
    : M (ProxyCtx * ReqPtr * option Response) :=
  match hs with
  | [] => ret (ctx, req, None)
  | h :: hs =>
      let! (ctx, req, resp) := h ctx in
      match resp with
      | Some resp => ret (ctx, req, Some resp)
      | None => filterRequest hs req ctx
      end
  end.

(** The response afterwards, and whether it is another one than before. *)
Fixpoint filter_response (hs : list RespHandler) (resp : option Response) (other : bool)
    (ctx : ProxyCtx) : M (option Response * bool * ProxyCtx) :=
  match hs with
  | [] => ret (resp, other, ctx)
  | h :: hs =>
      let! (ctx, p) := h resp (set_Resp ctx resp) in
      match p with
      | SameResp r => filter_response hs (Some r) other (set_Resp ctx (Some r))
      | OtherResp r => filter_response hs (Some r) true ctx
      | NilResp => filter_response hs None true ctx
      end
  end.

Fixpoint connect_handlers (hs : list HttpsHandler) (todo : ConnectActionLiteral) (host : string)
    (ctx : ProxyCtx) : M (ProxyCtx * ConnectActionLiteral * string) :=
  match hs with
  | [] => ret (ctx, todo, host)
  | h :: hs =>
      let! (ctx, new) := h host ctx in
      match new with
      | Some (newtodo, newhost) => connect_handlers hs newtodo newhost ctx
      | None => connect_handlers hs todo host ctx
      end
  end.

Section server.
Context `{E : Env} `{O : Outside}.

(** What goproxy does without a hook ([net.Dial]), and the man-in-the-middle
    mode. *)
Variable (no_hook : DialHook) (mitm : ProxyCtx → string → M Reply).

Section serve.
Variable proxy : ProxyHttpServer.

Definition proxy_dial : DialHook := default no_hook (Tr_Dial proxy).

(** Sending a request that no handler answered; also the text of the error. *)
Definition goproxy_send (req : ReqPtr) (ctx : ProxyCtx) : M (option Response * ProxyCtx * string) :=
  let! (r, ctx) :=
    match req with
    | SameReq => let r := removeProxyHeaders (ctx_Req ctx) in ret (r, set_Req ctx r)
    | OtherReq r => ret (removeProxyHeaders r, ctx)
    | NilReq => panic "invalid memory address or nil pointer dereference"
    end in
  let! (details, resp, userdata) := Transport_DetailedRoundTrip proxy_dial r (ctx_UserData ctx) in
  let ctx := set_RoundTrip (set_UserData ctx userdata) details in
  match resp with
  | Ok resp => ret (Some resp, ctx, "")
  | Fail err =>
      let! (resp, _, ctx) :=
        filter_response (respHandlers proxy) None false (set_Error ctx (Some err)) in
      ret (resp, ctx, Error err)
  end.

Definition goproxy_absolute (ctx : ProxyCtx) : M Reply :=
  let! (ctx, req, resp) := filterRequest (reqHandlers proxy) SameReq ctx in
  let! (resp, ctx, err) :=
    match resp with
    | Some resp => ret (Some resp, ctx, "")
    | None => goproxy_send req ctx
    end in
  match resp with
  | None => ret (HttpError err)
  | Some resp =>
      let! (resp, other, _) := filter_response (respHandlers proxy) (Some resp) false ctx in
      match resp with
      | Some resp =>
          ret (Answer (if other
            then set_RespHeader resp (Header_Del (RespHeader resp) "Content-Length") else resp))
      | None => panic "invalid memory address or nil pointer dereference"
      end
  end.

Definition goproxy_http (req : Request) : M Reply :=
  if negb (String.eqb (Scheme req) "") then goproxy_absolute (new_ctx req)
  else if String.eqb (Host req) "" then panic "invalid memory address or nil pointer dereference"
  else match out_url_Parse ("http://" +:+ Host req +:+ Path req) with
       | Fail err => ret (HttpError (Error err))
       | Ok (scheme, host, path) =>
           goproxy_absolute (new_ctx (mkRequest (Method req) (Host req) scheme host path
             (RequestURI req) (RemoteAddr req) (ProtoMajor req) (ProtoMinor req)
             (ReqHeader req) (PeerCertificates req)))
       end.

Definition handleHttps (req : Request) : M Reply :=
  let! (ctx, todo, host) :=
    connect_handlers (httpsHandlers proxy) ConnectAccept (URL_Host req) (new_ctx req) in
  match todo with
  | ConnectReject => ret (Rejected (ctx_Resp ctx))
  | ConnectMitm => mitm ctx host
  | ConnectAccept =>
      let host := if hasPort host then host else host +:+ ":80" in
      let https_proxy := out_https_proxy (ctx_Req ctx) in
      let! (conn, _) :=
        proxy_dial "tcp" (if negb (String.eqb https_proxy "") then https_proxy else host)
          (ctx_UserData ctx) in
      match conn with
      | Fail _ => ret BadGateway
      | Ok conn =>
          let! h := history in
          if negb (String.eqb https_proxy "") && negb (out_upstream h host conn)
          then close_conn conn ;;; ret UpstreamFailed
          else ret (Tunnel conn)
      end
  end.

Definition goproxy_ServeHTTP (req : Request) : M Reply :=
  if String.eqb (Method req) "CONNECT" then handleHttps req else goproxy_http req.
End serve.

(** ** [BuildProxy] *)
Section build.
Variable config : Config.

(** The three functions that are registered: the first goes on with the request
    that it was given; the third returns the response that it was given, or a
    new one when there was none. *)
Definition req_handler : ReqHandler := λ ctx,
  let! (ctx, resp) := on_request config ctx in ret (ctx, SameReq, resp).

Definition connect_handler : HttpsHandler := λ host ctx,
  let! (ctx, (todo, host)) := on_connect config host ctx in
  ret (ctx, Some (match todo with OkConnect => ConnectAccept | RejectConnect => ConnectReject end, host)).

Definition resp_handler : RespHandler := λ resp ctx,
  let! r := on_response config resp ctx in
  ret (ctx, match resp, r with
            | _, None => NilResp
            | Some _, Some r => SameResp r
            | None, Some r => OtherResp r
            end).

Definition BuildProxy : ProxyHttpServer :=
  let proxy := NewProxyHttpServer in
  let proxy := set_Verbose proxy false in
  let proxy := set_Tr_Dial proxy (Some (λ network addr userdata, dial config network addr userdata)) in
  let proxy := set_Tr_DisableKeepAlives proxy true in
  let proxy := OnRequest_Do (OnRequest proxy []) req_handler in
  let proxy := OnRequest_HandleConnect (OnRequest proxy []) connect_handler in
  let proxy := OnResponse_Do (OnResponse proxy []) resp_handler in
  proxy.
End build.

(** ** The dispatch is the composition *)
Section equivalence.
Variable config : Config.

Lemma handleHttps_serves req :
  handleHttps (BuildProxy config) req ≡ serve_connect config req.
Proof.
  unfold handleHttps, serve_connect. simpl. unfold connect_handler. equiv_norm. equiv_bind.
  destruct a as [ctx [[] host]]; equiv_norm; [|done]. simpl. done.
Qed.

Lemma filterRequest_one req ctx :
  filterRequest (reqHandlers (BuildProxy config)) req ctx ≡
  let! (ctx, resp) := on_request config ctx in ret (ctx, SameReq, resp).
Proof.
  simpl. unfold req_handler. equiv_norm. equiv_bind. by destruct a as [ctx1 [resp|]].
Qed.

(** The filter, and with it whether the response is another one. *)
Lemma filter_response_one resp other ctx :
  filter_response (respHandlers (BuildProxy config)) resp other ctx ≡
  let! r := on_response config resp (set_Resp ctx resp) in
  ret (r, match resp, r with Some _, Some _ => other | _, _ => true end,
       match resp, r with Some _, Some _ => set_Resp ctx r | _, _ => set_Resp ctx resp end).
Proof.
  simpl. unfold resp_handler. equiv_norm. equiv_bind.
  destruct resp as [r|], a as [r'|]; by equiv_norm.
Qed.

Lemma answer_serves resp ctx :
  (let! (resp, other, _) := filter_response (respHandlers (BuildProxy config)) (Some resp) false ctx in
   match resp with
   | Some resp =>
       ret (Answer (if other
         then set_RespHeader resp (Header_Del (RespHeader resp) "Content-Length") else resp))
   | None => panic "invalid memory address or nil pointer dereference"
   end) ≡
  let! (resp, _) := filterResponse config (Some resp) ctx in
  match resp with
  | Some resp => ret (Answer resp)
  | None => panic "invalid memory address or nil pointer dereference"
  end.
Proof.
  rewrite filter_response_one. unfold filterResponse. equiv_norm. equiv_bind.
  destruct a as [r|]; by equiv_norm.
Qed.

Lemma goproxy_absolute_serves ctx :
  goproxy_absolute (BuildProxy config) ctx ≡ serve_absolute config ctx.
Proof.
  unfold goproxy_absolute, serve_absolute. rewrite filterRequest_one. equiv_norm. equiv_bind.
  destruct a as [ctx1 [resp|]]; equiv_norm; [apply answer_serves|].
  unfold goproxy_send, send_request. equiv_norm.
  change (proxy_dial (BuildProxy config)) with (dial config).
  rewrite DetailedRoundTrip_refines. equiv_bind.
  destruct a as [[details [r|err]] u]; equiv_norm; [apply answer_serves|].
  rewrite filter_response_one. unfold filterResponse at 1. equiv_norm. equiv_bind.
  destruct a as [r|]; equiv_norm; [apply answer_serves|done].
Qed.

(** C8: [BuildProxy]. Goproxy's server with the handlers, the conditions and
    the dial hook that [BuildProxy] registers, over goproxy's own transport,
    takes for every request the same actions and gives the same reply as the
    direct composition of the handlers that the other theorems are about,
    whatever goproxy would do without a hook and in its man-in-the-middle mode:
    neither is ever reached.  So running it alone gives the same outcome and
    the same state, and its executions among others are the same. *)
Theorem BuildProxy_serves req :
  goproxy_ServeHTTP (BuildProxy config) req ≡ proxy_ServeHTTP config req ∧
  (∀ w, run (goproxy_ServeHTTP (BuildProxy config) req) w = run (proxy_ServeHTTP config req) w) ∧
  ∀ l o, finishes (goproxy_ServeHTTP (BuildProxy config) req) l o ↔
         finishes (proxy_ServeHTTP config req) l o.
Proof.
  assert (goproxy_ServeHTTP (BuildProxy config) req ≡ proxy_ServeHTTP config req) as H.
  { unfold goproxy_ServeHTTP, proxy_ServeHTTP, goproxy_http, serve_http. simpl.
    repeat case_match; try done; first [apply handleHttps_serves|apply goproxy_absolute_serves]. }
  split_and!; [done|intros w|intros l o]; by rewrite H.
Qed.
End equivalence.
End server.
