(* ===== verification/Exchange.v ===== *)
(** * The exchange of an HTTP request on its connection

    [persistConn] of [src/vendor/github.com/elazarl/goproxy/transport/transport.go]:
    the goroutine of the request sends it ([roundTrip]) and reads the body of
    the response, another one reads the response from the connection
    ([readLoop]).  They share a count of expected responses, two channels, the
    flag [broken] and the function [fn] that the end of the body triggers.

    The system is the connection tracker of [Conntrack.v] under any use, with
    the transport's pool and the exchanges that are under way.  With the
    setting of [BuildProxy] the pool stays empty ([no_connection_reuse]), and
    the theorems say what becomes of every exchange and of its connection.  No
    read or write has a deadline: those that a peer can hold up are [x_waits].
    The last range of [runServer] closes connections here, too ([xs_range]). *)

From S2P Require Import Prelude GoStrings GoNet Acl Http Config Classify Conntrack Proxy Serve Safety Upstream GoProxy.

(** ** State *)

(** What a response says: [resp.Close], and whether it has a body
    ([ContentLength] is not zero). *)
Record RespInfo := mkRespInfo { ri_Close : bool; ri_hasBody : bool }.

Abbreviation answer := (result RespInfo).

(** [readLoop]: before [Peek], before the test of [numExpectedResponses],
    before taking a request from [reqch], before [ReadResponse], before the
    answer is sent (and whether the loop waits for the body then), waiting for
    the body, before another round, returned. *)
Inductive Loop :=
| LPeek
| LCheck
| LTake
| LRead
| LReply (a : answer) (wait : bool)
| LWaitBody
| LAgain
| LReturned.

(** [roundTrip] and what [ServeHTTP] does with the response: before counting,
    before writing, before sending on [reqch], waiting on the answer's channel,
    before uncounting, copying the body, before closing the body, inside [fn]
    before [waitForBodyRead <- true] (and whether [Close] is still to come),
    returned. *)
Inductive Trip :=
| TCount
| TWrite
| TSend
| TWait
| TUncount (a : answer)
| TBody
| TClose
| TSignal (close : bool)
| TReturned.

(** [x_answer] is a record of what [ReadResponse] gave; nothing depends on
    it. *)
Record Exchange := mkExchange {
  x_conn : nat;
  x_key : string;
  x_reqClose : bool;             (* rc.req.Close *)
  x_expected : Z;                (* numExpectedResponses *)
  x_broken : bool;
  x_alive : bool;
  x_reqch : bool;                (* a request is in the channel *)
  x_ch : option answer;
  x_fn : bool;                   (* fn is not nil *)
  x_loop : Loop;
  x_trip : Trip;
  x_answer : option answer
}.

Definition new_exchange (c : nat) (key : string) (reqClose : bool) : Exchange :=
  mkExchange c key reqClose 0 false true false None false LPeek TCount None.

Definition at_loop (x : Exchange) (l : Loop) : Exchange :=
  mkExchange (x_conn x) (x_key x) (x_reqClose x) (x_expected x) (x_broken x) (x_alive x)
    (x_reqch x) (x_ch x) (x_fn x) l (x_trip x) (x_answer x).
Definition at_trip (x : Exchange) (t : Trip) : Exchange :=
  mkExchange (x_conn x) (x_key x) (x_reqClose x) (x_expected x) (x_broken x) (x_alive x)
    (x_reqch x) (x_ch x) (x_fn x) (x_loop x) t (x_answer x).
Definition set_expected (x : Exchange) (n : Z) : Exchange :=
  mkExchange (x_conn x) (x_key x) (x_reqClose x) n (x_broken x) (x_alive x)
    (x_reqch x) (x_ch x) (x_fn x) (x_loop x) (x_trip x) (x_answer x).
Definition set_broken (x : Exchange) : Exchange :=
  mkExchange (x_conn x) (x_key x) (x_reqClose x) (x_expected x) true (x_alive x)
    (x_reqch x) (x_ch x) (x_fn x) (x_loop x) (x_trip x) (x_answer x).
Definition set_alive (x : Exchange) (b : bool) : Exchange :=
  mkExchange (x_conn x) (x_key x) (x_reqClose x) (x_expected x) (x_broken x) b
    (x_reqch x) (x_ch x) (x_fn x) (x_loop x) (x_trip x) (x_answer x).
Definition set_reqch (x : Exchange) (b : bool) : Exchange :=
  mkExchange (x_conn x) (x_key x) (x_reqClose x) (x_expected x) (x_broken x) (x_alive x)
    b (x_ch x) (x_fn x) (x_loop x) (x_trip x) (x_answer x).
Definition set_ch (x : Exchange) (a : option answer) : Exchange :=
  mkExchange (x_conn x) (x_key x) (x_reqClose x) (x_expected x) (x_broken x) (x_alive x)
    (x_reqch x) a (x_fn x) (x_loop x) (x_trip x) (x_answer x).
Definition set_fn (x : Exchange) (b : bool) : Exchange :=
  mkExchange (x_conn x) (x_key x) (x_reqClose x) (x_expected x) (x_broken x) (x_alive x)
    (x_reqch x) (x_ch x) b (x_loop x) (x_trip x) (x_answer x).
Definition set_answer (x : Exchange) (a : answer) : Exchange :=
  mkExchange (x_conn x) (x_key x) (x_reqClose x) (x_expected x) (x_broken x) (x_alive x)
    (x_reqch x) (x_ch x) (x_fn x) (x_loop x) (x_trip x) (Some a).

(** ** Moves *)

(** The clock and the socket when the connection is closed. *)
Record Closing := mkClosing { cl_end : Z; cl_idle_now : Z; cl_err : option error }.

(** [persistConn.close]. *)
Definition pc_close (k : Closing) (x : Exchange) (s : TrackState) : Exchange * TrackState :=
  (set_broken x, (Close s (x_conn x) (cl_end k) (cl_idle_now k) (cl_err k)).1).

(** [if !pc.t.putIdleConn(pc) { alive = false }] *)
Definition put_back (k : Closing) (x : Exchange) (t : Pool) (s : TrackState)
    : Exchange * Pool * TrackState :=
  let '(t, (kept, closes)) := putIdleConn t (x_key x) (x_conn x) (x_broken x) in
  let '(x, s) := if closes then pc_close k x s else (x, s) in
  (if kept then x else set_alive x false, t, s).

(** What reading the body, or writing what was read to the client, gives. *)
Inductive BodyRead := BodyMore | BodyEOF | BodyError.

Inductive XMove :=
| XPeek
| XCheck (k : Closing)
| XTake
| XRead (a : answer) (k : Closing)
| XReply
| XCount
| XWrite (err : option error) (k : Closing)
| XSend
| XGet
| XUncount
| XBody (r : BodyRead) (k : Closing)
| XClose (err : option error) (k : Closing)
| XSignal.

Definition waits_body (reqClose : bool) (a : answer) : bool :=
  match a with
  | Ok info => negb (ri_Close info || reqClose) && ri_hasBody info
  | Fail _ => false
  end.

(** [ReadResponse] and what follows it up to the sending of the answer. *)
Definition loop_read (a : answer) (k : Closing) (x : Exchange) (t : Pool) (s : TrackState)
    : Exchange * Pool * TrackState :=
  let x := set_answer x a in
  let '(x, t, s) :=
    match a with
    | Fail _ => let '(x, s) := pc_close k x s in (set_alive x false, t, s)
    | Ok info =>
        if ri_Close info || x_reqClose x then (set_alive x false, t, s)
        else if ri_hasBody info then (set_fn x true, t, s)
        else put_back k x t s
    end in
  (at_loop x (LReply a (waits_body (x_reqClose x) a)), t, s).

(** [fn] up to [waitForBodyRead <- true]; [close] says whether [Close] is still
    to come. *)
Definition run_fn (close : bool) (k : Closing) (x : Exchange) (t : Pool) (s : TrackState)
    : Exchange * Pool * TrackState :=
  let '(x, t, s) := put_back k (set_fn x false) t s in (at_trip x (TSignal close), t, s).

Definition next_round (x : Exchange) : Loop := if x_alive x then LAgain else LReturned.

(** One move of one of the two goroutines, [None] when it cannot move so;
    [XSignal] is the rendezvous on [waitForBodyRead]. *)
Definition x_move (mv : XMove) (x : Exchange) (t : Pool) (s : TrackState)
    : option (Exchange * Pool * TrackState) :=
  match mv, x_loop x, x_trip x with
  | XPeek, LPeek, _ => Some (at_loop x LCheck, t, s)
  | XCheck k, LCheck, _ =>
      if x_expected x =? 0
      then let '(x, s) := pc_close k x s in Some (at_loop x LReturned, t, s)
      else Some (at_loop x LTake, t, s)
  | XTake, LTake, _ =>
      if x_reqch x then Some (at_loop (set_reqch x false) LRead, t, s) else None
  | XRead a k, LRead, _ => Some (loop_read a k x t s)
  | XReply, LReply a wait, _ =>
      let x := set_ch x (Some a) in
      Some (at_loop x (if wait then LWaitBody else next_round x), t, s)
  | XCount, _, TCount => Some (at_trip (set_expected x (x_expected x + 1)) TWrite, t, s)
  | XWrite err k, _, TWrite =>
      match err with
      | Some _ => let '(x, s) := pc_close k x s in Some (at_trip x TReturned, t, s)
      | None => Some (at_trip x TSend, t, s)
      end
  | XSend, _, TSend => Some (at_trip (set_reqch x true) TWait, t, s)
  | XGet, _, TWait =>
      match x_ch x with
      | Some a => Some (at_trip (set_ch x None) (TUncount a), t, s)
      | None => None
      end
  | XUncount, _, TUncount a =>
      let x := set_expected x (x_expected x - 1) in
      Some (at_trip x (if is_ok a then TBody else TReturned), t, s)
  | XBody r k, _, TBody =>
      match r with
      | BodyMore => Some (x, t, s)
      | BodyEOF => if x_fn x then Some (run_fn true k x t s) else Some (at_trip x TClose, t, s)
      | BodyError => Some (at_trip x TClose, t, s)
      end
  | XClose err k, _, TClose =>
      if x_fn x && bool_decide (err = None) then Some (run_fn false k x t s)
      else Some (at_trip x TReturned, t, s)
  | XSignal, LWaitBody, TSignal close =>
      Some (at_loop (at_trip x (if close then TClose else TReturned)) (next_round x), t, s)
  | _, _, _ => None
  end.

(** ** The system *)
Record XState := mkXState {
  xs_track : TrackState;
  xs_pool : Pool;
  xs_list : list Exchange;
  xs_reused : bool;          (* a connection was taken from the pool *)
  xs_ranged : gset nat       (* visited by the last range of runServer *)
}.

Definition xconns (xs : list Exchange) : gset nat := list_to_set (x_conn <$> xs).

Definition is_broken (xs : list Exchange) (c : nat) : bool :=
  existsb (λ x, Nat.eqb (x_conn x) c && x_broken x) xs.

(** What others do with the tracker: connections of their own, and the reads
    and writes of all. *)
Inductive other_step (busy : gset nat) (s : TrackState) : TrackState → Prop :=
| other_new id conn role host now start :
    ts_heap s !! id = None →
    other_step busy s (NewInstrumentedConn s id conn role host now start)
| other_close id end_ idle_now err :
    id ∉ busy → other_step busy s (Close s id end_ idle_now err).1
| other_read id now n err : 0 ≤ n → other_step busy s (Read s id now n err).1
| other_write id now n err : 0 ≤ n → other_step busy s (Write s id now n err).1.

(** [xs_range] is a visit of the last range of [runServer], of any
    connection. *)
Inductive x_step (s : XState) : XState → Prop :=
| xs_other s' :
    other_step (xconns (xs_list s)) (xs_track s) s' →
    x_step s (mkXState s' (xs_pool s) (xs_list s) (xs_reused s) (xs_ranged s))
| xs_dial key c conn role host now start reqClose t :
    getIdleConn (xs_pool s) key (is_broken (xs_list s)) = (t, None) →
    ts_heap (xs_track s) !! c = None →
    x_step s (mkXState (NewInstrumentedConn (xs_track s) c conn role host now start) t
                (xs_list s ++ [new_exchange c key reqClose]) (xs_reused s) (xs_ranged s))
| xs_reuse key c t :
    getIdleConn (xs_pool s) key (is_broken (xs_list s)) = (t, Some c) →
    x_step s (mkXState (xs_track s) t (xs_list s) true (xs_ranged s))
| xs_move j mv x x' t s' :
    xs_list s !! j = Some x → x_move mv x (xs_pool s) (xs_track s) = Some (x', t, s') →
    x_step s (mkXState s' t (<[j := x']> (xs_list s)) (xs_reused s) (xs_ranged s))
| xs_range c end_ idle_now err :
    is_Some (ts_heap (xs_track s) !! c) →
    x_step s (mkXState (Close (xs_track s) c end_ idle_now err).1 (xs_pool s) (xs_list s)
                (xs_reused s) ({[c]} ∪ xs_ranged s)).

Definition boot_x (s : TrackState) (t : Pool) : XState := mkXState s t [] false ∅.

(** The pool of the transport that [BuildProxy] makes. *)
Definition new_pool (disable : bool) : Pool := mkPool disable 0 ∅.

(** ** What holds of an exchange *)

(** Before an answer was read. *)
Definition no_answer (x : Exchange) : Prop :=
  x_alive x = true ∧ x_ch x = None ∧ x_fn x = false ∧ x_answer x = None.

(** The goroutine of the request until it waits; [closed] says whether the
    connection is closed. *)
Definition sending (x : Exchange) (closed : bool) : Prop :=
  match x_trip x with
  | TCount => x_expected x = 0 ∧ x_reqch x = false ∧ closed = false
  | TWrite | TSend => x_expected x = 1 ∧ x_reqch x = false ∧ closed = false
  | TWait => x_expected x = 1 ∧ x_reqch x = true ∧ closed = false
  | TReturned => x_expected x = 1 ∧ x_reqch x = false ∧ closed = true
  | _ => False
  end.

(** The connection after an answer was read: an error closes it, a response
    that ends the connection leaves it, any other one closes it when its body
    has been read. *)
Definition got_answer (x : Exchange) (closed : bool) (a : answer) : Prop :=
  x_answer x = Some a ∧ x_reqch x = false ∧
  match a with
  | Fail _ => closed = true ∧ x_alive x = false ∧ x_fn x = false
  | Ok info =>
      if ri_Close info || x_reqClose x
      then closed = false ∧ x_alive x = false ∧ x_fn x = false
      else if ri_hasBody info then closed = negb (x_fn x) ∧ x_alive x = x_fn x
      else closed = true ∧ x_alive x = false ∧ x_fn x = false
  end.

(** The goroutine of the request, once the answer is in its channel. *)
Definition receiving (x : Exchange) (a : answer) : Prop :=
  match x_trip x with
  | TWait => x_ch x = Some a ∧ x_expected x = 1 ∧ x_fn x = waits_body (x_reqClose x) a
  | TUncount b => b = a ∧ x_ch x = None ∧ x_fn x = waits_body (x_reqClose x) a
  | TBody => is_ok a = true ∧ x_fn x = waits_body (x_reqClose x) a
  | TClose => is_ok a = true
  | TSignal _ => False
  | TReturned => True
  | _ => False
  end.

(** All of it; the connection is closed by the exchange exactly when it is
    broken. *)
Definition exchange_ok (x : Exchange) : Prop :=
  let closed := x_broken x in
  match x_loop x with
  | LPeek | LCheck => no_answer x ∧ sending x closed
  | LTake => no_answer x ∧ sending x closed ∧ x_trip x ≠ TCount
  | LRead => no_answer x ∧ x_trip x = TWait ∧ x_expected x = 1 ∧ x_reqch x = false ∧ closed = false
  | LReply a w =>
      got_answer x closed a ∧ x_trip x = TWait ∧ x_expected x = 1 ∧ x_ch x = None ∧
      w = waits_body (x_reqClose x) a ∧ x_fn x = w
  | LWaitBody =>
      match x_answer x with
      | Some a =>
          got_answer x closed a ∧ waits_body (x_reqClose x) a = true ∧
          match x_trip x with
          | TSignal _ => x_fn x = false
          | _ => x_fn x = true ∧ receiving x a
          end
      | None => False
      end
  | LAgain => False
  | LReturned =>
      match x_answer x with
      | Some a =>
          got_answer x closed a ∧ x_fn x = false ∧
          if waits_body (x_reqClose x) a
          then match x_trip x with TClose | TReturned => True | _ => False end
          else receiving x a
      | None =>
          x_alive x = true ∧ x_ch x = None ∧ x_fn x = false ∧ closed = true ∧
          match x_trip x with
          | TCount | TWrite | TSend => x_reqch x = false
          | TWait => x_reqch x = true
          | TReturned => True
          | _ => False
          end
      end
  end.

Definition xconn_closed (s : TrackState) (c : nat) : bool :=
  match ts_heap s !! c with Some ic => ic_closed ic | None => true end.

Lemma Close_closes s c e i err ic :
  ts_heap s !! c = Some ic → xconn_closed (Close s c e i err).1 c = true.
Proof.
  intros Hc. unfold xconn_closed.
  by destruct (Close_is_closed s c e i err ic Hc) as (ic' & -> & ->).
Qed.

Lemma put_back_disabled k x t s :
  DisableKeepAlives t = true →
  put_back k x t s = (set_alive (pc_close k x s).1 false, t, (pc_close k x s).2).
Proof. intros Hd. unfold put_back. by rewrite putIdleConn_disabled. Qed.

(** A move keeps all that, when the transport keeps no connections alive. *)
Lemma x_move_ok mv x t s x' t' s' :
  DisableKeepAlives t = true → x_move mv x t s = Some (x', t', s') → exchange_ok x →
  t' = t ∧ x_conn x' = x_conn x ∧ x_reqClose x' = x_reqClose x ∧ exchange_ok x' ∧
  (s' = s ∧ x_broken x' = x_broken x ∨
   (∃ e i err, s' = (Close s (x_conn x) e i err).1) ∧ x_broken x' = true).
Proof.
  intros Hd Hm Hok.
  destruct x as [c key rq n br al rc ch fn l tr an].
  unfold x_move, loop_read, run_fn in Hm.
  unfold exchange_ok in Hok.
  destruct mv, l; simpl in *; try done; destruct tr; simpl in *; try done.
  all: rewrite ?put_back_disabled in Hm by done; unfold no_answer, sending, pc_close in *; simpl in *.
  all: repeat case_match; simplify_eq/=.
  all: try (split_and!; [done|done|done| |first [by left|right; eauto 10]]).
  all: unfold exchange_ok, no_answer, sending in *; simpl.
  all: try solve [intuition (congruence || lia)].
  all: unfold got_answer, receiving, waits_body, next_round in *; simpl in *; destruct_and?; simplify_eq/=.
  all: repeat case_match; simplify_eq/=; destruct_and?; simplify_eq/=.
  all: try solve [intuition (congruence || lia)].
Qed.

(** ** Runs of the system *)

(** The connection stays, open or closed as it was. *)
Definition stays (c : nat) (s s' : TrackState) : Prop :=
  ∀ ic, ts_heap s !! c = Some ic →
  ∃ ic', ts_heap s' !! c = Some ic' ∧ ic_closed ic' = ic_closed ic.

#[global] Instance stays_preorder c : PreOrder (stays c).
Proof.
  split; [by intros s ic ?; eauto|].
  intros s1 s2 s3 H12 H23 ic (ic2 & H2 & Hc2)%H12.
  destruct (H23 ic2 H2) as (ic3 & H3 & Hc3). exists ic3. split; [done|congruence].
Qed.

Lemma stays_closed c s s' ic :
  ts_heap s !! c = Some ic → stays c s s' →
  xconn_closed s' c = xconn_closed s c ∧ ∃ ic', ts_heap s' !! c = Some ic'.
Proof.
  intros Hic Hk. destruct (Hk ic Hic) as (ic' & Hic' & Hc). unfold xconn_closed.
  rewrite Hic, Hic'. eauto.
Qed.

Lemma stays_Close c s id e i err : id ≠ c → stays c s (Close s id e i err).1.
Proof.
  intros Hne ic Hic. exists ic. split; [|done]. rewrite <-Hic.
  destruct (ts_heap s !! id) as [ic0|] eqn:Hid; [|unfold Close; by rewrite Hid].
  destruct (ic_closed ic0) eqn:Hcl; [by rewrite (Close_closed s id ic0)|].
  destruct (Close_open s id ic0 e i err Hid Hcl) as (ms & l & -> & _). simpl.
  by apply lookup_insert_ne.
Qed.

Lemma stays_new c s id conn role host now start :
  ts_heap s !! id = None → stays c s (NewInstrumentedConn s id conn role host now start).
Proof.
  intros Hid ic Hic. exists ic. split; [|done]. simpl. rewrite lookup_insert_ne; congruence.
Qed.

Lemma other_step_stays busy c s s' : other_step busy s s' → c ∈ busy → stays c s s'.
Proof.
  intros Hs Hc. destruct Hs as [id conn role host now start Hid|id e i err Hid|id now n err _|id now n err _].
  - by apply stays_new.
  - apply stays_Close. set_solver.
  - intros ic Hic. unfold Read. destruct (ts_heap s !! id) eqn:Hid; simpl; [|eauto].
    rewrite lookup_insert. case_decide; [|eauto]. simplify_eq. eauto.
  - intros ic Hic. unfold Write. destruct (ts_heap s !! id) eqn:Hid; simpl; [|eauto].
    rewrite lookup_insert. case_decide; [|eauto]. simplify_eq. eauto.
Qed.

Lemma other_step_ct busy s s' : other_step busy s s' → ct_step s s'.
Proof. destruct 1; by constructor. Qed.

(** The exchange [x] and its connection, when [ranged] were visited by the last
    range. *)
Definition in_order (s : TrackState) (ranged : gset nat) (x : Exchange) : Prop :=
  (∃ ic, ts_heap s !! x_conn x = Some ic) ∧
  xconn_closed s (x_conn x) = x_broken x || bool_decide (x_conn x ∈ ranged) ∧ exchange_ok x.

Lemma in_order_stays s s' ranged x :
  stays (x_conn x) s s' → in_order s ranged x → in_order s' ranged x.
Proof.
  intros Hk ([ic Hic] & Hc & Hok). destruct (stays_closed _ _ _ _ Hic Hk) as [Hc' Hic'].
  split_and!; [done| |done]. by rewrite Hc'.
Qed.

Record x_inv (s : XState) : Prop := mkXInv {
  xi_track : ct_inv (xs_track s);
  xi_disabled : DisableKeepAlives (xs_pool s) = true;
  xi_empty : idleConn (xs_pool s) = ∅;
  xi_reused : xs_reused s = false;
  xi_distinct : NoDup (x_conn <$> xs_list s);
  xi_ranged c : c ∈ xs_ranged s → is_Some (ts_heap (xs_track s) !! c);
  xi_order x : x ∈ xs_list s → in_order (xs_track s) (xs_ranged s) x
}.

Lemma elem_of_xconns x xs : x ∈ xs → x_conn x ∈ xconns xs.
Proof. intros Hx. unfold xconns. rewrite elem_of_list_to_set, list_elem_of_fmap. eauto. Qed.

(** Connections are never forgotten. *)
Lemma ct_step_known s s' c : ct_step s s' → is_Some (ts_heap s !! c) → is_Some (ts_heap s' !! c).
Proof.
  intros Hs [ic Hc]. destruct Hs as [id conn role host now start Hid|id e i err|id now n err _|id now n err _].
  - simpl. rewrite lookup_insert_is_Some. right. split; [congruence|eauto].
  - destruct (decide (id = c)) as [->|Hne].
    + by destruct (Close_is_closed s c e i err ic Hc) as (ic' & -> & _).
    + by destruct (stays_Close c s id e i err Hne ic Hc) as (ic' & -> & _).
  - unfold Read. destruct (ts_heap s !! id); simpl; [|eauto].
    rewrite lookup_insert_is_Some'. right. eauto.
  - unfold Write. destruct (ts_heap s !! id); simpl; [|eauto].
    rewrite lookup_insert_is_Some'. right. eauto.
Qed.

(** A close of a connection, and the exchanges with others. *)
Lemma in_order_Close s c e i err ranged x :
  c ≠ x_conn x → in_order s ranged x → in_order (Close s c e i err).1 ranged x.
Proof. intros Hne. apply in_order_stays. by apply stays_Close. Qed.

(** The last range closes a connection. *)
Lemma in_order_range s c e i err ranged x :
  in_order s ranged x → in_order (Close s c e i err).1 ({[c]} ∪ ranged) x.
Proof.
  intros H. destruct (decide (c = x_conn x)) as [->|Hne].
  - destruct H as ([ic Hic] & Hc & Hok).
    destruct (Close_is_closed s (x_conn x) e i err ic Hic) as (ic' & Hic' & Hcl).
    split_and!; [eauto| |done]. unfold xconn_closed. rewrite Hic', Hcl.
    rewrite bool_decide_true by set_solver. by rewrite orb_true_r.
  - apply (in_order_Close _ c e i err) in H as (Hic & Hc & Hok); [|done]. split_and!; [done| |done].
    rewrite Hc. f_equal. apply bool_decide_ext. set_solver.
Qed.

(** A move of an exchange, seen by itself and by another one. *)
Lemma in_order_move s s' ranged x x' :
  in_order s ranged x → x_conn x' = x_conn x → exchange_ok x' →
  (s' = s ∧ x_broken x' = x_broken x ∨
   (∃ e i err, s' = (Close s (x_conn x) e i err).1) ∧ x_broken x' = true) →
  in_order s' ranged x'.
Proof.
  intros ([ic Hic] & Hc & _) Hx Hok [[-> Hb]|[(e & i & err & ->) Hb]]; split_and!; rewrite ?Hx; try done.
  - eauto.
  - by rewrite Hb.
  - by destruct (Close_is_closed s (x_conn x) e i err ic Hic) as (ic' & ? & _); eauto.
  - rewrite Hb. by eapply Close_closes.
Qed.

(** What one step does to the exchanges: one more, or one that moved. *)
Lemma x_inv_step s s' : x_step s s' → x_inv s → x_inv s'.
Proof.
  intros Hs [Ht Hd He Hr Hn Hrg Ho]. destruct Hs as
    [s' Hs|key c conn role host now start rq t Hg Hc|key c t Hg|j mv x x' t s' Hj Hm|c e i err Hc].
  - split; simpl; try done; [by eapply ct_inv_step; [eapply other_step_ct|]| |].
    + intros c Hc. eapply ct_step_known; [by eapply other_step_ct|auto].
    + intros x Hx. eapply in_order_stays; [|by apply Ho].
      by eapply other_step_stays, elem_of_xconns.
  - rewrite getIdleConn_empty in Hg by done. simplify_eq.
    assert (∀ x, x ∈ xs_list s → x_conn x ≠ c) as Hfresh.
    { intros x Hx <-. destruct (Ho x Hx) as [[ic Hic] _]. congruence. }
    split; simpl; try done.
    + by apply ct_inv_new.
    + rewrite fmap_app. apply NoDup_app. split_and!; [done| |apply NoDup_singleton].
      intros c' (x & -> & Hx)%list_elem_of_fmap Heq%list_elem_of_singleton.
      by apply (Hfresh x Hx).
    + intros c' Hc'. apply lookup_insert_is_Some'. right. auto.
    + intros x [Hx| ->%list_elem_of_singleton]%elem_of_app.
      * eapply in_order_stays; [by apply stays_new|by apply Ho].
      * split_and!; simpl; [rewrite lookup_insert_eq; by eexists| |done].
        unfold xconn_closed. simpl. rewrite lookup_insert_eq. simpl. symmetry.
        apply bool_decide_eq_false. intros Hin. destruct (Hrg c Hin). congruence.
  - by rewrite getIdleConn_empty in Hg.
  - pose proof (list_elem_of_lookup_2 _ _ _ Hj) as Hx. pose proof (Ho x Hx) as Hox.
    destruct (x_move_ok mv x _ _ _ _ _ Hd Hm (proj2 (proj2 Hox))) as (-> & Hxc & _ & Hok' & Hs').
    split; simpl; try done.
    + destruct Hs' as [[-> _]|[(e & i & err & ->) _]]; [done|]. by apply ct_owed_close.
    + rewrite list_fmap_insert, Hxc, list_insert_id; [done|]. by rewrite list_lookup_fmap, Hj.
    + intros c Hc. destruct Hs' as [[-> _]|[(e & i & err & ->) _]]; [auto|].
      eapply ct_step_known; [apply step_close|auto].
    + intros y (k & Hk)%list_elem_of_lookup.
      apply list_lookup_insert_Some in Hk as [(<- & <- & _)|[Hne Hk]].
      * by apply (in_order_move (xs_track s) _ _ x).
      * pose proof (list_elem_of_lookup_2 _ _ _ Hk) as Hy.
        destruct Hs' as [[-> _]|[(e & i & err & ->) _]]; [by apply Ho|].
        apply in_order_Close; [|by apply Ho]. intros Heq.
        apply Hne. eapply NoDup_lookup; [exact Hn| |];
          by rewrite list_lookup_fmap, ?Hj, ?Hk; simpl; rewrite ?Heq.
  - split; simpl; try done.
    + by apply ct_owed_close.
    + intros c' [->%elem_of_singleton|Hc']%elem_of_union;
        (eapply ct_step_known; [apply step_close|auto]).
    + intros x Hx. by apply in_order_range, Ho.
Qed.

Lemma x_inv_boot s : ct_inv s → x_inv (boot_x s (new_pool true)).
Proof.
  intros Hs. split; simpl; try done; [apply NoDup_nil_2|].
  intros x Hx. by apply elem_of_nil in Hx.
Qed.

Lemma x_inv_rtc s s' : rtc x_step s s' → x_inv s → x_inv s'.
Proof. induction 1; eauto using x_inv_step. Qed.

(** ** Progress *)

(** How far an exchange is from its end. *)
Definition loop_rank (l : Loop) : nat :=
  match l with
  | LPeek => 6 | LCheck => 5 | LTake => 4 | LRead => 3 | LReply _ _ => 2 | LWaitBody => 1
  | LAgain | LReturned => 0
  end.
Definition trip_rank (t : Trip) : nat :=
  match t with
  | TCount => 9 | TWrite => 8 | TSend => 7 | TWait => 6 | TUncount _ => 5 | TBody => 4
  | TSignal true => 3 | TClose => 2 | TSignal false => 1 | TReturned => 0
  end.
Definition x_rank (x : Exchange) : nat := loop_rank (x_loop x) + trip_rank (x_trip x).

Lemma put_back_where k x t s :
  x_loop (put_back k x t s).1.1 = x_loop x ∧ x_trip (put_back k x t s).1.1 = x_trip x.
Proof. unfold put_back. by destruct (putIdleConn _ _ _ _) as [t' [[] []]]. Qed.

Lemma x_move_rank mv x t s x' t' s' :
  x_move mv x t s = Some (x', t', s') → (∀ k, mv ≠ XBody BodyMore k) → (x_rank x' < x_rank x)%nat.
Proof.
  intros Hm Hb. unfold x_rank.
  destruct mv; unfold x_move, loop_read, run_fn, next_round in Hm;
    destruct (x_loop x) eqn:Hl; try done; destruct (x_trip x) eqn:Ht; try done; simpl in Hm.
  all: try match type of Hm with context [put_back ?k ?y ?t ?s] =>
         destruct (put_back_where k y t s) as [Hpl Hpt];
         destruct (put_back k y t s) as [[??]?] end; simpl in *.
  all: repeat case_match; simplify_eq/=; rewrite ?Hpl, ?Hpt, ?Hl, ?Ht; simpl; try lia.
  all: by edestruct Hb.
Qed.

Lemma x_rank_bound x : (x_rank x ≤ 15)%nat.
Proof. unfold x_rank. destruct (x_loop x); destruct (x_trip x) as [| | | | | | |[]|]; simpl; lia. Qed.

(** ** How an exchange ends *)

(** A move that may have to wait for a peer: until the server sends, takes the
    request, or sends the rest of a body, or the client takes what was read.
    No deadline is set on any of them. *)
Definition x_waits (mv : XMove) : bool :=
  match mv with XPeek | XRead _ _ | XWrite _ _ | XBody _ _ | XClose _ _ => true | _ => false end.

(** Nothing is left to do that does not wait for a peer. *)
Definition no_own_move (x : Exchange) (t : Pool) (s : TrackState) : Prop :=
  ∀ mv, x_waits mv = false → x_move mv x t s = None.

(** One of the goroutines stands at such a call. *)
Definition awaits (x : Exchange) : bool :=
  match x_loop x with LPeek | LRead => true | _ => false end ||
  match x_trip x with TWrite | TBody | TClose => true | _ => false end.

Inductive Fate := Finished | Leaked | RequestHangs | LoopHangs | BothLeak.

(** What has become of an exchange that makes no more moves: both goroutines
    returned and closed the connection, or left it open after a response or
    request that says that it ends the connection; the request waits for an
    answer that does not come; the loop waits for a request that does not come;
    the loop waits for a body that was not read to its end, with the connection
    open. *)
Definition x_fate (x : Exchange) : option Fate :=
  match x_loop x, x_trip x, x_broken x with
  | LReturned, TReturned, true => Some Finished
  | LReturned, TReturned, false =>
      match x_answer x with
      | Some (Ok info) => if ri_Close info || x_reqClose x then Some Leaked else None
      | _ => None
      end
  | LReturned, TWait, true => if x_answer x then None else Some RequestHangs
  | LTake, TReturned, true => Some LoopHangs
  | LWaitBody, TReturned, false => Some BothLeak
  | _, _, _ => None
  end.

Definition some_clock : Closing := mkClosing 0 0 None.

Lemma awaits_moves x t s : awaits x = true → ∃ mv, is_Some (x_move mv x t s).
Proof.
  unfold awaits. intros Ha. destruct (x_loop x) eqn:Hl; simpl in Ha.
  1: exists XPeek; unfold x_move; by rewrite Hl.
  3: exists (XRead (Fail (Err "")) some_clock); unfold x_move; by rewrite Hl.
  all: destruct (x_trip x) eqn:Ht; try done.
  all: first
    [ by exists (XWrite None some_clock); unfold x_move; rewrite ?Hl, Ht; eexists
    | by exists (XBody BodyMore some_clock); unfold x_move; rewrite ?Hl, Ht; eexists
    | exists (XClose (Some (Err "")) some_clock); unfold x_move; rewrite ?Hl, Ht;
      rewrite (bool_decide_false (Some _ = None)), andb_false_r by done; by eexists ].
Qed.

Lemma no_own_move_fate x t s :
  exchange_ok x → no_own_move x t s → awaits x = false → is_Some (x_fate x).
Proof.
  intros Hok Hno Ha. unfold exchange_ok in Hok.
  pose proof (Hno (XCheck some_clock) eq_refl) as H2. pose proof (Hno XTake eq_refl) as H3.
  pose proof (Hno XReply eq_refl) as H5. pose proof (Hno XCount eq_refl) as H6.
  pose proof (Hno XSend eq_refl) as H8. pose proof (Hno XGet eq_refl) as H9.
  pose proof (Hno XUncount eq_refl) as H10. pose proof (Hno XSignal eq_refl) as H13.
  clear Hno. unfold awaits, x_fate, x_move, no_answer, sending, got_answer, receiving in *.
  destruct (x_loop x); try done; destruct (x_trip x); try done; simpl in *.
  all: repeat (case_match; simplify_eq/=; destruct_and?); try done; try by eexists.
  all: destruct_and?; try done; destruct (x_fn x); simpl in *; congruence.
Qed.

(** The fates that leave the connection open. *)
Definition leaves_open (f : Fate) : bool :=
  match f with Leaked | BothLeak => true | _ => false end.

Lemma fate_open x f : x_fate x = Some f → leaves_open f = negb (x_broken x).
Proof. unfold x_fate. intros H. repeat case_match; by simplify_eq. Qed.

(** The tracker holds the connection of an exchange that is not closed. *)
Lemma x_tracked s x :
  x_inv s → x ∈ xs_list s →
  x_conn x ∈ tr_Map (ts_tracker (xs_track s)) ↔ x_broken x = false ∧ x_conn x ∉ xs_ranged s.
Proof.
  intros Hi Hx. destruct (xi_order _ Hi x Hx) as ([ic Hic] & Hc & _).
  rewrite (inv_map _ (xi_track _ Hi)). unfold open_conn, xconn_closed in *. rewrite Hic in *.
  split.
  - intros (ic' & [= <-] & Ho). rewrite Ho in Hc. symmetry in Hc.
    apply orb_false_iff in Hc as [-> Hn%bool_decide_eq_false]. done.
  - intros [Hb Hn]. exists ic. split; [done|]. by rewrite Hc, Hb, bool_decide_false.
Qed.

(** ** Runs of the first exchange, for examples *)
Fixpoint x_run (j : nat) (mvs : list XMove) (s : XState) : option XState :=
  match mvs with
  | [] => Some s
  | mv :: mvs =>
      match xs_list s !! j with
      | None => None
      | Some x =>
          match x_move mv x (xs_pool s) (xs_track s) with
          | None => None
          | Some (x', t, k) => x_run j mvs (mkXState k t (<[j := x']> (xs_list s)) (xs_reused s) (xs_ranged s))
          end
      end
  end.

Lemma x_run_steps j mvs s s' : x_run j mvs s = Some s' → rtc x_step s s'.
Proof.
  revert s. induction mvs as [|mv mvs IH]; intros s; simpl; [by intros [= ->]|].
  destruct (xs_list s !! j) as [x|] eqn:Hj; [|done].
  destruct (x_move mv x _ _) as [[[x' t] k]|] eqn:Hm; [|done].
  intros H%IH. eapply rtc_l; [by eapply xs_move|done].
Qed.

(** One connection, dialled for a request that does not end it. *)
Definition dialled (disable : bool) : XState :=
  mkXState (NewInstrumentedConn (init_state 10 None) 0 7 "svc" "" 1 1) (new_pool disable)
    [new_exchange 0 "||http|host:80" false] false ∅.

Lemma dialled_reachable disable :
  rtc x_step (boot_x (init_state 10 None) (new_pool disable)) (dialled disable).
Proof.
  apply rtc_once.
  by apply (xs_dial (boot_x _ (new_pool disable)) "||http|host:80" 0 7 "svc" "" 1 1 false
              (new_pool disable)).
Qed.

Definition k0 : Closing := mkClosing 5 5 None.
Definition sent_request : list XMove := [XCount; XWrite None k0; XSend].
Definition answer_read (info : RespInfo) : list XMove :=
  [XPeek; XCheck k0; XTake; XRead (Ok info) k0; XReply; XGet; XUncount].

(** The state after a run, if it is one. *)
Definition end_of (disable : bool) (mvs : list XMove) : XState :=
  default (dialled disable) (x_run 0 mvs (dialled disable)).

Lemma end_of_reachable disable mvs :
  rtc x_step (boot_x (init_state 10 None) (new_pool disable)) (end_of disable mvs).
Proof.
  etrans; [apply dialled_reachable|]. unfold end_of.
  destruct (x_run 0 mvs (dialled disable)) eqn:H; [by eapply x_run_steps|apply rtc_refl].
Qed.

(** A normal exchange; one whose response says that it ends the connection; a
    server that speaks or closes first; a write that fails; a body that is cut
    short. *)
Definition run_of (f : Fate) : list XMove :=
  match f with
  | Finished => sent_request ++ answer_read (mkRespInfo false true) ++
                [XBody BodyMore k0; XBody BodyEOF k0; XSignal; XClose None k0]
  | Leaked => sent_request ++ answer_read (mkRespInfo true true) ++
              [XBody BodyEOF k0; XClose None k0]
  | RequestHangs => [XPeek; XCheck k0] ++ sent_request
  | LoopHangs => [XCount; XWrite (Some (Err "broken pipe")) k0; XPeek; XCheck k0]
  | BothLeak => sent_request ++ answer_read (mkRespInfo false true) ++
                [XBody BodyMore k0; XBody BodyError k0; XClose (Some (Err "unexpected EOF")) k0]
  end.

Definition end_fate (f : Fate) : option Fate := xs_list (end_of true (run_of f)) !! 0%nat ≫= x_fate.

Lemma end_fate_ok f : end_fate f = Some f.
Proof. destruct f; by vm_compute. Qed.

(** ** Theorems *)

(** C9: how an exchange ends. With the transport that [BuildProxy] makes, in
    every reachable state of the tracker and the exchanges: each move brings an
    exchange nearer to its end, of at most fifteen, but for reading more of the
    body, so an exchange that goes on for ever reads a body that does not end.
    When nothing is left to do that does not wait for a peer, either a
    goroutine stands at such a call, for which no deadline is set, or no move
    is left and the exchange has one of five fates.  Both goroutines have
    returned and closed the connection; or a response or a request that says
    that it ends the connection has left it open, although nothing uses it any
    more; or a body that was not read to its end and could not be discarded
    has, and then the loop hangs as well; or the connection was readable before
    the request was counted and was taken for unsolicited, and the request
    waits for ever; or the request could not be written, and the loop waits for
    ever.  The tracker counts the connection exactly in the cases where it is
    left open, until the last range visits it.  All five happen, and so does a
    server that says nothing, for which the request waits as long as that
    lasts. *)
Theorem exchange_outcomes s0 s j x :
  ct_inv s0 → rtc x_step (boot_x s0 (new_pool true)) s → xs_list s !! j = Some x →
  (x_rank x ≤ 15)%nat ∧
  (∀ mv x' t s', x_move mv x (xs_pool s) (xs_track s) = Some (x', t, s') →
     (∀ k, mv ≠ XBody BodyMore k) → (x_rank x' < x_rank x)%nat) ∧
  (no_own_move x (xs_pool s) (xs_track s) →
     if awaits x then ∃ mv, is_Some (x_move mv x (xs_pool s) (xs_track s))
     else ∃ f, x_fate x = Some f ∧
       (x_conn x ∈ tr_Map (ts_tracker (xs_track s)) ↔
        leaves_open f = true ∧ x_conn x ∉ xs_ranged s)) ∧
  (∀ f, ∃ s' x', rtc x_step (boot_x (init_state 10 None) (new_pool true)) s' ∧
     xs_list s' !! 0%nat = Some x' ∧ x_fate x' = Some f) ∧
  ∃ s' x', rtc x_step (boot_x (init_state 10 None) (new_pool true)) s' ∧
    xs_list s' !! 0%nat = Some x' ∧ no_own_move x' (xs_pool s') (xs_track s') ∧
    x_loop x' = LPeek ∧ x_trip x' = TWait.
Proof.
  intros Hs0 Hr Hj. pose proof (x_inv_rtc _ _ Hr (x_inv_boot _ Hs0)) as Hi.
  pose proof (list_elem_of_lookup_2 _ _ _ Hj) as Hx.
  destruct (xi_order _ Hi x Hx) as (_ & _ & Hok). split_and!.
  - apply x_rank_bound.
  - intros mv x' t s'. apply x_move_rank.
  - intros Hno. destruct (awaits x) eqn:Ha; [by apply awaits_moves|].
    destruct (no_own_move_fate _ _ _ Hok Hno Ha) as [f Hf]. exists f. split; [done|].
    rewrite x_tracked, (fate_open _ _ Hf), negb_true_iff by done. done.
  - intros f. pose proof (end_fate_ok f) as H. apply bind_Some in H as (x' & Hx' & Hf).
    exists (end_of true (run_of f)), x'. split_and!; [apply end_of_reachable|done|done].
  - exists (end_of true sent_request). eexists. split_and!; [apply end_of_reachable|by vm_compute|..]; try done.
    intros mv Hw. by destruct mv.
Qed.

Lemma exchange_outcomes_witness :
  ∃ s x, rtc x_step (boot_x (init_state 10 None) (new_pool true)) s ∧
    xs_list s !! 0%nat = Some x ∧ x_fate x = Some Leaked.
Proof.
  apply (exchange_outcomes (init_state 10 None) (dialled true) 0
    (new_exchange 0 "||http|host:80" false)); [apply ct_inv_init|apply dialled_reachable|done].
Defined.

(** *** Connections that are left open *)

(** Nothing will close the connection: the response or the request said that it
    ends it, or the loop waits for a body that nobody reads any more. *)
Definition abandoned (x : Exchange) : bool :=
  match x_answer x with
  | Some (Ok info) =>
      ri_Close info || x_reqClose x ||
      match x_loop x, x_trip x with LWaitBody, TReturned => true | _, _ => false end
  | _ => false
  end.

Lemma abandoned_open x : exchange_ok x → abandoned x = true → x_broken x = false.
Proof.
  intros Hok Ha. unfold exchange_ok, abandoned, no_answer, got_answer in *.
  destruct (x_answer x) as [[info|e]|] eqn:Han; [|done..].
  destruct (ri_Close info || x_reqClose x) eqn:Hc; simpl in Ha.
  all: destruct (x_loop x); try done; destruct (x_trip x); try done; simpl in *.
  all: repeat (destruct_and?; simplify_eq/=; rewrite ?Hc in *); try done.
  all: repeat case_match; destruct_and?; simplify_eq; try done.
  by match goal with Hf : x_fn x = true, Hb : _ = negb (x_fn x) |- _ => rewrite Hb, Hf end.
Qed.

Lemma abandoned_move mv x t s x' t' s' :
  DisableKeepAlives t = true → exchange_ok x → abandoned x = true →
  x_move mv x t s = Some (x', t', s') → abandoned x' = true.
Proof.
  intros Hd Hok Ha Hm. unfold exchange_ok, abandoned, no_answer, got_answer in *.
  destruct x as [c key rq n br al rc ch fn l tr an].
  destruct an as [[info|e]|]; [|done..]. unfold x_move, loop_read, run_fn, next_round in Hm.
  destruct (ri_Close info || rq) eqn:Hc; simpl in *;
    destruct mv, l; try done; destruct tr; simpl in *; try done; rewrite ?put_back_disabled in Hm by done.
  all: destruct_and?; simplify_eq/=; repeat case_match; simplify_eq/=; rewrite ?Hc; try done.
  all: by match goal with H : _ || _ = true |- _ => rewrite H end.
Qed.

(** What a step does to an exchange, seen by its place in the list. *)
Lemma x_step_abandoned s s' j x :
  x_step s s' → x_inv s → xs_list s !! j = Some x → abandoned x = true →
  ∃ x', xs_list s' !! j = Some x' ∧ x_conn x' = x_conn x ∧ abandoned x' = true.
Proof.
  intros Hs Hi Hj Ha. pose proof Hi as [_ Hd He _ _ _ Ho].
  destruct (Ho x (list_elem_of_lookup_2 _ _ _ Hj)) as (_ & _ & Hok).
  destruct Hs as [s' _|key c conn role host now start rq t _ _|key c t Hg|i mv y y' t s' Hy Hm|c e i err _];
    simpl; [by eauto| |by eauto| |by eauto].
  - exists x. split_and!; [|done|done]. by apply lookup_app_l_Some.
  - destruct (decide (i = j)) as [->|Hne].
    + rewrite Hj in Hy. simplify_eq. exists y'.
      rewrite list_lookup_insert_eq by by eapply lookup_lt_Some.
      destruct (x_move_ok mv y _ _ _ _ _ Hd Hm Hok) as (_ & Hc & _).
      split_and!; [done|done|by eapply abandoned_move].
    + exists x. rewrite list_lookup_insert_ne by done. eauto.
Qed.

(** C10: outgoing connections that are never closed. From the moment that the
    response of an HTTP request was read which says "Connection: close" (or
    the request says so), and when reading a response's body failed and the
    rest could not be discarded, the connection stays open, in the map of the
    tracker and counted by its wait group, whatever else happens: new
    connections, other exchanges, reads, writes and closes.  Only a visit of
    the last range of [runServer], at the end of the process, closes it. *)
Theorem leaked_for_ever s0 s s' j x :
  ct_inv s0 → rtc x_step (boot_x s0 (new_pool true)) s → xs_list s !! j = Some x →
  abandoned x = true → rtc x_step s s' →
  if decide (x_conn x ∈ xs_ranged s') then xconn_closed (xs_track s') (x_conn x) = true
  else xconn_closed (xs_track s') (x_conn x) = false ∧
    x_conn x ∈ tr_Map (ts_tracker (xs_track s')) ∧ 0 < tr_Wg (ts_tracker (xs_track s')).
Proof.
  intros Hs0 Hr Hj Ha Hrun. pose proof (x_inv_rtc _ _ Hr (x_inv_boot _ Hs0)) as Hi. clear Hr.
  revert x Hj Ha. induction Hrun as [s|s1 s2 s3 Hs _ IH]; intros x Hj Ha.
  - pose proof (list_elem_of_lookup_2 _ _ _ Hj) as Hx.
    destruct (xi_order _ Hi x Hx) as (_ & -> & Hok). pose proof (abandoned_open _ Hok Ha) as Hb.
    rewrite Hb. simpl. case_decide as Hin; [by apply bool_decide_true|].
    split; [by apply bool_decide_false|].
    assert (x_conn x ∈ tr_Map (ts_tracker (xs_track s))) as Hm by by apply x_tracked.
    split; [done|]. rewrite (inv_wg _ (xi_track _ Hi)).
    assert (size (tr_Map (ts_tracker (xs_track s))) ≠ 0%nat); [|lia].
    intros Hz%size_empty_inv. set_solver.
  - destruct (x_step_abandoned _ _ _ _ Hs Hi Hj Ha) as (x' & Hj' & <- & Ha').
    by apply IH; [eapply x_inv_step|..].
Qed.

Lemma leaked_for_ever_witness :
  let s := end_of true (run_of Leaked) in
  0%nat ∈ tr_Map (ts_tracker (xs_track s)) ∧ 0 < tr_Wg (ts_tracker (xs_track s)).
Proof.
  cbv zeta. destruct (xs_list (end_of true (run_of Leaked)) !! 0%nat) as [x|] eqn:Hx;
    [|by vm_compute in Hx].
  assert ((λ x, (x_conn x, abandoned x)) <$> xs_list (end_of true (run_of Leaked)) !! 0%nat
          = Some (0%nat, true)) as H by (vm_compute; reflexivity).
  rewrite Hx in H. injection H as Hc Ha.
  pose proof (leaked_for_ever (init_state 10 None) _ _ 0 x (ct_inv_init _ _)
    (end_of_reachable true (run_of Leaked)) Hx Ha (rtc_refl _ _)) as Hopen.
  assert (0%nat ∉ xs_ranged (end_of true (run_of Leaked))) as Hn
    by (refine (bool_decide_eq_true_1 _ _); vm_compute; reflexivity).
  rewrite Hc, decide_False in Hopen by done. split; apply Hopen.
Defined.

(** C11: no connection is used twice. With the setting that [BuildProxy]
    makes, no run ever takes a connection from the transport's pool: the pool
    is empty in every reachable state, so a request never goes out on a
    connection that was dialled, checked and attributed to a role for another
    one, and different exchanges have different connections.  Without the
    setting this fails. *)
Theorem no_connection_reuse `{E : Env} config :
  (∀ s0 s, ct_inv s0 → rtc x_step (boot_x s0 (new_pool (Tr_DisableKeepAlives (BuildProxy config)))) s →
     idleConn (xs_pool s) = ∅ ∧ xs_reused s = false ∧ NoDup (x_conn <$> xs_list s)) ∧
  ∃ s, rtc x_step (boot_x (init_state 10 None) (new_pool false)) s ∧ xs_reused s = true.
Proof.
  split.
  - intros s0 s Hs0 Hr. pose proof (x_inv_rtc _ _ Hr (x_inv_boot _ Hs0)) as Hi.
    split_and!; apply Hi.
  - set (s := end_of false (sent_request ++ answer_read (mkRespInfo false false))).
    exists (mkXState (xs_track s) (new_pool false) (xs_list s) true (xs_ranged s)). split; [|done].
    eapply rtc_r; [apply end_of_reachable|]. apply (xs_reuse s "||http|host:80" 0 (new_pool false)).
    by vm_compute.
Qed.

Lemma no_connection_reuse_witness :
  let s := end_of true (sent_request ++ answer_read (mkRespInfo false false)) in
  idleConn (xs_pool s) = ∅ ∧ xs_reused s = false.
Proof.
  destruct (proj1 (@no_connection_reuse rebinding_env (acl_config sample_acl)) (init_state 10 None)
    (end_of true (sent_request ++ answer_read (mkRespInfo false false)))) as (H1 & H2 & _);
    [apply ct_inv_init|apply end_of_reachable|by split].
Defined.
