(* ===== verification/Owners.v ===== *)
(** * Whose connections the tracker holds

    A connection is stored in the tracker by the goroutine that dialled it
    ([NewInstrumentedConn] in [dial], [src/pkg/smokescreen/smokescreen.go]).
    Here: a goroutine answers with a tunnel only for a connection that it
    stored itself, and in every run of the process the connections of different
    goroutines are different ([owners_step]). *)

From S2P Require Import Prelude GoStrings GoNet Acl Http Config Classify Conntrack Proxy Serve Logic Effects Safety Handling Concurrent.

(** ** What is done to other connections leaves a connection alone *)
Definition counters (ic : InstrumentedConn) : Z * Z := (ic_BytesIn ic, ic_BytesOut ic).

(** The connection [c] stays, untouched its counters and does not open again. *)
Definition untouched (c : nat) (s s' : TrackState) : Prop :=
  ∀ ic, ts_heap s !! c = Some ic →
  ∃ ic', ts_heap s' !! c = Some ic' ∧ counters ic' = counters ic ∧
    (ic_closed ic = true → ic_closed ic' = true).

#[global] Instance untouched_preorder c : PreOrder (untouched c).
Proof.
  split; [by intros s ic ?; eauto|].
  intros s1 s2 s3 H12 H23 ic (ic2 & H2 & Hc2 & Hk2)%H12.
  destruct (H23 ic2 H2) as (ic3 & H3 & Hc3 & Hk3). exists ic3. split; [done|].
  split; [congruence|auto].
Qed.

Lemma untouched_heap c s s' : ts_heap s' = ts_heap s → untouched c s s'.
Proof. intros Hs ic Hic. rewrite Hs. eauto. Qed.

Lemma untouched_Close c s id e i err : untouched c s (Close s id e i err).1.
Proof.
  destruct (ts_heap s !! id) as [ic0|] eqn:Hid; [|unfold Close; by rewrite Hid].
  destruct (ic_closed ic0) eqn:Hcl; [by rewrite (Close_closed s id ic0)|].
  destruct (Close_open s id ic0 e i err Hid Hcl) as (ms & l & -> & _). simpl.
  intros ic Hic. simpl. rewrite lookup_insert. case_decide; [|eauto]. simplify_eq. eauto.
Qed.

Lemma untouched_close_step c id now close w :
  untouched c (w_track w) (w_track (close_step id now close w).2).
Proof.
  unfold close_step. destruct (ts_heap (w_track w) !! id) as [ic|]; [|done].
  destruct (ic_closed ic); [done|].
  destruct (tr_ShuttingDown _) as [[]|]; destruct (_ <? 0); apply untouched_Close.
Qed.

Lemma untouched_perform c {X} (a : Act X) w : untouched c (w_track w) (w_track (perform a w).2).
Proof.
  destruct a; simpl; try by apply untouched_heap.
  - intros ic Hic. simpl. rewrite lookup_insert_ne; [by eauto|].
    intros <-. apply (is_fresh (dom (ts_heap (w_track w)))). apply elem_of_dom. by exists ic.
  - apply untouched_close_step.
Qed.

Definition io_conn (op : io_op) : nat :=
  match op with IoRead id _ _ _ => id | IoWrite id _ _ _ => id end.

Lemma untouched_io c s op : io_conn op ≠ c → untouched c s (io_step s op).
Proof.
  destruct op as [id now n err|id now n err]; simpl; intros Hne ic Hic; unfold Read, Write;
    (destruct (ts_heap s !! id); simpl; [rewrite lookup_insert_ne by done|]; eauto).
Qed.

(** Closing leaves a closed connection with the same counters. *)
Lemma close_step_closes c now close w ic :
  ts_heap (w_track w) !! c = Some ic →
  ∃ ic', ts_heap (w_track (close_step c now close w).2) !! c = Some ic' ∧
    counters ic' = counters ic ∧ ic_closed ic' = true.
Proof.
  intros Hic. destruct (untouched_close_step c c now close w ic Hic) as (ic' & Hic' & Hcs & Hk).
  exists ic'. split_and!; [done|done|]. revert Hic'. unfold close_step. rewrite Hic.
  destruct (ic_closed ic) eqn:Hcl; [intros _; by apply Hk|].
  destruct (tr_ShuttingDown _) as [[]|]; destruct (_ <? 0); simpl;
    match goal with |- ts_heap (Close ?s ?id ?e ?i ?err).1 !! _ = _ → _ =>
      destruct (Close_is_closed s id e i err ic Hic) as (ic2 & -> & H) end; congruence.
Qed.

(** ** Connections that a computation stored

    [yields S m Q]: when the actions of [m] run, in whatever states they find,
    a value that is returned satisfies [Q] with the connections that were
    stored by [m] or are in [S]. *)
Definition stored {X} (a : Act X) (w : World) : gset nat :=
  match a with
  | AStore _ _ _ _ _ => {[ fresh (dom (ts_heap (w_track w))) ]}
  | _ => ∅
  end.

Fixpoint yields {A} (S : gset nat) (m : M A) (Q : gset nat → A → Prop) : Prop :=
  match m with
  | Done (Ret a) => Q S a
  | Done (Panic _) => True
  | Step a k => ∀ w, yields (stored a w ∪ S) (k (perform a w).1) Q
  end.

Lemma yields_any {A} S (m : M A) : yields S m (λ _ _, True).
Proof. revert S. induction m as [[]|X a k IH]; simpl; auto. Qed.

Lemma yields_bind {A B} S (m : M A) (k : A → M B) Q Q' :
  yields S m Q → (∀ S a, Q S a → yields S (k a) Q') → yields S (bind m k) Q'.
Proof.
  intros Hm Hk. revert S Hm. induction m as [[a|s]|X a f IH]; intros S Hm; [by apply Hk|done|].
  intros w. by apply IH.
Qed.

(** Whatever [m] is, only what follows matters. *)
Lemma yields_after {A B} S (m : M A) (k : A → M B) Q :
  (∀ S a, yields S (k a) Q) → yields S (bind m k) Q.
Proof. intros Hk. eapply yields_bind; [apply yields_any|]. auto. Qed.

(** A tunnel is for a connection that was stored. *)
Definition own_tunnel (S : gset nat) (r : Reply) : Prop :=
  match r with Tunnel c => c ∈ S | _ => True end.
Definition own_conn (S : gset nat) (r : result nat) : Prop :=
  match r with Ok c => c ∈ S | Fail _ => True end.

Section yields.
Context `{E : Env} `{T : Transport} (config : Config).

Lemma yields_connect S network a role host :
  yields S (connect config network a role host) own_conn.
Proof.
  unfold connect. apply yields_after. intros S1 _. apply yields_after. intros S2 [conn|e].
  - apply yields_after. intros S3 _. apply (yields_bind _ _ _ (λ S c, c ∈ S)); [|done].
    unfold track_conn. do 2 (apply yields_after; intros ? ?). intros w w'. simpl. set_solver.
  - apply yields_after. by intros S3 _.
Qed.

Lemma yields_dial S network addr u : yields S (dial config network addr u) (λ S r, own_conn S r.1).
Proof.
  unfold dial. apply yields_after. intros S1 [[role host] resolved].
  apply yields_after. intros S2 [[a|e] u']; [|done].
  eapply yields_bind; [apply yields_connect|]. intros S3 [c|e] Hc; exact Hc.
Qed.

Lemma yields_serve_connect S req : yields S (serve_connect config req) own_tunnel.
Proof.
  unfold serve_connect. apply yields_after. intros S1 [ctx [[] host]]; [|done].
  eapply yields_bind; [apply yields_dial|]. intros S2 [[c|e] u] Hc; [|done]. simpl in Hc.
  eapply (yields_bind _ _ _ (λ S _, c ∈ S)); [by intros w; simpl; set_solver|].
  intros S3 h Hin. destruct (_ && _); [|exact Hin]. apply yields_after. by intros S4 _.
Qed.

Lemma yields_serve_absolute S ctx : yields S (serve_absolute config ctx) own_tunnel.
Proof.
  unfold serve_absolute. apply yields_after. intros S1 [c r].
  apply yields_after. intros S2 [r' c']. destruct r'; [|done].
  apply yields_after. intros S3 [[] ?]; done.
Qed.

Lemma yields_handler S hc req : yields S (handler config hc req) own_tunnel.
Proof.
  assert (yields S (proxy_ServeHTTP config req) own_tunnel) as H.
  { unfold proxy_ServeHTTP. destruct (String.eqb _ _); [apply yields_serve_connect|].
    unfold serve_http. repeat case_match; try done; apply yields_serve_absolute. }
  unfold handler, HealthcheckMiddleware_ServeHTTP. destruct hc; [|done].
  by destruct (String.eqb _ _).
Qed.
End yields.

(** ** Connections that a computation closes *)

(** Every action of a computation satisfies [P]: one more logic. *)
Fixpoint only (P : ∀ X, Act X → Prop) (A : Type) (m : M A) (Q : A → Prop) : Prop :=
  match m with
  | Done (Ret a) => Q a
  | Done (Panic _) => True
  | Step a k => P _ a ∧ ∀ w, only P A (k (perform a w).1) Q
  end.

#[global] Instance only_logic P : Logic (only P).
Proof.
  split.
  - done.
  - done.
  - intros A B m k Q Q' Hm Hk. unfold holds in *.
    induction m as [[a|s]|X a f IH]; simpl in *; [by apply Hk|done|].
    destruct Hm as [HP Hf]. split; [done|]. intros w. by apply IH.
  - intros A m Q Q' Hm HQ. unfold holds in *.
    induction m as [[a|s]|X a f IH]; simpl in *; [by apply HQ|done|].
    destruct Hm as [HP Hf]. split; [done|]. intros w. by apply IH.
Qed.

Definition not_close (X : Type) (a : Act X) : Prop :=
  match a with AClose _ _ _ => False | _ => True end.

Lemma not_close_act {X} (a : Act X) : not_close X a → holds (only not_close) (act a) (λ _, True).
Proof. by split. Qed.

#[global] Instance not_close_actions `{E : Env} : Actions (only not_close).
Proof.
  split; [split|..]; intros; try by apply not_close_act.
  unfold track_conn, Now. do 3 (eapply spec_bind; [by apply not_close_act|intros ? _]).
  eapply spec_bind; [by apply not_close_act|]. intros _ _. by apply spec_ret.
Qed.

#[global] Instance not_close_decision : LogsDecision (only not_close).
Proof. intros ctx ty a d t s e. by apply not_close_act. Qed.

Lemma only_yields P {A} S (m : M A) Q : holds (only P) m Q → yields S m (λ _ a, Q a).
Proof.
  unfold holds. revert S. induction m as [[a|s]|X a k IH]; intros S; simpl; [done|done|].
  intros [_ Hk] w. by apply IH.
Qed.

(** [m] closes only connections of [S] and those it has stored. *)
Fixpoint closes_own {A} (S : gset nat) (m : M A) : Prop :=
  match m with
  | Done _ => True
  | Step a k =>
      match a with AClose id _ _ => id ∈ S | _ => True end ∧
      ∀ w, closes_own (stored a w ∪ S) (k (perform a w).1)
  end.

Lemma only_closes_own {A} S (m : M A) Q : holds (only not_close) m Q → closes_own S m.
Proof.
  unfold holds. revert S. induction m as [o|X a k IH]; intros S; simpl; [done|].
  intros [Ha Hk]. split; [by destruct a|]. intros w. by apply IH.
Qed.

Lemma closes_own_bind {A B} S (m : M A) (k : A → M B) Q :
  closes_own S m → yields S m Q → (∀ S a, Q S a → closes_own S (k a)) → closes_own S (bind m k).
Proof.
  intros Hm Hy Hk. revert S Hm Hy. induction m as [[a|s]|X a f IH]; intros S Hm Hy;
    [by apply Hk|done|]. destruct Hm as [Ha Hf]. split; [done|]. intros w. apply IH; [done|apply Hy].
Qed.

Section closes.
Context `{E : Env} `{T : Transport} (config : Config).

(** A computation that closes nothing, before one that may. *)
Lemma closes_after {A B} S (m : M A) (k : A → M B) Q :
  holds (only not_close) m Q → (∀ S a, Q a → closes_own S (k a)) → closes_own S (bind m k).
Proof.
  intros Hm Hk. eapply (closes_own_bind _ _ _ (λ _ a, Q a));
    [by eapply only_closes_own|by eapply only_yields|done].
Qed.

Lemma closes_close_conn S c : c ∈ S → closes_own S (close_conn c).
Proof. intros Hc. split; [exact Hc|]. intros w. by destruct (perform _ w) as [[r|what] w2]. Qed.

(** Dialling and reading the history, before what is done with the
    connection. *)
Lemma closes_dialled {A} S network addr u (f : result nat * option ctxUserData → M A)
    (k : nat → option ctxUserData → list Event → M A) :
  userdata_ok config u →
  (∀ c u', f (Ok c, u') = bind history (k c u')) →
  (∀ S e u', closes_own S (f (Fail e, u'))) →
  (∀ S c u' h, c ∈ S → closes_own S (k c u' h)) →
  closes_own S (bind (dial config network addr u) f).
Proof.
  intros Hu Hok Hfail Hk. eapply closes_own_bind; [|apply yields_dial|].
  { eapply only_closes_own. use_spec (spec_dial (only not_close)). }
  intros S2 [[c|e] u'] Hc; simpl in Hc; [|by apply Hfail]. rewrite Hok.
  eapply (closes_own_bind _ _ _ (λ S _, c ∈ S)); [done|by intros w; simpl; set_solver|].
  intros S3 h Hin. by apply Hk.
Qed.

Lemma closes_serve_connect S req : closes_own S (serve_connect config req).
Proof.
  unfold serve_connect. eapply closes_after; [use_spec (spec_on_connect (only not_close))|].
  intros S1 [ctx [[] host]] [Hu _]; [|done]. simpl in Hu.
  eapply closes_dialled; [done|reflexivity|done|].
  intros S3 c u h Hin. simpl. destruct (_ && _); [|done].
  eapply closes_own_bind; [by apply closes_close_conn|apply yields_any|done].
Qed.

Lemma closes_DetailedRoundTrip S req u :
  userdata_ok config u → closes_own S (DetailedRoundTrip config req u).
Proof.
  intros Hu. unfold DetailedRoundTrip. destruct (tr_addr req) as [addr|]; [|done].
  eapply closes_after; [use_spec (spec_history (L := only not_close))|]. intros S1 h _.
  destruct (tr_ResolveTCPAddr h addr) as [ip|]; [|done].
  eapply closes_dialled; [done|reflexivity|done|].
  intros S3 c u' h' Hin. simpl.
  destruct (tr_setup h' req c) as [[[] err]|]; [|by destruct err|].
  - eapply closes_own_bind; [by apply closes_close_conn|apply yields_any|].
    intros ? ? _. by destruct err.
  - eapply closes_after; [use_spec (spec_history (L := only not_close))|]. intros S4 h4 _.
    by destruct (tr_roundTrip _ req c).
Qed.

Lemma closes_serve_absolute S req : closes_own S (serve_absolute config (new_ctx req)).
Proof.
  unfold serve_absolute. eapply closes_after; [use_spec (spec_on_request (only not_close))|].
  intros S1 [ctx r] [Hu _]. simpl in Hu.
  eapply (closes_own_bind _ _ _ (λ _ _, True)); [|apply yields_any|].
  - destruct r as [r|]; [done|]. unfold send_request.
    eapply (closes_own_bind _ _ _ (λ _ _, True));
      [by apply closes_DetailedRoundTrip|apply yields_any|].
    intros S2 [[d [r|e]] u'] _; [done|]. eapply only_closes_own.
    use_spec (spec_filterResponse (only not_close)).
  - intros S2 [[r'|] c] _; [|done]. apply (only_closes_own _ _ (λ _, True)).
    eapply (spec_bind _ _ (λ _, True)); [use_spec (spec_filterResponse (only not_close))|].
    intros [[] ?] _; [by apply spec_ret|apply spec_panic].
Qed.

Lemma closes_handler S hc req : closes_own S (handler config hc req).
Proof.
  assert (closes_own S (proxy_ServeHTTP config req)) as H.
  { unfold proxy_ServeHTTP. destruct (String.eqb _ _); [apply closes_serve_connect|].
    unfold serve_http.
    repeat case_match; try done; apply closes_serve_absolute. }
  unfold handler, HealthcheckMiddleware_ServeHTTP. destruct hc; [|done].
  by destruct (String.eqb _ _).
Qed.
End closes.

(** ** Every goroutine has its own connections *)
Definition used (w : World) : gset nat := dom (ts_heap (w_track w)).

(** What each goroutine stored: the sets [f i] have nothing in common. *)
Record owners (f : nat → gset nat) (s : Process) : Prop := mkOwners {
  ow_yields i t : p_threads s !! i = Some t → yields (f i) (t_prog t) own_tunnel;
  ow_closes i t : p_threads s !! i = Some t → closes_own (f i) (t_prog t);
  ow_used i : f i ⊆ used (p_world s);
  ow_disjoint i j : i ≠ j → f i ## f j
}.

Lemma close_step_used id now close w : used (close_step id now close w).2 = used w.
Proof.
  unfold used, close_step. destruct (ts_heap (w_track w) !! id) as [ic|] eqn:Hid; [|done].
  destruct (ic_closed ic) eqn:Hcl; [done|].
  assert (∀ e i err, dom (ts_heap (Close (w_track w) id e i err).1) = dom (ts_heap (w_track w))) as H.
  { intros e i err. destruct (Close_open (w_track w) id ic e i err Hid Hcl) as (ms & l & -> & _).
    simpl. by apply dom_insert_lookup_L. }
  destruct (tr_ShuttingDown _) as [[]|]; destruct (_ <? 0); simpl; apply H.
Qed.

Lemma close_step_alone id now close w c :
  id ≠ c → ts_heap (w_track (close_step id now close w).2) !! c = ts_heap (w_track w) !! c.
Proof.
  intros Hne. unfold close_step. destruct (ts_heap (w_track w) !! id) as [ic|] eqn:Hid; [|done].
  destruct (ic_closed ic) eqn:Hcl; [done|].
  destruct (tr_ShuttingDown _) as [[]|]; destruct (_ <? 0); simpl;
    edestruct Close_open as (ms & l & -> & _); try done; by apply lookup_insert_ne.
Qed.

Lemma io_step_alone s op c : io_conn op ≠ c → ts_heap (io_step s op) !! c = ts_heap s !! c.
Proof.
  destruct op as [id now n err|id now n err]; simpl; intros Hne; unfold Read, Write;
    (destruct (ts_heap s !! id); simpl; [by apply lookup_insert_ne|done]).
Qed.

Lemma io_step_used s op : dom (ts_heap (io_step s op)) = dom (ts_heap s).
Proof.
  destruct op as [id now n err|id now n err]; simpl; unfold Read, Write;
    (destruct (ts_heap s !! id) as [ic|] eqn:Hid; simpl; [by apply dom_insert_lookup_L|done]).
Qed.

(** An action stores a new connection or none. *)
Lemma perform_stored {X} (a : Act X) w :
  used (perform a w).2 = stored a w ∪ used w ∧ stored a w ## used w.
Proof.
  destruct a; simpl; try (split; [by rewrite (left_id_L ∅ (∪))|set_solver]).
  - unfold used. simpl. rewrite dom_insert_L. split; [done|].
    apply disjoint_singleton_l, is_fresh.
  - rewrite close_step_used. split; [by rewrite (left_id_L ∅ (∪))|set_solver].
Qed.

Lemma owners_used f s w' ts c :
  owners f s → used (p_world s) ⊆ used w' → ts = p_threads s → owners f (mkProcess w' ts c).
Proof.
  intros [Hy Hc Hu Hd] Hw ->. split; simpl; [done|done| |done]. intros i. by etrans; [apply Hu|].
Qed.

(** [i] stored [new] as well. *)
Definition give (i : nat) (new : gset nat) (f : nat → gset nat) (j : nat) : gset nat :=
  if decide (i = j) then new ∪ f j else f j.

Lemma next_owned_by {A} S (m : M A) Q w :
  yields S m Q → closes_own S m →
  ∃ new, yields (new ∪ S) (next m w).1 Q ∧ closes_own (new ∪ S) (next m w).1 ∧
    new ## used w ∧ used (next m w).2 = new ∪ used w.
Proof.
  destruct m as [o|X a k]; simpl.
  - intros H _. exists ∅. rewrite !(left_id_L ∅ (∪)). split_and!; [exact H|done|set_solver|done].
  - intros H [_ Hc]. specialize (H w). specialize (Hc w). destruct (perform_stored a w) as [Hu Hd].
    exists (stored a w). destruct (perform a w). done.
Qed.

(** An action that does not close [c] leaves it as it is. *)
Lemma perform_alone {X} (a : Act X) w c :
  c ∈ used w → match a with AClose id _ _ => id ≠ c | _ => True end →
  ts_heap (w_track (perform a w).2) !! c = ts_heap (w_track w) !! c.
Proof.
  intros Hin Ha. destruct a; try done; simpl.
  - rewrite lookup_insert_ne; [done|]. intros <-. by apply (is_fresh (dom (ts_heap (w_track w)))).
  - by apply close_step_alone.
Qed.

Section owners.
Context `{E : Env} `{T : Transport} (config : Config) (hc : bool).

Lemma owners_thread f s i t t' w' new :
  owners f s → p_threads s !! i = Some t → yields (new ∪ f i) (t_prog t') own_tunnel →
  closes_own (new ∪ f i) (t_prog t') → new ## used (p_world s) → used w' = new ∪ used (p_world s) →
  owners (give i new f) (mkProcess w' (<[i := t']> (p_threads s)) false).
Proof.
  intros [Hy Hc Hu Hd] Ht Hy' Hc' Hn Hw. split; simpl; unfold give.
  - intros j u [(-> & <- & _)|[Hne Hj]]%list_lookup_insert_Some;
      [by rewrite decide_True|rewrite decide_False by done; by apply Hy].
  - intros j u [(-> & <- & _)|[Hne Hj]]%list_lookup_insert_Some;
      [by rewrite decide_True|rewrite decide_False by done; by apply Hc].
  - intros j. rewrite Hw. pose proof (Hu j). case_decide; set_solver.
  - intros j k Hjk. pose proof (Hd j k Hjk). pose proof (Hu j). pose proof (Hu k).
    repeat case_decide; set_solver.
Qed.

(** A step of the process keeps the owners of what was stored. *)
Lemma owners_step f s s' :
  p_step config hc s s' → owners f s → ∃ f', owners f' s' ∧ ∀ i, f i ⊆ f' i.
Proof.
  intros Hs H. destruct Hs as [req _|i t _ Ht|op _|id _|_].
  - exists f. split; [|done]. destruct H as [Hy Hc Hu Hd]. split; simpl; [| |done|done];
      (intros i t [Hi|[_ Hl]]%lookup_app_Some; [auto|];
       apply list_lookup_singleton_Some in Hl as [_ <-]);
      [apply yields_handler|apply closes_handler].
  - destruct (next_owned_by (f i) (t_prog t) own_tunnel (p_world s)) as (new & Hy & Hc & Hn & Hu);
      [by apply (ow_yields _ _ H)|by apply (ow_closes _ _ H)|].
    exists (give i new f). unfold advance.
    destruct (next (t_prog t) (p_world s)) as [m w']. simpl in *. split.
    + by apply (owners_thread f s i t).
    + intros j. unfold give. case_decide; set_solver.
  - exists f. split; [|done]. apply (owners_used f s); [done| |done].
    unfold used. simpl. by rewrite io_step_used.
  - exists f. split; [|done]. pose proof (close_step_used id env_Now env_Close (p_world s)) as Hu.
    destruct (close_step id env_Now env_Close (p_world s)) as [r w'].
    apply (owners_used f s); [done|by rewrite <-Hu|done].
  - exists f. split; [|done]. by apply (owners_used f s).
Qed.

Lemma owners_start w : owners (λ _, ∅) (start w).
Proof. split; simpl; [by intros|by intros|set_solver|set_solver]. Qed.
End owners.

(** A goroutine leaves the connections of others as they are. *)
Lemma thread_alone f s i t c :
  owners f s → p_threads s !! i = Some t → c ∈ used (p_world s) → c ∉ f i →
  ts_heap (w_track (advance t (p_world s)).2) !! c = ts_heap (w_track (p_world s)) !! c.
Proof.
  intros Hf Hi Hc Hn. pose proof (ow_closes _ _ Hf i t Hi) as Hcl. unfold advance.
  destruct (t_prog t) as [o|X a k]; [done|]. destruct Hcl as [Ha _]. simpl.
  pose proof (perform_alone a (p_world s) c Hc) as Hp. destruct (perform a (p_world s)) as [x w'].
  apply Hp. destruct a; try done. by intros ->.
Qed.
