(* ===== verification/Tunnels.v ===== *)
(** * Tunnels

    What happens after a CONNECT request was accepted
    ([src/vendor/github.com/elazarl/goproxy]: the end of [handleHttps] in
    [https.go] and [copyAndClose] in [proxy.go]).  Two goroutines copy the
    bytes of the client to the target and those of the target to the client;
    each closes the connection that it writes to when it is done.  The target's
    connection is the instrumented one, and so counted and tracked.

    A copier is a state machine that follows the loop of [io.Copy]: it reads a
    chunk, writes it, and stops at the first error.  What the two sockets
    return is an argument of each move, and a call takes effect when it
    returns.  What the buffered readers held that goproxy discards (the client's
    of [Hijack], the upstream proxy's) is a field of the tunnel and goes
    nowhere.  The system is the process of [Concurrent.v] with the tunnels that its goroutines have started; moves of
    tunnels and steps of the process come in any order. *)

From S2P Require Import Prelude GoStrings GoNet Acl Http Config Classify Conntrack Proxy Serve Logic Effects Safety Handling Concurrent Owners.

(** ** Copying *)

(** What a read reports besides the bytes, and the loop of [io.Copy] with the
    [Close] that follows it.  [res] is what [io.Copy] returns; [copyAndClose]
    does not look at it. *)
Inductive ReadEnd := More | AtEOF | Broken (e : error).

Inductive Copier :=
| Reading
| Writing (chunk : list Byte.byte) (er : ReadEnd)
| Closing (res : option error)
| Ended (res : option error).

(** One direction: the copier, the bytes that its reads returned and those that
    its writes accepted. *)
Record Flow := mkFlow {
  fl_copier : Copier;
  fl_read : list Byte.byte;
  fl_written : list Byte.byte
}.

Definition ErrShortWrite : error := Err "short write".

Definition after_end (er : ReadEnd) : Copier :=
  match er with
  | More => Reading
  | AtEOF => Closing None
  | Broken e => Closing (Some e)
  end.

Definition after_read (chunk : list Byte.byte) (er : ReadEnd) : Copier :=
  match chunk with [] => after_end er | _ => Writing chunk er end.

Definition after_write (nr n : nat) (ew : option error) (er : ReadEnd) : Copier :=
  match ew with
  | Some e => Closing (Some e)
  | None => if Nat.eqb nr n then after_end er else Closing (Some ErrShortWrite)
  end.

(** What a socket can return: at most a buffer of [io.Copy]; a read of an open
    connection returns when it has bytes or an error; a closed connection
    takes and gives nothing and reports an error. *)
Definition copy_buffer : Z := 32 * 1024.

Definition read_ok (closed : bool) (chunk : list Byte.byte) (er : ReadEnd) : bool :=
  (Z.of_nat (length chunk) <=? copy_buffer) &&
  match chunk, er with
  | [], Broken _ => true
  | [], AtEOF => negb closed
  | [], More => false
  | _, _ => negb closed
  end.

Definition write_ok (closed : bool) (nr n : nat) (ew : option error) : bool :=
  Nat.leb n nr && (negb closed || (Nat.eqb n 0 && bool_decide (is_Some ew))).

Definition flow_read (closed : bool) (chunk : list Byte.byte) (er : ReadEnd) (f : Flow) : option Flow :=
  match fl_copier f with
  | Reading =>
      if read_ok closed chunk er
      then Some (mkFlow (after_read chunk er) (fl_read f ++ chunk) (fl_written f)) else None
  | _ => None
  end.

Definition flow_write (closed : bool) (n : nat) (ew : option error) (f : Flow) : option Flow :=
  match fl_copier f with
  | Writing chunk er =>
      if write_ok closed (length chunk) n ew
      then Some (mkFlow (after_write (length chunk) n ew er) (fl_read f) (fl_written f ++ take n chunk))
      else None
  | _ => None
  end.

(** The flow after the connection that it writes to was closed. *)
Definition flow_close (f : Flow) : option Flow :=
  match fl_copier f with
  | Closing res => Some (mkFlow (Ended res) (fl_read f) (fl_written f))
  | _ => None
  end.

(** A tunnel: the goroutine that started it, the target's connection and what
    its counters were then, the bytes of the client and of the target that were
    in goproxy's buffers when the copiers started, whether the client's
    connection was closed, the direction to the target and the one to the
    client. *)
Record TunnelState := mkTunnel {
  tu_thread : nat;
  tu_conn : nat;
  tu_in0 : Z;
  tu_out0 : Z;
  tu_early_up : list Byte.byte;
  tu_early_down : list Byte.byte;
  tu_client_closed : bool;
  tu_up : Flow;
  tu_down : Flow
}.

Definition set_up (tu : TunnelState) (f : Flow) : TunnelState :=
  mkTunnel (tu_thread tu) (tu_conn tu) (tu_in0 tu) (tu_out0 tu) (tu_early_up tu)
    (tu_early_down tu) (tu_client_closed tu) f (tu_down tu).
Definition set_down (tu : TunnelState) (f : Flow) (closed : bool) : TunnelState :=
  mkTunnel (tu_thread tu) (tu_conn tu) (tu_in0 tu) (tu_out0 tu) (tu_early_up tu)
    (tu_early_down tu) closed (tu_up tu) f.

Definition track (p : Process) : TrackState := w_track (p_world p).

Definition conn_closed (p : Process) (c : nat) : bool :=
  match ts_heap (track p) !! c with Some ic => ic_closed ic | None => true end.

(** The end of [handleHttps].  The copiers read the two connections: what the
    server had read of the client's when it was hijacked, [early_up], and what
    was read of the target's with an upstream proxy's answer, [early_down], is
    in buffers that are dropped. *)
Definition start_tunnel (i c : nat) (early_up early_down : list Byte.byte) (p : Process)
    : TunnelState :=
  let counter (g : InstrumentedConn → Z) := from_option g 0 (ts_heap (track p) !! c) in
  mkTunnel i c (counter ic_BytesIn) (counter ic_BytesOut) early_up early_down false
    (mkFlow Reading [] []) (mkFlow Reading [] []).

Definition transfer (op : io_op) (p : Process) : Process :=
  mkProcess (mkWorld (w_trace (p_world p)) (w_logs (p_world p)) (io_step (track p) op))
    (p_threads p) false.

(** The moves of the two copiers. *)
Inductive Move :=
| UpRead (chunk : list Byte.byte) (er : ReadEnd)
| UpWrite (n : nat) (ew : option error) (now : Z)
| UpClose
| DownRead (chunk : list Byte.byte) (er : ReadEnd) (now : Z)
| DownWrite (n : nat) (ew : option error)
| DownClose.

Definition read_err (er : ReadEnd) : option error :=
  match er with More => None | AtEOF => Some (Err "EOF") | Broken e => Some e end.

Section system.
Context `{E : Env} `{T : Transport} (config : Config) (hc : bool).

Definition move (mv : Move) (tu : TunnelState) (p : Process) : option (TunnelState * Process) :=
  let c := tu_conn tu in
  match mv with
  | UpRead chunk er =>
      f ← flow_read (tu_client_closed tu) chunk er (tu_up tu); Some (set_up tu f, p)
  | UpWrite n ew now =>
      f ← flow_write (conn_closed p c) n ew (tu_up tu);
      Some (set_up tu f, transfer (IoWrite c now (Z.of_nat n) ew) p)
  | UpClose =>
      f ← flow_close (tu_up tu);
      let '(r, w') := close_step c env_Now env_Close (p_world p) in
      Some (match r with
            | Ret _ => (set_up tu f, mkProcess w' (p_threads p) false)
            | Panic _ => (tu, mkProcess w' (p_threads p) true)
            end)
  | DownRead chunk er now =>
      f ← flow_read (conn_closed p c) chunk er (tu_down tu);
      Some (set_down tu f (tu_client_closed tu),
            transfer (IoRead c now (Z.of_nat (length chunk)) (read_err er)) p)
  | DownWrite n ew =>
      f ← flow_write (tu_client_closed tu) n ew (tu_down tu);
      Some (set_down tu f (tu_client_closed tu), p)
  | DownClose =>
      f ← flow_close (tu_down tu); Some (set_down tu f true, p)
  end.

(** ** The system *)
Record System := mkSystem { sy_proc : Process; sy_tunnels : list TunnelState }.

Definition conns (ts : list TunnelState) : gset nat := list_to_set (tu_conn <$> ts).

Definition closing (id : nat) (p : Process) : Process :=
  let '(r, w') := close_step id env_Now env_Close (p_world p) in
  mkProcess w' (p_threads p) (match r with Ret _ => false | Panic _ => true end).

(** A step of the process that is not one of a tunnel: the connections of
    tunnels, [busy], are read and written by their copiers alone. *)
Inductive r_step (busy : gset nat) (p : Process) : Process → Prop :=
| r_accept req :
    p_crashed p = false →
    r_step busy p (mkProcess (p_world p) (p_threads p ++ [accept config hc req]) false)
| r_thread i t :
    p_crashed p = false → p_threads p !! i = Some t →
    r_step busy p (let '(t', w') := advance t (p_world p) in
                   mkProcess w' (<[i := t']> (p_threads p)) false)
| r_io op : p_crashed p = false → io_conn op ∉ busy → r_step busy p (transfer op p)
| r_close id : p_crashed p = false → id ∉ busy → r_step busy p (closing id p)
| r_clock :
    p_crashed p = false →
    r_step busy p (mkProcess (perform (ACall EvNow env_Now) (p_world p)).2 (p_threads p) false).

(** Only an upstream proxy's answer is read through a buffer. *)
Definition early_ok (down : list Byte.byte) : Prop :=
  (∀ r, tr_https_proxy r = "") → down = [].

(** The process with its tunnels: steps of the process, a close by the final
    visit of the tracker (of any connection), the start of a tunnel, a move of
    one. *)
Inductive s_step (s : System) : System → Prop :=
| s_process p' :
    r_step (conns (sy_tunnels s)) (sy_proc s) p' → s_step s (mkSystem p' (sy_tunnels s))
| s_close id :
    p_crashed (sy_proc s) = false → s_step s (mkSystem (closing id (sy_proc s)) (sy_tunnels s))
| s_spawn i t c up down :
    p_crashed (sy_proc s) = false →
    p_threads (sy_proc s) !! i = Some t → t_prog t = Done (Ret (Tunnel c)) →
    i ∉ tu_thread <$> sy_tunnels s → early_ok down →
    s_step s (mkSystem (sy_proc s) (sy_tunnels s ++ [start_tunnel i c up down (sy_proc s)]))
| s_move j tu mv tu' p' :
    p_crashed (sy_proc s) = false → sy_tunnels s !! j = Some tu →
    move mv tu (sy_proc s) = Some (tu', p') →
    s_step s (mkSystem p' (<[j := tu']> (sy_tunnels s))).

Definition boot (w : World) : System := mkSystem (start w) [].

(** These are the steps of the process, but for those that are a tunnel's. *)
Lemma r_step_process busy p p' : r_step busy p p' → p_step config hc p p'.
Proof.
  destruct 1; [by apply p_accept|by apply p_thread|by apply p_io|by apply p_close|by apply p_clock].
Qed.

Lemma p_step_cases busy p p' :
  p_step config hc p p' →
  r_step busy p p' ∨ (∃ op, io_conn op ∈ busy ∧ p' = transfer op p) ∨
  ∃ id, id ∈ busy ∧ p' = closing id p.
Proof.
  destruct 1 as [req Hc|i t Hc Ht|op Hc|id Hc|Hc].
  - left. by apply r_accept.
  - left. by apply r_thread.
  - destruct (decide (io_conn op ∈ busy)); [right; left; by exists op|left; by apply r_io].
  - destruct (decide (id ∈ busy)); [right; right; by exists id|left; by apply r_close].
  - left. by apply r_clock.
Qed.

(** Tunnels act on the process by its own steps. *)
Lemma move_step mv tu p tu' p' :
  p_crashed p = false → move mv tu p = Some (tu', p') → p' = p ∨ p_step config hc p p'.
Proof.
  intros Hc Hm. destruct mv; simpl in Hm; apply bind_Some in Hm as (f & _ & Hm);
    try (simplify_eq; by left); try (simplify_eq; right; by apply p_io).
  pose proof (p_close config hc p (tu_conn tu) Hc) as Hs.
  destruct (close_step _ _ _ _) as [[r|what] w']; simplify_eq; by right.
Qed.

Lemma move_steps mv tu p tu' p' :
  p_crashed p = false → move mv tu p = Some (tu', p') → rtc (p_step config hc) p p'.
Proof. intros Hc Hm. destruct (move_step _ _ _ _ _ Hc Hm) as [->|H]; [apply rtc_refl|by apply rtc_once]. Qed.

Lemma s_step_process s s' : s_step s s' → rtc (p_step config hc) (sy_proc s) (sy_proc s').
Proof.
  destruct 1; simpl; [by eapply rtc_once, r_step_process|by apply rtc_once, p_close|apply rtc_refl|
    by eapply move_steps].
Qed.

Lemma s_steps_process s s' : rtc s_step s s' → rtc (p_step config hc) (sy_proc s) (sy_proc s').
Proof.
  induction 1 as [|s1 s2 s3 H _ IH]; [apply rtc_refl|]. etrans; [by apply s_step_process|done].
Qed.
End system.

(** ** Other steps keep a connection's counters *)

Lemma elem_of_conns c ts : c ∈ conns ts ↔ ∃ tu, tu ∈ ts ∧ tu_conn tu = c.
Proof. unfold conns. rewrite elem_of_list_to_set, list_elem_of_fmap. naive_solver. Qed.

Lemma closing_untouched `{E : Env} c id p : untouched c (track p) (track (closing id p)).
Proof.
  pose proof (untouched_close_step c id env_Now env_Close (p_world p)) as H. unfold closing.
  by destruct (close_step id env_Now env_Close (p_world p)).
Qed.

Lemma r_step_untouched `{E : Env} `{T : Transport} config hc busy c p p' :
  r_step config hc busy p p' → c ∈ busy → untouched c (track p) (track p').
Proof.
  intros [req _|i t _ Ht|op _ Hb|id _ _|_] Hc; try done.
  - unfold advance, track. destruct (t_prog t) as [o|X a k]; simpl; [done|].
    pose proof (untouched_perform c a (p_world p)). by destruct (perform a (p_world p)).
  - apply untouched_io. by intros <-.
  - apply closing_untouched.
Qed.

(** ** What holds of a tunnel *)
Definition flow_ok (f : Flow) : Prop :=
  match fl_copier f with
  | Reading => fl_read f = fl_written f
  | Writing chunk _ => fl_read f = fl_written f ++ chunk
  | Closing res | Ended res =>
      fl_written f `prefix_of` fl_read f ∧ (res = None → fl_read f = fl_written f)
  end.

Definition ended (f : Flow) : bool := match fl_copier f with Ended _ => true | _ => false end.

Definition len (l : list Byte.byte) : Z := Z.of_nat (length l).

Record tunnel_ok (p : Process) (tu : TunnelState) : Prop := mkTunnelOk {
  to_up : flow_ok (tu_up tu);
  to_down : flow_ok (tu_down tu);
  to_conn : ∃ ic, ts_heap (track p) !! tu_conn tu = Some ic ∧
    ic_BytesIn ic = add_uint64 (tu_in0 tu) (len (fl_read (tu_down tu))) ∧
    ic_BytesOut ic = add_uint64 (tu_out0 tu) (len (fl_written (tu_up tu))) ∧
    (ended (tu_up tu) = true → ic_closed ic = true);
  to_client : ended (tu_down tu) = tu_client_closed tu
}.

Lemma flow_read_ok closed chunk er f f' :
  flow_read closed chunk er f = Some f' → flow_ok f →
  flow_ok f' ∧ ended f = false ∧ ended f' = false ∧
  fl_read f' = fl_read f ++ chunk ∧ fl_written f' = fl_written f.
Proof.
  unfold flow_read, flow_ok, ended. destruct (fl_copier f); try done.
  destruct (read_ok closed chunk er); [|done]. intros [= <-] Hf. simpl. rewrite Hf.
  split_and!; try done; destruct chunk, er; simpl; rewrite ?app_nil_r; done.
Qed.

Lemma flow_write_ok closed n ew f f' :
  flow_write closed n ew f = Some f' → flow_ok f →
  flow_ok f' ∧ ended f = false ∧ ended f' = false ∧ fl_read f' = fl_read f ∧
  ∃ chunk er, fl_copier f = Writing chunk er ∧ (n ≤ length chunk)%nat ∧
    fl_written f' = fl_written f ++ take n chunk.
Proof.
  unfold flow_write, flow_ok, ended. destruct (fl_copier f) as [|chunk er|res|res]; try done.
  destruct (write_ok closed (length chunk) n ew) eqn:Hw; [|done]. intros [= <-] Hf. simpl. rewrite Hf.
  unfold write_ok in Hw. apply andb_true_iff in Hw as [Hn%Nat.leb_le _].
  assert (fl_written f ++ take n chunk `prefix_of` fl_written f ++ chunk) as Hp
    by apply prefix_app, prefix_take.
  split_and!; [|done| |done|by exists chunk, er]; unfold after_write; destruct ew as [e|]; try done.
  - by destruct (Nat.eqb_spec (length chunk) n) as [<-|Hne]; [rewrite firstn_all; destruct er|].
  - by destruct (Nat.eqb (length chunk) n); [destruct er|].
Qed.

Lemma flow_close_ok f f' :
  flow_close f = Some f' → flow_ok f →
  flow_ok f' ∧ ended f = false ∧ ended f' = true ∧ fl_read f' = fl_read f ∧ fl_written f' = fl_written f.
Proof.
  unfold flow_close, flow_ok, ended. by destruct (fl_copier f); intros [= <-].
Qed.

Lemma tunnel_ok_untouched p p' tu :
  untouched (tu_conn tu) (track p) (track p') → tunnel_ok p tu → tunnel_ok p' tu.
Proof.
  intros Hk [Hu Hd (ic & Hic & Hin & Hout & Hcl) Hc]. split; [done|done| |done].
  destruct (Hk ic Hic) as (ic' & Hic' & Heq & Hcl'). injection Heq as Hi Ho.
  exists ic'. rewrite Hi, Ho. split_and!; auto.
Qed.

Lemma transfer_used op p : used (p_world (transfer op p)) = used (p_world p).
Proof. apply io_step_used. Qed.

Lemma len_app l k : len (l ++ k) = len l + len k.
Proof. unfold len. rewrite length_app. lia. Qed.

Lemma transfer_write p c ic now n err :
  ts_heap (track p) !! c = Some ic →
  ts_heap (track (transfer (IoWrite c now n err) p)) !! c =
  Some (set_activity ic now (ic_BytesIn ic) (add_uint64 (ic_BytesOut ic) n)).
Proof. intros Hic. unfold transfer, track in *. simpl. unfold Write. rewrite Hic. apply lookup_insert_eq. Qed.

Lemma transfer_read p c ic now n err :
  ts_heap (track p) !! c = Some ic →
  ts_heap (track (transfer (IoRead c now n err) p)) !! c =
  Some (set_activity ic now (add_uint64 (ic_BytesIn ic) n) (ic_BytesOut ic)).
Proof. intros Hic. unfold transfer, track in *. simpl. unfold Read. rewrite Hic. apply lookup_insert_eq. Qed.

(** What a move leaves alone, of its tunnel and of other connections. *)
Section moves.
Context `{E : Env}.

Lemma move_frame mv tu p tu' p' :
  move mv tu p = Some (tu', p') →
  tu_thread tu' = tu_thread tu ∧ tu_conn tu' = tu_conn tu ∧
  tu_in0 tu' = tu_in0 tu ∧ tu_out0 tu' = tu_out0 tu ∧
  tu_early_up tu' = tu_early_up tu ∧ tu_early_down tu' = tu_early_down tu ∧
  p_threads p' = p_threads p ∧ used (p_world p') = used (p_world p) ∧
  ∀ c, c ≠ tu_conn tu → untouched c (track p) (track p').
Proof.
  intros Hm. destruct mv; simpl in Hm; apply bind_Some in Hm as (f & _ & Hm).
  1,5,6: by simplify_eq.
  1,3: simplify_eq; split_and!; try done; [apply transfer_used|];
    intros c Hne; by apply untouched_io.
  pose proof (close_step_used (tu_conn tu) env_Now env_Close (p_world p)) as Hu.
  pose proof (λ c, untouched_close_step c (tu_conn tu) env_Now env_Close (p_world p)) as Hk.
  destruct (close_step _ _ _ _) as [[r|what] w']; simplify_eq; split_and!; try done;
    intros c _; apply Hk.
Qed.

Lemma move_ok mv tu p tu' p' :
  move mv tu p = Some (tu', p') → tunnel_ok p tu → tunnel_ok p' tu'.
Proof.
  intros Hm [Hu Hd (ic & Hic & Hin & Hout & Hcl) Hc].
  destruct mv as [chunk er|n ew now| |chunk er now|n ew|]; simpl in Hm;
    apply bind_Some in Hm as (f & Hf & Hm).
  - destruct (flow_read_ok _ _ _ _ _ Hf Hu) as (Hu' & He & He' & Hr & Hw). simplify_eq.
    split; simpl; try done. exists ic. rewrite Hw, He'. split_and!; done.
  - destruct (flow_write_ok _ _ _ _ _ Hf Hu) as (Hu' & He & He' & Hr & (chunk & er & _ & Hn & Hw)).
    simplify_eq. split; try done. eexists. split; [by apply transfer_write|]. simpl.
    rewrite Hout, He', Hw, add_uint64_assoc, len_app. split_and!; [done| |done].
    unfold len. by rewrite length_take_le.
  - destruct (flow_close_ok _ _ Hf Hu) as (Hu' & He & He' & Hr & Hw).
    destruct (close_step_closes (tu_conn tu) env_Now env_Close (p_world p) ic Hic)
      as (ic' & Hic' & Heq & Hcl').
    injection Heq as Hi Ho.
    destruct (close_step _ _ _ _) as [[r|what] w']; simplify_eq.
    + split; simpl; try done. exists ic'. rewrite Hw, Hi, Ho. split_and!; done.
    + split; simpl; try done. exists ic'. rewrite Hi, Ho. split_and!; auto.
  - destruct (flow_read_ok _ _ _ _ _ Hf Hd) as (Hd' & He & He' & Hr & Hw). simplify_eq.
    split; try done; [|simpl; congruence]. eexists. split; [by apply transfer_read|]. simpl.
    rewrite Hin, Hr, add_uint64_assoc, len_app. split_and!; done.
  - destruct (flow_write_ok _ _ _ _ _ Hf Hd) as (Hd' & He & He' & Hr & _). simplify_eq.
    split; simpl; try done; [|congruence]. exists ic. rewrite Hr. split_and!; done.
  - destruct (flow_close_ok _ _ Hf Hd) as (Hd' & He & He' & Hr & Hw). simplify_eq.
    split; simpl; try done. exists ic. rewrite Hr. split_and!; done.
Qed.
End moves.
