(* ===== verification/Relay.v ===== *)
(** * What tunnels do in every run

    The invariant of the process with its tunnels ([system_inv]), a tunnel
    through a run ([s_step_tunnel]), and the theorems about tunnels: what is
    relayed, counted and lost, what closing one side does to the other, how
    many moves a tunnel can make after the closing of one of its connections,
    and on which calls a peer can hold it up. *)

From S2P Require Import Prelude GoStrings GoNet Acl Http Config Classify Conntrack Proxy Serve Logic Effects Safety Handling Concurrent Owners Tunnels.

(** ** What holds of the system *)
Section invariant.
Context `{E : Env} `{T : Transport} (config : Config) (hc : bool).

(** The goroutine [i] has answered with a tunnel for [c]. *)
Definition answered (p : Process) (i c : nat) : Prop :=
  ∃ t, p_threads p !! i = Some t ∧ t_prog t = Done (Ret (Tunnel c)).

Lemma answered_step i c p p' : p_step config hc p p' → answered p i c → answered p' i c.
Proof.
  intros Hs (t & Ht & Hp). destruct Hs as [req _|k u _ Hu|op _|id _|_]; simpl.
  - exists t. split; [by apply lookup_app_l_Some|done].
  - unfold answered, advance. destruct (next (t_prog u) (p_world p)) as [m w'] eqn:Hn. simpl.
    destruct (decide (k = i)) as [->|Hne].
    + simplify_eq. rewrite list_lookup_insert_eq by by eapply lookup_lt_Some.
      eexists. split; [done|]. rewrite Hp in Hn. simpl in *. by simplify_eq.
    + exists t. by rewrite list_lookup_insert_ne.
  - by exists t.
  - destruct (close_step id env_Now env_Close (p_world p)) as [r w']. by exists t.
  - by exists t.
Qed.

Record system_inv (s : System) : Prop := mkSystemInv {
  si_tracker : tracker_inv (sy_proc s);
  si_owners : ∃ f, owners f (sy_proc s) ∧
    ∀ tu, tu ∈ sy_tunnels s → tu_conn tu ∈ f (tu_thread tu);
  si_threads : NoDup (tu_thread <$> sy_tunnels s);
  si_answered tu : tu ∈ sy_tunnels s → answered (sy_proc s) (tu_thread tu) (tu_conn tu);
  si_ok tu : tu ∈ sy_tunnels s → tunnel_ok (sy_proc s) tu;
  si_early tu : tu ∈ sy_tunnels s → early_ok (tu_early_down tu)
}.

Lemma system_inv_boot w : ct_inv (w_track w) → system_inv (boot w).
Proof.
  intros Hw. split; simpl.
  - apply (tracker_inv_reachable config hc w); [done|apply rtc_refl].
  - exists (λ _, ∅). split; [apply owners_start|]. intros tu H. by apply elem_of_nil in H.
  - constructor.
  - intros tu H. by apply elem_of_nil in H.
  - intros tu H. by apply elem_of_nil in H.
  - intros tu H. by apply elem_of_nil in H.
Qed.

Lemma tracker_inv_steps p p' : rtc (p_step config hc) p p' → tracker_inv p → tracker_inv p'.
Proof. induction 1; eauto using tracker_inv_step. Qed.

Lemma owners_steps f p p' :
  rtc (p_step config hc) p p' → owners f p → ∃ f', owners f' p' ∧ ∀ i, f i ⊆ f' i.
Proof.
  intros Hr. revert f. induction Hr as [|p1 p2 p3 Hs _ IH]; intros f Hf; [by exists f|].
  destruct (owners_step config hc f p1 p2 Hs Hf) as (f1 & Hf1 & H1).
  destruct (IH f1 Hf1) as (f2 & Hf2 & H2). exists f2. split; [done|]. intros i. etrans; [apply H1|apply H2].
Qed.

(** Tunnels of different goroutines have different connections. *)
Lemma tunnels_disjoint s j k tu tu' :
  system_inv s → sy_tunnels s !! j = Some tu → sy_tunnels s !! k = Some tu' →
  tu_conn tu = tu_conn tu' → j = k.
Proof.
  intros [_ (f & Hf & Hown) Hnd _ _ _] Hj Hk Hc.
  pose proof (Hown tu (list_elem_of_lookup_2 _ _ _ Hj)) as H1.
  pose proof (Hown tu' (list_elem_of_lookup_2 _ _ _ Hk)) as H2.
  destruct (decide (tu_thread tu = tu_thread tu')) as [He|Hne].
  - apply (NoDup_lookup _ j k (tu_thread tu) Hnd); rewrite list_lookup_fmap.
    + by rewrite Hj.
    + rewrite Hk. simpl. by rewrite He.
  - pose proof (ow_disjoint _ _ Hf _ _ Hne). rewrite Hc in H1. set_solver.
Qed.

(** A connection that a goroutine returned as a tunnel exists, and its counters
    fit in 64 bits. *)
Lemma tunnel_ok_start p f i t c up down :
  tracker_inv p → owners f p → p_threads p !! i = Some t → t_prog t = Done (Ret (Tunnel c)) →
  c ∈ f i ∧ tunnel_ok p (start_tunnel i c up down p).
Proof.
  intros [H _] Hf Hi Ht. pose proof (ow_yields _ _ Hf i t Hi) as Hy. rewrite Ht in Hy. simpl in Hy.
  split; [done|]. pose proof (ow_used _ _ Hf i c Hy) as Hu. unfold used in Hu.
  apply elem_of_dom in Hu as [ic Hic]. destruct (inv_counters _ H c ic Hic) as [Hi' Ho].
  split; simpl; try done. unfold track. rewrite Hic. exists ic. simpl. rewrite !add_uint64_0 by done.
  split_and!; done.
Qed.

(** What is not a tunnel's leaves its connection untouched. *)
Lemma system_inv_other s p' :
  system_inv s → p_step config hc (sy_proc s) p' →
  (∀ tu, tu ∈ sy_tunnels s → untouched (tu_conn tu) (track (sy_proc s)) (track p')) →
  system_inv (mkSystem p' (sy_tunnels s)).
Proof.
  intros [Ht (f & Hf & Hown) Hnd Ha Hok Hearly] Hp Hu.
  destruct (owners_step config hc f _ _ Hp Hf) as (f' & Hf' & Hsub). split; simpl.
  - by eapply tracker_inv_step.
  - exists f'. split; [done|]. intros tu Hin. by apply Hsub, Hown.
  - done.
  - intros tu Hin. by apply (answered_step _ _ _ _ Hp), Ha.
  - intros tu Hin. apply (tunnel_ok_untouched (sy_proc s)); auto.
  - done.
Qed.

Lemma system_inv_step s s' : s_step config hc s s' → system_inv s → system_inv s'.
Proof.
  intros Hs Hi. pose proof Hi as [Ht (f & Hf & Hown) Hnd Ha Hok Hearly].
  destruct (owners_steps f _ _ (s_step_process config hc _ _ Hs) Hf) as (f' & Hf' & Hsub).
  pose proof (tracker_inv_steps _ _ (s_step_process config hc _ _ Hs) Ht) as Ht'.
  destruct Hs as [p' Hp|id Hcr|i t c up down Hcr Hit Hprog Hnew Hdown|j tu mv tu' p' Hcr Hj Hm]; simpl in *.
  - apply (system_inv_other s p' Hi); [by eapply r_step_process|].
    intros tu Hin. eapply r_step_untouched; [done|]. apply elem_of_conns. by exists tu.
  - apply (system_inv_other s _ Hi); [by apply p_close|]. intros tu _. apply closing_untouched.
  - destruct (tunnel_ok_start _ f i t c up down Ht Hf Hit Hprog) as [Hc Hstart].
    split; simpl; [done|exists f; split; [done|]| | | |].
    + intros tu [Hin| ->%list_elem_of_singleton]%elem_of_app; [by apply Hown|done].
    + rewrite fmap_app. apply NoDup_app. split_and!; [done| |apply NoDup_singleton].
      intros k Hk ->%list_elem_of_singleton. done.
    + intros tu [Hin| ->%list_elem_of_singleton]%elem_of_app; [by apply Ha|by exists t].
    + intros tu [Hin| ->%list_elem_of_singleton]%elem_of_app; [by apply Hok|done].
    + intros tu [Hin| ->%list_elem_of_singleton]%elem_of_app; [by apply Hearly|done].
  - destruct (move_frame _ _ _ _ _ Hm) as (Hth & Hc & _ & _ & _ & Hed & Hts & _ & Hk).
    assert (tu ∈ sy_tunnels s) as Hin by by eapply list_elem_of_lookup_2.
    split; simpl; [done|exists f'; split; [done|]| | | |].
    + intros tu0 [k Hk0]%list_elem_of_lookup. apply list_lookup_insert_Some in Hk0
        as [(-> & <- & _)|(_ & Hk0)]; [rewrite Hth, Hc; by apply Hsub, Hown|].
      apply Hsub, Hown. by eapply list_elem_of_lookup_2.
    + rewrite list_fmap_insert, Hth. by rewrite list_insert_id by (by rewrite list_lookup_fmap, Hj).
    + intros tu0 [k Hk0]%list_elem_of_lookup. unfold answered. rewrite Hts.
      apply list_lookup_insert_Some in Hk0
        as [(-> & <- & _)|(_ & Hk0)]; [rewrite Hth, Hc; by apply Ha|].
      apply Ha. by eapply list_elem_of_lookup_2.
    + intros tu0 [k Hk0]%list_elem_of_lookup. apply list_lookup_insert_Some in Hk0
        as [(-> & <- & _)|(Hne & Hk0)]; [by apply (move_ok mv tu (sy_proc s)), Hok|].
      apply (tunnel_ok_untouched (sy_proc s)); [|by apply Hok; eapply list_elem_of_lookup_2].
      apply Hk. intros Heq. apply Hne. by apply (tunnels_disjoint s j k tu tu0).
    + intros tu0 [k Hk0]%list_elem_of_lookup. apply list_lookup_insert_Some in Hk0
        as [(-> & <- & _)|(Hne & Hk0)]; [rewrite Hed|]; by eapply Hearly, list_elem_of_lookup_2.
Qed.

Lemma system_inv_reachable w s :
  ct_inv (w_track w) → rtc (s_step config hc) (boot w) s → system_inv s.
Proof.
  intros Hw Hr. pose proof (system_inv_boot w Hw) as H0.
  revert H0. induction Hr; eauto using system_inv_step.
Qed.
End invariant.

(** ** One tunnel through a run *)
Section one_tunnel.
Context `{E : Env} `{T : Transport} (config : Config) (hc : bool).

(** A step of the system leaves a tunnel and its connection alone or is a move
    of it. *)
Lemma s_step_tunnel s s' j tu :
  system_inv s → s_step config hc s s' → sy_tunnels s !! j = Some tu →
  (sy_tunnels s' !! j = Some tu ∧ untouched (tu_conn tu) (track (sy_proc s)) (track (sy_proc s'))) ∨
  ∃ mv tu', move mv tu (sy_proc s) = Some (tu', sy_proc s') ∧ sy_tunnels s' !! j = Some tu'.
Proof.
  intros Hi Hs Hj. assert (tu ∈ sy_tunnels s) as Hin by by eapply list_elem_of_lookup_2.
  destruct Hs as [p' Hp|id Hcr|i t c up down Hcr Hit Hprog Hnew _|k tu0 mv tu' p' Hcr Hk Hm]; simpl in *.
  - left. split; [done|].
    eapply r_step_untouched; [done|]. apply elem_of_conns. by exists tu.
  - left. split; [done|]. apply closing_untouched.
  - left. split; [by apply lookup_app_l_Some|done].
  - destruct (decide (k = j)) as [->|Hne].
    + simplify_eq. right. exists mv, tu'. split; [done|].
      by rewrite list_lookup_insert_eq by by eapply lookup_lt_Some.
    + left. rewrite list_lookup_insert_ne by done. split; [done|].
      destruct (move_frame _ _ _ _ _ Hm) as (_ & _ & _ & _ & _ & _ & _ & _ & Hkeep).
      apply Hkeep. intros Heq. apply Hne. symmetry. by eapply tunnels_disjoint.
Qed.

(** What no step changes of a tunnel, kept along runs. *)
Lemma s_steps_tunnel (P : Process → TunnelState → Prop) s s' j tu :
  (∀ p p' tu, untouched (tu_conn tu) (track p) (track p') → P p tu → P p' tu) →
  (∀ mv p tu tu' p', tunnel_ok p tu → move mv tu p = Some (tu', p') → P p tu → P p' tu') →
  system_inv s → rtc (s_step config hc) s s' → sy_tunnels s !! j = Some tu → P (sy_proc s) tu →
  ∃ tu', sy_tunnels s' !! j = Some tu' ∧ P (sy_proc s') tu'.
Proof.
  intros Hkeep Hmove Hi Hr. revert tu Hi.
  induction Hr as [s|s1 s2 s3 Hs _ IH]; intros tu Hi Hj HP; [by exists tu|].
  pose proof (system_inv_step config hc _ _ Hs Hi) as Hi'.
  destruct (s_step_tunnel _ _ _ _ Hi Hs Hj) as [[Hj' Hk]|(mv & tu' & Hm & Hj')].
  - apply (IH tu Hi' Hj'). by apply (Hkeep (sy_proc s1)).
  - apply (IH tu' Hi' Hj'). eapply Hmove; [|done|done].
    apply (si_ok _ Hi). by eapply list_elem_of_lookup_2.
Qed.

Lemma conn_closed_untouched c p p' ic :
  ts_heap (track p) !! c = Some ic → untouched c (track p) (track p') →
  conn_closed p c = true → conn_closed p' c = true.
Proof.
  unfold conn_closed. intros Hic Hk. rewrite Hic. destruct (Hk ic Hic) as (ic' & -> & _ & H). exact H.
Qed.

(** A closed connection gives no bytes. *)
Lemma flow_read_closed chunk er f f' :
  flow_read true chunk er f = Some f' → fl_read f' = fl_read f.
Proof.
  unfold flow_read, read_ok. destruct (fl_copier f); try done.
  destruct (_ && _) eqn:Hok; [|done]. intros [= <-]. simpl.
  destruct chunk; [by rewrite app_nil_r|]. simpl in Hok. by rewrite andb_false_r in Hok.
Qed.

Lemma flow_write_read closed n ew f f' :
  flow_write closed n ew f = Some f' → fl_read f' = fl_read f.
Proof. unfold flow_write. destruct (fl_copier f); try done. case_match; [|done]. by intros [= <-]. Qed.

Lemma flow_close_read f f' : flow_close f = Some f' → fl_read f' = fl_read f.
Proof. unfold flow_close. by destruct (fl_copier f); intros [= <-]. Qed.

Lemma conn_closed_move mv tu p tu' p' :
  tunnel_ok p tu → move mv tu p = Some (tu', p') →
  conn_closed p (tu_conn tu) = true → conn_closed p' (tu_conn tu') = true.
Proof.
  intros [_ _ (ic & Hic & _) _] Hm Hc. destruct (move_frame _ _ _ _ _ Hm) as (_ & -> & _).
  destruct mv as [chunk er|n ew now| |chunk er now|n ew|]; simpl in Hm;
    apply bind_Some in Hm as (f & Hf & Hm).
  1,5,6: by simplify_eq.
  - simplify_eq. unfold conn_closed in *. rewrite Hic in Hc. by rewrite (transfer_write _ _ ic).
  - pose proof (untouched_close_step (tu_conn tu) (tu_conn tu) env_Now env_Close (p_world p)) as Hk.
    destruct (close_step _ _ _ _) as [[r|what] w']; simplify_eq;
      by apply (conn_closed_untouched _ p _ ic).
  - simplify_eq. unfold conn_closed in *. rewrite Hic in Hc. by rewrite (transfer_read _ _ ic).
Qed.

(** Once the target's connection is closed, what came from the target is
    final, and likewise for the client. *)
Definition target_final (l : list Byte.byte) (p : Process) (tu : TunnelState) : Prop :=
  (∃ ic, ts_heap (track p) !! tu_conn tu = Some ic) ∧
  conn_closed p (tu_conn tu) = true ∧ fl_read (tu_down tu) = l.
Definition client_final (l : list Byte.byte) (tu : TunnelState) : Prop :=
  tu_client_closed tu = true ∧ fl_read (tu_up tu) = l.

Lemma target_final_untouched l p p' tu :
  untouched (tu_conn tu) (track p) (track p') → target_final l p tu → target_final l p' tu.
Proof.
  intros Hk ((ic & Hic) & Hc & Hl). split_and!; [|by eapply conn_closed_untouched|done].
  destruct (Hk ic Hic) as (ic' & ? & _). eauto.
Qed.

Lemma target_final_move l mv p tu tu' p' :
  tunnel_ok p tu → move mv tu p = Some (tu', p') → target_final l p tu → target_final l p' tu'.
Proof.
  intros Hok Hm (_ & Hc & Hl). pose proof (to_conn _ _ (move_ok _ _ _ _ _ Hm Hok)) as (ic & Hic & _).
  split_and!; [eauto|by eapply conn_closed_move|].
  destruct mv; simpl in Hm; apply bind_Some in Hm as (f & Hf & Hm);
    [by simplify_eq|by simplify_eq| | | |].
  - by destruct (close_step _ _ _ _) as [[r|what] w']; simplify_eq.
  - rewrite Hc in Hf. apply flow_read_closed in Hf. by simplify_eq.
  - apply flow_write_read in Hf. by simplify_eq.
  - apply flow_close_read in Hf. by simplify_eq.
Qed.

Lemma client_final_move l mv p tu tu' p' :
  move mv tu p = Some (tu', p') → client_final l tu → client_final l tu'.
Proof.
  intros Hm [Hc Hl]. destruct mv; simpl in Hm; apply bind_Some in Hm as (f & Hf & Hm);
    [| | |by simplify_eq|by simplify_eq|by simplify_eq].
  - rewrite Hc in Hf. apply flow_read_closed in Hf. by simplify_eq.
  - apply flow_write_read in Hf. by simplify_eq.
  - apply flow_close_read in Hf.
    by destruct (close_step _ _ _ _) as [[r|what] w']; simplify_eq.
Qed.
End one_tunnel.

(** ** Draining

    How many more moves the copiers of a tunnel can make once one of its
    connections is closed. *)
Definition left_up (target_closed client_closed : bool) (c : Copier) : nat :=
  match c with
  | Reading => if client_closed then 2 else 3
  | Writing _ _ => if target_closed then 2 else 3
  | Closing _ => 1
  | Ended _ => 0
  end.
Definition left_down (c : Copier) : nat :=
  match c with Writing _ _ => 3 | Reading => 2 | Closing _ => 1 | Ended _ => 0 end.

Definition left_moves (p : Process) (tu : TunnelState) : nat :=
  if p_crashed p then 0
  else left_up (conn_closed p (tu_conn tu)) (tu_client_closed tu) (fl_copier (tu_up tu)) +
       left_down (fl_copier (tu_down tu)).

Definition half_closed (p : Process) (tu : TunnelState) : Prop :=
  conn_closed p (tu_conn tu) = true ∨ tu_client_closed tu = true.

Lemma left_moves_bound p tu : (left_moves p tu ≤ 6)%nat.
Proof.
  unfold left_moves, left_up, left_down.
  destruct (p_crashed p), (fl_copier (tu_up tu)), (fl_copier (tu_down tu)); repeat case_match; lia.
Qed.

Lemma left_moves_untouched p p' tu :
  tunnel_ok p tu → p_crashed p = false → untouched (tu_conn tu) (track p) (track p') →
  (left_moves p' tu ≤ left_moves p tu)%nat.
Proof.
  intros [_ _ (ic & Hic & _) _] Hc Hk. unfold left_moves. rewrite Hc.
  destruct (p_crashed p'); [lia|].
  pose proof (conn_closed_untouched (tu_conn tu) p p' ic Hic Hk) as H. unfold left_up.
  destruct (fl_copier (tu_up tu)); [lia| |lia|lia].
  destruct (conn_closed p (tu_conn tu)); [by rewrite H|]. destruct (conn_closed p' _); lia.
Qed.

(** One copier: from a closed connection a read goes to the end, and so does a
    write to one. *)
Lemma flow_read_next closed chunk er f f' :
  flow_read closed chunk er f = Some f' →
  fl_copier f = Reading ∧
  ((∃ res, fl_copier f' = Closing res) ∨ (closed = false ∧ fl_copier f' = Writing chunk er)).
Proof.
  unfold flow_read, read_ok. destruct (fl_copier f); try done.
  destruct (_ && _) eqn:Hok; [|done]. intros [= <-]. split; [done|]. simpl.
  apply andb_true_iff in Hok as [_ Hok].
  destruct chunk; simpl in *; [destruct er; simpl; [done|eauto|eauto]|right].
  by destruct closed.
Qed.

Lemma flow_write_next closed n ew f f' :
  flow_write closed n ew f = Some f' →
  (∃ chunk er, fl_copier f = Writing chunk er) ∧
  ((∃ res, fl_copier f' = Closing res) ∨ (closed = false ∧ fl_copier f' = Reading)).
Proof.
  unfold flow_write, write_ok. destruct (fl_copier f) as [|chunk er|res|res]; try done.
  destruct (_ && _) eqn:Hok; [|done]. intros [= <-]. split; [by eauto|]. simpl. unfold after_write.
  destruct ew as [e|]; [by eauto|]. destruct closed.
  - by destruct (Nat.leb n (length chunk)), (Nat.eqb n 0).
  - destruct (Nat.eqb (length chunk) n); [destruct er; [by right|by left; eexists..]|by left; eexists].
Qed.

Lemma flow_close_next f f' :
  flow_close f = Some f' → ∃ res, fl_copier f = Closing res ∧ fl_copier f' = Ended res.
Proof. unfold flow_close. destruct (fl_copier f); try done. intros [= <-]. by eexists. Qed.

Section draining.
Context `{E : Env} `{T : Transport} (config : Config) (hc : bool).

Lemma left_moves_move mv p tu tu' p' :
  tunnel_ok p tu → half_closed p tu → p_crashed p = false → move mv tu p = Some (tu', p') →
  (S (left_moves p' tu') ≤ left_moves p tu)%nat.
Proof.
  intros Hok Hh Hcr Hm. pose proof (conn_closed_move _ _ _ _ _ Hok Hm) as Hcc.
  pose proof (to_client _ _ Hok) as Hcl. unfold ended in Hcl.
  unfold left_moves. rewrite Hcr. unfold half_closed in Hh.
  destruct mv as [chunk er|n ew now| |chunk er now|n ew|]; simpl in Hm;
    apply bind_Some in Hm as (f & Hf & Hm).
  - apply flow_read_next in Hf as [-> Hf]. simplify_eq. rewrite Hcr. simpl.
    destruct Hf as [[res ->]|[Hnc ->]]; simpl; [repeat case_match; lia|].
    destruct Hh as [->|]; [rewrite Hnc; lia|congruence].
  - apply flow_write_next in Hf as [(chunk & er & ->) Hf]. simplify_eq. simpl in *.
    destruct Hf as [[res ->]|[Hnc ->]]; simpl; [repeat case_match; lia|].
    rewrite Hnc in *. destruct Hh as [|Hh]; [done|]. rewrite Hh. lia.
  - apply flow_close_next in Hf as (res & -> & Hf).
    destruct (close_step _ _ _ _) as [[r|what] w']; simplify_eq; simpl; [rewrite Hf; simpl|]; lia.
  - apply flow_read_next in Hf as [Hr Hf]. simplify_eq. rewrite Hr in *. simpl in *.
    destruct Hh as [Hh|Hh]; [|congruence]. rewrite Hh in *. rewrite (Hcc eq_refl).
    destruct Hf as [[res ->]|[? _]]; [simpl; lia|done].
  - apply flow_write_next in Hf as [(chunk & er & Hw) Hf]. simplify_eq. rewrite Hw, Hcr. simpl.
    destruct Hf as [[res ->]|[_ ->]]; simpl; lia.
  - apply flow_close_next in Hf as (res & Hw & Hf). simplify_eq. rewrite Hw, Hcr. simpl. rewrite Hf.
    unfold left_up. simpl. repeat case_match; lia.
Qed.

(** A move that may have to wait for a peer: a read of a connection that is
    open, until the peer sends, and a write to one, until the peer has taken
    what was sent before.  There are no deadlines. *)
Definition waits (mv : Move) (tu : TunnelState) (p : Process) : bool :=
  match mv with
  | UpRead _ _ | DownWrite _ _ => negb (tu_client_closed tu)
  | UpWrite _ _ _ | DownRead _ _ _ => negb (conn_closed p (tu_conn tu))
  | UpClose | DownClose => false
  end.

(** One connection is closed, and a copier writes to the peer of the other one;
    the other copier reads from that peer or has ended. *)
Definition stalled (p : Process) (tu : TunnelState) : bool :=
  match fl_copier (tu_up tu), fl_copier (tu_down tu) with
  | (Reading | Ended _), Writing _ _ => negb (tu_client_closed tu) && conn_closed p (tu_conn tu)
  | Writing _ _, (Reading | Ended _) => tu_client_closed tu && negb (conn_closed p (tu_conn tu))
  | _, _ => false
  end.

Lemma read_of_closed f :
  fl_copier f = Reading → ∃ f', flow_read true [] (Broken (Err "closed")) f = Some f'.
Proof. unfold flow_read. intros ->. by eexists. Qed.

Lemma write_to_closed f chunk er :
  fl_copier f = Writing chunk er → ∃ f', flow_write true 0 (Some (Err "closed")) f = Some f'.
Proof. unfold flow_write. intros ->. by eexists. Qed.

Lemma close_moves mv p tu f :
  match mv with UpClose => flow_close (tu_up tu) | DownClose => flow_close (tu_down tu) | _ => None end
    = Some f →
  ∃ tu' p', waits mv tu p = false ∧ move mv tu p = Some (tu', p').
Proof.
  destruct mv; try done; simpl; intros ->; simpl; [|by eexists _, _].
  destruct (close_step _ _ _ _) as [[r|what] w']; by eexists _, _.
Qed.

Lemma stalled_waits p tu mv tu' p' :
  stalled p tu = true → move mv tu p = Some (tu', p') → waits mv tu p = true.
Proof.
  unfold stalled, waits. intros Hs Hm.
  destruct mv; simpl in Hm; apply bind_Some in Hm as (f & Hf & _);
    unfold flow_read, flow_write, flow_close in Hf;
    destruct (fl_copier (tu_up tu)), (fl_copier (tu_down tu)); try done;
    by destruct (tu_client_closed tu), (conn_closed p (tu_conn tu)).
Qed.

Lemma progress p tu :
  tunnel_ok p tu → half_closed p tu → ended (tu_up tu) && ended (tu_down tu) = false →
  if stalled p tu then ∀ mv tu' p', move mv tu p = Some (tu', p') → waits mv tu p = true
  else ∃ mv tu' p', waits mv tu p = false ∧ move mv tu p = Some (tu', p').
Proof.
  intros Hok Hh He. pose proof (to_client _ _ Hok) as Hcl.
  assert (ended (tu_up tu) = true → conn_closed p (tu_conn tu) = true) as Hup.
  { destruct (to_conn _ _ Hok) as (ic & Hic & _ & _ & H). unfold conn_closed. by rewrite Hic. }
  destruct (stalled p tu) eqn:Hs; [intros mv tu' p'; by apply stalled_waits|].
  destruct (fl_copier (tu_up tu)) as [|c1 e1|r1|r1] eqn:Hu;
    [| |exists UpClose; eapply (close_moves _ _ _ (mkFlow (Ended r1) _ _)); unfold flow_close; by rewrite Hu|];
    (destruct (fl_copier (tu_down tu)) as [|c2 e2|r2|r2] eqn:Hd;
    [| |exists DownClose; eapply (close_moves _ _ _ (mkFlow (Ended r2) _ _)); unfold flow_close; by rewrite Hd|]);
    unfold stalled, ended, half_closed in *; rewrite Hu, Hd in *; try done;
    destruct (conn_closed p (tu_conn tu)) eqn:Hc, (tu_client_closed tu) eqn:Hcc; try done;
    try (by destruct Hh; congruence); try (by discriminate (Hup eq_refl)).
  all: first
    [ destruct (read_of_closed _ Hu) as [f Hf]; exists (UpRead [] (Broken (Err "closed")));
      simpl; rewrite Hcc, Hf; by eexists _, _
    | destruct (write_to_closed _ _ _ Hu) as [f Hf]; exists (UpWrite 0 (Some (Err "closed")) 0);
      simpl; rewrite Hc, Hf; by eexists _, _
    | destruct (read_of_closed _ Hd) as [f Hf]; exists (DownRead [] (Broken (Err "closed")) 0);
      simpl; rewrite Hc, Hf; by eexists _, _
    | destruct (write_to_closed _ _ _ Hd) as [f Hf]; exists (DownWrite 0 (Some (Err "closed")));
      simpl; rewrite Hcc, Hf; by eexists _, _ ].
Qed.

Lemma half_closed_untouched p p' tu :
  tunnel_ok p tu → untouched (tu_conn tu) (track p) (track p') → half_closed p tu → half_closed p' tu.
Proof.
  intros [_ _ (ic & Hic & _) _] Hk [Hc|Hc]; [left|by right]. by eapply conn_closed_untouched.
Qed.

Lemma half_closed_move mv p tu tu' p' :
  tunnel_ok p tu → move mv tu p = Some (tu', p') → half_closed p tu → half_closed p' tu'.
Proof.
  intros Hok Hm [Hc|Hc]; [left; by eapply conn_closed_move|right].
  destruct mv; simpl in Hm; apply bind_Some in Hm as (f & _ & Hm); try by simplify_eq.
  by destruct (close_step _ _ _ _) as [[r|what] w']; simplify_eq.
Qed.

(** Runs, with the moves of the tunnel [j] among their steps counted. *)
Inductive run_with (j : nat) : nat → System → System → Prop :=
| run_none s : run_with j 0 s s
| run_other n s s' s'' : s_step config hc s s' → run_with j n s' s'' → run_with j n s s''
| run_move n s tu mv tu' p' s'' :
    p_crashed (sy_proc s) = false → sy_tunnels s !! j = Some tu →
    move mv tu (sy_proc s) = Some (tu', p') →
    run_with j n (mkSystem p' (<[j := tu']> (sy_tunnels s))) s'' → run_with j (S n) s s''.

Lemma s_step_alive s s' : s_step config hc s s' → p_crashed (sy_proc s) = false.
Proof. by destruct 1 as [p' []| | |]. Qed.

Lemma run_with_bound j n s s' tu :
  run_with j n s s' → system_inv s → sy_tunnels s !! j = Some tu → half_closed (sy_proc s) tu →
  (n ≤ left_moves (sy_proc s) tu)%nat.
Proof.
  intros Hr. revert tu.
  induction Hr as [s|n s s1 s2 Hs _ IH|n s tu0 mv tu1 p1 s2 Hcr Hj0 Hm _ IH]; intros tu Hi Hj Hh;
    [lia|..]; assert (tunnel_ok (sy_proc s) tu) as Hok
      by (apply (si_ok _ Hi); by eapply list_elem_of_lookup_2).
  - pose proof (s_step_alive _ _ Hs) as Hcr. pose proof (system_inv_step config hc _ _ Hs Hi) as Hi'.
    destruct (s_step_tunnel config hc _ _ _ _ Hi Hs Hj) as [[Hj' Hk]|(mv & tu' & Hm & Hj')].
    + etrans; [apply (IH tu Hi' Hj'); by apply (half_closed_untouched (sy_proc s))|].
      by apply left_moves_untouched.
    + pose proof (left_moves_move _ _ _ _ _ Hok Hh Hcr Hm).
      pose proof (IH tu' Hi' Hj' (half_closed_move _ _ _ _ _ Hok Hm Hh)). lia.
  - rewrite Hj in Hj0. injection Hj0 as <-.
    pose proof (left_moves_move _ _ _ _ _ Hok Hh Hcr Hm).
    assert (s_step config hc s (mkSystem p1 (<[j := tu1]> (sy_tunnels s)))) as Hs
      by by eapply s_move.
    enough (n ≤ left_moves p1 tu1)%nat by lia. apply (IH tu1).
    + by apply (system_inv_step config hc s).
    + simpl. rewrite list_lookup_insert_eq; [done|by eapply lookup_lt_Some].
    + by apply (half_closed_move mv (sy_proc s) tu).
Qed.

(** ** Theorems *)

(** All that was taken from a connection after the request: what was in the
    buffer that is dropped, and what the copier read. *)
Definition taken (early : list Byte.byte) (f : Flow) : list Byte.byte := early ++ fl_read f.

Lemma flow_ok_taken early f :
  flow_ok f →
  ∃ rest, taken early f = early ++ fl_written f ++ rest ∧
    (fl_copier f ∈ [Reading; Closing None; Ended None] → rest = []).
Proof.
  unfold flow_ok, taken. destruct (fl_copier f) as [|c er|res|res].
  - intros ->. exists []. by rewrite app_nil_r.
  - intros ->. exists c. split; [done|]. rewrite !elem_of_cons, elem_of_nil. naive_solver.
  - intros [[rest Hr] He]. exists rest. rewrite Hr. split; [done|].
    rewrite !elem_of_cons, elem_of_nil. intros [|[[= ->]|[|[]]]]; try done. specialize (He eq_refl).
    apply (app_inv_head (fl_written f)). rewrite app_nil_r. congruence.
  - intros [[rest Hr] He]. exists rest. rewrite Hr. split; [done|].
    rewrite !elem_of_cons, elem_of_nil. intros [|[|[[= ->]|[]]]]; try done. specialize (He eq_refl).
    apply (app_inv_head (fl_written f)). rewrite app_nil_r. congruence.
Qed.

(** What every run says about its tunnels. *)
Lemma system_relays w s :
  ct_inv (w_track w) → rtc (s_step config hc) (boot w) s →
  rtc (p_step config hc) (start w) (sy_proc s) ∧
  (∀ j k tu tu', sy_tunnels s !! j = Some tu → sy_tunnels s !! k = Some tu' →
     tu_conn tu = tu_conn tu' → j = k) ∧
  ∀ tu, tu ∈ sy_tunnels s →
    answered (sy_proc s) (tu_thread tu) (tu_conn tu) ∧
    ((∀ r, tr_https_proxy r = "") → tu_early_down tu = []) ∧
    (∀ f early, (f, early) ∈ [(tu_up tu, tu_early_up tu); (tu_down tu, tu_early_down tu)] →
       ∃ rest, taken early f = early ++ fl_written f ++ rest ∧
       (fl_copier f ∈ [Reading; Closing None; Ended None] → rest = [])) ∧
    ∃ ic, ts_heap (track (sy_proc s)) !! tu_conn tu = Some ic ∧
      ic_BytesIn ic = add_uint64 (tu_in0 tu) (len (fl_read (tu_down tu))) ∧
      ic_BytesOut ic = add_uint64 (tu_out0 tu) (len (fl_written (tu_up tu))).
Proof.
  intros Hw Hr. pose proof (system_inv_reachable config hc w s Hw Hr) as Hi.
  split; [by apply (s_steps_process config hc) in Hr|].
  split; [intros j k tu tu'; by apply tunnels_disjoint|]. intros tu Hin.
  destruct (si_ok _ Hi tu Hin) as [Hu Hd (ic & Hic & Hbi & Hbo & _) _].
  split; [by apply (si_answered _ Hi)|]. split; [by apply (si_early _ Hi)|].
  split; [|by exists ic].
  intros f early [[= -> ->]|[[= -> ->]|[]%elem_of_nil]%elem_of_cons]%elem_of_cons;
    by apply flow_ok_taken.
Qed.

Lemma closed_untracked s c :
  system_inv s → conn_closed (sy_proc s) c = true → c ∉ tr_Map (ts_tracker (track (sy_proc s))).
Proof.
  intros Hi Hc Hin. destruct (proj1 (inv_map _ (ti_owed _ (si_tracker _ Hi)) c) Hin) as (ic & Hic & Ho).
  unfold conn_closed, track in Hc. rewrite Hic in Hc. congruence.
Qed.

(** C17: tunnels close both ways. When the direction to the target has ended,
    for whatever reason (also because the client just finished sending), the
    target's connection is closed and no longer tracked; and whatever happens
    afterwards, it stays so and no further byte is taken from the target: an
    answer that has not been read by then never reaches the client.  In the
    same way the end of the direction to the client closes the client's
    connection, and nothing more is taken from the client. *)
Theorem tunnel_half_close w s s' j tu :
  ct_inv (w_track w) → rtc (s_step config hc) (boot w) s → sy_tunnels s !! j = Some tu →
  rtc (s_step config hc) s s' →
  (ended (tu_up tu) = true →
     tu_conn tu ∉ tr_Map (ts_tracker (track (sy_proc s))) ∧
     ∃ tu', sy_tunnels s' !! j = Some tu' ∧ conn_closed (sy_proc s') (tu_conn tu') = true ∧
       fl_read (tu_down tu') = fl_read (tu_down tu)) ∧
  (ended (tu_down tu) = true →
     ∃ tu', sy_tunnels s' !! j = Some tu' ∧ tu_client_closed tu' = true ∧
       fl_read (tu_up tu') = fl_read (tu_up tu)).
Proof.
  intros Hw Hr Hj Hr'. pose proof (system_inv_reachable config hc w s Hw Hr) as Hi.
  pose proof (si_ok _ Hi tu (list_elem_of_lookup_2 _ _ _ Hj)) as [_ _ (ic & Hic & _ & _ & Hcl) Hc].
  split; intros He.
  - assert (conn_closed (sy_proc s) (tu_conn tu) = true) as Hcc
      by (unfold conn_closed; rewrite Hic; by apply Hcl).
    split; [by apply closed_untracked|].
    destruct (s_steps_tunnel config hc (target_final (fl_read (tu_down tu))) s s' j tu)
      as (tu' & Hj' & _ & Hcc' & Hl); [apply target_final_untouched|apply target_final_move|done..| |].
    + by split_and!; [exists ic| |].
    + by exists tu'.
  - destruct (s_steps_tunnel config hc (λ _, client_final (fl_read (tu_up tu))) s s' j tu)
      as (tu' & Hj' & Hcc' & Hl); [done| |done..| |].
    + intros mv p tu1 tu2 p' _ Hm [H1 H2]. by apply (client_final_move _ mv p tu1 tu2 p').
    + by split; [congruence|].
    + by exists tu'.
Qed.

(** What becomes of a tunnel with a closed connection, in every run. *)
Lemma half_closed_drains w s j tu :
  ct_inv (w_track w) → rtc (s_step config hc) (boot w) s → sy_tunnels s !! j = Some tu →
  half_closed (sy_proc s) tu →
  (∀ n s', run_with j n s s' → (n ≤ 6)%nat) ∧
  ∀ s', rtc (s_step config hc) s s' →
    ∃ tu', sy_tunnels s' !! j = Some tu' ∧
    if ended (tu_up tu') && ended (tu_down tu')
    then tu_client_closed tu' = true ∧ conn_closed (sy_proc s') (tu_conn tu') = true ∧
         tu_conn tu' ∉ tr_Map (ts_tracker (track (sy_proc s')))
    else if stalled (sy_proc s') tu'
    then ∀ mv tu'' p'', move mv tu' (sy_proc s') = Some (tu'', p'') → waits mv tu' (sy_proc s') = true
    else ∃ mv tu'' p'', waits mv tu' (sy_proc s') = false ∧
         move mv tu' (sy_proc s') = Some (tu'', p'').
Proof.
  intros Hw Hr Hj Hh. pose proof (system_inv_reachable config hc w s Hw Hr) as Hi. split.
  { intros n s' Hn. etrans; [by eapply run_with_bound|]. apply left_moves_bound. }
  intros s' Hr'. pose proof (system_inv_reachable config hc w s' Hw) as Hi'.
  rewrite Hr in Hi'. specialize (Hi' Hr').
  pose proof (si_ok _ Hi tu (list_elem_of_lookup_2 _ _ _ Hj)) as Hok.
  destruct (s_steps_tunnel config hc (λ p tu, tunnel_ok p tu ∧ half_closed p tu) s s' j tu)
    as (tu' & Hj' & Hok' & Hh'); [..|done|done|done|done|].
  { intros p p' tu1 Hk [H1 H2]. split; [by eapply tunnel_ok_untouched|by eapply half_closed_untouched]. }
  { intros mv p tu1 tu2 p' _ Hm [H1 H2]. split; [by eapply move_ok|by eapply half_closed_move]. }
  exists tu'. split; [done|].
  destruct (ended (tu_up tu') && ended (tu_down tu')) eqn:He; [|by apply progress].
  apply andb_true_iff in He as [Hu Hd].
  destruct Hok' as [_ _ (ic & Hic & _ & _ & Hcl) Hc]. split; [congruence|].
  assert (conn_closed (sy_proc s') (tu_conn tu') = true) as Hcc
    by (unfold conn_closed; rewrite Hic; by apply Hcl).
  split; [done|]. by apply closed_untracked.
Qed.

(** ** Executing a schedule *)
Definition do_move (s : System) (jm : nat * Move) : System :=
  if p_crashed (sy_proc s) then s
  else
    match sy_tunnels s !! jm.1 with
    | None => s
    | Some tu =>
        match move jm.2 tu (sy_proc s) with
        | Some (tu', p') => mkSystem p' (<[jm.1 := tu']> (sy_tunnels s))
        | None => s
        end
    end.

Definition do_spawn (s : System) (i : nat) (early : list Byte.byte) : System :=
  if p_crashed (sy_proc s) then s
  else
    match p_threads (sy_proc s) !! i with
    | Some t =>
        match t_prog t with
        | Done (Ret (Tunnel c)) =>
            if bool_decide (i ∈ tu_thread <$> sy_tunnels s) then s
            else mkSystem (sy_proc s) (sy_tunnels s ++ [start_tunnel i c early [] (sy_proc s)])
        | _ => s
        end
    | None => s
    end.

Lemma do_move_steps s jm : rtc (s_step config hc) s (do_move s jm).
Proof.
  unfold do_move. destruct (p_crashed (sy_proc s)) eqn:Hc; [done|].
  destruct (sy_tunnels s !! jm.1) as [tu|] eqn:Hj; [|done].
  destruct (move jm.2 tu (sy_proc s)) as [[tu' p']|] eqn:Hm; [|done].
  by apply rtc_once, (s_move config hc s jm.1 tu jm.2).
Qed.

Lemma do_moves_steps s l : rtc (s_step config hc) s (foldl do_move s l).
Proof.
  revert s. induction l as [|jm l IH]; intros s; [done|]. simpl. etrans; [apply do_move_steps|apply IH].
Qed.

Lemma do_spawn_steps s i early : rtc (s_step config hc) s (do_spawn s i early).
Proof.
  unfold do_spawn. destruct (p_crashed (sy_proc s)) eqn:Hc; [done|].
  destruct (p_threads (sy_proc s) !! i) as [t|] eqn:Hi; [|done].
  destruct (t_prog t) as [[r|]|] eqn:Ht; try done. destruct r; try done.
  case_bool_decide; [done|]. by apply rtc_once, (s_spawn config hc s i t).
Qed.

(** A run of the process alone. *)
Lemma process_steps p p' :
  rtc (p_step config hc) p p' → rtc (s_step config hc) (mkSystem p []) (mkSystem p' []).
Proof.
  induction 1 as [|p1 p2 p3 Hs _ IH]; [done|]. eapply rtc_l; [|exact IH].
  apply (s_process config hc (mkSystem p1 [])).
  by destruct (p_step_cases config hc ∅ p1 p2 Hs) as [|[(op & Hop & _)|(id & Hid & _)]];
    [|apply elem_of_empty in Hop|apply elem_of_empty in Hid].
Qed.
End draining.

(** ** A sample tunnel

    The client sends a request and its end; the target's answer comes after
    the direction to the target has ended, and is lost. *)
Definition tunnel_choices : list Choice := Arrive connect_request :: replicate 20 (Go 0).

Definition bytes (s : string) : list Byte.byte := String.list_byte_of_string s.

Definition early_tunnel (early : string) (l : list (nat * Move)) : System :=
  foldl (@do_move rebinding_env)
    (do_spawn (mkSystem (sample_process tunnel_choices) []) 0 (bytes early)) l.

Definition sample_tunnel (l : list (nat * Move)) : System := early_tunnel "" l.

Definition request_sent : list (nat * Move) :=
  [(0, UpRead (bytes "GET /") More); (0, UpWrite 5 None 2000);
   (0, DownRead (bytes "200") More 2001); (0, DownWrite 3 None);
   (0, UpRead [] AtEOF); (0, UpClose)]%nat.

Lemma scheduled_steps `{E : Env} `{T : Transport} config hc w p i early l :
  rtc (p_step config hc) (start w) p →
  rtc (s_step config hc) (boot w) (foldl do_move (do_spawn (mkSystem p []) i early) l).
Proof.
  intros Hp. etrans; [by apply process_steps|]. etrans; [apply do_spawn_steps|apply do_moves_steps].
Qed.

Lemma early_tunnel_reachable early l :
  rtc (@s_step rebinding_env direct_transport (acl_config sample_acl) false) (boot init_world)
    (early_tunnel early l).
Proof. apply scheduled_steps, execute_steps. Qed.

Lemma sample_tunnel_reachable l :
  rtc (@s_step rebinding_env direct_transport (acl_config sample_acl) false) (boot init_world)
    (sample_tunnel l).
Proof. apply early_tunnel_reachable. Qed.

Definition answer_later : list (nat * Move) :=
  [(0, DownRead (bytes " OK") More 2002); (0, DownRead [] (Broken (Err "closed")) 2003)]%nat.

Lemma sample_tunnel_app l k :
  sample_tunnel (l ++ k) = foldl (@do_move rebinding_env) (sample_tunnel l) k.
Proof. apply foldl_app. Qed.

Definition sent_tunnel : TunnelState :=
  mkTunnel 0 0 0 0 [] [] false (mkFlow (Ended None) (bytes "GET /") (bytes "GET /"))
    (mkFlow Reading (bytes "200") (bytes "200")).

Lemma sample_tunnel_sent : sy_tunnels (sample_tunnel request_sent) !! 0%nat = Some sent_tunnel.
Proof. vm_compute. reflexivity. Qed.

(** The client sends a byte right behind its CONNECT, the rest later, and its
    end. *)
Definition sent_behind : list (nat * Move) :=
  [(0, UpRead (bytes "GET /") More); (0, UpWrite 5 None 2000); (0, UpRead [] AtEOF)]%nat.

(** The target answers, the client has sent its end, and does not take the
    answer. *)
Definition client_stalls : list (nat * Move) :=
  [(0, DownRead (bytes "200") More 2001); (0, UpRead [] AtEOF); (0, UpClose)]%nat.

(** C6: tunnels relay, whatever else the process does. In every run of the
    process with its tunnels, under any interleaving of requests, copiers,
    closes and a shutdown: each tunnel belongs to a goroutine that answered its
    request with that connection, and no two tunnels share a connection.  Of
    what was taken from the client after its request, the bytes that the server
    had buffered when goproxy took the connection over are dropped; of the
    others what the target was given is a prefix; and a direction that is not in
    the middle of a chunk, or has ended without an error, has delivered all of
    them.  So for the client, who loses bytes only when the answer of an
    upstream proxy was read through a buffer.  The counters of the connection
    have moved by exactly the bytes that this tunnel read and wrote since it
    started, modulo 2^64.  A client that sends a byte right behind its CONNECT
    does lose it. *)
Theorem tunnels_relay :
  (∀ (E : Env) (T : Transport) config hc w s,
   ct_inv (w_track w) → rtc (s_step config hc) (boot w) s →
   rtc (p_step config hc) (start w) (sy_proc s) ∧
   (∀ j k tu tu', sy_tunnels s !! j = Some tu → sy_tunnels s !! k = Some tu' →
      tu_conn tu = tu_conn tu' → j = k) ∧
   ∀ tu, tu ∈ sy_tunnels s →
     answered (sy_proc s) (tu_thread tu) (tu_conn tu) ∧
     ((∀ r, tr_https_proxy r = "") → tu_early_down tu = []) ∧
     (∀ f early, (f, early) ∈ [(tu_up tu, tu_early_up tu); (tu_down tu, tu_early_down tu)] →
        ∃ rest, taken early f = early ++ fl_written f ++ rest ∧
        (fl_copier f ∈ [Reading; Closing None; Ended None] → rest = [])) ∧
     ∃ ic, ts_heap (track (sy_proc s)) !! tu_conn tu = Some ic ∧
       ic_BytesIn ic = add_uint64 (tu_in0 tu) (len (fl_read (tu_down tu))) ∧
       ic_BytesOut ic = add_uint64 (tu_out0 tu) (len (fl_written (tu_up tu)))) ∧
  ∃ s tu, rtc (@s_step rebinding_env direct_transport (acl_config sample_acl) false)
      (boot init_world) s ∧ tu ∈ sy_tunnels s ∧
    fl_copier (tu_up tu) = Closing None ∧
    taken (tu_early_up tu) (tu_up tu) = bytes "xGET /" ∧ fl_written (tu_up tu) = bytes "GET /".
Proof.
  split; [intros E T; apply system_relays|].
  exists (early_tunnel "x" sent_behind).
  exists (mkTunnel 0 0 0 0 (bytes "x") [] false (mkFlow (Closing None) (bytes "GET /") (bytes "GET /"))
           (mkFlow Reading [] [])).
  split; [apply early_tunnel_reachable|]. split; [|by split_and!].
  apply (list_elem_of_lookup_2 _ 0). by vm_compute.
Qed.

Lemma tunnels_relay_witness :
  ∃ ic, ts_heap (track (sy_proc (sample_tunnel request_sent))) !! 0%nat = Some ic ∧
    ic_BytesIn ic = 3 ∧ ic_BytesOut ic = 5.
Proof.
  pose proof (sample_tunnel_reachable request_sent) as Hr. pose proof sample_tunnel_sent as Hs.
  revert Hr Hs. generalize (sample_tunnel request_sent). intros s Hr Hs.
  destruct (proj1 tunnels_relay rebinding_env direct_transport (acl_config sample_acl) false init_world s
    (ct_inv_init _ _) Hr) as (_ & _ & H).
  destruct (H sent_tunnel) as (_ & _ & _ & ic & Hic & Hi & Ho); [by eapply list_elem_of_lookup_2|].
  exists ic. split_and!; [exact Hic|by rewrite Hi; vm_compute|by rewrite Ho; vm_compute].
Defined.

Lemma tunnel_half_close_witness :
  ∃ tu, sy_tunnels (sample_tunnel (request_sent ++ answer_later)) !! 0%nat = Some tu ∧ fl_read (tu_down tu) = bytes "200".
Proof.
  rewrite sample_tunnel_app.
  pose proof (sample_tunnel_reachable request_sent) as Hr. pose proof sample_tunnel_sent as Hs.
  revert Hr Hs. generalize (sample_tunnel request_sent). intros s Hr Hs.
  destruct (@tunnel_half_close rebinding_env direct_transport (acl_config sample_acl) false
    init_world s _ 0 sent_tunnel (ct_inv_init _ _) Hr Hs (do_moves_steps _ _ _ answer_later)) as [H _].
  destruct (H eq_refl) as (_ & tu & Htu & _ & Hl). exists tu. split; [exact Htu|exact Hl].
Defined.

(** C16: tunnels drain, unless a peer stalls. Once one of the two connections of
    a tunnel is closed, by one of its copiers or by the final visit of a
    shutdown, the two copiers together make at most six more moves, whatever
    the peers and the rest of the process do; and when both have ended, both
    connections are closed and the target's is no longer tracked.  Until then
    there is a move that waits for no peer (a move on an open connection may:
    a read until the peer sends, a write until it takes), with one exception:
    a copier that writes to the peer of the open connection while the other one
    reads from it or has ended.  Then every move waits for that peer, without a
    deadline.  A client that stops reading does keep a tunnel so after its
    target was closed. *)
Theorem tunnel_drains :
  (∀ (E : Env) (T : Transport) config hc w s j tu,
   ct_inv (w_track w) → rtc (s_step config hc) (boot w) s → sy_tunnels s !! j = Some tu →
   conn_closed (sy_proc s) (tu_conn tu) = true ∨ tu_client_closed tu = true →
   (∀ n s', run_with config hc j n s s' → (n ≤ 6)%nat) ∧
   ∀ s', rtc (s_step config hc) s s' →
     ∃ tu', sy_tunnels s' !! j = Some tu' ∧
     if ended (tu_up tu') && ended (tu_down tu')
     then tu_client_closed tu' = true ∧ conn_closed (sy_proc s') (tu_conn tu') = true ∧
          tu_conn tu' ∉ tr_Map (ts_tracker (track (sy_proc s')))
     else if stalled (sy_proc s') tu'
     then ∀ mv tu'' p'', move mv tu' (sy_proc s') = Some (tu'', p'') → waits mv tu' (sy_proc s') = true
     else ∃ mv tu'' p'', waits mv tu' (sy_proc s') = false ∧
          move mv tu' (sy_proc s') = Some (tu'', p'')) ∧
  ∃ s tu, rtc (@s_step rebinding_env direct_transport (acl_config sample_acl) false)
      (boot init_world) s ∧ tu ∈ sy_tunnels s ∧
    conn_closed (sy_proc s) (tu_conn tu) = true ∧ stalled (sy_proc s) tu = true.
Proof.
  split; [intros E T; apply half_closed_drains|].
  exists (early_tunnel "" client_stalls).
  exists (mkTunnel 0 0 0 0 [] [] false (mkFlow (Ended None) [] [])
           (mkFlow (Writing (bytes "200") More) (bytes "200") [])).
  split; [apply early_tunnel_reachable|]. split; [|by vm_compute].
  apply (list_elem_of_lookup_2 _ 0). by vm_compute.
Qed.

Lemma tunnel_drains_witness :
  ∃ mv tu' p', waits mv sent_tunnel (sy_proc (sample_tunnel request_sent)) = false ∧
    @move rebinding_env mv sent_tunnel (sy_proc (sample_tunnel request_sent)) = Some (tu', p').
Proof.
  assert (conn_closed (sy_proc (sample_tunnel request_sent)) 0 = true) as Hc
    by (vm_compute; reflexivity).
  pose proof (sample_tunnel_reachable request_sent) as Hr. pose proof sample_tunnel_sent as Hs.
  revert Hr Hs Hc. generalize (sample_tunnel request_sent). intros s Hr Hs Hc.
  destruct (proj1 tunnel_drains rebinding_env direct_transport (acl_config sample_acl) false
    init_world s 0%nat sent_tunnel (ct_inv_init _ _) Hr Hs (or_introl Hc)) as [_ H].
  destruct (H s (rtc_refl _ _)) as (tu & Htu & Hd). rewrite Hs in Htu. injection Htu as <-.
  unfold stalled in Hd. simpl in Hd. exact Hd.
Defined.
