(* ===== verification/Shutdown.v ===== *)
(** * Starting and stopping the server, part by part

    Parts of [StartWithConfig] and [runServer] of
    [src/pkg/smokescreen/smokescreen.go], each on its own: which listener is
    served, the flag that announces a shutdown, the wait for idle connections
    and the final closing of what is still open.  [Lifecycle.v] puts them
    together and runs them next to the goroutines of the requests.

    The atomic flag of the configuration is copied into the tracker when the
    server starts; both copies are part of the state.  Signals, the clock and
    what the connections look like at each visit are arguments. *)

From S2P Require Import Prelude GoStrings GoNet Acl Http Config Conntrack.

(** ** Listeners *)
Inductive Listener :=
| TcpListener (addr : string)
| EinhornListener (fd : nat)
| ProxyProtoListener (l : Listener)
| TlsListener (l : Listener).

(** The einhorn master, the sockets and the process number. *)
Class Net := {
  net_IsWorker : bool;
  net_GetListener : nat → result unit;
  net_Listen : string → string → result unit;   (* network and address *)
  net_Getpid : Z;
  net_accept_fails : bool        (* accepting can fail for good *)
}.

Definition findListener `{N : Net} (ip : string) (defaultPort : Z) : result Listener :=
  if net_IsWorker then
    let? _ := net_GetListener 0 in Ok (EinhornListener 0)
  else
    let addr := ip +:+ ":" +:+ pretty defaultPort in
    let? _ := net_Listen "tcp" addr in Ok (TcpListener addr).

(** The wrapping that [StartWithConfig] does; [tls] says whether a TLS
    configuration is set. *)
Definition start_listener `{N : Net} (config : Config) (tls : bool) : result Listener :=
  let? listener := findListener (Ip config) (Port config) in
  let listener :=
    if SupportProxyProtocol config then ProxyProtoListener listener else listener in
  Ok (if tls then TlsListener listener else listener).

(** ** The server *)
Inductive Signal :=
| Kill     (* SIGUSR2, SIGTERM or SIGHUP *)
| Quit.    (* the channel given to StartWithConfig *)

Record Server := mkServer {
  sv_ShuttingDown : option bool;   (* config.ShuttingDown *)
  sv_graceful : bool;
  sv_shutdown_timeout : option Z;  (* of the context of server.Shutdown *)
  sv_track : TrackState            (* config.ConnTracker *)
}.

(** The tracker is made with a copy of the flag as it is, then the flag of the
    configuration is set to false. *)
Definition start_server (config : Config) (flag : option bool) : Server :=
  let tracker := init_state (IdleThreshold config) flag in
  mkServer (Some false) true None tracker.

(** The goroutine that waits for a signal. *)
Definition on_signal (config : Config) (sv : Server) (sig : Signal) : Server :=
  let graceful := match sig with Kill => sv_graceful sv | Quit => false end in
  let timeout := if graceful then ExitTimeout config else 10 * second in
  mkServer (Some true) graceful (Some timeout) (sv_track sv).

Definition set_track (sv : Server) (t : TrackState) : Server :=
  mkServer (sv_ShuttingDown sv) (sv_graceful sv) (sv_shutdown_timeout sv) t.

(** ** Waiting for the connections to become idle

    One round of the loop: the connections and clock that [MaybeIdleIn] sees,
    and the clock after it. *)
Record Round := mkRound {
  rd_visit : list InstrumentedConn;
  rd_clock : nat → Z;
  rd_now : Z
}.

Inductive WaitEnd := AllIdle | TimedOut.

(** The loop of [runServer]; [None] is out of fuel.  The result carries the
    number of the round that ended it. *)
Fixpoint idle_wait (fuel : nat) (t : Tracker) (exitTimeout beginTs : Z) (round : nat → Round)
    (i : nat) : option (nat * WaitEnd) :=
  match fuel with
  | O => None
  | S fuel =>
      let r := round i in
      let checkAgainIn := MaybeIdleIn t (rd_visit r) (rd_clock r) in
      if 0 <? checkAgainIn then
        if exitTimeout <? Sub (rd_now r) beginTs then Some (i, TimedOut)
        else idle_wait fuel t exitTimeout beginTs round (S i)
      else Some (i, AllIdle)
  end.

(** ** Closing what is left *)
Record CloseCall := mkCloseCall { cc_id : nat; cc_end : Z; cc_idle_now : Z; cc_err : option error }.

(** [config.ConnTracker.Range(... Close() ...)], in the order of the visit. *)
Definition close_range (s : TrackState) (visit : list CloseCall) : TrackState :=
  foldl (λ s c, (Close s (cc_id c) (cc_end c) (cc_idle_now c) (cc_err c)).1) s visit.

(** The tail of [runServer], after [Serve] has returned: wait when the shutdown
    is graceful, then close. [closed] is the other way out of the wait: the
    wait group reached zero first. *)
Definition finish (config : Config) (sv : Server) (fuel : nat) (beginTs : Z) (round : nat → Round)
    (closed : bool) (visit : list CloseCall) : option Server :=
  let wait :=
    if sv_graceful sv then
      if closed then Some tt
      else match idle_wait fuel (ts_tracker (sv_track sv)) (ExitTimeout config) beginTs round 0 with
           | None => None
           | Some _ => Some tt
           end
    else Some tt in
  match wait with
  | None => None
  | Some _ => Some (set_track sv (close_range (sv_track sv) visit))
  end.

(** ** Theorems *)

(** Time passes while the loop sleeps: [Sleep] returns after at least the given
    duration. *)
Definition sleeps (t : Tracker) (beginTs : Z) (round : nat → Round) : Prop :=
  beginTs ≤ rd_now (round 0%nat) ∧
  ∀ i, rd_now (round i) + MaybeIdleIn t (rd_visit (round i)) (rd_clock (round i))
       ≤ rd_now (round (S i)).

Lemma idle_wait_enough fuel t x beginTs round i :
  sleeps t beginTs round → 0 ≤ x < max_int64 → beginTs + Z.of_nat i ≤ rd_now (round i) →
  (Z.to_nat (x + 1 - Z.of_nat i) + 1 ≤ fuel)%nat → Z.of_nat i ≤ x + 1 →
  ∃ j e, idle_wait fuel t x beginTs round i = Some (j, e) ∧ (i ≤ j)%nat.
Proof.
  intros Hs Hx. revert i. induction fuel as [|fuel IH]; intros i Hnow Hf Hi; [lia|]. simpl.
  destruct (Z.ltb_spec 0 (MaybeIdleIn t (rd_visit (round i)) (rd_clock (round i)))) as [Hp|];
    [|by eexists _, _].
  destruct (Z.ltb_spec x (Sub (rd_now (round i)) beginTs)) as [|Hle]; [by eexists _, _|].
  assert (Z.of_nat i ≤ x) as Hix.
  { unfold Sub, min_int64, max_int64 in *. lia. }
  destruct (IH (S i)) as (j & e & -> & Hj); [| |lia|exists j, e; split; [done|lia]].
  - destruct Hs as [_ Hs]. specialize (Hs i). lia.
  - lia.
Qed.

Lemma idle_wait_end fuel t x beginTs round i j e :
  idle_wait fuel t x beginTs round i = Some (j, e) →
  match e with
  | AllIdle => MaybeIdleIn t (rd_visit (round j)) (rd_clock (round j)) ≤ 0
  | TimedOut => x < Sub (rd_now (round j)) beginTs
  end.
Proof.
  revert i. induction fuel as [|fuel IH]; intros i; simpl; [done|].
  destruct (Z.ltb_spec 0 (MaybeIdleIn t (rd_visit (round i)) (rd_clock (round i)))).
  - destruct (Z.ltb_spec x (Sub (rd_now (round i)) beginTs)); [by intros [= <- <-]|apply IH].
  - by intros [= <- <-].
Qed.

(** C23: the wait for idle connections ends. Provided sleeping takes at least
    the time asked for and the exit timeout is below the largest duration, the
    loop leaves after at most as many rounds as the timeout has nanoseconds
    (plus two), whatever the connections do meanwhile; it leaves either in a
    round in which every connection was inactive for the threshold, or after
    the timeout has passed, never before. *)
Theorem idle_wait_terminates t x beginTs round :
  0 ≤ x < max_int64 → sleeps t beginTs round →
  ∃ j e, idle_wait (Z.to_nat x + 2) t x beginTs round 0 = Some (j, e) ∧
  match e with
  | AllIdle => ∀ k ic, rd_visit (round j) !! k = Some ic →
                 tr_IdleThreshold t ≤ rd_clock (round j) k - ic_LastActivity ic
  | TimedOut => beginTs + x < rd_now (round j)
  end.
Proof.
  intros Hx Hs.
  destruct (idle_wait_enough (Z.to_nat x + 2) t x beginTs round 0) as (j & e & Hw & _);
    [done|done|destruct Hs; lia|lia|lia|].
  exists j, e. split; [done|]. apply idle_wait_end in Hw. destruct e.
  - intros k ic Hk. unfold MaybeIdleIn in Hw.
    pose proof (idle_loop_bound t _ (rd_clock (round j)) 0 0 k ic Hk) as Hb. simpl in Hb.
    pose proof (idle_in_pos t ic (rd_clock (round j) k)). lia.
  - unfold Sub, min_int64, max_int64 in *. lia.
Qed.

(** A connection that stays active: the loop times out. *)
Definition busy_round (i : nat) : Round :=
  mkRound [mkInstrumentedConn 1 "svc" "" 0 (Z.of_nat i * 5) 0 0 false None]
    (λ _, Z.of_nat i * 5) (Z.of_nat i * 5).

Lemma idle_wait_terminates_witness :
  ∃ j e, idle_wait 22 (NewTracker 5 None) 20 0 busy_round 0 = Some (j, e) ∧
  match e with
  | AllIdle => ∀ k ic, rd_visit (busy_round j) !! k = Some ic →
                 5 ≤ rd_clock (busy_round j) k - ic_LastActivity ic
  | TimedOut => 0 + 20 < rd_now (busy_round j)
  end.
Proof.
  apply (idle_wait_terminates (NewTracker 5 None) 20 0 busy_round); [by vm_compute|].
  split; [by vm_compute|]. intros i. unfold MaybeIdleIn, busy_round. simpl.
  unfold idle_in, Sub, min_int64, max_int64. simpl. case_match; lia.
Defined.

(** ** The final closing *)
Lemma Close_dom s id e i err : dom (ts_heap (Close s id e i err).1) = dom (ts_heap s).
Proof.
  destruct (ts_heap s !! id) as [ic|] eqn:Hid; [|unfold Close; by rewrite Hid].
  destruct (ic_closed ic) eqn:Hcl; [by erewrite Close_closed by eauto|].
  destruct (Close_open s id ic e i err Hid Hcl) as (? & ? & -> & _). simpl.
  by rewrite dom_insert_lookup_L by eauto.
Qed.

Lemma close_range_dom s visit : dom (ts_heap (close_range s visit)) = dom (ts_heap s).
Proof.
  revert s. induction visit as [|c visit IH]; intros s; [done|]. simpl.
  fold (close_range (Close s (cc_id c) (cc_end c) (cc_idle_now c) (cc_err c)).1 visit).
  by rewrite IH, Close_dom.
Qed.

Lemma close_range_steps s visit : rtc ct_step s (close_range s visit).
Proof.
  revert s. induction visit as [|c visit IH]; intros s; [apply rtc_refl|].
  eapply rtc_l; [apply step_close|apply IH].
Qed.

(** Closing leaves the connection closed. *)
Lemma close_range_closes s visit id :
  id ∈ dom (ts_heap s) → id ∈ cc_id <$> visit →
  ∃ ic, ts_heap (close_range s visit) !! id = Some ic ∧ ic_closed ic = true.
Proof.
  revert s. induction visit as [|c visit IH]; intros s Hd Hin; [by apply elem_of_nil in Hin|].
  simpl in Hin. simpl. set (s1 := (Close s (cc_id c) (cc_end c) (cc_idle_now c) (cc_err c)).1).
  apply elem_of_cons in Hin as [->|Hin].
  - apply elem_of_dom in Hd as [ic Hid].
    destruct (Close_is_closed s (cc_id c) (cc_end c) (cc_idle_now c) (cc_err c) ic Hid)
      as (ic1 & H1 & Hc1).
    destruct (closed_stays s1 (close_range s1 visit) (cc_id c) ic1) as (ic2 & H2 & Hc2 & _);
      [apply close_range_steps|done|done|]. by exists ic2.
  - apply IH; [|done]. unfold s1. by rewrite Close_dom.
Qed.

(** The end of [runServer]. If the visit of the tracker's map reaches every
    connection that is open, in whatever order and even if some close in
    between or are visited twice, then afterwards the map is empty, the wait
    group is zero, every connection is closed and there are as many log lines
    as there were connections. *)
Theorem shutdown_closes_all config sv fuel beginTs round closed visit sv' :
  ct_inv (sv_track sv) →
  (∀ id, id ∈ tr_Map (ts_tracker (sv_track sv)) → id ∈ cc_id <$> visit) →
  finish config sv fuel beginTs round closed visit = Some sv' →
  let s := sv_track sv' in
  tr_Map (ts_tracker s) = ∅ ∧ tr_Wg (ts_tracker s) = 0 ∧
  (∀ id ic, ts_heap s !! id = Some ic → ic_closed ic = true) ∧
  length (ts_logs s) = size (dom (ts_heap s)).
Proof.
  intros Hinv Hall Hf.
  assert (sv_track sv' = close_range (sv_track sv) visit) as Hs.
  { unfold finish in Hf. by repeat case_match; simplify_eq. }
  rewrite Hs. clear Hs Hf. set (s := sv_track sv) in *.
  pose proof (close_range_steps s visit) as Hsteps.
  pose proof (ct_inv_rtc _ _ Hsteps Hinv) as Hinv'.
  assert (tr_Map (ts_tracker (close_range s visit)) = ∅) as Hempty.
  { apply elem_of_equiv_empty_L. intros id (ic & Hid & Hop)%(inv_map _ Hinv').
    assert (∃ ic', ts_heap (close_range s visit) !! id = Some ic' ∧ ic_closed ic' = true)
      as (ic' & ? & ?); [|congruence].
    destruct (ts_heap s !! id) as [ic0|] eqn:H0.
    - destruct (ic_closed ic0) eqn:Hc0.
      + destruct (closed_stays _ _ id ic0 Hsteps H0 Hc0) as (ic' & ? & ? & _). eauto.
      + apply close_range_closes; [by apply elem_of_dom|]. apply Hall, (inv_map _ Hinv). by exists ic0.
    - exfalso. assert (id ∉ dom (ts_heap s)) as Hn by by apply not_elem_of_dom.
      apply Hn. rewrite <-(close_range_dom s visit). apply elem_of_dom. eauto. }
  split_and!; [done| | |].
  - by rewrite (inv_wg _ Hinv'), Hempty, size_empty.
  - intros id ic Hid. destruct (ic_closed ic) eqn:Hc; [done|]. exfalso.
    assert (id ∈ tr_Map (ts_tracker (close_range s visit))) as Hin
      by (apply (inv_map _ Hinv'); by exists ic).
    rewrite Hempty in Hin. set_solver.
  - rewrite (inv_logs _ Hinv'). unfold closed_ids. rewrite Hempty. f_equal. set_solver.
Qed.

Lemma shutdown_closes_all_witness :
  let sv := mkServer (Some true) false (Some (10 * second)) sample_run in
  ∃ sv', finish NewConfig sv 0 0 busy_round false [mkCloseCall 2 50 51 None] = Some sv' ∧
  tr_Map (ts_tracker (sv_track sv')) = ∅ ∧ tr_Wg (ts_tracker (sv_track sv')) = 0.
Proof.
  eexists. split; [reflexivity|].
  destruct (shutdown_closes_all NewConfig (mkServer (Some true) false (Some (10 * second)) sample_run)
    0 0 busy_round false [mkCloseCall 2 50 51 None] _
    (ct_inv_rtc _ _ sample_run_reachable (ct_inv_init 1000 None))
    ltac:(intros id; change (tr_Map (ts_tracker (sv_track
            (mkServer (Some true) false (Some (10 * second)) sample_run)))) with ({[2%nat]} : gset nat);
          simpl; set_solver) eq_refl) as (H1 & H2 & _).
  split; [exact H1|exact H2].
Defined.

(** ** The flag that announces a shutdown *)
Inductive sv_step (config : Config) (sv : Server) : Server → Prop :=
| sv_conn s : ct_step (sv_track sv) s → sv_step config sv (set_track sv s)
| sv_signal sig : sv_step config sv (on_signal config sv sig).

(** Nothing was reported as active. *)
Definition none_active (s : TrackState) : Prop :=
  tr_ShuttingDown (ts_tracker s) = None ∧
  Forall (λ l, cl_idle l = true) (ts_logs s) ∧
  Forall (λ m, match m with Incr name _ => name ≠ "cn.active_at_termination" | _ => True end)
    (ts_metrics s).

Lemma none_active_step s s' : ct_step s s' → none_active s → none_active s'.
Proof.
  destruct 1 as [id conn role host now start Hf|id e i err|id now n err _|id now n err _];
    intros (Hsd & Hl & Hm).
  - done.
  - destruct (ts_heap s !! id) as [ic|] eqn:Hid; [|unfold Close; by rewrite Hid].
    destruct (ic_closed ic) eqn:Hcl; [by erewrite Close_closed by eauto|].
    destruct (Close_open s id ic e i err Hid Hcl) as (ms & l & -> & _ & Hi & ->).
    rewrite Hsd in Hi. rewrite Hi. split_and!; [done| |]; simpl.
    + apply Forall_app. split; [done|]. by constructor.
    + apply Forall_app. split; [done|]. by repeat constructor.
  - unfold Read. by destruct (ts_heap s !! id).
  - unfold Write. by destruct (ts_heap s !! id).
Qed.

(** C25: terminating active connections is never reported. A configuration
    starts with an unset flag, the tracker gets a copy of it, and later stores
    go to the configuration only; so in every run, also after a signal has set
    the flag of the configuration, each connection is logged as idle when it is
    closed and the counter "cn.active_at_termination" is never incremented,
    whatever the connection was doing. *)
Theorem shutdown_flag_never_seen config sv :
  rtc (sv_step config) (start_server config None) sv →
  tr_ShuttingDown (ts_tracker (sv_track sv)) = None ∧
  Forall (λ l, cl_idle l = true) (ts_logs (sv_track sv)) ∧
  ∀ tags, Incr "cn.active_at_termination" tags ∉ ts_metrics (sv_track sv).
Proof.
  intros Hr. assert (none_active (sv_track sv)) as (Hs & Hl & Hm).
  { assert (none_active (sv_track (start_server config None))) as H0 by done.
    revert H0. induction Hr as [|sv1 sv2 sv3 Hst _ IH]; [done|]. intros H1. apply IH.
    destruct Hst as [s Hs|sig]; [by eapply none_active_step|done]. }
  split_and!; [done|done|]. intros tags Hin. rewrite Forall_forall in Hm. by apply (Hm _ Hin).
Qed.

Lemma shutdown_flag_never_seen_witness :
  ∃ sv, sv_ShuttingDown sv = Some true ∧ length (ts_logs (sv_track sv)) = 1%nat ∧
  Forall (λ l, cl_idle l = true) (ts_logs (sv_track sv)).
Proof.
  set (sv0 := start_server NewConfig None).
  set (sv1 := set_track sv0 (NewInstrumentedConn (sv_track sv0) 1 7 "svc" "example.com" 10 11)).
  set (sv2 := on_signal NewConfig sv1 Kill).
  set (sv3 := set_track sv2 (Close (sv_track sv2) 1 12 13 None).1).
  exists sv3. split; [reflexivity|]. split; [by vm_compute|].
  apply (shutdown_flag_never_seen NewConfig sv3).
  eapply rtc_l; [apply sv_conn, (step_new _ 1 7 "svc" "example.com" 10 11); reflexivity|].
  eapply rtc_l; [apply (sv_signal _ _ Kill)|].
  eapply rtc_l; [apply sv_conn, (step_close _ 1 12 13 None)|]. apply rtc_refl.
Defined.
