(* ===== verification/Tls.v ===== *)
(** * Client certificates and revocation lists

    The TLS part of [src/pkg/smokescreen/config.go]: [SetupTls],
    [addCertsFromFile], [populateClientCaMap] and [SetupCrls].

    Files, PEM and X.509 decoding and signatures are parameters.  The fields
    of [Config] that these functions use are a record of their own.  What is
    printed to standard output is not modelled. *)

From S2P Require Import Prelude GoStrings.

(** A decoded PEM block and an extension of a list, as far as the code looks at
    them. *)
Record pemBlock := mkPemBlock {
  blk_Type : string;
  blk_Headers : nat;     (* how many *)
  blk_Bytes : string
}.

Record Extension := mkExtension { ext_Id : list Z; ext_Value : string }.

Inductive ClientAuthType := NoClientCert | VerifyClientCertIfGiven.

(** The outside of this component. *)
Class Pki := {
  Cert : Type;
  CertList : Type;
  KeyPair : Type;
  ReadFile : string → result string;
  LoadX509KeyPair : string → string → result KeyPair;
  pem_Decode : string → option pemBlock * string;
  ParseCertificate : string → result Cert;
  SubjectKeyId : Cert → string;
  AppendCertsFromPEM : list Cert → string → list Cert * bool;
  ParseCRL : string → result CertList;
  Extensions : CertList → list Extension;
  asn1_authKeyId : string → result string;
  CheckCRLSignature : Cert → CertList → option error
}.

Section tls.
Context `{K : Pki}.

Record TlsConfig := mkTlsConfig {
  tls_Certificate : KeyPair;
  tls_ClientAuth : ClientAuthType;
  tls_ClientCAs : list Cert
}.

Record TlsState := mkTlsState {
  ts_TlsConfig : option TlsConfig;
  ts_CrlByAuthorityKeyId : gmap string CertList;
  ts_clientCasBySubjectKeyId : gmap string Cert
}.

Definition NewTlsState : TlsState := mkTlsState None ∅ ∅.

Definition set_cas (st : TlsState) (m : gmap string Cert) : TlsState :=
  mkTlsState (ts_TlsConfig st) (ts_CrlByAuthorityKeyId st) m.
Definition set_crls (st : TlsState) (m : gmap string CertList) : TlsState :=
  mkTlsState (ts_TlsConfig st) m (ts_clientCasBySubjectKeyId st).

(** [populateClientCaMap]: the loop consumes the data; [fuel] bounds its
    rounds. *)
Fixpoint populate_loop (fuel : nat) (cas : gmap string Cert) (pemCerts : string)
    : option (gmap string Cert) :=
  match fuel with
  | O => None
  | S fuel =>
      if String.eqb pemCerts "" then Some cas
      else
        match pem_Decode pemCerts with
        | (None, _) => Some cas
        | (Some block, rest) =>
            if negb (String.eqb (blk_Type block) "CERTIFICATE") || negb (blk_Headers block =? 0)%nat
            then populate_loop fuel cas rest
            else match ParseCertificate (blk_Bytes block) with
                 | Fail _ => populate_loop fuel cas rest
                 | Ok cert => populate_loop fuel (<[SubjectKeyId cert := cert]> cas) rest
                 end
        end
  end.

Definition populateClientCaMap (st : TlsState) (pemCerts : string) : TlsState :=
  match populate_loop (S (String.length pemCerts)) (ts_clientCasBySubjectKeyId st) pemCerts with
  | Some cas => set_cas st cas
  | None => st
  end.

(** The state, the pool and the error; the map is filled before the read error
    is looked at, from the nil slice in that case. *)
Definition addCertsFromFile (st : TlsState) (pool : list Cert) (fileName : string)
    : TlsState * list Cert * option error :=
  match ReadFile fileName with
  | Fail err => (populateClientCaMap st "", pool, Some err)
  | Ok data =>
      let st := populateClientCaMap st data in
      match AppendCertsFromPEM pool data with
      | (pool, true) => (st, pool, None)
      | (pool, false) =>
          (st, pool, Some (Err ("Failed to load any certificates from file '" +:+ fileName +:+ "'")))
      end
  end.

Fixpoint add_ca_files (st : TlsState) (pool : list Cert) (files : list string)
    : TlsState * list Cert * option error :=
  match files with
  | [] => (st, pool, None)
  | f :: files =>
      match addCertsFromFile st pool f with
      | (st, pool, Some err) => (st, pool, Some err)
      | (st, pool, None) => add_ca_files st pool files
      end
  end.

Definition SetupTls (st : TlsState) (certFile keyFile : string) (clientCAFiles : list string)
    : TlsState * option error :=
  if String.eqb certFile "" || String.eqb keyFile "" then
    (st, Some (Err "both certificate and key files must be specified to set up TLS"))
  else
    match LoadX509KeyPair certFile keyFile with
    | Fail err => (st, Some err)
    | Ok serverCert =>
        let clientAuth :=
          match clientCAFiles with [] => NoClientCert | _ => VerifyClientCertIfGiven end in
        match add_ca_files st [] clientCAFiles with
        | (st, _, Some err) => (st, Some err)
        | (st, clientCAs, None) =>
            (mkTlsState (Some (mkTlsConfig serverCert clientAuth clientCAs))
               (ts_CrlByAuthorityKeyId st) (ts_clientCasBySubjectKeyId st), None)
        end
    end.

(** ** Revocation lists *)
Definition extensionOid : list Z := [2; 5; 29; 35].

(** The loop over the extensions: the first authority key that decodes. *)
Fixpoint crl_issuer (exts : list Extension) : string :=
  match exts with
  | [] => ""
  | v :: exts =>
      if bool_decide (ext_Id v = extensionOid) then
        match asn1_authKeyId (ext_Value v) with
        | Fail _ => crl_issuer exts
        | Ok id => id
        end
      else crl_issuer exts
  end.

Inductive CrlResult :=
| CrlDone (st : TlsState)
| CrlError (st : TlsState) (err : error)
| CrlPanic.    (* certList is nil *)

(** One round of the loop of [SetupCrls]. *)
Definition load_crl (st : TlsState) (crlFile : string) : CrlResult :=
  match ReadFile crlFile with
  | Fail err => CrlError st err
  | Ok crlBytes =>
      match ParseCRL crlBytes with
      | Fail _ => CrlPanic
      | Ok certList =>
          let crlIssuerId := crl_issuer (Extensions certList) in
          if String.eqb crlIssuerId "" then CrlDone st
          else
            match ts_clientCasBySubjectKeyId st !! crlIssuerId with
            | None => CrlDone st
            | Some caCert =>
                match CheckCRLSignature caCert certList with
                | Some _ => CrlDone st
                | None => CrlDone (set_crls st (<[crlIssuerId := certList]> (ts_CrlByAuthorityKeyId st)))
                end
            end
      end
  end.

Fixpoint SetupCrls (st : TlsState) (crlFiles : list string) : CrlResult :=
  match crlFiles with
  | [] => CrlDone st
  | f :: crlFiles =>
      match load_crl st f with
      | CrlDone st => SetupCrls st crlFiles
      | r => r
      end
  end.

(** The authorities that the last loop warns about. *)
Definition cas_without_crl (st : TlsState) : gset string :=
  dom (ts_clientCasBySubjectKeyId st) ∖ dom (ts_CrlByAuthorityKeyId st).

(** ** Lemmas and theorems *)

(** Decoding consumes input. *)
Definition decode_consumes : Prop :=
  ∀ s b rest, pem_Decode s = (Some b, rest) → (String.length rest < String.length s)%nat.

Lemma populate_enough fuel cas pem :
  decode_consumes → (String.length pem < fuel)%nat → is_Some (populate_loop fuel cas pem).
Proof.
  intros Hd. revert cas pem. induction fuel as [|fuel IH]; intros cas pem Hl; [lia|]. simpl.
  destruct (String.eqb pem ""); [by eexists|].
  destruct (pem_Decode pem) as [[b|] rest] eqn:E; [|by eexists]. apply Hd in E.
  case_match; [apply IH; lia|]. case_match; apply IH; lia.
Qed.

(** The state after a run, whatever its outcome. *)
Definition crl_state (r : CrlResult) : option TlsState :=
  match r with CrlDone st | CrlError st _ => Some st | CrlPanic => None end.

(** A list in force was signed by an authority that is loaded, and is filed
    under that authority's key. *)
Definition crls_trusted (st : TlsState) : Prop :=
  ∀ k crl, ts_CrlByAuthorityKeyId st !! k = Some crl →
    k = crl_issuer (Extensions crl) ∧
    ∃ ca, ts_clientCasBySubjectKeyId st !! k = Some ca ∧ CheckCRLSignature ca crl = None.

Lemma load_crl_trusted st f st' :
  crls_trusted st → crl_state (load_crl st f) = Some st' →
  crls_trusted st' ∧ ts_clientCasBySubjectKeyId st' = ts_clientCasBySubjectKeyId st.
Proof.
  intros Ht. unfold load_crl. destruct (ReadFile f) as [b|]; [|by intros [= <-]].
  destruct (ParseCRL b) as [crl|]; [|done].
  destruct (String.eqb _ ""); [by intros [= <-]|].
  destruct (ts_clientCasBySubjectKeyId st !! _) as [ca|] eqn:Hca; [|by intros [= <-]].
  destruct (CheckCRLSignature ca crl) eqn:Hs; [by intros [= <-]|].
  intros [= <-]. split; [|done]. intros k c. simpl. rewrite lookup_insert.
  case_decide; [|apply Ht]. subst. intros [= <-]. eauto.
Qed.

Lemma SetupCrls_trusted st files st' :
  crls_trusted st → crl_state (SetupCrls st files) = Some st' →
  crls_trusted st' ∧ ts_clientCasBySubjectKeyId st' = ts_clientCasBySubjectKeyId st.
Proof.
  revert st. induction files as [|f files IH]; intros st Ht; simpl; [by intros [= <-]|].
  pose proof (load_crl_trusted st f) as Hl.
  destruct (load_crl st f) as [st1|st1 e|]; simpl; [|intros [= <-]; by apply Hl|done].
  destruct (Hl st1 Ht eq_refl) as [H1 Hc1]. intros H. destruct (IH st1 H1 H) as [? Hc2].
  split; [done|congruence].
Qed.

Lemma load_crl_no_cas st f st' :
  ts_clientCasBySubjectKeyId st = ∅ → crl_state (load_crl st f) = Some st' → st' = st.
Proof.
  intros Hc. unfold load_crl. destruct (ReadFile f); [|by intros [= <-]].
  destruct (ParseCRL _); [|done]. destruct (String.eqb _ ""); [by intros [= <-]|].
  rewrite Hc, lookup_empty. by intros [= <-].
Qed.

Lemma SetupCrls_no_cas st files st' :
  ts_clientCasBySubjectKeyId st = ∅ → crl_state (SetupCrls st files) = Some st' → st' = st.
Proof.
  intros Hc. induction files as [|f files IH]; simpl; [by intros [= <-]|].
  pose proof (load_crl_no_cas st f) as Hl.
  destruct (load_crl st f) as [st1|st1 e|]; simpl; [|intros [= <-]; by apply Hl|done].
  rewrite (Hl st1 Hc eq_refl). apply IH.
Qed.

(** A list is taken when an authority with its issuer key is loaded and has
    signed it. *)
Definition taken (st : TlsState) (crl : CertList) : Prop :=
  crl_issuer (Extensions crl) ≠ "" ∧
  ∃ ca, ts_clientCasBySubjectKeyId st !! crl_issuer (Extensions crl) = Some ca ∧
        CheckCRLSignature ca crl = None.

Lemma load_crl_cases st f data :
  ReadFile f = Ok data →
  match ParseCRL data with
  | Fail _ => load_crl st f = CrlPanic
  | Ok crl =>
      (taken st crl ∧ load_crl st f = CrlDone (set_crls st
         (<[crl_issuer (Extensions crl) := crl]> (ts_CrlByAuthorityKeyId st)))) ∨
      (¬ taken st crl ∧ load_crl st f = CrlDone st)
  end.
Proof.
  intros Hr. unfold load_crl, taken. rewrite Hr. destruct (ParseCRL data) as [crl|]; [|done].
  destruct (String.eqb_spec (crl_issuer (Extensions crl)) "") as [He|He].
  { right. split; [|done]. by intros [? _]. }
  destruct (ts_clientCasBySubjectKeyId st !! _) as [ca|].
  2:{ right. split; [|done]. by intros (_ & ? & ? & _). }
  destruct (CheckCRLSignature ca crl) eqn:Hs.
  - right. split; [|done]. intros (_ & ca' & [= <-] & ?). congruence.
  - left. split; [|done]. split; [done|]. by exists ca.
Qed.

(** C27: loading revocation lists. Every list in force is filed under the key of
    an authority that is loaded and signed it; without loaded authorities
    nothing is ever taken.  One file is taken exactly when such an authority is
    there and is ignored without an error otherwise; a file that is read but
    cannot be parsed makes the program panic on the nil list. *)
Theorem crls_in_force_are_trusted st files st' :
  crls_trusted st → crl_state (SetupCrls st files) = Some st' →
  crls_trusted st' ∧ ts_clientCasBySubjectKeyId st' = ts_clientCasBySubjectKeyId st ∧
  (ts_clientCasBySubjectKeyId st = ∅ → st' = st) ∧
  (∀ f data, ReadFile f = Ok data →
     match ParseCRL data with
     | Fail _ => SetupCrls st (f :: files) = CrlPanic
     | Ok crl =>
         (taken st crl ∧ SetupCrls st [f] = CrlDone (set_crls st
            (<[crl_issuer (Extensions crl) := crl]> (ts_CrlByAuthorityKeyId st)))) ∨
         (¬ taken st crl ∧ SetupCrls st [f] = CrlDone st)
     end).
Proof.
  intros Ht Hs. destruct (SetupCrls_trusted st files st' Ht Hs) as [H1 H2].
  split_and!; [done|done|intros Hc; by eapply SetupCrls_no_cas|].
  intros f data Hr. pose proof (load_crl_cases st f data Hr) as Hl.
  destruct (ParseCRL data); simpl; [|by rewrite Hl].
  destruct Hl as [[? ->]|[? ->]]; auto.
Qed.

Lemma populate_keeps st data :
  ts_TlsConfig (populateClientCaMap st data) = ts_TlsConfig st ∧
  ts_CrlByAuthorityKeyId (populateClientCaMap st data) = ts_CrlByAuthorityKeyId st.
Proof. unfold populateClientCaMap. by case_match. Qed.

Lemma add_ca_files_keeps files st pool st' pool' e :
  add_ca_files st pool files = (st', pool', e) →
  ts_TlsConfig st' = ts_TlsConfig st ∧ ts_CrlByAuthorityKeyId st' = ts_CrlByAuthorityKeyId st ∧
  (e = None → ∀ f, f ∈ files → is_ok (ReadFile f) = true).
Proof.
  revert st pool. induction files as [|f files IH]; intros st pool; simpl.
  - intros [= <- <- <-]. split_and!; try done. intros _ f Hf. by apply elem_of_nil in Hf.
  - unfold addCertsFromFile. destruct (ReadFile f) as [data|err] eqn:Hr.
    + destruct (populate_keeps st data) as [P1 P2].
      destruct (AppendCertsFromPEM pool data) as [pool1 []].
      * intros (H1 & H2 & H3)%IH. rewrite H1, H2, P1, P2. split_and!; try done.
        intros -> g [->|Hg]%elem_of_cons; [by rewrite Hr|by apply H3].
      * intros [= <- <- <-]. by rewrite P1, P2.
    + destruct (populate_keeps st "") as [P1 P2]. intros [= <- <- <-]. by rewrite P1, P2.
Qed.

Lemma SetupTls_crls st certFile keyFile caFiles :
  ts_CrlByAuthorityKeyId (SetupTls st certFile keyFile caFiles).1 = ts_CrlByAuthorityKeyId st.
Proof.
  unfold SetupTls. destruct (_ || _); [done|]. destruct (LoadX509KeyPair _ _); [|done].
  destruct (add_ca_files st [] caFiles) as [[s' pool] [e|]] eqn:Hf;
    by apply add_ca_files_keeps in Hf as (_ & ? & _).
Qed.

(** Setting up TLS. It succeeds exactly when both file names are given, the
    key pair loads and every authority file can be read and has a certificate;
    client certificates are then verified if and only if an authority file was
    named (and never required), and otherwise the TLS configuration is left as
    it was. *)
Theorem SetupTls_spec st certFile keyFile caFiles :
  let '(st', err) := SetupTls st certFile keyFile caFiles in
  match err with
  | None => ∃ pair pool, certFile ≠ "" ∧ keyFile ≠ "" ∧ LoadX509KeyPair certFile keyFile = Ok pair ∧
      ts_TlsConfig st' = Some (mkTlsConfig pair
        (if decide (caFiles = []) then NoClientCert else VerifyClientCertIfGiven) pool) ∧
      ∀ f, f ∈ caFiles → is_ok (ReadFile f) = true
  | Some _ => ts_TlsConfig st' = ts_TlsConfig st
  end ∧ ts_CrlByAuthorityKeyId st' = ts_CrlByAuthorityKeyId st.
Proof.
  unfold SetupTls. destruct (String.eqb certFile "" || String.eqb keyFile "") eqn:Hn; [done|].
  to_prop. destruct Hn as [Hc Hk]. destruct (LoadX509KeyPair certFile keyFile) as [pair|] eqn:Hl; [|done].
  destruct (add_ca_files st [] caFiles) as [[s' pool] [e|]] eqn:Hf;
    apply add_ca_files_keeps in Hf as (H1 & H2 & H3); [done|].
  simpl. split; [|done]. exists pair, pool. split_and!; try done; [|by apply H3].
  by destruct caFiles.
Qed.
End tls.

(** A small concrete world: a file holds the name of an authority, or the name
    of a list signed by it. *)
Definition toy_pki : Pki := {|
  Cert := string; CertList := string; KeyPair := unit;
  ReadFile f := if String.eqb f "missing" then Fail (Err "no such file") else Ok f;
  LoadX509KeyPair _ _ := Ok tt;
  pem_Decode s := (Some (mkPemBlock "CERTIFICATE" 0 s), "");
  ParseCertificate s := Ok s;
  SubjectKeyId c := c;
  AppendCertsFromPEM pool s := (s :: pool, true);
  ParseCRL s := if String.eqb s "garbage" then Fail (Err "asn1") else Ok s;
  Extensions s := [mkExtension [2; 5; 29; 35] s];
  asn1_authKeyId s := Ok s;
  CheckCRLSignature c l := if String.eqb c l then None else Some (Err "bad signature")
|}.

Definition toy_state : @TlsState toy_pki := (@SetupTls toy_pki NewTlsState "cert" "key" ["ca1"]).1.

Lemma crls_in_force_are_trusted_witness :
  @SetupCrls toy_pki toy_state ["garbage"; "ca1"] = CrlPanic ∧
  crl_state (@SetupCrls toy_pki toy_state ["ca1"; "other"]) =
    Some (set_crls toy_state {["ca1" := "ca1" : @CertList toy_pki]}).
Proof.
  assert (@crls_trusted toy_pki toy_state) as Ht by by intros k crl.
  split; [|by vm_compute].
  apply (proj2 (proj2 (proj2 (@crls_in_force_are_trusted toy_pki toy_state ["ca1"]
    (set_crls toy_state {["ca1" := "ca1" : @CertList toy_pki]}) Ht eq_refl))) "garbage" "garbage" eq_refl).
Defined.
