(* ===== verification/Loader.v ===== *)
(** * Configuration from a file and from the command line

    [src/pkg/smokescreen/config_loader.go] ([UnmarshalYAML], [LoadConfig]),
    [src/cmd/smokescreen.go] ([NewConfiguration]) and
    [src/cmd/check_config/main.go].

    Reading files, decoding YAML into the declared structure, parsing the
    command line into options, the statsd client and the PKI are parameters.
    [Log.Fatal] ends the process. *)

From S2P Require Import Prelude GoStrings GoNet Acl Http Config Tls.

(** ** The YAML structures; a nil pointer is [None] *)
Record yamlConfigTls := mkYamlConfigTls {
  yt_CertFile : string;
  yt_KeyFile : string;
  yt_ClientCAFiles : list string;
  yt_CRLFiles : list string
}.

Record yamlConfig := mkYamlConfig {
  y_Ip : string;
  y_Port : option Z;
  y_DenyRanges : list string;
  y_AllowRanges : list string;
  y_Resolvers : list string;
  y_ConnectTimeout : Z;
  y_ExitTimeout : option Z;
  y_StatsdAddress : string;
  y_EgressAclFile : string;
  y_SupportProxyProtocol : bool;
  y_DenyMessageExtra : string;
  y_AllowMissingRole : bool;
  y_StatsSocketDir : string;
  y_StatsSocketFileMode : string;
  y_Tls : option yamlConfigTls
}.

(** ** The command line: [None] when an option is not set *)
Record cliContext := mkCliContext {
  cx_help : bool;
  cx_version : bool;            (* handled by the library, before the action *)
  cx_args : list string;
  cx_config_file : string;
  cx_listen_ip : option string;
  cx_listen_port : option Z;
  cx_timeout : option Z;
  cx_proxy_protocol : option bool;
  cx_additional_error_message : option string;
  cx_disable_acl_policy_action : option (list string);
  cx_stats_socket_dir : option string;
  cx_stats_socket_file_mode : option string;
  cx_deny_range : option (list string);
  cx_allow_range : option (list string);
  cx_deny_address : option (list string);
  cx_resolver_address : option (list string);
  cx_allow_address : option (list string);
  cx_statsd_address : option string;
  cx_egress_acl_file : option string;
  cx_tls_crl_file : option (list string);
  cx_tls_server_bundle_file : option string;
  cx_tls_client_ca_file : list string
}.

Definition max_uint16 : Z := 65535.

(** [os.FileMode(filemode)] of an [int64]. *)
Definition FileMode (n : Z) : Z := n mod 2 ^ 32.

(** The text of a [strconv.NumError] for an input that needs no escapes. *)
Definition num_error_text (s : string) (e : num_error) : error :=
  Err ("strconv.ParseInt: parsing " +:+ dquote +:+ s +:+ dquote +:+ ": " +:+
       match e with ErrSyntax => "invalid syntax" | ErrRange => "value out of range" end).

(** What an operation on a configuration can do. *)
Inductive Loading (A : Type) :=
| Loaded (a : A)
| LoadError (err : error)
| LoadExit              (* Log.Fatal *)
| LoadPanic.
Arguments Loaded {A} _.
Arguments LoadError {A} _.
Arguments LoadExit {A}.
Arguments LoadPanic {A}.

Definition lbind {A B} (r : Loading A) (k : A → Loading B) : Loading B :=
  match r with
  | Loaded a => k a
  | LoadError err => LoadError err
  | LoadExit => LoadExit
  | LoadPanic => LoadPanic
  end.

Section loader.
Context `{K : Pki} `{MR : !MapRange string Rule}.
Variable statsd_New : string → result unit.
Variable load_acl : string → result ACL.
Variable yaml_UnmarshalStrict : string → result yamlConfig.

(** The configuration: the part of [Config.v] and the part of [Tls.v]. *)
Record FullConfig := mkFullConfig { fc_Config : Config; fc_Tls : TlsState }.

(** [if err != nil { return err }] after a setter. *)
Definition check (r : Config * option error) : Loading Config :=
  match r with (_, Some err) => LoadError err | (c, None) => Loaded c end.
Definition check_tls (r : TlsState * option error) : Loading TlsState :=
  match r with (_, Some err) => LoadError err | (t, None) => Loaded t end.

Notation "'let*' x := r 'in' k" := (lbind r (λ x, k))
  (at level 10, x pattern, r at level 100, k at level 200).

(** The TLS section of the file; the error of [SetupCrls] is dropped. *)
Definition load_tls (t : yamlConfigTls) : Loading TlsState :=
  if String.eqb (yt_CertFile t) "" then LoadError (Err "'tls' section requires 'cert_file'")
  else
    let key_file := if String.eqb (yt_KeyFile t) "" then yt_CertFile t else yt_KeyFile t in
    let* st := check_tls (SetupTls NewTlsState (yt_CertFile t) key_file (yt_ClientCAFiles t)) in
    match SetupCrls st (yt_CRLFiles t) with
    | CrlDone st => Loaded st
    | CrlError st _ => Loaded st
    | CrlPanic => LoadPanic
    end.

Definition UnmarshalYAML (unmarshal : result yamlConfig) : Loading FullConfig :=
  match unmarshal with
  | Fail err => LoadError err
  | Ok yc =>
      let c := with_Ip NewConfig (y_Ip yc) in
      let c := match y_Port yc with Some p => with_Port c p | None => c end in
      let* c := check (SetDenyRanges c (y_DenyRanges yc)) in
      let* c := check (SetAllowRanges c (y_AllowRanges yc)) in
      let* c := check (SetResolverAddresses c (y_Resolvers yc)) in
      let c := with_ConnectTimeout c (y_ConnectTimeout yc) in
      let c := match y_ExitTimeout yc with Some t => with_ExitTimeout c t | None => c end in
      let* c := check (SetupStatsd statsd_New c (y_StatsdAddress yc)) in
      let* c :=
        if negb (String.eqb (y_EgressAclFile yc) "")
        then check (SetupEgressAcl load_acl c (y_EgressAclFile yc)) else Loaded c in
      let c := with_SupportProxyProtocol c (y_SupportProxyProtocol yc) in
      let c :=
        if negb (String.eqb (y_StatsSocketDir yc) "")
        then with_StatsSocketDir c (y_StatsSocketDir yc) else c in
      let* c :=
        if negb (String.eqb (y_StatsSocketFileMode yc) "") then
          match ParseInt (y_StatsSocketFileMode yc) 8 9 with
          | inr _ => LoadExit
          | inl filemode => Loaded (with_StatsSocketFileMode c (FileMode filemode))
          end
        else Loaded c in
      let* tls := match y_Tls yc with Some t => load_tls t | None => Loaded NewTlsState end in
      let c := with_AllowMissingRole c (y_AllowMissingRole yc) in
      Loaded (mkFullConfig (with_AdditionalErrorMessageOnDeny c (y_DenyMessageExtra yc)) tls)
  end.

Definition LoadConfig (filePath : string) : Loading FullConfig :=
  match ReadFile filePath with
  | Fail err => LoadError err
  | Ok bytes => UnmarshalYAML (yaml_UnmarshalStrict bytes)
  end.

(** [cmd/check_config]: the exit status of the program. *)
Definition check_config (args : list string) : Loading Z :=
  match args with
  | _ :: filePath :: _ =>
      match LoadConfig filePath with
      | Loaded _ => Loaded 0
      | LoadError _ => Loaded 1
      | LoadExit => LoadExit
      | LoadPanic => LoadPanic
      end
  | _ => Loaded 1
  end.

(** ** [NewConfiguration]: the action of the command line; [None] is "help or
    the version was shown".  The tracker that is made last from the result is in [Conntrack.v]. *)
Definition opt {A} (o : option A) (f : Config → A → Config) (c : Config) : Config :=
  match o with Some a => f c a | None => c end.
Definition opt_check {A} (o : option A) (f : Config → A → Config * option error) (c : Config)
    : Loading Config :=
  match o with Some a => check (f c a) | None => Loaded c end.

(** [uint16(port)] of a [uint]. *)
Definition uint16 (n : Z) : Z := n mod 2 ^ 16.

Definition listen_port (o : option Z) (c : Config) : Loading Config :=
  match o with
  | None => Loaded c
  | Some port =>
      if max_uint16 <? port then LoadError (Err ("Invalid listen-port: " +:+ pretty port))
      else Loaded (with_Port c (uint16 port))
  end.

Definition socket_file_mode (o : option string) (c : Config) : Loading Config :=
  match o with
  | None => Loaded c
  | Some s =>
      match ParseInt s 8 9 with
      | inr e => LoadError (num_error_text s e)
      | inl filemode => Loaded (with_StatsSocketFileMode c (FileMode filemode))
      end
  end.

Definition cli_tls (cx : cliContext) (st : TlsState) : Loading TlsState :=
  let* st :=
    match cx_tls_crl_file cx with
    | None => Loaded st
    | Some files =>
        match SetupCrls st files with
        | CrlDone st => Loaded st
        | CrlError _ err => LoadError err
        | CrlPanic => LoadPanic
        end
    end in
  match cx_tls_server_bundle_file cx with
  | None => Loaded st
  | Some bundleFile => check_tls (SetupTls st bundleFile bundleFile (cx_tls_client_ca_file cx))
  end.

Definition NewConfiguration (cx : cliContext) : Loading (option FullConfig) :=
  if cx_version cx || cx_help cx then Loaded None
  else if (0 <? length (cx_args cx))%nat
  then LoadError (Err "Received unexpected non-option argument(s)")
  else
    let* fc :=
      if negb (String.eqb (cx_config_file cx) "") then
        match LoadConfig (cx_config_file cx) with
        | LoadError err => LoadError (Err ("Couldn't load file " +:+ dquote +:+ cx_config_file cx
                             +:+ dquote +:+ " specified by --config-file: " +:+ Error err))
        | r => r
        end
      else Loaded (mkFullConfig NewConfig NewTlsState) in
    let c := opt (cx_listen_ip cx) with_Ip (fc_Config fc) in
    let* c := listen_port (cx_listen_port cx) c in
    let c := opt (cx_timeout cx) with_ConnectTimeout c in
    let c := opt (cx_proxy_protocol cx) with_SupportProxyProtocol c in
    let c := opt (cx_additional_error_message cx) with_AdditionalErrorMessageOnDeny c in
    let c := opt (cx_disable_acl_policy_action cx) with_DisabledAclPolicyActions c in
    let c := opt (cx_stats_socket_dir cx) with_StatsSocketDir c in
    let* c := socket_file_mode (cx_stats_socket_file_mode cx) c in
    let* c := opt_check (cx_deny_range cx) SetDenyRanges c in
    let* c := opt_check (cx_allow_range cx) SetAllowRanges c in
    let* c := opt_check (cx_deny_address cx) SetDenyAddresses c in
    let* c := opt_check (cx_resolver_address cx) SetResolverAddresses c in
    let* c := opt_check (cx_allow_address cx) SetAllowAddresses c in
    let* c := opt_check (cx_statsd_address cx) (SetupStatsd statsd_New) c in
    let* c := opt_check (cx_egress_acl_file cx) (SetupEgressAcl load_acl) c in
    let* tls := cli_tls cx (fc_Tls fc) in
    Loaded (Some (mkFullConfig c tls)).

(** ** Lemmas *)
Lemma lbind_loaded {A B} (r : Loading A) (k : A → Loading B) b :
  lbind r k = Loaded b ↔ ∃ a, r = Loaded a ∧ k a = Loaded b.
Proof. destruct r; simpl; split; try done; eauto; intros (? & [=] & ?); by subst. Qed.

Lemma check_loaded r c : check r = Loaded c ↔ r = (c, None).
Proof. destruct r as [c' [e|]]; simpl; split; congruence. Qed.

(** The ranges that the options add. *)
Definition added_ranges (o : option (list string)) (rs : list RuleRange) : Prop :=
  match o with Some l => parseRanges l = Ok rs | None => rs = [] end.
Definition added_addresses (o : option (list string)) (rs : list RuleRange) : Prop :=
  match o with Some l => parseAddresses l = Ok rs | None => rs = [] end.

(** Everything but the ranges. *)
Definition same_but_ranges (c c' : Config) : Prop :=
  with_DenyRanges (with_AllowRanges c' []) [] = with_DenyRanges (with_AllowRanges c []) [].

Lemma opt_deny_range o c c' :
  opt_check o SetDenyRanges c = Loaded c' → ∃ rs, added_ranges o rs ∧ c' = with_DenyRanges c (DenyRanges c ++ rs).
Proof.
  destruct o as [l|]; simpl; [|intros [= <-]; exists []; rewrite app_nil_r; by destruct c].
  rewrite check_loaded. unfold SetDenyRanges. destruct (parseRanges l) as [rs|]; [|done].
  intros [= <-]. by exists rs.
Qed.

Lemma opt_allow_range o c c' :
  opt_check o SetAllowRanges c = Loaded c' → ∃ rs, added_ranges o rs ∧ c' = with_AllowRanges c (AllowRanges c ++ rs).
Proof.
  destruct o as [l|]; simpl; [|intros [= <-]; exists []; rewrite app_nil_r; by destruct c].
  rewrite check_loaded. unfold SetAllowRanges. destruct (parseRanges l) as [rs|]; [|done].
  intros [= <-]. by exists rs.
Qed.

Lemma opt_deny_address o c c' :
  opt_check o SetDenyAddresses c = Loaded c' →
  ∃ rs, added_addresses o rs ∧ c' = with_DenyRanges c (DenyRanges c ++ rs).
Proof.
  destruct o as [l|]; simpl; [|intros [= <-]; exists []; rewrite app_nil_r; by destruct c].
  rewrite check_loaded. unfold SetDenyAddresses. destruct (parseAddresses l) as [rs|]; [|done].
  intros [= <-]. by exists rs.
Qed.

Lemma opt_allow_address o c c' :
  opt_check o SetAllowAddresses c = Loaded c' →
  ∃ rs, added_addresses o rs ∧ c' = with_AllowRanges c (AllowRanges c ++ rs).
Proof.
  destruct o as [l|]; simpl; [|intros [= <-]; exists []; rewrite app_nil_r; by destruct c].
  rewrite check_loaded. unfold SetAllowAddresses. destruct (parseAddresses l) as [rs|]; [|done].
  intros [= <-]. by exists rs.
Qed.

(** The resolver that a list of addresses sets, when [r0] is there. *)
Definition resolver_from (r0 : ResolverRef) (l : list string) (r : ResolverRef) : Prop :=
  match l with
  | [] => r = r0
  | [addr] => is_ok (SplitHostPort addr) = true ∧ r = UDPResolver addr
  | _ => False
  end.

Definition statsd_of (addr : string) (s : option StatsdRef) : Prop :=
  if String.eqb addr "" then s = None
  else is_ok (statsd_New addr) = true ∧ s = Some (mkStatsdRef addr DefaultStatsdNamespace).

Lemma opt_resolver o c c' :
  opt_check o SetResolverAddresses c = Loaded c' →
  ∃ r, c' = with_Resolver c r ∧ resolver_from (Resolver c) (default [] o) r.
Proof.
  assert (c = with_Resolver c (Resolver c)) as Hc by by destruct c.
  destruct o as [l|]; simpl; [|intros [= <-]; by exists (Resolver c)].
  rewrite check_loaded. destruct l as [|a [|b l]]; simpl; [intros [= <-]; by exists (Resolver c)| |done].
  destruct (SplitHostPort a); [|done]. intros [= <-]. by exists (UDPResolver a).
Qed.

Lemma opt_statsd o c c' :
  opt_check o (SetupStatsd statsd_New) c = Loaded c' →
  ∃ r, c' = with_StatsdClient c r ∧
    match o with None => r = StatsdClient c | Some addr => statsd_of addr r end.
Proof.
  destruct o as [a|]; simpl; [|intros [= <-]; exists (StatsdClient c); by destruct c].
  rewrite check_loaded. unfold SetupStatsd, SetupStatsdWithNamespace, statsd_of.
  destruct (String.eqb a ""); [|destruct (statsd_New a); [|done]]; intros [= <-]; eauto.
Qed.

(** The ACL comes from the option when it is given, loaded with the disabled
    actions that are set by then. *)
Lemma opt_acl o c c' :
  opt_check o (SetupEgressAcl load_acl) c = Loaded c' →
  ∃ a, c' = with_EgressACL c a ∧
    match o with
    | None => a = EgressACL c
    | Some "" => a = None
    | Some f => ∃ acl w, New (load_acl f) (DisabledAclPolicyActions c) = Ok (acl, w) ∧ a = Some (Decide acl)
    end.
Proof.
  destruct o as [f|]; simpl; [|intros [= <-]; exists (EgressACL c); by destruct c].
  rewrite check_loaded. unfold SetupEgressAcl.
  destruct f as [|ch f]; [intros [= <-]; by exists None|].
  cbn [String.eqb]. destruct (New _ _) as [[acl w]|]; [|done]. intros [= <-]. eauto 10.
Qed.

(** ** Theorems *)

(** The configuration that the options are applied to. *)
Definition base_config (cx : cliContext) (b : FullConfig) : Prop :=
  if String.eqb (cx_config_file cx) "" then b = mkFullConfig NewConfig NewTlsState
  else LoadConfig (cx_config_file cx) = Loaded b.

(** Taking a successful run of [NewConfiguration] apart. *)
Lemma NewConfiguration_inv cx fc :
  NewConfiguration cx = Loaded (Some fc) →
  cx_args cx = [] ∧
  ∃ b, base_config cx b ∧ cli_tls cx (fc_Tls b) = Loaded (fc_Tls fc) ∧
  ∃ c1 c2 c3 c4 c5 c6 c7 c8,
    listen_port (cx_listen_port cx) (opt (cx_listen_ip cx) with_Ip (fc_Config b)) = Loaded c1 ∧
    socket_file_mode (cx_stats_socket_file_mode cx)
      (opt (cx_stats_socket_dir cx) with_StatsSocketDir
        (opt (cx_disable_acl_policy_action cx) with_DisabledAclPolicyActions
          (opt (cx_additional_error_message cx) with_AdditionalErrorMessageOnDeny
            (opt (cx_proxy_protocol cx) with_SupportProxyProtocol
              (opt (cx_timeout cx) with_ConnectTimeout c1))))) = Loaded c2 ∧
    opt_check (cx_deny_range cx) SetDenyRanges c2 = Loaded c3 ∧
    opt_check (cx_allow_range cx) SetAllowRanges c3 = Loaded c4 ∧
    opt_check (cx_deny_address cx) SetDenyAddresses c4 = Loaded c5 ∧
    opt_check (cx_resolver_address cx) SetResolverAddresses c5 = Loaded c6 ∧
    opt_check (cx_allow_address cx) SetAllowAddresses c6 = Loaded c7 ∧
    opt_check (cx_statsd_address cx) (SetupStatsd statsd_New) c7 = Loaded c8 ∧
    opt_check (cx_egress_acl_file cx) (SetupEgressAcl load_acl) c8 = Loaded (fc_Config fc).
Proof.
  unfold NewConfiguration. destruct (cx_version cx || cx_help cx); [done|].
  destruct (cx_args cx) as [|arg args]; [|done]. simpl.
  rewrite lbind_loaded. intros (b & Hb & H).
  repeat (rewrite lbind_loaded in H; destruct H as (? & ? & H)). simplify_eq.
  split; [done|]. exists b. split; [|split; [done|eauto 20]]. unfold base_config.
  destruct (String.eqb (cx_config_file cx) ""); simpl in Hb; [by simplify_eq|].
  by destruct (LoadConfig (cx_config_file cx)).
Qed.

Lemma listen_port_loaded o c c' :
  listen_port o c = Loaded c' →
  c' = with_Port c (default (Port c) (uint16 <$> o)) ∧ ∀ p, o = Some p → p ≤ 65535.
Proof.
  destruct o as [p|]; simpl; [|intros [= <-]; split; [by destruct c|done]].
  unfold max_uint16. destruct (Z.ltb_spec 65535 p); [done|]. intros [= <-].
  split; [done|]. by intros ? [= <-].
Qed.

Lemma socket_file_mode_loaded o c c' :
  socket_file_mode o c = Loaded c' →
  ∃ m, c' = with_StatsSocketFileMode c m ∧
    match o with
    | None => m = StatsSocketFileMode c
    | Some s => ∃ n, ParseInt s 8 9 = inl n ∧ m = FileMode n
    end.
Proof.
  destruct o as [s|]; simpl; [|intros [= <-]; exists (StatsSocketFileMode c); by destruct c].
  destruct (ParseInt s 8 9); [|done]. intros [= <-]. eauto 10.
Qed.

(** An option that is not set writes the value that is there. *)
Lemma opt_scalars :
  (∀ o c, opt o with_Ip c = with_Ip c (default (Ip c) o)) ∧
  (∀ o c, opt o with_ConnectTimeout c = with_ConnectTimeout c (default (ConnectTimeout c) o)) ∧
  (∀ o c, opt o with_SupportProxyProtocol c =
          with_SupportProxyProtocol c (default (SupportProxyProtocol c) o)) ∧
  (∀ o c, opt o with_AdditionalErrorMessageOnDeny c =
          with_AdditionalErrorMessageOnDeny c (default (AdditionalErrorMessageOnDeny c) o)) ∧
  (∀ o c, opt o with_DisabledAclPolicyActions c =
          with_DisabledAclPolicyActions c (default (DisabledAclPolicyActions c) o)) ∧
  (∀ o c, opt o with_StatsSocketDir c = with_StatsSocketDir c (default (StatsSocketDir c) o)).
Proof. split_and!; by intros [x|] []. Qed.

(** What the options [cx] make of the configuration [b]: [fc]. *)
Record options_applied (cx : cliContext) (b fc : FullConfig) : Prop := mkApplied {
  oa_ranges : ∃ dr da ar aa,
    added_ranges (cx_deny_range cx) dr ∧ added_addresses (cx_deny_address cx) da ∧
    added_ranges (cx_allow_range cx) ar ∧ added_addresses (cx_allow_address cx) aa ∧
    DenyRanges (fc_Config fc) = DenyRanges (fc_Config b) ++ dr ++ da ∧
    AllowRanges (fc_Config fc) = AllowRanges (fc_Config b) ++ ar ++ aa;
  oa_ip : Ip (fc_Config fc) = default (Ip (fc_Config b)) (cx_listen_ip cx);
  oa_port : Port (fc_Config fc) = default (Port (fc_Config b)) (uint16 <$> cx_listen_port cx) ∧
    ∀ p, cx_listen_port cx = Some p → p ≤ 65535;
  oa_timeout : ConnectTimeout (fc_Config fc) = default (ConnectTimeout (fc_Config b)) (cx_timeout cx);
  oa_proxy_protocol : SupportProxyProtocol (fc_Config fc) =
    default (SupportProxyProtocol (fc_Config b)) (cx_proxy_protocol cx);
  oa_message : AdditionalErrorMessageOnDeny (fc_Config fc) =
    default (AdditionalErrorMessageOnDeny (fc_Config b)) (cx_additional_error_message cx);
  oa_disabled : DisabledAclPolicyActions (fc_Config fc) =
    default (DisabledAclPolicyActions (fc_Config b)) (cx_disable_acl_policy_action cx);
  oa_socket_dir : StatsSocketDir (fc_Config fc) =
    default (StatsSocketDir (fc_Config b)) (cx_stats_socket_dir cx);
  oa_socket_mode :
    match cx_stats_socket_file_mode cx with
    | None => StatsSocketFileMode (fc_Config fc) = StatsSocketFileMode (fc_Config b)
    | Some s => ∃ n, ParseInt s 8 9 = inl n ∧ StatsSocketFileMode (fc_Config fc) = FileMode n
    end;
  oa_resolver : resolver_from (Resolver (fc_Config b)) (default [] (cx_resolver_address cx))
    (Resolver (fc_Config fc));
  oa_statsd :
    match cx_statsd_address cx with
    | None => StatsdClient (fc_Config fc) = StatsdClient (fc_Config b)
    | Some addr => statsd_of addr (StatsdClient (fc_Config fc))
    end;
  oa_acl :
    match cx_egress_acl_file cx with
    | None => EgressACL (fc_Config fc) = EgressACL (fc_Config b)
    | Some "" => EgressACL (fc_Config fc) = None
    | Some f => ∃ acl w, EgressACL (fc_Config fc) = Some (Decide acl) ∧
        New (load_acl f) (DisabledAclPolicyActions (fc_Config fc)) = Ok (acl, w)
    end;
  oa_tls : ∃ st,
    match cx_tls_crl_file cx with
    | None => st = fc_Tls b
    | Some files => SetupCrls (fc_Tls b) files = CrlDone st
    end ∧
    match cx_tls_server_bundle_file cx with
    | None => fc_Tls fc = st
    | Some f => SetupTls st f f (cx_tls_client_ca_file cx) = (fc_Tls fc, None)
    end;
  oa_rest : AllowMissingRole (fc_Config fc) = AllowMissingRole (fc_Config b) ∧
    RoleFromRequest (fc_Config fc) = RoleFromRequest (fc_Config b) ∧
    ExitTimeout (fc_Config fc) = ExitTimeout (fc_Config b) ∧
    IdleThreshold (fc_Config fc) = IdleThreshold (fc_Config b)
}.

Lemma cli_tls_loaded cx st0 st' :
  cli_tls cx st0 = Loaded st' →
  ∃ st, match cx_tls_crl_file cx with
        | None => st = st0
        | Some files => SetupCrls st0 files = CrlDone st
        end ∧
        match cx_tls_server_bundle_file cx with
        | None => st' = st
        | Some f => SetupTls st f f (cx_tls_client_ca_file cx) = (st', None)
        end.
Proof.
  unfold cli_tls. intros (st & Hc & Ht)%lbind_loaded. exists st. split.
  - destruct (cx_tls_crl_file cx) as [files|]; [|by simplify_eq].
    destruct (SetupCrls st0 files); by simplify_eq.
  - destruct (cx_tls_server_bundle_file cx) as [f|]; [|by simplify_eq].
    destruct (SetupTls _ _ _ _) as [st1 [e|]]; simpl in Ht; by simplify_eq.
Qed.

Lemma NewConfiguration_effect cx fc :
  NewConfiguration cx = Loaded (Some fc) → ∃ b, base_config cx b ∧ options_applied cx b fc.
Proof.
  intros (_ & b & Hb & Ht & c1 & c2 & c3 & c4 & c5 & c6 & c7 & c8 & H1 & H2 & H3 & H4 & H5 & H6 & H7 & H8 & H9)
    %NewConfiguration_inv.
  exists b. split; [done|]. apply cli_tls_loaded in Ht.
  apply listen_port_loaded in H1 as [-> Hport]. apply socket_file_mode_loaded in H2 as (m & -> & Hm).
  apply opt_deny_range in H3 as (dr & Hdr & ->). apply opt_allow_range in H4 as (ar & Har & ->).
  apply opt_deny_address in H5 as (da & Hda & ->). apply opt_resolver in H6 as (r & -> & Hr).
  apply opt_allow_address in H7 as (aa & Haa & ->). apply opt_statsd in H8 as (sd & -> & Hsd).
  apply opt_acl in H9 as (a & E9 & Ha).
  destruct opt_scalars as (E1 & E2 & E3 & E4 & E5 & E6).
  rewrite E1, E2, E3, E4, E5, E6 in *.
  split; rewrite ?E9; simpl in *; try done.
  - exists dr, da, ar, aa. by rewrite <-!app_assoc.
  - destruct (cx_egress_acl_file cx) as [[|ch f]|]; [done| |done].
    destruct Ha as (acl & w & ? & ->). eauto.
Qed.

(** C26: what the command line makes of a configuration. The options are applied
    to the configuration file, or to the defaults without one.  Each scalar
    option that is set replaces the value and one that is not set keeps it: the
    address, the port (above 65535 it is refused), the timeout, the proxy
    protocol, the message, the disabled policy actions, the directory and the
    mode of the statistics socket, the resolver and the statsd client.  Ranges
    and addresses are added after those of the file.  The ACL of the file is
    kept unless a file is given as an option, and only in that case do the
    disabled policy actions of the command line apply to it.  The TLS options
    are applied to the TLS state of the file, the revocation lists first.
    Positional arguments are refused. *)
Theorem NewConfiguration_spec cx fc :
  NewConfiguration cx = Loaded (Some fc) →
  cx_args cx = [] ∧ ∃ b, base_config cx b ∧ options_applied cx b fc.
Proof.
  intros H. split; [by apply NewConfiguration_inv in H as [? _]|by apply NewConfiguration_effect].
Qed.

(** Revocation lists given on the command line have no effect. Without a
    configuration file the lists are processed before the authorities of
    [--tls-client-ca-file] are loaded, when no authority is known, so in every
    successful run no list is in force. *)
Theorem cli_crls_ignored cx fc :
  cx_config_file cx = "" → NewConfiguration cx = Loaded (Some fc) →
  ts_CrlByAuthorityKeyId (fc_Tls fc) = ∅.
Proof.
  intros Hf (_ & b & Hb & Ht & _)%NewConfiguration_inv. unfold base_config in Hb.
  rewrite Hf in Hb. simpl in Hb. subst b. simpl in Ht. unfold cli_tls in Ht.
  apply lbind_loaded in Ht as (st & Hc & Ht).
  assert (st = NewTlsState) as ->.
  { destruct (cx_tls_crl_file cx) as [files|]; [|by simplify_eq].
    pose proof (SetupCrls_no_cas NewTlsState files) as Hn.
    destruct (SetupCrls NewTlsState files); simplify_eq. exact (Hn _ eq_refl eq_refl). }
  destruct (cx_tls_server_bundle_file cx) as [bundle|]; [|by injection Ht as <-].
  pose proof (SetupTls_crls NewTlsState bundle bundle (cx_tls_client_ca_file cx)) as Hs.
  destruct (SetupTls _ _ _ _) as [st' [e|]]; simpl in *; [done|]. by injection Ht as <-.
Qed.

(** Three octal digits. *)
Definition octal3 (n : Z) : string :=
  String (digit_char (n / 64)) (String (digit_char (n / 8 mod 8)) (String (digit_char (n mod 8)) "")).

Lemma ParseInt_octal3 n :
  0 ≤ n < 512 → ParseInt (octal3 n) 8 9 = if n <? 256 then inl n else inr ErrRange.
Proof.
  intros Hn.
  assert (forallb (λ n, match ParseInt (octal3 n) 8 9 with
                        | inl m => (n <? 256) && (m =? n)
                        | inr ErrRange => negb (n <? 256)
                        | inr ErrSyntax => false
                        end) (seqZ 0 512) = true) as H by (vm_compute; reflexivity).
  rewrite forallb_true_iff in H. specialize (H n).
  rewrite elem_of_seqZ in H. specialize (H ltac:(lia)).
  destruct (ParseInt (octal3 n) 8 9) as [m|[]]; destruct (n <? 256); simpl in H; to_prop; try done.
  by subst.
Qed.

(** C30: bounds of the file mode of the statistics socket. The mode is read as a
    signed 9-bit number, so of the modes 000 to 777 those below 400 are taken
    as they are and all others (every mode that lets the owner read, the
    documented default 700 among them) are refused: an error on the command
    line, the end of the process in a configuration file. *)
Theorem file_mode_bound n c yc fc :
  0 ≤ n < 512 →
  socket_file_mode (Some (octal3 n)) c =
    (if n <? 256 then Loaded (with_StatsSocketFileMode c n)
     else LoadError (num_error_text (octal3 n) ErrRange)) ∧
  (256 ≤ n → y_StatsSocketFileMode yc = octal3 n → UnmarshalYAML (Ok yc) ≠ Loaded fc).
Proof.
  intros Hn. pose proof (ParseInt_octal3 n Hn) as Hp. split.
  - unfold socket_file_mode. rewrite Hp. destruct (Z.ltb_spec n 256); [|done].
    unfold FileMode. rewrite Z.mod_small by lia. done.
  - intros H256 Hm H. unfold UnmarshalYAML in H.
    do 5 (apply lbind_loaded in H as (? & _ & H)). apply lbind_loaded in H as (? & H & _).
    rewrite Hm in H. simpl in H. fold (octal3 n) in H. rewrite Hp in H.
    destruct (Z.ltb_spec n 256); [lia|done].
Qed.
End loader.

(** ** Witnesses *)
Definition no_options : cliContext :=
  mkCliContext false false [] "" None None None None None None None None None None None None None None None
    None None [].

Definition toy_statsd (addr : string) : result unit := Ok tt.
Definition toy_acl (file : string) : result ACL := Ok open_acl.
Definition toy_yaml (data : string) : result yamlConfig :=
  Ok (mkYamlConfig "10.0.0.1" (Some 4751) ["1.0.0.0/8"] [] [] 5 None "" "acl.yaml" false "" true "" "" None).

Definition some_options : cliContext :=
  mkCliContext false false [] "config.yaml" None (Some 80) None None None (Some ["open"]) None None
    (Some ["2.0.0.0/8"]) None None None None None None (Some ["ca1"]) (Some "bundle") ["ca1"].

#[local] Instance toy_range : MapRange string Rule := canonical_range string Rule.

Definition run_cli (cx : cliContext) : Loading (option FullConfig) :=
  @NewConfiguration toy_pki _ toy_statsd toy_acl toy_yaml cx.

(** A test on the configuration that a run yields. *)
Definition of_run (cx : cliContext) (test : FullConfig → bool) : bool :=
  match run_cli cx with Loaded (Some fc) => test fc | _ => false end.

Lemma of_run_inv cx test :
  of_run cx test = true → ∃ fc, run_cli cx = Loaded (Some fc) ∧ test fc = true.
Proof. unfold of_run. destruct (run_cli cx) as [[fc|]| | |]; try done. by exists fc. Qed.

Lemma NewConfiguration_spec_witness :
  ∃ fc, run_cli some_options = Loaded (Some fc) ∧ Port (fc_Config fc) = 80 ∧
  length (DenyRanges (fc_Config fc)) = 2%nat ∧ is_Some (EgressACL (fc_Config fc)) ∧
  ∃ b, @base_config toy_pki _ toy_statsd toy_acl toy_yaml some_options b ∧
       @options_applied toy_pki _ toy_statsd toy_acl some_options b fc ∧
       EgressACL (fc_Config fc) = EgressACL (fc_Config b).
Proof.
  assert (of_run some_options (λ fc, (length (DenyRanges (fc_Config fc)) =? 2)%nat &&
    match EgressACL (fc_Config fc) with Some _ => true | None => false end) = true) as H
    by (vm_compute; reflexivity).
  apply of_run_inv in H as (fc & E & [Hl%Nat.eqb_eq Ha]%andb_true_iff).
  exists fc. split; [exact E|].
  pose proof (@NewConfiguration_spec toy_pki _ toy_statsd toy_acl toy_yaml some_options fc E)
    as (_ & b & Hb & Hr).
  split; [apply (oa_port _ _ _ _ _ Hr)|]. split; [exact Hl|]. clear E.
  split; [clear -Ha; by destruct (EgressACL (fc_Config fc))|].
  exists b. split; [exact Hb|]. split; [exact Hr|apply (oa_acl _ _ _ _ _ Hr)].
Defined.

(** The same options with revocation lists and authorities, no file. *)
Definition crl_options : cliContext :=
  mkCliContext false false [] "" None None None None None None None None None None None None None None None
    (Some ["ca1"]) (Some "bundle") ["ca1"].

Lemma cli_crls_ignored_witness :
  ∃ fc, run_cli crl_options = Loaded (Some fc) ∧
  dom (ts_clientCasBySubjectKeyId (fc_Tls fc)) = {["ca1"]} ∧
  ts_CrlByAuthorityKeyId (fc_Tls fc) = ∅.
Proof.
  assert (of_run crl_options (λ fc, bool_decide (dom (ts_clientCasBySubjectKeyId (fc_Tls fc)) = {["ca1"]}))
    = true) as H by (vm_compute; reflexivity).
  apply of_run_inv in H as (fc & E & H). exists fc. split; [exact E|].
  split; [exact (proj1 (bool_decide_eq_true _) H)|].
  apply (@cli_crls_ignored toy_pki _ toy_statsd toy_acl toy_yaml crl_options fc eq_refl E).
Defined.

Lemma file_mode_bound_witness :
  socket_file_mode (Some "700") NewConfig = LoadError (num_error_text "700" ErrRange) ∧
  socket_file_mode (Some "377") NewConfig = Loaded (with_StatsSocketFileMode NewConfig 255).
Proof.
  set (yc := mkYamlConfig "" None [] [] [] 0 None "" "" false "" false "" "700" None).
  set (fc := @mkFullConfig toy_pki NewConfig NewTlsState). split.
  - apply (@file_mode_bound toy_pki _ toy_statsd toy_acl 448 NewConfig yc fc). done.
  - apply (@file_mode_bound toy_pki _ toy_statsd toy_acl 255 NewConfig yc fc). done.
Defined.
