(* ===== verification/LoaderSpec.v ===== *)
(** * What a configuration file yields, and the types of a configuration

    [UnmarshalYAML] of [src/pkg/smokescreen/config_loader.go] against a
    description of its result, and the well-formedness of every configuration
    that the loaders of [Loader.v] return. *)

From S2P Require Import Prelude GoStrings GoNet GoIPv6 Acl Http Config Conntrack Tls Loader.

(** The command line with the mode of the statistics socket and nothing else. *)
Definition mode_option (mode : string) : cliContext :=
  mkCliContext false false [] "" None None None None None None None (Some mode) None None None None None
    None None None None [].

(** ** The configuration that a file describes *)
Definition resolver_of : list string → ResolverRef → Prop := resolver_from SystemResolver.

Definition mode_of (s : string) (m : Z) : Prop :=
  if String.eqb s "" then m = 448
  else ∃ n, ParseInt s 8 9 = inl n ∧ m = FileMode n.

Section spec.
Context `{K : Pki} `{MR : !MapRange string Rule}.
Variable statsd_New : string → result unit.
Variable load_acl : string → result ACL.
Variable yaml_UnmarshalStrict : string → result yamlConfig.

#[local] Notation statsd_of := (statsd_of statsd_New).

Definition acl_of (file : string) (a : option (string → string → Decision * option error)) : Prop :=
  if String.eqb file "" then a = None
  else ∃ acl w, New (load_acl file) [] = Ok (acl, w) ∧ a = Some (Decide acl).

Definition tls_of (t : option yamlConfigTls) (st : TlsState) : Prop :=
  match t with None => st = NewTlsState | Some t => load_tls t = Loaded st end.

(** Each operation of the loader, as a relation between the configuration before
    and after it. *)
Lemma step_deny c l c' :
  check (SetDenyRanges c l) = Loaded c' ↔
  ∃ rs, parseRanges l = Ok rs ∧ c' = with_DenyRanges c (DenyRanges c ++ rs).
Proof.
  rewrite check_loaded. unfold SetDenyRanges. destruct (parseRanges l) as [rs|];
    [split; [intros [= <-]; eauto|by intros (? & [= <-] & ->)]|split; [done|naive_solver]].
Qed.

Lemma step_allow c l c' :
  check (SetAllowRanges c l) = Loaded c' ↔
  ∃ rs, parseRanges l = Ok rs ∧ c' = with_AllowRanges c (AllowRanges c ++ rs).
Proof.
  rewrite check_loaded. unfold SetAllowRanges. destruct (parseRanges l) as [rs|];
    [split; [intros [= <-]; eauto|by intros (? & [= <-] & ->)]|split; [done|naive_solver]].
Qed.

Lemma step_resolver c l c' :
  Resolver c = SystemResolver →
  check (SetResolverAddresses c l) = Loaded c' ↔
  ∃ r, resolver_of l r ∧ c' = with_Resolver c r.
Proof.
  intros Hc. rewrite check_loaded. destruct l as [|addr [|addr' l]]; simpl.
  - split; [intros [= <-]; exists SystemResolver; rewrite <-Hc; by destruct c|].
    intros (r & -> & ->). rewrite <-Hc. by destruct c.
  - destruct (SplitHostPort addr) as [hp|err]; simpl.
    + split; [intros [= <-]; eauto|by intros (r & [_ ->] & ->)].
    + split; [done|by intros (r & [[=] _] & _)].
  - split; [done|by intros (r & [] & _)].
Qed.

Lemma step_statsd c addr c' :
  check (SetupStatsd statsd_New c addr) = Loaded c' ↔
  ∃ s, statsd_of addr s ∧ c' = with_StatsdClient c s.
Proof.
  rewrite check_loaded. unfold SetupStatsd, SetupStatsdWithNamespace, statsd_of.
  destruct (String.eqb addr ""); [split; [intros [= <-]; eauto|by intros (s & -> & ->)]|].
  destruct (statsd_New addr) as [u|err]; simpl.
  - split; [intros [= <-]; eauto|by intros (s & [_ ->] & ->)].
  - split; [done|by intros (s & [[=] _] & _)].
Qed.

Lemma step_acl c file c' :
  EgressACL c = None → DisabledAclPolicyActions c = [] →
  (if negb (String.eqb file "") then check (SetupEgressAcl load_acl c file) else Loaded c)
    = Loaded c' ↔
  ∃ a, acl_of file a ∧ c' = with_EgressACL c a.
Proof.
  intros Hc Hd. unfold SetupEgressAcl, acl_of. rewrite Hd. destruct (String.eqb file ""); simpl.
  - split; [intros [= <-]; exists None; rewrite <-Hc; by destruct c|].
    intros (a & -> & ->). rewrite <-Hc. by destruct c.
  - destruct (New (load_acl file) []) as [[acl w]|err]; simpl.
    + split; [intros [= <-]; eauto 10|]. by intros (a & (acl' & w' & [= <- <-] & ->) & ->).
    + split; [done|by intros (a & (acl' & w' & [=] & _) & _)].
Qed.

Lemma step_mode c s c' :
  StatsSocketFileMode c = 448 →
  (if negb (String.eqb s "") then
     match ParseInt s 8 9 with
     | inr _ => LoadExit
     | inl filemode => Loaded (with_StatsSocketFileMode c (FileMode filemode))
     end
   else Loaded c) = Loaded c' ↔
  ∃ m, mode_of s m ∧ c' = with_StatsSocketFileMode c m.
Proof.
  intros Hc. unfold mode_of. destruct (String.eqb s ""); simpl.
  - split; [intros [= <-]; exists 448; rewrite <-Hc; by destruct c|].
    intros (m & -> & ->). rewrite <-Hc. by destruct c.
  - destruct (ParseInt s 8 9) as [n|e].
    + split; [intros [= <-]; eauto 10|by intros (m & (n' & [= <-] & ->) & ->)].
    + split; [done|by intros (m & (n' & [=] & _) & _)].
Qed.

Lemma step_tls t st :
  match t with Some t => load_tls t | None => Loaded NewTlsState end = Loaded st ↔ tls_of t st.
Proof. destruct t; simpl; [done|]. split; [by intros [= <-]|by intros ->]. Qed.

Lemma UnmarshalYAML_iff yc fc :
  UnmarshalYAML statsd_New load_acl (Ok yc) = Loaded fc ↔
  ∃ dr ar r sd a m st,
    parseRanges (y_DenyRanges yc) = Ok dr ∧ parseRanges (y_AllowRanges yc) = Ok ar ∧
    resolver_of (y_Resolvers yc) r ∧ statsd_of (y_StatsdAddress yc) sd ∧
    acl_of (y_EgressAclFile yc) a ∧ mode_of (y_StatsSocketFileMode yc) m ∧ tls_of (y_Tls yc) st ∧
    fc = mkFullConfig
      (mkConfig (y_Ip yc) (default 4750 (y_Port yc)) dr ar r (y_ConnectTimeout yc)
         (default (500 * minute) (y_ExitTimeout yc)) sd a (y_SupportProxyProtocol yc) None
         (y_DenyMessageExtra yc) [] (y_AllowMissingRole yc) (y_StatsSocketDir yc) m (10 * second))
      st.
Proof.
  destruct yc as [ip port dr ar rs ct et sa af pp dm am sd fm tls]; simpl. split.
  - intros H.
    apply lbind_loaded in H as (? & (dr' & Hdr & ->)%step_deny & H).
    apply lbind_loaded in H as (? & (ar' & Har & ->)%step_allow & H).
    apply lbind_loaded in H as (? & (r & Hr & ->)%step_resolver & H); [|by destruct port].
    apply lbind_loaded in H as (? & (s & Hs & ->)%step_statsd & H).
    apply lbind_loaded in H as (? & (a & Ha & ->)%step_acl & H);
      [|by destruct port, et|by destruct port, et].
    apply lbind_loaded in H as (? & (m & Hm & ->)%step_mode & H);
      [|by destruct port, et, (negb (String.eqb sd ""))].
    apply lbind_loaded in H as (st & Ht%step_tls & [= <-]).
    exists dr', ar', r, s, a, m, st. split_and!; try done. f_equal.
    destruct (String.eqb_spec sd "") as [->|]; destruct port, et; reflexivity.
  - intros (dr' & ar' & r & s & a & m & st & Hdr & Har & Hr & Hs & Ha & Hm & Ht & ->).
    apply lbind_loaded. eexists. split; [apply step_deny; eauto|].
    apply lbind_loaded. eexists. split; [apply step_allow; eauto|].
    apply lbind_loaded. eexists. split; [apply step_resolver; [by destruct port|eauto]|].
    apply lbind_loaded. eexists. split; [apply step_statsd; eauto|].
    apply lbind_loaded. eexists.
    split; [apply step_acl; [by destruct port, et|by destruct port, et|eauto]|].
    apply lbind_loaded. eexists.
    split; [apply step_mode; [by destruct port, et, (negb (String.eqb sd ""))|eauto]|].
    apply lbind_loaded. eexists. split; [by apply step_tls|].
    f_equal. f_equal. destruct (String.eqb_spec sd "") as [->|]; destruct port, et; reflexivity.
Qed.


(** ** Types *)

(** A file mode as the loaders make one: the default 0700, or nine signed bits
    in the 32 of [os.FileMode]. *)
Definition mode_typed (m : Z) : Prop := m = 448 ∨ 0 ≤ m < 256 ∨ 2 ^ 32 - 256 ≤ m < 2 ^ 32.

(** The ranges of the Go types of the fields, and the invariant of the ranges. *)
Record config_typed (c : Config) : Prop := mkTyped {
  typed_port : 0 ≤ Port c < 2 ^ 16;                     (* uint16 *)
  typed_mode : mode_typed (StatsSocketFileMode c);
  typed_connect : in_duration (ConnectTimeout c);       (* time.Duration *)
  typed_exit : in_duration (ExitTimeout c);
  typed_idle : in_duration (IdleThreshold c);
  typed_ranges : ranges_wf c
}.

(** What the decoder and the command line library store in typed fields. *)
Definition yaml_typed (yc : yamlConfig) : Prop :=
  (∀ p, y_Port yc = Some p → 0 ≤ p < 2 ^ 16) ∧ in_duration (y_ConnectTimeout yc) ∧
  (∀ t, y_ExitTimeout yc = Some t → in_duration t).

Definition cli_typed (cx : cliContext) : Prop :=
  (∀ p, cx_listen_port cx = Some p → 0 ≤ p) ∧ (∀ t, cx_timeout cx = Some t → in_duration t).

Lemma NewConfig_typed : config_typed NewConfig.
Proof. split; try (by vm_compute). by left. Qed.

Lemma FileMode_typed s n : ParseInt s 8 9 = inl n → mode_typed (FileMode n).
Proof.
  intros Hn%ParseInt_bounds; [|lia..]. change (2 ^ (9 - 1)) with 256 in Hn. right. unfold FileMode.
  destruct (Z.lt_ge_cases n 0); [right|left; rewrite Z.mod_small by lia; lia].
  rewrite <-(Z.mod_add n 1) by lia. rewrite Z.mod_small by lia. lia.
Qed.

Lemma UnmarshalYAML_typed r fc :
  (∀ yc, r = Ok yc → yaml_typed yc) →
  UnmarshalYAML statsd_New load_acl r = Loaded fc → config_typed (fc_Config fc).
Proof.
  intros Hy. destruct r as [yc|]; [|done]. destruct (Hy yc eq_refl) as (Hp & Hc & He).
  intros (dr & ar & r & sd & a & m & st & Hdr & Har & _ & _ & _ & Hm & _ & ->)%UnmarshalYAML_iff.
  split; simpl; try done.
  - destruct (y_Port yc) as [p|]; simpl; [by apply Hp|lia].
  - unfold mode_of in Hm. destruct (String.eqb _ _); [by left|].
    destruct Hm as (n & Hn & ->). by eapply FileMode_typed.
  - destruct (y_ExitTimeout yc) as [t|]; simpl; [by apply He|by vm_compute].
  - split; simpl; by eapply parseRanges_wf.
Qed.

Lemma added_ranges_wf o rs : added_ranges o rs → Forall range_wf rs.
Proof. destruct o; simpl; [apply parseRanges_wf|intros ->; constructor]. Qed.
Lemma added_addresses_wf o rs : added_addresses o rs → Forall range_wf rs.
Proof. destruct o; simpl; [apply parseAddresses_wf|intros ->; constructor]. Qed.

(** Every option keeps the types. *)
Lemma opt_typed {A} (f : Config → A → Config) (P : A → Prop) o c :
  (∀ c a, P a → config_typed c → config_typed (f c a)) → (∀ a, o = Some a → P a) →
  config_typed c → config_typed (opt o f c).
Proof. destruct o; simpl; auto. Qed.

Lemma with_deny_typed c rs :
  Forall range_wf rs → config_typed c → config_typed (with_DenyRanges c (DenyRanges c ++ rs)).
Proof. intros Hr [? ? ? ? ? [Hd Ha]]. split; try done. split; [by apply Forall_app|done]. Qed.
Lemma with_allow_typed c rs :
  Forall range_wf rs → config_typed c → config_typed (with_AllowRanges c (AllowRanges c ++ rs)).
Proof. intros Hr [? ? ? ? ? [Hd Ha]]. split; try done. split; [done|by apply Forall_app]. Qed.

Lemma untyped_fields_typed c :
  config_typed c →
  (∀ x, config_typed (with_Ip c x)) ∧ (∀ x, config_typed (with_SupportProxyProtocol c x)) ∧
  (∀ x, config_typed (with_AdditionalErrorMessageOnDeny c x)) ∧
  (∀ x, config_typed (with_DisabledAclPolicyActions c x)) ∧
  (∀ x, config_typed (with_StatsSocketDir c x)) ∧ (∀ x, config_typed (with_Resolver c x)) ∧
  (∀ x, config_typed (with_StatsdClient c x)) ∧ (∀ x, config_typed (with_EgressACL c x)).
Proof. intros []. split_and!; intros x; by split. Qed.

Lemma listen_port_typed o c c' : listen_port o c = Loaded c' → config_typed c → config_typed c'.
Proof.
  destruct o as [p|]; simpl; [|by intros [= <-]]. destruct (max_uint16 <? p); [done|].
  intros [= <-] []. split; try done. apply Z.mod_pos_bound. lia.
Qed.

Lemma socket_file_mode_typed o c c' :
  socket_file_mode o c = Loaded c' → config_typed c → config_typed c'.
Proof.
  destruct o as [f|]; simpl; [|by intros [= <-]]. destruct (ParseInt f 8 9) as [n|] eqn:Hn; [|done].
  intros [= <-] []. split; try done. by eapply FileMode_typed.
Qed.

(** Any run of the loaders returns a configuration of these types. *)
Lemma NewConfiguration_config_typed cx fc :
  (∀ data yc, yaml_UnmarshalStrict data = Ok yc → yaml_typed yc) → cli_typed cx →
  NewConfiguration statsd_New load_acl yaml_UnmarshalStrict cx = Loaded (Some fc) →
  config_typed (fc_Config fc).
Proof.
  intros Hy Hcx (_ & b & Hb & _ & c1 & c2 & c3 & c4 & c5 & c6 & c7 & c8 & H1 & H2 & H3 & H4 & H5 & H6
    & H7 & H8 & H9)%NewConfiguration_inv.
  assert (config_typed (fc_Config b)) as Tb.
  { unfold base_config in Hb. destruct (String.eqb _ _); [subst; apply NewConfig_typed|].
    unfold LoadConfig in Hb. destruct (ReadFile (cx_config_file cx)) as [data|]; [|done].
    eapply UnmarshalYAML_typed; [|exact Hb]. intros yc. apply Hy. }
  apply listen_port_typed in H1; [|by apply (opt_typed _ (λ _, True)); [intros; by apply untyped_fields_typed|..]].
  apply socket_file_mode_typed in H2.
  2:{ repeat (apply (opt_typed _ (λ _, True)); [intros; by apply untyped_fields_typed|done|]).
      apply (opt_typed _ in_duration); [by intros c t ? []; split|apply Hcx|done]. }
  apply opt_deny_range in H3 as (dr & Hdr%added_ranges_wf & ->).
  apply opt_allow_range in H4 as (ar & Har%added_ranges_wf & ->).
  apply opt_deny_address in H5 as (da & Hda%added_addresses_wf & ->).
  apply opt_resolver in H6 as (r & -> & _).
  apply opt_allow_address in H7 as (aa & Haa%added_addresses_wf & ->).
  apply opt_statsd in H8 as (sd & -> & _). apply opt_acl in H9 as (a & -> & _).
  apply untyped_fields_typed, untyped_fields_typed, with_allow_typed, untyped_fields_typed,
    with_deny_typed, with_allow_typed, with_deny_typed; done.
Qed.

(** C29: every configuration that is returned is well typed. If the YAML decoder
    and the command line library respect the types of the fields they fill (an
    unsigned port, of 16 bits in the file, and 64-bit durations), then whatever
    file and options are given, the port fits 16 bits and is the number given
    on the command line, if one is; the timeouts are durations; all ranges
    denote network prefixes; and the file mode is the default 0700 or a number
    of nine signed bits in the 32 bits of a file mode.  A negative mode is
    accepted and is no permission: "-1" yields the mode 2^32 - 1. *)
Theorem NewConfiguration_typed :
  (∀ cx fc, (∀ data yc, yaml_UnmarshalStrict data = Ok yc → yaml_typed yc) → cli_typed cx →
   NewConfiguration statsd_New load_acl yaml_UnmarshalStrict cx = Loaded (Some fc) →
   config_typed (fc_Config fc) ∧
   ∀ p, cx_listen_port cx = Some p → Port (fc_Config fc) = p) ∧
  ∃ fc, NewConfiguration statsd_New load_acl yaml_UnmarshalStrict (mode_option "-1") = Loaded (Some fc) ∧
    StatsSocketFileMode (fc_Config fc) = 2 ^ 32 - 1.
Proof.
  split.
  - intros cx fc Hy Hcx H. split; [by eapply NewConfiguration_config_typed|]. intros p Hp.
    apply NewConfiguration_effect in H as (b & _ & Hoa).
    destruct (oa_port _ _ _ _ _ Hoa) as [-> Hle]. specialize (Hle p Hp). rewrite Hp. simpl.
    pose proof (proj1 Hcx p Hp). unfold uint16. rewrite Z.mod_small; lia.
  - eexists. split; [reflexivity|]. reflexivity.
Qed.
End spec.


Lemma NewConfiguration_typed_witness :
  ∃ fc, run_cli some_options = Loaded (Some fc) ∧ Port (fc_Config fc) = 80 ∧
  config_typed (fc_Config fc).
Proof.
  assert (of_run some_options (λ fc, Port (fc_Config fc) =? 80) = true) as H
    by (vm_compute; reflexivity).
  apply of_run_inv in H as (fc & E & Hp%Z.eqb_eq). exists fc.
  split; [exact E|]. split; [exact Hp|].
  apply (proj1 (@NewConfiguration_typed toy_pki toy_range toy_statsd toy_acl toy_yaml) some_options fc);
    [| |exact E].
  - clear. intros data yc H. injection H as <-.
    split; [intros p H; injection H as <-; lia|]. split; [by vm_compute|]. intros t H. discriminate H.
  - clear. split; [intros p H; injection H as <-; lia|]. intros t H. discriminate H.
Defined.
