(* ===== verification/Services.v ===== *)
(** * Small services around the proxy

    [src/pkg/smokescreen/stats_server.go], [listener.go] and
    [logruswriter.go].  Sockets, the einhorn master and JSON encoding are
    parameters. *)

From S2P Require Import Prelude GoStrings GoNet Config Conntrack Proxy.

(** ** The statistics server *)
Record StatsServer := mkStatsServer {
  ss_config : Config;
  ss_listening : bool;      (* ln *)
  ss_socketPath : string
}.

Definition newServer (config : Config) : StatsServer := mkStatsServer config false "".

Definition socket_path (config : Config) (pid : Z) : string :=
  StatsSocketDir config +:+ "/track-" +:+ pretty pid +:+ ".sock".

(** [Serve], up to the loop of the HTTP server: [None] is the fatal error when
    the socket cannot be made; otherwise also the path and mode that are set on
    the file. *)
Definition stats_Serve (s : StatsServer) (pid : Z) (listen : string → result unit)
    : option (StatsServer * (string * Z)) :=
  let path := socket_path (ss_config s) pid in
  match listen path with
  | Fail _ => None
  | Ok _ => Some (mkStatsServer (ss_config s) true path, (path, StatsSocketFileMode (ss_config s)))
  end.

(** [StartStatsServer] returns at once; [Serve] runs in a goroutine. *)
Definition StartStatsServer (config : Config) : StatsServer := newServer config.

(** [Shutdown] panics when [Serve] has not yet made the listener; otherwise it
    closes it and removes the path. *)
Definition stats_Shutdown (s : StatsServer) : outcome string :=
  if ss_listening s then Ret (ss_socketPath s)
  else Panic "invalid memory address or nil pointer dereference".

(** The loop of [stats]: [reprs] is what encoding each tracked connection gave,
    in the order of the visit; an encoding that failed yields no bytes. *)
Fixpoint stats_loop (firstRun : bool) (reprs : list (result string)) : string :=
  match reprs with
  | [] => ""
  | r :: reprs =>
      (if firstRun then "" else "," +:+ newline) +:+
      match r with Ok repr => repr | Fail _ => "" end +:+ stats_loop false reprs
  end.

Definition stats_body (reprs : list (result string)) : string :=
  "[" +:+ newline +:+ stats_loop true reprs +:+ "]" +:+ newline.

(** [JsonStats]: [Marshal] is the JSON encoder, [local] the address of a local
    variable. *)
Definition JsonStats (Marshal : InstrumentedConnStats → result string) (ic : InstrumentedConn)
    (local now : Z) : result string :=
  Marshal (Stats ic local now).

(** The page [stats]: [visit] is the range over the tracker's map, each
    connection as it is when it is visited, with the two numbers above. *)
Definition stats (Marshal : InstrumentedConnStats → result string)
    (visit : list (InstrumentedConn * Z * Z)) : string * string :=
  ("application/json",
   stats_body ((λ '(ic, local, now), JsonStats Marshal ic local now) <$> visit)).

(** The pattern of the server's mux matches every path. *)
Definition ServeHTTP (Marshal : InstrumentedConnStats → result string) (path : string)
    (visit : list (InstrumentedConn * Z * Z)) : string * string :=
  stats Marshal visit.

Definition stats_contents (r : result string) : string :=
  match r with Ok repr => repr | Fail _ => "" end.

Lemma stats_loop_join reprs :
  stats_loop true reprs = join ("," +:+ newline) (stats_contents <$> reprs).
Proof.
  assert (∀ rs, rs ≠ [] →
    stats_loop false rs = "," +:+ newline +:+ join ("," +:+ newline) (stats_contents <$> rs)) as H.
  { intros rs. induction rs as [|r rs IH]; [done|]. intros _. simpl.
    rewrite <-!app_str_assoc. do 3 f_equal. destruct rs as [|r' rs]; [by rewrite app_str_nil_r|].
    rewrite IH by done. simpl. by rewrite <-!app_str_assoc. }
  destruct reprs as [|r rs]; [done|]. simpl. rewrite app_str_nil_l.
  destruct rs as [|r' rs]; [by rewrite app_str_nil_r|].
  rewrite H by done. simpl. by rewrite <-!app_str_assoc.
Qed.

(** ** The einhorn listener *)

(** What the listener does to the outside, in order. *)
Inductive ListenEvent := LAck | LAccept.

Record einhornListener := mkEinhorn {
  el_once_done : bool;     (* firstAcceptOnce *)
  el_accept_set : bool     (* the accept field is no longer nil *)
}.

Definition new_einhorn : einhornListener := mkEinhorn false false.

(** [accept] once the field is set: the embedded listener's. *)
Definition embedded_accept (el : einhornListener) (conn : result nat)
    : einhornListener * result nat * list ListenEvent := (el, conn, [LAccept]).

(** [firstAccept]: [ack] is what [einhorn.Ack] returns, [conn] what the embedded
    listener accepts. *)
Definition firstAccept (el : einhornListener) (ack : option error) (conn : result nat)
    : einhornListener * result nat * list ListenEvent :=
  let '(el, err, evs) :=
    if el_once_done el then (el, None, [])
    else (mkEinhorn true true, ack, [LAck]) in
  match err with
  | Some e => (el, Fail e, evs)
  | None => let '(el, r, evs') := embedded_accept el conn in (el, r, evs ++ evs')
  end.

Definition Accept (el : einhornListener) (ack : option error) (conn : result nat)
    : einhornListener * result nat * list ListenEvent :=
  if el_accept_set el then embedded_accept el conn else firstAccept el ack conn.

(** A sequence of calls. *)
Fixpoint accept_all (el : einhornListener) (calls : list (option error * result nat))
    : einhornListener * list (result nat) * list ListenEvent :=
  match calls with
  | [] => (el, [], [])
  | (ack, conn) :: calls =>
      let '(el, r, evs) := Accept el ack conn in
      let '(el, rs, evs') := accept_all el calls in (el, r :: rs, evs ++ evs')
  end.

Lemma accept_all_set el calls :
  el_accept_set el = true →
  accept_all el calls = (el, snd <$> calls, replicate (length calls) LAccept).
Proof.
  intros Hs. induction calls as [|[ack conn] calls IH]; [done|]. simpl.
  unfold Accept, embedded_accept. by rewrite Hs, IH.
Qed.

(** The einhorn master is acknowledged exactly once, by the first call of
    [Accept] and before anything is accepted. If the acknowledgement fails that
    one call returns its error without accepting, and every later call accepts
    as if it had succeeded; otherwise every call returns what the listener
    accepted. *)
Theorem einhorn_ack_once ack conn calls :
  accept_all new_einhorn ((ack, conn) :: calls) =
  (mkEinhorn true true,
   match ack with Some e => Fail e | None => conn end :: (snd <$> calls),
   LAck :: replicate (length calls + match ack with Some _ => 0 | None => 1 end)%nat LAccept).
Proof.
  simpl. unfold Accept, firstAccept. simpl. destruct ack as [e|]; simpl;
    rewrite (accept_all_set (mkEinhorn true true)) by done.
  - by rewrite Nat.add_0_r.
  - by rewrite Nat.add_1_r.
Qed.

(** ** The log adapter *)

(** [Log2LogrusWriter.Write]: the message of the warning and the count. *)
Definition log_Write (b : string) : string * Z :=
  let n := String.length b in
  let m := if (0 <? n)%nat && HasSuffix b newline then str_take (n - 1) b else b in
  (m, Z.of_nat n).

(** A line written by the standard logger becomes one warning with the same
    text without its final newline, and only that one newline is removed; the
    writer always reports that it took every byte.  The statistics page lists,
    at every path, the encoded connections in the order of the visit, separated
    by commas; the place of one that cannot be encoded stays empty. *)
Theorem adapters_spec line Marshal path visit :
  log_Write (line +:+ newline) = (line, Z.of_nat (String.length line) + 1) ∧
  (HasSuffix line newline = false → log_Write line = (line, Z.of_nat (String.length line))) ∧
  ServeHTTP Marshal path visit =
    ("application/json",
     "[" +:+ newline +:+
     join ("," +:+ newline)
       ((λ '(ic, local, now), stats_contents (Marshal (Stats ic local now))) <$> visit) +:+
     "]" +:+ newline).
Proof.
  split_and!.
  - unfold log_Write. rewrite length_app_str. change (String.length newline) with 1%nat.
    assert (HasSuffix (line +:+ newline) newline = true) as -> by (apply HasSuffix_spec; by exists line).
    destruct (Nat.ltb_spec 0 (String.length line + 1)); [|lia]. cbn [andb].
    rewrite Nat.add_sub, str_take_app. f_equal. lia.
  - intros H. unfold log_Write. by rewrite H, andb_false_r.
  - unfold ServeHTTP, stats, stats_body. rewrite stats_loop_join, <-list_fmap_compose.
    do 5 f_equal. apply list_fmap_ext. by intros _ [[ic local] now] _.
Qed.

Lemma adapters_spec_witness : log_Write "http: TLS handshake error" = ("http: TLS handshake error", 25).
Proof.
  apply (adapters_spec "http: TLS handshake error" (λ _, Ok "{}") "/" []). by vm_compute.
Defined.
