(* ===== verification/Lifecycle.v ===== *)
(** * The life of the server: from the listener to the exit

    [StartWithConfig] and [runServer] of [src/pkg/smokescreen/smokescreen.go]
    as one state machine.  Five activities run next to the goroutines of
    [Concurrent.v] and over the same state: the main goroutine, which serves,
    waits, closes what is left and returns; the goroutine that waits for a
    signal; the one that waits for the wait group; the one that waits until all
    connections are idle; and the statistics server.  A range over the tracker's map is not one step: each
    visit is, and it promises no more than [sync.Map] does, that a connection
    which is in the map from the beginning to the end is visited. *)

From S2P Require Import Prelude GoStrings GoNet Acl Http Config Classify Conntrack Proxy Serve Logic Effects Safety Concurrent Owners Shutdown Services.

(** A connection as a range over the map sees it, and the clock. *)
Definition Seen : Type := nat * InstrumentedConn * Z.

(** Why the graceful wait ended: the wait group was zero; a range that began
    with the connections [first] and saw [seen] found all idle; the exit
    timeout had passed. *)
Inductive Why :=
| ByClosed
| ByIdle (first : gset nat) (seen : list Seen)
| ByTimeout (beginTs now : Z).

(** The main goroutine; [why] is [None] when the shutdown is not graceful. *)
Inductive MainState :=
| Serving
| Waiting (exit : option Why)                    (* the value in the channel *)
| Closing (why : option Why) (first seen : gset nat)
| Exited (why : option Why) (first : gset nat)
| Ended (what : string).                         (* a fatal error or a panic *)

(** The goroutine that waits for idle connections. *)
Inductive Idler :=
| NotStarted
| Started
| Ranging (beginTs longest : Z) (first : gset nat) (seen : list Seen)
| Sleeping (beginTs : Z)
| Finished.

(** The goroutine that waits for the wait group: not there; before the call of
    [Wg.Wait]; blocked in it; released, with the test of the counter still to
    come; returned. *)
Inductive Waiter :=
| NoWaiter
| WaitStarts
| Blocked
| Woken
| WaitOver.

Record Life := mkLife {
  lf_process : Process;
  lf_ShuttingDown : option bool;
  lf_graceful : bool;
  lf_timeout : option Z;        (* set by the goroutine of the signal *)
  lf_stats : option StatsServer;
  lf_main : MainState;
  lf_idler : Idler;
  lf_waiter : Waiter
}.

Definition lf_track (l : Life) : TrackState := w_track (p_world (lf_process l)).
Definition lf_conns (l : Life) : gset nat := tr_Map (ts_tracker (lf_track l)).

Definition wg_of (p : Process) : Z := tr_Wg (ts_tracker (w_track (p_world p))).
Definition lf_wg (l : Life) : Z := wg_of (lf_process l).

(** A call of [Done] that brings the counter from [before] to zero releases a
    blocked [Wait]. *)
Definition wake (before after : Z) (w : Waiter) : Waiter :=
  match w with
  | Blocked => if negb (before =? 0) && (after =? 0) then Woken else Blocked
  | w => w
  end.

Definition with_process (l : Life) (p : Process) : Life :=
  mkLife p (lf_ShuttingDown l) (lf_graceful l) (lf_timeout l) (lf_stats l) (lf_main l) (lf_idler l)
    (wake (lf_wg l) (wg_of p) (lf_waiter l)).
Definition with_stats (l : Life) (s : option StatsServer) : Life :=
  mkLife (lf_process l) (lf_ShuttingDown l) (lf_graceful l) (lf_timeout l) s (lf_main l) (lf_idler l)
    (lf_waiter l).
Definition with_main (l : Life) (m : MainState) : Life :=
  mkLife (lf_process l) (lf_ShuttingDown l) (lf_graceful l) (lf_timeout l) (lf_stats l) m (lf_idler l)
    (lf_waiter l).
Definition with_idler (l : Life) (i : Idler) : Life :=
  mkLife (lf_process l) (lf_ShuttingDown l) (lf_graceful l) (lf_timeout l) (lf_stats l) (lf_main l) i
    (lf_waiter l).
Definition with_waiter (l : Life) (w : Waiter) : Life :=
  mkLife (lf_process l) (lf_ShuttingDown l) (lf_graceful l) (lf_timeout l) (lf_stats l) (lf_main l)
    (lf_idler l) w.

(** The program is running. *)
Definition alive (l : Life) : bool :=
  negb (p_crashed (lf_process l)) &&
  match lf_main l with Exited _ _ | Ended _ => false | _ => true end.

(** [StartWithConfig], up to [server.Serve] in [runServer]. *)
Definition StartWithConfig `{N : Net} (config : Config) (tls : bool) (flag : option bool)
    : result (Listener * Life) :=
  let? listener := start_listener config tls in
  let sv := start_server config flag in
  let stats :=
    if (0 <? String.length (StatsSocketDir config))%nat
    then Some (StartStatsServer config) else None in
  Ok (listener,
      mkLife (start (mkWorld [] [] (sv_track sv))) (sv_ShuttingDown sv) (sv_graceful sv)
        (sv_shutdown_timeout sv) stats Serving NotStarted NoWaiter).

(** The goroutine of the signal. *)
Definition signal (config : Config) (sig : Signal) (l : Life) : Life :=
  let sv := mkServer (lf_ShuttingDown l) (lf_graceful l) (lf_timeout l) (lf_track l) in
  let sv := on_signal config sv sig in
  mkLife (lf_process l) (sv_ShuttingDown sv) (sv_graceful sv) (sv_shutdown_timeout sv)
    (lf_stats l) (lf_main l) (lf_idler l) (lf_waiter l).

(** The goroutine of the statistics server. *)
Definition stats_goroutine `{N : Net} (s : StatsServer) (l : Life) : Life :=
  match stats_Serve s net_Getpid (net_Listen "unix") with
  | None => with_main l (Ended "Could not start the reporting server.")
  | Some (s, _) => with_stats l (Some s)
  end.

(** The main goroutine when [Serve] has returned. *)
Definition served (l : Life) : Life :=
  if lf_graceful l then with_waiter (with_idler (with_main l (Waiting None)) Started) WaitStarts
  else with_main l (Closing None (lf_conns l) ∅).

(** [exit <- true]: the channel holds one value. *)
Definition send (why : Why) (l : Life) : Life :=
  match lf_main l with Waiting None => with_main l (Waiting (Some why)) | _ => l end.

(** [sync.WaitGroup]: the counter, which [Add] and [Done] change, is the number
    of [Conntrack.wg_add]; each of the two takes effect at once.  [Wait] returns
    when it finds zero and blocks otherwise.  The [Done] that reaches zero
    releases it, and it panics when the counter is not zero any more by the time
    that it goes on. *)
Definition wg_reused : string := "sync: WaitGroup is reused before previous Wait has returned".
Definition wg_misuse : string := "sync: WaitGroup misuse: Add called concurrently with Wait".

(** [Wg.Wait()] returns, and [exit <- true]. *)
Definition all_closed (l : Life) : Life := send ByClosed (with_waiter l WaitOver).

(** The call of [Wg.Wait()]. *)
Definition wait_begins (l : Life) : Life :=
  if lf_wg l =? 0 then all_closed l else with_waiter l Blocked.

(** [Wg.Wait()] goes on after it was released.  Nothing recovers the panic. *)
Definition wait_returns (l : Life) : Life :=
  if lf_wg l =? 0 then all_closed l else with_main l (Ended wg_reused).

(** A reading of the clock. *)
Definition clock `{E : Env} (l : Life) : Z * Life :=
  let '(now, w) := perform (ACall EvNow env_Now) (p_world (lf_process l)) in
  (now, with_process l (mkProcess w (p_threads (lf_process l)) (p_crashed (lf_process l)))).

(** [MaybeIdleIn] begins its range. *)
Definition range_conns (beginTs : Z) (l : Life) : Life :=
  with_idler l (Ranging beginTs 0 (lf_conns l) []).

(** One visit of [MaybeIdleIn]. *)
Definition idle_visit `{E : Env} (id : nat) (ic : InstrumentedConn) (beginTs longest : Z)
    (first : gset nat) (seen : list Seen) (l : Life) : Life :=
  let '(now, l) := clock l in
  let idleIn := idle_in (ts_tracker (lf_track l)) ic now in
  with_idler l (Ranging beginTs (if longest <? idleIn then idleIn else longest) first
                  (seen ++ [(id, ic, now)])).

(** The loop after [MaybeIdleIn] has returned. *)
Definition idle_decide `{E : Env} (config : Config) (beginTs checkAgainIn : Z) (first : gset nat)
    (seen : list Seen) (l : Life) : Life :=
  if 0 <? checkAgainIn then
    let '(now, l) := clock l in
    if ExitTimeout config <? Sub now beginTs
    then send (ByTimeout beginTs now) (with_idler l Finished)
    else with_idler l (Sleeping beginTs)
  else send (ByIdle first seen) (with_idler l Finished).

(** One visit of the last range of [runServer]. *)
Definition close_visit `{E : Env} (id : nat) (why : option Why) (first seen : gset nat) (l : Life)
    : Life :=
  let p := lf_process l in
  let '(r, w) := close_step id env_Now env_Close (p_world p) in
  with_main
    (with_process l (mkProcess w (p_threads p) (match r with Ret _ => false | Panic _ => true end)))
    (Closing why first ({[id]} ∪ seen)).

(** The end of [runServer]. *)
Definition ending (why : option Why) (first : gset nat) (l : Life) : Life :=
  with_main l
    match lf_stats l with
    | None => Exited why first
    | Some s => match stats_Shutdown s with Ret _ => Exited why first | Panic what => Ended what end
    end.

(** Every connection that was in the map when the range began, and still is,
    has been visited. *)
Definition range_over (first seen : gset nat) (l : Life) : Prop := first ∩ lf_conns l ⊆ seen.
Definition ids (seen : list Seen) : gset nat := list_to_set (fst <$> (fst <$> seen)).

Section life.
Context `{E : Env} `{T : Transport} `{N : Net} (config : Config) (hc : bool).
(** Whether a channel was given to [StartWithConfig]. *)
Variable quit : bool.

(** What the goroutines of [runServer] do. *)
Inductive own_step (l : Life) : Life → Prop :=
| l_signal sig :
    alive l = true → lf_timeout l = None → (sig = Quit → quit = true) →
    own_step l (signal config sig l)
| l_stats s :
    alive l = true → lf_stats l = Some s → ss_listening s = false →
    own_step l (stats_goroutine s l)
| l_served :
    alive l = true → lf_main l = Serving →
    is_Some (lf_timeout l) ∨ net_accept_fails = true → own_step l (served l)
| l_wait_begins :
    alive l = true → lf_waiter l = WaitStarts → own_step l (wait_begins l)
| l_wait_returns :
    alive l = true → lf_waiter l = Woken → own_step l (wait_returns l)
| l_idle_begin :
    alive l = true → lf_idler l = Started →
    own_step l (let '(beginTs, l) := clock l in range_conns beginTs l)
| l_idle_visit id ic beginTs longest first seen :
    alive l = true → lf_idler l = Ranging beginTs longest first seen →
    id ∈ first ∪ lf_conns l → id ∉ ids seen → ts_heap (lf_track l) !! id = Some ic →
    own_step l (idle_visit id ic beginTs longest first seen l)
| l_idle_decide beginTs longest first seen :
    alive l = true → lf_idler l = Ranging beginTs longest first seen →
    range_over first (ids seen) l →
    own_step l (idle_decide config beginTs longest first seen l)
| l_idle_again beginTs :
    alive l = true → lf_idler l = Sleeping beginTs →
    own_step l (range_conns beginTs l)
| l_exit why :
    alive l = true → lf_main l = Waiting (Some why) →
    own_step l (with_main l (Closing (Some why) (lf_conns l) ∅))
| l_close id why first seen :
    alive l = true → lf_main l = Closing why first seen →
    id ∈ first ∪ lf_conns l → id ∉ seen → own_step l (close_visit id why first seen l)
| l_end why first seen :
    alive l = true → lf_main l = Closing why first seen → range_over first seen l →
    own_step l (ending why first l).

(** A step of the program: one of the process or one of these.  [l_misuse] is
    an [Add] that comes before [Wait] has gone on, while the [Done] that released
    it is not over: the two notice each other and panic. *)
Inductive l_step (l : Life) : Life → Prop :=
| l_process p :
    alive l = true → p_step config hc (lf_process l) p → l_step l (with_process l p)
| l_misuse p :
    alive l = true → p_step config hc (lf_process l) p → lf_waiter l = Woken →
    lf_wg l = 0 → 0 < wg_of p → l_step l (with_main (with_process l p) (Ended wg_misuse))
| l_own l' : own_step l l' → l_step l l'.
End life.

(** ** Connections stay what they are *)
Definition is_closed (s : TrackState) (id : nat) : Prop :=
  ∃ ic, ts_heap s !! id = Some ic ∧ ic_closed ic = true.

(** No connection is forgotten, and a closed one stays closed. *)
Definition keeps (s s' : TrackState) : Prop :=
  (∀ id, id ∈ dom (ts_heap s) → id ∈ dom (ts_heap s')) ∧
  (∀ id, is_closed s id → is_closed s' id) ∧
  tr_IdleThreshold (ts_tracker s') = tr_IdleThreshold (ts_tracker s).

#[global] Instance keeps_preorder : PreOrder keeps.
Proof.
  split; [by intros s; split_and!|].
  intros s1 s2 s3 (Ha & Hb & Hc) (Ha' & Hb' & Hc'). split_and!; [auto|auto|congruence].
Qed.

Lemma keeps_insert s s' id ic :
  ts_heap s' = <[id := ic]> (ts_heap s) → (is_closed s id → ic_closed ic = true) →
  tr_IdleThreshold (ts_tracker s') = tr_IdleThreshold (ts_tracker s) → keeps s s'.
Proof.
  intros Hh Hc Ht. unfold keeps, is_closed. rewrite Hh. split_and!; [set_solver| |done].
  intros id' (ic' & Hi & Hcl). destruct (decide (id' = id)) as [->|Hne].
  - exists ic. rewrite lookup_insert_eq. split; [done|]. apply Hc. by exists ic'.
  - exists ic'. by rewrite lookup_insert_ne.
Qed.

Lemma keeps_untouched s s' :
  (∀ c, untouched c s s') → tr_IdleThreshold (ts_tracker s') = tr_IdleThreshold (ts_tracker s) →
  keeps s s'.
Proof.
  intros Hu Ht. split_and!; [| |done].
  - intros id [ic Hic]%elem_of_dom. destruct (Hu id ic Hic) as (ic' & Hic' & _).
    apply elem_of_dom. by exists ic'.
  - intros id (ic & Hic & Hcl). destruct (Hu id ic Hic) as (ic' & Hic' & _ & Hk). exists ic'. auto.
Qed.

Lemma keeps_Close s id e i err : keeps s (Close s id e i err).1.
Proof. apply keeps_untouched; [intros c; apply untouched_Close|apply Close_threshold]. Qed.

Lemma keeps_close_step id now close w : keeps (w_track w) (w_track (close_step id now close w).2).
Proof.
  unfold close_step. destruct (ts_heap (w_track w) !! id) as [ic|]; [|done].
  destruct (ic_closed ic); [done|].
  destruct (tr_ShuttingDown _) as [[]|]; destruct (_ <? 0); apply keeps_Close.
Qed.

Lemma keeps_perform {X} (a : Act X) w : keeps (w_track w) (w_track (perform a w).2).
Proof.
  apply keeps_untouched; [intros c; apply untouched_perform|].
  destruct a; try done. apply keeps_close_step.
Qed.

Lemma keeps_io s op : keeps s (io_step s op).
Proof.
  destruct op as [id now n err|id now n err]; simpl; unfold Read, Write;
    destruct (ts_heap s !! id) as [ic|] eqn:Hid; try done; simpl;
    (eapply (keeps_insert _ _ id); [done| |done]); intros (ic' & ? & ?); by simplify_eq.
Qed.

(** ** A range is a call of [MaybeIdleIn]

    What the range saw, as one round of [Shutdown.idle_wait]. *)
Definition seen_conns (seen : list Seen) : list InstrumentedConn := (λ x, x.1.2) <$> seen.
Definition seen_clock (seen : list Seen) (i : nat) : Z := from_option snd 0 (seen !! i).
Definition seen_round (seen : list Seen) (now : Z) : Round :=
  mkRound (seen_conns seen) (seen_clock seen) now.

Lemma idle_loop_snoc t visit ic clock clock' i longest :
  (∀ j, (j < i + length visit)%nat → clock' j = clock j) →
  idle_loop t (visit ++ [ic]) clock' i longest =
  let m := idle_loop t visit clock i longest in
  let d := idle_in t ic (clock' (i + length visit)%nat) in if m <? d then d else m.
Proof.
  revert i longest. induction visit as [|ic' visit IH]; intros i longest Hc; simpl.
  - by rewrite Nat.add_0_r.
  - rewrite (Hc i) by (simpl; lia). rewrite IH; [by rewrite Nat.add_succ_r|].
    intros j Hj. apply Hc. simpl. lia.
Qed.

Lemma seen_MaybeIdleIn_snoc t seen id ic now :
  MaybeIdleIn t (seen_conns (seen ++ [(id, ic, now)])) (seen_clock (seen ++ [(id, ic, now)])) =
  let m := MaybeIdleIn t (seen_conns seen) (seen_clock seen) in
  if m <? idle_in t ic now then idle_in t ic now else m.
Proof.
  unfold MaybeIdleIn, seen_conns. rewrite fmap_app. simpl.
  rewrite (idle_loop_snoc t _ ic (seen_clock seen)).
  - simpl. unfold seen_clock. rewrite length_fmap, list_lookup_middle by done. done.
  - rewrite length_fmap. simpl. intros j Hj. unfold seen_clock. by rewrite lookup_app_l.
Qed.

(** The threshold is all that counts of the tracker. *)
Lemma MaybeIdleIn_threshold t t' visit clock :
  tr_IdleThreshold t = tr_IdleThreshold t' → MaybeIdleIn t visit clock = MaybeIdleIn t' visit clock.
Proof.
  intros Ht. unfold MaybeIdleIn. generalize 0 0%nat.
  induction visit as [|ic visit IH]; intros longest i; simpl; [done|].
  unfold idle_in at 1 2 3 4. rewrite Ht. apply IH.
Qed.

Lemma seen_bound t seen id ic now :
  (id, ic, now) ∈ seen → idle_in t ic now ≤ MaybeIdleIn t (seen_conns seen) (seen_clock seen).
Proof.
  intros [i Hi]%list_elem_of_lookup.
  pose proof (idle_loop_bound t (seen_conns seen) (seen_clock seen) 0 0 i ic) as Hb.
  unfold seen_conns in Hb at 1. rewrite list_lookup_fmap, Hi in Hb. specialize (Hb eq_refl).
  assert (seen_clock seen (0 + i) = now) as E by (unfold seen_clock; rewrite Nat.add_0_l; unfold Seen in *; by rewrite Hi).
  rewrite E in Hb. exact Hb.
Qed.

Section proofs.
Context `{E : Env} `{T : Transport} `{N : Net} (config : Config) (hc : bool).
Variable quit : bool.
#[local] Notation p_step := (p_step config hc).
#[local] Notation l_step := (l_step config hc quit).

Lemma keeps_p_step s s' : p_step s s' → keeps (w_track (p_world s)) (w_track (p_world s')).
Proof.
  destruct 1 as [req _|i t _ Ht|op _|id _|_]; simpl; [done| | | |done].
  - unfold advance. destruct (t_prog t) as [o|X a k]; simpl; [done|].
    pose proof (keeps_perform a (p_world s)). by destruct (perform a (p_world s)).
  - apply keeps_io.
  - pose proof (keeps_close_step id env_Now env_Close (p_world s)).
    by destruct (close_step id env_Now env_Close (p_world s)).
Qed.

(** ** The program is a run of the process

    Every step is none or one of the process: what is shown of the process
    holds of the program. *)
Lemma send_process why l : lf_process (send why l) = lf_process l.
Proof. unfold send. by destruct (lf_main l) as [|[]| | |]. Qed.

Lemma with_process_same l : with_process l (lf_process l) = l.
Proof.
  destruct l as [p ? ? ? ? ? ? w]. unfold with_process. cbn. f_equal.
  destruct w; try done. unfold wake, lf_wg. simpl. by destruct (wg_of p =? 0).
Qed.

Lemma wait_process l : lf_process (wait_begins l) = lf_process l ∧ lf_process (wait_returns l) = lf_process l.
Proof. unfold wait_begins, wait_returns, all_closed. by destruct (lf_wg l =? 0); rewrite ?send_process. Qed.

Lemma alive_not_crashed l : alive l = true → p_crashed (lf_process l) = false.
Proof. unfold alive. by destruct (p_crashed (lf_process l)). Qed.

Lemma clock_steps l :
  alive l = true → p_step (lf_process l) (lf_process (clock l).2).
Proof.
  intros Ha%alive_not_crashed. unfold clock. simpl. rewrite Ha. by apply p_clock.
Qed.

Lemma close_visit_steps id why first seen l :
  alive l = true → p_step (lf_process l) (lf_process (close_visit id why first seen l)).
Proof.
  intros Ha%alive_not_crashed. unfold close_visit.
  pose proof (p_close config hc (lf_process l) id Ha) as H.
  by destruct (close_step id env_Now env_Close (p_world (lf_process l))).
Qed.

Lemma l_step_process l l' : l_step l l' → rtc p_step (lf_process l) (lf_process l').
Proof.
  destruct 1 as [p Ha Hp|p Ha Hp _ _ _|l1 [sig Ha _ _|s Ha _ _|Ha _ _|Ha _|Ha _|Ha _|id ic b longest first seen Ha _ _ _ _
    |b longest first seen Ha _ _|b Ha _|why Ha _|id why first seen Ha _ _ _|why first seen Ha _ _]];
    try apply rtc_refl; try (by apply rtc_once).
  - unfold stats_goroutine. by destruct (stats_Serve _ _ _) as [[]|].
  - unfold served. by destruct (lf_graceful l).
  - by rewrite (proj1 (wait_process l)).
  - by rewrite (proj2 (wait_process l)).
  - by apply rtc_once, (clock_steps l).
  - by apply rtc_once, (clock_steps l).
  - unfold idle_decide. destruct (0 <? longest); [|by rewrite send_process].
    apply rtc_once. pose proof (clock_steps l Ha) as H. destruct (clock l) as [now l2].
    destruct (_ <? _); simpl; by rewrite ?send_process.
  - by apply rtc_once, close_visit_steps.
Qed.

Lemma life_process l l' : rtc l_step l l' → rtc p_step (lf_process l) (lf_process l').
Proof. induction 1 as [|l1 l2 l3 Hs _ IH]; [done|]. etrans; [by apply l_step_process|done]. Qed.

Lemma l_step_keeps l l' : l_step l l' → keeps (lf_track l) (lf_track l').
Proof.
  intros Hs%l_step_process. unfold lf_track. induction Hs; [done|].
  etrans; [by apply keeps_p_step|done].
Qed.

(** ** The invariant of the program *)
Definition why_ok (l : Life) (why : option Why) : Prop :=
  match why with
  | None => lf_graceful l = false
  | Some ByClosed => True
  | Some (ByIdle first seen) =>
      (∀ id, id ∈ first → id ∈ ids seen ∨ is_closed (lf_track l) id) ∧
      ∀ id ic now, (id, ic, now) ∈ seen →
        tr_IdleThreshold (ts_tracker (lf_track l)) ≤ now - ic_LastActivity ic
  | Some (ByTimeout beginTs now) => ExitTimeout config < Sub now beginTs
  end.

Definition main_ok (l : Life) (m : MainState) : Prop :=
  match m with
  | Serving | Waiting None | Ended _ => True
  | Waiting why => why_ok l why
  | Closing why first seen =>
      why_ok l why ∧ (∀ id, id ∈ first → id ∈ dom (ts_heap (lf_track l))) ∧
      ∀ id, id ∈ seen → is_closed (lf_track l) id
  | Exited why first => why_ok l why ∧ ∀ id, id ∈ first → is_closed (lf_track l) id
  end.

Definition idler_ok (l : Life) (i : Idler) : Prop :=
  match i with
  | Ranging _ longest first seen =>
      (∀ id, id ∈ first → id ∈ dom (ts_heap (lf_track l))) ∧
      longest = MaybeIdleIn (ts_tracker (lf_track l)) (seen_conns seen) (seen_clock seen)
  | _ => True
  end.

(** The flag, the timeout and the kind of shutdown agree. *)
Definition signal_ok (l : Life) : Prop :=
  match lf_timeout l with
  | None => lf_graceful l = true ∧ lf_ShuttingDown l = Some false
  | Some t => lf_ShuttingDown l = Some true ∧
      t = (if lf_graceful l then ExitTimeout config else 10 * second) ∧
      (lf_graceful l = false → quit = true)
  end.

Definition served_ok (l : Life) : Prop :=
  match lf_main l with
  | Serving | Ended _ => True
  | _ => is_Some (lf_timeout l) ∨ net_accept_fails = true
  end.

Record l_inv (l : Life) : Prop := mkLInv {
  li_tracker : tracker_inv (lf_process l);
  li_signal : signal_ok l;
  li_served : served_ok l;
  li_main : main_ok l (lf_main l);
  li_idler : idler_ok l (lf_idler l)
}.

(** What is known of connections stays true. *)
Definition grows (l l' : Life) : Prop :=
  keeps (lf_track l) (lf_track l') ∧ (lf_graceful l = false → lf_graceful l' = false).

Lemma why_ok_mono l l' why : grows l l' → why_ok l why → why_ok l' why.
Proof.
  intros [(Hd & Hc & Ht) Hg]. destruct why as [[|first seen|b now]|]; simpl; auto.
  intros [Hf Hs]. rewrite Ht. split; [|done]. intros id Hin. destruct (Hf id Hin); auto.
Qed.

Lemma main_ok_mono l l' m : grows l l' → main_ok l m → main_ok l' m.
Proof.
  intros Hg. pose proof (λ why, why_ok_mono l l' why Hg) as Hw. destruct Hg as [(Hd & Hc & _) _].
  destruct m as [|[w|]|why first seen|why first|what]; cbn [main_ok]; auto.
  - intros (? & ? & ?). split_and!; auto.
  - intros (? & ?). split_and!; auto.
Qed.

Lemma idler_ok_mono l l' i : grows l l' → idler_ok l i → idler_ok l' i.
Proof.
  intros [(Hd & Hc & Ht) _]. destruct i as [| |b longest first seen|b|]; simpl; auto.
  intros [Hf ->]. split; [auto|]. by apply MaybeIdleIn_threshold.
Qed.

(** A connection that has left the map is closed. *)
Lemma not_open_closed l id :
  tracker_inv (lf_process l) → id ∈ dom (ts_heap (lf_track l)) → id ∉ lf_conns l →
  is_closed (lf_track l) id.
Proof.
  intros [H _] [ic Hid]%elem_of_dom Hn. exists ic. split; [done|].
  destruct (ic_closed ic) eqn:Hcl; [done|]. destruct Hn. apply (inv_map _ H). by exists ic.
Qed.

Lemma conns_dom l id :
  tracker_inv (lf_process l) → id ∈ lf_conns l → id ∈ dom (ts_heap (lf_track l)).
Proof. intros [H _]. by apply inv_dom with (n := pending (lf_process l)). Qed.

(** A step keeps the invariant when the new main goroutine and the new idle
    goroutine are fine and the signal is left alone. *)
Lemma l_inv_step_parts l l' :
  l_step l l' → l_inv l →
  (lf_timeout l', lf_graceful l', lf_ShuttingDown l') =
    (lf_timeout l, lf_graceful l, lf_ShuttingDown l) →
  (served_ok l → served_ok l') →
  (lf_main l' = lf_main l ∨ (grows l l' → tracker_inv (lf_process l') → main_ok l' (lf_main l'))) →
  (lf_idler l' = lf_idler l ∨ (grows l l' → tracker_inv (lf_process l') → idler_ok l' (lf_idler l'))) →
  l_inv l'.
Proof.
  intros Hs [Ht Hsig Hse Hm Hi] [= E1 E2 E3] Hse' Hm' Hi'.
  assert (grows l l') as Hg by (split; [by apply (l_step_keeps l l')|by rewrite E2]).
  assert (tracker_inv (lf_process l')) as Ht'.
  { apply l_step_process in Hs. revert Ht. clear -Hs.
    induction Hs; eauto using tracker_inv_step. }
  split; [done| |auto| |].
  - unfold signal_ok in *. by rewrite E1, E2, E3.
  - destruct Hm' as [->|]; [by eapply main_ok_mono|auto].
  - destruct Hi' as [->|]; [by eapply idler_ok_mono|auto].
Qed.

Lemma send_fields why l :
  (lf_timeout (send why l), lf_graceful (send why l), lf_ShuttingDown (send why l),
   lf_idler (send why l), lf_stats (send why l)) =
  (lf_timeout l, lf_graceful l, lf_ShuttingDown l, lf_idler l, lf_stats l).
Proof. unfold send. by destruct (lf_main l) as [|[]| | |]. Qed.

Lemma send_main why l :
  lf_main (send why l) = lf_main l ∨ (lf_main l = Waiting None ∧ lf_main (send why l) = Waiting (Some why)).
Proof. unfold send. destruct (lf_main l) as [|[]| | |] eqn:Hl; simpl; auto. Qed.

Lemma signal_inv sig l :
  lf_timeout l = None → (sig = Quit → quit = true) → l_inv l → l_inv (signal config sig l).
Proof.
  intros Hn Hq [Ht Hsig Hse Hm Hi]. unfold signal_ok in Hsig. rewrite Hn in Hsig.
  assert (grows l (signal config sig l)) as Hg by (split; [done|by destruct sig]).
  split; [done| | | |].
  - unfold signal_ok. simpl. destruct sig; simpl; [|by auto].
    destruct Hsig as [-> _]. by split_and!.
  - unfold served_ok in *. simpl. destruct (lf_main l); eauto.
  - by apply (main_ok_mono l).
  - by apply (idler_ok_mono l).
Qed.

Lemma idle_visit_ok id ic b longest first seen l :
  idler_ok l (Ranging b longest first seen) →
  idler_ok (idle_visit id ic b longest first seen l) (lf_idler (idle_visit id ic b longest first seen l)).
Proof.
  intros [Hf ->]. split; [exact Hf|]. symmetry. apply seen_MaybeIdleIn_snoc.
Qed.

(** What the loop decides is right. *)
Lemma idle_decide_why b longest first seen l l' :
  grows l l' → tracker_inv (lf_process l) → idler_ok l (Ranging b longest first seen) →
  range_over first (ids seen) l → longest ≤ 0 → why_ok l' (Some (ByIdle first seen)).
Proof.
  intros Hg Ht [Hf ->] Hov Hl. apply (why_ok_mono l); [done|]. split.
  - intros id Hin. destruct (decide (id ∈ lf_conns l)) as [Hc|Hc].
    + left. apply Hov. set_solver.
    + right. apply not_open_closed; auto.
  - intros id ic now Hin. pose proof (seen_bound (ts_tracker (lf_track l)) _ _ _ _ Hin).
    pose proof (idle_in_pos (ts_tracker (lf_track l)) ic now). lia.
Qed.

Lemma send_ok why l :
  served_ok l → main_ok l (lf_main l) → why_ok l (Some why) →
  served_ok (send why l) ∧ main_ok (send why l) (lf_main (send why l)).
Proof.
  unfold send, served_ok. destruct (lf_main l) as [|[]| | |] eqn:Hl; simpl; rewrite ?Hl; auto.
Qed.

Lemma l_inv_send why l l1 :
  l_step l (send why (with_idler l1 Finished)) → l_inv l →
  (lf_timeout l1, lf_graceful l1, lf_ShuttingDown l1, lf_main l1) =
    (lf_timeout l, lf_graceful l, lf_ShuttingDown l, lf_main l) →
  grows l l1 → why_ok l1 (Some why) → l_inv (send why (with_idler l1 Finished)).
Proof.
  intros Hs Hinv [= E1 E2 E3 E4] Hg Hw. set (l2 := with_idler l1 Finished) in *.
  pose proof (send_fields why l2) as [= F1 F2 F3 F4 _].
  destruct (send_ok why l2) as [Hse Hm].
  - pose proof (li_served l Hinv) as H. unfold served_ok in *. simpl. by rewrite E4, E1.
  - change (lf_main l2) with (lf_main l1). rewrite E4. apply (main_ok_mono l); [done|apply Hinv].
  - done.
  - apply (l_inv_step_parts l); auto; simpl in *; [congruence|].
    right. intros _ _. by rewrite F4.
Qed.

Lemma idle_decide_inv b longest first seen l :
  l_step l (idle_decide config b longest first seen l) → l_inv l →
  lf_idler l = Ranging b longest first seen → range_over first (ids seen) l →
  l_inv (idle_decide config b longest first seen l).
Proof.
  intros Hs Hinv Hr Hov. pose proof (li_idler l Hinv) as Hi. rewrite Hr in Hi.
  unfold idle_decide in *. destruct (Z.ltb_spec 0 longest).
  - destruct (clock l) as [now l1] eqn:Hc. assert (grows l l1) as Hg by (by injection Hc as _ <-).
    destruct (Z.ltb_spec (ExitTimeout config) (Sub now b)).
    + apply (l_inv_send _ l); [done..| |done|done]. by injection Hc as _ <-.
    + injection Hc as _ <-. apply (l_inv_step_parts l); simpl; auto; done.
  - apply (l_inv_send _ l); [done..|].
    by apply (idle_decide_why b longest first seen l); [|apply Hinv|..].
Qed.

Lemma close_visit_inv id why first seen l :
  l_step l (close_visit id why first seen l) → l_inv l → lf_main l = Closing why first seen →
  id ∈ first ∪ lf_conns l → l_inv (close_visit id why first seen l).
Proof.
  intros Hs Hinv Hcl Hin. pose proof (li_main l Hinv) as Hm. rewrite Hcl in Hm.
  destruct Hm as (Hw & Hf & Hsn). pose proof (conns_dom l id (li_tracker l Hinv)) as Hd0.
  apply (l_inv_step_parts l); [done|done| | | |].
  - unfold close_visit. by destruct (close_step _ _ _ _).
  - unfold served_ok, close_visit. rewrite Hcl. by destruct (close_step _ _ _ _).
  - right. intros Hg _.
    assert (id ∈ dom (ts_heap (lf_track l)) →
      is_closed (w_track (close_step id env_Now env_Close (p_world (lf_process l))).2) id) as Hc.
    { intros [ic Hic]%elem_of_dom. destruct (close_step_closes id env_Now env_Close _ ic Hic)
        as (ic' & ? & _ & ?). by exists ic'. }
    pose proof (why_ok_mono l _ why Hg Hw) as Hw'. destruct Hg as [(Hd & Hcls & _) _].
    unfold close_visit in *. destruct (close_step _ _ _ _) as [r w]. simpl in *.
    split_and!; [done|auto|]. intros id' [->%elem_of_singleton|Hin']%elem_of_union; [|auto].
    apply Hc. apply elem_of_union in Hin as [Hin|Hin]; auto.
  - left. unfold close_visit. by destruct (close_step _ _ _ _).
Qed.

Lemma ending_inv why first seen l :
  l_step l (ending why first l) → l_inv l → lf_main l = Closing why first seen →
  range_over first seen l → l_inv (ending why first l).
Proof.
  intros Hs Hinv Hcl Hov. pose proof (li_main l Hinv) as Hm. rewrite Hcl in Hm.
  destruct Hm as (Hw & Hf & Hsn). pose proof (li_tracker l Hinv) as Ht.
  apply (l_inv_step_parts l); try done; [| |by left].
  - unfold served_ok, ending. rewrite Hcl. simpl. destruct (lf_stats l) as [s|]; [|done].
    by destruct (stats_Shutdown s).
  - right. intros _ _. assert (main_ok l (Exited why first)) as Hok.
    { split; [done|]. intros id Hin. destruct (decide (id ∈ lf_conns l)) as [Hc|Hc].
      - apply Hsn, Hov. set_solver.
      - apply not_open_closed; auto. }
    unfold ending. simpl. destruct (lf_stats l) as [s|]; [|done].
    by destruct (stats_Shutdown s).
Qed.

Lemma all_closed_inv l : l_step l (all_closed l) → l_inv l → l_inv (all_closed l).
Proof.
  intros Hs Hinv. unfold all_closed in *.
  pose proof (send_fields ByClosed (with_waiter l WaitOver)) as [= E1 E2 E3 E4 _].
  destruct (send_ok ByClosed (with_waiter l WaitOver)) as [Hse Hm]; [apply Hinv..|done|].
  apply (l_inv_step_parts l); auto. congruence.
Qed.

Lemma wait_begins_inv l : l_step l (wait_begins l) → l_inv l → l_inv (wait_begins l).
Proof.
  intros Hs Hinv. unfold wait_begins in *.
  destruct (lf_wg l =? 0); [by apply all_closed_inv|]. apply (l_inv_step_parts l); simpl; auto; done.
Qed.

Lemma wait_returns_inv l : l_step l (wait_returns l) → l_inv l → l_inv (wait_returns l).
Proof.
  intros Hs Hinv. unfold wait_returns in *.
  destruct (lf_wg l =? 0); [by apply all_closed_inv|]. apply (l_inv_step_parts l); simpl; auto; done.
Qed.

(** A range that begins. *)
Lemma range_conns_ok b l :
  tracker_inv (lf_process l) → idler_ok (range_conns b l) (lf_idler (range_conns b l)).
Proof. intros Ht. split; [|done]. intros id Hin. by apply conns_dom. Qed.

Lemma l_inv_step l l' : l_step l l' → l_inv l → l_inv l'.
Proof.
  intros Hs Hinv. pose proof (λ P Q R S, l_inv_step_parts l l' Hs Hinv P Q R S) as Hgo.
  pose proof (li_tracker l Hinv) as Ht. pose proof (li_main l Hinv) as Hm.
  pose proof (li_idler l Hinv) as Hi.
  destruct Hs as [p Ha Hp|p Ha Hp _ _ _|l1 [sig Ha Hn Hq|s Ha Hst Hls|Ha Hse Hwhy|Ha Hwt|Ha Hwt|Ha Hst
    |id ic b longest first seen Ha Hr Hin Hns Hid|b longest first seen Ha Hr Hov|b Ha Hsl|why Ha Hwt
    |id why first seen Ha Hcl Hin Hns|why first seen Ha Hcl Hov]].
  - apply Hgo; auto.
  - apply Hgo; simpl; auto; done.
  - by apply signal_inv.
  - apply Hgo; unfold stats_goroutine; destruct (stats_Serve _ _ _) as [[]|]; simpl; auto; done.
  - assert (served_ok (served l)) by (unfold served_ok, served; by destruct (lf_graceful l)).
    apply Hgo; unfold served in *; destruct (lf_graceful l) eqn:Hgr; simpl in *; rewrite ?Hgr; auto; try done.
    right. intros _ _. split_and!; [done|intros id Hin; by apply conns_dom|set_solver].
  - apply wait_begins_inv; [|done]. by apply l_own, l_wait_begins.
  - apply wait_returns_inv; [|done]. by apply l_own, l_wait_returns.
  - apply Hgo; [done|done|by left|right; intros _ Ht'; exact (range_conns_ok _ (clock l).2 Ht')].
  - apply Hgo; simpl; auto; try done. right. intros _ _. rewrite Hr in Hi. by apply idle_visit_ok.
  - apply idle_decide_inv; [|done..]. by apply l_own, l_idle_decide.
  - apply Hgo; [done|done|by left|right; intros _ _; exact (range_conns_ok _ l Ht)].
  - rewrite Hwt in Hm. apply Hgo; simpl; auto; try done.
    + unfold served_ok. rewrite Hwt. auto.
    + right. intros _ _. split_and!; [done|intros id Hin; by apply conns_dom|set_solver].
  - apply close_visit_inv; [|done..]. by apply l_own, l_close.
  - apply (ending_inv why first seen); [|done..]. by apply l_own, (l_end config quit l why first seen).
Qed.

(** While the main goroutine waits, the one that waits for idle connections is
    there, and the waiter of the wait group comes after [Serve]. *)
Definition idling (l : Life) : Prop :=
  (lf_main l = Waiting None →
   match lf_idler l with NotStarted | Finished => False | _ => True end) ∧
  (lf_main l = Serving → lf_waiter l = NoWaiter).

Lemma idling_send why l : idling l → idling (send why (with_idler l Finished)).
Proof.
  unfold idling, send. simpl. intros [_ Hw].
  by destruct (lf_main l) as [|[]| | |] eqn:Hm; simpl; rewrite ?Hm; auto.
Qed.

Lemma idling_closed l : lf_waiter l ≠ NoWaiter → idling l → idling (all_closed l).
Proof.
  unfold idling, all_closed, send. simpl. intros Hn [Hi Hw].
  destruct (lf_main l) as [|[]| | |] eqn:Hm; simpl; rewrite ?Hm; try done. by destruct Hn; auto.
Qed.

Lemma idling_step l l' : l_step l l' → idling l → idling l'.
Proof.
  intros Hs Hi.
  destruct Hs as [p _ _|p _ _ _ _ _|l1 [sig _ _ _|s _ _ _|_ _ _|_ Hwt|_ Hwt|_ _
    |id ic b longest first seen _ Hr _ _ _|b longest first seen _ Hr _|b _ Hr|why _ _
    |id why first seen _ _ _ _|why first seen _ _ _]]; try done.
  - destruct Hi as [Hi Hw]. split; [exact Hi|]. intros Hm. simpl. by rewrite (Hw Hm).
  - unfold stats_goroutine. by destruct (stats_Serve _ _ _) as [[]|].
  - unfold served. by destruct (lf_graceful l).
  - assert (lf_waiter l ≠ NoWaiter) by congruence.
    unfold wait_begins. destruct (lf_wg l =? 0); [by apply idling_closed|].
    destruct Hi as [Hi Hw]. split; [exact Hi|]. intros Hm. by destruct (Hw Hm).
  - unfold wait_returns. destruct (lf_wg l =? 0); [|done]. apply idling_closed; [congruence|done].
  - destruct Hi as [_ Hw]. split; [done|]. simpl. intros Hm. by rewrite (Hw Hm).
  - destruct Hi as [_ Hw]. split; [done|]. simpl. intros Hm. by rewrite (Hw Hm).
  - assert (idling (clock l).2) as Hc.
    { destruct Hi as [Hi Hw]. split; [exact Hi|]. intros Hm. simpl. by rewrite (Hw Hm). }
    unfold idle_decide. destruct (0 <? longest); [|by apply idling_send].
    destruct (clock l) as [now l2]. destruct (_ <? _); [by apply idling_send|].
    destruct Hc as [_ Hw]. by split.
  - destruct Hi as [_ Hw]. by split.
  - unfold close_visit. by destruct (close_step _ _ _ _).
  - unfold ending, idling. simpl. destruct (lf_stats l) as [s|]; [|done]. by destruct (stats_Shutdown s).
Qed.

(** ** Every run of the program *)
Lemma started tls flag listener l :
  StartWithConfig config tls flag = Ok (listener, l) →
  lf_process l = start (mkWorld [] [] (init_state (IdleThreshold config) flag)) ∧ l_inv l ∧
  start_listener config tls = Ok listener ∧ lf_main l = Serving ∧
  (StatsSocketDir config = "" → lf_stats l = None) ∧ idling l.
Proof.
  unfold StartWithConfig. intros (lis & Hl & [= -> <-])%result_bind_ok.
  split_and!; [done| |done|done|by intros ->|done]. split; try done. split; [|by intros i t Hi].
  apply (ct_inv_init (IdleThreshold config) flag).
Qed.

Lemma run_inv l l' : rtc l_step l l' → l_inv l → l_inv l'.
Proof. induction 1; eauto using l_inv_step. Qed.

Lemma run_keeps l l' : rtc l_step l l' → keeps (lf_track l) (lf_track l').
Proof. induction 1 as [|l1 l2 l3 Hs _ IH]; [done|]. etrans; [by eapply l_step_keeps|done]. Qed.

Lemma wait_stats l : lf_stats (wait_begins l) = lf_stats l ∧ lf_stats (wait_returns l) = lf_stats l.
Proof.
  unfold wait_begins, wait_returns, all_closed.
  pose proof (send_fields ByClosed (with_waiter l WaitOver)) as [= _ _ _ _ Hst].
  by destruct (lf_wg l =? 0).
Qed.

Lemma run_idling l l' : rtc l_step l l' → idling l → idling l'.
Proof. induction 1; eauto using idling_step. Qed.

Lemma l_step_alive l l' : l_step l l' → alive l = true.
Proof. by destruct 1 as [| |? []]. Qed.

(** The statistics server is only changed by its own goroutine, which is there
    when the server is. *)
Lemma no_stats_step l l' : l_step l l' → lf_stats l = None → lf_stats l' = None.
Proof.
  intros Hs Hn.
  destruct Hs as [| |l1 [|s _ Hst| | | | | |b longest first seen _ _ _| | |id why first seen _ _ _ _|]];
    try done; try congruence.
  - unfold served. by destruct (lf_graceful l).
  - rewrite (proj1 (wait_stats l)). done.
  - rewrite (proj2 (wait_stats l)). done.
  - unfold idle_decide. destruct (0 <? longest); [|by pose proof (send_fields (ByIdle first seen) (with_idler l Finished)); simpl in *; congruence].
    destruct (clock l) as [now l2] eqn:Hc. injection Hc as _ <-.
    destruct (_ <? _); [|done].
    etrans; [|exact Hn]. unfold send. simpl. by destruct (lf_main l) as [|[]| | |].
  - unfold close_visit. by destruct (close_step _ _ _ _).
Qed.

Lemma all_closed_ended l what : lf_main (all_closed l) = Ended what → lf_main l = Ended what.
Proof.
  unfold all_closed. destruct (send_main ByClosed (with_waiter l WaitOver)) as [Es|[_ Es]]; simpl in *; congruence.
Qed.

(** The ways in which a step ends the program: the wait group, or the
    statistics server. *)
Lemma step_ended l l' what :
  l_step l l' → lf_main l' = Ended what →
  (what = wg_reused ∨ what = wg_misuse) ∧ lf_wg l' ≠ 0 ∧ lf_waiter l = Woken ∧
    lf_timeout l' = lf_timeout l ∨
  lf_stats l ≠ None ∧ ((∃ path err, net_Listen "unix" path = Fail err) ∨
                       ∃ s, lf_stats l' = Some s ∧ ss_listening s = false).
Proof.
  intros Hs Hw.
  assert (alive l = true → lf_main l ≠ Ended what) as Hal.
  { unfold alive. intros Ha Hm. by rewrite Hm, andb_false_r in Ha. }
  destruct Hs as [p Ha|p Ha _ Hwk _ Hwg|l1 [sig Ha|s Ha Hst|Ha|Ha Hwk|Ha Hwk|Ha|id ic b longest first seen Ha
    |b longest first seen Ha _ _|b Ha|why Ha|id why first seen Ha _ _ _|why first seen Ha _ _]];
    specialize (Hal Ha); try done.
  - left. simpl in Hw. injection Hw as <-. split_and!; [by right| |done..].
    change (wg_of p ≠ 0). lia.
  - right. unfold stats_goroutine, stats_Serve in Hw.
    destruct (net_Listen "unix" (socket_path (ss_config s) net_Getpid)) eqn:Hl; [done|].
    split; [congruence|eauto].
  - unfold served in Hw. by destruct (lf_graceful l).
  - unfold wait_begins in Hw. destruct (lf_wg l =? 0); [by apply all_closed_ended in Hw|done].
  - unfold wait_returns in *. destruct (Z.eqb_spec (lf_wg l) 0); [by apply all_closed_ended in Hw|].
    left. simpl in Hw. injection Hw as <-. split_and!; [by left|done..].
  - unfold idle_decide in Hw. destruct (0 <? longest).
    + destruct (clock l) as [now l2] eqn:Hc. injection Hc as _ <-.
      destruct (_ <? _); [|done].
      match type of Hw with lf_main (send ?w ?x) = _ =>
        destruct (send_main w x) as [Es|[_ Es]]; simpl in *; congruence end.
    + destruct (send_main (ByIdle first seen) (with_idler l Finished)) as [Es|[_ Es]]; simpl in *; congruence.
  - unfold close_visit in Hw. by destruct (close_step _ _ _ _).
  - right. unfold ending in *. simpl in *. destruct (lf_stats l) as [s|]; [|done].
    unfold stats_Shutdown in Hw. destruct (ss_listening s) eqn:Hls; [done|]. eauto 10.
Qed.
End proofs.
