(* ===== verification/Finish.v ===== *)
(** * The way to the end of [runServer]

    From every live state the goroutines of [runServer] alone can bring the
    program to its end: the one of the signal, the one that waits for idle
    connections, and the main one with its last range over the map
    ([own_steps_finish]).  No tunnel, request or exchange has to close
    anything; that no time stands still is all that is asked of the clock. *)

From S2P Require Import Prelude GoStrings GoNet Acl Http Config Classify Conntrack Proxy Serve Logic Effects Safety Concurrent Owners Shutdown Services Lifecycle.

(** Time goes on: the clock does not go back, and reading it again and again
    passes every date. *)
Definition clock_runs `{E : Env} : Prop :=
  (∀ h, env_Now h ≤ env_Now (h ++ [EvNow])) ∧
  (∀ h date, ∃ n, date ≤ env_Now (h ++ replicate n EvNow)).

(** The process after [k] more readings of the clock. *)
Definition tick (k : nat) (p : Process) : Process :=
  mkProcess (mkWorld (w_trace (p_world p) ++ replicate k EvNow) (w_logs (p_world p))
               (w_track (p_world p))) (p_threads p) (p_crashed p).

Lemma tick_0 p : tick 0 p = p.
Proof. destruct p as [[tr lg tk] ts c]. unfold tick. simpl. by rewrite app_nil_r. Qed.

Lemma tick_tick j k p : tick k (tick j p) = tick (j + k) p.
Proof. unfold tick. simpl. by rewrite <-app_assoc, replicate_add. Qed.

Lemma conns_date (h : gmap nat InstrumentedConn) (f : InstrumentedConn → Z) :
  ∃ date, ∀ id ic, h !! id = Some ic → f ic ≤ date.
Proof.
  induction h as [|id ic h Hid IH] using map_ind; [by exists 0|].
  destruct IH as [date Hd]. exists (Z.max date (f ic)). intros id' ic'.
  rewrite lookup_insert_Some. intros [[<- <-]|[_ Hic]]; [lia|]. specialize (Hd _ _ Hic). lia.
Qed.

Section finish.
Context `{E : Env} `{T : Transport} `{N : Net} (config : Config) (hc : bool).
Variable quit : bool.
#[local] Notation own := (own_step config quit).
#[local] Notation l_inv := (l_inv config quit).

Lemma own_steps l l' : rtc own l l' → rtc (l_step config hc quit) l l'.
Proof. induction 1; [done|]. eapply rtc_l; [by apply l_own|done]. Qed.

Lemma own_inv l l' : rtc own l l' → l_inv l → l_inv l'.
Proof. intros Hr. apply (run_inv config hc quit). by apply own_steps. Qed.

Lemma own_idling l l' : rtc own l l' → idling l → idling l'.
Proof.
  induction 1 as [|l1 l2 l3 Hs _ IH]; [done|]. intros Hi.
  by apply IH, (idling_step config hc quit l1), Hi; apply l_own.
Qed.

(** ** Ticks *)

(** [l'] is [l] but for the idle goroutine and [k] readings of the clock. *)
Definition ticked (k : nat) (l l' : Life) : Prop :=
  lf_process l' = tick k (lf_process l) ∧ lf_main l' = lf_main l ∧ lf_stats l' = lf_stats l.

Lemma ticked_trans j k l1 l2 l3 : ticked j l1 l2 → ticked k l2 l3 → ticked (j + k) l1 l3.
Proof.
  intros (Hp & Hm & Hs) (Hp' & Hm' & Hs'). split_and!; [|congruence..].
  by rewrite Hp', Hp, tick_tick.
Qed.

Lemma ticked_same l : ticked 0 l l.
Proof. unfold ticked. by rewrite tick_0. Qed.

Lemma ticked_refl l i : ticked 0 l (with_idler l i).
Proof. by split_and!; simpl; rewrite ?tick_0. Qed.

Lemma ticked_track k l l' : ticked k l l' → lf_track l' = lf_track l.
Proof. intros (Hp & _). unfold lf_track. by rewrite Hp. Qed.

Lemma ticked_conns k l l' : ticked k l l' → lf_conns l' = lf_conns l.
Proof. intros H%ticked_track. unfold lf_conns. by rewrite H. Qed.

Lemma ticked_alive k l l' : ticked k l l' → alive l' = alive l.
Proof. intros (Hp & Hm & _). unfold alive. by rewrite Hp, Hm. Qed.

Lemma ticked_clock l : ticked 1 l (clock l).2.
Proof. done. Qed.

Lemma ticked_idler k l l' i : ticked k l l' → ticked k l (with_idler l' i).
Proof. done. Qed.

(** The time after [k] more readings. *)
Definition time (k : nat) (l : Life) : Z := env_Now (w_trace (p_world (lf_process l)) ++ replicate k EvNow).

Lemma ticked_time j k l l' : ticked j l l' → time k l' = time (j + k) l.
Proof. intros (Hp & _). unfold time. rewrite Hp. simpl. by rewrite <-app_assoc, replicate_add. Qed.

Lemma time_mono j k l : clock_runs → (j ≤ k)%nat → time j l ≤ time k l.
Proof.
  intros [Hm _]. induction 1 as [|k _ IH]; [lia|]. etrans; [exact IH|]. unfold time.
  rewrite replicate_S_end, app_assoc. apply Hm.
Qed.

(** At [date] all tracked connections have been inactive for the threshold. *)
Definition all_idle_by (date : Z) (l : Life) : Prop :=
  ∀ id ic, ts_heap (lf_track l) !! id = Some ic →
    ic_LastActivity ic + tr_IdleThreshold (ts_tracker (lf_track l)) ≤ date.

Lemma all_idle_exists l : ∃ date, all_idle_by date l.
Proof. apply (conns_date _ (λ ic, ic_LastActivity ic + tr_IdleThreshold (ts_tracker (lf_track l)))). Qed.

(** ** The wait for idle connections *)

(** The rest of a range. *)
Lemma range_finishes n l b longest first seen :
  size ((first ∩ lf_conns l) ∖ ids seen) = n → alive l = true → l_inv l →
  lf_idler l = Ranging b longest first seen →
  ∃ l' k longest' seen', rtc own l l' ∧ ticked k l l' ∧
    lf_idler l' = Ranging b longest' first seen' ∧ range_over first (ids seen') l' ∧
    (∀ date, clock_runs → all_idle_by date l → date ≤ time 0 l → longest ≤ 0 → longest' ≤ 0).
Proof.
  revert l longest seen. induction n as [|n IH]; intros l longest seen Hn Ha Hinv Hi.
  - exists l, 0%nat, longest, seen. split_and!; [apply rtc_refl|apply ticked_same|done| |done].
    unfold range_over. apply size_empty_inv in Hn. intros id Hid.
    destruct (decide (id ∈ ids seen)) as [|Hs]; [done|].
    destruct (not_elem_of_empty (C:=gset nat) id). by apply Hn, elem_of_difference.
  - destruct (size_pos_elem_of ((first ∩ lf_conns l) ∖ ids seen)) as [id Hid]; [lia|].
    apply elem_of_difference in Hid as [[Hf Hc]%elem_of_intersection Hs].
    pose proof (conns_dom l id (li_tracker _ _ l Hinv) Hc) as [ic Hic]%elem_of_dom.
    set (l1 := idle_visit id ic b longest first seen l).
    assert (own l l1) as Hstep by (apply (l_idle_visit config quit); [done..|by apply elem_of_union_l|done|done]).
    assert (ticked 1 l l1) as Ht1 by apply (ticked_idler _ _ _ _ (ticked_clock l)).
    set (d := idle_in (ts_tracker (lf_track l)) ic (time 0 l)).
    assert (lf_idler l1 = Ranging b (if longest <? d then d else longest) first
              (seen ++ [(id, ic, time 0 l)])) as Hi1.
    { unfold l1, idle_visit, clock, d, time. simpl. by rewrite app_nil_r. }
    destruct (IH l1 (if longest <? d then d else longest) (seen ++ [(id, ic, time 0 l)])) as (l' & k & longest' & seen' & Hr & Ht & Hi' & Ho & Hl); [| | |exact Hi1|].
    + rewrite (ticked_conns _ _ _ Ht1). unfold ids in *. rewrite !fmap_app, list_to_set_app_L. simpl.
      replace ((first ∩ lf_conns l) ∖ (list_to_set (fst <$> (fst <$> seen)) ∪ ({[id]} ∪ ∅)))
        with (((first ∩ lf_conns l) ∖ list_to_set (fst <$> (fst <$> seen))) ∖ {[id]}) by set_solver.
      rewrite size_difference, size_singleton by set_solver. lia.
    + by rewrite (ticked_alive _ _ _ Ht1).
    + eapply own_inv; [by apply rtc_once|done].
    + exists l', (1 + k)%nat, longest', seen'.
      split_and!; [by eapply rtc_l|by eapply ticked_trans|done|done|].
      intros date Hck Hall Hd Hlo. apply (Hl date); [done| | |].
      * unfold all_idle_by. by rewrite (ticked_track _ _ _ Ht1).
      * rewrite (ticked_time 1 0 l l1) by done.
        pose proof (time_mono 0 (1 + 0) l Hck ltac:(lia)). lia.
      * specialize (Hall id ic Hic). pose proof (idle_in_pos (ts_tracker (lf_track l)) ic (time 0 l)).
        destruct (Z.ltb_spec longest d); [|lia]. unfold d in *. lia.
Qed.

(** The value is in the channel; nothing else has changed but the clock. *)
Definition sent (l l' : Life) : Prop :=
  rtc own l l' ∧ (∃ why, lf_main l' = Waiting (Some why)) ∧ lf_stats l' = lf_stats l ∧
  ∃ k, lf_process l' = tick k (lf_process l).

Lemma sent_after l l1 l2 k : rtc own l l1 → ticked k l l1 → sent l1 l2 → sent l l2.
Proof.
  intros Hr (Hp & _ & Hs) (Hr' & Hm & Hs' & k' & Hp').
  split_and!; [by etrans|done|congruence|]. exists (k + k')%nat. by rewrite Hp', Hp, tick_tick.
Qed.

(** A range and its decision: the wait is over, or it goes on later.  It is
    over when all connections were idle to begin with. *)
Lemma round_ends l b longest first seen :
  clock_runs → alive l = true → l_inv l → lf_main l = Waiting None →
  lf_idler l = Ranging b longest first seen →
  (∃ l', sent l l') ∨
  ¬ (longest ≤ 0 ∧ ∃ date, all_idle_by date l ∧ date ≤ time 0 l) ∧
  ∃ l' k, rtc own l l' ∧ ticked (S k) l l' ∧ lf_idler l' = Sleeping b.
Proof.
  intros Hck Ha Hinv Hm Hi.
  destruct (range_finishes _ l b longest first seen eq_refl Ha Hinv Hi)
    as (l1 & k & longest1 & seen1 & Hr1 & Ht1 & Hi1 & Ho1 & Hl1).
  assert (alive l1 = true) as Ha1 by by rewrite (ticked_alive _ _ _ Ht1).
  assert (lf_main l1 = Waiting None) as Hm1 by by rewrite (proj1 (proj2 Ht1)).
  pose proof (l_idle_decide config quit l1 b longest1 first seen1 Ha1 Hi1 Ho1) as Hd.
  pose proof (ticked_clock l1) as Htc. unfold idle_decide in Hd.
  destruct (Z.ltb_spec 0 longest1) as [Hlt|Hle].
  - destruct (clock l1) as [now l2]. simpl in Htc.
    destruct (ExitTimeout config <? Sub now b).
    + left. exists (send (ByTimeout b now) (with_idler l2 Finished)).
      eapply sent_after; [done|done|]. destruct Htc as (Hp2 & Hm2 & Hs2).
      split_and!; [by apply rtc_once| | |]; unfold send; simpl; rewrite Hm2, Hm1; simpl; eauto.
    + right. split; [intros [Hlo (date & Hall & Hdate)]; specialize (Hl1 date Hck Hall Hdate Hlo); lia|].
      exists (with_idler l2 (Sleeping b)), k. split_and!; [by eapply rtc_r| |done].
      rewrite <-Nat.add_1_r. apply ticked_idler. by eapply ticked_trans.
  - left. exists (send (ByIdle first seen1) (with_idler l1 Finished)).
    eapply sent_after; [done|done|].
    split_and!; [by apply rtc_once| | |]; unfold send; simpl; rewrite Hm1; simpl; eauto.
    exists 0%nat. by rewrite tick_0.
Qed.

(** A range that begins, from a goroutine that is not in one. *)
Lemma range_begins l :
  alive l = true → match lf_idler l with Started | Sleeping _ => True | _ => False end →
  ∃ l' k b, rtc own l l' ∧ ticked k l l' ∧ lf_idler l' = Ranging b 0 (lf_conns l) [].
Proof.
  intros Ha Hi. destruct (lf_idler l) as [| | |b|] eqn:Hst; try done.
  - pose proof (l_idle_begin config quit l Ha Hst) as Hs. pose proof (ticked_clock l) as Ht.
    destruct (clock l) as [b l1]. simpl in Ht. exists (range_conns b l1), 1%nat, b.
    split_and!; [by apply rtc_once|apply Ht..|]. simpl. by rewrite (ticked_conns _ _ _ Ht).
  - exists (range_conns b l), 0%nat, b.
    split_and!; [by apply rtc_once, l_idle_again|apply ticked_refl..|done].
Qed.

(** From a range or from between two, one round later. *)
Lemma next_round_ends l :
  clock_runs → alive l = true → l_inv l → lf_main l = Waiting None → idling l →
  (∃ l', sent l l') ∨
  ∃ l' k b, rtc own l l' ∧ ticked (S k) l l' ∧ lf_idler l' = Sleeping b.
Proof.
  intros Hck Ha Hinv Hm [Hid _]. specialize (Hid Hm).
  assert (∃ l1 k b longest first seen, rtc own l l1 ∧ ticked k l l1 ∧
    lf_idler l1 = Ranging b longest first seen)
    as (l1 & k1 & b & longest & first & seen & Hr1 & Ht1 & Hi1).
  { destruct (lf_idler l) as [| |b longest first seen|b|] eqn:Hi; try done.
    2: { exists l, 0%nat, b, longest, first, seen. split_and!; [apply rtc_refl|apply ticked_same|done]. }
    all: destruct (range_begins l Ha) as (l1 & k & b1 & H); [by rewrite Hi|]; eauto 10. }
  destruct (round_ends l1 b longest first seen) as [[l2 Hs]|[_ (l2 & k2 & Hr2 & Ht2 & Hi2)]];
    [done|by rewrite (ticked_alive _ _ _ Ht1)|by eapply own_inv|by rewrite (proj1 (proj2 Ht1))|done| |].
  - left. exists l2. by eapply sent_after.
  - right. exists l2, (k1 + k2)%nat, b. split_and!; [by etrans| |done].
    rewrite <-Nat.add_succ_r. by eapply ticked_trans.
Qed.

(** Late enough a whole round finds all idle. *)
Lemma late_round_ends l b date :
  clock_runs → all_idle_by date l → date ≤ time 0 l →
  alive l = true → l_inv l → lf_main l = Waiting None → lf_idler l = Sleeping b → ∃ l', sent l l'.
Proof.
  intros Hck Hall Hd Ha Hinv Hm Hi.
  destruct (range_begins l Ha) as (l1 & k & b1 & Hr & Ht & Hi1); [by rewrite Hi|].
  destruct (round_ends l1 b1 0 (lf_conns l) []) as [[l2 Hs]|[Hno _]];
    [done|by rewrite (ticked_alive _ _ _ Ht)|by eapply own_inv|by rewrite (proj1 (proj2 Ht))|done| |].
  - exists l2. by eapply sent_after.
  - destruct Hno. split; [lia|]. exists date. unfold all_idle_by.
    rewrite (ticked_track _ _ _ Ht), (ticked_time _ 0 _ _ Ht). split; [exact Hall|].
    pose proof (time_mono 0 (k + 0) l Hck ltac:(lia)). lia.
Qed.

(** Rounds go on until the wait is over. *)
Lemma idle_ends n date l :
  clock_runs → all_idle_by date l → date ≤ time n l →
  alive l = true → l_inv l → lf_main l = Waiting None → idling l → ∃ l', sent l l'.
Proof.
  intros Hck. revert l. induction n as [|n IH]; intros l Hall Hd Ha Hinv Hm Hid;
    (destruct (next_round_ends l) as [Hs|(l1 & k & b & Hr & Ht & Hi)]; [done..|]);
    pose proof (ticked_alive _ _ _ Ht) as Ha1; pose proof (ticked_track _ _ _ Ht) as Htr;
    pose proof (own_inv _ _ Hr Hinv) as Hinv1; pose proof (proj1 (proj2 Ht)) as Hm1.
  - destruct (late_round_ends l1 b date) as [l2 Hs]; unfold all_idle_by; rewrite ?Htr; try done; try congruence.
    + rewrite (ticked_time _ 0 _ _ Ht). pose proof (time_mono 0 (S k + 0) l Hck ltac:(lia)). lia.
    + exists l2. by eapply sent_after.
  - destruct (IH l1) as [l2 Hs]; unfold all_idle_by; rewrite ?Htr; try done; try congruence.
    + rewrite (ticked_time _ n _ _ Ht). pose proof (time_mono (S n) (S k + n) l Hck ltac:(lia)). lia.
    + by eapply own_idling.
    + exists l2. by eapply sent_after.
Qed.

Lemma waiting_ends l :
  clock_runs → alive l = true → l_inv l → lf_main l = Waiting None → idling l → ∃ l', sent l l'.
Proof.
  intros Hck Ha Hinv Hm Hid. destruct (all_idle_exists l) as [date Hall].
  destruct (proj2 Hck (w_trace (p_world (lf_process l))) date) as [n Hn]. by apply (idle_ends n date).
Qed.

(** ** The last range *)

(** One visit closes its connection, when no goroutine owes the wait group. *)
Lemma close_one l why first seen id :
  alive l = true → l_inv l → pending (lf_process l) = 0 → lf_main l = Closing why first seen →
  id ∈ lf_conns l →
  ∃ l', own l l' ∧ alive l' = true ∧ pending (lf_process l') = 0 ∧
    lf_conns l' = lf_conns l ∖ {[id]} ∧ lf_main l' = Closing why first ({[id]} ∪ seen) ∧
    lf_stats l' = lf_stats l.
Proof.
  intros Ha Hinv Hp Hm Hin. pose proof (li_tracker _ _ l Hinv) as [H _]. rewrite Hp in H.
  pose proof (λ what, close_step_panic 0 id env_Now env_Close (p_world (lf_process l)) what H) as Hpan.
  pose proof (li_main _ _ l Hinv) as Hmain. rewrite Hm in Hmain. destruct Hmain as (_ & _ & Hseen).
  pose proof Hin as Hopen. apply (inv_map _ H) in Hopen as (ic & Hid & Hop).
  assert (id ∉ seen) as Hns by (intros (ic' & Hic' & Hcl)%Hseen; unfold lf_track in *; congruence).
  assert (tr_Map (ts_tracker (w_track (close_step id env_Now env_Close (p_world (lf_process l))).2))
          = lf_conns l ∖ {[id]}) as Hmap.
  { unfold close_step. rewrite Hid, Hop.
    destruct (tr_ShuttingDown _) as [[]|]; destruct (_ <? 0); simpl;
      by edestruct Close_open as (? & ? & -> & _). }
  exists (close_visit id why first seen l). split; [apply l_close; try done; by apply elem_of_union_r|].
  unfold close_visit.
  destruct (close_step id env_Now env_Close (p_world (lf_process l))) as [[r|what] w];
    [|specialize (Hpan what eq_refl); lia]. by split_and!.
Qed.

Lemma close_all n l why first seen :
  size (lf_conns l) = n → alive l = true → l_inv l → pending (lf_process l) = 0 →
  lf_main l = Closing why first seen →
  ∃ l' seen', rtc own l l' ∧ alive l' = true ∧ lf_conns l' = ∅ ∧ pending (lf_process l') = 0 ∧
    lf_main l' = Closing why first seen' ∧ lf_stats l' = lf_stats l.
Proof.
  revert l seen. induction n as [|n IH]; intros l seen Hn Ha Hinv Hp Hm.
  - exists l, seen. split_and!; [apply rtc_refl|done|by apply leibniz_equiv, size_empty_inv|done..].
  - destruct (size_pos_elem_of (lf_conns l)) as [id Hid]; [lia|].
    destruct (close_one l why first seen id) as (l1 & Hs & Ha1 & Hp1 & Hc1 & Hm1 & Hst1); [done..|].
    destruct (IH l1 ({[id]} ∪ seen)) as (l' & seen' & Hr & ? & ? & ? & ? & Hst'); try done.
    + rewrite Hc1, size_difference by set_solver. rewrite size_singleton. lia.
    + eapply own_inv; [by apply rtc_once|done].
    + exists l', seen'. split_and!; [by eapply rtc_l|done..|congruence].
Qed.

(** ** The end *)
Definition stats_up (l : Life) : Prop := ∀ s, lf_stats l = Some s → ss_listening s = true.

Lemma stats_come_up l :
  (∀ path, net_Listen "unix" path = Ok tt) → alive l = true →
  ∃ l', rtc own l l' ∧ alive l' = true ∧ stats_up l' ∧ lf_main l' = lf_main l ∧
    lf_process l' = lf_process l.
Proof.
  intros Hnet Ha. destruct (lf_stats l) as [s|] eqn:Hs; [destruct (ss_listening s) eqn:Hl|].
  1, 3: exists l; split_and!; [apply rtc_refl|done| |done|done]; intros s' ?; by simplify_eq.
  exists (stats_goroutine s l). split; [by apply rtc_once, l_stats|].
  unfold stats_goroutine, stats_Serve. rewrite Hnet. split_and!; try done. by intros s' [= <-].
Qed.

(** The program has returned with all connections closed. *)
Definition can_end (l : Life) : Prop :=
  ∃ l' why first, rtc own l l' ∧ lf_main l' = Exited why first ∧
    lf_conns l' = ∅ ∧ pending (lf_process l') = 0.

Lemma finishes_after l l' : rtc own l l' → can_end l' → can_end l.
Proof. intros Hr (l2 & why & first & Hr' & H). exists l2, why, first. split; [by etrans|done]. Qed.

Lemma closing_finishes l why first seen :
  alive l = true → l_inv l → pending (lf_process l) = 0 → stats_up l →
  lf_main l = Closing why first seen → can_end l.
Proof.
  intros Ha Hinv Hp Hst Hm.
  destruct (close_all _ l why first seen eq_refl Ha Hinv Hp Hm)
    as (l1 & seen1 & Hr & Ha1 & Hc1 & Hp1 & Hm1 & Hst1).
  eapply finishes_after; [exact Hr|]. exists (ending why first l1), why, first.
  split_and!; [apply rtc_once, (l_end config quit l1 why first seen1); [done|done|]| |done|done].
  - unfold range_over. rewrite Hc1. set_solver.
  - unfold ending, stats_Shutdown, stats_up in *. simpl. rewrite Hst1.
    destruct (lf_stats l) as [s|]; [|done]. by rewrite (Hst s).
Qed.

Lemma waiting_finishes l o :
  clock_runs → alive l = true → l_inv l → idling l → pending (lf_process l) = 0 → stats_up l →
  lf_main l = Waiting o → can_end l.
Proof.
  intros Hck Ha Hinv Hid Hp Hst Hm.
  assert (∃ l1 why, rtc own l l1 ∧ lf_main l1 = Waiting (Some why) ∧ lf_stats l1 = lf_stats l ∧
    ∃ k, lf_process l1 = tick k (lf_process l)) as (l1 & why & Hr1 & Hm1 & Hst1 & k & Hp1).
  { destruct o as [why|].
    - exists l, why. split_and!; [apply rtc_refl|done|done|]. exists 0%nat. by rewrite tick_0.
    - destruct (waiting_ends l) as (l1 & Hr & (why & Hw) & Hs & Ht); try done. by exists l1, why. }
  assert (alive l1 = true) as Ha1.
  { apply alive_not_crashed in Ha. unfold alive. by rewrite Hm1, Hp1; simpl; rewrite Ha. }
  pose proof (own_inv _ _ Hr1 Hinv) as Hinv1.
  eapply finishes_after; [exact Hr1|]. pose proof (l_exit config quit l1 why Ha1 Hm1) as Hs.
  eapply finishes_after; [by apply rtc_once|].
  eapply (closing_finishes _ (Some why)); [| | | |done].
  - unfold alive in *. by rewrite Hm1 in Ha1.
  - eapply own_inv; [by apply rtc_once|done].
  - simpl. by rewrite Hp1.
  - unfold stats_up in *. simpl. by rewrite Hst1.
Qed.

Lemma signalled_finishes l :
  clock_runs → alive l = true → l_inv l → pending (lf_process l) = 0 → stats_up l →
  lf_main l = Serving → is_Some (lf_timeout l) → can_end l.
Proof.
  intros Hck Ha Hinv Hp Hst Hm Ht. pose proof (l_served config quit l Ha Hm (or_introl Ht)) as Hs.
  pose proof (own_inv _ _ (rtc_once _ _ Hs) Hinv) as Hinv'.
  eapply finishes_after; [by apply rtc_once|]. unfold served in *.
  apply alive_not_crashed in Ha. destruct (lf_graceful l).
  - eapply (waiting_finishes _ None); try done. unfold alive. simpl. by rewrite Ha.
  - eapply (closing_finishes _ None); try done. unfold alive. simpl. by rewrite Ha.
Qed.

(** From every live state in which no goroutine stands between storing and
    counting its connection. *)
Lemma own_steps_finish l :
  clock_runs → (∀ path, net_Listen "unix" path = Ok tt) →
  alive l = true → l_inv l → idling l → pending (lf_process l) = 0 → can_end l.
Proof.
  intros Hck Hnet Ha Hinv Hid Hp.
  destruct (stats_come_up l Hnet Ha) as (l1 & Hr1 & Ha1 & Hst1 & Hm1 & Hp1).
  pose proof (own_inv _ _ Hr1 Hinv) as Hinv1. rewrite <-Hp1 in Hp.
  pose proof (own_idling _ _ Hr1 Hid) as Hid1.
  eapply finishes_after; [exact Hr1|]. clear l Ha Hinv Hid Hr1 Hm1 Hp1.
  destruct (lf_main l1) as [|o|why first seen|why first|what] eqn:Hm.
  - destruct (lf_timeout l1) as [t|] eqn:Ht; [by apply signalled_finishes; eauto|].
    pose proof (l_signal config quit l1 Kill Ha1 Ht ltac:(done)) as Hs.
    pose proof (own_inv _ _ (rtc_once _ _ Hs) Hinv1). eapply finishes_after; [by apply rtc_once|].
    apply signalled_finishes; eauto.
  - by apply (waiting_finishes l1 o).
  - by apply (closing_finishes l1 why first seen).
  - unfold alive in Ha1. by rewrite Hm, andb_false_r in Ha1.
  - unfold alive in Ha1. by rewrite Hm, andb_false_r in Ha1.
Qed.
End finish.
