(* ===== verification/Exit.v ===== *)
(** * How the program ends

    Schedules that execute the state machine of [Lifecycle.v], and the theorems about its
    runs: what holds when [runServer] returns, how the program can die, that it
    can always come to its end, and that a round of the interleaved wait for
    idle connections is one of the sequential loop. *)

From S2P Require Import Prelude GoStrings GoNet Acl Http Config Classify Conntrack Proxy Serve Logic Effects Safety Concurrent Owners Shutdown Services Lifecycle Finish.

Section proofs.
Context `{E : Env} `{T : Transport} `{N : Net} (config : Config) (hc : bool).
Variable quit : bool.
#[local] Notation p_step := (p_step config hc).
#[local] Notation l_step := (l_step config hc quit).
#[local] Notation l_inv := (l_inv config quit).
#[local] Notation life_process := (life_process config hc quit).
#[local] Notation run_inv := (run_inv config hc quit).
#[local] Notation run_keeps := (run_keeps config hc quit).
#[local] Notation step_ended := (step_ended config hc quit).
#[local] Notation signal_ok := (signal_ok config quit).
#[local] Notation started := (started config quit).
#[local] Notation li_tracker := (li_tracker config quit).
#[local] Notation li_idler := (li_idler config quit).
#[local] Notation li_served := (li_served config quit).
#[local] Notation run_idling := (run_idling config hc quit).
#[local] Notation l_step_alive := (l_step_alive config hc quit).

(** ** Executing the program *)
Inductive Turn :=
| TProcess (c : Choice) | TSignal (sig : Signal) | TStats | TServed | TWaitBegins | TWaitReturns
| TIdleBegin | TIdleVisit (id : nat) | TIdleDecide | TIdleAgain
| TExit | TClose (id : nat) | TEnd.

#[global] Instance range_over_dec first seen l : base.Decision (range_over first seen l).
Proof. unfold range_over. apply _. Defined.

Definition turn (t : Turn) (l : Life) : Life :=
  if alive l then
    match t with
    | TProcess c => with_process l (choose config hc c (lf_process l))
    | TSignal sig =>
        match lf_timeout l, sig with
        | None, Kill => signal config Kill l
        | None, Quit => if quit then signal config Quit l else l
        | Some _, _ => l
        end
    | TStats =>
        match lf_stats l with
        | Some s => if ss_listening s then l else stats_goroutine s l
        | None => l
        end
    | TServed =>
        match lf_main l, lf_timeout l with
        | Serving, Some _ => served l
        | Serving, None => if net_accept_fails then served l else l
        | _, _ => l
        end
    | TWaitBegins => match lf_waiter l with WaitStarts => wait_begins l | _ => l end
    | TWaitReturns => match lf_waiter l with Woken => wait_returns l | _ => l end
    | TIdleBegin =>
        match lf_idler l with
        | Started => let '(beginTs, l) := clock l in range_conns beginTs l
        | _ => l
        end
    | TIdleVisit id =>
        match lf_idler l, ts_heap (lf_track l) !! id with
        | Ranging beginTs longest first seen, Some ic =>
            if decide (id ∈ first ∪ lf_conns l ∧ id ∉ ids seen)
            then idle_visit id ic beginTs longest first seen l else l
        | _, _ => l
        end
    | TIdleDecide =>
        match lf_idler l with
        | Ranging beginTs longest first seen =>
            if decide (range_over first (ids seen) l)
            then idle_decide config beginTs longest first seen l else l
        | _ => l
        end
    | TIdleAgain =>
        match lf_idler l with
        | Sleeping beginTs => range_conns beginTs l
        | _ => l
        end
    | TExit =>
        match lf_main l with
        | Waiting (Some why) => with_main l (Closing (Some why) (lf_conns l) ∅)
        | _ => l
        end
    | TClose id =>
        match lf_main l with
        | Closing why first seen =>
            if decide (id ∈ first ∪ lf_conns l ∧ id ∉ seen) then close_visit id why first seen l else l
        | _ => l
        end
    | TEnd =>
        match lf_main l with
        | Closing why first seen => if decide (range_over first seen l) then ending why first l else l
        | _ => l
        end
    end
  else l.

Definition turns (ts : list Turn) (l : Life) : Life := foldl (λ l t, turn t l) l ts.

(** A step of the process, or none, is one of the program. *)
Lemma lift_step l p :
  alive l = true → p = lf_process l ∨ p_step (lf_process l) p → rtc l_step l (with_process l p).
Proof.
  intros Ha [->|Hs]; [rewrite with_process_same; apply rtc_refl|by apply rtc_once, l_process].
Qed.

Lemma turn_own t l : (∀ c, t ≠ TProcess c) → rtc (own_step config quit) l (turn t l).
Proof.
  intros Hne. unfold turn. destruct (alive l) eqn:Ha; [|apply rtc_refl].
  destruct t as [c|sig| | | | | |id| | | |id|].
  - by destruct (Hne c).
  - destruct (lf_timeout l) eqn:Ht; [apply rtc_refl|]. destruct sig; [by apply rtc_once, l_signal|].
    destruct quit eqn:Hq; [by apply rtc_once, l_signal|apply rtc_refl].
  - destruct (lf_stats l) as [s|] eqn:Hs; [|apply rtc_refl].
    destruct (ss_listening s) eqn:Hl; [apply rtc_refl|by apply rtc_once, l_stats].
  - destruct (lf_main l) eqn:Hm; try apply rtc_refl.
    destruct (lf_timeout l) eqn:Ht; [apply rtc_once, l_served; eauto|].
    destruct net_accept_fails eqn:Hn; [apply rtc_once, l_served; eauto|apply rtc_refl].
  - destruct (lf_waiter l) eqn:Hw; try apply rtc_refl. by apply rtc_once, (l_wait_begins config quit l).
  - destruct (lf_waiter l) eqn:Hw; try apply rtc_refl. by apply rtc_once, (l_wait_returns config quit l).
  - destruct (lf_idler l) eqn:Hi; try apply rtc_refl. by apply rtc_once, (l_idle_begin config quit l).
  - destruct (lf_idler l) eqn:Hi; try apply rtc_refl.
    destruct (ts_heap (lf_track l) !! id) eqn:Hid; [|apply rtc_refl].
    case_decide; [|apply rtc_refl]. destruct_and?. by apply rtc_once, l_idle_visit.
  - destruct (lf_idler l) eqn:Hi; try apply rtc_refl.
    case_decide; [|apply rtc_refl]. by apply rtc_once, l_idle_decide.
  - destruct (lf_idler l) eqn:Hi; try apply rtc_refl. by apply rtc_once, l_idle_again.
  - destruct (lf_main l) as [|[]| | |] eqn:Hm; try apply rtc_refl. by apply rtc_once, l_exit.
  - destruct (lf_main l) eqn:Hm; try apply rtc_refl.
    case_decide; [|apply rtc_refl]. destruct_and?. by apply rtc_once, l_close.
  - destruct (lf_main l) eqn:Hm; try apply rtc_refl.
    case_decide; [|apply rtc_refl]. by apply rtc_once, (l_end config quit l why first seen).
Qed.

Lemma turn_steps t l : rtc l_step l (turn t l).
Proof.
  assert (∀ l', rtc (own_step config quit) l l' → rtc l_step l l') as Hown.
  { intros l' H. induction H; [apply rtc_refl|]. eapply rtc_l; [by apply l_own|done]. }
  destruct t as [c| | | | | | | | | | | |]; [|by apply Hown, turn_own..].
  unfold turn. destruct (alive l) eqn:Ha; [|apply rtc_refl]. apply lift_step; [done|apply choose_step].
Qed.

Lemma turns_steps ts l : rtc l_step l (turns ts l).
Proof.
  revert l. induction ts as [|t ts IH]; intros l; [apply rtc_refl|].
  etrans; [apply turn_steps|apply IH].
Qed.

(** ** Theorems *)


(** The ways in which the program dies without returning. *)
Lemma death_cause tls flag listener l0 l :
  StartWithConfig config tls flag = Ok (listener, l0) → rtc l_step l0 l →
  (p_crashed (lf_process l) = true → 0 < pending (lf_process l)) ∧
  (∀ what, lf_main l = Ended what →
     (what = wg_reused ∨ what = wg_misuse) ∧ lf_wg l ≠ 0 ∧
       (is_Some (lf_timeout l) ∨ net_accept_fails = true) ∨
     StatsSocketDir config ≠ "" ∧
       ((∃ path err, net_Listen "unix" path = Fail err) ∨
        ∃ s, lf_stats l = Some s ∧ ss_listening s = false)).
Proof.
  intros H0 Hr. apply started in H0 as (Hp0 & Hinv0 & _ & Hm0 & Hs0 & Hid0). split.
  - intros Hc. pose proof (life_process _ _ Hr) as Hp. rewrite Hp0 in Hp.
    apply (crashed_reachable config hc _ _) in Hp; [done|apply ct_inv_init|done].
  - intros what Hw.
    apply rtc_inv_r in Hr as [<-|(l1 & Hr & Hs)]; [congruence|].
    destruct (step_ended _ _ _ Hs Hw) as [(Hwh & Hwg & Hwk & Ht)|[Hn Hd]]; [left|right].
    + split_and!; [done..|]. rewrite Ht.
      pose proof (li_served _ (run_inv _ _ Hr Hinv0)) as Hse.
      pose proof (run_idling _ _ Hr Hid0) as [_ Hsv]. unfold served_ok in Hse.
      destruct (lf_main l1) as [| | | |what1] eqn:Hm1; [rewrite Hsv in Hwk by done; done|done..|].
      pose proof (l_step_alive _ _ Hs) as Ha. unfold alive in Ha. by rewrite Hm1, andb_false_r in Ha.
    + split; [|done]. intros Hdir. apply Hn.
      specialize (Hs0 Hdir). clear -Hs0 Hr. induction Hr; eauto using no_stats_step.
Qed.

(** C15: the program can always come to its end by itself. From every state of
    every run in which it is alive and no goroutine stands between storing and
    counting its connection, whatever the main goroutine, the waiting
    goroutines and the tunnels are doing, there are steps of the goroutines of
    [runServer] alone (the signal, the statistics server, the end of [Serve],
    ranges and decisions of the wait for idle connections, the visits of the
    last range) that lead to
    the return of [runServer] with no connection left open.  No tunnel, request
    or exchange has to end.  This is provided that the statistics socket can be
    made and that time goes on: the clock does not go back, and no date is
    never reached. *)
Theorem shutdown_can_finish tls flag listener l0 l :
  clock_runs → (∀ path, net_Listen "unix" path = Ok tt) →
  StartWithConfig config tls flag = Ok (listener, l0) → rtc l_step l0 l →
  alive l = true → pending (lf_process l) = 0 →
  ∃ l' why first, rtc (own_step config quit) l l' ∧ lf_main l' = Exited why first ∧
    tr_Map (ts_tracker (lf_track l')) = ∅ ∧ tr_Wg (ts_tracker (lf_track l')) = 0 ∧
    ∀ id ic, ts_heap (lf_track l') !! id = Some ic → ic_closed ic = true.
Proof.
  intros Hck Hnet H0 Hr Ha Hp. apply started in H0 as (_ & Hinv0 & _ & _ & _ & Hid0).
  destruct (own_steps_finish config hc quit l) as (l' & why & first & Hr' & Hm & Hc & Hp');
    [done..|by apply (run_inv l0)|by apply (run_idling l0)|done|].
  exists l', why, first.
  pose proof (own_inv config hc quit _ _ Hr' (run_inv _ _ Hr Hinv0)) as Hinv.
  pose proof (ti_owed _ (li_tracker _ Hinv)) as Ho. rewrite Hp' in Ho.
  pose proof (inv_wg _ Ho) as Hwg. unfold lf_conns, lf_track in *. rewrite Hc, size_empty in Hwg.
  split_and!; [done..|]. intros id ic Hic. destruct (ic_closed ic) eqn:Hcl; [done|]. exfalso.
  assert (id ∈ (∅ : gset nat)) as Hin by (rewrite <-Hc; apply (inv_map _ Ho); by exists ic).
  set_solver.
Qed.

(** The interleaved wait for idle connections is the loop of
    [Shutdown.idle_wait]. In every state of every run in which a range is under
    way, its running maximum is what [MaybeIdleIn] gives for the connections
    seen so far, each at the time of its visit; and when the range is over, the
    decision taken is that of one round of [idle_wait] on what was seen: done
    as idle, done by timeout, or another round. *)
Theorem idle_round_equiv tls flag listener l0 l beginTs longest first seen :
  StartWithConfig config tls flag = Ok (listener, l0) → rtc l_step l0 l →
  lf_idler l = Ranging beginTs longest first seen →
  let t := ts_tracker (lf_track l) in
  longest = MaybeIdleIn t (seen_conns seen) (seen_clock seen) ∧
  ∀ fuel round i, round i = seen_round seen (clock l).1 →
    idle_wait (S fuel) t (ExitTimeout config) beginTs round i =
    match lf_idler (idle_decide config beginTs longest first seen l) with
    | Finished => Some (i, if 0 <? longest then TimedOut else AllIdle)
    | _ => idle_wait fuel t (ExitTimeout config) beginTs round (S i)
    end.
Proof.
  intros H0 Hr Hi t. apply started in H0 as (_ & Hinv0 & _).
  pose proof (li_idler _ (run_inv _ _ Hr Hinv0)) as Hok. rewrite Hi in Hok. destruct Hok as [_ Hl].
  split; [exact Hl|]. intros fuel round i Hround. cbn [idle_wait]. rewrite Hround.
  cbn [seen_round rd_visit rd_clock rd_now]. fold t in Hl.
  rewrite <-Hl. unfold idle_decide. destruct (0 <? longest).
  - destruct (clock l) as [now l1]. simpl. destruct (ExitTimeout config <? Sub now beginTs); [|done].
    pose proof (send_fields (ByTimeout beginTs now) (with_idler l1 Finished)) as [= _ _ _ -> _]. done.
  - pose proof (send_fields (ByIdle first seen) (with_idler l Finished)) as [= _ _ _ -> _]. done.
Qed.
End proofs.

(** ** Sample runs *)
Definition toy_net : Net := {|
  net_IsWorker := false;
  net_GetListener _ := Fail (Err "not a worker");
  net_Listen _ _ := Ok tt;
  net_Getpid := 42;
  net_accept_fails := false
|}.

(** Six seconds pass between two readings of the clock. *)
Definition slow_env : Env := {|
  env_LookupPort := @env_LookupPort rebinding_env;
  env_LookupIPAddr _ _ _ := Ok [mkIPAddr (IPv4 93 184 216 34) ""];
  env_DialTimeout := @env_DialTimeout rebinding_env;
  env_Close := @env_Close rebinding_env;
  env_Now h := Z.of_nat (length h) * (6 * second);
  env_quote s := s
|}.

Definition sample_config (stats_dir : string) : Config :=
  with_StatsSocketDir (acl_config sample_acl) stats_dir.

(** The program as it starts, for the given directory. *)
Definition boot (stats_dir : string) : Life :=
  match @StartWithConfig toy_net (sample_config stats_dir) false None with
  | Ok (_, l) => l
  | Fail _ => mkLife (start init_world) None true None None Serving NotStarted NoWaiter
  end.

Definition sample_life (stats_dir : string) (ts : list Turn) : Life :=
  @turns slow_env direct_transport toy_net (sample_config stats_dir) false false ts (boot stats_dir).

Lemma sample_life_steps stats_dir ts :
  rtc (@l_step slow_env direct_transport toy_net (sample_config stats_dir) false false)
    (boot stats_dir) (sample_life stats_dir ts).
Proof. apply turns_steps. Qed.

Lemma boot_started stats_dir :
  @StartWithConfig toy_net (sample_config stats_dir) false None = Ok (TcpListener ":4750", boot stats_dir).
Proof. reflexivity. Qed.

(** A tunnel, a signal, and the wait that finds the tunnel idle. *)
Definition idle_shutdown : list Turn :=
  (TProcess <$> (Arrive connect_request :: replicate 20 (Go 0))) ++
  [TSignal Kill; TServed; TIdleBegin; TIdleVisit 0; TIdleDecide; TExit; TClose 0; TEnd].

(** A signal at once. *)
Definition quick_shutdown : list Turn := [TSignal Kill; TServed; TWaitBegins; TExit; TEnd].

Definition exited_idle (l : Life) : bool :=
  match lf_main l with
  | Exited (Some (ByIdle whole seen)) first =>
      bool_decide (first = {[0%nat]}) && (length seen =? 1)%nat
  | _ => false
  end.


(** Two clients; the tunnel of the first one ends during the shutdown, and the
    handler of the second one has its connection only then. *)
Definition late_tunnel : list Turn :=
  (TProcess <$> (Arrive connect_request :: Arrive connect_request :: replicate 20 (Go 0))) ++
  [TSignal Kill; TServed; TWaitBegins; TProcess (CloseConn 0)] ++
  (TProcess <$> replicate 20 (Go 1)) ++ [TWaitReturns].

Lemma late_tunnel_dies : lf_main (sample_life "" late_tunnel) = Ended wg_reused.
Proof. vm_compute. reflexivity. Qed.

(** C14: how the program dies without returning, when each [Add] and [Done] of
    the wait group takes effect at once. A goroutine that closes a connection
    panics only when the wait group would fall below zero, which takes a
    goroutine between storing and counting its connection.  Everything else
    that ends the program is the wait group again, which was used by a handler
    while the goroutine in [Wg.Wait()] was being released, in a graceful
    shutdown; or the statistics server, whose socket cannot be made or that is
    stopped before it has got one, and which is only there with a statistics
    directory.  The death by the wait group does happen, without a directory: a
    handler that was still dialling when the last tunnel ended. *)
Theorem death_causes :
  (∀ `(E : Env) `(T : Transport) `(N : Net) config hc quit tls flag listener l0 l,
   StartWithConfig config tls flag = Ok (listener, l0) → rtc (l_step config hc quit) l0 l →
   (p_crashed (lf_process l) = true → 0 < pending (lf_process l)) ∧
   (∀ what, lf_main l = Ended what →
      (what = wg_reused ∨ what = wg_misuse) ∧ lf_wg l ≠ 0 ∧
        (is_Some (lf_timeout l) ∨ net_accept_fails = true) ∨
      StatsSocketDir config ≠ "" ∧
        ((∃ path err, net_Listen "unix" path = Fail err) ∨
         ∃ s, lf_stats l = Some s ∧ ss_listening s = false))) ∧
  ∃ l, rtc (@l_step slow_env direct_transport toy_net (sample_config "") false false) (boot "") l ∧
    lf_main l = Ended wg_reused.
Proof.
  split.
  - intros E T N config hc quit tls flag listener l0 l. apply death_cause.
  - exists (sample_life "" late_tunnel). split; [apply sample_life_steps|apply late_tunnel_dies].
Qed.

Lemma death_causes_witness :
  lf_main (sample_life "/run" quick_shutdown) = Ended "invalid memory address or nil pointer dereference" ∧
  ∃ s, lf_stats (sample_life "/run" quick_shutdown) = Some s ∧ ss_listening s = false.
Proof.
  assert (lf_main (sample_life "/run" quick_shutdown)
    = Ended "invalid memory address or nil pointer dereference") as Hm by (vm_compute; reflexivity).
  split; [exact Hm|]. revert Hm. generalize (sample_life_steps "/run" quick_shutdown).
  generalize (sample_life "/run" quick_shutdown). intros l Hr Hm.
  destruct (proj1 death_causes slow_env direct_transport toy_net (sample_config "/run") false false false None
    (TcpListener ":4750") (boot "/run") l (boot_started "/run") Hr) as [_ H].
  destruct (H _ Hm) as [([Hw|Hw] & _)|[_ [(path & err & Hf)|Hs]]];
    [discriminate Hw|discriminate Hw|discriminate Hf|exact Hs].
Defined.

(** Its clock runs. *)
Lemma slow_clock_runs : @clock_runs slow_env.
Proof.
  split; simpl; [intros h|intros h date; exists (Z.to_nat date)];
    rewrite length_app, ?length_replicate; unfold second; simpl; lia.
Qed.

Lemma shutdown_can_finish_witness :
  let l := sample_life "/run" (TProcess <$> (Arrive connect_request :: replicate 20 (Go 0))) in
  size (lf_conns l) = 1%nat ∧
  ∃ l' why first, rtc (@own_step slow_env toy_net (sample_config "/run") false) l l' ∧
    lf_main l' = Exited why first ∧ tr_Map (ts_tracker (lf_track l')) = ∅ ∧
    tr_Wg (ts_tracker (lf_track l')) = 0 ∧
    ∀ id ic, ts_heap (lf_track l') !! id = Some ic → ic_closed ic = true.
Proof.
  set (ts := TProcess <$> (Arrive connect_request :: replicate 20 (Go 0))).
  split; [vm_compute; reflexivity|].
  assert (alive (sample_life "/run" ts) = true) as Ha by (vm_compute; reflexivity).
  assert (pending (lf_process (sample_life "/run" ts)) = 0) as Hp by (vm_compute; reflexivity).
  revert Ha Hp. generalize (sample_life_steps "/run" ts). generalize (sample_life "/run" ts).
  intros l Hr Ha Hp.
  apply (@shutdown_can_finish slow_env direct_transport toy_net (sample_config "/run") false false
    false None (TcpListener ":4750") (boot "/run") l);
    [apply slow_clock_runs|reflexivity|apply boot_started|exact Hr..|exact Ha|exact Hp].
Defined.

Definition ranging_of (l : Life) : option (Z * Z * gset nat * list Seen) :=
  match lf_idler l with Ranging b longest first seen => Some (b, longest, first, seen) | _ => None end.

Lemma idle_round_equiv_witness :
  let ts := (TProcess <$> (Arrive connect_request :: replicate 20 (Go 0))) ++
            [TSignal Kill; TServed; TIdleBegin; TIdleVisit 0] in
  ∃ beginTs longest first seen,
    ranging_of (sample_life "" ts) = Some (beginTs, longest, first, seen) ∧ length seen = 1%nat ∧
    longest = MaybeIdleIn (ts_tracker (lf_track (sample_life "" ts))) (seen_conns seen) (seen_clock seen).
Proof.
  intros ts.
  assert ((λ x, length x.2) <$> ranging_of (sample_life "" ts) = Some 1%nat) as H
    by (vm_compute; reflexivity).
  revert H. generalize (sample_life_steps "" ts). generalize (sample_life "" ts). intros l Hr H.
  destruct (ranging_of l) as [[[[b longest] first] seen]|] eqn:Hl; [|discriminate H].
  exists b, longest, first, seen. split; [reflexivity|]. split; [by injection H|].
  unfold ranging_of in Hl. destruct (lf_idler l) eqn:Hi; try discriminate Hl. injection Hl as -> -> -> ->.
  apply (@idle_round_equiv slow_env direct_transport toy_net (sample_config "") false false false None
    (TcpListener ":4750") (boot "") l b longest first seen); [apply boot_started|exact Hr|exact Hi].
Defined.
