(* ===== verification/Graceful.v ===== *)
(** * Tunnels and the shutdown

    The whole program: the state machine of [Lifecycle.v] together with the
    tunnels of [Tunnels.v].  Its runs are runs of both ([g_step_life],
    [g_step_system]), so what is proved there of the life of the server and of
    tunnels holds here.  The theorem of this file says what a shutdown does to
    a tunnel. *)

From S2P Require Import Prelude GoStrings GoNet Acl Http Config Classify Conntrack Proxy Serve Logic Effects Safety Handling Concurrent Owners Tunnels Relay Shutdown Services Lifecycle Exit.

Record Program := mkProgram { pg_life : Life; pg_tunnels : list TunnelState }.

Definition pg_proc (g : Program) : Process := lf_process (pg_life g).
Definition system_of (g : Program) : System := mkSystem (pg_proc g) (pg_tunnels g).

Section program.
Context `{E : Env} `{T : Transport} `{N : Net} (config : Config) (hc quit : bool).
#[local] Notation p_step := (p_step config hc).
#[local] Notation s_step := (s_step config hc).
#[local] Notation l_step := (l_step config hc quit).
#[local] Notation own_step := (own_step config quit).

(** One step of a goroutine: of a request, of [runServer], or of a tunnel. *)
Inductive g_step (g : Program) : Program → Prop :=
| g_process p' :
    alive (pg_life g) = true → r_step config hc (conns (pg_tunnels g)) (pg_proc g) p' →
    g_step g (mkProgram (with_process (pg_life g) p') (pg_tunnels g))
| g_misuse p' :
    alive (pg_life g) = true → r_step config hc (conns (pg_tunnels g)) (pg_proc g) p' →
    lf_waiter (pg_life g) = Woken → lf_wg (pg_life g) = 0 → 0 < wg_of p' →
    g_step g (mkProgram (with_main (with_process (pg_life g) p') (Ended wg_misuse)) (pg_tunnels g))
| g_own l' :
    own_step (pg_life g) l' → g_step g (mkProgram l' (pg_tunnels g))
| g_spawn i t c up down :
    alive (pg_life g) = true → p_threads (pg_proc g) !! i = Some t →
    t_prog t = Done (Ret (Tunnel c)) → i ∉ tu_thread <$> pg_tunnels g → early_ok down →
    g_step g (mkProgram (pg_life g) (pg_tunnels g ++ [start_tunnel i c up down (pg_proc g)]))
| g_move j tu mv tu' p' :
    alive (pg_life g) = true → pg_tunnels g !! j = Some tu →
    move mv tu (pg_proc g) = Some (tu', p') →
    g_step g (mkProgram (with_process (pg_life g) p') (<[j := tu']> (pg_tunnels g))).

(** ** Its runs are runs of the server and of the tunnels *)
Lemma g_step_life g g' : g_step g g' → rtc l_step (pg_life g) (pg_life g').
Proof.
  destruct 1 as [p' Ha Hp|p' Ha Hp Hw H0 H1|l' Hl|i t c up down Ha Hi Ht Hn Hdn|j tu mv tu' p' Ha Hj Hm]; simpl.
  - apply rtc_once, l_process; [done|by eapply r_step_process].
  - apply rtc_once, l_misuse; [done|by eapply r_step_process|done..].
  - by apply rtc_once, l_own.
  - done.
  - apply lift_step; [done|]. eapply move_step; [by apply alive_not_crashed|done].
Qed.

Lemma g_steps_life g g' : rtc g_step g g' → rtc l_step (pg_life g) (pg_life g').
Proof. induction 1; [done|]. etrans; [by apply g_step_life|done]. Qed.

(** What the goroutines of [runServer] do to the process: nothing, a reading of
    the clock, or a visit of the last range. *)
Lemma own_step_process l l' :
  own_step l l' → alive l = true ∧
  (lf_process l' = lf_process l ∨
   lf_process l' = lf_process (clock l).2 ∨
   ∃ id why first seen, lf_process l' = closing id (lf_process l) ∧
     lf_main l = Closing why first seen ∧ lf_main l' = Closing why first ({[id]} ∪ seen)).
Proof.
  destruct 1 as [sig Ha _ _|s Ha _ _|Ha _ _|Ha _|Ha _|Ha _|id ic b longest first seen Ha _ _ _ _
    |b longest first seen Ha _ _|b Ha _|why Ha _|id why first seen Ha Hm _ _|why first seen Ha _ _];
    (split; [exact Ha|]); try (by left); try (by right; left).
  - left. unfold stats_goroutine. by destruct (stats_Serve _ _ _) as [[]|].
  - left. unfold served. by destruct (lf_graceful l).
  - left. apply wait_process.
  - left. apply wait_process.
  - unfold idle_decide. destruct (0 <? longest); [|left; by rewrite send_process].
    right. left. unfold clock. simpl. destruct (_ <? _); simpl; by rewrite ?send_process.
  - right. right. exists id, why, first, seen. unfold close_visit, closing.
    by destruct (close_step id env_Now env_Close (p_world (lf_process l))).
Qed.

Lemma clock_r_step busy l :
  alive l = true → r_step config hc busy (lf_process l) (lf_process (clock l).2).
Proof.
  intros Ha%alive_not_crashed. pose proof (r_clock config hc busy (lf_process l) Ha) as H.
  unfold clock. simpl. by rewrite Ha.
Qed.

Lemma g_step_system g g' : g_step g g' → rtc s_step (system_of g) (system_of g').
Proof.
  destruct 1 as [p' Ha Hp|p' Ha Hp Hw H0 H1|l' Hl|i t c up down Ha Hi Ht Hn Hdn|j tu mv tu' p' Ha Hj Hm]; simpl.
  - by apply rtc_once, (s_process config hc (system_of g)).
  - by apply rtc_once, (s_process config hc (system_of g)).
  - apply own_step_process in Hl as [Ha Hl]. unfold system_of, pg_proc. simpl.
    destruct Hl as [->|[->|(id & why & first & seen & -> & _)]]; [done| |].
    + by apply rtc_once, (s_process config hc (system_of g)), clock_r_step.
    + apply rtc_once, (s_close config hc (system_of g)). by apply alive_not_crashed.
  - apply rtc_once, (s_spawn config hc (system_of g) i t); [by apply alive_not_crashed|done..].
  - apply rtc_once, (s_move config hc (system_of g) j tu mv); [by apply alive_not_crashed|done..].
Qed.

Lemma g_steps_system g g' : rtc g_step g g' → rtc s_step (system_of g) (system_of g').
Proof. induction 1; [done|]. etrans; [by apply g_step_system|done]. Qed.

(** ** What leaves a tunnel's connection as it is *)
Definition alone (c : nat) (p p' : Process) : Prop :=
  ts_heap (track p') !! c = ts_heap (track p) !! c.

Lemma alone_closed c p p' : alone c p p' → conn_closed p' c = conn_closed p c.
Proof. unfold alone, conn_closed. by intros ->. Qed.

Lemma closing_alone c id p : id ≠ c → alone c p (closing id p).
Proof.
  intros Hne. pose proof (close_step_alone id env_Now env_Close (p_world p) c Hne) as H.
  unfold alone, closing, track in *. by destruct (close_step id env_Now env_Close (p_world p)).
Qed.

Lemma r_step_alone s tu p' :
  system_inv s → tu ∈ sy_tunnels s → r_step config hc (conns (sy_tunnels s)) (sy_proc s) p' →
  alone (tu_conn tu) (sy_proc s) p'.
Proof.
  intros Hi Hin Hp. assert (tu_conn tu ∈ conns (sy_tunnels s)) as Hb
    by (apply elem_of_conns; by exists tu).
  destruct (si_owners _ Hi) as (f & Hf & Hown). specialize (Hown tu Hin).
  destruct (si_answered _ Hi tu Hin) as (t0 & Ht0 & Hp0).
  destruct Hp as [req _|i t _ Ht|op _ Hop|id _ Hid|_]; try done.
  - destruct (decide (i = tu_thread tu)) as [->|Hne].
    + simplify_eq. unfold advance. by rewrite Hp0.
    + pose proof (thread_alone f (sy_proc s) i t (tu_conn tu) Hf Ht) as Hal. unfold alone, track.
      destruct (advance t (p_world (sy_proc s))). apply Hal; [by eapply ow_used|].
      pose proof (ow_disjoint _ _ Hf i (tu_thread tu) Hne). set_solver.
  - apply io_step_alone. intros Heq. apply Hop. by rewrite Heq.
  - apply closing_alone. intros Heq. apply Hid. by rewrite Heq.
Qed.

Lemma move_alone mv tu p tu' p' c :
  move mv tu p = Some (tu', p') → c ≠ tu_conn tu → alone c p p'.
Proof.
  intros Hm Hne. destruct mv; simpl in Hm; apply bind_Some in Hm as (f & _ & Hm).
  1,5,6: by simplify_eq.
  1,3: simplify_eq; apply io_step_alone; simpl; congruence.
  pose proof (closing_alone c (tu_conn tu) p) as H. unfold closing in H.
  destruct (close_step _ _ _ _) as [[r|what] w']; simplify_eq; apply H; congruence.
Qed.

(** A tunnel's own moves close its connection only by ending the direction to
    the target, unless the close panics. *)
Lemma move_closes mv tu p tu' p' :
  tunnel_ok p tu → move mv tu p = Some (tu', p') → p_crashed p' = false →
  (ended (tu_up tu) = true → ended (tu_up tu') = true) ∧
  (conn_closed p' (tu_conn tu) = true → conn_closed p (tu_conn tu) = true ∨ ended (tu_up tu') = true).
Proof.
  intros [_ _ (ic & Hic & _) _] Hm Hcr.
  assert (conn_closed p (tu_conn tu) = ic_closed ic) as Hcl by (unfold conn_closed; by rewrite Hic).
  destruct mv as [chunk er|n ew now| |chunk er now|n ew|]; simpl in Hm;
    apply bind_Some in Hm as (f & Hf & Hm).
  - apply flow_read_next in Hf as [Hu _]. simplify_eq. split; [|by left].
    unfold ended. by rewrite Hu.
  - apply flow_write_next in Hf as [(chunk & er & Hu) _]. simplify_eq. split.
    + unfold ended. by rewrite Hu.
    + unfold conn_closed at 1. rewrite (transfer_write _ _ ic) by done. rewrite Hcl. by left.
  - apply flow_close_next in Hf as (res & Hu & Hf).
    destruct (close_step _ _ _ _) as [[r|what] w']; simplify_eq.
    unfold ended. simpl. rewrite Hf. split; [done|by right].
  - simplify_eq. split; [done|]. unfold conn_closed at 1.
    rewrite (transfer_read _ _ ic) by done. rewrite Hcl. by left.
  - simplify_eq. split; [done|by left].
  - simplify_eq. split; [done|by left].
Qed.

(** ** What becomes of a tunnel

    [c] is its connection and [up] says whether its direction to the target has
    ended.  An idle check that the shutdown went by saw the connection. *)
Definition saw (c : nat) (up : bool) (why : option Why) : Prop :=
  match why with
  | Some (ByIdle whole seen) => c ∈ whole → up = true ∨ c ∈ ids seen
  | _ => True
  end.

Definition fate (c : nat) (up : bool) (l : Life) : Prop :=
  let closed := conn_closed (lf_process l) c = true in
  match lf_main l with
  | Serving | Waiting None => closed → up = true
  | Waiting why => (closed → up = true) ∧ saw c up why
  | Closing why first seen =>
      (closed → up = true ∨ c ∈ seen) ∧ (closed ∨ c ∈ first) ∧ saw c up why
  | Exited why first => closed
  | Ended _ => True
  end.

Lemma saw_mono c up up' why : (up = true → up' = true) → saw c up why → saw c up' why.
Proof. intros Hu. destruct why as [[|whole seen|b now]|]; simpl; auto. intros H Hin. destruct (H Hin); auto. Qed.

(** Steps that leave the main goroutine where it is. *)
Lemma fate_same c up up' l l' :
  lf_main l' = lf_main l → (up = true → up' = true) →
  (conn_closed (lf_process l) c = true → conn_closed (lf_process l') c = true) →
  (conn_closed (lf_process l') c = true → conn_closed (lf_process l) c = true ∨ up' = true) →
  fate c up l → fate c up' l'.
Proof.
  intros Hm Hu Hk Hc. unfold fate. rewrite Hm.
  destruct (lf_main l) as [|[why|]|why first seen|why first|what]; try done.
  - intros H [Hcl|Hcl]%Hc; auto.
  - intros [H Hs]. split; [|by eapply saw_mono]. intros [Hcl|Hcl]%Hc; auto.
  - intros H [Hcl|Hcl]%Hc; auto.
  - intros (H & Hf & Hs). split_and!; [|destruct Hf; auto|by eapply saw_mono].
    intros [Hcl|Hcl]%Hc; [|by left]. destruct (H Hcl); auto.
Qed.

Lemma fate_still c up l l' :
  lf_main l' = lf_main l → conn_closed (lf_process l') c = conn_closed (lf_process l) c →
  fate c up l → fate c up l'.
Proof. unfold fate. by intros -> ->. Qed.

(** The steps of [runServer]. *)
Lemma own_step_closed l l' c :
  own_step l l' → c ∈ dom (ts_heap (lf_track l)) →
  (conn_closed (lf_process l) c = true → conn_closed (lf_process l') c = true) ∧
  ((∀ why first seen, lf_main l ≠ Closing why first seen) →
   conn_closed (lf_process l') c = conn_closed (lf_process l) c).
Proof.
  intros Hs%own_step_process [ic Hic]%elem_of_dom.
  destruct Hs as [_ [->|[->|(id & why & first & seen & -> & Hm & _)]]]; [done|done|].
  split; [|intros H; by destruct (H why first seen)].
  eapply conn_closed_untouched; [exact Hic|apply closing_untouched].
Qed.

Lemma send_fate c up why l :
  (lf_main l = Waiting None → (conn_closed (lf_process l) c = true → up = true) → saw c up (Some why)) →
  fate c up l → fate c up (send why l).
Proof.
  unfold send. destruct (lf_main l) as [|[w|]|? ? ?|? ?|?] eqn:Hm; try done.
  unfold fate. rewrite Hm. simpl. intros Hs Hf. split; [exact Hf|]. by apply Hs.
Qed.

Lemma open_tracked l c :
  l_inv config quit l → c ∈ dom (ts_heap (lf_track l)) →
  conn_closed (lf_process l) c = true ∨ c ∈ lf_conns l.
Proof.
  intros Hi [ic Hic]%elem_of_dom. unfold conn_closed, track. unfold lf_track in Hic. rewrite Hic.
  destruct (ic_closed ic) eqn:Hcl; [by left|right].
  apply (inv_map _ (ti_owed _ (li_tracker _ _ _ Hi))). by exists ic.
Qed.

Lemma own_step_fate c up l l' :
  l_inv config quit l → own_step l l' → c ∈ dom (ts_heap (lf_track l)) →
  fate c up l → fate c up l'.
Proof.
  intros Hi Hs Hc Hf. destruct (own_step_closed l l' c Hs Hc) as [Hk Hsame].
  pose proof (open_tracked l c Hi Hc) as Hopen. pose proof (li_main _ _ _ Hi) as Hmain.
  destruct Hs as [sig Ha _ _|s Ha _ _|Ha Hm _|Ha _|Ha _|Ha _|id ic b longest first seen Ha _ _ _ _
    |b longest first seen Ha Hr Hov|b Ha _|why Ha Hm|id why first seen Ha Hm Hin _
    |why first seen Ha Hm Hov].
  - by apply (fate_still c up l).
  - unfold stats_goroutine. destruct (stats_Serve _ _ _) as [[]|]; [|done].
    by apply (fate_still c up l).
  - unfold served, fate in *. rewrite Hm in Hf. destruct (lf_graceful l); simpl; [done|].
    split_and!; [by left; apply Hf|done|done].
  - unfold wait_begins. destruct (lf_wg l =? 0); [|by apply (fate_still c up l)].
    by apply send_fate; [|apply (fate_still c up l)].
  - unfold wait_returns. destruct (lf_wg l =? 0); [|done].
    by apply send_fate; [|apply (fate_still c up l)].
  - by apply (fate_still c up l).
  - by apply (fate_still c up l).
  - unfold idle_decide in *. destruct (0 <? longest).
    + unfold clock. simpl. destruct (_ <? _); [|by apply (fate_still c up l)].
      apply send_fate; [done|]. by apply (fate_still c up l).
    + apply send_fate; [|by apply (fate_still c up l)].
      simpl. intros _ Hup Hin. destruct Hopen as [Hcl|Htr]; [left; auto|right].
      apply Hov. set_solver.
  - by apply (fate_still c up l).
  - unfold fate in *. rewrite Hm in Hf. simpl. destruct Hf as [Hf Hs].
    split_and!; [by left; apply Hf|done|done].
  - unfold fate in Hf. rewrite Hm in Hf. destruct Hf as (Hf & Hfi & Hs).
    assert (lf_main (close_visit id why first seen l) = Closing why first ({[id]} ∪ seen)) as Hm'
      by (unfold close_visit; by destruct (close_step _ _ _ _)).
    unfold fate. rewrite Hm'. split_and!; [|destruct Hfi; auto|done].
    destruct (decide (id = c)) as [->|Hne]; [intros _; right; set_solver|].
    assert (lf_process (close_visit id why first seen l) = closing id (lf_process l)) as Hp
      by (unfold close_visit, closing; by destruct (close_step _ _ _ _)).
    rewrite Hp, (alone_closed c (lf_process l)) by by apply closing_alone.
    intros Hcl. destruct (Hf Hcl) as [|]; [by left|right; set_solver].
  - unfold fate in Hf. rewrite Hm in Hf. destruct Hf as (_ & Hfi & _).
    rewrite Hm in Hmain. destruct Hmain as (_ & _ & Hseen).
    unfold fate, ending. simpl. destruct (lf_stats l) as [s|]; [destruct (stats_Shutdown s); [|done]|];
      (destruct Hopen as [|Htr]; [done|]; destruct Hfi as [|Hin]; [done|];
       destruct (Hseen c) as (ic & Hic & Hcl); [apply Hov; set_solver|];
       unfold conn_closed, track; unfold lf_track in Hic; by rewrite Hic).
Qed.

(** Every step of the program keeps a tunnel's fate, as long as nothing panics. *)
Definition fated (g : Program) (tu : TunnelState) : Prop :=
  p_crashed (pg_proc g) = true ∨ fate (tu_conn tu) (ended (tu_up tu)) (pg_life g).

Lemma g_step_alive g g' : g_step g g' → alive (pg_life g) = true.
Proof. destruct 1 as [p' Ha Hp|p' Ha Hp|l' Hl|i t c up down Ha|j tu mv tu' p' Ha]; [done|done| |done|done].
  by apply own_step_process in Hl as [Ha _].
Qed.

Lemma tunnel_dom s tu :
  system_inv s → tu ∈ sy_tunnels s → tu_conn tu ∈ dom (ts_heap (track (sy_proc s))).
Proof.
  intros Hi Hin. destruct (to_conn _ _ (si_ok _ Hi tu Hin)) as (ic & Hic & _).
  apply elem_of_dom. by exists ic.
Qed.

Lemma fate_step g g' j tu :
  system_inv (system_of g) → l_inv config quit (pg_life g) → g_step g g' →
  pg_tunnels g !! j = Some tu → fate (tu_conn tu) (ended (tu_up tu)) (pg_life g) →
  ∃ tu', pg_tunnels g' !! j = Some tu' ∧ tu_conn tu' = tu_conn tu ∧ fated g' tu'.
Proof.
  intros Hi Hl Hs Hj Hf.
  assert (tu ∈ pg_tunnels g) as Hin by by eapply list_elem_of_lookup_2.
  destruct Hs as [p' Ha Hp|p' Ha Hp Hw H0 H1|l' Hown|i t c up down Ha Hit Ht Hn Hdn|k tu0 mv tu' p' Ha Hk Hm]; simpl.
  - exists tu. split_and!; [done|done|right]. apply (fate_still _ _ (pg_life g)); [done| |done].
    by apply alone_closed, (r_step_alone (system_of g)).
  - exists tu. split_and!; [done|done|by right].
  - exists tu. split_and!; [done|done|right]. apply (own_step_fate _ _ (pg_life g)); [done|done| |done].
    by apply (tunnel_dom (system_of g)).
  - exists tu. split_and!; [by apply lookup_app_l_Some|done|by right].
  - destruct (move_frame _ _ _ _ _ Hm) as (_ & Hc & _).
    destruct (decide (k = j)) as [->|Hne].
    + assert (tu0 = tu) as -> by congruence.
      rewrite list_lookup_insert_eq by by eapply lookup_lt_Some. exists tu'. split_and!; [done|done|]. unfold fated, pg_proc. simpl.
      destruct (p_crashed p') eqn:Hcr; [by left|right]. rewrite Hc.
      pose proof (si_ok _ Hi tu Hin) as Hok.
      destruct (move_closes _ _ _ _ _ Hok Hm Hcr) as [Hu Hcl].
      apply (fate_same _ (ended (tu_up tu)) _ (pg_life g)); [done|done| |exact Hcl|exact Hf].
      intros Hcc. pose proof (conn_closed_move _ _ _ _ _ Hok Hm Hcc) as H. by rewrite Hc in H.
    + rewrite list_lookup_insert_ne by done. exists tu. split_and!; [done|done|right].
      apply (fate_still _ _ (pg_life g)); [done| |done].
      apply alone_closed, (move_alone mv tu0 _ tu'); [done|]. intros Heq. apply Hne.
      symmetry. by apply (tunnels_disjoint (system_of g) j k tu tu0).
Qed.

Lemma fated_run g g' j tu :
  system_inv (system_of g) → l_inv config quit (pg_life g) → rtc g_step g g' →
  pg_tunnels g !! j = Some tu → fated g tu →
  ∃ tu', pg_tunnels g' !! j = Some tu' ∧ tu_conn tu' = tu_conn tu ∧ fated g' tu'.
Proof.
  intros Hi Hl Hr. revert tu Hi Hl. induction Hr as [g|g1 g2 g3 Hs _ IH]; intros tu Hi Hl Hj Hf;
    [by exists tu|].
  pose proof (g_step_alive _ _ Hs) as Ha%alive_not_crashed.
  destruct Hf as [Hcr|Hf]; [unfold pg_proc in Hcr; congruence|].
  destruct (fate_step g1 g2 j tu Hi Hl Hs Hj Hf) as (tu2 & Hj2 & Hc2 & Hf2).
  destruct (IH tu2) as (tu3 & Hj3 & Hc3 & Hf3); [| |done|done|].
  - pose proof (g_step_system _ _ Hs) as Hss. clear -Hss Hi.
    induction Hss; eauto using system_inv_step.
  - eapply run_inv; [by apply g_step_life|done].
  - exists tu3. split_and!; [done|congruence|done].
Qed.

(** Why the last range may close a connection. *)
Definition cut_reason (c : nat) (why : option Why) : Prop :=
  match why with
  | None => quit = true
  | Some ByClosed => True
  | Some (ByIdle whole checked) => c ∈ whole →
      ∃ ic now, (c, ic, now) ∈ checked ∧ IdleThreshold config ≤ now - ic_LastActivity ic
  | Some (ByTimeout beginTs now) => ExitTimeout config < Sub now beginTs
  end.

Lemma closing_reason c why first seen l :
  l_inv config quit l → tr_IdleThreshold (ts_tracker (lf_track l)) = IdleThreshold config →
  lf_main l = Closing why first seen → saw c false why → cut_reason c why.
Proof.
  intros Hl Ht Hm Hsaw. pose proof (li_main _ _ _ Hl) as Hmain. pose proof (li_signal _ _ _ Hl) as Hsig.
  rewrite Hm in Hmain. destruct Hmain as (Hwhy & _).
  destruct why as [[|whole checked|b now]|]; simpl in *; try done.
  - intros Hin. destruct (Hsaw Hin) as [|Hid]; [done|].
    unfold ids in Hid. apply elem_of_list_to_set, list_elem_of_fmap in Hid as ([id ic] & Hid & Hin').
    simpl in Hid. subst id. apply list_elem_of_fmap in Hin' as ([[id' ic'] now] & [= -> ->] & Hin').
    exists ic', now. split; [done|]. rewrite <-Ht. by apply Hwhy with (id := id').
  - unfold signal_ok in Hsig. rewrite Hwhy in Hsig.
    destruct (lf_timeout l); [|by destruct Hsig]. destruct Hsig as (_ & _ & Hq). auto.
Qed.

(** ** Theorem *)


(** ** Executing the program with tunnels *)
Lemma life_steps l l' :
  rtc l_step l l' → rtc g_step (mkProgram l []) (mkProgram l' []).
Proof.
  induction 1 as [|l1 l2 l3 Hs _ IH]; [done|]. eapply rtc_l; [|exact IH].
  assert (∀ p p', p_step p p' → r_step config hc ∅ p p') as Hr.
  { intros p p' Hp.
    by destruct (p_step_cases config hc ∅ _ _ Hp) as [|[(op & Hop & _)|(id & Hid & _)]];
      [|apply elem_of_empty in Hop|apply elem_of_empty in Hid]. }
  destruct Hs as [p Ha Hp|p Ha Hp Hw H0 H1|l2 Hs]; [| |by apply (g_own (mkProgram l1 []))].
  - by apply (g_process (mkProgram l1 [])); [|apply Hr].
  - by apply (g_misuse (mkProgram l1 [])); [|apply Hr|..].
Qed.

Definition own_turns (ts : list Turn) (g : Program) : Program :=
  mkProgram (turns config hc quit ts (pg_life g)) (pg_tunnels g).

Lemma own_turns_steps ts g :
  Forall (λ t, ∀ c, t ≠ TProcess c) ts → rtc g_step g (own_turns ts g).
Proof.
  destruct g as [l tus]. unfold own_turns. simpl. intros H. revert l.
  induction H as [|t ts Ht _ IH]; intros l; [done|]. simpl. etrans; [|apply IH].
  pose proof (turn_own config hc quit t l Ht) as Hr. induction Hr as [|l1 l2 l3 Hs _ IHr]; [done|].
  eapply rtc_l; [by apply (g_own (mkProgram l1 tus))|done].
Qed.

(** The goroutine [i] starts its tunnel. *)
Definition spawn (i : nat) (g : Program) : Program :=
  mkProgram (pg_life g) (if alive (pg_life g) then sy_tunnels (do_spawn (system_of g) i []) else pg_tunnels g).

Lemma spawn_steps i g : rtc g_step g (spawn i g).
Proof.
  destruct g as [l tus]. unfold spawn, do_spawn, system_of, pg_proc. simpl.
  destruct (alive l) eqn:Ha; [|done]. rewrite (alive_not_crashed l Ha).
  destruct (p_threads (lf_process l) !! i) as [t|] eqn:Hi; [|done].
  destruct (t_prog t) as [[r|]|] eqn:Ht; try done. destruct r; try done.
  case_bool_decide; [done|]. by apply rtc_once, (g_spawn (mkProgram l tus) i t).
Qed.
End program.

(** A tunnel that is idle when the program is told to stop. *)
Definition tunnel_life : Program :=
  spawn 0 (mkProgram (sample_life "" (TProcess <$> tunnel_choices)) []).

Definition told_to_stop : list Turn :=
  [TSignal Kill; TServed; TIdleBegin; TIdleVisit 0; TIdleDecide; TExit; TClose 0].

Definition after_stop : Program :=
  @own_turns slow_env direct_transport toy_net (sample_config "") false false told_to_stop tunnel_life.

Definition main_closing (m : MainState) : bool :=
  match m with Closing (Some (ByIdle whole _)) _ _ => bool_decide (whole = {[0%nat]}) | _ => false end.

