(* ===== verification/Main.v ===== *)
(** * The program: from the command line to the sockets

    [main] of [src/main.go]: the configuration that the command line gives,
    with the role of a request taken from its client certificate, is what
    [StartWithConfig] serves.  The theorems here are about whole runs of the
    program. *)

From S2P Require Import Prelude GoStrings GoNet Acl AclYaml AclSpec Http Config Classify Conntrack Proxy Serve Logic Effects Safety Concurrent Shutdown Services Lifecycle Exit Tls Loader.

Section main.
Context `{E : Env} `{T : Transport} `{N : Net} `{K : Pki} `{MR : !MapRange string Rule}.
Variable statsd_New : string → result unit.
Variable yaml_UnmarshalStrict : string → result yamlConfig.
(** What the loader of the ACL file uses. *)
Context {File : Type} (os_Open : string → result File) (ReadAll : File → result string).
Variable yaml_Unmarshal : string → result YAMLConfig.
Variable sharp_v : string → string.

Definition acl_Load : string → result ACL :=
  YAMLLoader_Load os_Open ReadAll yaml_Unmarshal sharp_v.

#[local] Notation NewConfiguration := (NewConfiguration statsd_New acl_Load yaml_UnmarshalStrict).

(** What becomes of the process: help or the version was shown and nothing else
    is done; a fatal
    error; a panic while the configuration is loaded; or the server runs. *)
Inductive Program :=
| HelpShown
| Fatal
| LoadPanicked
| Running (config : Config) (listener : Listener) (l : Life).

Definition main (cx : cliContext) : Program :=
  match NewConfiguration cx with
  | LoadError _ => Fatal      (* logrus.Fatalf *)
  | LoadExit => Fatal         (* the loader's own *)
  | LoadPanic => LoadPanicked
  | Loaded None => HelpShown
  | Loaded (Some conf) =>
      let config := with_RoleFromRequest (fc_Config conf) (Some defaultRoleFromRequest) in
      let tls := match ts_TlsConfig (fc_Tls conf) with Some _ => true | None => false end in
      match StartWithConfig config tls None with
      | Fail _ => Fatal       (* can't find listener *)
      | Ok (listener, l) => Running config listener l
      end
  end.

(** A run of the program; [main] gives no channel to [StartWithConfig] and sets
    no health check. *)
Definition runs (config : Config) : Life → Life → Prop := rtc (l_step config false false).

Lemma main_running cx config listener l :
  main cx = Running config listener l →
  ∃ conf, NewConfiguration cx = Loaded (Some conf) ∧
    config = with_RoleFromRequest (fc_Config conf) (Some defaultRoleFromRequest) ∧
    StartWithConfig config (match ts_TlsConfig (fc_Tls conf) with Some _ => true | None => false end)
      None = Ok (listener, l).
Proof.
  unfold main. destruct (NewConfiguration cx) as [[conf|]| | |]; try done.
  destruct (StartWithConfig _ _ _) as [[lis l']|] eqn:Hs; [|done].
  intros [= <- -> ->]. by exists conf.
Qed.

(** Help is shown when it is asked for, whatever else is, and so is the version. *)
Lemma NewConfiguration_help cx : NewConfiguration cx = Loaded None ↔ cx_version cx || cx_help cx = true.
Proof.
  unfold Loader.NewConfiguration. destruct (cx_version cx || cx_help cx); [done|].
  destruct (0 <? length (cx_args cx))%nat; [done|]. split; [|done].
  intros H. repeat (apply lbind_loaded in H as (? & _ & H)). done.
Qed.

(** The socket that is listened on. *)
Definition listen_socket (config : Config) (socket : Listener) : Prop :=
  if net_IsWorker then net_GetListener 0 = Ok tt ∧ socket = EinhornListener 0
  else let addr := Ip config +:+ ":" +:+ pretty (Port config) in
       net_Listen "tcp" addr = Ok tt ∧ socket = TcpListener addr.

Lemma findListener_ok config socket :
  findListener (Ip config) (Port config) = Ok socket ↔ listen_socket config socket.
Proof.
  unfold findListener, listen_socket. destruct net_IsWorker.
  - rewrite result_bind_ok. split; [by intros ([] & ? & [= <-])|intros [? ->]; eauto].
  - rewrite result_bind_ok. split; [by intros ([] & ? & [= <-])|intros [? ->]; eauto].
Qed.

(** The role of a request is the common name of its first certificate. *)
Lemma role_of_default config req role :
  RoleFromRequest config = Some defaultRoleFromRequest → AllowMissingRole config = false →
  role_of config req = Some role →
  ∃ cert certs, PeerCertificates req = Some (cert :: certs) ∧ role = CommonName cert.
Proof.
  unfold role_of. intros -> ->. unfold defaultRoleFromRequest.
  destruct (PeerCertificates req) as [[|cert certs]|]; simpl; try done.
  intros [= <-]. by exists cert, certs.
Qed.

Lemma effective_certificates req : PeerCertificates (effective req) = PeerCertificates req.
Proof.
  unfold effective. destruct (_ && _); [|done].
  by destruct (tr_url_Parse _) as [[[? ?] ?]|].
Qed.

(** Dials of a run of the program. *)
Lemma run_dials config tls flag listener l0 l network addr timeout :
  StartWithConfig config tls flag = Ok (listener, l0) → runs config l0 l →
  EvDial network addr timeout ∈ w_trace (p_world (lf_process l)) →
  network = "tcp" ∧ (∃ a, addr = TCPAddr_String a ∧ allowed config a) ∧
  ∃ i t, p_threads (lf_process l) !! i = Some t ∧ EvDial network addr timeout ∈ calls (t_effects t) ∧
    acl_permits config (effective (t_req t)) (checked_host (t_req t)).
Proof.
  intros Hs Hr%life_process Hin. destruct (started config false _ _ _ _ Hs) as (Hp & _). rewrite Hp in Hr.
  destruct (process_dials config false _ _ Hr) as (es & Ht & Hd). rewrite Ht in Hin. by apply Hd.
Qed.

(** C4: from the command line to the sockets. The program is started without a
    configuration file and serves; then in every run of it, with any requests
    in any interleaving, any answers of the outside, and any signals, every
    connection that it tries to open is over TCP to an address in a range of
    [--allow-range] or [--allow-address], or else to one that is global
    unicast, in no range of [--deny-range] or [--deny-address] and not private.
    With [--egress-acl-file] the file could be loaded, and each connection is
    opened for a request whose client presented a certificate, such that the
    file (its entries, global lists and actions as the reference
    [file_decision] reads them) lets the common name of the certificate reach
    the requested host. *)
Theorem command_line_to_socket cx config listener l0 l :
  cx_config_file cx = "" → main cx = Running config listener l0 → runs config l0 l →
  ∃ dr da ar aa,
  added_ranges (cx_deny_range cx) dr ∧ added_addresses (cx_deny_address cx) da ∧
  added_ranges (cx_allow_range cx) ar ∧ added_addresses (cx_allow_address cx) aa ∧
  ∀ network addr timeout, EvDial network addr timeout ∈ w_trace (p_world (lf_process l)) →
    network = "tcp" ∧
    (∃ a, addr = TCPAddr_String a ∧
       (in_ranges a (ar ++ aa) ∨
        IsGlobalUnicast (tcp_IP a) = true ∧ ¬ in_ranges a (dr ++ da) ∧
        ¬ in_ranges a PrivateRuleRanges)) ∧
    ∀ f, cx_egress_acl_file cx = Some f → f ≠ "" →
      ∃ file text cfg, os_Open f = Ok file ∧ ReadAll file = Ok text ∧
        yaml_Unmarshal text = Ok cfg ∧ yc_Version cfg = "v1" ∧
      ∃ i t cert certs host, p_threads (lf_process l) !! i = Some t ∧
        EvDial network addr timeout ∈ calls (t_effects t) ∧
        PeerCertificates (t_req t) = Some (cert :: certs) ∧
        hostExtract (checked_host (t_req t)) = Some host ∧
        file_decision cfg (CommonName cert) host ∈ [Allow; AllowAndReport].
Proof.
  intros Hf (conf & Hc & -> & Hs)%main_running Hr.
  destruct (NewConfiguration_effect _ _ _ _ _ Hc) as (b & Hb & Hoa).
  destruct (oa_ranges _ _ _ _ _ Hoa) as (dr & da & ar & aa & ? & ? & ? & ? & Hdeny & Hallow).
  pose proof (oa_acl _ _ _ _ _ Hoa) as Hacl. destruct (oa_rest _ _ _ _ _ Hoa) as (Hmiss & _).
  unfold base_config in Hb. rewrite Hf in Hb. simpl in Hb. subst b. simpl in Hdeny, Hallow, Hmiss, Hacl.
  exists dr, da, ar, aa. split_and!; [done..|]. intros network addr timeout Hin.
  destruct (run_dials _ _ _ _ _ _ _ _ _ Hs Hr Hin) as (-> & (a & -> & Ha) & i & t & Hi & He & Hp).
  split_and!; [done| |].
  - exists a. split; [done|]. unfold allowed in Ha. apply classifyAddr_allowed in Ha. simpl in Ha.
    by rewrite Hdeny, Hallow in Ha.
  - intros f Hf' Hne. rewrite Hf' in Hacl. destruct f as [|ch f]; [done|].
    destruct Hacl as (acl & w & Hacl & Hnew). unfold acl_permits in Hp. simpl in Hp. rewrite Hacl in Hp.
    destruct Hp as (role & dest & d & Hrole & Hdest & Hd & Hres).
    apply role_of_default in Hrole as (cert & certs & Hcert & ->); [|done|done].
    rewrite effective_certificates in Hcert.
    destruct (acl_Load (String ch f)) as [acl0|] eqn:Hload; [|done]. unfold acl_Load in Hload.
    apply YAMLLoader_Load_ok_iff in Hload as (file & text & cfg & Hfile & Htext & Hcfg & Hv & Hload).
    rewrite <-Hload in Hnew. destruct (file_ACL _ _ _ _ Hnew) as [Hdec _].
    destruct (Hdec (CommonName cert) dest) as [_ Hr']. unfold Decide, ACL_Decider in Hd. rewrite Hd in Hr'.
    exists file, text, cfg. split_and!; [done..|]. exists i, t, cert, certs, dest.
    split_and!; [done..|]. simpl in Hr'. rewrite <-Hr'. destruct Hres as [->| ->]; set_solver.
Qed.

End main.

(** ** A sample run: an ACL, a denied range and a certificate *)
#[local] Existing Instance toy_range.

Definition acl_options : cliContext :=
  mkCliContext false false [] "" None None None None None None None None (Some ["1.0.0.0/8"]) None None None
    None None (Some "acl.yaml") None (Some "bundle") ["ca1"].

Definition decode_acl (text : string) : result YAMLConfig :=
  Ok (mkYAMLConfig (Some [mkYAMLRule "dummy-glob" "phony" "enforce" ["*.example.com"]]) None "v1"
        None None).

Definition sample_main (cx : cliContext) : Program :=
  @main toy_net toy_pki _ toy_statsd toy_yaml string one_file Ok decode_acl (λ s, s) cx.

(** A test on the program after some turns. *)
Definition test_main (cx : cliContext) (ts : list Turn) (test : Listener → Life → bool) : bool :=
  match sample_main cx with
  | Running config listener l =>
      test listener (@turns slow_env direct_transport toy_net config false false ts l)
  | _ => false
  end.

Definition tunnel_turns : list Turn := TProcess <$> (Arrive connect_request :: replicate 20 (Go 0)).

Definition dials (l : Life) : list Event :=
  List.filter (λ ev, match ev with EvDial _ _ _ => true | _ => false end)
    (w_trace (p_world (lf_process l))).

Lemma command_line_to_socket_witness :
  ∃ config listener l0 l, sample_main acl_options = Running config listener l0 ∧
  @runs slow_env direct_transport toy_net config l0 l ∧
  EvDial "tcp" "93.184.216.34:443" 0 ∈ w_trace (p_world (lf_process l)) ∧
  ∃ a, "93.184.216.34:443" = TCPAddr_String a ∧ ¬ in_ranges a PrivateRuleRanges ∧
  ∃ t cert certs host, t ∈ p_threads (lf_process l) ∧
    PeerCertificates (t_req t) = Some (cert :: certs) ∧
    ∃ cfg, decode_acl "text" = Ok cfg ∧
      file_decision cfg (CommonName cert) host ∈ [Allow; AllowAndReport].
Proof.
  assert (test_main acl_options tunnel_turns (λ _ l, match dials l with
    | [EvDial n a t] => String.eqb n "tcp" && String.eqb a "93.184.216.34:443" && (t =? 0)
    | _ => false end) = true) as H by (vm_compute; reflexivity).
  unfold test_main in H. destruct (sample_main acl_options) as [| | |config listener l0] eqn:Hm; try discriminate H.
  assert (@runs slow_env direct_transport toy_net config l0
    (@turns slow_env direct_transport toy_net config false false tunnel_turns l0)) as Hr
    by apply turns_steps.
  exists config, listener, l0,
    (@turns slow_env direct_transport toy_net config false false tunnel_turns l0).
  revert H Hr. generalize (@turns slow_env direct_transport toy_net config false false tunnel_turns l0).
  intros l H Hr. split; [reflexivity|]. split; [exact Hr|].
  assert (EvDial "tcp" "93.184.216.34:443" 0 ∈ w_trace (p_world (lf_process l))) as Hin.
  { destruct (dials l) as [|[| |n a t| |] [|? ?]] eqn:Hd; try discriminate H.
    to_prop. destruct H as [[-> ->] ->]. apply list_elem_of_In.
    eapply (proj1 (filter_In _ _ _)). unfold dials in Hd. rewrite Hd. by left. }
  split; [exact Hin|].
  destruct (@command_line_to_socket slow_env direct_transport toy_net toy_pki _ toy_statsd toy_yaml
    string one_file Ok decode_acl (λ s, s) acl_options config listener l0 l eq_refl Hm Hr)
    as (dr & da & ar & aa & _ & _ & Har & Haa & Hall).
  destruct (Hall _ _ _ Hin) as (_ & (a & Ha & Hcl) & Hacl).
  exists a. split; [exact Ha|]. split.
  - clear -Hcl Har Haa. simpl in Har, Haa. subst ar aa.
    destruct Hcl as [(r & Hr & _)|(_ & _ & Hp)]; [by apply elem_of_nil in Hr|exact Hp].
  - destruct (Hacl "acl.yaml" eq_refl ltac:(discriminate))
      as (file & text & cfg & Hf & Ht & Hcfg & _ & i & t & cert & certs & host & Hi & _ & Hc & _ & Hd).
    exists t, cert, certs, host. split; [exact (list_elem_of_lookup_2 _ _ _ Hi)|].
    split; [exact Hc|]. exists cfg. split; [|exact Hd].
    injection Hf as <-. injection Ht as <-. exact Hcfg.
Defined.

